(* ===== verification/_CoqProject ===== *)
-Q . S2P
Prelude.v
Capability.v
World.v
Exec.v
Syscall.v
Alloc.v
Flag.v
FlagSpec.v
IabSpec.v
ExtInt.v
File.v
FileSpec.v
Proc.v
Text.v
TextLex.v
TextSpec.v
TextParse.v
TextPrint.v
TextToText.v
TextRound.v
Launch.v
ProcSpec.v
KernelLaws.v
ModeSpec.v
IabProcSpec.v
IabText.v
Psx.v
PsxMap.v
PsxInv.v
PsxUniform.v
PsxSweep.v
PsxCall.v
PsxMaster.v
PsxSolo.v
PsxSpec.v
LaunchSpec.v
ApiSpec.v
Progress.v
ProgressApi.v
ApiTotal.v
CLib.v
ProgSpec.v
Pam.v
PamSpec.v
Tools.v
ToolsSpec.v
Capshdoc.v
Capsh.v
CapshSpec.v
Su.v
SuSpec.v
SuTotal.v
Execable.v
Capso.v
CapsoSpec.v
RefKernel.v
Witness.v
WitnessText.v
WitnessPam.v
WitnessTools.v
WitnessSu.v
WitnessExec.v
WitnessApi.v
WitnessTotal.v
WitnessPsx.v
