(* ===== verification/Prelude.v ===== *)
(** * libcap: a verification development

    libcap gives programs the capabilities of Linux processes and files as sets,
    as text and as bytes. The repository holds the library (libcap/), libpsx (psx/),
    which makes one system call on all threads of a process, a PAM module
    (pam_cap/), command line tools (progs/), two programs that show how to use it
    (contrib/: su, and a library that binds port 80), and Go packages. This
    development models the C code and proves what each part promises.

    ** How the program is modelled

    A C function is a Rocq definition of the same name in the monad [M K] of
    World.v: a function from a [world] to an [outcome] and a world. A world has
    the typed heap of libcap's objects (capability sets, IAB tuples, launchers
    and strings, at addresses; NULL is 0), a list that says which of the coming
    allocations succeed, errno, the library's globals, the state of the kernel,
    and what was printed. An outcome is a result, the end of the program (exit
    or exec), [Spin] (a lock that is never released, or a loop that does not
    end) or [Fault] (undefined behaviour: a NULL or dangling pointer, an access
    out of bounds). Machine words are [Z] with their wrap-around written out.

    Everything outside the repository is a parameter with its documented
    behaviour as a class of laws:
    - [World.Kernel] with [KernelLaws.KernelLaws]: capget, capset, prctl and the
      credentials of capabilities(7); [CapshSpec.BoundLaws] adds the refusals of
      PR_CAPBSET_DROP, [ApiSpec.WordLaws] that words have 32 bits
      ([ApiSpec.ByteLaws]: that attributes hold bytes);
    - [File.FileSys] with [FileSpec.FileSysLaws] and [ToolsSpec.FileLaws]:
      descriptors and the attribute security.capability of regular files;
    - [Launch.Process] with [LaunchSpec.ProcessLaws]: fork, pipe, execve, wait;
    - [Text.ProcFs], [CLib.Accounts], [Pam.Pam], [Tools.Streams],
      [Capsh.Session]: /proc, the account database, libpam and the
      configuration file, standard input and lstat, what capsh asks of a session;
    - [Su.SuSystem]: libpam as its client su sees it, the terminal, the signals and
      the records of sessions, with no law at all; [Execable.SelfProc]: the file
      /proc/self/cmdline; [Capso.Sockets] with [CapsoSpec.SocketLaws]: sockets;
    - [gperf]: the generated name lookup, [None] in a build without gperf, with
      [TextLex.gperf_ok]; [stack]: the bytes of an uninitialised variable.
    RefKernel.v has an executable kernel that satisfies the laws together, and the
    Witness files run the theorems on it.

    ** The files

    Shared: Prelude (words, digits, hints and tactics), World (heap, monad, locks
    of libcap.h), Exec (symbolic execution and the tactic [run]).

    libcap: Capability (the constants of the headers, and libcap/_makenames.c as
    a fold that computes the name table), Syscall (the syscallers of cap_proc.c
    and cap_syscalls.c, prctl wrappers), Alloc (cap_alloc.c and its constructor),
    Flag (cap_flag.c), ExtInt (cap_extint.c), File (cap_file.c), Proc (cap_proc.c
    but the launchers), Text (cap_text.c), Launch (the launchers of cap_proc.c).
    Their theorems: Alloc, ExtInt, and
    - FlagSpec, IabSpec: sets and tuples as finite sets of numbers, each operation
      as the set operation it stands for, and A within I in every tuple;
    - FileSpec: what an attribute can carry, round trips, no descriptor leaks;
    - ProcSpec: the requests that reach the kernel on every branch, for any kernel;
      KernelLaws, ModeSpec, IabProcSpec: what becomes of the credentials on the
      documented kernel: modes and tuples are set as asked, and read back;
    - TextLex, TextSpec, TextParse, TextPrint, TextToText, TextRound, IabText: a
      grammar with its meaning on sets; the parsers implement it and end on every
      string, the printers stay in their buffer and round trip;
    - LaunchSpec: a launch succeeds when every step of the child has, in order;
    - ApiSpec: the calls of sys/capability.h as one type, and the invariant of all
      programs that make them: types, widths, fresh addresses, released locks. Its
      judgement [does] is a typing of locks that [tame_steps] applies; it is on the
      calls that return. That they do return is what Progress (the judgement [goes]
      over the shape of the memory, a lemma per operation, the tactic [go]),
      ProgressApi (files, /proc, launchers) and ApiTotal show: [ApiTotal.sound] is
      the invariant, [ApiTotal.allowed] the contract of a call.

    libpsx: Psx is a transition system: the tracker, its map of threads, and for
    each thread the point of psx_syscall() or of the signal handler where it
    stands. One step is what happens between two acquisitions of the lock. Threads
    interleave, create threads, exit and take the signal at any point. PsxMap (the
    map), PsxInv (mutual exclusion, one call at a time), PsxUniform, PsxSweep,
    PsxCall, PsxMaster (all threads end with the same credentials), PsxSolo (one
    thread), PsxSpec (the theorems, and the deadlock that exists), WitnessPsx (the
    executions, among them one in which a thread escapes the call).

    Programs: CLib (strtok, strtoul, fgets and the like), ProgSpec (what a program
    holds for a while and releases, the relations [moved] and [heaped]),
    - Pam with PamSpec: pam_cap.c - which line of capability.conf applies, and that
      the entry points give the user that and otherwise change nothing;
    - Tools with ToolsSpec: setcap.c, getcap.c, getpcaps.c - setcap stores the set
      it was given or reports failure, -v decides equality, getcap's lines parse
      back to what the files hold;
    - Capsh, Capshdoc with CapshSpec: capsh.c and capshdoc.c, one definition per
      option - the effect of --drop= and --inh= on the credentials, and the digits
      that are shown;
    - Su with SuSpec: contrib/sucap/su.c. The variables of the file and of main()
      are the record [su_vars]; its [log] is a history variable, the requests to
      libpam with their answers, the identity assumed and the launch. SuSpec has the
      protocol as an automaton on events: every run is accepted by it, whatever the
      system answers, and a shell is only launched in the state in which all was
      granted; its judgement [yields] is a Hoare triple for the runs that return.
      SuTotal: that every run ends, by the judgement [goes] of Progress;
    - Execable: execable.h (the start code of a library that is run, as a loop over
      the bytes of its command line) and the mains of libcap.so, libpsx.so and
      pam_cap.so; the arguments come back as the kernel got them;
    - Capso with CapsoSpec: contrib/capso - the descriptors on every path, and the
      only capability that is raised.

    The programs call the library's definitions, not their specifications; their
    proofs use the specifications. libcap reaches libpsx through the syscaller
    table of Syscall.v, where a call through libpsx is the call on the calling
    thread: PsxSolo proves this for one thread, PsxMaster that the others follow.

    ** Fuel and bounds

    - loops that probe capability numbers up ([Proc.probe_fuel], 128): the kernel
      refuses 64 at the latest ([KernelLaws.law_last]); the retry on EAGAIN
      ([Launch.retry_fuel], 16): a pipe that blocks gives it never;
    - [Alloc.cap_free] recurses three deep: a launcher holds a tuple and a string,
      which hold nothing; the binary search takes as many turns as its interval is long;
    - the parsers, strtok and the lists of the tools take a turn per character of
      what is left; that they end is a theorem ([TextRound.cap_from_text_total],
      [IabText.cap_iab_from_text_correct]), not an assumption; setcap's loop over
      the flags takes 65 turns, [Tools.MAXCAP] bounds what it reads;
    - su's loops around waitpid(2) take [turns], a parameter of the program: the
      protocol holds of the runs that return, for every [turns], and su ends when
      signals do not break off [turns] waits in a row ([SuTotal.waits_end]); reading
      the command line takes a turn per character and doubles its buffer in each;
      build_shell_args() one per character;
    - [Capsh.mode_fuel] (8) is more than the number of modes; the map of threads
      doubles at most [Psx.LONG_BITS] (63) times, as its size is a long.

    ** Not modelled

    - libcap/empty.c and pam_cap/lazylink.c, which do nothing and are there for the
      linker; the section .interp and the stack's alignment of execable.h; the
      destructors of the shared objects beyond what they release;
    - tests/ and the test programs of libcap/ and pam_cap/; kdebug/, for the emulated
      machine tests run in; progs/old/, which is not built; the Go packages and
      goapps/: another language and another implementation;
    - of contrib/capso, fake_exploit(), which is empty unless a test defines
      ALLOW_EXPLOIT;
    - in psx.c, the diagnostics on stderr and the buffer of directory entries: a
      sweep reads one entry at a time, threads that do not come or go are in it;
    - texts of usage, version and license messages are abbreviated; -lpthread's wrapper of
      pthread_create() is linker magic from earlier versions. *)

From stdpp Require Import gmap strings list fin_maps numbers.
From Stdlib Require Import ZArith Lia Bool Ascii.

#[export] Set Default Goal Selector "!".

Declare Scope libcap_scope.
Delimit Scope libcap_scope with libcap.
Open Scope Z_scope.

(** ** 32-bit words: a [__u32] is a [Z] in [0, 2^32) *)

Definition u32_max : Z := 4294967295.
Definition u32 (x : Z) : Z := x mod 4294967296.
Definition is_u32 (x : Z) : Prop := 0 <= x < 4294967296.

(** [~x] on a [__u32]. *)
Definition u32_not (x : Z) : Z := Z.ldiff u32_max x.

(** [1u << (n & 31)] *)
Definition bit32 (n : Z) : Z := Z.shiftl 1 (Z.land n 31).

#[global] Instance is_u32_dec x : Decision (is_u32 x).
Proof. unfold is_u32. apply _. Defined.

(** ** Generic tactics *)

(** Case analysis on every boolean comparison of the goal, in [Z]. *)
Ltac zbool :=
  repeat match goal with
  | |- context [?a <? ?b] => destruct (Z.ltb_spec a b)
  | |- context [?a <=? ?b] => destruct (Z.leb_spec a b)
  | |- context [?a =? ?b] => destruct (Z.eqb_spec a b)
  end.

(** Split a pile of hypotheses made of conjunctions and existentials. *)
Ltac inv_pile :=
  repeat match goal with
  | H : _ /\ _ |- _ => destruct H
  | H : exists _, _ |- _ => destruct H
  end.

(** ** Bits of words *)

Section bits.
Implicit Types x y n : Z.

Lemma u32_max_spec i : 0 <= i -> Z.testbit u32_max i = (i <? 32).
Proof.
  intros Hi. change u32_max with (Z.ones 32).
  rewrite Z.testbit_ones_nonneg by lia. done.
Qed.

Lemma is_u32_bits x :
  is_u32 x <-> 0 <= x /\ forall i, 32 <= i -> Z.testbit x i = false.
Proof.
  unfold is_u32. split.
  - intros Hx. split; [lia|]. intros i Hi.
    destruct (decide (x = 0)) as [->|]; [by rewrite Z.testbit_0_l|].
    apply Z.bits_above_log2; [lia|].
    apply Z.log2_lt_pow2; [lia|].
    apply Z.lt_le_trans with (2 ^ 32); [lia|]. apply Z.pow_le_mono_r; lia.
  - intros [H0 Hb]. split; [done|].
    destruct (decide (x = 0)) as [->|]; [lia|].
    change 4294967296 with (2 ^ 32). apply Z.log2_lt_pow2; [lia|].
    destruct (Z.lt_ge_cases (Z.log2 x) 32) as [|Hge]; [done|].
    specialize (Hb _ Hge). rewrite Z.bit_log2 in Hb by lia. done.
Qed.

Lemma is_u32_nonneg x : is_u32 x -> 0 <= x.
Proof. unfold is_u32; lia. Qed.

Lemma is_u32_high x i : is_u32 x -> 32 <= i -> Z.testbit x i = false.
Proof. intros [_ H]%is_u32_bits. apply H. Qed.

Lemma is_u32_0 : is_u32 0.
Proof. unfold is_u32; lia. Qed.

Lemma is_u32_max : is_u32 u32_max.
Proof. unfold is_u32, u32_max; lia. Qed.

Lemma is_u32_lor x y : is_u32 x -> is_u32 y -> is_u32 (Z.lor x y).
Proof.
  rewrite !is_u32_bits. intros [Hx Hx'] [Hy Hy']. split.
  - by apply Z.lor_nonneg.
  - intros i Hi. rewrite Z.lor_spec, Hx', Hy'; done.
Qed.

Lemma is_u32_land_l x y : is_u32 x -> is_u32 (Z.land x y).
Proof.
  rewrite !is_u32_bits. intros [Hx Hx']. split.
  - apply Z.land_nonneg; auto.
  - intros i Hi. rewrite Z.land_spec, Hx'; done.
Qed.

Lemma is_u32_land_r x y : is_u32 y -> is_u32 (Z.land x y).
Proof. rewrite Z.land_comm. apply is_u32_land_l. Qed.

Lemma is_u32_not x : is_u32 (u32_not x).
Proof.
  apply is_u32_bits. unfold u32_not. split.
  - apply Z.ldiff_nonneg. left. unfold u32_max; lia.
  - intros i Hi. rewrite Z.ldiff_spec, u32_max_spec by lia.
    zbool; [lia|done].
Qed.

Lemma is_u32_u32 x : is_u32 (u32 x).
Proof. unfold is_u32, u32. apply Z.mod_pos_bound. lia. Qed.

Lemma u32_id x : is_u32 x -> u32 x = x.
Proof. apply Z.mod_small. Qed.

Lemma land31 n : Z.land n 31 = n mod 32.
Proof. change 31 with (Z.ones 5). apply Z.land_ones. lia. Qed.

Lemma land31_bound n : 0 <= Z.land n 31 < 32.
Proof. rewrite land31. apply Z.mod_pos_bound. lia. Qed.

Lemma bit32_spec n i : 0 <= i -> Z.testbit (bit32 n) i = (i =? Z.land n 31).
Proof.
  intros Hi. unfold bit32. pose proof (land31_bound n).
  rewrite Z.shiftl_1_l, Z.pow2_bits_eqb by lia. apply Z.eqb_sym.
Qed.

Lemma is_u32_bit32 n : is_u32 (bit32 n).
Proof.
  pose proof (land31_bound n). apply is_u32_bits. split.
  - unfold bit32. apply Z.shiftl_nonneg. lia.
  - intros i Hi. rewrite bit32_spec by lia. zbool; [lia|done].
Qed.

Lemma u32_not_spec x i :
  0 <= i -> Z.testbit (u32_not x) i = (i <? 32) && negb (Z.testbit x i).
Proof. intros. unfold u32_not. by rewrite Z.ldiff_spec, u32_max_spec. Qed.

(** [land] with the complement of a mask is set difference. *)
Lemma land_not_spec x y i :
  is_u32 x -> 0 <= i ->
  Z.testbit (Z.land x (u32_not y)) i = Z.testbit x i && negb (Z.testbit y i).
Proof.
  intros Hx Hi. rewrite Z.land_spec, u32_not_spec by done.
  destruct (Z.ltb_spec i 32); [done|]. by rewrite (is_u32_high x i).
Qed.

(** A masked bit is nonzero exactly when the bit is set. *)
Lemma land_bit32_eqb x n :
  (Z.land x (bit32 n) =? 0) = negb (Z.testbit x (Z.land n 31)).
Proof.
  pose proof (land31_bound n) as Hn.
  destruct (Z.testbit x (Z.land n 31)) eqn:E; simpl.
  - apply Z.eqb_neq. intros H0.
    assert (Z.testbit (Z.land x (bit32 n)) (Z.land n 31) = true) as Ht.
    { rewrite Z.land_spec, E, bit32_spec by lia. by rewrite Z.eqb_refl. }
    by rewrite H0, Z.testbit_0_l in Ht.
  - apply Z.eqb_eq. apply Z.bits_inj'. intros i Hi.
    rewrite Z.land_spec, bit32_spec, Z.testbit_0_l by lia.
    destruct (Z.eqb_spec i (Z.land n 31)) as [->|]; [by rewrite E|].
    by rewrite andb_false_r.
Qed.

(** Two words are equal when their 32 bits are. *)
Lemma u32_ext x y :
  is_u32 x -> is_u32 y ->
  (forall i, 0 <= i < 32 -> Z.testbit x i = Z.testbit y i) -> x = y.
Proof.
  intros Hx Hy Hb. apply Z.bits_inj'. intros i Hi.
  destruct (Z.lt_ge_cases i 32); [by apply Hb|].
  by rewrite !is_u32_high.
Qed.

Lemma u32_not_involutive x : is_u32 x -> u32_not (u32_not x) = x.
Proof.
  intros Hx. apply u32_ext; [apply is_u32_not|done|].
  intros i Hi. rewrite !u32_not_spec by lia.
  destruct (Z.ltb_spec i 32); simpl; [by rewrite negb_involutive|lia].
Qed.

End bits.

Create HintDb words.
#[export] Hint Resolve is_u32_0 is_u32_max is_u32_lor is_u32_land_l is_u32_not
  is_u32_u32 is_u32_bit32 : words.
Create Rewrite HintDb bitspec.
#[export] Hint Rewrite Z.lor_spec Z.land_spec Z.ldiff_spec Z.testbit_0_l : bitspec.

(** Prove an equation between words bit by bit: push [testbit] through the
    operators, split on the masks and let the booleans decide. *)
Ltac word_ext i :=
  apply u32_ext; [eauto with words..|]; intros i ?;
  autorewrite with bitspec;
  rewrite ?u32_not_spec, ?u32_max_spec, ?bit32_spec by lia;
  zbool; try lia; simpl;
  repeat match goal with
  | |- context [Z.testbit ?a ?b] => destruct (Z.testbit a b) eqn:?
  end; try done.

(** ** What printf(3) prints for the conversions the library uses *)

Definition digit_char (d : Z) : ascii :=
  if d <? 10 then ascii_of_N (Z.to_N (48 + d)) else ascii_of_N (Z.to_N (87 + d)).

(** Digits of [n] from the last one on; one bit of [n] per turn is enough. *)
Fixpoint fmt_digits (fuel : nat) (base n : Z) (acc : string) : string :=
  match fuel with
  | O => acc
  | S fuel =>
      let acc := String (digit_char (n mod base)) acc in
      if n / base =? 0 then acc else fmt_digits fuel base (n / base) acc
  end.

(** [%u], [%x] and [%o] are bases 10, 16 and 8. *)
Definition fmt_uint (base n : Z) : string := fmt_digits (S (Z.to_nat (Z.log2 n))) base n "".
Definition fmt_d (n : Z) : string :=
  if n <? 0 then String "-" (fmt_uint 10 (- n)) else fmt_uint 10 n.

(** [%0<width>x] *)
Definition fmt_0x (width : nat) (n : Z) : string :=
  let s := fmt_uint 16 n in
  String.append (String.concat "" (replicate (width - String.length s) "0")) s.
