(* ===== verification/Capability.v ===== *)
(** Constants and tables of <linux/capability.h> and <sys/capability.h>: the
    capability numbers, versions and set identifiers, and the name table that
    libcap/_makenames.c computes from the header. *)

From S2P Require Import Prelude.
From stdpp Require Import strings list.
From Stdlib Require Import ZArith Lia.

Open Scope Z_scope.

(** ** <linux/capability.h>: versions of the kernel interface *)

Definition LINUX_CAPABILITY_VERSION_1 : Z := 0x19980330.
Definition LINUX_CAPABILITY_U32S_1 : Z := 1.
Definition LINUX_CAPABILITY_VERSION_2 : Z := 0x20071026.
Definition LINUX_CAPABILITY_U32S_2 : Z := 2.
Definition LINUX_CAPABILITY_VERSION_3 : Z := 0x20080522.
Definition LINUX_CAPABILITY_U32S_3 : Z := 2.

(** libcap.h: the build picks version 3 when the header has it. *)
Definition LIBCAP_CAPABILITY_VERSION : Z := LINUX_CAPABILITY_VERSION_3.
Definition LIBCAP_CAPABILITY_U32S : Z := LINUX_CAPABILITY_U32S_3.
Definition CAP_BLKS : Z := LIBCAP_CAPABILITY_U32S.
Definition CAP_MAXBITS : Z := CAP_BLKS * 32.
Definition NUMBER_OF_CAP_SETS : Z := 3.

(** ** Capability numbers, with the names the build derives from them

    The Makefile's [cap_names.list.h] keeps the header's
    [#define CAP_<name> <number>] lines, with the name in lower case. *)

Definition cap_names_list : list (string * Z) :=
  [
    ("cap_chown", 0); ("cap_dac_override", 1);
    ("cap_dac_read_search", 2); ("cap_fowner", 3);
    ("cap_fsetid", 4); ("cap_kill", 5);
    ("cap_setgid", 6); ("cap_setuid", 7);
    ("cap_setpcap", 8); ("cap_linux_immutable", 9);
    ("cap_net_bind_service", 10); ("cap_net_broadcast", 11);
    ("cap_net_admin", 12); ("cap_net_raw", 13);
    ("cap_ipc_lock", 14); ("cap_ipc_owner", 15);
    ("cap_sys_module", 16); ("cap_sys_rawio", 17);
    ("cap_sys_chroot", 18); ("cap_sys_ptrace", 19);
    ("cap_sys_pacct", 20); ("cap_sys_admin", 21);
    ("cap_sys_boot", 22); ("cap_sys_nice", 23);
    ("cap_sys_resource", 24); ("cap_sys_time", 25);
    ("cap_sys_tty_config", 26); ("cap_mknod", 27);
    ("cap_lease", 28); ("cap_audit_write", 29);
    ("cap_audit_control", 30); ("cap_setfcap", 31);
    ("cap_mac_override", 32); ("cap_mac_admin", 33);
    ("cap_syslog", 34); ("cap_wake_alarm", 35);
    ("cap_block_suspend", 36); ("cap_audit_read", 37);
    ("cap_perfmon", 38); ("cap_bpf", 39);
    ("cap_checkpoint_restore", 40)
  ].

Definition CAP_CHOWN : Z := 0.
Definition CAP_SETGID : Z := 6.
Definition CAP_SETUID : Z := 7.
Definition CAP_SETPCAP : Z := 8.
Definition CAP_NET_BIND_SERVICE : Z := 10.
Definition CAP_SYS_CHROOT : Z := 18.
Definition CAP_SETFCAP : Z := 31.
Definition CAP_CHECKPOINT_RESTORE : Z := 40.
Definition CAP_LAST_CAP : Z := CAP_CHECKPOINT_RESTORE.

Definition CAP_TO_INDEX (x : Z) : Z := Z.shiftr x 5.
Definition CAP_TO_MASK (x : Z) : Z := bit32 x.

(** ** <sys/capability.h>: set identifiers. A C [enum] argument can hold any
    integer, so the identifiers are numbers. *)

Definition CAP_EFFECTIVE : Z := 0.
Definition CAP_PERMITTED : Z := 1.
Definition CAP_INHERITABLE : Z := 2.

Definition CAP_IAB_INH : Z := 2.
Definition CAP_IAB_AMB : Z := 3.
Definition CAP_IAB_BOUND : Z := 4.

Definition CAP_CLEAR : Z := 0.
Definition CAP_SET : Z := 1.

Definition CAP_MODE_UNCERTAIN : Z := 0.
Definition CAP_MODE_NOPRIV : Z := 1.
Definition CAP_MODE_PURE1E_INIT : Z := 2.
Definition CAP_MODE_PURE1E : Z := 3.
Definition CAP_MODE_HYBRID : Z := 4.

(** [CAP_DIFFERS(result, flag)] and [CAP_IAB_DIFFERS(result, vector)] *)
Definition CAP_DIFFERS (result flag : Z) : bool :=
  negb (Z.land result (Z.shiftl 1 flag) =? 0).
Definition CAP_IAB_DIFFERS (result vector : Z) : bool :=
  negb (Z.land result (Z.shiftl 1 vector) =? 0).

(** libcap.h: the flag bits that match [CAP_DIFFERS] *)
Definition LIBCAP_EFF : Z := Z.shiftl 1 CAP_EFFECTIVE.
Definition LIBCAP_INH : Z := Z.shiftl 1 CAP_INHERITABLE.
Definition LIBCAP_PER : Z := Z.shiftl 1 CAP_PERMITTED.
Definition LIBCAP_IAB_I_FLAG : Z := Z.shiftl 1 CAP_IAB_INH.
Definition LIBCAP_IAB_A_FLAG : Z := Z.shiftl 1 CAP_IAB_AMB.
Definition LIBCAP_IAB_IA_FLAG : Z := Z.lor LIBCAP_IAB_I_FLAG LIBCAP_IAB_A_FLAG.
Definition LIBCAP_IAB_NB_FLAG : Z := Z.shiftl 1 CAP_IAB_BOUND.

(** ** libcap/_makenames.c *)

(** The program's variables: the running maxima and the [pointers] array,
    [None] for a NULL entry. Its length is [pointers_avail]. *)
Record makenames_state := {
  mn_maxcaps : Z;
  mn_maxlength : Z;
  mn_pointers : list (option string)
}.

(** [recalloc]: grow the array and zero the new part. *)
Definition recalloc (p : list (option string)) (n : nat) : list (option string) :=
  p ++ replicate (n - length p) None.

(** One turn of the loop over [list]. *)
Definition makenames_step (s : makenames_state) (e : string * Z) : makenames_state :=
  let '(name, index) := e in
  let maxcaps := if mn_maxcaps s <=? index then index + 1 else mn_maxcaps s in
  let avail := Z.of_nat (length (mn_pointers s)) in
  let pointers :=
    if (avail =? 0) || (avail <=? index)
    then recalloc (mn_pointers s) (Z.to_nat (2 * index + 1))
    else mn_pointers s in
  let n := Z.of_nat (String.length name) in
  {| mn_maxcaps := maxcaps;
     mn_maxlength := if mn_maxlength s <? n then n else mn_maxlength s;
     mn_pointers := <[Z.to_nat index := Some name]> pointers |}.

(** The loop stops at the [{NULL, -1}] sentinel, here a negative index. *)
Fixpoint makenames_loop (s : makenames_state) (l : list (string * Z)) : makenames_state :=
  match l with
  | [] => s
  | (name, index) :: l =>
      if index <? 0 then s else makenames_loop (makenames_step s (name, index)) l
  end.

Definition makenames : makenames_state :=
  makenames_loop {| mn_maxcaps := 0; mn_maxlength := 0; mn_pointers := [] |}
    (cap_names_list ++ [("", -1)]).

(** The three macros of the generated cap_names.h. *)
Definition CAP_BITS : Z := Eval vm_compute in mn_maxcaps makenames.
Definition CAP_NAME_SIZE : Z := Eval vm_compute in mn_maxlength makenames + 1.
Definition LIBCAP_CAP_NAMES : list (option string) :=
  Eval vm_compute in take (Z.to_nat (mn_maxcaps makenames)) (mn_pointers makenames).

(** ** Facts about the table *)

(** Every slot of the generated table is filled: no number below
    [__CAP_BITS] is unnamed, and the table has [__CAP_BITS] entries. *)
Lemma cap_names_complete :
  length LIBCAP_CAP_NAMES = Z.to_nat CAP_BITS /\
  forall n, 0 <= n < CAP_BITS ->
    exists s, LIBCAP_CAP_NAMES !! Z.to_nat n = Some (Some s) /\
      In (s, n) cap_names_list /\
      0 < Z.of_nat (String.length s) < CAP_NAME_SIZE.
Proof.
  split; [reflexivity|]. intros n Hn.
  assert (forallb (fun n =>
      match LIBCAP_CAP_NAMES !! Z.to_nat n with
      | Some (Some s) =>
          existsb (fun e => String.eqb (fst e) s && (snd e =? n)) cap_names_list &&
          (0 <? Z.of_nat (String.length s)) &&
          (Z.of_nat (String.length s) <? CAP_NAME_SIZE)
      | _ => false end) (seqZ 0 CAP_BITS) = true) as Hall by reflexivity.
  rewrite forallb_forall in Hall.
  specialize (Hall n ltac:(apply list_elem_of_In, elem_of_seqZ; lia)).
  destruct (LIBCAP_CAP_NAMES !! Z.to_nat n) as [[s|]|]; [|done..].
  exists s. apply andb_prop in Hall as [[Hall H1]%andb_prop H2].
  apply existsb_exists in Hall as [[s' n'] [Hin [Hs Hn']%andb_prop]].
  apply String.eqb_eq in Hs. apply Z.eqb_eq in Hn'. simpl in *. subst.
  split; [done|]. split; [done|].
  apply Z.ltb_lt in H1. apply Z.ltb_lt in H2. lia.
Qed.
