(* ===== verification/World.v ===== *)
(** The run-time setting of libcap: the objects it allocates (libcap.h), the
    memory that holds them, errno, the library's globals and the kernel behind
    the system calls; the monad the operations are written in; and the
    elementary locks of libcap.h. *)

From S2P Require Import Prelude Capability.
From stdpp Require Import gmap strings list fin_maps.
From Stdlib Require Import ZArith Lia.

Open Scope Z_scope.

(** ** Objects (libcap.h) *)

(** [struct __user_cap_data_struct], the [u[i].set] view of one block; the
    [u[i].flat] view indexes the same three words by [cap_flag_t]. *)
Record capblk := mkBlk { effective : Z; permitted : Z; inheritable : Z }.

Definition flat (b : capblk) (set : Z) : Z :=
  if set =? CAP_EFFECTIVE then effective b
  else if set =? CAP_PERMITTED then permitted b
  else inheritable b.

Definition set_flat (set v : Z) (b : capblk) : capblk :=
  if set =? CAP_EFFECTIVE then mkBlk v (permitted b) (inheritable b)
  else if set =? CAP_PERMITTED then mkBlk (effective b) v (inheritable b)
  else mkBlk (effective b) (permitted b) v.

Definition blk0 : capblk := mkBlk 0 0 0.

(** [struct _cap_struct] *)
Record cap_struct := mkCap {
  c_mutex : bool;
  c_version : Z;          (* head.version *)
  c_pid : Z;              (* head.pid *)
  c_u : list capblk;      (* u[_LIBCAP_CAPABILITY_U32S] *)
  c_rootid : Z
}.

(** [struct cap_iab_s] *)
Record cap_iab_s := mkIab {
  iab_mutex : bool;
  iab_i : list Z;
  iab_a : list Z;
  iab_nb : list Z
}.

(** [struct cap_launch_s]. [custom_setup_fn] is a code address, 0 for NULL;
    [iab] and [chroot] are addresses of libcap objects; the execve arguments
    are the caller's constant strings, [None] for NULL. *)
Record cap_launch_s := mkLaunch {
  l_mutex : bool;
  l_custom_setup_fn : Z;
  l_change_uids : bool;
  l_uid : Z;
  l_change_gids : bool;
  l_gid : Z;
  l_ngroups : Z;
  l_groups : list Z;
  l_change_mode : bool;
  l_mode : Z;
  l_iab : Z;
  l_chroot : Z;
  l_arg0 : option string;
  l_argv : option (list string);
  l_envp : option (list string)
}.

(** What calloc returns zeroed. *)
Definition cap0 : cap_struct := mkCap false 0 0 [blk0; blk0] 0.
Definition iab0 : cap_iab_s := mkIab false [0; 0] [0; 0] [0; 0].
Definition launch0 : cap_launch_s :=
  mkLaunch false 0 false 0 false 0 0 [] false 0 0 0 None None None.

(** The union of [struct _cap_alloc_s], tagged by its magic word. *)
Inductive obj :=
| OCap (c : cap_struct)
| OIab (i : cap_iab_s)
| OLaunch (l : cap_launch_s)
| OStr (s : string).

Definition CAP_T_MAGIC : Z := 0xCA90D0.
Definition CAP_S_MAGIC : Z := 0xCA95D0.
Definition CAP_IAB_MAGIC : Z := 0xCA91AB.
Definition CAP_LAUNCH_MAGIC : Z := 0xCA91AC.

Definition obj_magic (o : obj) : Z :=
  match o with
  | OCap _ => CAP_T_MAGIC
  | OIab _ => CAP_IAB_MAGIC
  | OLaunch _ => CAP_LAUNCH_MAGIC
  | OStr _ => CAP_S_MAGIC
  end.

(** The mutex byte is the first member of each of the three structures. *)
Definition obj_mutex (o : obj) : option bool :=
  match o with
  | OCap c => Some (c_mutex c)
  | OIab i => Some (iab_mutex i)
  | OLaunch l => Some (l_mutex l)
  | OStr _ => None
  end.

Definition cap_with_mutex (b : bool) (c : cap_struct) : cap_struct :=
  mkCap b (c_version c) (c_pid c) (c_u c) (c_rootid c).
Definition iab_with_mutex (b : bool) (i : cap_iab_s) : cap_iab_s :=
  mkIab b (iab_i i) (iab_a i) (iab_nb i).
Definition launch_with_mutex (b : bool) (l : cap_launch_s) : cap_launch_s :=
  mkLaunch b (l_custom_setup_fn l) (l_change_uids l) (l_uid l)
    (l_change_gids l) (l_gid l) (l_ngroups l) (l_groups l)
    (l_change_mode l) (l_mode l) (l_iab l) (l_chroot l)
    (l_arg0 l) (l_argv l) (l_envp l).

Definition obj_with_mutex (b : bool) (o : obj) : obj :=
  match o with
  | OCap c => OCap (cap_with_mutex b c)
  | OIab i => OIab (iab_with_mutex b i)
  | OLaunch l => OLaunch (launch_with_mutex b l)
  | OStr s => OStr s
  end.

(** ** The kernel

    The state-changing system calls go through libcap's [struct syscaller_s]
    as numbered requests; the arguments that are pointers carry what they
    point to. The kernel is not part of the repository: it is the argument
    [Kernel K] of every definition below, and its results follow the raw
    system-call convention (a negative errno or a non-negative value). *)

Inductive sysreq :=
| SYS_capset (version pid : Z) (data : list capblk)
| SYS_prctl (cmd arg1 arg2 arg3 arg4 arg5 : Z)
| SYS_setuid (uid : Z)
| SYS_setgid (gid : Z)
| SYS_setgroups (ngroups : Z) (groups : list Z)
| SYS_chroot (path : string).

(** capget(2): the result, the version left in the header, and the blocks
    written to the data pointer. *)
Record capget_result := mkCapget {
  cg_ret : Z;
  cg_version : Z;
  cg_data : list capblk
}.

Class Kernel (K : Type) := {
  sys_call : K -> sysreq -> Z * K;
  sys_capget : K -> Z -> Z -> bool -> capget_result;
  sys_chdir : K -> string -> Z * K;
  (** the functions a client passes to cap_set_syscall(), by address *)
  user_syscall : Z -> K -> sysreq -> Z * Z * K
}.

(** ** The library's globals *)

(** A [struct syscaller_s]: libcap's own functions around syscall(2), libpsx's
    pair, or a pair of client functions. *)
Inductive syscaller :=
| SC_libc
| SC_psx
| SC_user (fn : Z).

#[global] Instance syscaller_eq_dec : EqDecision syscaller.
Proof. solve_decision. Defined.

Record globals := mkGlobals {
  g_max_bits : Z;              (* _cap_max_bits, cap_alloc.c *)
  g_libcap_mutex : bool;       (* __libcap_mutex, cap_alloc.c *)
  g_overrode_syscalls : bool;  (* _libcap_overrode_syscalls, cap_proc.c *)
  g_linked_psx : bool;         (* whether libpsx's psx_load_syscalls is linked *)
  g_multithread : syscaller;   (* multithread, cap_proc.c *)
  g_singlethread : syscaller;  (* singlethread, cap_proc.c *)
  g_proc_dir : Z               (* _cap_proc_dir, cap_text.c *)
}.

(** ** Worlds

    [heap] maps the address the client holds (past the header) to the object
    there. Addresses are identities: blocks are not laid out in bytes and an
    address is not used twice. [mem] lists what the next allocations do, [true]
    (the default past its end) for success; [out] is what was printed, the
    latest first. *)
Record world (K : Type) := mkWorld {
  heap : gmap Z obj;
  next : Z;
  mem : list bool;
  errno : Z;
  glob : globals;
  kst : K;
  out : list string
}.
Arguments mkWorld {K} _ _ _ _ _ _ _.
Arguments heap {K} _.
Arguments next {K} _.
Arguments mem {K} _.
Arguments errno {K} _.
Arguments glob {K} _.
Arguments kst {K} _.
Arguments out {K} _.

(** errno values libcap itself uses *)
Definition EPERM : Z := 1.
Definition ENOENT : Z := 2.
Definition ECHILD : Z := 10.
Definition EAGAIN : Z := 11.
Definition ENOMEM : Z := 12.
Definition EINVAL : Z := 22.
Definition ERANGE : Z := 34.
Definition ENODATA : Z := 61.

(** How a run that does not return ends: exit(2), or another image. *)
Inductive ending :=
| Exited (status : Z)
| Execed (path : string) (argv envp : option (list string)).

(** [Spin]: the program waits for a lock nobody releases (or loops for ever);
    [Fault]: undefined behaviour, such as a NULL dereference. *)
Inductive outcome (A : Type) :=
| Ok (a : A)
| Halt (e : ending)
| Spin
| Fault.
Arguments Ok {A} _.
Arguments Halt {A} _.
Arguments Spin {A}.
Arguments Fault {A}.

Definition M (K A : Type) : Type := world K -> outcome A * world K.

#[global] Instance M_ret K : MRet (M K) := fun A a w => (Ok a, w).
#[global] Instance M_bind K : MBind (M K) := fun A B f m w =>
  match m w with
  | (Ok a, w) => f a w
  | (Halt e, w) => (Halt e, w)
  | (Spin, w) => (Spin, w)
  | (Fault, w) => (Fault, w)
  end.

Section ops.
Context {K : Type}.
Implicit Types (w : world K) (p : Z) (o : obj).

Definition with_heap (h : gmap Z obj) w : world K :=
  mkWorld h (next w) (mem w) (errno w) (glob w) (kst w) (out w).
Definition with_errno (e : Z) w : world K :=
  mkWorld (heap w) (next w) (mem w) e (glob w) (kst w) (out w).
Definition with_glob (g : globals) w : world K :=
  mkWorld (heap w) (next w) (mem w) (errno w) g (kst w) (out w).
Definition with_kst (k : K) w : world K :=
  mkWorld (heap w) (next w) (mem w) (errno w) (glob w) k (out w).
Definition with_out (l : list string) w : world K :=
  mkWorld (heap w) (next w) (mem w) (errno w) (glob w) (kst w) l.

Definition fault {A} : M K A := fun w => (Fault, w).
Definition spin {A} : M K A := fun w => (Spin, w).
Definition halt {A} (e : ending) : M K A := fun w => (Halt e, w).
Definition gets {A} (f : world K -> A) : M K A := fun w => (Ok (f w), w).
Definition modify (f : world K -> world K) : M K unit := fun w => (Ok tt, f w).

Definition get_errno : M K Z := gets errno.
Definition set_errno (e : Z) : M K unit := modify (with_errno e).
Definition put_glob (f : globals -> globals) : M K unit :=
  modify (fun w => with_glob (f (glob w)) w).

(** Undefined behaviour unless [b]. *)
Definition assert_ub (b : bool) : M K unit := if b then mret tt else fault.

(** *** Memory *)

Definition load p : M K obj := fun w =>
  match heap w !! p with
  | Some o => (Ok o, w)
  | None => (Fault, w)
  end.

Definition store p o : M K unit := fun w =>
  match heap w !! p with
  | Some _ => (Ok tt, with_heap (<[p := o]> (heap w)) w)
  | None => (Fault, w)
  end.

(** The typed views of an object: a pointer of the wrong type is undefined. *)
Definition load_cap p : M K cap_struct :=
  o ← load p; match o with OCap c => mret c | _ => fault end.
Definition load_iab p : M K cap_iab_s :=
  o ← load p; match o with OIab i => mret i | _ => fault end.
Definition load_launch p : M K cap_launch_s :=
  o ← load p; match o with OLaunch l => mret l | _ => fault end.
Definition load_str p : M K string :=
  o ← load p; match o with OStr s => mret s | _ => fault end.

Definition modify_cap p (f : cap_struct -> cap_struct) : M K unit :=
  c ← load_cap p; store p (OCap (f c)).
Definition modify_iab p (f : cap_iab_s -> cap_iab_s) : M K unit :=
  i ← load_iab p; store p (OIab (f i)).
Definition modify_launch p (f : cap_launch_s -> cap_launch_s) : M K unit :=
  l ← load_launch p; store p (OLaunch (f l)).

(** One allocation attempt of libc: the head of [mem] decides. *)
Definition libc_alloc : M K bool := fun w =>
  (Ok (hd true (mem w)),
   mkWorld (heap w) (next w) (tl (mem w)) (errno w) (glob w) (kst w) (out w)).

(** Place an object at a new address. Blocks are 16-aligned and the address
    the client gets is past the 8-byte header. *)
Definition place o : M K Z := fun w =>
  (Ok (next w),
   mkWorld (<[next w := o]> (heap w)) (next w + 16) (mem w) (errno w)
     (glob w) (kst w) (out w)).

(** calloc() of a libcap block, filled in as [o]: its address, or NULL with
    libc's ENOMEM. *)
Definition alloc o : M K Z :=
  ok ← libc_alloc;
  if ok : bool then place o else set_errno ENOMEM;; mret 0.

(** free() *)
Definition dealloc p : M K unit := fun w =>
  (Ok tt, with_heap (delete p (heap w)) w).

(** [magic_of(x)]. An address where libcap put no object reads as no magic. *)
Definition magic_at (h : gmap Z obj) p : Z :=
  if p =? 0 then 0 else
  match h !! p with
  | Some o => obj_magic o
  | None => 0
  end.
Definition magic_of p : M K Z := gets (fun w => magic_at (heap w) p).
Definition good_cap_t p : M K bool := m ← magic_of p; mret (m =? CAP_T_MAGIC).
Definition good_cap_iab_t p : M K bool := m ← magic_of p; mret (m =? CAP_IAB_MAGIC).
Definition good_cap_launch_t p : M K bool := m ← magic_of p; mret (m =? CAP_LAUNCH_MAGIC).

(** *** Locks

    [_cap_mu_blocked] takes the lock or reports it taken; [_cap_mu_lock] waits
    for it. In a single flow of control nobody else releases a taken lock, so
    waiting for one is [Spin]. *)
Definition mu_blocked p : M K bool :=
  o ← load p;
  match obj_mutex o with
  | Some b => store p (obj_with_mutex true o);; mret b
  | None => fault
  end.
Definition mu_lock p : M K unit :=
  b ← mu_blocked p; if b : bool then spin else mret tt.
Definition mu_unlock p : M K unit :=
  o ← load p;
  match obj_mutex o with
  | Some _ => store p (obj_with_mutex false o)
  | None => fault
  end.
(** [_cap_mu_unlock_return(x, y)] *)
Definition mu_unlock_return {A} p (y : A) : M K A := mu_unlock p;; mret y.

End ops.

(** libc's wrappers turn a negative result into -1 and an errno. *)
Definition libc_ret {K} (r : Z) : M K Z :=
  if r <? 0 then set_errno (- r);; mret (-1) else mret r.
