(* ===== verification/Exec.v ===== *)
(** Symbolic execution of the monad of World.v: equations for every elementary
    operation, a hint database that finds the world an operation ends in, and
    the tactic [run] that applies them one statement at a time. *)

From S2P Require Import Prelude Capability World.
From stdpp Require Import gmap strings list fin_maps.
From Stdlib Require Import ZArith Lia.

Open Scope Z_scope.

(** The world in which one allocation attempt has been used up. *)
Definition popped {K} (w : world K) : world K :=
  mkWorld (heap w) (next w) (tl (mem w)) (errno w) (glob w) (kst w) (out w).

(** The world after a successful allocation of [o]. *)
Definition placed {K} (o : obj) (w : world K) : world K :=
  mkWorld (<[next w := o]> (heap w)) (next w + 16) (tl (mem w)) (errno w)
    (glob w) (kst w) (out w).

(** The world after an object was allocated and released again. *)
Definition spent {K} (w : world K) : world K :=
  mkWorld (heap w) (next w + 16) (tl (mem w)) (errno w) (glob w) (kst w) (out w).

(** The next allocation succeeds. *)
Definition mem_ok {K} (w : world K) : Prop := hd true (mem w) = true.

(** Memory never runs out. *)
Definition mem_plenty {K} (w : world K) : Prop := mem w = [].

Section exec.
Context {K : Type}.
Implicit Types (w : world K) (p : Z) (o : obj) (h : gmap Z obj).

Lemma bind_ok {A B} (m : M K A) (f : A -> M K B) w a w' :
  m w = (Ok a, w') -> (m ≫= f) w = f a w'.
Proof. intros H. unfold mbind, M_bind. by rewrite H. Qed.

Lemma bind_halt {A B} (m : M K A) (f : A -> M K B) w e w' :
  m w = (Halt e, w') -> (m ≫= f) w = (Halt e, w').
Proof. intros H. unfold mbind, M_bind. by rewrite H. Qed.

Lemma bind_spin {A B} (m : M K A) (f : A -> M K B) w w' :
  m w = (Spin, w') -> (m ≫= f) w = (Spin, w').
Proof. intros H. unfold mbind, M_bind. by rewrite H. Qed.

Lemma bind_fault {A B} (m : M K A) (f : A -> M K B) w w' :
  m w = (Fault, w') -> (m ≫= f) w = (Fault, w').
Proof. intros H. unfold mbind, M_bind. by rewrite H. Qed.

Lemma bind_bind {A B C} (m : M K A) (f : A -> M K B) (g : B -> M K C) w :
  ((m ≫= f) ≫= g) w = (m ≫= (fun a => f a ≫= g)) w.
Proof. unfold mbind, M_bind. by destruct (m w) as [[] ?]. Qed.

(** A bind that returned: its two halves. *)
Lemma bind_inv {A B} (m : M K A) (f : A -> M K B) w b w' :
  (m ≫= f) w = (Ok b, w') ->
  exists a w1, m w = (Ok a, w1) /\ f a w1 = (Ok b, w').
Proof.
  unfold mbind, M_bind. destruct (m w) as [[a|e| |] w1]; try done. eauto.
Qed.

Lemma ret_run {A} (a : A) w : (mret a : M K A) w = (Ok a, w).
Proof. done. Qed.

Lemma gets_run {A} (f : world K -> A) w : gets f w = (Ok (f w), w).
Proof. done. Qed.

Lemma modify_run f w : @modify K f w = (Ok tt, f w).
Proof. done. Qed.

Lemma set_errno_run e w : set_errno e w = (Ok tt, with_errno e w).
Proof. done. Qed.

Lemma assert_ub_run b w : b = true -> @assert_ub K b w = (Ok tt, w).
Proof. by intros ->. Qed.

Lemma load_run p o w : heap w !! p = Some o -> load p w = (Ok o, w).
Proof. intros H. unfold load. by rewrite H. Qed.

Lemma store_run p o o' w :
  heap w !! p = Some o' -> store p o w = (Ok tt, with_heap (<[p := o]> (heap w)) w).
Proof. intros H. unfold store. by rewrite H. Qed.

Lemma load_cap_run p c w : heap w !! p = Some (OCap c) -> load_cap p w = (Ok c, w).
Proof. intros H. unfold load_cap. by rewrite (bind_ok _ _ _ _ _ (load_run _ _ _ H)). Qed.

Lemma load_iab_run p i w : heap w !! p = Some (OIab i) -> load_iab p w = (Ok i, w).
Proof. intros H. unfold load_iab. by rewrite (bind_ok _ _ _ _ _ (load_run _ _ _ H)). Qed.

Lemma load_launch_run p l w :
  heap w !! p = Some (OLaunch l) -> load_launch p w = (Ok l, w).
Proof. intros H. unfold load_launch. by rewrite (bind_ok _ _ _ _ _ (load_run _ _ _ H)). Qed.

Lemma load_str_run p s w : heap w !! p = Some (OStr s) -> load_str p w = (Ok s, w).
Proof. intros H. unfold load_str. by rewrite (bind_ok _ _ _ _ _ (load_run _ _ _ H)). Qed.

Lemma modify_cap_run p f c w :
  heap w !! p = Some (OCap c) ->
  modify_cap p f w = (Ok tt, with_heap (<[p := OCap (f c)]> (heap w)) w).
Proof.
  intros H. unfold modify_cap. rewrite (bind_ok _ _ _ _ _ (load_cap_run _ _ _ H)).
  by eapply store_run.
Qed.

Lemma modify_iab_run p f i w :
  heap w !! p = Some (OIab i) ->
  modify_iab p f w = (Ok tt, with_heap (<[p := OIab (f i)]> (heap w)) w).
Proof.
  intros H. unfold modify_iab. rewrite (bind_ok _ _ _ _ _ (load_iab_run _ _ _ H)).
  by eapply store_run.
Qed.

Lemma modify_launch_run p f l w :
  heap w !! p = Some (OLaunch l) ->
  modify_launch p f w = (Ok tt, with_heap (<[p := OLaunch (f l)]> (heap w)) w).
Proof.
  intros H. unfold modify_launch. rewrite (bind_ok _ _ _ _ _ (load_launch_run _ _ _ H)).
  by eapply store_run.
Qed.

Lemma dealloc_run p w : dealloc p w = (Ok tt, with_heap (delete p (heap w)) w).
Proof. done. Qed.

Lemma libc_alloc_run w : libc_alloc w = (Ok (hd true (mem w)), popped w).
Proof. done. Qed.

Lemma alloc_run o w : mem_ok w -> alloc o w = (Ok (next w), placed o w).
Proof.
  intros H. unfold alloc. rewrite (bind_ok _ _ _ _ _ (libc_alloc_run _)).
  by rewrite H.
Qed.

Lemma alloc_oom o w : hd true (mem w) = false -> alloc o w = (Ok 0, with_errno ENOMEM (popped w)).
Proof.
  intros H. unfold alloc. rewrite (bind_ok _ _ _ _ _ (libc_alloc_run _)).
  by rewrite H.
Qed.

Lemma magic_of_run p w : magic_of p w = (Ok (magic_at (heap w) p), w).
Proof. done. Qed.

Lemma good_cap_t_run p w :
  good_cap_t p w = (Ok (magic_at (heap w) p =? CAP_T_MAGIC), w).
Proof. done. Qed.

Lemma good_cap_iab_t_run p w :
  good_cap_iab_t p w = (Ok (magic_at (heap w) p =? CAP_IAB_MAGIC), w).
Proof. done. Qed.

Lemma good_cap_launch_t_run p w :
  good_cap_launch_t p w = (Ok (magic_at (heap w) p =? CAP_LAUNCH_MAGIC), w).
Proof. done. Qed.

Lemma magic_at_some h p o : p <> 0 -> h !! p = Some o -> magic_at h p = obj_magic o.
Proof. intros Hp H. unfold magic_at. rewrite H. by apply Z.eqb_neq in Hp as ->. Qed.

(** [magic_of] identifies the kind of object. *)
Lemma magic_at_cap h p :
  magic_at h p = CAP_T_MAGIC -> p <> 0 /\ exists c, h !! p = Some (OCap c).
Proof.
  unfold magic_at. destruct (Z.eqb_spec p 0); [done|].
  destruct (h !! p) as [[]|]; try done. eauto.
Qed.

Lemma magic_at_iab h p :
  magic_at h p = CAP_IAB_MAGIC -> p <> 0 /\ exists i, h !! p = Some (OIab i).
Proof.
  unfold magic_at. destruct (Z.eqb_spec p 0); [done|].
  destruct (h !! p) as [[]|]; try done. eauto.
Qed.

Lemma magic_at_launch h p :
  magic_at h p = CAP_LAUNCH_MAGIC -> p <> 0 /\ exists l, h !! p = Some (OLaunch l).
Proof.
  unfold magic_at. destruct (Z.eqb_spec p 0); [done|].
  destruct (h !! p) as [[]|]; try done. eauto.
Qed.

Lemma mu_blocked_run p o b w :
  heap w !! p = Some o -> obj_mutex o = Some b ->
  mu_blocked p w = (Ok b, with_heap (<[p := obj_with_mutex true o]> (heap w)) w).
Proof.
  intros H Hb. unfold mu_blocked. rewrite (bind_ok _ _ _ _ _ (load_run _ _ _ H)), Hb.
  by rewrite (bind_ok _ _ _ _ _ (store_run _ _ _ _ H)).
Qed.

Lemma mu_lock_run p o w :
  heap w !! p = Some o -> obj_mutex o = Some false ->
  mu_lock p w = (Ok tt, with_heap (<[p := obj_with_mutex true o]> (heap w)) w).
Proof.
  intros H Hb. unfold mu_lock.
  by rewrite (bind_ok _ _ _ _ _ (mu_blocked_run _ _ _ _ H Hb)).
Qed.

(** A lock that is already taken is never obtained. *)
Lemma mu_lock_spin p o w :
  heap w !! p = Some o -> obj_mutex o = Some true ->
  exists w', mu_lock p w = (Spin, w').
Proof.
  intros H Hb. unfold mu_lock.
  rewrite (bind_ok _ _ _ _ _ (mu_blocked_run _ _ _ _ H Hb)). unfold spin. eauto.
Qed.

Lemma mu_unlock_run p o b w :
  heap w !! p = Some o -> obj_mutex o = Some b ->
  mu_unlock p w = (Ok tt, with_heap (<[p := obj_with_mutex false o]> (heap w)) w).
Proof.
  intros H Hb. unfold mu_unlock. rewrite (bind_ok _ _ _ _ _ (load_run _ _ _ H)), Hb.
  by eapply store_run.
Qed.

(** *** Shapes of worlds *)

Lemma with_heap_id w : with_heap (heap w) w = w.
Proof. by destruct w. Qed.

Lemma with_errno_id w : with_errno (errno w) w = w.
Proof. by destruct w. Qed.

Lemma with_kst_id w : with_kst (kst w) w = w.
Proof. by destruct w. Qed.

Lemma with_heap_restore h w : h = heap w -> with_heap h w = w.
Proof. intros ->. apply with_heap_id. Qed.

Lemma with_heap_twice h h' w : with_heap h (with_heap h' w) = with_heap h w.
Proof. done. Qed.

Lemma heap_with_heap h w : heap (with_heap h w) = h.
Proof. done. Qed.

Lemma with_heap_same p o w :
  heap w !! p = Some o -> with_heap (<[p := o]> (heap w)) w = w.
Proof. intros H. rewrite insert_id by done. apply with_heap_id. Qed.

End exec.

Create HintDb run.

(** Look an address up in the heap of a world that operations have updated. *)
Ltac heap_lookup :=
  cbn [heap with_heap with_errno with_glob with_kst with_out popped placed spent];
  repeat first
    [ rewrite lookup_insert_eq
    | rewrite lookup_insert_ne by (congruence || lia)
    | rewrite lookup_delete_ne by (congruence || lia) ];
  first [ reflexivity | eassumption ].

#[export] Hint Extern 1 (_ !! _ = Some _) => heap_lookup : run.
#[export] Hint Extern 1 (obj_mutex _ = Some _) =>
  (first [reflexivity | eassumption | cbn; congruence]) : run.
#[export] Hint Resolve ret_run gets_run modify_run set_errno_run load_run store_run
  load_cap_run load_iab_run load_launch_run load_str_run modify_cap_run
  modify_iab_run modify_launch_run dealloc_run magic_of_run good_cap_t_run
  good_cap_iab_t_run good_cap_launch_t_run mu_lock_run mu_unlock_run
  assert_ub_run : run.

(** Run the leading statement of the goal [(m ≫= f) w = ...]. *)
Ltac run1 :=
  lazymatch goal with
  | |- context [((?m ≫= ?f) ≫= ?g) ?w] => rewrite (bind_bind m f g w)
  | |- context [(?m ≫= ?f) ?w] =>
      erewrite (bind_ok m f w) by (solve [eauto 4 with run nocore])
  end; rewrite ?heap_with_heap, ?with_heap_twice; cbn beta iota.
Ltac run := repeat run1.

(** Reduce the fields of a world that operations have built. *)
Ltac wsimpl :=
  cbn [heap next mem errno glob kst out with_heap with_errno with_glob with_kst
       with_out popped placed spent] in *.

(** Releasing a lock restores the object it was taken on. *)
Lemma cap_with_mutex_twice b b' c :
  cap_with_mutex b (cap_with_mutex b' c) = cap_with_mutex b c.
Proof. done. Qed.
Lemma iab_with_mutex_twice b b' i :
  iab_with_mutex b (iab_with_mutex b' i) = iab_with_mutex b i.
Proof. done. Qed.
Lemma launch_with_mutex_twice b b' l :
  launch_with_mutex b (launch_with_mutex b' l) = launch_with_mutex b l.
Proof. done. Qed.
Lemma cap_with_mutex_id c : c_mutex c = false -> cap_with_mutex false c = c.
Proof. destruct c; simpl; by intros ->. Qed.
Lemma iab_with_mutex_id i : iab_mutex i = false -> iab_with_mutex false i = i.
Proof. destruct i; simpl; by intros ->. Qed.
Lemma launch_with_mutex_id l : l_mutex l = false -> launch_with_mutex false l = l.
Proof. destruct l; simpl; by intros ->. Qed.

Create Rewrite HintDb mutex.
#[export] Hint Rewrite @cap_with_mutex_twice @iab_with_mutex_twice
  @launch_with_mutex_twice : mutex.
#[export] Hint Rewrite cap_with_mutex_id iab_with_mutex_id launch_with_mutex_id
  using assumption : mutex.

(** Equality of heaps and of worlds that updates have built. *)
Ltac heap_eq :=
  cbn [obj_with_mutex]; autorewrite with mutex; apply map_eq; intros ?i;
  repeat first [rewrite lookup_insert | rewrite lookup_delete];
  repeat case_decide; subst; congruence.
Ltac world_eq :=
  unfold with_heap, with_errno, with_glob, with_kst, with_out, popped, placed, spent;
  cbn [heap next mem errno glob kst out];
  f_equal; try heap_eq.

Ltac world_same := rewrite ?ret_run; f_equal; apply with_heap_restore; heap_eq.

(** Bring a run that returned, as a hypothesis, to its statements. *)
Ltac bind_cases H :=
  let a := fresh "a" in let w := fresh "w" in let H1 := fresh H in
  apply bind_inv in H as (a & w & H1 & H).
