(* ===== verification/Syscall.v ===== *)
(** libcap/cap_proc.c, the system-call layer: the syscallers, cap_set_syscall()
    with the two versions of psx_load_syscalls() (libcap/cap_syscalls.c and
    psx/psx.c), the wrappers for capset(2) and prctl(2), and the bounding and
    ambient set primitives that are one prctl(2) each. *)

From S2P Require Import Prelude Capability World Exec.
From stdpp Require Import gmap strings list.
From Stdlib Require Import ZArith Lia.

Open Scope Z_scope.

(** libcap.h and <linux/prctl.h> *)
Definition PR_SET_KEEPCAPS : Z := 8.
Definition PR_CAPBSET_READ : Z := 23.
Definition PR_CAPBSET_DROP : Z := 24.
Definition PR_GET_SECUREBITS : Z := 27.
Definition PR_SET_SECUREBITS : Z := 28.
Definition PR_SET_NO_NEW_PRIVS : Z := 38.
Definition PR_CAP_AMBIENT : Z := 47.
Definition PR_CAP_AMBIENT_IS_SET : Z := 1.
Definition PR_CAP_AMBIENT_RAISE : Z := 2.
Definition PR_CAP_AMBIENT_LOWER : Z := 3.
Definition PR_CAP_AMBIENT_CLEAR_ALL : Z := 4.

Section syscall.
Context {K : Type} `{!Kernel K}.
Implicit Types (w : world K).

(** *** libc *)

(** syscall(2): one request to the kernel on the calling thread, the errno
    convention of libc. *)
Definition libc_syscall (req : sysreq) : M K Z := fun w =>
  let '(r, k) := sys_call (kst w) req in libc_ret r (with_kst k w).

(** libc's prctl(2) and capset(2) *)
Definition prctl (cmd arg1 arg2 arg3 arg4 arg5 : Z) : M K Z :=
  libc_syscall (SYS_prctl cmd arg1 arg2 arg3 arg4 arg5).
Definition capset (version pid : Z) (data : list capblk) : M K Z :=
  libc_syscall (SYS_capset version pid data).

(** *** Syscallers *)

(** The parameter [struct syscaller_s *sc]: one of the two globals. *)
Inductive syscaller_ref := multithread | singlethread.

Definition deref_sc (sc : syscaller_ref) (g : globals) : syscaller :=
  match sc with
  | multithread => g_multithread g
  | singlethread => g_singlethread g
  end.

(** [_cap_syscall3] and [_cap_syscall6] are syscall(2). *)
Definition cap_syscall (req : sysreq) : M K Z := libc_syscall req.

(** [sc->three(...)] and [sc->six(...)]. libpsx's pair performs the call on the
    calling thread first and returns that result. A client's function leaves a
    result and an errno of its own. *)
Definition sc_call (sc : syscaller_ref) (req : sysreq) : M K Z :=
  s ← gets (fun w => deref_sc sc (glob w));
  match s with
  | SC_libc => cap_syscall req
  | SC_psx => libc_syscall req
  | SC_user fn => fun w =>
      let '(r, e, k) := user_syscall fn (kst w) req in
      (Ok r, with_errno e (with_kst k w))
  end.

Definition set_multithread (s : syscaller) (g : globals) : globals :=
  mkGlobals (g_max_bits g) (g_libcap_mutex g) (g_overrode_syscalls g)
    (g_linked_psx g) s (g_singlethread g) (g_proc_dir g).
Definition set_overrode (b : bool) (g : globals) : globals :=
  mkGlobals (g_max_bits g) (g_libcap_mutex g) b
    (g_linked_psx g) (g_multithread g) (g_singlethread g) (g_proc_dir g).

(** The weak definition in cap_syscalls.c, in force without libpsx. *)
Definition psx_load_syscalls_weak : M K unit := put_glob (set_overrode false).

(** The definition in psx.c, in force when libpsx is linked; its two pointer
    arguments are the members of [multithread]. *)
Definition psx_load_syscalls : M K unit := put_glob (set_multithread SC_psx).

(** [new_syscall] is [None] for NULL. *)
Definition cap_set_syscall (new_syscall : option Z) : M K unit :=
  match new_syscall with
  | None =>
      linked ← gets (fun w => g_linked_psx (glob w));
      if linked : bool then psx_load_syscalls else psx_load_syscalls_weak
  | Some fn => put_glob (set_multithread (SC_user fn))
  end.

(** *** The writing wrappers *)

Definition overrode_syscalls : M K bool := gets (fun w => g_overrode_syscalls (glob w)).

Definition libcap_capset (sc : syscaller_ref) (version pid : Z) (data : list capblk) : M K Z :=
  b ← overrode_syscalls;
  if b : bool then sc_call sc (SYS_capset version pid data)
  else capset version pid data.

(** The common end of the two prctl wrappers. The three-argument form leaves
    the arguments the request does not use to the kernel's zero. *)
Definition wprctl_result (result : Z) : M K Z :=
  if 0 <=? result then mret result
  else set_errno (- result);; mret (-1).

Definition libcap_wprctl3 (sc : syscaller_ref) (pr_cmd arg1 arg2 : Z) : M K Z :=
  b ← overrode_syscalls;
  if b : bool then
    result ← sc_call sc (SYS_prctl pr_cmd arg1 arg2 0 0 0);
    wprctl_result result
  else prctl pr_cmd arg1 arg2 0 0 0.

Definition libcap_wprctl6 (sc : syscaller_ref) (pr_cmd arg1 arg2 arg3 arg4 arg5 : Z) : M K Z :=
  b ← overrode_syscalls;
  if b : bool then
    result ← sc_call sc (SYS_prctl pr_cmd arg1 arg2 arg3 arg4 arg5);
    wprctl_result result
  else prctl pr_cmd arg1 arg2 arg3 arg4 arg5.

(** *** Bounding and ambient sets *)

(** [pr_arg(x)]: the conversion to unsigned long of an int. *)
Definition pr_arg (x : Z) : Z := x mod 18446744073709551616.

Definition cap_get_bound (cap : Z) : M K Z :=
  prctl PR_CAPBSET_READ (pr_arg cap) (pr_arg 0) 0 0 0.

Definition cap_drop_bound_sc (sc : syscaller_ref) (cap : Z) : M K Z :=
  libcap_wprctl3 sc PR_CAPBSET_DROP (pr_arg cap) (pr_arg 0).

Definition cap_drop_bound (cap : Z) : M K Z := cap_drop_bound_sc multithread cap.

Definition cap_get_ambient (cap : Z) : M K Z :=
  result ← prctl PR_CAP_AMBIENT (pr_arg PR_CAP_AMBIENT_IS_SET) (pr_arg cap)
    (pr_arg 0) (pr_arg 0) 0;
  if result <? 0 then set_errno (- result);; mret (-1) else mret result.

Definition cap_set_ambient_sc (sc : syscaller_ref) (cap set : Z) : M K Z :=
  let raise val :=
    libcap_wprctl6 sc PR_CAP_AMBIENT (pr_arg val) (pr_arg cap)
      (pr_arg 0) (pr_arg 0) (pr_arg 0) in
  if set =? CAP_SET then raise PR_CAP_AMBIENT_RAISE
  else if set =? CAP_CLEAR then raise PR_CAP_AMBIENT_LOWER
  else set_errno EINVAL;; mret (-1).

Definition cap_set_ambient (cap set : Z) : M K Z := cap_set_ambient_sc multithread cap set.

(** *** Equations *)

Lemma libc_ret_ok r w : 0 <= r -> libc_ret r w = (Ok r, w).
Proof. intros H. unfold libc_ret. by destruct (Z.ltb_spec r 0); [lia|]. Qed.

Lemma libc_syscall_run req w r k :
  sys_call (kst w) req = (r, k) ->
  libc_syscall req w =
    if r <? 0 then (Ok (-1), with_errno (- r) (with_kst k w))
    else (Ok r, with_kst k w).
Proof. intros H. unfold libc_syscall, libc_ret. rewrite H. by case_match. Qed.

Lemma libc_syscall_ok req w r k :
  sys_call (kst w) req = (r, k) -> 0 <= r ->
  libc_syscall req w = (Ok r, with_kst k w).
Proof.
  intros H Hr. rewrite (libc_syscall_run _ _ _ _ H).
  destruct (Z.ltb_spec r 0); [lia|done].
Qed.

Lemma libc_syscall_err req w r k :
  sys_call (kst w) req = (r, k) -> r < 0 ->
  libc_syscall req w = (Ok (-1), with_errno (- r) (with_kst k w)).
Proof.
  intros H Hr. rewrite (libc_syscall_run _ _ _ _ H).
  destruct (Z.ltb_spec r 0); [done|lia].
Qed.

(** A system call returns, and touches nothing but errno and the kernel. *)
Lemma libc_syscall_frame req w :
  exists r e k, libc_syscall req w = (Ok r, with_errno e (with_kst k w)) /\ -1 <= r.
Proof.
  destruct (sys_call (kst w) req) as [r k] eqn:E.
  destruct (Z.lt_ge_cases r 0).
  - exists (-1), (- r), k. split; [by apply libc_syscall_err|lia].
  - exists r, (errno w), k. split; [by rewrite (libc_syscall_ok _ _ _ _ E)|lia].
Qed.

(** With libpsx linked, or before cap_set_syscall() ran, the syscaller is
    syscall(2) unless a client replaced it. *)
Lemma sc_call_run sc req w :
  (forall fn, deref_sc sc (glob w) <> SC_user fn) ->
  sc_call sc req w = libc_syscall req w.
Proof.
  intros H. unfold sc_call. rewrite (bind_ok _ _ _ _ _ (gets_run _ _)).
  destruct (deref_sc sc (glob w)) eqn:E; [done..|]. exfalso. by apply (H fn).
Qed.

(** What a prctl wrapper does when the call does not go through a client's
    function: the kernel's result, but the errno only without the override. *)
Lemma libcap_wprctl6_run sc cmd a1 a2 a3 a4 a5 w r k :
  (g_overrode_syscalls (glob w) = true -> forall fn, deref_sc sc (glob w) <> SC_user fn) ->
  sys_call (kst w) (SYS_prctl cmd a1 a2 a3 a4 a5) = (r, k) ->
  libcap_wprctl6 sc cmd a1 a2 a3 a4 a5 w =
    if r <? 0
    then (Ok (-1), with_errno (if g_overrode_syscalls (glob w) then 1 else - r) (with_kst k w))
    else (Ok r, with_kst k w).
Proof.
  intros Hsc Hr. unfold libcap_wprctl6, overrode_syscalls.
  rewrite (bind_ok _ _ _ _ _ (gets_run _ _)). destruct (g_overrode_syscalls (glob w)) eqn:Ho.
  - specialize (Hsc eq_refl).
    assert (sc_call sc (SYS_prctl cmd a1 a2 a3 a4 a5) w = _) as Hc
      by (rewrite sc_call_run by done; by apply libc_syscall_run).
    destruct (Z.ltb_spec r 0); rewrite (bind_ok _ _ _ _ _ Hc); [done|].
    unfold wprctl_result. by destruct (Z.leb_spec 0 r); [|lia].
  - by apply libc_syscall_run.
Qed.

Lemma libcap_wprctl3_6 sc cmd a1 a2 : libcap_wprctl3 sc cmd a1 a2 = libcap_wprctl6 sc cmd a1 a2 0 0 0.
Proof. done. Qed.

End syscall.
