(* ===== verification/Alloc.v ===== *)
(** libcap/cap_alloc.c: the start-up probe of the kernel's capability count and
    the allocation, duplication and release of libcap's objects. *)

From S2P Require Import Prelude Capability World Exec Syscall.
From stdpp Require Import gmap strings list.
From Stdlib Require Import ZArith Lia.

Open Scope Z_scope.

Section alloc.
Context {K : Type} `{!Kernel K}.
Implicit Types (w : world K) (p : Z).

(** *** Start-up *)

(** The loop of [_binary_search] (libcap.h); the result is [min] at its end.
    Each turn shrinks the interval, so its length bounds the turns. *)
Fixpoint binary_search_loop (fuel : nat) (fn : Z -> M K Z) (min max : Z) : M K Z :=
  match fuel with
  | O => spin
  | S fuel =>
      if min <=? max then
        let mid := Z.quot (min + max) 2 in
        r ← fn mid;
        if r <? 0 then binary_search_loop fuel fn min (mid - 1)
        else binary_search_loop fuel fn (mid + 1) max
      else mret min
  end.

(** [_binary_search(val, fn, low, high, fallback)] *)
Definition binary_search (fn : Z -> M K Z) (low high fallback : Z) : M K Z :=
  min ← binary_search_loop (S (Z.to_nat (high - low + 1))) fn low high;
  mret (if negb (min =? 0) then (if min <=? high then min else fallback) else fallback).

Definition set_max_bits (n : Z) (g : globals) : globals :=
  mkGlobals n (g_libcap_mutex g) (g_overrode_syscalls g)
    (g_linked_psx g) (g_multithread g) (g_singlethread g) (g_proc_dir g).
Definition set_libcap_mutex (b : bool) (g : globals) : globals :=
  mkGlobals (g_max_bits g) b (g_overrode_syscalls g)
    (g_linked_psx g) (g_multithread g) (g_singlethread g) (g_proc_dir g).

(** The constructor that runs before main(). *)
Definition libcap_initialize : M K unit :=
  errno_saved ← get_errno;
  locked ← gets (fun w => g_libcap_mutex (glob w));
  (if locked : bool then spin else put_glob (set_libcap_mutex true));;
  max_bits ← gets (fun w => g_max_bits (glob w));
  (if max_bits =? 0 then
     cap_set_syscall None;;
     n ← binary_search cap_get_bound 0 CAP_MAXBITS CAP_BITS;
     put_glob (set_max_bits n)
   else mret tt);;
  put_glob (set_libcap_mutex false);;
  set_errno errno_saved.

Definition cap_max_bits : M K Z := gets (fun w => g_max_bits (glob w)).

(** *** cap_free *)

(** [(sizeof(uintptr_t)-1) & (uintptr_t) data_p] on a 64-bit machine *)
Definition misaligned p : bool := negb (Z.land p 7 =? 0).

Definition set_l_iab v (l : cap_launch_s) : cap_launch_s :=
  mkLaunch (l_mutex l) (l_custom_setup_fn l) (l_change_uids l) (l_uid l)
    (l_change_gids l) (l_gid l) (l_ngroups l) (l_groups l)
    (l_change_mode l) (l_mode l) v (l_chroot l) (l_arg0 l) (l_argv l) (l_envp l).
Definition set_l_chroot v (l : cap_launch_s) : cap_launch_s :=
  mkLaunch (l_mutex l) (l_custom_setup_fn l) (l_change_uids l) (l_uid l)
    (l_change_gids l) (l_gid l) (l_ngroups l) (l_groups l)
    (l_change_mode l) (l_mode l) (l_iab l) v (l_arg0 l) (l_argv l) (l_envp l).

(** cap_free() calls itself for what a launcher holds. The scrub before free()
    is the removal of the object from the heap. *)
Fixpoint cap_free_rec (fuel : nat) (data_p : Z) : M K Z :=
  match fuel with
  | O => spin
  | S fuel =>
      if data_p =? 0 then mret 0
      else if misaligned data_p then set_errno EINVAL;; mret (-1)
      else
        magic ← magic_of data_p;
        if magic =? CAP_T_MAGIC then
          mu_lock data_p;; dealloc data_p;; mret 0
        else if (magic =? CAP_S_MAGIC) || (magic =? CAP_IAB_MAGIC) then
          dealloc data_p;; mret 0
        else if magic =? CAP_LAUNCH_MAGIC then
          l ← load_launch data_p;
          r ← (if negb (l_iab l =? 0) then
                 mu_unlock (l_iab l);; cap_free_rec fuel (l_iab l)
               else mret 0);
          if negb (r =? 0) then mret (-1) else
          modify_launch data_p (set_l_iab 0);;
          r ← cap_free_rec fuel (l_chroot l);
          if negb (r =? 0) then mret (-1) else
          modify_launch data_p (set_l_chroot 0);;
          dealloc data_p;; mret 0
        else set_errno EINVAL;; mret (-1)
  end.

Lemma cap_free_rec_S fuel data_p :
  cap_free_rec (S fuel) data_p =
    if data_p =? 0 then mret 0
    else if misaligned data_p then set_errno EINVAL;; mret (-1)
    else
      magic ← magic_of data_p;
      if magic =? CAP_T_MAGIC then
        mu_lock data_p;; dealloc data_p;; mret 0
      else if (magic =? CAP_S_MAGIC) || (magic =? CAP_IAB_MAGIC) then
        dealloc data_p;; mret 0
      else if magic =? CAP_LAUNCH_MAGIC then
        l ← load_launch data_p;
        r ← (if negb (l_iab l =? 0) then
               mu_unlock (l_iab l);; cap_free_rec fuel (l_iab l)
             else mret 0);
        if negb (r =? 0) then mret (-1) else
        modify_launch data_p (set_l_iab 0);;
        r ← cap_free_rec fuel (l_chroot l);
        if negb (r =? 0) then mret (-1) else
        modify_launch data_p (set_l_chroot 0);;
        dealloc data_p;; mret 0
      else set_errno EINVAL;; mret (-1).
Proof. done. Qed.

Arguments cap_free_rec : simpl never.

(** A launcher holds an IAB tuple and a string, neither of which holds
    anything: two levels are enough. *)
Definition cap_free (data_p : Z) : M K Z := cap_free_rec 3 data_p.

(** *** cap_t *)

(** Overwrite the blocks the kernel wrote, from the first one on. *)
Definition write_blks (d u : list capblk) : list capblk := d ++ drop (length d) u.

(** capget(&cap_d->head, NULL) and capget(&cap_d->head, &cap_d->u[0].set) *)
Definition capget (cap_d : Z) (with_data : bool) : M K Z :=
  c ← load_cap cap_d;
  r ← gets (fun w => sys_capget (kst w) (c_version c) (c_pid c) with_data);
  store cap_d (OCap (mkCap (c_mutex c) (cg_version r) (c_pid c)
    (if with_data then write_blks (cg_data r) (c_u c) else c_u c) (c_rootid c)));;
  libc_ret (cg_ret r).

Definition set_version v (c : cap_struct) : cap_struct :=
  mkCap (c_mutex c) v (c_pid c) (c_u c) (c_rootid c).

Definition known_version (v : Z) : bool :=
  (v =? LINUX_CAPABILITY_VERSION_1) || (v =? LINUX_CAPABILITY_VERSION_2)
  || (v =? LINUX_CAPABILITY_VERSION_3).

Definition cap_init : M K Z :=
  result ← alloc (OCap cap0);
  if result =? 0 then set_errno ENOMEM;; mret 0
  else
    modify_cap result (set_version LIBCAP_CAPABILITY_VERSION);;
    _ ← capget result false;
    c ← load_cap result;
    if known_version (c_version c) then mret result
    else cap_free result;; mret 0.

Definition cap_dup (cap_d : Z) : M K Z :=
  good ← good_cap_t cap_d;
  if negb good then set_errno EINVAL;; mret 0
  else
    result ← cap_init;
    if result =? 0 then mret 0
    else
      mu_lock cap_d;;
      c ← load_cap cap_d;
      modify_cap result (fun _ => c);;   (* memcpy *)
      mu_unlock cap_d;;
      mu_unlock result;;
      mret result.

(** *** Strings, IAB tuples and launchers *)

(** LP64 sizes: [sizeof(struct _cap_alloc_s)] and the header's. *)
Definition SIZEOF_CAP_ALLOC_S : Z := 104.
Definition CAP_ALLOC_OFF_U : Z := 8.

(** The block size _libcap_strdup() asks for. *)
Definition strdup_size (len : Z) : Z :=
  let len := len + (1 + CAP_ALLOC_OFF_U) in
  if len <? SIZEOF_CAP_ALLOC_S then SIZEOF_CAP_ALLOC_S else len.

(** [old] is [None] for NULL. *)
Definition libcap_strdup (old : option string) : M K Z :=
  match old with
  | None => set_errno EINVAL;; mret 0
  | Some s =>
      let len := Z.of_nat (String.length s) in
      if negb (Z.land len 0x3fffffff =? len) then set_errno EINVAL;; mret 0
      else
        raw ← alloc (OStr s);
        if raw =? 0 then set_errno ENOMEM;; mret 0 else mret raw
  end.

Definition cap_iab_init : M K Z := alloc (OIab iab0).

Definition cap_iab_dup (iab : Z) : M K Z :=
  good ← good_cap_iab_t iab;
  if negb good then set_errno EINVAL;; mret 0
  else
    result ← cap_iab_init;
    if result =? 0 then mret 0
    else
      mu_lock iab;;
      i ← load_iab iab;
      modify_iab result (fun _ => i);;   (* memcpy *)
      mu_unlock iab;;
      mu_unlock result;;
      mret result.

Definition launch_with_args arg0 argv envp (l : cap_launch_s) : cap_launch_s :=
  mkLaunch (l_mutex l) (l_custom_setup_fn l) (l_change_uids l) (l_uid l)
    (l_change_gids l) (l_gid l) (l_ngroups l) (l_groups l)
    (l_change_mode l) (l_mode l) (l_iab l) (l_chroot l) arg0 argv envp.
Definition launch_with_fn fn (l : cap_launch_s) : cap_launch_s :=
  mkLaunch (l_mutex l) fn (l_change_uids l) (l_uid l)
    (l_change_gids l) (l_gid l) (l_ngroups l) (l_groups l)
    (l_change_mode l) (l_mode l) (l_iab l) (l_chroot l) (l_arg0 l) (l_argv l) (l_envp l).

Definition cap_new_launcher (arg0 : option string) (argv envp : option (list string)) : M K Z :=
  attr ← alloc (OLaunch launch0);
  if attr =? 0 then mret 0
  else modify_launch attr (launch_with_args arg0 argv envp);; mret attr.

Definition cap_func_launcher (callback_fn : Z) : M K Z :=
  attr ← alloc (OLaunch launch0);
  if attr =? 0 then mret 0
  else modify_launch attr (launch_with_fn callback_fn);; mret attr.

(** *** Well-formed worlds: every object sits at a fresh aligned address and
    holds arrays of their declared length and words of their declared width *)

Definition blk_wf (b : capblk) : Prop :=
  is_u32 (effective b) /\ is_u32 (permitted b) /\ is_u32 (inheritable b).
Definition cap_wf (c : cap_struct) : Prop :=
  length (c_u c) = Z.to_nat CAP_BLKS /\ Forall blk_wf (c_u c).
Definition words_wf (l : list Z) : Prop :=
  length l = Z.to_nat CAP_BLKS /\ Forall is_u32 l.
Definition iab_wf (i : cap_iab_s) : Prop :=
  words_wf (iab_i i) /\ words_wf (iab_a i) /\ words_wf (iab_nb i).
Definition obj_wf (o : obj) : Prop :=
  match o with
  | OCap c => cap_wf c
  | OIab i => iab_wf i
  | _ => True
  end.

Record world_wf w : Prop := {
  wf_next : 0 < next w /\ next w mod 16 = 8;
  wf_heap : forall p o, heap w !! p = Some o ->
    0 < p < next w /\ p mod 16 = 8 /\ obj_wf o
}.

(** capget(2) with a NULL data pointer accepts version 3: documented for every
    kernel since 2.6.26. *)
Definition capget_probe_ok (k : K) : Prop :=
  cg_ret (sys_capget k LINUX_CAPABILITY_VERSION_3 0 false) = 0 /\
  cg_version (sys_capget k LINUX_CAPABILITY_VERSION_3 0 false) = LINUX_CAPABILITY_VERSION_3.

(** What cap_init() leaves at the new address. *)
Definition cap_blank : cap_struct := mkCap false LINUX_CAPABILITY_VERSION_3 0 [blk0; blk0] 0.

Lemma wf_fresh w : world_wf w -> heap w !! next w = None.
Proof.
  intros [_ H]. destruct (heap w !! next w) eqn:E; [|done].
  apply H in E. lia.
Qed.

Lemma wf_beyond w p : world_wf w -> next w <= p -> heap w !! p = None.
Proof.
  intros [_ H] Hp. destruct (heap w !! p) eqn:E; [|done]. apply H in E. lia.
Qed.

Lemma wf_ne_next w p o : world_wf w -> heap w !! p = Some o -> p <> next w.
Proof. intros [_ H] E. apply H in E. lia. Qed.

Lemma wf_ne_0 w p o : world_wf w -> heap w !! p = Some o -> p <> 0.
Proof. intros [_ H] E. apply H in E. lia. Qed.

Lemma wf_next_ne_0 w : world_wf w -> next w <> 0.
Proof. intros [H _]. lia. Qed.

Lemma cap_init_run w :
  next w <> 0 -> mem_ok w -> capget_probe_ok (kst w) ->
  cap_init w = (Ok (next w), placed (OCap cap_blank) w).
Proof.
  intros Hn Hm [Hr Hv]. unfold cap_init.
  rewrite (bind_ok _ _ _ _ _ (alloc_run _ _ Hm)).
  destruct (Z.eqb_spec (next w) 0); [done|].
  run. unfold capget. run. wsimpl. cbn [c_version c_pid set_version cap0].
  unfold LIBCAP_CAPABILITY_VERSION. rewrite Hr, Hv.
  rewrite (bind_ok _ _ _ _ _ (libc_ret_ok _ _ (Z.le_refl 0))). run.
  cbn [known_version c_version]. simpl. rewrite ret_run. f_equal.
  world_eq. rewrite !insert_insert_eq. done.
Qed.

Lemma cap_init_oom w :
  hd true (mem w) = false -> cap_init w = (Ok 0, with_errno ENOMEM (popped w)).
Proof.
  intros Hm. unfold cap_init. by rewrite (bind_ok _ _ _ _ _ (alloc_oom _ _ Hm)).
Qed.

Lemma cap_dup_run p c w :
  world_wf w -> heap w !! p = Some (OCap c) -> c_mutex c = false ->
  mem_ok w -> capget_probe_ok (kst w) ->
  cap_dup p w = (Ok (next w), placed (OCap c) w).
Proof.
  intros Hw Hp Hc Hm Hk. unfold cap_dup.
  pose proof (wf_ne_next _ _ _ Hw Hp) as Hne.
  run. rewrite (magic_at_some _ _ _ (wf_ne_0 _ _ _ Hw Hp) Hp). simpl.
  rewrite (bind_ok _ _ _ _ _ (cap_init_run _ (wf_next_ne_0 _ Hw) Hm Hk)).
  destruct (Z.eqb_spec (next w) 0) as [E|_]; [by apply wf_next_ne_0 in Hw|].
  run. rewrite ret_run. f_equal. world_eq.
Qed.

Lemma cap_dup_bad p w :
  magic_at (heap w) p <> CAP_T_MAGIC -> cap_dup p w = (Ok 0, with_errno EINVAL w).
Proof.
  intros H. unfold cap_dup. run. apply Z.eqb_neq in H. rewrite H. by run.
Qed.

Lemma cap_iab_dup_run p i w :
  world_wf w -> heap w !! p = Some (OIab i) -> iab_mutex i = false -> mem_ok w ->
  cap_iab_dup p w = (Ok (next w), placed (OIab i) w).
Proof.
  intros Hw Hp Hi Hm. unfold cap_iab_dup, cap_iab_init.
  pose proof (wf_ne_next _ _ _ Hw Hp) as Hne.
  run. rewrite (magic_at_some _ _ _ (wf_ne_0 _ _ _ Hw Hp) Hp). simpl.
  rewrite (bind_ok _ _ _ _ _ (alloc_run _ _ Hm)).
  destruct (Z.eqb_spec (next w) 0) as [E|_]; [by apply wf_next_ne_0 in Hw|].
  run. rewrite ret_run. f_equal. world_eq.
Qed.

Lemma libc_strdup_len s :
  Z.of_nat (String.length s) <= 0x3fffffff ->
  (Z.land (Z.of_nat (String.length s)) 0x3fffffff =? Z.of_nat (String.length s)) = true.
Proof.
  intros H. change 0x3fffffff with (Z.ones 30). rewrite Z.land_ones by lia.
  rewrite Z.mod_small by lia. apply Z.eqb_refl.
Qed.

Lemma libcap_strdup_run s w :
  Z.of_nat (String.length s) <= 0x3fffffff -> next w <> 0 -> mem_ok w ->
  libcap_strdup (Some s) w = (Ok (next w), placed (OStr s) w).
Proof.
  intros Hs Hn Hm. unfold libcap_strdup. rewrite libc_strdup_len by done. simpl.
  rewrite (bind_ok _ _ _ _ _ (alloc_run _ _ Hm)).
  by destruct (Z.eqb_spec (next w) 0).
Qed.

(** *** Releasing *)

Lemma aligned_8 p : p mod 16 = 8 -> misaligned p = false.
Proof.
  intros E. unfold misaligned.
  change 7 with (Z.ones 3). rewrite Z.land_ones by lia. change (2 ^ 3) with 8.
  replace (p mod 8) with 0; [done|].
  pose proof (Z.div_mod p 16). rewrite E in *.
  replace p with ((2 * (p / 16) + 1) * 8) by lia. by rewrite Z.mod_mul.
Qed.

Lemma not_misaligned w p o : world_wf w -> heap w !! p = Some o -> misaligned p = false.
Proof. intros [_ H] E. apply H in E as (_ & E & _). by apply aligned_8. Qed.

Definition plain_obj (o : obj) : bool :=
  match o with
  | OCap c => negb (c_mutex c)
  | OIab _ | OStr _ => true
  | OLaunch _ => false
  end.

Lemma cap_free_rec_aligned n p o w :
  p <> 0 -> misaligned p = false -> heap w !! p = Some o -> plain_obj o = true ->
  cap_free_rec (S n) p w = (Ok 0, with_heap (delete p (heap w)) w).
Proof.
  intros H0 Ha Hp Ho. rewrite cap_free_rec_S.
  destruct (Z.eqb_spec p 0); [done|]. rewrite Ha.
  run. rewrite (magic_at_some _ _ _ H0 Hp).
  destruct o as [c|i|l|s]; simpl in Ho |- *; [|by run..|done].
  destruct (c_mutex c) eqn:Hc; [done|]. run. rewrite ret_run. f_equal. world_eq.
Qed.

Lemma cap_free_rec_plain n p o w :
  world_wf w -> heap w !! p = Some o -> plain_obj o = true ->
  cap_free_rec (S n) p w = (Ok 0, with_heap (delete p (heap w)) w).
Proof.
  intros Hw Hp. apply cap_free_rec_aligned; [by eapply wf_ne_0|by eapply not_misaligned|done].
Qed.

Lemma cap_free_rec_0 n w : cap_free_rec (S n) 0 w = (Ok 0, w).
Proof. done. Qed.

Lemma cap_free_plain p o w :
  world_wf w -> heap w !! p = Some o -> plain_obj o = true ->
  cap_free p w = (Ok 0, with_heap (delete p (heap w)) w).
Proof. apply cap_free_rec_plain. Qed.

(** Releasing the private copy an operation made at the first free address [n]. *)
Lemma cap_free_copy n o w :
  n <> 0 -> n mod 16 = 8 -> heap w !! n = Some o -> plain_obj o = true ->
  cap_free n w = (Ok 0, with_heap (delete n (heap w)) w).
Proof. intros H0 Ha. apply cap_free_rec_aligned; [done|by apply aligned_8]. Qed.

(** An object that is freed as soon as it is made leaves no trace in the heap. *)
Lemma free_placed o w :
  world_wf w -> delete (next w) (heap (placed o w)) = heap w.
Proof.
  intros Hw. wsimpl. rewrite delete_insert_id; [done|]. by apply wf_fresh.
Qed.

(** A launcher's release takes along what it holds. [owned_by l] are the
    addresses released before the launcher itself. *)
Definition owned_by (l : cap_launch_s) : list Z :=
  filter (fun p => p <> 0) [l_iab l; l_chroot l].

(** The launcher holds only what cap_launcher_set_iab() and
    cap_launcher_set_chroot() can have given it. *)
Definition launch_owns (h : gmap Z obj) (l : cap_launch_s) : Prop :=
  (l_iab l = 0 \/ exists i, h !! l_iab l = Some (OIab i)) /\
  (l_chroot l = 0 \/ exists s, h !! l_chroot l = Some (OStr s)).

Lemma world_wf_with_heap h w :
  world_wf w ->
  (forall p o, h !! p = Some o -> obj_wf o /\ exists o', heap w !! p = Some o') ->
  world_wf (with_heap h w).
Proof.
  intros [H1 H2] Hh. split; [done|]. wsimpl. intros p o [Ho [o' E]]%Hh.
  apply H2 in E. destruct E as (?&?&?). done.
Qed.

Lemma world_wf_delete p w : world_wf w -> world_wf (with_heap (delete p (heap w)) w).
Proof.
  intros Hw. apply world_wf_with_heap; [done|]. intros q o Hq.
  rewrite lookup_delete in Hq. case_decide; [done|].
  split; [by eapply wf_heap in Hq as (_&_&?)|eauto].
Qed.

Lemma world_wf_insert p o o' w :
  world_wf w -> heap w !! p = Some o' -> obj_wf o ->
  world_wf (with_heap (<[p := o]> (heap w)) w).
Proof.
  intros Hw Hp Ho. apply world_wf_with_heap; [done|]. intros q x Hq.
  rewrite lookup_insert in Hq. case_decide; simplify_eq; [eauto|].
  split; [by eapply wf_heap in Hq as (_&_&?)|eauto].
Qed.

Lemma world_wf_placed o w : world_wf w -> obj_wf o -> world_wf (placed o w).
Proof.
  intros [[H1 H1'] H2] Ho. split; wsimpl.
  - split; [lia|]. replace (next w + 16) with (next w + 1 * 16) by lia.
    by rewrite Z.mod_add by lia.
  - intros p x Hp. rewrite lookup_insert in Hp. case_decide; simplify_eq.
    + repeat split; [lia..|done].
    + apply H2 in Hp as (?&?&?). repeat split; [lia..|done|done].
Qed.

(** Releasing the tuple a launcher holds: its lock is dropped first. *)
Lemma free_launch_iab n p i w :
  world_wf w -> heap w !! p = Some (OIab i) ->
  (mu_unlock p;; cap_free_rec (S n) p) w = (Ok 0, with_heap (delete p (heap w)) w).
Proof.
  intros Hw Hp. run.
  assert (world_wf (with_heap (<[p:=obj_with_mutex false (OIab i)]> (heap w)) w)) as Hw'
    by (eapply world_wf_insert; [done..|]; by eapply wf_heap in Hp as (_&_&?)).
  erewrite cap_free_rec_plain; [|done|by wsimpl; rewrite lookup_insert_eq|done].
  f_equal. world_eq.
Qed.

(** The two parts of a launcher's release. *)
Lemma free_launch_iab_part n p l w :
  world_wf w -> heap w !! p = Some (OLaunch l) -> launch_owns (heap w) l ->
  (if negb (l_iab l =? 0) then mu_unlock (l_iab l);; cap_free_rec (S n) (l_iab l)
   else mret 0) w
  = (Ok 0, with_heap (if l_iab l =? 0 then heap w else delete (l_iab l) (heap w)) w).
Proof.
  intros Hw Hp [Hi _]. destruct (Z.eqb_spec (l_iab l) 0) as [E|E]; simpl.
  - by rewrite ret_run, with_heap_id.
  - destruct Hi as [|[i Hi]]; [done|]. by eapply free_launch_iab.
Qed.

Lemma free_launch_chroot_part n p w :
  world_wf w -> (p = 0 \/ exists s, heap w !! p = Some (OStr s)) ->
  cap_free_rec (S n) p w
  = (Ok 0, with_heap (if p =? 0 then heap w else delete p (heap w)) w).
Proof.
  intros Hw Hc. destruct (Z.eqb_spec p 0) as [->|E].
  - by rewrite with_heap_id.
  - destruct Hc as [|[s Hc]]; [done|]. by eapply cap_free_rec_plain.
Qed.

Lemma delete_owned_lookup (h : gmap Z obj) p l q :
  (foldr delete h (p :: owned_by l) : gmap Z obj) !! q =
    if decide (q = p \/ (q <> 0 /\ (q = l_iab l \/ q = l_chroot l))) then None else h !! q.
Proof.
  unfold owned_by. simpl. rewrite !filter_cons, filter_nil.
  repeat (case_decide; simpl); repeat (rewrite lookup_delete; case_decide);
    subst; try done; exfalso; intuition congruence.
Qed.

Lemma cap_free_launch p l w :
  world_wf w -> heap w !! p = Some (OLaunch l) -> launch_owns (heap w) l ->
  cap_free p w = (Ok 0, with_heap (foldr delete (heap w) (p :: owned_by l)) w).
Proof.
  intros Hw Hp Ho. unfold cap_free. rewrite cap_free_rec_S.
  pose proof (wf_ne_0 _ _ _ Hw Hp) as H0.
  destruct (Z.eqb_spec p 0); [done|]. rewrite (not_misaligned _ _ _ Hw Hp).
  run. rewrite (magic_at_some _ _ _ H0 Hp).
  change (obj_magic (OLaunch l)) with CAP_LAUNCH_MAGIC. simpl. run.
  rewrite (bind_ok _ _ _ _ _ (free_launch_iab_part 1 _ _ _ Hw Hp Ho)).
  set (h1 := if l_iab l =? 0 then heap w else delete (l_iab l) (heap w)).
  assert (h1 !! p = Some (OLaunch l)) as Hp1.
  { subst h1. destruct (Z.eqb_spec (l_iab l) 0); [done|].
    rewrite lookup_delete_ne; [done|]. intros E. destruct Ho as [[|[i Hi]] _]; congruence. }
  simpl. run. wsimpl. set (h2 := <[p := _]> h1).
  assert (world_wf (with_heap h2 w)) as Hw2.
  { apply world_wf_with_heap; [done|]. intros q o Hq. subst h2 h1.
    rewrite lookup_insert in Hq. case_decide; simplify_eq; [by split; eauto|].
    assert (heap w !! q = Some o) as Hq'.
    { destruct (l_iab l =? 0); [done|]. rewrite lookup_delete in Hq. by case_decide. }
    split; [by eapply wf_heap in Hq' as (_&_&?)|eauto]. }
  assert (l_chroot l = 0 \/ exists s, h2 !! l_chroot l = Some (OStr s)) as Hc2.
  { destruct Ho as [Hi [Hc|[s Hc]]]; [by left|right; exists s]. subst h2 h1.
    rewrite lookup_insert_ne by congruence. destruct (Z.eqb_spec (l_iab l) 0); [done|].
    rewrite lookup_delete_ne; [done|]. destruct Hi as [|[i Hi]]; congruence. }
  rewrite (bind_ok _ _ _ _ _ (free_launch_chroot_part 1 _ _ Hw2 Hc2)). simpl.
  assert (l_chroot l <> p) as Hcp by (destruct Ho as [_ [|[s ?]]]; congruence).
  set (h3 := if l_chroot l =? 0 then _ else _).
  assert (h3 !! p = Some (OLaunch (set_l_iab 0 l))) as Hp3.
  { subst h3 h2. destruct (l_chroot l =? 0); [by rewrite lookup_insert_eq|].
    by rewrite lookup_delete_ne, lookup_insert_eq. }
  rewrite with_heap_twice. run. rewrite ret_run. f_equal. f_equal.
  change (delete p (foldr delete (heap w) (owned_by l)))
    with (foldr delete (heap w) (p :: owned_by l)).
  apply map_eq. intros q. rewrite delete_owned_lookup, lookup_delete, lookup_insert.
  subst h3 h2 h1. destruct (Z.eqb_spec (l_chroot l) 0), (Z.eqb_spec (l_iab l) 0);
  rewrite ?lookup_delete, ?lookup_insert, ?lookup_delete; repeat case_decide;
    try done; exfalso; intuition congruence.
Qed.

(** *** The start-up probe *)

(** Worlds that differ from [w] in errno and kernel state only. *)
Definition same_but_kernel w w' : Prop :=
  exists e k, w' = with_errno e (with_kst k w).

(** One probe returns, whatever the kernel says. *)
Lemma cap_get_bound_frame w x w' :
  same_but_kernel w w' ->
  exists r w2, cap_get_bound x w' = (Ok r, w2) /\ same_but_kernel w w2.
Proof.
  intros (e & k & ->).
  destruct (libc_syscall_frame
    (SYS_prctl PR_CAPBSET_READ (pr_arg x) (pr_arg 0) 0 0 0) (with_errno e (with_kst k w)))
    as (r & e2 & k2 & H & _).
  exists r, (with_errno e2 (with_kst k2 (with_errno e (with_kst k w)))).
  split; [exact H|]. by exists e2, k2.
Qed.

Lemma mid_bounds a b : a <= b -> a <= (a + b) / 2 <= b.
Proof. intros. split; [apply Z.div_le_lower_bound|apply Z.div_le_upper_bound]; lia. Qed.

(** The loop ends between its bounds after at most one turn per candidate. *)
Lemma binary_search_loop_range w fuel min max w' :
  (Z.to_nat (max - min + 1) < fuel)%nat -> 0 <= min -> min <= max + 1 ->
  same_but_kernel w w' ->
  exists r w2, binary_search_loop fuel cap_get_bound min max w' = (Ok r, w2) /\
    min <= r <= max + 1 /\ same_but_kernel w w2.
Proof.
  revert min max w'. induction fuel as [|fuel IH]; intros min max w' Hf H0 Hm Hw; [lia|].
  simpl. destruct (Z.leb_spec min max).
  - destruct (cap_get_bound_frame _ (Z.quot (min + max) 2) _ Hw) as (r & w2 & Hr & Hw2).
    rewrite (bind_ok _ _ _ _ _ Hr). rewrite Z.quot_div_nonneg by lia.
    pose proof (mid_bounds min max ltac:(done)) as Hmid.
    destruct (Z.ltb_spec r 0).
    + destruct (IH min ((min + max) / 2 - 1) w2) as (x & w3 & -> & ? & ?); [lia..|done|].
      exists x, w3. repeat split; [lia..|done].
    + destruct (IH ((min + max) / 2 + 1) max w2) as (x & w3 & -> & ? & ?); [lia..|done|].
      exists x, w3. repeat split; [lia..|done].
  - exists min, w'. repeat split; [lia..|done].
Qed.

(** When the probe fails from [top] on, the loop finds [top]. *)
Lemma binary_search_loop_top (I : world K -> Prop) top fuel min max :
  (forall x, min <= x <= max -> forall w', I w' ->
     exists r w2, cap_get_bound x w' = (Ok r, w2) /\ I w2 /\ (r < 0 <-> top <= x)) ->
  (Z.to_nat (max - min + 1) < fuel)%nat -> 0 <= min -> min <= top <= max + 1 ->
  forall w', I w' ->
  exists w2, binary_search_loop fuel cap_get_bound min max w' = (Ok top, w2) /\ I w2.
Proof.
  revert min max. induction fuel as [|fuel IH]; intros min max Hfn Hf H0 Ht w' Hw; [lia|].
  simpl. destruct (Z.leb_spec min max).
  - rewrite Z.quot_div_nonneg by lia.
    pose proof (mid_bounds min max ltac:(done)) as Hmid.
    destruct (Hfn ((min + max) / 2) Hmid _ Hw) as (r & w2 & Hr & Hw2 & Hiff).
    rewrite (bind_ok _ _ _ _ _ Hr). destruct (Z.ltb_spec r 0).
    + apply IH; [|lia..|done]. intros x Hx. apply Hfn. lia.
    + apply IH; [|lia..|done]. intros x Hx. apply Hfn. lia.
  - replace top with min by lia. eauto.
Qed.

(** The kernel numbers its capabilities from 0 to [last]: PR_CAPBSET_READ
    fails with EINVAL above (documented), and reading changes nothing. *)
Definition bound_top (last : Z) (k : K) : Prop :=
  forall x, 0 <= x <= CAP_MAXBITS ->
    exists r, sys_call k (SYS_prctl PR_CAPBSET_READ x 0 0 0 0) = (r, k) /\
      (r < 0 <-> last < x).

Lemma pr_arg_small x : 0 <= x <= CAP_MAXBITS -> pr_arg x = x.
Proof. intros H. apply Z.mod_small. change CAP_MAXBITS with 64 in H. lia. Qed.

Lemma cap_get_bound_top last k x w :
  bound_top last k -> 0 <= x <= CAP_MAXBITS -> kst w = k ->
  exists r w2, cap_get_bound x w = (Ok r, w2) /\
    (exists e, w2 = with_errno e w) /\ (r < 0 <-> last < x).
Proof.
  intros Hk Hx <-. destruct (Hk x Hx) as (r & Hr & Hiff).
  unfold cap_get_bound, prctl. rewrite (pr_arg_small x Hx).
  change (pr_arg 0) with 0. destruct (Z.lt_ge_cases r 0).
  - exists (-1), (with_errno (- r) w). rewrite (libc_syscall_err _ _ _ _ Hr) by done.
    split; [by destruct w|]. split; [eauto|]. lia.
  - exists r, w. rewrite (libc_syscall_ok _ _ _ _ Hr) by done.
    split; [by destruct w|]. split; [exists (errno w); by destruct w|]. lia.
Qed.

(** cap_set_syscall(NULL, NULL) only changes the globals. *)
Definition loaded_syscalls (g : globals) : globals :=
  if g_linked_psx g then set_multithread SC_psx g else set_overrode false g.

Lemma cap_set_syscall_null w :
  cap_set_syscall None w = (Ok tt, with_glob (loaded_syscalls (glob w)) w).
Proof.
  unfold cap_set_syscall. run. unfold loaded_syscalls.
  by destruct (g_linked_psx (glob w)).
Qed.

(** The first call of the constructor, up to the search. *)
Lemma libcap_initialize_run w n w2 :
  g_libcap_mutex (glob w) = false -> g_max_bits (glob w) = 0 ->
  binary_search cap_get_bound 0 CAP_MAXBITS CAP_BITS
    (with_glob (loaded_syscalls (set_libcap_mutex true (glob w))) w) = (Ok n, w2) ->
  same_but_kernel (with_glob (loaded_syscalls (set_libcap_mutex true (glob w))) w) w2 ->
  libcap_initialize w =
    (Ok tt, with_kst (kst w2) (with_glob (set_max_bits n (loaded_syscalls (glob w))) w)).
Proof.
  intros Hl Hb Hn (e & k & ->). unfold libcap_initialize, get_errno. run. rewrite Hl.
  unfold put_glob. run. wsimpl. cbn [g_max_bits set_libcap_mutex]. rewrite Hb. simpl.
  rewrite bind_bind, (bind_ok _ _ _ _ _ (cap_set_syscall_null _)). wsimpl.
  rewrite bind_bind. erewrite (bind_ok (binary_search _ _ _ _)); [|exact Hn].
  run. unfold modify, set_errno. f_equal. world_eq.
  destruct (glob w) as [b m o l ms ss pd]. simpl in *. subst. unfold loaded_syscalls. by destruct l.
Qed.

(** *** What the manifest states of cap_alloc.c *)

(** C40 The start-up constructor terminates on every kernel, whatever its
    prctl(2) answers, and leaves a capability count between 1 and 64: the
    index [bit >> 5] of a bit below it never leaves the two-word vectors. The
    lock is free again, errno and the heap are untouched. *)
Theorem libcap_initialize_bounds w :
  g_libcap_mutex (glob w) = false -> g_max_bits (glob w) = 0 ->
  exists w', libcap_initialize w = (Ok tt, w') /\
    1 <= g_max_bits (glob w') <= CAP_MAXBITS /\
    g_libcap_mutex (glob w') = false /\
    errno w' = errno w /\ heap w' = heap w /\ next w' = next w /\ mem w' = mem w.
Proof.
  intros Hl Hb. set (w1 := with_glob (loaded_syscalls (set_libcap_mutex true (glob w))) w).
  destruct (binary_search_loop_range w1 66 0 CAP_MAXBITS w1)
    as (r & w2 & Hr & Hrange & Hw2);
    [change CAP_MAXBITS with 64; lia..|by exists (errno w), (kst w); destruct w|].
  change CAP_MAXBITS with 64 in Hrange.
  eexists. split.
  - eapply libcap_initialize_run; [done..| |exact Hw2].
    unfold binary_search. change (S _) with 66%nat. by rewrite (bind_ok _ _ _ _ _ Hr), ret_run.
  - wsimpl. split; [|by unfold loaded_syscalls; destruct (g_linked_psx _)].
    change (g_max_bits _) with
      (if negb (r =? 0) then if r <=? CAP_MAXBITS then r else CAP_BITS else CAP_BITS).
    change CAP_MAXBITS with 64. unfold CAP_BITS. zbool; simpl; lia.
Qed.

(** On a kernel whose capabilities are numbered 0 to [last], the binary
    search of the constructor finds [last + 1], the number of capabilities,
    and changes nothing else but the system-call redirection. *)
Theorem libcap_initialize_correct w last :
  g_libcap_mutex (glob w) = false -> g_max_bits (glob w) = 0 ->
  bound_top last (kst w) -> 0 <= last < CAP_MAXBITS ->
  libcap_initialize w =
    (Ok tt, with_glob (set_max_bits (last + 1) (loaded_syscalls (glob w))) w).
Proof.
  intros Hl Hb Hk Hlast. set (w1 := with_glob (loaded_syscalls (set_libcap_mutex true (glob w))) w).
  change CAP_MAXBITS with 64 in Hlast.
  assert (forall x, 0 <= x <= CAP_MAXBITS -> forall w', (exists e, w' = with_errno e w1) ->
     exists r w2, cap_get_bound x w' = (Ok r, w2) /\ (exists e, w2 = with_errno e w1)
       /\ (r < 0 <-> last + 1 <= x)) as Hfn.
  { intros x Hx w' [e ->].
    destruct (cap_get_bound_top last (kst w) x (with_errno e w1)) as (r & w2 & Hr & [e2 ->] & Hi);
      [done..|]. exists r, (with_errno e2 w1). split; [done|]. split; [eauto|lia]. }
  destruct (binary_search_loop_top (fun w' => exists e, w' = with_errno e w1)
    (last + 1) 66 0 CAP_MAXBITS Hfn) with (w' := w1) as (w2 & Hr & [e ->]);
    [change CAP_MAXBITS with 64; lia..|by exists (errno w); destruct w|].
  rewrite (libcap_initialize_run w (last + 1) (with_errno e w1));
    [f_equal; by destruct w|done..| |].
  - unfold binary_search. change (S _) with 66%nat. rewrite (bind_ok _ _ _ _ _ Hr), ret_run.
    change CAP_MAXBITS with 64. zbool; simpl; first [done | lia].
  - by exists e, (kst w); destruct w.
Qed.

(** A second run of the constructor, as from the library's own entry point,
    is a no-op once the count is known. *)
Theorem libcap_initialize_once w :
  g_libcap_mutex (glob w) = false -> g_max_bits (glob w) <> 0 ->
  libcap_initialize w = (Ok tt, w).
Proof.
  intros Hl Hb%Z.eqb_neq. unfold libcap_initialize, get_errno. run. rewrite Hl.
  unfold put_glob. run. wsimpl. cbn [g_max_bits set_libcap_mutex]. rewrite Hb. run.
  unfold set_errno, modify. f_equal. destruct w as [h n m e g k o]. world_eq.
  destruct g. simpl in *. by subst.
Qed.

(** What a call of cap_free() does to an address that holds no libcap object. *)
Lemma cap_free_unknown p w :
  p <> 0 -> heap w !! p = None -> cap_free p w = (Ok (-1), with_errno EINVAL w).
Proof.
  intros Hp Hn. unfold cap_free. rewrite cap_free_rec_S.
  destruct (Z.eqb_spec p 0); [done|]. destruct (misaligned p); [by run|].
  run. replace (magic_at (heap w) p) with 0; [by run|].
  unfold magic_at. destruct (Z.eqb_spec p 0); [done|]. by rewrite Hn.
Qed.

Lemma cap_free_locked p c w :
  world_wf w -> heap w !! p = Some (OCap c) -> c_mutex c = true ->
  exists w', cap_free p w = (Spin, w').
Proof.
  intros Hw Hp Hc. unfold cap_free. rewrite cap_free_rec_S.
  pose proof (wf_ne_0 _ _ _ Hw Hp) as H0.
  destruct (Z.eqb_spec p 0); [done|]. rewrite (not_misaligned _ _ _ Hw Hp).
  run. rewrite (magic_at_some _ _ _ H0 Hp).
  change (obj_magic (OCap c) =? CAP_T_MAGIC) with true. cbn iota.
  destruct (mu_lock_spin p (OCap c) w) as [w' Hs]; [done|by simpl; rewrite Hc|].
  exists w'. by apply bind_spin.
Qed.

(** cap_free() on every kind of argument: NULL is a no-op; an address that
    holds no object is refused with EINVAL and changes nothing; a capability
    set, an IAB tuple or a string disappears and nothing else does; a launcher
    takes the tuple and the string it holds with it, even though the tuple is
    locked; and a set whose lock is taken is waited for. *)
Theorem cap_free_correct p w :
  world_wf w ->
  (p = 0 -> cap_free p w = (Ok 0, w)) /\
  (p <> 0 -> heap w !! p = None -> cap_free p w = (Ok (-1), with_errno EINVAL w)) /\
  (forall o, heap w !! p = Some o -> plain_obj o = true ->
     cap_free p w = (Ok 0, with_heap (delete p (heap w)) w)) /\
  (forall l, heap w !! p = Some (OLaunch l) -> launch_owns (heap w) l ->
     cap_free p w = (Ok 0, with_heap (foldr delete (heap w) (p :: owned_by l)) w)) /\
  (forall c, heap w !! p = Some (OCap c) -> c_mutex c = true ->
     exists w', cap_free p w = (Spin, w')).
Proof.
  intros Hw. split_and!.
  - by intros ->.
  - apply cap_free_unknown.
  - intros o. by apply cap_free_plain.
  - intros l. by apply cap_free_launch.
  - intros c. by apply cap_free_locked.
Qed.

(** Releasing the same address twice is detected: the second cap_free()
    returns -1 with EINVAL and changes nothing else. *)
Theorem cap_free_twice p o w w' :
  world_wf w -> heap w !! p = Some o ->
  (forall l, o = OLaunch l -> launch_owns (heap w) l) ->
  cap_free p w = (Ok 0, w') ->
  cap_free p w' = (Ok (-1), with_errno EINVAL w').
Proof.
  intros Hw Hp Ho Hf. apply cap_free_unknown; [by eapply wf_ne_0|].
  destruct (plain_obj o) eqn:Hpl.
  - rewrite (cap_free_plain _ _ _ Hw Hp Hpl) in Hf. simplify_eq. wsimpl.
    by rewrite lookup_delete_eq.
  - destruct o as [c|i|l|s]; try done.
    + destruct (cap_free_locked p c w) as [? E]; [done..| |by rewrite E in Hf].
      simpl in Hpl. by destruct (c_mutex c).
    + rewrite (cap_free_launch _ _ _ Hw Hp (Ho l eq_refl)) in Hf. simplify_eq. wsimpl.
      rewrite delete_owned_lookup. case_decide; [done|tauto].
Qed.

(** cap_dup() makes an independent, unlocked copy at an address not in use
    and leaves the original as it was; releasing the copy restores the heap.
    With no memory it returns NULL with ENOMEM, and for anything but a
    capability set NULL with EINVAL, the heap untouched in both cases. *)
Theorem cap_dup_correct p w :
  world_wf w -> capget_probe_ok (kst w) ->
  (forall c, heap w !! p = Some (OCap c) -> c_mutex c = false -> mem_ok w ->
     exists q w', cap_dup p w = (Ok q, w') /\ q <> p /\ q <> 0 /\ heap w !! q = None /\
       heap w' = <[q := OCap c]> (heap w) /\ world_wf w' /\
       cap_free q w' = (Ok 0, with_heap (heap w) w')) /\
  (forall c, heap w !! p = Some (OCap c) -> hd true (mem w) = false ->
     cap_dup p w = (Ok 0, with_errno ENOMEM (popped w))) /\
  (magic_at (heap w) p <> CAP_T_MAGIC -> cap_dup p w = (Ok 0, with_errno EINVAL w)).
Proof.
  intros Hw Hk. split_and!.
  - intros c Hp Hc Hm. exists (next w), (placed (OCap c) w).
    pose proof (wf_ne_next _ _ _ Hw Hp). pose proof (wf_next_ne_0 _ Hw).
    assert (world_wf (placed (OCap c) w)) as Hw'
      by (apply world_wf_placed; [done|]; by eapply wf_heap in Hp as (_&_&?)).
    split_and!; try done.
    + by apply cap_dup_run.
    + by apply wf_fresh.
    + erewrite cap_free_plain; [|done|by wsimpl; rewrite lookup_insert_eq|by simpl; rewrite Hc].
      by rewrite free_placed.
  - intros c Hp Hm. unfold cap_dup. run.
    rewrite (magic_at_some _ _ _ (wf_ne_0 _ _ _ Hw Hp) Hp). simpl.
    by rewrite (bind_ok _ _ _ _ _ (cap_init_oom _ Hm)).
  - apply cap_dup_bad.
Qed.

End alloc.
