(* ===== verification/Flag.v ===== *)
(** libcap/cap_flag.c: reading, flipping, filling and comparing the flags of a
    capability set and the vectors of an IAB tuple. *)

From S2P Require Import Prelude Capability World Exec Syscall Alloc.
From stdpp Require Import gmap strings list sets.
From Stdlib Require Import ZArith Lia.

Open Scope Z_scope.

(** *** The words of a set *)

(** [u[i]], for an index below the length of the array *)
Definition u_blk (u : list capblk) (i : Z) : capblk := default blk0 (u !! Z.to_nat i).

(** libcap.h: [isset_cap(y, x, set)] as the masked word, [raise_cap] and
    [lower_cap] *)
Definition isset_cap (u : list capblk) (x set : Z) : Z :=
  Z.land (flat (u_blk u (CAP_TO_INDEX x)) set) (bit32 x).
Definition raise_cap (x set : Z) (u : list capblk) : list capblk :=
  alter (fun b => set_flat set (Z.lor (flat b set) (bit32 x)) b)
    (Z.to_nat (CAP_TO_INDEX x)) u.
Definition lower_cap (x set : Z) (u : list capblk) : list capblk :=
  alter (fun b => set_flat set (Z.land (flat b set) (u32_not (bit32 x))) b)
    (Z.to_nat (CAP_TO_INDEX x)) u.

Definition with_u (f : list capblk -> list capblk) (c : cap_struct) : cap_struct :=
  mkCap (c_mutex c) (c_version c) (c_pid c) (f (c_u c)) (c_rootid c).

(** Whether [x >> 5] indexes the array. *)
Definition in_words {A} (l : list A) (x : Z) : bool :=
  (0 <=? CAP_TO_INDEX x) && (CAP_TO_INDEX x <? Z.of_nat (length l)).

Section flag.
Context {K : Type} `{!Kernel K}.
Implicit Types (w : world K) (p : Z).

(** The second component is what is stored through [raised], which is NULL
    when [raised] is [false]. *)
Definition cap_get_flag (cap_d value set : Z) (raised : bool) : M K (Z * option Z) :=
  good ← good_cap_t cap_d;
  if raised && good && (0 <=? value) && (value <? CAP_MAXBITS)
     && (0 <=? set) && (set <? NUMBER_OF_CAP_SETS) then
    mu_lock cap_d;;
    c ← load_cap cap_d;
    assert_ub (in_words (c_u c) value);;
    let v := if negb (isset_cap (c_u c) value set =? 0) then CAP_SET else CAP_CLEAR in
    mu_unlock cap_d;;
    mret (0, Some v)
  else set_errno EINVAL;; mret (-1, None).

(** The body of cap_set_flag()'s loop and the loop over [i .. i + n - 1];
    reading past the end of the caller's array is undefined. *)
Definition cap_set_flag_one (cap_d set raise value : Z) : M K unit :=
  if (value <? 0) || (CAP_MAXBITS <=? value) then mret tt
  else
    c ← load_cap cap_d;
    assert_ub (in_words (c_u c) value);;
    if raise =? CAP_SET then modify_cap cap_d (with_u (raise_cap value set))
    else modify_cap cap_d (with_u (lower_cap value set)).

Fixpoint cap_set_flag_loop (cap_d set raise : Z) (array_values : list Z) (i n : nat) : M K unit :=
  match n with
  | O => mret tt
  | S n =>
      match array_values !! i with
      | None => fault
      | Some value =>
          cap_set_flag_one cap_d set raise value;;
          cap_set_flag_loop cap_d set raise array_values (S i) n
      end
  end.

Definition cap_set_flag (cap_d set no_values : Z) (array_values : list Z) (raise : Z) : M K Z :=
  good ← good_cap_t cap_d;
  if good && (0 <? no_values) && (no_values <? CAP_MAXBITS)
     && (0 <=? set) && (set <? NUMBER_OF_CAP_SETS)
     && ((raise =? CAP_SET) || (raise =? CAP_CLEAR)) then
    mu_lock cap_d;;
    cap_set_flag_loop cap_d set raise array_values 0 (Z.to_nat no_values);;
    mu_unlock cap_d;;
    mret 0
  else set_errno EINVAL;; mret (-1).

Definition cap_clear (cap_d : Z) : M K Z :=
  good ← good_cap_t cap_d;
  if good : bool then
    mu_lock cap_d;;
    modify_cap cap_d (with_u (fun u => replicate (length u) blk0));;   (* memset *)
    mu_unlock cap_d;;
    mret 0
  else set_errno EINVAL;; mret (-1).

Definition known_flag (flag : Z) : bool :=
  (flag =? CAP_EFFECTIVE) || (flag =? CAP_PERMITTED) || (flag =? CAP_INHERITABLE).

(** [for (i=0; i<_LIBCAP_CAPABILITY_U32S; i++) u[i].flat[flag] = f(i)] *)
Definition fill_words (flag : Z) (f : nat -> Z) (u : list capblk) : list capblk :=
  imap (fun i b => set_flat flag (f i) b) u.

Definition cap_clear_flag (cap_d flag : Z) : M K Z :=
  good ← good_cap_t cap_d;
  if known_flag flag && good then
    mu_lock cap_d;;
    modify_cap cap_d (with_u (fill_words flag (fun _ => 0)));;
    mu_unlock cap_d;;
    mret 0
  else set_errno EINVAL;; mret (-1).

(** One turn of cap_compare()'s loop, and the loop. *)
Definition compare_blk (a b : capblk) : Z :=
  Z.lor
    (Z.lor (if negb (effective a =? effective b) then LIBCAP_EFF else 0)
           (if negb (inheritable a =? inheritable b) then LIBCAP_INH else 0))
    (if negb (permitted a =? permitted b) then LIBCAP_PER else 0).

Definition compare_u (a b : list capblk) : Z :=
  foldl (fun result i => Z.lor result (compare_blk (u_blk a i) (u_blk b i)))
    0 (seqZ 0 LIBCAP_CAPABILITY_U32S).

Definition cap_compare (a b : Z) : M K Z :=
  ga ← good_cap_t a;
  gb ← good_cap_t b;
  if negb (ga && gb) then set_errno EINVAL;; mret (-1)
  else
    b ← cap_dup b;
    if b =? 0 then mret (-1)
    else
      mu_lock a;;
      ca ← load_cap a;
      cb ← load_cap b;
      let result := compare_u (c_u ca) (c_u cb) in
      mu_unlock a;;
      _ ← cap_free b;
      mret result.

Definition cap_fill_flag (cap_d to ref from : Z) : M K Z :=
  g1 ← good_cap_t cap_d;
  g2 ← good_cap_t ref;
  if negb g1 || negb g2 then set_errno EINVAL;; mret (-1)
  else if (to <? CAP_EFFECTIVE) || (CAP_INHERITABLE <? to)
       || (from <? CAP_EFFECTIVE) || (CAP_INHERITABLE <? from)
  then set_errno EINVAL;; mret (-1)
  else
    orig ← cap_dup ref;
    if orig =? 0 then mret (-1)
    else
      mu_lock cap_d;;
      co ← load_cap orig;
      modify_cap cap_d
        (with_u (fill_words to (fun i => flat (u_blk (c_u co) (Z.of_nat i)) from)));;
      mu_unlock cap_d;;
      _ ← cap_free orig;
      mret 0.

Definition cap_fill (cap_d to from : Z) : M K Z := cap_fill_flag cap_d to cap_d from.

(** *** IAB tuples *)

Definition word (v : list Z) (o : Z) : Z := default 0 (v !! Z.to_nat o).
Definition upd_word (o : Z) (f : Z -> Z) (v : list Z) : list Z := alter f (Z.to_nat o) v.

Definition cap_iab_get_vector (iab vec bit : Z) : M K Z :=
  good ← good_cap_iab_t iab;
  max_bits ← cap_max_bits;
  if negb good || (bit <? 0) || (max_bits <=? bit) then mret 0
  else
    let o := Z.shiftr bit 5 in
    let mask := bit32 bit in
    mu_lock iab;;
    t ← load_iab iab;
    assert_ub (in_words (iab_i t) bit);;
    let test v := if negb (Z.land (word v o) mask =? 0) then 1 else 0 in
    let ret :=
      if vec =? CAP_IAB_INH then test (iab_i t)
      else if vec =? CAP_IAB_AMB then test (iab_a t)
      else if vec =? CAP_IAB_BOUND then test (iab_nb t)
      else 0 in
    mu_unlock iab;;
    mret ret.

(** The switch of cap_iab_set_vector() on word [o]; [None] is its default. *)
Definition set_vector_words (vec o on raised : Z) (t : cap_iab_s) : option cap_iab_s :=
  let mask := u32_not on in
  let put v := Z.lor (Z.land v mask) (if negb (raised =? 0) then on else 0) in
  if vec =? CAP_IAB_INH then
    let i := upd_word o put (iab_i t) in
    Some (mkIab (iab_mutex t) i (upd_word o (fun v => Z.land v (word i o)) (iab_a t)) (iab_nb t))
  else if vec =? CAP_IAB_AMB then
    let a := upd_word o put (iab_a t) in
    Some (mkIab (iab_mutex t) (upd_word o (fun v => Z.lor v (word a o)) (iab_i t)) a (iab_nb t))
  else if vec =? CAP_IAB_BOUND then
    Some (mkIab (iab_mutex t) (iab_i t) (iab_a t) (upd_word o put (iab_nb t)))
  else None.

Definition cap_iab_set_vector (iab vec bit raised : Z) : M K Z :=
  good ← good_cap_iab_t iab;
  max_bits ← cap_max_bits;
  if negb good || negb (Z.shiftr raised 1 =? 0) || (bit <? 0) || (max_bits <=? bit)
  then set_errno EINVAL;; mret (-1)
  else
    let o := Z.shiftr bit 5 in
    let on := bit32 bit in
    mu_lock iab;;
    t ← load_iab iab;
    assert_ub (in_words (iab_i t) bit);;
    match set_vector_words vec o on raised t with
    | Some t => modify_iab iab (fun _ => t);; mu_unlock iab;; mret 0
    | None => set_errno EINVAL;; mu_unlock_return iab (-1)
    end.

(** One turn of cap_iab_fill()'s loop: word [i] of the source flag. *)
Definition fill_vector_word (vec : Z) (i : Z) (v : Z) (t : cap_iab_s) : option cap_iab_s :=
  if vec =? CAP_IAB_INH then
    let inh := upd_word i (fun _ => v) (iab_i t) in
    Some (mkIab (iab_mutex t) inh (upd_word i (fun a => Z.land a (word inh i)) (iab_a t)) (iab_nb t))
  else if vec =? CAP_IAB_AMB then
    Some (mkIab (iab_mutex t) (upd_word i (fun x => Z.lor x v) (iab_i t))
      (upd_word i (fun _ => v) (iab_a t)) (iab_nb t))
  else if vec =? CAP_IAB_BOUND then
    Some (mkIab (iab_mutex t) (iab_i t) (iab_a t) (upd_word i (fun _ => u32_not v) (iab_nb t)))
  else None.

(** The loop [for (i = 0; !ret && i < U32S; i++)]: the tuple and [ret]. *)
Fixpoint fill_vector_loop (vec flag : Z) (u : list capblk) (blks : list Z) (t : cap_iab_s)
    : cap_iab_s * bool :=
  match blks with
  | [] => (t, true)
  | i :: blks =>
      match fill_vector_word vec i (flat (u_blk u i) flag) t with
      | Some t => fill_vector_loop vec flag u blks t
      | None => (t, false)
      end
  end.

Definition cap_iab_fill (iab vec cap_d flag : Z) : M K Z :=
  g1 ← good_cap_t cap_d;
  g2 ← good_cap_iab_t iab;
  if negb g1 || negb g2 then set_errno EINVAL;; mret (-1)
  else if negb (known_flag flag) then set_errno EINVAL;; mret (-1)
  else
    cap_d ← cap_dup cap_d;
    if cap_d =? 0 then mret (-1)
    else
      mu_lock iab;;
      c ← load_cap cap_d;
      t ← load_iab iab;
      let '(t, ok) := fill_vector_loop vec flag (c_u c) (seqZ 0 LIBCAP_CAPABILITY_U32S) t in
      modify_iab iab (fun _ => t);;
      (if ok then mret tt else set_errno EINVAL);;
      mu_unlock iab;;
      _ ← cap_free cap_d;
      mret (if ok then 0 else -1).

Definition compare_iab (a b : cap_iab_s) : Z :=
  foldl (fun result j =>
    Z.lor result
      (Z.lor (Z.lor (if word (iab_i a) j =? word (iab_i b) j then 0 else Z.shiftl 1 CAP_IAB_INH)
                    (if word (iab_a a) j =? word (iab_a b) j then 0 else Z.shiftl 1 CAP_IAB_AMB))
             (if word (iab_nb a) j =? word (iab_nb b) j then 0 else Z.shiftl 1 CAP_IAB_BOUND)))
    0 (seqZ 0 LIBCAP_CAPABILITY_U32S).

Definition cap_iab_compare (a b : Z) : M K Z :=
  ga ← good_cap_iab_t a;
  gb ← good_cap_iab_t b;
  if negb (ga && gb) then set_errno EINVAL;; mret (-1)
  else
    b ← cap_iab_dup b;
    if b =? 0 then mret (-1)
    else
      mu_lock a;;
      ta ← load_iab a;
      tb ← load_iab b;
      let result := compare_iab ta tb in
      mu_unlock a;;
      _ ← cap_free b;
      mret result.

End flag.
