(* ===== verification/FlagSpec.v ===== *)
(** The abstract view of capability sets and IAB tuples, as finite sets of
    capability numbers, and the proof that the operations of Flag.v implement
    the set operations they stand for. *)

From S2P Require Import Prelude Capability World Exec Syscall Alloc Flag.
From stdpp Require Import gmap strings list sets.
From Stdlib Require Import ZArith Lia.

Open Scope Z_scope.

(** ** The abstract view: a capability set is three sets of capability numbers *)

Definition has_cap (u : list capblk) (x set : Z) : bool :=
  Z.testbit (flat (u_blk u (CAP_TO_INDEX x)) set) (Z.land x 31).

Definition caps_of (u : list capblk) (set : Z) : gset Z :=
  list_to_set (List.filter (fun x => has_cap u x set) (seqZ 0 CAP_MAXBITS)).

Definition valid_cap (x : Z) : Prop := 0 <= x < CAP_MAXBITS.
Definition valid_set (s : Z) : Prop := 0 <= s < NUMBER_OF_CAP_SETS.

#[global] Instance valid_cap_dec x : Decision (valid_cap x).
Proof. unfold valid_cap. apply _. Defined.

(** The bits of one vector of an IAB tuple. *)
Definition vec_bit (v : list Z) (x : Z) : bool := Z.testbit (word v (CAP_TO_INDEX x)) (Z.land x 31).

Section abstract.
Implicit Types (u : list capblk) (x y s : Z).

Lemma index_bound x : valid_cap x -> CAP_TO_INDEX x = 0 \/ CAP_TO_INDEX x = 1.
Proof.
  unfold valid_cap, CAP_TO_INDEX. change CAP_MAXBITS with 64. intros H.
  rewrite Z.shiftr_div_pow2 by lia. change (2 ^ 5) with 32.
  destruct (Z.lt_ge_cases x 32); [left|right].
  - apply Z.div_small. lia.
  - symmetry. apply Z.div_unique with (x - 32); lia.
Qed.

Lemma cap_split x : valid_cap x -> x = 32 * CAP_TO_INDEX x + Z.land x 31.
Proof.
  intros _. unfold CAP_TO_INDEX. rewrite Z.shiftr_div_pow2, land31 by lia.
  change (2 ^ 5) with 32. apply Z.div_mod. lia.
Qed.

(** The index and the bit inside the word, from the number. *)
Lemma cap_join i b :
  0 <= i < 2 -> 0 <= b < 32 ->
  valid_cap (32 * i + b) /\ CAP_TO_INDEX (32 * i + b) = i /\ Z.land (32 * i + b) 31 = b.
Proof.
  intros Hi Hb. unfold valid_cap, CAP_TO_INDEX. change CAP_MAXBITS with 64.
  rewrite land31, Z.shiftr_div_pow2 by lia. change (2 ^ 5) with 32. split; [lia|].
  split.
  - symmetry. by apply Z.div_unique with b; [left|].
  - symmetry. by apply Z.mod_unique with i; [left|].
Qed.

Lemma elem_of_caps_of u s x :
  x ∈ caps_of u s <-> valid_cap x /\ has_cap u x s = true.
Proof.
  unfold caps_of. rewrite elem_of_list_to_set, list_elem_of_In, filter_In,
    <-list_elem_of_In, elem_of_seqZ. unfold valid_cap. intuition lia.
Qed.

#[global] Instance set_unfold_caps_of x u s :
  SetUnfoldElemOf x (caps_of u s) (valid_cap x /\ has_cap u x s = true).
Proof. constructor. apply elem_of_caps_of. Qed.

Lemma flat_set_flat s s' v b :
  valid_set s -> valid_set s' ->
  flat (set_flat s v b) s' = if s =? s' then v else flat b s'.
Proof.
  unfold valid_set, NUMBER_OF_CAP_SETS. intros H H'.
  assert (s = 0 \/ s = 1 \/ s = 2) as [->|[->| ->]] by lia;
  assert (s' = 0 \/ s' = 1 \/ s' = 2) as [->|[->| ->]] by lia; done.
Qed.

Lemma blk_ext b b' : (forall s, valid_set s -> flat b s = flat b' s) -> b = b'.
Proof.
  intros H. destruct b, b'. pose proof (H 0 ltac:(done)). pose proof (H 1 ltac:(done)).
  pose proof (H 2 ltac:(done)). simpl in *. by f_equal.
Qed.

Lemma blk_wf_flat b s : blk_wf b -> is_u32 (flat b s).
Proof. intros (?&?&?). unfold flat. by repeat case_match. Qed.

Lemma blk_wf_set_flat b s v : blk_wf b -> is_u32 v -> blk_wf (set_flat s v b).
Proof. intros (?&?&?) ?. unfold set_flat, blk_wf. by repeat case_match. Qed.

(** A well-formed set has two blocks. *)
Definition u_wf u : Prop := length u = Z.to_nat CAP_BLKS /\ Forall blk_wf u.

Lemma u_wf_inv u : u_wf u -> exists b0 b1, u = [b0; b1] /\ blk_wf b0 /\ blk_wf b1.
Proof.
  intros [Hl Hf]. change (Z.to_nat CAP_BLKS) with 2%nat in Hl.
  destruct u as [|b0 [|b1 [|]]]; try done. exists b0, b1.
  by apply Forall_cons in Hf as [? [? _]%Forall_cons].
Qed.

Lemma u_wf_pair b0 b1 : blk_wf b0 -> blk_wf b1 -> u_wf [b0; b1].
Proof. intros. split; [done|]. by apply Forall_cons_2, Forall_cons_2, Forall_nil_2. Qed.

Lemma u_blk_wf u i : u_wf u -> blk_wf (u_blk u i).
Proof.
  intros [_ Hf]. unfold u_blk. destruct (u !! Z.to_nat i) eqn:E; simpl.
  - by eapply Forall_lookup_1 in Hf.
  - repeat split; apply is_u32_0.
Qed.

Lemma in_words_valid {A} (l : list A) x :
  length l = Z.to_nat CAP_BLKS -> valid_cap x -> in_words l x = true.
Proof.
  intros Hl Hx. unfold in_words. rewrite Hl. change (Z.of_nat (Z.to_nat CAP_BLKS)) with 2.
  destruct (index_bound x Hx) as [-> | ->]; done.
Qed.

(** *** What raise, lower and the loops do to the bits *)

Lemma u_blk_alter f i u j :
  0 <= i -> 0 <= j -> (Z.to_nat i < length u)%nat ->
  u_blk (alter f (Z.to_nat i) u) j = if i =? j then f (u_blk u j) else u_blk u j.
Proof.
  intros Hi Hj Hl. unfold u_blk. destruct (Z.eqb_spec i j) as [->|].
  - rewrite list_lookup_alter_eq. destruct (lookup_lt_is_Some_2 _ _ Hl) as [b ->]. done.
  - rewrite list_lookup_alter_ne by lia. done.
Qed.

Lemma has_cap_update (f : capblk -> capblk) u x y s :
  u_wf u -> valid_cap x -> valid_cap y ->
  has_cap (alter f (Z.to_nat (CAP_TO_INDEX x)) u) y s =
    if CAP_TO_INDEX x =? CAP_TO_INDEX y
    then Z.testbit (flat (f (u_blk u (CAP_TO_INDEX y))) s) (Z.land y 31) else has_cap u y s.
Proof.
  intros [Hl _] Hx Hy. unfold has_cap.
  pose proof (index_bound x Hx). pose proof (index_bound y Hy).
  rewrite u_blk_alter; [by case_match|lia..|rewrite Hl; change (Z.to_nat CAP_BLKS) with 2%nat; lia].
Qed.

Lemma cap_eqb x y :
  valid_cap x -> valid_cap y ->
  (x =? y) = (CAP_TO_INDEX x =? CAP_TO_INDEX y) && (Z.land y 31 =? Z.land x 31).
Proof.
  intros Hx Hy. rewrite (cap_split x Hx) at 1. rewrite (cap_split y Hy) at 1.
  pose proof (land31_bound x). pose proof (land31_bound y).
  destruct (index_bound x Hx) as [-> | ->], (index_bound y Hy) as [-> | ->]; simpl; zbool; lia.
Qed.

Lemma has_cap_raise u x y s s' :
  u_wf u -> valid_cap x -> valid_cap y -> valid_set s -> valid_set s' ->
  has_cap (raise_cap x s u) y s' = ((s =? s') && (x =? y)) || has_cap u y s'.
Proof.
  intros Hu Hx Hy Hs Hs'. unfold raise_cap. rewrite has_cap_update by done.
  rewrite flat_set_flat by done. rewrite (cap_eqb x y) by done. unfold has_cap.
  pose proof (land31_bound y).
  destruct (CAP_TO_INDEX x =? CAP_TO_INDEX y); [|by rewrite andb_false_r].
  destruct (Z.eqb_spec s s') as [->|]; [|done].
  rewrite Z.lor_spec, bit32_spec by lia. simpl. apply orb_comm.
Qed.

Lemma has_cap_lower u x y s s' :
  u_wf u -> valid_cap x -> valid_cap y -> valid_set s -> valid_set s' ->
  has_cap (lower_cap x s u) y s' = negb ((s =? s') && (x =? y)) && has_cap u y s'.
Proof.
  intros Hu Hx Hy Hs Hs'. unfold lower_cap. rewrite has_cap_update by done.
  rewrite flat_set_flat by done. rewrite (cap_eqb x y) by done. unfold has_cap.
  pose proof (land31_bound y).
  destruct (CAP_TO_INDEX x =? CAP_TO_INDEX y); [|by rewrite andb_false_r].
  destruct (Z.eqb_spec s s') as [->|]; [|done].
  rewrite land_not_spec by (lia || apply blk_wf_flat, u_blk_wf; done).
  rewrite bit32_spec by lia. simpl. apply andb_comm.
Qed.

Lemma u_wf_alter f i u : u_wf u -> (forall b, blk_wf b -> blk_wf (f b)) -> u_wf (alter f i u).
Proof.
  intros [Hl Hf] H. split; [by rewrite length_alter|].
  by apply Forall_alter; [|intros ? ?; apply H; by eapply Forall_lookup_1].
Qed.

Lemma u_wf_raise x s u : u_wf u -> u_wf (raise_cap x s u).
Proof.
  intros Hu. apply u_wf_alter; [done|]. intros b Hb.
  apply blk_wf_set_flat; [done|]. apply is_u32_lor; [by apply blk_wf_flat|apply is_u32_bit32].
Qed.

Lemma u_wf_lower x s u : u_wf u -> u_wf (lower_cap x s u).
Proof.
  intros Hu. apply u_wf_alter; [done|]. intros b Hb.
  apply blk_wf_set_flat; [done|]. apply is_u32_land_l. by apply blk_wf_flat.
Qed.

(** Two sets with the same capabilities are the same words. *)
Lemma u_ext u u' :
  u_wf u -> u_wf u' ->
  (forall x s, valid_cap x -> valid_set s -> has_cap u x s = has_cap u' x s) -> u = u'.
Proof.
  intros (b0&b1&->&?&?)%u_wf_inv (c0&c1&->&?&?)%u_wf_inv Hx.
  assert (forall i, 0 <= i < 2 -> u_blk [b0; b1] i = u_blk [c0; c1] i) as Hb.
  { intros i Hi. apply blk_ext. intros s Hs.
    apply u32_ext; [apply blk_wf_flat, u_blk_wf; by apply u_wf_pair..|].
    intros b Hb. destruct (cap_join i b Hi Hb) as (Hv & Hi' & Hb').
    specialize (Hx _ _ Hv Hs). unfold has_cap in Hx. by rewrite Hi', Hb' in Hx. }
  pose proof (Hb 0 ltac:(done)). pose proof (Hb 1 ltac:(done)).
  change (b0 = c0) in H3. change (b1 = c1) in H4. by subst.
Qed.

Lemma caps_of_ext u u' :
  u_wf u -> u_wf u' -> (forall s, valid_set s -> caps_of u s = caps_of u' s) -> u = u'.
Proof.
  intros Hu Hu' H. apply u_ext; [done..|]. intros x s Hx Hs.
  assert (x ∈ caps_of u s <-> x ∈ caps_of u' s) as Hiff by (by rewrite (H s Hs)).
  rewrite !elem_of_caps_of in Hiff.
  destruct (has_cap u x s), (has_cap u' x s); intuition congruence.
Qed.

(** A flag's capabilities determine its words. *)
Lemma caps_of_words u u' s :
  u_wf u -> u_wf u' ->
  caps_of u s = caps_of u' s <->
  flat (u_blk u 0) s = flat (u_blk u' 0) s /\ flat (u_blk u 1) s = flat (u_blk u' 1) s.
Proof.
  intros Hu Hu'. split.
  - intros H. assert (forall i, 0 <= i < 2 -> flat (u_blk u i) s = flat (u_blk u' i) s) as Hi;
      [|split; apply Hi; lia].
    intros i Hi. apply u32_ext; [apply blk_wf_flat, u_blk_wf; done..|]. intros b Hb.
    destruct (cap_join i b Hi Hb) as (Hv & Hi' & Hb').
    assert (32 * i + b ∈ caps_of u s <-> 32 * i + b ∈ caps_of u' s) as Hiff by by rewrite H.
    rewrite !elem_of_caps_of in Hiff. unfold has_cap in Hiff. rewrite Hi', Hb' in Hiff.
    destruct (Z.testbit _ b), (Z.testbit _ b); intuition congruence.
  - intros [H0 H1]. apply set_eq. intros x. rewrite !elem_of_caps_of.
    destruct (decide (valid_cap x)) as [Hx|]; [|tauto]. unfold has_cap.
    destruct (index_bound x Hx) as [-> | ->]; by rewrite ?H0, ?H1.
Qed.

Lemma has_cap_fill f to u x s :
  u_wf u -> valid_cap x -> valid_set to -> valid_set s ->
  has_cap (fill_words to f u) x s =
    if to =? s then Z.testbit (f (Z.to_nat (CAP_TO_INDEX x))) (Z.land x 31) else has_cap u x s.
Proof.
  intros (b0&b1&->&?&?)%u_wf_inv Hx Ht Hs. unfold has_cap.
  destruct (index_bound x Hx) as [-> | ->].
  - change (u_blk (fill_words _ _ _) 0) with (set_flat to (f 0%nat) b0).
    rewrite flat_set_flat by done. by case_match.
  - change (u_blk (fill_words _ _ _) 1) with (set_flat to (f 1%nat) b1).
    rewrite flat_set_flat by done. by case_match.
Qed.

Lemma u_wf_fill f to u : u_wf u -> (forall i, is_u32 (f i)) -> u_wf (fill_words to f u).
Proof.
  intros (b0&b1&->&?&?)%u_wf_inv Hf. apply u_wf_pair; by apply blk_wf_set_flat.
Qed.

Lemma caps_of_fill f to u s :
  u_wf u -> valid_set to -> valid_set s -> s <> to -> caps_of (fill_words to f u) s = caps_of u s.
Proof.
  intros Hu Ht Hs Hne. apply set_eq. intros x. rewrite !elem_of_caps_of.
  destruct (decide (valid_cap x)); [|tauto]. rewrite has_cap_fill by done.
  destruct (Z.eqb_spec to s); [congruence|tauto].
Qed.

(** Filling with the words of a flag copies its capabilities. *)
Lemma caps_of_fill_same u' from to u :
  u_wf u -> valid_set to ->
  caps_of (fill_words to (fun i => flat (u_blk u' (Z.of_nat i)) from) u) to = caps_of u' from.
Proof.
  intros Hu Ht. apply set_eq. intros x. rewrite !elem_of_caps_of.
  destruct (decide (valid_cap x)) as [Hx|]; [|tauto]. rewrite has_cap_fill, Z.eqb_refl by done.
  unfold has_cap. rewrite Z2Nat.id; [done|]. destruct (index_bound x Hx) as [-> | ->]; lia.
Qed.

Lemma caps_of_fill_0 to u :
  u_wf u -> valid_set to -> caps_of (fill_words to (fun _ => 0) u) to = ∅.
Proof.
  intros Hu Ht. apply set_eq. intros x. rewrite elem_of_caps_of, elem_of_empty.
  split; [|done]. intros [Hx Hb]. rewrite has_cap_fill, Z.eqb_refl, Z.testbit_0_l in Hb by done. done.
Qed.

Lemma caps_of_blank n s : caps_of (replicate n blk0) s = ∅.
Proof.
  apply set_eq. intros x. rewrite elem_of_caps_of, elem_of_empty. split; [|done].
  intros [_ Hb]. unfold has_cap, u_blk in Hb. assert (flat blk0 s = 0) as H0 by
    (unfold flat; by repeat case_match).
  destruct (replicate n blk0 !! Z.to_nat (CAP_TO_INDEX x)) eqn:E; simpl in Hb.
  - apply lookup_replicate in E as [-> _]. by rewrite H0, Z.testbit_0_l in Hb.
  - by rewrite H0, Z.testbit_0_l in Hb.
Qed.

End abstract.

#[export] Hint Resolve u_wf_raise u_wf_lower : words.

(** Changing the words between taking and releasing the lock. *)
Lemma unlock_with_u f c :
  c_mutex c = false ->
  cap_with_mutex false (with_u f (cap_with_mutex true c)) = with_u (fun _ => f (c_u c)) c.
Proof. destruct c; simpl; by intros ->. Qed.

#[export] Hint Rewrite unlock_with_u using assumption : mutex.

(** ** cap_set_flag *)

(** What one value of the array does to the words. *)
Definition set_flag_u (set raise : Z) (u : list capblk) (value : Z) : list capblk :=
  if (value <? 0) || (CAP_MAXBITS <=? value) then u
  else if raise =? CAP_SET then raise_cap value set u else lower_cap value set u.

(** The capabilities an array names; the others are skipped. *)
Definition named_caps (l : list Z) : gset Z := list_to_set (filter valid_cap l).

Lemma elem_of_named_caps x l : x ∈ named_caps l <-> valid_cap x /\ x ∈ l.
Proof. unfold named_caps. by rewrite elem_of_list_to_set, list_elem_of_filter. Qed.

#[global] Instance set_unfold_named_caps x l :
  SetUnfoldElemOf x (named_caps l) (valid_cap x /\ x ∈ l).
Proof. constructor. apply elem_of_named_caps. Qed.

#[global] Typeclasses Opaque caps_of named_caps has_cap valid_cap.
#[global] Opaque caps_of named_caps.

Section set_flag.
Context {K : Type} `{!Kernel K}.
Implicit Types (w : world K) (p : Z) (c : cap_struct).

Lemma out_of_range_false v :
  (v <? 0) || (CAP_MAXBITS <=? v) = false <-> valid_cap v.
Proof. unfold valid_cap. rewrite orb_false_iff, Z.ltb_ge, Z.leb_gt. done. Qed.

Lemma u_wf_set_flag_u set raise u v : u_wf u -> u_wf (set_flag_u set raise u v).
Proof. intros. unfold set_flag_u. repeat case_match; auto with words. Qed.

Lemma u_wf_set_flags set raise l u : u_wf u -> u_wf (foldl (set_flag_u set raise) u l).
Proof. revert u. induction l; simpl; auto using u_wf_set_flag_u. Qed.

Lemma with_u_comp f g c : with_u f (with_u g c) = with_u (fun u => f (g u)) c.
Proof. done. Qed.

Lemma cap_set_flag_one_run p c set raise v w :
  heap w !! p = Some (OCap c) -> u_wf (c_u c) ->
  cap_set_flag_one p set raise v w =
    (Ok tt, with_heap (<[p := OCap (with_u (fun u => set_flag_u set raise u v) c)]> (heap w)) w).
Proof.
  intros Hp Hu. unfold cap_set_flag_one, set_flag_u.
  destruct ((v <? 0) || (CAP_MAXBITS <=? v)) eqn:E.
  - rewrite ret_run. destruct c. simpl. by rewrite with_heap_same.
  - apply out_of_range_false in E.
    assert (in_words (c_u c) v = true) by (apply in_words_valid; [by destruct Hu|done]).
    run. destruct (raise =? CAP_SET); by apply modify_cap_run.
Qed.

Lemma cap_set_flag_loop_run p set raise l n i c w :
  heap w !! p = Some (OCap c) -> u_wf (c_u c) -> (i + n <= length l)%nat ->
  cap_set_flag_loop p set raise l i n w =
    (Ok tt, with_heap (<[p := OCap (with_u
      (fun u => foldl (set_flag_u set raise) u (take n (drop i l))) c)]> (heap w)) w).
Proof.
  revert i c w. induction n as [|n IH]; intros i c w Hp Hu Hl; simpl.
  - rewrite ret_run. destruct c. simpl. by rewrite with_heap_same.
  - destruct (lookup_lt_is_Some_2 l i ltac:(lia)) as [v Hv]. rewrite Hv.
    rewrite (bind_ok _ _ _ _ _ (cap_set_flag_one_run _ _ _ _ _ _ Hp Hu)).
    erewrite IH; [|by wsimpl; rewrite lookup_insert_eq|by apply u_wf_set_flag_u|lia].
    rewrite with_u_comp, with_heap_twice, heap_with_heap, insert_insert_eq.
    rewrite (drop_S _ _ _ Hv). done.
Qed.

(** The effect on each flag of each capability. *)
Lemma has_cap_set_flag_u set raise u v x s :
  u_wf u -> valid_set set -> valid_set s -> valid_cap x ->
  raise = CAP_SET \/ raise = CAP_CLEAR ->
  has_cap (set_flag_u set raise u v) x s =
    if (set =? s) && (x =? v) then raise =? CAP_SET else has_cap u x s.
Proof.
  intros Hu Hset Hs Hx Hr. unfold set_flag_u.
  destruct ((v <? 0) || (CAP_MAXBITS <=? v)) eqn:E.
  - destruct (Z.eqb_spec x v) as [->|]; [|by rewrite andb_false_r].
    apply out_of_range_false in Hx. congruence.
  - apply out_of_range_false in E. rewrite (Z.eqb_sym x v).
    destruct Hr as [-> | ->];
      [change (CAP_SET =? CAP_SET) with true|change (CAP_CLEAR =? CAP_SET) with false]; cbv iota.
    + rewrite has_cap_raise by done. by destruct (set =? s), (v =? x).
    + rewrite has_cap_lower by done. by destruct (set =? s), (v =? x).
Qed.

Lemma has_cap_set_flags set raise l u x s :
  u_wf u -> valid_set set -> valid_set s -> valid_cap x ->
  raise = CAP_SET \/ raise = CAP_CLEAR ->
  has_cap (foldl (set_flag_u set raise) u l) x s =
    if (set =? s) && existsb (Z.eqb x) l then raise =? CAP_SET else has_cap u x s.
Proof.
  intros Hu Hset Hs Hx Hr. revert u Hu. induction l as [|v l IH]; intros u Hu.
  - by rewrite andb_false_r.
  - simpl. rewrite IH, has_cap_set_flag_u by auto using u_wf_set_flag_u.
    destruct (set =? s), (x =? v), (existsb _ l); done.
Qed.

Lemma existsb_named x l : valid_cap x -> existsb (Z.eqb x) l = true <-> x ∈ named_caps l.
Proof.
  intros Hx. rewrite elem_of_named_caps, existsb_exists, list_elem_of_In. split.
  - intros (y & Hy & ->%Z.eqb_eq). done.
  - intros [_ H]. exists x. by rewrite Z.eqb_refl.
Qed.

Lemma caps_of_set_flags set raise l u s :
  u_wf u -> valid_set set -> valid_set s -> raise = CAP_SET \/ raise = CAP_CLEAR ->
  caps_of (foldl (set_flag_u set raise) u l) s =
    if set =? s then
      if raise =? CAP_SET then caps_of u s ∪ named_caps l else caps_of u s ∖ named_caps l
    else caps_of u s.
Proof.
  intros Hu Hset Hs Hr. apply set_eq. intros x.
  destruct (decide (valid_cap x)) as [Hx|Hx].
  2:{ repeat case_match; rewrite ?elem_of_union, ?elem_of_difference, !elem_of_caps_of,
        ?elem_of_named_caps; tauto. }
  pose proof (existsb_named x l Hx) as He.
  assert (x ∈ caps_of u s <-> has_cap u x s = true) as Hu' by (rewrite elem_of_caps_of; tauto).
  rewrite elem_of_caps_of, has_cap_set_flags by done.
  destruct (set =? s); simpl; [|tauto].
  destruct Hr as [-> | ->];
    [change (CAP_SET =? CAP_SET) with true|change (CAP_CLEAR =? CAP_SET) with false];
    cbv iota;
  rewrite ?elem_of_union, ?elem_of_difference, Hu', <-He;
  destruct (existsb _ l), (has_cap u x s); intuition congruence.
Qed.

Lemma cap_set_flag_run p c set n l raise w :
  p <> 0 -> heap w !! p = Some (OCap c) -> u_wf (c_u c) -> c_mutex c = false ->
  0 < n < CAP_MAXBITS -> n <= Z.of_nat (length l) -> valid_set set ->
  raise = CAP_SET \/ raise = CAP_CLEAR ->
  cap_set_flag p set n l raise w =
    (Ok 0, with_heap (<[p := OCap (with_u
      (fun _ => foldl (set_flag_u set raise) (c_u c) (take (Z.to_nat n) l)) c)]> (heap w)) w).
Proof.
  intros H0 Hp Hu Hc Hn Hl Hset Hr. change CAP_MAXBITS with 64 in Hn.
  unfold cap_set_flag. run. rewrite (magic_at_some _ _ _ H0 Hp).
  change (obj_magic (OCap c) =? CAP_T_MAGIC) with true.
  replace (_ && _) with true; [|symmetry; unfold valid_set in Hset;
    change CAP_MAXBITS with 64; destruct Hr as [-> | ->]; zbool; simpl; first [done|lia]].
  run. erewrite bind_ok; [|apply (cap_set_flag_loop_run p set raise l (Z.to_nat n) 0
    (cap_with_mutex true c)); [by wsimpl; rewrite lookup_insert_eq|done|lia]].
  rewrite drop_0. run. rewrite ret_run. f_equal. world_eq.
Qed.

(** C39 cap_set_flag() succeeds exactly when its arguments make sense, and then
    adds to (or removes from) the chosen set the capabilities that the array
    names, whatever their order, skipping numbers that are no capability; the
    other two sets, the other objects and errno stay as they were, and the lock
    is released. *)
Theorem cap_set_flag_correct p c set n l raise w :
  world_wf w -> heap w !! p = Some (OCap c) -> c_mutex c = false ->
  0 < n < CAP_MAXBITS -> n <= Z.of_nat (length l) -> valid_set set ->
  raise = CAP_SET \/ raise = CAP_CLEAR ->
  exists u', u_wf u' /\
    cap_set_flag p set n l raise w =
      (Ok 0, with_heap (<[p := OCap (with_u (fun _ => u') c)]> (heap w)) w) /\
    caps_of u' set =
      (if raise =? CAP_SET then caps_of (c_u c) set ∪ named_caps (take (Z.to_nat n) l)
       else caps_of (c_u c) set ∖ named_caps (take (Z.to_nat n) l)) /\
    forall s, valid_set s -> s <> set -> caps_of u' s = caps_of (c_u c) s.
Proof.
  intros Hw Hp Hc Hn Hl Hset Hr. change CAP_MAXBITS with 64 in Hn.
  assert (u_wf (c_u c)) as Hu by by eapply wf_heap in Hp as (_&_&?).
  set (u' := foldl (set_flag_u set raise) (c_u c) (take (Z.to_nat n) l)).
  exists u'. split; [by apply u_wf_set_flags|]. split.
  - rewrite (cap_set_flag_run p c) by (done || by eapply wf_ne_0). done.
  - subst u'. split; [rewrite caps_of_set_flags, Z.eqb_refl by done; done|].
    intros s Hs Hne. rewrite caps_of_set_flags by done.
    destruct (Z.eqb_spec set s); [congruence|done].
Qed.

(** cap_set_flag() refuses anything else - not a capability set, no values
    or 64 of them and more, an unknown set, a value that is neither CAP_SET nor
    CAP_CLEAR - with EINVAL, and changes nothing. *)
Theorem cap_set_flag_rejects p set n l raise w :
  magic_at (heap w) p <> CAP_T_MAGIC \/ ~ 0 < n < CAP_MAXBITS \/ ~ valid_set set \/
  (raise <> CAP_SET /\ raise <> CAP_CLEAR) ->
  cap_set_flag p set n l raise w = (Ok (-1), with_errno EINVAL w).
Proof.
  intros H. unfold cap_set_flag. run. replace (_ && _) with false; [by run|].
  unfold valid_set in H. symmetry. apply not_true_iff_false.
  rewrite !andb_true_iff, orb_true_iff, !Z.eqb_eq, !Z.ltb_lt, Z.leb_le.
  intuition lia.
Qed.

(** cap_get_flag() reports, through its last argument, whether the
    capability is in the chosen set, and releases the lock; on any argument
    that makes no sense it stores nothing and fails with EINVAL. *)
Theorem cap_get_flag_correct p c value set w :
  world_wf w -> heap w !! p = Some (OCap c) -> c_mutex c = false ->
  cap_get_flag p value set true w =
    (if decide (valid_cap value /\ 0 <= set < NUMBER_OF_CAP_SETS)
     then (Ok (0, Some (if decide (value ∈ caps_of (c_u c) set) then CAP_SET else CAP_CLEAR)), w)
     else (Ok (-1, None), with_errno EINVAL w)) /\
  cap_get_flag p value set false w = (Ok (-1, None), with_errno EINVAL w).
Proof.
  intros Hw Hp Hc. assert (u_wf (c_u c)) as Hu by by eapply wf_heap in Hp as (_&_&?).
  split; [|done]. unfold cap_get_flag. run.
  rewrite (magic_at_some _ _ _ (wf_ne_0 _ _ _ Hw Hp) Hp).
  change (obj_magic (OCap c) =? CAP_T_MAGIC) with true.
  case_decide as Hd.
  - destruct Hd as [Hv Hs]. replace (_ && _) with true; [|symmetry; unfold valid_cap in Hv;
      rewrite !andb_true_iff, !Z.ltb_lt, !Z.leb_le; tauto].
    assert (in_words (c_u c) value = true) by (apply in_words_valid; [by destruct Hu|done]).
    run. rewrite ret_run. f_equal; [|apply with_heap_restore; heap_eq].
    + do 3 f_equal. cbn [c_u cap_with_mutex]. unfold isset_cap. rewrite land_bit32_eqb, negb_involutive.
      fold (has_cap (c_u c) value set).
      destruct (has_cap (c_u c) value set) eqn:E; case_decide as Hd; try done; exfalso.
      * apply Hd, elem_of_caps_of. done.
      * apply elem_of_caps_of in Hd as [_ ?]. congruence.
  - replace (_ && _) with false; [by run|]. symmetry. apply not_true_iff_false.
    unfold valid_cap in Hd. rewrite !andb_true_iff, !Z.ltb_lt, !Z.leb_le. tauto.
Qed.

(** *** Clearing, filling and comparing *)

Lemma live_cap p c w :
  world_wf w -> heap w !! p = Some (OCap c) ->
  u_wf (c_u c) /\ (magic_at (heap w) p =? CAP_T_MAGIC) = true.
Proof.
  intros Hw Hp. split; [by eapply wf_heap in Hp as (_&_&?)|].
  by rewrite (magic_at_some _ _ _ (wf_ne_0 _ _ _ Hw Hp) Hp).
Qed.

Lemma known_flag_valid s : known_flag s = bool_decide (valid_set s).
Proof.
  unfold known_flag, valid_set, CAP_EFFECTIVE, CAP_PERMITTED, CAP_INHERITABLE, NUMBER_OF_CAP_SETS.
  case_bool_decide; zbool; simpl; lia.
Qed.

Lemma cap_clear_flag_run p c set w :
  p <> 0 -> heap w !! p = Some (OCap c) -> c_mutex c = false -> valid_set set ->
  cap_clear_flag p set w =
    (Ok 0, with_heap (<[p := OCap (with_u (fun _ => fill_words set (fun _ => 0) (c_u c)) c)]> (heap w)) w).
Proof.
  intros H0 Hp Hc Hs. unfold cap_clear_flag. run. rewrite (magic_at_some _ _ _ H0 Hp).
  change (obj_magic (OCap c) =? CAP_T_MAGIC) with true.
  rewrite known_flag_valid, bool_decide_true by done. cbn [andb]. run. rewrite ret_run. f_equal. world_eq.
Qed.

(** cap_clear() empties the three sets; cap_clear_flag() empties the one it
    is given and keeps the others, and refuses an unknown one with EINVAL. *)
Theorem cap_clear_correct p c w :
  world_wf w -> heap w !! p = Some (OCap c) -> c_mutex c = false ->
  (exists u', cap_clear p w = (Ok 0, with_heap (<[p := OCap (with_u (fun _ => u') c)]> (heap w)) w) /\
     u_wf u' /\ forall s, caps_of u' s = ∅) /\
  (forall set, valid_set set -> exists u',
     cap_clear_flag p set w = (Ok 0, with_heap (<[p := OCap (with_u (fun _ => u') c)]> (heap w)) w) /\
     u_wf u' /\ forall s, valid_set s ->
       caps_of u' s = if decide (s = set) then ∅ else caps_of (c_u c) s) /\
  (forall set, ~ valid_set set -> cap_clear_flag p set w = (Ok (-1), with_errno EINVAL w)).
Proof.
  intros Hw Hp Hc. destruct (live_cap _ _ _ Hw Hp) as [Hu Hm]. split_and!.
  - exists (replicate (length (c_u c)) blk0). split_and!.
    + unfold cap_clear. run. rewrite Hm. run. rewrite ret_run. f_equal. world_eq.
    + destruct Hu as [-> _]. by apply u_wf_pair.
    + intros s. apply caps_of_blank.
  - intros set Hs. exists (fill_words set (fun _ => 0) (c_u c)). split_and!.
    + by rewrite (cap_clear_flag_run p c) by (done || by eapply wf_ne_0).
    + apply u_wf_fill; [done|]. intros; apply is_u32_0.
    + intros s Hs'. case_decide as Hd; [subst; by apply caps_of_fill_0|by apply caps_of_fill].
  - intros set Hs. unfold cap_clear_flag. run. rewrite known_flag_valid, bool_decide_false by done.
    by run.
Qed.

(** cap_fill_flag() makes one flag of a set hold the capabilities of a flag
    of a reference set, which may be the same object, and changes nothing else:
    the private copy it takes is released again. With no memory it fails and
    with an unknown flag it is refused, the sets untouched in both cases. *)
Theorem cap_fill_flag_correct p c to r cr from w :
  world_wf w -> heap w !! p = Some (OCap c) -> c_mutex c = false ->
  heap w !! r = Some (OCap cr) -> c_mutex cr = false -> capget_probe_ok (kst w) ->
  (valid_set to -> valid_set from -> mem_ok w -> exists u', u_wf u' /\
     cap_fill_flag p to r from w =
       (Ok 0, with_heap (<[p := OCap (with_u (fun _ => u') c)]> (heap w)) (spent w)) /\
     forall s, valid_set s -> caps_of u' s = if decide (s = to) then caps_of (c_u cr) from else caps_of (c_u c) s) /\
  (valid_set to -> valid_set from -> hd true (mem w) = false ->
     cap_fill_flag p to r from w = (Ok (-1), with_errno ENOMEM (popped w))) /\
  (~ (valid_set to /\ valid_set from) ->
     cap_fill_flag p to r from w = (Ok (-1), with_errno EINVAL w)).
Proof.
  intros Hw Hp Hc Hr Hcr Hk. destruct (live_cap _ _ _ Hw Hp) as [Hu Hm].
  destruct (live_cap _ _ _ Hw Hr) as [Hur Hmr]. unfold cap_fill_flag. run. rewrite Hm, Hmr.
  cbn [negb orb].
  assert ((to <? CAP_EFFECTIVE) || (CAP_INHERITABLE <? to)
       || (from <? CAP_EFFECTIVE) || (CAP_INHERITABLE <? from) = negb (bool_decide (valid_set to /\ valid_set from))) as ->.
  { unfold valid_set, CAP_EFFECTIVE, CAP_INHERITABLE, NUMBER_OF_CAP_SETS.
    case_bool_decide; zbool; simpl; lia. }
  split_and!.
  - intros Ht Hf Hmem. rewrite bool_decide_true by done. simpl.
    rewrite (bind_ok _ _ _ _ _ (cap_dup_run _ _ _ Hw Hr Hcr Hmem Hk)).
    pose proof (wf_ne_next _ _ _ Hw Hp). pose proof (wf_next_ne_0 _ Hw) as Hn0.
    pose proof (wf_fresh _ Hw). pose proof (wf_next _ Hw) as [_ Hal].
    destruct (Z.eqb_spec (next w) 0); [done|].
    exists (fill_words to (fun i => flat (u_blk (c_u cr) (Z.of_nat i)) from) (c_u c)). split_and!.
    + apply u_wf_fill; [done|]. intros i. by apply blk_wf_flat, u_blk_wf.
    + run. erewrite bind_ok; [|apply (cap_free_copy (next w) (OCap cr));
        [done..|wsimpl; heap_lookup|by simpl; rewrite Hcr]].
      rewrite ret_run. f_equal. world_eq.
    + intros s Hs. case_decide as Hd; [subst; by apply caps_of_fill_same|by apply caps_of_fill].
  - intros Ht Hf Hmem. rewrite bool_decide_true by done. simpl.
    assert (cap_dup r w = (Ok 0, with_errno ENOMEM (popped w))) as Hd.
    { unfold cap_dup. run. rewrite Hmr. simpl. by rewrite (bind_ok _ _ _ _ _ (cap_init_oom _ Hmem)). }
    by rewrite (bind_ok _ _ _ _ _ Hd).
  - intros Hv. rewrite bool_decide_false by done. by run.
Qed.

Lemma compare_u_spec u u' s :
  u_wf u -> u_wf u' ->
  (compare_u u u' = 0 <-> u = u') /\
  (valid_set s -> CAP_DIFFERS (compare_u u u') s = true <-> caps_of u s <> caps_of u' s).
Proof.
  intros Hu Hu'. pose proof (caps_of_words u u' s Hu Hu') as Hw.
  destruct (u_wf_inv _ Hu) as ([e0 p0 i0]&[e1 p1 i1]&->&_&_).
  destruct (u_wf_inv _ Hu') as ([e0' p0' i0']&[e1' p1' i1']&->&_&_).
  change (compare_u _ _) with (Z.lor (Z.lor 0 (compare_blk (mkBlk e0 p0 i0) (mkBlk e0' p0' i0')))
    (compare_blk (mkBlk e1 p1 i1) (mkBlk e1' p1' i1'))).
  unfold compare_blk. cbn [effective permitted inheritable].
  split.
  - destruct (Z.eqb_spec e0 e0'), (Z.eqb_spec p0 p0'), (Z.eqb_spec i0 i0'),
      (Z.eqb_spec e1 e1'), (Z.eqb_spec p1 p1'), (Z.eqb_spec i1 i1'); subst; simpl;
      (split; [intros; done || congruence|intros; simplify_eq; done]).
  - intros Hs. rewrite Hw. unfold valid_set, NUMBER_OF_CAP_SETS in Hs. clear Hw Hu Hu'.
    assert (s = 0 \/ s = 1 \/ s = 2) as [->|[->| ->]] by lia;
    cbn [u_blk flat lookup list_lookup default Z.to_nat Z.eqb CAP_EFFECTIVE CAP_PERMITTED Pos.eqb Pos.to_nat];
    destruct (Z.eqb_spec e0 e0'), (Z.eqb_spec p0 p0'), (Z.eqb_spec i0 i0'),
      (Z.eqb_spec e1 e1'), (Z.eqb_spec p1 p1'), (Z.eqb_spec i1 i1'); subst;
    lazymatch goal with |- ?b = true <-> _ => let v := eval vm_compute in b in change b with v end;
    cbn; intuition congruence.
Qed.

Lemma cap_compare_run a b ca cb w :
  world_wf w -> heap w !! a = Some (OCap ca) -> c_mutex ca = false ->
  heap w !! b = Some (OCap cb) -> c_mutex cb = false -> capget_probe_ok (kst w) -> mem_ok w ->
  cap_compare a b w = (Ok (compare_u (c_u ca) (c_u cb)), spent w).
Proof.
  intros Hw Ha Hca Hb Hcb Hk Hmem. destruct (live_cap _ _ _ Hw Ha) as [Hu Hm].
  destruct (live_cap _ _ _ Hw Hb) as [Hub Hmb].
  unfold cap_compare. run. rewrite Hm, Hmb. simpl.
  rewrite (bind_ok _ _ _ _ _ (cap_dup_run _ _ _ Hw Hb Hcb Hmem Hk)).
  pose proof (wf_ne_next _ _ _ Hw Ha). pose proof (wf_next_ne_0 _ Hw) as Hn0.
  pose proof (wf_fresh _ Hw). pose proof (wf_next _ Hw) as [_ Hal].
  destruct (Z.eqb_spec (next w) 0); [done|].
  run. erewrite bind_ok; [|apply (cap_free_copy (next w) (OCap cb));
    [done..|wsimpl; heap_lookup|by simpl; rewrite Hcb]].
  rewrite ret_run. f_equal. world_eq.
Qed.

(** cap_compare() returns zero exactly when the two sets are the same, and
    otherwise the flags for which CAP_DIFFERS() holds are exactly those whose
    capabilities differ; the objects, which may be one and the same, and errno
    are left as they were and the private copy is released. *)
Theorem cap_compare_correct a b ca cb w :
  world_wf w -> heap w !! a = Some (OCap ca) -> c_mutex ca = false ->
  heap w !! b = Some (OCap cb) -> c_mutex cb = false -> capget_probe_ok (kst w) -> mem_ok w ->
  exists r, cap_compare a b w = (Ok r, spent w) /\ (r = 0 <-> c_u ca = c_u cb) /\
    forall s, valid_set s -> CAP_DIFFERS r s = true <-> caps_of (c_u ca) s <> caps_of (c_u cb) s.
Proof.
  intros Hw Ha Hca Hb Hcb Hk Hmem. destruct (live_cap _ _ _ Hw Ha) as [Hu Hm].
  destruct (live_cap _ _ _ Hw Hb) as [Hub Hmb].
  exists (compare_u (c_u ca) (c_u cb)). split; [by apply cap_compare_run|].
  split; [by apply (compare_u_spec _ _ 0)|intros s; by apply compare_u_spec].
Qed.

End set_flag.
