(* ===== verification/IabSpec.v ===== *)
(** The IAB tuples of cap_flag.c as triples of capability sets, the invariant
    that the ambient vector lies within the inheritable one, and the proof that
    the operations on tuples implement the set operations and keep it. *)

From S2P Require Import Prelude Capability World Exec Syscall Alloc Flag FlagSpec.
From stdpp Require Import gmap strings list sets.
From Stdlib Require Import ZArith Lia.

Open Scope Z_scope.

(** The capabilities of one vector; sealed, as conversion would unfold it into
    the trees that represent finite sets. *)
Definition vec_caps_def (v : list Z) : gset Z :=
  list_to_set (List.filter (vec_bit v) (seqZ 0 CAP_MAXBITS)).
Lemma vec_caps_aux : seal vec_caps_def.
Proof. by eexists. Qed.
Definition vec_caps : list Z -> gset Z := unseal vec_caps_aux.

(** A set with one capability put to [raised]. *)
Definition put_cap (n raised : Z) (s : gset Z) : gset Z :=
  if raised =? 0 then s ∖ {[n]} else s ∪ {[n]}.

(** Every capability number: what the complement of a word is taken in. *)
Definition all_caps : gset Z := list_to_set (seqZ 0 CAP_MAXBITS).

(** "setting A implies setting I too, lowering I implies lowering A too" *)
Definition iab_inv (t : cap_iab_s) : Prop := vec_caps (iab_a t) ⊆ vec_caps (iab_i t).

Definition valid_vec (vec : Z) : Prop := vec = CAP_IAB_INH \/ vec = CAP_IAB_AMB \/ vec = CAP_IAB_BOUND.
#[global] Instance valid_vec_dec vec : Decision (valid_vec vec).
Proof. unfold valid_vec. apply _. Defined.

Section vectors.
Implicit Types (v : list Z) (x y o : Z) (t : cap_iab_s).

Lemma elem_of_vec_caps v x : x ∈ vec_caps v <-> valid_cap x /\ vec_bit v x = true.
Proof.
  unfold vec_caps. rewrite (seal_eq vec_caps_aux). unfold vec_caps_def.
  rewrite elem_of_list_to_set, list_elem_of_In, filter_In,
    <-list_elem_of_In, elem_of_seqZ. unfold valid_cap. intuition lia.
Qed.

Lemma elem_of_all_caps x : x ∈ all_caps <-> valid_cap x.
Proof.
  unfold all_caps. rewrite elem_of_list_to_set, elem_of_seqZ. unfold valid_cap. lia.
Qed.

Lemma words_wf_inv v : words_wf v -> exists a b, v = [a; b] /\ is_u32 a /\ is_u32 b.
Proof.
  intros [Hl Hf]. change (Z.to_nat CAP_BLKS) with 2%nat in Hl.
  destruct v as [|a [|b [|]]]; try done. exists a, b.
  by apply Forall_cons in Hf as [? [? _]%Forall_cons].
Qed.

Lemma words_wf_pair a b : is_u32 a -> is_u32 b -> words_wf [a; b].
Proof. intros. split; [done|]. by apply Forall_cons_2, Forall_cons_2, Forall_nil_2. Qed.

Lemma word_0 a b : word [a; b] 0 = a.
Proof. done. Qed.
Lemma word_1 a b : word [a; b] 1 = b.
Proof. done. Qed.

Lemma word_wf v o : words_wf v -> is_u32 (word v o).
Proof.
  intros [_ Hf]. unfold word. destruct (v !! Z.to_nat o) eqn:E; simpl; [|apply is_u32_0].
  by eapply Forall_lookup_1 in Hf.
Qed.

Lemma word_upd v o o' f :
  words_wf v -> o = 0 \/ o = 1 -> o' = 0 \/ o' = 1 ->
  word (upd_word o f v) o' = if o =? o' then f (word v o') else word v o'.
Proof.
  intros (a&b&->&_&_)%words_wf_inv Ho Ho'. by destruct Ho as [->| ->], Ho' as [->| ->].
Qed.

Lemma words_wf_upd v o f :
  words_wf v -> (forall x, is_u32 x -> is_u32 (f x)) -> words_wf (upd_word o f v).
Proof.
  intros [Hl Hf] H. split; [by unfold upd_word; rewrite length_alter|].
  apply Forall_alter; [done|]. intros x _ Hx. by apply H.
Qed.

(** Vectors with the same capabilities are equal. *)
Lemma vec_caps_inj v v' :
  words_wf v -> words_wf v' -> vec_caps v = vec_caps v' -> v = v'.
Proof.
  intros Hv Hv' H. assert (forall o, 0 <= o < 2 -> word v o = word v' o) as Ho.
  { intros o Ho. apply u32_ext; [by apply word_wf..|]. intros b Hb.
    destruct (cap_join o b Ho Hb) as (Hx & Hi & Hb').
    assert (32 * o + b ∈ vec_caps v <-> 32 * o + b ∈ vec_caps v') as Hiff by by rewrite H.
    rewrite !elem_of_vec_caps in Hiff. unfold vec_bit in Hiff. rewrite Hi, Hb' in Hiff.
    apply eq_true_iff_eq. tauto. }
  destruct (words_wf_inv _ Hv) as (a&b&->&_&_), (words_wf_inv _ Hv') as (a'&b'&->&_&_).
  pose proof (Ho 0 ltac:(lia)) as H0. pose proof (Ho 1 ltac:(lia)) as H1. unfold word in H0, H1.
  simpl in H0, H1. by subst.
Qed.

(** *** The switch of cap_iab_set_vector() *)

(** A word with one bit put to [raised]. *)
Definition put_bit (on raised v : Z) : Z :=
  Z.lor (Z.land v (u32_not on)) (if negb (raised =? 0) then on else 0).

Lemma is_u32_put_bit n raised (v : Z) : is_u32 v -> is_u32 (put_bit (bit32 n) raised v).
Proof.
  intros. unfold put_bit. apply is_u32_lor; [by apply is_u32_land_l|].
  case_match; auto with words.
Qed.

Lemma put_bit_spec n raised (v : Z) i :
  is_u32 v -> 0 <= i < 32 ->
  Z.testbit (put_bit (bit32 n) raised v) i =
    if i =? Z.land n 31 then negb (raised =? 0) else Z.testbit v i.
Proof.
  intros Hv Hi. unfold put_bit. rewrite Z.lor_spec, land_not_spec, bit32_spec by (lia || done).
  destruct (Z.eqb_spec i (Z.land n 31)) as [->|Hne], (raised =? 0); simpl;
    rewrite ?Z.testbit_0_l, ?andb_false_r, ?andb_true_r, ?orb_false_r, ?bit32_spec by lia;
    try done; [apply Z.eqb_refl|]. apply Z.eqb_neq in Hne. by rewrite Hne, orb_false_r.
Qed.

Lemma vec_bit_put v n raised x :
  words_wf v -> valid_cap n -> valid_cap x ->
  vec_bit (upd_word (CAP_TO_INDEX n) (put_bit (bit32 n) raised) v) x =
    if x =? n then negb (raised =? 0) else vec_bit v x.
Proof.
  intros Hv Hn Hx. unfold vec_bit. rewrite word_upd by (try apply index_bound; done).
  rewrite (cap_eqb x n) by done. rewrite (Z.eqb_sym (CAP_TO_INDEX x)).
  rewrite (Z.eqb_sym (Z.land n 31)). destruct (CAP_TO_INDEX n =? CAP_TO_INDEX x); [|done].
  by rewrite put_bit_spec by (apply word_wf, Hv || apply land31_bound).
Qed.

Lemma vec_caps_put v n raised :
  words_wf v -> valid_cap n ->
  vec_caps (upd_word (CAP_TO_INDEX n) (put_bit (bit32 n) raised) v) = put_cap n raised (vec_caps v).
Proof.
  intros Hv Hn. unfold put_cap. apply set_eq. intros x.
  destruct (decide (valid_cap x)) as [Hx|Hx].
  - destruct (raised =? 0) eqn:E;
      rewrite ?elem_of_difference, ?elem_of_union, elem_of_singleton, !elem_of_vec_caps,
        vec_bit_put, E by done; destruct (Z.eqb_spec x n); simpl; intuition congruence.
  - destruct (raised =? 0); rewrite ?elem_of_difference, ?elem_of_union, elem_of_singleton,
      !elem_of_vec_caps; intuition congruence.
Qed.

(** Combining one word of a vector with the word of another. *)
Lemma vec_caps_land v v' o :
  words_wf v -> words_wf v' -> o = 0 \/ o = 1 ->
  forall x, x ∈ vec_caps (upd_word o (fun a => Z.land a (word v' o)) v) <->
    x ∈ vec_caps v /\ (CAP_TO_INDEX x = o -> x ∈ vec_caps v').
Proof.
  intros Hv Hv' Ho x. rewrite !elem_of_vec_caps.
  destruct (decide (valid_cap x)) as [Hx|]; [|tauto]. unfold vec_bit.
  rewrite word_upd by (try apply index_bound; done). destruct (Z.eqb_spec o (CAP_TO_INDEX x)) as [->|].
  - rewrite Z.land_spec, andb_true_iff. tauto.
  - intuition congruence.
Qed.

Lemma vec_caps_lor v v' o :
  words_wf v -> words_wf v' -> o = 0 \/ o = 1 ->
  forall x, x ∈ vec_caps (upd_word o (fun a => Z.lor a (word v' o)) v) <->
    x ∈ vec_caps v \/ (CAP_TO_INDEX x = o /\ x ∈ vec_caps v').
Proof.
  intros Hv Hv' Ho x. rewrite !elem_of_vec_caps.
  destruct (decide (valid_cap x)) as [Hx|]; [|tauto]. unfold vec_bit.
  rewrite word_upd by (try apply index_bound; done). destruct (Z.eqb_spec o (CAP_TO_INDEX x)) as [->|].
  - rewrite Z.lor_spec, orb_true_iff. tauto.
  - intuition congruence.
Qed.

(** What a change of one vector is to the tuple, as sets: the specification of
    cap_iab_set_vector() and of cap_iab_fill(). [v] is the vector's new value. *)
Record iab_view := mkView { v_i : gset Z; v_a : gset Z; v_nb : gset Z }.

Definition view (t : cap_iab_s) : iab_view :=
  mkView (vec_caps (iab_i t)) (vec_caps (iab_a t)) (vec_caps (iab_nb t)).

Definition view_set (vec : Z) (v : gset Z) (s : iab_view) : iab_view :=
  if vec =? CAP_IAB_INH then mkView v (v_a s ∩ v) (v_nb s)
  else if vec =? CAP_IAB_AMB then mkView (v_i s ∪ v) v (v_nb s)
  else mkView (v_i s) (v_a s) v.

Definition view_get (vec : Z) (s : iab_view) : gset Z :=
  if vec =? CAP_IAB_INH then v_i s
  else if vec =? CAP_IAB_AMB then v_a s
  else v_nb s.

Lemma view_set_inv vec (v : gset Z) s : v_a s ⊆ v_i s -> v_a (view_set vec v s) ⊆ v_i (view_set vec v s).
Proof. intros. unfold view_set. repeat case_match; simpl; set_solver. Qed.

Lemma put_cap_old n raised (s : gset Z) x : x ∈ put_cap n raised s -> x <> n -> x ∈ s.
Proof. unfold put_cap. case_match; set_solver. Qed.

Lemma put_cap_new n raised (s : gset Z) x : x ∈ s -> x <> n -> x ∈ put_cap n raised s.
Proof. unfold put_cap. case_match; set_solver. Qed.

Lemma set_vector_words_ok vec n raised t :
  iab_wf t -> iab_inv t -> valid_cap n -> valid_vec vec ->
  exists t', set_vector_words vec (CAP_TO_INDEX n) (bit32 n) raised t = Some t' /\
    iab_wf t' /\ iab_mutex t' = iab_mutex t /\
    view t' = view_set vec (put_cap n raised (view_get vec (view t))) (view t).
Proof.
  intros (Hi & Ha & Hnb) Hinv Hn Hvec. unfold iab_inv in Hinv.
  pose proof (index_bound n Hn) as Ho.
  pose proof (is_u32_put_bit n raised) as Hput.
  unfold set_vector_words. fold (put_bit (bit32 n) raised).
  destruct Hvec as [->|[->| ->]]; cbn -[upd_word]; eexists; (split; [reflexivity|]);
    (split; [|split; [done|]]);
    try (split_and!; cbn -[upd_word]; try done; apply words_wf_upd; try done; intros;
      try (apply is_u32_lor || apply is_u32_land_l); auto using word_wf, words_wf_upd; done).
  - unfold view, view_set, view_get; cbn -[upd_word put_cap].
    set (i' := upd_word _ _ (iab_i t)). assert (words_wf i') as Hi' by by apply words_wf_upd.
    assert (vec_caps i' = _) as E by by apply vec_caps_put.
    rewrite <-E. f_equal. apply set_eq. intros x. rewrite elem_of_intersection, vec_caps_land by done.
    destruct (decide (CAP_TO_INDEX x = CAP_TO_INDEX n)) as [|Hne]; [tauto|].
    split; [|tauto]. intros [Hx _]. split; [done|]. rewrite E. apply Hinv in Hx.
    apply put_cap_new; [done|congruence].
  - unfold view, view_set, view_get; cbn -[upd_word put_cap].
    set (a' := upd_word _ _ (iab_a t)). assert (words_wf a') as Ha' by by apply words_wf_upd.
    assert (vec_caps a' = _) as E by by apply vec_caps_put.
    rewrite <-E. f_equal. apply set_eq. intros x. rewrite elem_of_union, vec_caps_lor by done.
    destruct (decide (CAP_TO_INDEX x = CAP_TO_INDEX n)) as [|Hne]; [tauto|].
    split; [tauto|]. intros [|Hx]; [tauto|]. left. apply Hinv. rewrite E in Hx.
    eapply put_cap_old; [done|congruence].
  - unfold view, view_set, view_get; cbn -[upd_word put_cap]. f_equal. by apply vec_caps_put.
Qed.

Lemma vec_caps_or v c :
  words_wf v -> valid_cap c ->
  vec_caps (upd_word (Z.shiftr c 5) (fun a => Z.lor a (bit32 c)) v) = vec_caps v ∪ {[c]}.
Proof.
  intros Hv Hc. change (Z.shiftr c 5) with (CAP_TO_INDEX c).
  change (vec_caps v ∪ {[c]}) with (put_cap c 1 (vec_caps v)).
  rewrite <-vec_caps_put by done. apply set_eq. intros x. rewrite !elem_of_vec_caps.
  destruct (decide (valid_cap x)) as [Hx|]; [|tauto]. unfold vec_bit.
  rewrite !word_upd by (try apply index_bound; done).
  destruct (CAP_TO_INDEX c =? CAP_TO_INDEX x); [|done]. pose proof (land31_bound x).
  rewrite put_bit_spec, Z.lor_spec, bit32_spec by (try apply word_wf; done || lia).
  destruct (Z.land x 31 =? Z.land c 31); [by rewrite orb_true_r|by rewrite orb_false_r].
Qed.

Lemma words_wf_or v o c : words_wf v -> words_wf (upd_word o (fun a => Z.lor a (bit32 c)) v).
Proof. intros. apply words_wf_upd; [done|]. intros. apply is_u32_lor; [done|apply is_u32_bit32]. Qed.

End vectors.

#[global] Opaque all_caps.

(** *** cap_iab_fill() and cap_iab_compare() *)

Section fill.
Implicit Types (t : cap_iab_s) (u : list capblk).

(** The vector that cap_iab_fill() stores: the flag, or its complement for the
    bounding vector. *)
Definition fill_caps (vec flag : Z) (u : list capblk) : gset Z :=
  if vec =? CAP_IAB_BOUND then all_caps ∖ caps_of u flag else caps_of u flag.

Lemma vec_caps_words u flag :
  vec_caps [flat (u_blk u 0) flag; flat (u_blk u 1) flag] = caps_of u flag.
Proof.
  apply set_eq. intros x. rewrite elem_of_vec_caps, elem_of_caps_of.
  destruct (decide (valid_cap x)) as [Hx|]; [|tauto]. unfold vec_bit, has_cap, word.
  by destruct (index_bound x Hx) as [-> | ->].
Qed.

Lemma elem_of_vec_pair a b x :
  x ∈ vec_caps [a; b] <->
  valid_cap x /\ Z.testbit (if CAP_TO_INDEX x =? 0 then a else b) (Z.land x 31) = true.
Proof.
  rewrite elem_of_vec_caps. destruct (decide (valid_cap x)) as [Hx|]; [|tauto].
  unfold vec_bit, word. by destruct (index_bound x Hx) as [-> | ->].
Qed.

Lemma vec_caps_zero : vec_caps [0; 0] = ∅.
Proof.
  apply set_eq. intros x. rewrite elem_of_vec_pair. split; [|by intros ?%not_elem_of_empty].
  intros [_ H]. destruct (CAP_TO_INDEX x =? 0); by rewrite Z.testbit_0_l in H.
Qed.

Lemma vec_caps_pair_not a b :
  vec_caps [u32_not a; u32_not b] = all_caps ∖ vec_caps [a; b].
Proof.
  apply set_eq. intros x. rewrite elem_of_difference, elem_of_all_caps, !elem_of_vec_pair.
  pose proof (land31_bound x). destruct (CAP_TO_INDEX x =? 0); rewrite u32_not_spec by lia;
  (destruct (Z.ltb_spec (Z.land x 31) 32); [|lia]); destruct (Z.testbit _ _); simpl; intuition congruence.
Qed.

Lemma vec_caps_pair_land a b a' b' :
  vec_caps [Z.land a a'; Z.land b b'] = vec_caps [a; b] ∩ vec_caps [a'; b'].
Proof.
  apply set_eq. intros x. rewrite elem_of_intersection, !elem_of_vec_pair.
  destruct (CAP_TO_INDEX x =? 0); rewrite Z.land_spec, andb_true_iff; tauto.
Qed.

Lemma vec_caps_pair_lor a b a' b' :
  vec_caps [Z.lor a a'; Z.lor b b'] = vec_caps [a; b] ∪ vec_caps [a'; b'].
Proof.
  apply set_eq. intros x. rewrite elem_of_union, !elem_of_vec_pair.
  destruct (CAP_TO_INDEX x =? 0); rewrite Z.lor_spec, orb_true_iff; tauto.
Qed.

Lemma fill_vector_loop_ok vec flag u t :
  iab_wf t -> u_wf u -> valid_vec vec ->
  exists t', fill_vector_loop vec flag u (seqZ 0 LIBCAP_CAPABILITY_U32S) t = (t', true) /\
    iab_wf t' /\ iab_mutex t' = iab_mutex t /\
    view t' = view_set vec (fill_caps vec flag u) (view t).
Proof.
  intros (Hi & Ha & Hnb) Hu Hvec.
  destruct t as [m i a nb]. cbn [iab_i iab_a iab_nb iab_mutex] in *.
  destruct (words_wf_inv _ Hi) as (i0&i1&->&?&?), (words_wf_inv _ Ha) as (a0&a1&->&?&?),
    (words_wf_inv _ Hnb) as (n0&n1&->&?&?).
  pose proof (blk_wf_flat (u_blk u 0) flag (u_blk_wf _ _ Hu)) as Hf0.
  pose proof (blk_wf_flat (u_blk u 1) flag (u_blk_wf _ _ Hu)) as Hf1.
  pose proof (vec_caps_words u flag) as Hc.
  change (seqZ 0 LIBCAP_CAPABILITY_U32S) with [0; 1]. cbn [fill_vector_loop].
  set (f0 := flat (u_blk u 0) flag) in *. set (f1 := flat (u_blk u 1) flag) in *.
  destruct Hvec as [->|[->| ->]].
  - exists (mkIab m [f0; f1] [Z.land a0 f0; Z.land a1 f1] [n0; n1]). split; [reflexivity|split; [|split; [reflexivity|]]].
    + split_and!; apply words_wf_pair; auto with words.
    + unfold view, view_set, fill_caps. cbn [iab_i iab_a iab_nb Z.eqb CAP_IAB_INH CAP_IAB_BOUND Pos.eqb v_a v_nb v_i].
      by rewrite <-Hc, vec_caps_pair_land.
  - exists (mkIab m [Z.lor i0 f0; Z.lor i1 f1] [f0; f1] [n0; n1]). split; [reflexivity|split; [|split; [reflexivity|]]].
    + split_and!; apply words_wf_pair; auto with words.
    + unfold view, view_set, fill_caps. cbn [iab_i iab_a iab_nb Z.eqb CAP_IAB_INH CAP_IAB_AMB CAP_IAB_BOUND Pos.eqb v_a v_nb v_i].
      by rewrite <-Hc, vec_caps_pair_lor.
  - exists (mkIab m [i0; i1] [a0; a1] [u32_not f0; u32_not f1]). split; [reflexivity|split; [|split; [reflexivity|]]].
    + split_and!; apply words_wf_pair; auto with words.
    + unfold view, view_set, fill_caps. cbn [iab_i iab_a iab_nb Z.eqb CAP_IAB_INH CAP_IAB_AMB CAP_IAB_BOUND Pos.eqb v_a v_nb v_i].
      by rewrite <-Hc, vec_caps_pair_not.
Qed.

Lemma fill_vector_loop_bad vec flag u t :
  ~ valid_vec vec -> fill_vector_loop vec flag u (seqZ 0 LIBCAP_CAPABILITY_U32S) t = (t, false).
Proof.
  intros H. unfold valid_vec in H. change (seqZ 0 LIBCAP_CAPABILITY_U32S) with [0; 1]. cbn [fill_vector_loop].
  unfold fill_vector_word. by destruct (Z.eqb_spec vec CAP_IAB_INH), (Z.eqb_spec vec CAP_IAB_AMB),
    (Z.eqb_spec vec CAP_IAB_BOUND); [tauto..|].
Qed.

Lemma vec_caps_eq v v' :
  words_wf v -> words_wf v' -> vec_caps v = vec_caps v' <-> v = v'.
Proof. split; [by apply vec_caps_inj|by intros ->]. Qed.

Lemma view_eq t t' :
  view t = view t' <->
  vec_caps (iab_i t) = vec_caps (iab_i t') /\ vec_caps (iab_a t) = vec_caps (iab_a t') /\
  vec_caps (iab_nb t) = vec_caps (iab_nb t').
Proof.
  unfold view. split; [by injection 1|]. by intros (-> & -> & ->).
Qed.

Lemma compare_iab_spec t t' vec :
  iab_wf t -> iab_wf t' ->
  (compare_iab t t' = 0 <-> view t = view t') /\
  (valid_vec vec -> CAP_IAB_DIFFERS (compare_iab t t') vec = true <->
     view_get vec (view t) <> view_get vec (view t')).
Proof.
  intros (Hi & Ha & Hn) (Hi' & Ha' & Hn').
  pose proof (vec_caps_eq _ _ Hi Hi') as Ei. pose proof (vec_caps_eq _ _ Ha Ha') as Ea.
  pose proof (vec_caps_eq _ _ Hn Hn') as En. rewrite view_eq, Ei, Ea, En. unfold view.
  destruct t as [m i a nb], t' as [m' i' a' nb']. cbn [iab_i iab_a iab_nb] in *.
  destruct (words_wf_inv _ Hi) as (i0&i1&->&_&_), (words_wf_inv _ Ha) as (a0&a1&->&_&_),
    (words_wf_inv _ Hn) as (n0&n1&->&_&_), (words_wf_inv _ Hi') as (i0'&i1'&->&_&_),
    (words_wf_inv _ Ha') as (a0'&a1'&->&_&_), (words_wf_inv _ Hn') as (n0'&n1'&->&_&_).
  unfold compare_iab. change (seqZ 0 LIBCAP_CAPABILITY_U32S) with [0; 1].
  cbn [foldl iab_i iab_a iab_nb]. rewrite !word_0, !word_1.
  split.
  - destruct (Z.eqb_spec i0 i0'), (Z.eqb_spec i1 i1'), (Z.eqb_spec a0 a0'), (Z.eqb_spec a1 a1'),
      (Z.eqb_spec n0 n0'), (Z.eqb_spec n1 n1'); subst;
    lazymatch goal with |- ?b = 0 <-> _ => let v := eval vm_compute in b in change b with v end;
    intuition congruence.
  - intros [->|[->| ->]]; unfold view_get; cbn [Z.eqb CAP_IAB_INH CAP_IAB_AMB CAP_IAB_BOUND Pos.eqb v_i v_a v_nb];
      rewrite ?Ei, ?Ea, ?En;
    destruct (Z.eqb_spec i0 i0'), (Z.eqb_spec i1 i1'), (Z.eqb_spec a0 a0'), (Z.eqb_spec a1 a1'),
      (Z.eqb_spec n0 n0'), (Z.eqb_spec n1 n1'); subst;
    lazymatch goal with |- ?b = true <-> _ => let v := eval vm_compute in b in change b with v end;
    intuition congruence.
Qed.

End fill.

Section iab_ops.
Context {K : Type} `{!Kernel K}.
Implicit Types (w : world K) (p : Z) (t : cap_iab_s).

Lemma live_iab p t w :
  world_wf w -> heap w !! p = Some (OIab t) ->
  iab_wf t /\ (magic_at (heap w) p =? CAP_IAB_MAGIC) = true.
Proof.
  intros Hw Hp. split; [by eapply wf_heap in Hp as (_&_&?)|].
  by rewrite (magic_at_some _ _ _ (wf_ne_0 _ _ _ Hw Hp) Hp).
Qed.

Lemma iab_restore t : iab_mutex t = false -> forall t', iab_mutex t' = true ->
  iab_with_mutex false t' = mkIab (iab_mutex t) (iab_i t') (iab_a t') (iab_nb t').
Proof. by intros -> [] ?. Qed.

(** The start-up invariant of the capability count. *)
Definition max_bits_ok w : Prop := 1 <= g_max_bits (glob w) <= CAP_MAXBITS.

(** C37 cap_iab_set_vector() on a tuple that satisfies the invariant: it puts one
    capability of one vector to 0 or 1 and carries the change over to the other
    - lowering I lowers A, raising A raises I - so that the invariant holds
    again; nothing but the tuple changes. An unknown vector, a value other than
    0 and 1 and a number that is no capability of the running kernel are refused
    with EINVAL, the tuple unchanged and unlocked. *)
Theorem cap_iab_set_vector_correct p t vec bit raised w :
  world_wf w -> heap w !! p = Some (OIab t) -> iab_mutex t = false -> iab_inv t ->
  max_bits_ok w -> 0 <= raised ->
  if decide (valid_vec vec /\ raised <= 1 /\ 0 <= bit < g_max_bits (glob w)) then
    exists t', cap_iab_set_vector p vec bit raised w =
        (Ok 0, with_heap (<[p := OIab t']> (heap w)) w) /\
      iab_wf t' /\ iab_mutex t' = false /\ iab_inv t' /\
      view t' = view_set vec (put_cap bit raised (view_get vec (view t))) (view t)
  else cap_iab_set_vector p vec bit raised w = (Ok (-1), with_errno EINVAL w).
Proof.
  intros Hw Hp Ht Hinv [Hb1 Hb2] Hr. destruct (live_iab _ _ _ Hw Hp) as [Hwf Hm].
  change CAP_MAXBITS with 64 in Hb2.
  unfold cap_iab_set_vector, cap_max_bits. run. rewrite Hm. cbn [negb orb].
  assert ((negb (Z.shiftr raised 1 =? 0) || (bit <? 0) || (g_max_bits (glob w) <=? bit)) =
    negb (bool_decide (raised <= 1 /\ 0 <= bit < g_max_bits (glob w)))) as ->.
  { rewrite Z.shiftr_div_pow2 by lia. change (2 ^ 1) with 2.
    assert ((raised / 2 =? 0) = (raised <=? 1)) as ->.
    { destruct (Z.leb_spec raised 1); [apply Z.eqb_eq, Z.div_small; lia|apply Z.eqb_neq].
      intros E. assert (1 <= raised / 2) by (apply Z.div_le_lower_bound; lia). lia. }
    case_bool_decide; zbool; simpl; lia. }
  case_bool_decide as Hargs; [|rewrite decide_False by tauto; by run].
  assert (valid_cap bit) as Hbit by (unfold valid_cap; change CAP_MAXBITS with 64; lia).
  assert (in_words (iab_i (iab_with_mutex true t)) bit = true) as Hin
    by (apply in_words_valid; [by destruct Hwf as ((?&?)&_)|done]).
  cbn [negb orb]. run.
  case_decide as Hv.
  - destruct (set_vector_words_ok vec bit raised (iab_with_mutex true t)) as (t' & E & Hwf' & Hmu & Hview);
      [done..|apply Hv|].
    assert (iab_inv t') as Hinv'.
    { apply (f_equal (fun v => v_a v ⊆ v_i v)) in Hview. unfold iab_inv.
      change (v_a (view t') ⊆ v_i (view t')). rewrite Hview. by apply view_set_inv. }
    exists (iab_with_mutex false t'). split_and!; try done.
    unfold CAP_TO_INDEX in E. rewrite E. run. rewrite ret_run. f_equal.
    unfold with_heap. f_equal. cbn [obj_with_mutex]. by rewrite !insert_insert_eq.
  - assert (set_vector_words vec (Z.shiftr bit 5) (bit32 bit) raised (iab_with_mutex true t) = None) as ->.
    { unfold set_vector_words, valid_vec in *. destruct (Z.eqb_spec vec CAP_IAB_INH), (Z.eqb_spec vec CAP_IAB_AMB),
        (Z.eqb_spec vec CAP_IAB_BOUND); tauto. }
    run. unfold mu_unlock_return. run. rewrite ret_run. f_equal.
    unfold with_heap, with_errno; cbn [heap]; f_equal. heap_eq.
Qed.

Lemma iab_fill_inv vec s t t' :
  iab_inv t -> view t' = view_set vec s (view t) -> iab_inv t'.
Proof.
  intros Hinv Hview. unfold iab_inv. change (v_a (view t') ⊆ v_i (view t')). rewrite Hview.
  by apply view_set_inv.
Qed.

Lemma cap_iab_fill_run p t vec d c flag w :
  world_wf w -> heap w !! p = Some (OIab t) -> iab_mutex t = false ->
  heap w !! d = Some (OCap c) -> c_mutex c = false -> capget_probe_ok (kst w) -> mem_ok w ->
  valid_set flag -> valid_vec vec -> exists t',
    cap_iab_fill p vec d flag w = (Ok 0, with_heap (<[p := OIab t']> (heap w)) (spent w)) /\
    iab_wf t' /\ iab_mutex t' = false /\
    view t' = view_set vec (fill_caps vec flag (c_u c)) (view t).
Proof.
  intros Hw Hp Ht Hd Hc Hk Hmem Hf Hv. destruct (live_iab _ _ _ Hw Hp) as [Hwf Hm].
  destruct (live_cap _ _ _ Hw Hd) as [Hu Hmd].
  pose proof (wf_ne_next _ _ _ Hw Hp). pose proof (wf_next_ne_0 _ Hw) as Hn0.
  pose proof (wf_fresh _ Hw). pose proof (wf_next _ Hw) as [_ Hal].
  assert (forall w' : world K, heap w' !! next w = Some (OCap c) ->
    cap_free (next w) w' = (Ok 0, with_heap (delete (next w) (heap w')) w')) as Hfree.
  { intros w' Hw'. eapply cap_free_copy; [done..|by simpl; rewrite Hc]. }
  unfold cap_iab_fill. run. rewrite Hm, Hmd, known_flag_valid, bool_decide_true by done. cbn [negb orb].
  rewrite (bind_ok _ _ _ _ _ (cap_dup_run _ _ _ Hw Hd Hc Hmem Hk)).
  destruct (Z.eqb_spec (next w) 0); [done|]. run.
  destruct (fill_vector_loop_ok vec flag (c_u c) (iab_with_mutex true t))
    as (t' & -> & Hwf' & Hmu & Hview); [done..|].
  exists (iab_with_mutex false t'). split_and!; try done. run. rewrite ret_run. f_equal. world_eq.
Qed.

(** cap_iab_fill() copies a flag of a capability set into one vector of a
    tuple - inverted for the bounding vector, whose bits name what is dropped -
    masks A with a new I and adds a new A to I, and so keeps the invariant. An
    unknown flag is refused before anything is done; an unknown vector leaves
    the tuple as it was. *)
Theorem cap_iab_fill_correct p t vec d c flag w :
  world_wf w -> heap w !! p = Some (OIab t) -> iab_mutex t = false -> iab_inv t ->
  heap w !! d = Some (OCap c) -> c_mutex c = false -> capget_probe_ok (kst w) -> mem_ok w ->
  (valid_set flag -> valid_vec vec -> exists t',
     cap_iab_fill p vec d flag w = (Ok 0, with_heap (<[p := OIab t']> (heap w)) (spent w)) /\
     iab_wf t' /\ iab_mutex t' = false /\ iab_inv t' /\
     view t' = view_set vec (fill_caps vec flag (c_u c)) (view t)) /\
  (valid_set flag -> ~ valid_vec vec ->
     cap_iab_fill p vec d flag w = (Ok (-1), with_errno EINVAL (spent w))) /\
  (~ valid_set flag -> cap_iab_fill p vec d flag w = (Ok (-1), with_errno EINVAL w)).
Proof.
  intros Hw Hp Ht Hinv Hd Hc Hk Hmem. destruct (live_iab _ _ _ Hw Hp) as [Hwf Hm].
  destruct (live_cap _ _ _ Hw Hd) as [Hu Hmd].
  pose proof (wf_ne_next _ _ _ Hw Hp). pose proof (wf_next_ne_0 _ Hw) as Hn0.
  pose proof (wf_fresh _ Hw). pose proof (wf_next _ Hw) as [_ Hal].
  split; [|split].
  - intros Hf Hv. destruct (cap_iab_fill_run p t vec d c flag w) as (t' & ? & ? & ? & Hview); [done..|].
    exists t'. split_and!; try done. by eapply iab_fill_inv.
  - intros Hf Hv.
    assert (forall w' : world K, heap w' !! next w = Some (OCap c) ->
      cap_free (next w) w' = (Ok 0, with_heap (delete (next w) (heap w')) w')) as Hfree
      by (intros w' Hw'; eapply cap_free_copy; [done..|by simpl; rewrite Hc]).
    unfold cap_iab_fill. run. rewrite Hm, Hmd, known_flag_valid, bool_decide_true by done. cbn [negb orb].
    rewrite (bind_ok _ _ _ _ _ (cap_dup_run _ _ _ Hw Hd Hc Hmem Hk)).
    destruct (Z.eqb_spec (next w) 0); [done|]. run. rewrite fill_vector_loop_bad by done.
    run. rewrite ret_run. f_equal. world_eq.
  - intros Hf. unfold cap_iab_fill. run. rewrite Hm, Hmd, known_flag_valid, bool_decide_false by done.
    cbn [negb orb]. by run.
Qed.

(** cap_iab_compare() returns zero exactly for equal tuples, and
    CAP_IAB_DIFFERS() singles out the vectors that differ; cap_iab_get_vector()
    reads one capability of one vector. Neither changes a tuple. *)
Theorem cap_iab_compare_correct a ta b tb w :
  world_wf w -> heap w !! a = Some (OIab ta) -> iab_mutex ta = false ->
  heap w !! b = Some (OIab tb) -> iab_mutex tb = false -> mem_ok w -> max_bits_ok w ->
  (exists r, cap_iab_compare a b w = (Ok r, spent w) /\ (r = 0 <-> view ta = view tb) /\
     forall vec, valid_vec vec ->
       CAP_IAB_DIFFERS r vec = true <-> view_get vec (view ta) <> view_get vec (view tb)) /\
  (forall vec bit, valid_vec vec -> exists r, cap_iab_get_vector a vec bit w = (Ok r, w) /\
     (r = 0 \/ r = 1) /\
     (r = 1 <-> 0 <= bit < g_max_bits (glob w) /\ bit ∈ view_get vec (view ta))).
Proof.
  intros Hw Ha Hta Hb Htb Hmem [Hb1 Hb2]. change CAP_MAXBITS with 64 in Hb2.
  destruct (live_iab _ _ _ Hw Ha) as [Hwf Hm].
  destruct (live_iab _ _ _ Hw Hb) as [Hwfb Hmb]. split.
  - exists (compare_iab ta tb). split; [|split; [by apply (compare_iab_spec _ _ 0)|intros; by apply compare_iab_spec]].
    unfold cap_iab_compare. run. rewrite Hm, Hmb. cbn [andb negb].
    rewrite (bind_ok _ _ _ _ _ (cap_iab_dup_run _ _ _ Hw Hb Htb Hmem)).
    pose proof (wf_ne_next _ _ _ Hw Ha). pose proof (wf_next_ne_0 _ Hw) as Hn0.
    pose proof (wf_fresh _ Hw). pose proof (wf_next _ Hw) as [_ Hal].
    destruct (Z.eqb_spec (next w) 0); [done|]. run.
    erewrite bind_ok; [|apply (cap_free_copy (next w) (OIab tb)); [done..|wsimpl; heap_lookup|done]].
    rewrite ret_run. f_equal. world_eq.
  - intros vec bit Hv. unfold cap_iab_get_vector, cap_max_bits. run. rewrite Hm. cbn [negb orb].
    destruct ((bit <? 0) || (g_max_bits (glob w) <=? bit)) eqn:E.
    + exists 0. apply orb_true_iff in E as [?%Z.ltb_lt|?%Z.leb_le]; split_and!; try done; try tauto; lia.
    + apply orb_false_iff in E as [E1%Z.ltb_ge E2%Z.leb_gt].
      assert (valid_cap bit) as Hbit by (unfold valid_cap; change CAP_MAXBITS with 64; lia).
      assert (in_words (iab_i (iab_with_mutex true ta)) bit = true)
        by (apply in_words_valid; [by destruct Hwf as ((?&?)&_)|done]).
      run. assert (forall v, words_wf v -> (Z.land (word v (Z.shiftr bit 5)) (bit32 bit) =? 0) =
        negb (bool_decide (bit ∈ vec_caps v))) as Ht.
      { intros v Hwv. rewrite land_bit32_eqb. f_equal. apply eq_true_iff_eq.
        rewrite bool_decide_eq_true, elem_of_vec_caps. unfold vec_bit, CAP_TO_INDEX. tauto. }
      destruct Hwf as (Hi & Haa & Hn). cbn [iab_i iab_a iab_nb iab_with_mutex]. rewrite !Ht by done.
      rewrite ret_run. eexists. split; [f_equal; apply with_heap_restore; heap_eq|].
      destruct Hv as [->|[->| ->]]; cbn [Z.eqb CAP_IAB_INH CAP_IAB_AMB CAP_IAB_BOUND Pos.eqb];
        unfold view_get, view; cbn [Z.eqb CAP_IAB_INH CAP_IAB_AMB CAP_IAB_BOUND Pos.eqb v_i v_a v_nb];
        case_bool_decide; cbn [negb]; (split; [tauto|]); split; intros; first [done|lia|tauto|split; [lia|done]].
Qed.

End iab_ops.
