(* ===== verification/ExtInt.v ===== *)
(** libcap/cap_extint.c: the external, byte-wise representation of capability
    sets. A buffer of the caller is the list of its bytes, as long as the memory
    behind it; [None] is NULL. Reading or writing past its end is undefined. *)

From S2P Require Import Prelude Capability World Exec Syscall Alloc Flag FlagSpec.
From stdpp Require Import gmap strings list sets.
From Stdlib Require Import ZArith Lia.

Open Scope Z_scope.

Definition CAP_EXT_MAGIC_SIZE : Z := 4.
Definition external_magic : list Z := [0x90; 0xC2; 0x01; 0x51].

(** libcap.h: [CAP_SET_SIZE] *)
Definition CAP_SET_SIZE : Z := LIBCAP_CAPABILITY_U32S * 4.

(** [sizeof(struct cap_ext_struct)] and the offset of [bytes[j][i]] in it *)
Definition SIZEOF_CAP_EXT_STRUCT : Z := CAP_EXT_MAGIC_SIZE + 1 + CAP_SET_SIZE * NUMBER_OF_CAP_SETS.
Definition ext_offset (j i : Z) : nat :=
  Z.to_nat (CAP_EXT_MAGIC_SIZE + 1 + j * NUMBER_OF_CAP_SETS + i).

Definition libcap_min_ext_flag_size : Z := if CAP_SET_SIZE <? 8 then CAP_SET_SIZE else 8.

(** One turn of the loop of [_cap_size_locked], for the block at byte [j]. *)
Definition cap_size_step (u : list capblk) (used j : Z) : Z :=
  let val := foldl (fun val i => Z.lor val (flat (u_blk u (Z.quot j 4)) i)) 0
    (seqZ 0 NUMBER_OF_CAP_SETS) in
  if val =? 0 then used
  else if 0x0000ffff <? val then
    (if 0x00ffffff <? val then j + 4 else j + 3)
  else if 0x000000ff <? val then j + 2
  else j + 1.

Definition cap_size_locked (c : cap_struct) : Z :=
  let used := foldl (cap_size_step (c_u c)) 0
    (map (fun k => 4 * k) (seqZ 0 LIBCAP_CAPABILITY_U32S)) in
  let used := if used <? libcap_min_ext_flag_size then libcap_min_ext_flag_size else used in
  CAP_EXT_MAGIC_SIZE + 1 + NUMBER_OF_CAP_SETS * used.

(** *** Writing: a store past the end of the buffer is [None] *)

Definition put_byte (buf : list Z) (off : nat) (v : Z) : option (list Z) :=
  if (off <? length buf)%nat then Some (<[off := v]> buf) else None.

(** The bytes of one word, from the low one: [n] of them are left and [j] is
    the next position. *)
Fixpoint copy_ext_bytes (n : nat) (val i j len_set : Z) (buf : list Z) : option (Z * list Z) :=
  match n with
  | O => Some (j, buf)
  | S n =>
      if j <? len_set then
        buf ← put_byte buf (ext_offset j i) (Z.land val 0xFF);
        copy_ext_bytes n (Z.shiftr val 8) i (j + 1) len_set buf
      else Some (j, buf)
  end.

(** The loop over [j]; every turn but the last writes four bytes, so that many
    turns as there are words are enough. *)
Fixpoint copy_ext_set (fuel : nat) (u : list capblk) (i j len_set : Z) (buf : list Z)
    : option (list Z) :=
  if j <? len_set then
    match fuel with
    | O => None
    | S fuel =>
        '(j', buf) ← copy_ext_bytes 4 (flat (u_blk u (Z.quot j 4)) i) i j len_set buf;
        copy_ext_set fuel u i j' len_set buf
    end
  else Some buf.

(** The assignments of cap_copy_ext() to the buffer, in their order. *)
Definition fill_ext (u : list capblk) (len_set : Z) (buf : list Z) : option (list Z) :=
  buf ← foldl (fun b k => buf ← b; put_byte buf k (default 0 (external_magic !! k)))
    (Some buf) (seq 0 (Z.to_nat CAP_EXT_MAGIC_SIZE));
  buf ← put_byte buf (Z.to_nat CAP_EXT_MAGIC_SIZE) (len_set mod 256);
  foldl (fun b i => buf ← b; copy_ext_set (Z.to_nat LIBCAP_CAPABILITY_U32S) u i 0 len_set buf)
    (Some buf) (seqZ 0 NUMBER_OF_CAP_SETS).

(** *** Reading *)

(** One of the four statements [if (bno != blen) val |= bytes[bno++][set] << shift];
    [val] is zero before the first, which has no shift and assigns. *)
Definition read_step (e : list Z) (blen set : Z) (s : option (Z * Z)) (shift : Z) : option (Z * Z) :=
  '(bno, val) ← s;
  if bno =? blen then Some (bno, val)
  else
    b ← e !! ext_offset bno set;
    Some (bno + 1, if shift =? 0 then b else Z.lor val (u32 (Z.shiftl b shift))).

Definition read_word (e : list Z) (blen set bno : Z) : option (Z * Z) :=
  foldl (read_step e blen set) (Some (bno, 0)) [0; 8; 16; 24].

(** The loops over [set] and [blk], on the array [u] of the new set. *)
Definition import_set (e : list Z) (blen : Z) (u : option (list capblk)) (set : Z)
    : option (list capblk) :=
  u ← u;
  r ← foldl (fun s blk =>
        '(bno, u) ← s;
        '(bno, val) ← read_word e blen set bno;
        Some (bno, alter (set_flat set val) (Z.to_nat blk) u))
      (Some (0, u)) (seqZ 0 (Z.quot CAP_SET_SIZE 4));
  Some r.2.

Definition import_u (e : list Z) (blen : Z) (u : list capblk) : option (list capblk) :=
  foldl (import_set e blen) (Some u) (seqZ 0 NUMBER_OF_CAP_SETS).

Section extint.
Context {K : Type} `{!Kernel K}.
Implicit Types (w : world K) (p : Z).

Definition cap_size (cap_d : Z) : M K Z :=
  good ← good_cap_t cap_d;
  if negb good then mret SIZEOF_CAP_EXT_STRUCT
  else
    mu_lock cap_d;;
    c ← load_cap cap_d;
    let used := cap_size_locked c in
    mu_unlock cap_d;;
    mret used.

(** The result, and the buffer afterwards. *)
Definition cap_copy_ext (cap_ext : option (list Z)) (cap_d length : Z) : M K (Z * option (list Z)) :=
  good ← good_cap_t cap_d;
  match cap_ext with
  | Some buf =>
      if negb good then set_errno EINVAL;; mret (-1, cap_ext)
      else
        mu_lock cap_d;;
        c ← load_cap cap_d;
        let csz := cap_size_locked c in
        if length <? csz then set_errno EINVAL;; mu_unlock_return cap_d (-1, cap_ext)
        else
          let len_set := Z.quot (csz - (CAP_EXT_MAGIC_SIZE + 1)) NUMBER_OF_CAP_SETS in
          match fill_ext (c_u c) len_set buf with
          | Some buf => mu_unlock_return cap_d (csz, Some buf)
          | None => fault
          end
  | None => set_errno EINVAL;; mret (-1, cap_ext)
  end.

Definition cap_copy_int (cap_ext : option (list Z)) : M K Z :=
  match cap_ext with
  | None => set_errno EINVAL;; mret 0
  | Some e =>
      assert_ub (CAP_EXT_MAGIC_SIZE <=? Z.of_nat (length e));;
      if negb (bool_decide (take (Z.to_nat CAP_EXT_MAGIC_SIZE) e = external_magic))
      then set_errno EINVAL;; mret 0
      else
        cap_d ← cap_init;
        if cap_d =? 0 then mret 0
        else
          match e !! Z.to_nat CAP_EXT_MAGIC_SIZE with
          | None => fault
          | Some blen =>
              c ← load_cap cap_d;
              match import_u e blen (c_u c) with
              | None => fault
              | Some u => modify_cap cap_d (with_u (fun _ => u));; mret cap_d
              end
          end
  end.

(** [export->length_of_capset] reads the buffer before any test for NULL. *)
Definition cap_copy_int_check (cap_ext : option (list Z)) (length : Z) : M K Z :=
  if length <? 1 + CAP_EXT_MAGIC_SIZE then set_errno EINVAL;; mret 0
  else
    match cap_ext with
    | None => fault
    | Some e =>
        match e !! Z.to_nat CAP_EXT_MAGIC_SIZE with
        | None => fault
        | Some length_of_capset =>
            if length <? 1 + CAP_EXT_MAGIC_SIZE + length_of_capset * NUMBER_OF_CAP_SETS
            then set_errno EINVAL;; mret 0
            else cap_copy_int cap_ext
        end
    end.

End extint.

(** ** What the bytes mean *)

Definition is_byte (b : Z) : Prop := 0 <= b < 256.

(** The four bytes of a word, and the word of four bytes. *)
Definition byte_of (val k : Z) : Z := Z.land (Z.shiftr val (8 * k)) 0xFF.
Definition join4 (b0 b1 b2 b3 : Z) : Z :=
  Z.lor (Z.lor (Z.lor b0 (u32 (Z.shiftl b1 8))) (u32 (Z.shiftl b2 16))) (u32 (Z.shiftl b3 24)).

Lemma byte_testbit_high b i : is_byte b -> 8 <= i -> Z.testbit b i = false.
Proof.
  intros Hb Hi. rewrite <-(Z.mod_small b (2 ^ 8)) by (unfold is_byte in Hb; lia).
  by apply Z.mod_pow2_bits_high.
Qed.

Lemma u32_testbit x i : 0 <= i -> Z.testbit (u32 x) i = (i <? 32) && Z.testbit x i.
Proof.
  intros Hi. unfold u32. change 4294967296 with (2 ^ 32).
  destruct (Z.ltb_spec i 32); [by rewrite Z.mod_pow2_bits_low|by rewrite Z.mod_pow2_bits_high].
Qed.

Lemma byte_of_testbit v k i :
  0 <= k -> 0 <= i -> Z.testbit (byte_of v k) i = (i <? 8) && Z.testbit v (i + 8 * k).
Proof.
  intros Hk Hi. unfold byte_of. change 0xFF with (Z.ones 8).
  rewrite Z.land_spec, Z.shiftr_spec, Z.testbit_ones_nonneg by lia. apply andb_comm.
Qed.

Lemma byte_of_byte v k : is_byte (byte_of v k).
Proof.
  unfold byte_of. change 0xFF with (Z.ones 8). rewrite Z.land_ones by lia.
  apply Z.mod_pos_bound. lia.
Qed.

Lemma join4_testbit b0 b1 b2 b3 i :
  is_byte b0 -> is_byte b1 -> is_byte b2 -> is_byte b3 -> 0 <= i < 32 ->
  Z.testbit (join4 b0 b1 b2 b3) i =
    Z.testbit (if i <? 8 then b0 else if i <? 16 then b1 else if i <? 24 then b2 else b3) (i mod 8).
Proof.
  intros H0 H1 H2 H3 Hi. unfold join4. rewrite !Z.lor_spec, !u32_testbit, !Z.shiftl_spec by lia.
  destruct (Z.ltb_spec i 32); [|lia]. simpl.
  assert (forall b k, is_byte b -> 0 <= k -> ~ (k <= i < k + 8) -> Z.testbit b (i - k) = false) as Hout.
  { intros b k Hb Hk Hr. destruct (Z.lt_ge_cases i k); [by apply Z.testbit_neg_r; lia|].
    apply byte_testbit_high; [done|lia]. }
  replace i with (i - 0) at 1 by lia.
  assert (forall k, 0 <= k -> (8 | k) -> k <= i < k + 8 -> i mod 8 = i - k) as Hmod.
  { intros k Hk [q ->] Hr. symmetry. apply Z.mod_unique with q; lia. }
  destruct (Z.ltb_spec i 8); [|destruct (Z.ltb_spec i 16); [|destruct (Z.ltb_spec i 24)]].
  - rewrite (Hmod 0) by (try exists 0; lia). rewrite (Hout b1), (Hout b2), (Hout b3), !orb_false_r by (done || lia). done.
  - rewrite (Hmod 8) by (try exists 1; lia). rewrite (Hout b0), (Hout b2), (Hout b3), !orb_false_r by (done || lia). done.
  - rewrite (Hmod 16) by (try exists 2; lia). rewrite (Hout b0), (Hout b1), (Hout b3), !orb_false_r by (done || lia). done.
  - rewrite (Hmod 24) by (try exists 3; lia). rewrite (Hout b0), (Hout b1), (Hout b2) by (done || lia). done.
Qed.

Lemma is_u32_byte b : is_byte b -> is_u32 b.
Proof. unfold is_byte, is_u32. lia. Qed.

Lemma is_u32_join4 b0 b1 b2 b3 : is_byte b0 -> is_u32 (join4 b0 b1 b2 b3).
Proof. intros. unfold join4. repeat apply is_u32_lor; auto using is_u32_byte, is_u32_u32. Qed.

(** Splitting a word into bytes and joining them again gives the word. *)
Lemma join4_byte_of v : is_u32 v -> join4 (byte_of v 0) (byte_of v 1) (byte_of v 2) (byte_of v 3) = v.
Proof.
  intros Hv. apply u32_ext; [apply is_u32_join4, byte_of_byte|done|]. intros i Hi.
  rewrite join4_testbit by (try apply byte_of_byte; lia).
  pose proof (Z.mod_pos_bound i 8 ltac:(lia)). pose proof (Z.div_mod i 8 ltac:(lia)).
  destruct (Z.ltb_spec i 8); [|destruct (Z.ltb_spec i 16); [|destruct (Z.ltb_spec i 24)]];
    rewrite byte_of_testbit by lia; destruct (Z.ltb_spec (i mod 8) 8); try lia; simpl; f_equal;
    assert (i / 8 = 0 \/ i / 8 = 1 \/ i / 8 = 2 \/ i / 8 = 3) by lia; lia.
Qed.

(** The external form of a set: the magic, the bytes per flag, and the bytes of
    the flags, interleaved. *)
Definition export (u : list capblk) : list Z :=
  external_magic ++ [8] ++
  concat (map (fun j => map (fun i => byte_of (flat (u_blk u (Z.quot j 4)) i) (Z.rem j 4))
    (seqZ 0 NUMBER_OF_CAP_SETS)) (seqZ 0 8)).

Lemma length_29_inv {A} (l : list A) :
  length l = 29%nat ->
  exists a0 a1 a2 a3 a4 a5 a6 a7 a8 a9 a10 a11 a12 a13 a14 a15 a16 a17 a18 a19 a20 a21 a22 a23 a24 a25 a26 a27 a28,
  l = [a0; a1; a2; a3; a4; a5; a6; a7; a8; a9; a10; a11; a12; a13; a14; a15; a16; a17; a18; a19; a20; a21; a22; a23; a24; a25; a26; a27; a28].
Proof.
  intros H. do 29 (destruct l as [|? l]; [done|]). destruct l; [|done]. repeat eexists.
Qed.

Lemma fill_ext_run u buf :
  u_wf u -> (29 <= length buf)%nat -> fill_ext u 8 buf = Some (export u ++ drop 29 buf).
Proof.
  intros ([e0 p0 i0]&[e1 p1 i1]&->&_&_)%u_wf_inv Hl.
  rewrite <-(take_drop 29 buf) at 1. set (rest := drop 29 buf). clearbody rest.
  destruct (length_29_inv (take 29 buf)) as (?&?&?&?&?&?&?&?&?&?&?&?&?&?&?&?&?&?&?&?&?&?&?&?&?&?&?&?&?&->);
    [rewrite length_take; lia|].
  cbv -[Z.land Z.shiftr].
  rewrite !Z.shiftr_shiftr, !Z.shiftr_0_r by lia. reflexivity.
Qed.

(** *** Reading it back *)

(** Byte [n] of a flag, zero past the bytes the header announces. *)
Definition byte_at (e : list Z) (blen set n : Z) : Z :=
  if n <? blen then default 0 (e !! ext_offset n set) else 0.

(** The buffer holds the bytes that the header announces and that fit a set. *)
Definition ext_complete (e : list Z) (blen : Z) : Prop :=
  Forall is_byte e /\ 0 <= blen /\
  forall n set, 0 <= n < Z.min blen CAP_SET_SIZE -> valid_set set -> is_Some (e !! ext_offset n set).

Lemma byte_at_byte e blen set n : Forall is_byte e -> is_byte (byte_at e blen set n).
Proof.
  intros He. unfold byte_at. case_match; [|unfold is_byte; lia].
  destruct (e !! ext_offset n set) eqn:E; simpl; [by eapply Forall_lookup_1 in He|unfold is_byte; lia].
Qed.

Lemma read_step_run e blen set n shift val :
  ext_complete e blen -> valid_set set -> 0 <= n < CAP_SET_SIZE -> 0 <= shift ->
  (shift = 0 -> val = 0) ->
  read_step e blen set (Some (Z.min n blen, val)) shift =
    Some (Z.min (n + 1) blen, Z.lor val (u32 (Z.shiftl (byte_at e blen set n) shift))).
Proof.
  intros (Hb & H0 & He) Hs Hn Hsh Hv. unfold read_step, byte_at. cbn [mbind option_bind].
  destruct (Z.ltb_spec n blen).
  - rewrite !Z.min_l by lia. destruct (Z.eqb_spec n blen); [lia|].
    destruct (He n set ltac:(lia) Hs) as [b Hlk]. rewrite Hlk. cbn [mbind option_bind default].
    do 2 f_equal. destruct (Z.eqb_spec shift 0) as [->|]; [|done].
    rewrite Hv, Z.shiftl_0_r by done. simpl. symmetry. apply u32_id, is_u32_byte.
    by eapply Forall_lookup_1 in Hb.
  - rewrite !Z.min_r, Z.eqb_refl, Z.shiftl_0_l by lia. change (u32 0) with 0. by rewrite Z.lor_0_r.
Qed.

Definition word_at (e : list Z) (blen set blk : Z) : Z :=
  join4 (byte_at e blen set (4 * blk)) (byte_at e blen set (4 * blk + 1))
    (byte_at e blen set (4 * blk + 2)) (byte_at e blen set (4 * blk + 3)).

Lemma read_word_run e blen set blk :
  ext_complete e blen -> valid_set set -> blk = 0 \/ blk = 1 ->
  read_word e blen set (Z.min (4 * blk) blen) =
    Some (Z.min (4 * (blk + 1)) blen, word_at e blen set blk).
Proof.
  intros He Hs Hb. unfold read_word. cbn [foldl].
  rewrite !read_step_run by (done || (change CAP_SET_SIZE with 8; lia)).
  rewrite Z.shiftl_0_r. unfold word_at, join4.
  rewrite (u32_id (byte_at e blen set (4 * blk))) by (apply is_u32_byte, byte_at_byte, He).
  rewrite !Z.lor_0_l, <-!Z.add_assoc. do 2 f_equal. lia.
Qed.

Lemma import_set_run e blen set b0 b1 :
  ext_complete e blen -> valid_set set ->
  import_set e blen (Some [b0; b1]) set =
    Some [set_flat set (word_at e blen set 0) b0; set_flat set (word_at e blen set 1) b1].
Proof.
  intros He Hs. unfold import_set. cbn [mbind option_bind].
  change (seqZ 0 (Z.quot CAP_SET_SIZE 4)) with [0; 1]. cbn [foldl mbind option_bind].
  pose proof (read_word_run e blen set 0 He Hs ltac:(by left)) as R0.
  pose proof (read_word_run e blen set 1 He Hs ltac:(by right)) as R1.
  change (4 * 0) with 0 in R0. change (4 * (0 + 1)) with 4 in R0. change (4 * 1) with 4 in R1.
  rewrite Z.min_l in R0 by apply He. rewrite R0. cbn [mbind option_bind]. rewrite R1. reflexivity.
Qed.

Definition imported (e : list Z) (blen : Z) : list capblk :=
  map (fun blk => mkBlk (word_at e blen CAP_EFFECTIVE blk) (word_at e blen CAP_PERMITTED blk)
    (word_at e blen CAP_INHERITABLE blk)) [0; 1].

Lemma import_u_run e blen b0 b1 :
  ext_complete e blen -> import_u e blen [b0; b1] = Some (imported e blen).
Proof.
  intros He. unfold import_u. change (seqZ 0 NUMBER_OF_CAP_SETS) with [0; 1; 2]. cbn [foldl].
  by rewrite !import_set_run by (done || split; lia || done).
Qed.

Lemma imported_wf e blen : Forall is_byte e -> u_wf (imported e blen).
Proof.
  intros He. apply u_wf_pair; split_and!; apply is_u32_join4, byte_at_byte, He.
Qed.

(** A capability of the imported set is a bit of a byte of the buffer. *)
Lemma has_cap_imported e blen x s :
  Forall is_byte e -> valid_cap x -> valid_set s ->
  has_cap (imported e blen) x s = Z.testbit (byte_at e blen s (x / 8)) (x mod 8).
Proof.
  intros He Hx Hs. pose proof (land31_bound x) as Hl. unfold has_cap.
  assert (flat (u_blk (imported e blen) (CAP_TO_INDEX x)) s = word_at e blen s (CAP_TO_INDEX x)) as ->.
  { unfold valid_set, NUMBER_OF_CAP_SETS in Hs. assert (s = 0 \/ s = 1 \/ s = 2) as [->|[->| ->]] by lia;
    by destruct (index_bound x Hx) as [-> | ->]. }
  unfold word_at. rewrite join4_testbit by (try apply byte_at_byte; done).
  pose proof (cap_split x Hx) as Hx'.
  assert (x mod 8 = Z.land x 31 mod 8) as ->.
  { rewrite Hx' at 1. replace (32 * CAP_TO_INDEX x) with (4 * CAP_TO_INDEX x * 8) by lia.
    by rewrite Z.add_comm, Z.mod_add by lia. }
  assert (x / 8 = 4 * CAP_TO_INDEX x + Z.land x 31 / 8) as ->.
  { rewrite Hx' at 1. replace (32 * CAP_TO_INDEX x) with (4 * CAP_TO_INDEX x * 8) by lia.
    rewrite Z.div_add_l by lia. lia. }
  set (l := Z.land x 31) in *. clearbody l.
  assert (forall q, 8 * q <= l < 8 * q + 8 -> l / 8 = q) as Hq.
  { intros q Hq. symmetry. apply Z.div_unique with (l - 8 * q); lia. }
  destruct (Z.ltb_spec l 8); [|destruct (Z.ltb_spec l 16); [|destruct (Z.ltb_spec l 24)]];
    [rewrite (Hq 0)|rewrite (Hq 1)|rewrite (Hq 2)|rewrite (Hq 3)]; try lia; do 2 f_equal; lia.
Qed.

(** Reading what was written. *)
Lemma imported_export u rest : u_wf u -> imported (export u ++ rest) 8 = u.
Proof.
  intros ([e0 p0 i0]&[e1 p1 i1]&->&(?&?&?)&(?&?&?))%u_wf_inv.
  cbn [effective permitted inheritable] in *.
  transitivity (map (fun b => mkBlk
    (join4 (byte_of (effective b) 0) (byte_of (effective b) 1) (byte_of (effective b) 2) (byte_of (effective b) 3))
    (join4 (byte_of (permitted b) 0) (byte_of (permitted b) 1) (byte_of (permitted b) 2) (byte_of (permitted b) 3))
    (join4 (byte_of (inheritable b) 0) (byte_of (inheritable b) 1) (byte_of (inheritable b) 2) (byte_of (inheritable b) 3)))
    [mkBlk e0 p0 i0; mkBlk e1 p1 i1]); [reflexivity|].
  cbn [map effective permitted inheritable]. by rewrite !join4_byte_of.
Qed.

Lemma export_bytes u : Forall is_byte (export u).
Proof.
  repeat apply Forall_cons_2; try (unfold is_byte; lia); try apply byte_of_byte. apply Forall_nil_2.
Qed.

Lemma length_export u : length (export u) = 29%nat.
Proof. done. Qed.

Lemma export_complete u rest :
  Forall is_byte rest -> ext_complete (export u ++ rest) 8.
Proof.
  intros Hr. split; [by apply Forall_app_2; [apply export_bytes|]|]. split; [lia|].
  intros n set Hn Hs. apply lookup_lt_is_Some_2. rewrite length_app, length_export.
  unfold ext_offset, valid_set, CAP_EXT_MAGIC_SIZE, NUMBER_OF_CAP_SETS in *.
  change (Z.min 8 CAP_SET_SIZE) with 8 in Hn. lia.
Qed.

Lemma cap_size_locked_29 c : cap_size_locked c = 29.
Proof.
  unfold cap_size_locked. change (map _ (seqZ 0 LIBCAP_CAPABILITY_U32S)) with [0; 4].
  cbn [foldl]. set (u1 := cap_size_step (c_u c) 0 0).
  assert (0 <= u1 <= 4) as H1 by (subst u1; unfold cap_size_step; repeat case_match; lia).
  set (u2 := cap_size_step (c_u c) u1 4).
  assert (0 <= u2 <= 8) as H2 by (subst u2; unfold cap_size_step; repeat case_match; lia).
  change libcap_min_ext_flag_size with 8. change CAP_EXT_MAGIC_SIZE with 4. change NUMBER_OF_CAP_SETS with 3.
  destruct (Z.ltb_spec u2 8); lia.
Qed.

(** The steps of reading a complete buffer, as one function of its bytes. *)
Definition ext_valid (e : list Z) (blen : Z) : Prop :=
  take 4 e = external_magic /\ e !! 4%nat = Some blen /\ ext_complete e blen.

Section ext_ops.
Context {K : Type} `{!Kernel K}.
Implicit Types (w : world K) (p : Z) (c : cap_struct) (e buf : list Z).

Lemma magic_present e : take 4 e = external_magic -> (CAP_EXT_MAGIC_SIZE <=? Z.of_nat (length e)) = true.
Proof.
  intros H. apply (f_equal length) in H. rewrite length_take in H.
  change (length external_magic) with 4%nat in H. apply Z.leb_le. change CAP_EXT_MAGIC_SIZE with 4. lia.
Qed.

Lemma cap_copy_int_run e blen w :
  world_wf w -> mem_ok w -> capget_probe_ok (kst w) -> ext_valid e blen ->
  cap_copy_int (Some e) w =
    (Ok (next w), placed (OCap (with_u (fun _ => imported e blen) cap_blank)) w).
Proof.
  intros Hw Hm Hk (Ht & Hb & He). unfold cap_copy_int.
  pose proof (magic_present e Ht). pose proof (wf_next_ne_0 _ Hw). run.
  change (Z.to_nat CAP_EXT_MAGIC_SIZE) with 4%nat. rewrite Ht, bool_decide_true by done. cbn [negb].
  rewrite (bind_ok _ _ _ _ _ (cap_init_run _ ltac:(done) Hm Hk)).
  destruct (Z.eqb_spec (next w) 0); [done|]. rewrite Hb. run.
  change (c_u cap_blank) with [blk0; blk0]. rewrite import_u_run by done.
  run. rewrite ret_run. f_equal. world_eq.
Qed.

Lemma cap_copy_ext_run p c buf len w :
  world_wf w -> heap w !! p = Some (OCap c) -> c_mutex c = false ->
  29 <= len -> len <= Z.of_nat (length buf) ->
  cap_copy_ext (Some buf) p len w = (Ok (29, Some (export (c_u c) ++ drop 29 buf)), w).
Proof.
  intros Hw Hp Hc Hl Hb. destruct (live_cap _ _ _ Hw Hp) as [Hu Hm].
  unfold cap_copy_ext. run. rewrite Hm. cbn [negb]. run. rewrite cap_size_locked_29.
  destruct (Z.ltb_spec len 29); [lia|].
  change (Z.quot (29 - (CAP_EXT_MAGIC_SIZE + 1)) NUMBER_OF_CAP_SETS) with 8.
  change (c_u (cap_with_mutex true c)) with (c_u c). rewrite fill_ext_run by (done || lia).
  unfold mu_unlock_return. run. world_same.
Qed.

(** C32 cap_copy_ext() writes 29 bytes - the magic, the number 8, the 24 bytes
    of the three flags - at the front of the caller's buffer and nothing past
    them, so a buffer as long as announced is never overrun; and cap_copy_int()
    of what it wrote makes a set with the same capabilities, at a new address
    and with the two sets independent. *)
Theorem ext_roundtrip p c buf len w :
  world_wf w -> heap w !! p = Some (OCap c) -> c_mutex c = false ->
  29 <= len -> len <= Z.of_nat (length buf) -> Forall is_byte buf ->
  mem_ok w -> capget_probe_ok (kst w) ->
  exists buf', cap_copy_ext (Some buf) p len w = (Ok (29, Some buf'), w) /\
    drop 29 buf' = drop 29 buf /\ length buf' = length buf /\
    forall n, 29 <= n ->
    exists q w', cap_copy_int (Some buf') w = (Ok q, w') /\
      cap_copy_int_check (Some buf') n w = (Ok q, w') /\
      q <> p /\ heap w' = <[q := OCap (with_u (fun _ => c_u c) cap_blank)]> (heap w).
Proof.
  intros Hw Hp Hc Hl Hb Hbuf Hm Hk. destruct (live_cap _ _ _ Hw Hp) as [Hu _].
  exists (export (c_u c) ++ drop 29 buf). split; [by apply cap_copy_ext_run with (len := len)|].
  split; [by rewrite drop_app_length'|].
  split; [rewrite length_app, length_export, length_drop; lia|].
  intros n Hn. exists (next w), (placed (OCap (with_u (fun _ => c_u c) cap_blank)) w).
  assert (cap_copy_int (Some (export (c_u c) ++ drop 29 buf)) w = (Ok (next w),
    placed (OCap (with_u (fun _ => c_u c) cap_blank)) w)) as Hint.
  { assert (ext_valid (export (c_u c) ++ drop 29 buf) 8) as Hv
      by (split; [done|split; [done|by apply export_complete, Forall_drop]]).
    by rewrite (cap_copy_int_run _ 8), imported_export. }
  split; [done|]. split; [|split; [by apply not_eq_sym; eapply wf_ne_next|done]].
  unfold cap_copy_int_check. change CAP_EXT_MAGIC_SIZE with 4. change NUMBER_OF_CAP_SETS with 3.
  destruct (Z.ltb_spec n (1 + 4)); [lia|].
  change ((export (c_u c) ++ drop 29 buf) !! Z.to_nat 4) with (Some 8). cbv iota beta.
  by destruct (Z.ltb_spec n (1 + 4 + 8 * 3)); [lia|].
Qed.

(** cap_size() is 29 for every set, and cap_copy_ext() refuses a smaller
    length, a NULL buffer and anything but a capability set with EINVAL,
    leaving the buffer and the set as they were. *)
Theorem cap_size_and_errors p w :
  world_wf w ->
  (forall c, heap w !! p = Some (OCap c) -> c_mutex c = false -> cap_size p w = (Ok 29, w)) /\
  (magic_at (heap w) p <> CAP_T_MAGIC -> cap_size p w = (Ok 29, w)) /\
  (forall c buf len, heap w !! p = Some (OCap c) -> c_mutex c = false -> len < 29 ->
     cap_copy_ext (Some buf) p len w = (Ok (-1, Some buf), with_errno EINVAL w)) /\
  (forall len, cap_copy_ext None p len w = (Ok (-1, None), with_errno EINVAL w)) /\
  (forall buf len, magic_at (heap w) p <> CAP_T_MAGIC ->
     cap_copy_ext (Some buf) p len w = (Ok (-1, Some buf), with_errno EINVAL w)).
Proof.
  intros Hw. split_and!.
  - intros c Hp Hc. destruct (live_cap _ _ _ Hw Hp) as [Hu Hm]. unfold cap_size. run.
    rewrite Hm. cbn [negb]. run. rewrite cap_size_locked_29. world_same.
  - intros H%Z.eqb_neq. unfold cap_size. run. by rewrite H.
  - intros c buf len Hp Hc Hlen. destruct (live_cap _ _ _ Hw Hp) as [Hu Hm].
    unfold cap_copy_ext. run. rewrite Hm. cbn [negb]. run. rewrite cap_size_locked_29.
    destruct (Z.ltb_spec len 29); [|lia]. unfold mu_unlock_return. run. rewrite ret_run. f_equal.
    unfold with_heap, with_errno; cbn [heap]; f_equal. heap_eq.
  - intros len. unfold cap_copy_ext. by run.
  - intros buf len H%Z.eqb_neq. unfold cap_copy_ext. run. rewrite H. by run.
Qed.

(** cap_copy_int() on any complete external form, also one shorter or longer
    than today's: capability [x] of flag [s] is in the new set exactly when bit
    [x mod 8] of byte [x / 8] of that flag is set; capabilities past the bytes
    the header announces are clear, bytes past the eighth are ignored. A buffer
    without the magic makes no set. *)
Theorem cap_copy_int_correct e blen w :
  world_wf w -> mem_ok w -> capget_probe_ok (kst w) ->
  (ext_valid e blen -> exists c w', cap_copy_int (Some e) w = (Ok (next w), w') /\
     w' = placed (OCap c) w /\ world_wf w' /\ c_mutex c = false /\
     forall x s, valid_cap x -> valid_set s ->
       x ∈ caps_of (c_u c) s <->
       x / 8 < blen /\ exists b, e !! ext_offset (x / 8) s = Some b /\ Z.testbit b (x mod 8) = true) /\
  ((4 <= length e)%nat -> take 4 e <> external_magic ->
     cap_copy_int (Some e) w = (Ok 0, with_errno EINVAL w)).
Proof.
  intros Hw Hm Hk. split.
  - intros He. pose proof He as (_ & _ & Hc & Hb & Hlk).
    eexists _, _. split; [by apply cap_copy_int_run|]. split; [done|].
    split; [apply world_wf_placed; [done|]; by apply imported_wf|]. split; [done|].
    intros x s Hx Hs. rewrite elem_of_caps_of. cbn [c_u with_u].
    rewrite has_cap_imported by done. unfold byte_at. pose proof Hx as [Hx0 Hx1].
    change CAP_MAXBITS with 64 in Hx1.
    assert (0 <= x / 8 < 8) by (split; [apply Z.div_pos|apply Z.div_lt_upper_bound]; lia).
    destruct (Z.ltb_spec (x / 8) blen).
    + destruct (Hlk (x / 8) s) as [b E]; [change CAP_SET_SIZE with 8; lia|done|]. rewrite E. simpl.
      split; [intros [_ ?]; eauto|]. intros (_ & b' & [= <-] & ?). done.
    + rewrite Z.testbit_0_l. split; [by intros []|]. intros []. lia.
  - intros Hl Ht. unfold cap_copy_int.
    assert ((CAP_EXT_MAGIC_SIZE <=? Z.of_nat (length e)) = true)
      by (apply Z.leb_le; change CAP_EXT_MAGIC_SIZE with 4; lia).
    run. change (Z.to_nat CAP_EXT_MAGIC_SIZE) with 4%nat. rewrite bool_decide_false by done.
    cbn [negb]. by run.
Qed.

(** cap_copy_int_check() never reads past the length it is told: on a buffer
    at least that long it returns, a new set or NULL, whatever the bytes. A NULL
    buffer with a length of 5 or more is dereferenced. *)
Theorem cap_copy_int_check_safe len w :
  world_wf w -> mem_ok w -> capget_probe_ok (kst w) ->
  (forall e, Forall is_byte e -> len <= Z.of_nat (length e) ->
     exists q w', cap_copy_int_check (Some e) len w = (Ok q, w') /\
       (q = 0 /\ heap w' = heap w /\ errno w' = EINVAL \/
        q = next w /\ exists c, heap w' = <[q := OCap c]> (heap w) /\ cap_wf c)) /\
  (5 <= len -> cap_copy_int_check None len w = (Fault, w)).
Proof.
  intros Hw Hm Hk. unfold cap_copy_int_check. change CAP_EXT_MAGIC_SIZE with 4.
  change NUMBER_OF_CAP_SETS with 3. change (1 + 4) with 5. split.
  - intros e He Hlen. destruct (Z.ltb_spec len 5); [run; repeat eexists; by left|].
    destruct (lookup_lt_is_Some_2 e 4 ltac:(lia)) as [blen Hb].
    change (Z.to_nat 4) with 4%nat. rewrite Hb.
    assert (is_byte blen) as Hbb by by eapply Forall_lookup_1 in He. unfold is_byte in Hbb.
    destruct (Z.ltb_spec len (5 + blen * 3)); [run; repeat eexists; by left|].
    destruct (decide (take 4 e = external_magic)) as [Ht|Ht].
    + assert (ext_complete e blen) as Hc.
      { split; [done|]. split; [lia|]. intros n set Hn Hs. apply lookup_lt_is_Some_2.
        unfold ext_offset, valid_set, CAP_EXT_MAGIC_SIZE, NUMBER_OF_CAP_SETS in *. lia. }
      eexists _, _. split; [by apply (cap_copy_int_run e blen)|]. right. split; [done|].
      eexists. split; [reflexivity|]. by apply imported_wf.
    + exists 0, (with_errno EINVAL w). split; [|by left]. unfold cap_copy_int.
      assert ((CAP_EXT_MAGIC_SIZE <=? Z.of_nat (length e)) = true)
        by (apply Z.leb_le; change CAP_EXT_MAGIC_SIZE with 4; lia).
      run. change (Z.to_nat CAP_EXT_MAGIC_SIZE) with 4%nat. rewrite bool_decide_false by done.
      cbn [negb]. by run.
  - intros Hlen. by destruct (Z.ltb_spec len 5); [lia|].
Qed.

End ext_ops.
