(* ===== verification/File.v ===== *)
(** libcap/cap_file.c: capabilities of files, in the byte layout of the
    security.capability extended attribute. *)

From S2P Require Import Prelude Capability World Exec Syscall Alloc Flag FlagSpec ExtInt.
From stdpp Require Import gmap strings list sets.
From Stdlib Require Import ZArith Lia.

Open Scope Z_scope.

(** ** <linux/capability.h> *)

Definition VFS_CAP_REVISION_MASK : Z := 0xFF000000.
Definition VFS_CAP_FLAGS_EFFECTIVE : Z := 0x000001.
Definition VFS_CAP_REVISION_1 : Z := 0x01000000.
Definition VFS_CAP_U32_1 : Z := 1.
Definition XATTR_CAPS_SZ_1 : Z := 4 * (1 + 2 * VFS_CAP_U32_1).
Definition VFS_CAP_REVISION_2 : Z := 0x02000000.
Definition VFS_CAP_U32_2 : Z := 2.
Definition XATTR_CAPS_SZ_2 : Z := 4 * (1 + 2 * VFS_CAP_U32_2).
Definition VFS_CAP_REVISION_3 : Z := 0x03000000.
Definition VFS_CAP_U32_3 : Z := VFS_CAP_U32_2.
Definition XATTR_CAPS_SZ_3 : Z := 4 + XATTR_CAPS_SZ_2.

(** [struct vfs_ns_cap_data] is the list of its 24 bytes. Reading a field
    through FIXUP_32BITS() decodes its four bytes as little endian, on either
    kind of machine; writing one encodes them. *)
Definition SIZEOF_RAWVFSCAP : Z := 24.
Definition OFF_MAGIC_ETC : Z := 0.
Definition OFF_PERMITTED (i : Z) : Z := 4 + 8 * i.
Definition OFF_INHERITABLE (i : Z) : Z := 8 + 8 * i.
Definition OFF_ROOTID : Z := 20.

Definition get_le32 (raw : list Z) (off : Z) : Z :=
  let b k := default 0 (raw !! Z.to_nat (off + k)) in
  join4 (b 0) (b 1) (b 2) (b 3).
Definition put_le32 (off v : Z) (raw : list Z) : list Z :=
  foldl (fun raw k => <[Z.to_nat (off + k) := byte_of v k]> raw) raw [0; 1; 2; 3].

(** ** The files, which the kernel keeps

    The attribute of a file is reached by descriptor or by path. [fs_getxattr]
    gives the result and the bytes written to the buffer of the given size;
    [fs_fstat] the result and the file's mode. *)
Inductive fileref := ByFd (fd : Z) | ByPath (path : string).

Class FileSys (K : Type) := {
  fs_open : K -> string -> bool -> Z * K;      (* O_PATH or else O_RDONLY, both O_NOFOLLOW *)
  fs_close : K -> Z -> K;
  fs_fstat : K -> Z -> Z * Z;
  fs_getxattr : K -> fileref -> Z -> Z * list Z;
  fs_setxattr : K -> fileref -> list Z -> Z * K;
  fs_removexattr : K -> fileref -> Z * K
}.

(** <sys/stat.h> *)
Definition S_IFMT : Z := 0xF000.
Definition S_ISLNK (m : Z) : bool := Z.land m S_IFMT =? 0xA000.
Definition S_ISREG (m : Z) : bool := Z.land m S_IFMT =? 0x8000.

Section file.
Context {K : Type} `{!Kernel K, !FileSys K}.
Implicit Types (w : world K) (p : Z).

Definition set_rootid (v : Z) (c : cap_struct) : cap_struct :=
  mkCap (c_mutex c) (c_version c) (c_pid c) (c_u c) v.

(** The last loops of [_fcaps_load]: block [i] from the attribute, and the
    blocks from [tocopy] on cleared. *)
Definition load_blk (raw : list Z) (effective : bool) (i : Z) (b : capblk) : capblk :=
  let b := set_flat CAP_INHERITABLE (get_le32 raw (OFF_INHERITABLE i)) b in
  let b := set_flat CAP_PERMITTED (get_le32 raw (OFF_PERMITTED i)) b in
  if effective then set_flat CAP_EFFECTIVE (Z.lor (inheritable b) (permitted b)) b else b.

Definition load_u (raw : list Z) (magic_etc tocopy : Z) (u : list capblk) : list capblk :=
  imap (fun i b =>
    if Z.of_nat i <? tocopy
    then load_blk raw (negb (Z.land magic_etc VFS_CAP_FLAGS_EFFECTIVE =? 0)) (Z.of_nat i) b
    else mkBlk 0 0 0) u.

Definition fcaps_load (raw : list Z) (result bytes : Z) : M K Z :=
  let magic_etc := get_le32 raw OFF_MAGIC_ETC in
  let rev := Z.land magic_etc VFS_CAP_REVISION_MASK in
  let finish tocopy bytes :=
    if negb (bytes =? 0) then _ ← cap_free result; mret 0
    else modify_cap result (with_u (load_u raw magic_etc tocopy));; mret result in
  if rev =? VFS_CAP_REVISION_1 then finish VFS_CAP_U32_1 (bytes - XATTR_CAPS_SZ_1)
  else if rev =? VFS_CAP_REVISION_2 then finish VFS_CAP_U32_2 (bytes - XATTR_CAPS_SZ_2)
  else if rev =? VFS_CAP_REVISION_3 then
    modify_cap result (set_rootid (get_le32 raw OFF_ROOTID));;
    finish VFS_CAP_U32_3 (bytes - XATTR_CAPS_SZ_3)
  else _ ← cap_free result; mret 0.

(** [_fcaps_save] between taking and releasing the lock: the bytes and their
    number, or [None] for the ways to EINVAL. The bytes that are not stored
    keep what the caller's stack held. *)
Definition save_words (u : list capblk) (tocopy : Z) (eff_not_zero : Z) (raw : list Z)
    : option (list Z) :=
  foldl (fun r i =>
    raw ← r;
    let b := u_blk u i in
    let raw := put_le32 (OFF_PERMITTED i) (permitted b) raw in
    let raw := put_le32 (OFF_INHERITABLE i) (inheritable b) raw in
    if negb (eff_not_zero =? 0)
       && negb (Z.land (u32_not (effective b)) (Z.lor (permitted b) (inheritable b)) =? 0)
    then None else Some raw) (Some raw) (seqZ 0 tocopy).

Definition save_data (c : cap_struct) (magic tocopy bytes : Z) (raw : list Z) : option (list Z * Z) :=
  let eff_not_zero :=
    foldl (fun e i => Z.lor e (effective (u_blk (c_u c) i))) 0 (seqZ 0 tocopy) in
  let unsupported := existsb (fun i =>
    let b := u_blk (c_u c) i in
    negb (effective b =? 0) || negb (inheritable b =? 0) || negb (permitted b =? 0))
    (seqZ tocopy (CAP_BLKS - tocopy)) in
  if unsupported then None
  else
    raw ← save_words (c_u c) tocopy eff_not_zero raw;
    Some (put_le32 OFF_MAGIC_ETC
      (if eff_not_zero =? 0 then magic else Z.lor magic VFS_CAP_FLAGS_EFFECTIVE) raw, bytes).

Definition save_locked (c : cap_struct) (raw : list Z) : option (list Z * Z) :=
  let go magic tocopy bytes :=
    if negb (c_rootid c =? 0) then
      if c_version c <? LINUX_CAPABILITY_VERSION_3 then None
      else save_data c VFS_CAP_REVISION_3 VFS_CAP_U32_3 XATTR_CAPS_SZ_3
             (put_le32 OFF_ROOTID (c_rootid c) raw)
    else save_data c magic tocopy bytes raw in
  if c_version c =? LINUX_CAPABILITY_VERSION_1
  then go VFS_CAP_REVISION_1 VFS_CAP_U32_1 XATTR_CAPS_SZ_1
  else if (c_version c =? LINUX_CAPABILITY_VERSION_2) || (c_version c =? LINUX_CAPABILITY_VERSION_3)
  then go VFS_CAP_REVISION_2 VFS_CAP_U32_2 XATTR_CAPS_SZ_2
  else None.

(** The result is -1 or 0 with the bytes and [*bytes_p]. *)
Definition fcaps_save (raw : list Z) (cap_d : Z) : M K (option (list Z * Z)) :=
  good ← good_cap_t cap_d;
  if negb good then set_errno EINVAL;; mret None
  else
    mu_lock cap_d;;
    c ← load_cap cap_d;
    match save_locked c raw with
    | None => set_errno EINVAL;; mu_unlock_return cap_d None
    | Some r => mu_unlock_return cap_d (Some r)
    end.

(** *** System calls on files *)

Definition sys_open (path : string) (o_path : bool) : M K Z := fun w =>
  let '(r, k) := fs_open (kst w) path o_path in libc_ret r (with_kst k w).
Definition sys_close (fd : Z) : M K unit := fun w =>
  (Ok tt, with_kst (fs_close (kst w) fd) w).
Definition sys_fstat (fd : Z) : M K (Z * Z) := fun w =>
  let '(r, mode) := fs_fstat (kst w) fd in (r ← libc_ret r; mret (r, mode)) w.
Definition sys_setxattr (f : fileref) (v : list Z) : M K Z := fun w =>
  let '(r, k) := fs_setxattr (kst w) f v in libc_ret r (with_kst k w).
Definition sys_removexattr (f : fileref) : M K Z := fun w =>
  let '(r, k) := fs_removexattr (kst w) f in libc_ret r (with_kst k w).

(** getxattr(2) into a buffer whose other bytes stay what they were. *)
Definition sys_getxattr (f : fileref) (raw : list Z) : M K (Z * list Z) := fun w =>
  let '(r, v) := fs_getxattr (kst w) f SIZEOF_RAWVFSCAP in
  (r ← libc_ret r; mret (r, if r <? 0 then raw else v ++ drop (length v) raw)) w.

(** The common text of cap_get_fd() and cap_get_file(); [stack] are the bytes
    that the automatic variable [rawvfscap] happens to hold. *)
Definition cap_get_ref (stack : list Z) (f : fileref) : M K Z :=
  result ← cap_init;
  if negb (result =? 0) then
    '(sizeofcaps, raw) ← sys_getxattr f stack;
    if sizeofcaps <? 4 then _ ← cap_free result; mret 0
    else fcaps_load raw result sizeofcaps
  else mret result.

Definition cap_get_fd (stack : list Z) (fildes : Z) : M K Z := cap_get_ref stack (ByFd fildes).
Definition cap_get_file (stack : list Z) (filename : string) : M K Z := cap_get_ref stack (ByPath filename).

(** (uid_t)-1 *)
Definition UID_MINUS_1 : Z := 4294967295.

Definition cap_get_nsowner (cap_d : Z) : M K Z :=
  good ← good_cap_t cap_d;
  if negb good then set_errno EINVAL;; mret UID_MINUS_1
  else
    mu_lock cap_d;;
    c ← load_cap cap_d;
    mu_unlock cap_d;;
    mret (c_rootid c).

Definition cap_set_nsowner (cap_d rootuid : Z) : M K Z :=
  good ← good_cap_t cap_d;
  if negb good then set_errno EINVAL;; mret (-1)
  else
    mu_lock cap_d;;
    modify_cap cap_d (set_rootid rootuid);;
    mu_unlock_return cap_d 0.

(** The tail of cap_set_fd() and of the slow path of cap_set_file(): remove the
    attribute, or convert the set and store it. *)
Definition put_caps (stack : list Z) (f : fileref) (cap_d : Z) : M K Z :=
  if cap_d =? 0 then sys_removexattr f
  else
    r ← fcaps_save stack cap_d;
    match r with
    | None => mret (-1)
    | Some (raw, sizeofcaps) => sys_setxattr f (take (Z.to_nat sizeofcaps) raw)
    end.

Definition cap_set_fd (stack : list Z) (fildes cap_d : Z) : M K Z :=
  '(r, mode) ← sys_fstat fildes;
  if negb (r =? 0) then mret (-1)
  else if S_ISLNK mode || negb (S_ISREG mode) then set_errno EINVAL;; mret (-1)
  else put_caps stack (ByFd fildes) cap_d.

Definition fdpath_size : Z := 64.

Definition cap_set_file (stack : list Z) (filename : string) (cap_d : Z) : M K Z :=
  fd ← sys_open filename false;
  if 0 <=? fd then
    ret ← cap_set_fd stack fd cap_d;
    sys_close fd;;
    mret ret
  else
    fd ← sys_open filename true;
    if fd <? 0 then mret (-1)
    else
      '(r, mode) ← sys_fstat fd;
      if negb (r =? 0) then sys_close fd;; mret (-1)
      else if S_ISLNK mode || negb (S_ISREG mode) then
        sys_close fd;; set_errno EINVAL;; mret (-1)
      else
        let fdpath := String.append "/proc/self/fd/" (fmt_d fd) in
        ret ← (if fdpath_size <=? Z.of_nat (String.length fdpath)
               then set_errno EINVAL;; mret (-1)
               else put_caps stack (ByPath fdpath) cap_d);
        sys_close fd;;
        mret ret.

End file.
