(* ===== verification/FileSpec.v ===== *)
(** What cap_file.c guarantees: which sets can be stored, that a stored set is
    read back, what is refused, and that no descriptor is left open. *)

From S2P Require Import Prelude Capability World Exec Syscall Alloc Flag FlagSpec ExtInt File.
From stdpp Require Import gmap strings list sets.
From Stdlib Require Import ZArith Lia.

Open Scope Z_scope.

(** ** Little-endian words inside a buffer *)

Section le32.
Implicit Types (raw rest : list Z) (off v : Z).

Lemma lookup_put_le32 off v raw k :
  0 <= off -> off + 4 <= Z.of_nat (length raw) ->
  put_le32 off v raw !! k =
    if decide (off <= Z.of_nat k < off + 4) then Some (byte_of v (Z.of_nat k - off)) else raw !! k.
Proof.
  intros H0 Hl. unfold put_le32. cbn [foldl].
  rewrite !list_lookup_insert, !length_insert.
  repeat (case_decide; [try (exfalso; lia)|]); try (exfalso; lia); try done;
  do 2 f_equal; lia.
Qed.

Lemma length_put_le32 off v raw : length (put_le32 off v raw) = length raw.
Proof. unfold put_le32. cbn [foldl]. by rewrite !length_insert. Qed.

Lemma get_put_same off v raw :
  0 <= off -> off + 4 <= Z.of_nat (length raw) -> is_u32 v -> get_le32 (put_le32 off v raw) off = v.
Proof.
  intros H0 Hl Hv. unfold get_le32. rewrite !lookup_put_le32 by done.
  repeat (rewrite decide_True by lia). simpl. rewrite <-(join4_byte_of v) at 5 by done.
  f_equal; f_equal; lia.
Qed.

Lemma get_put_other off off' v raw :
  0 <= off -> off + 4 <= Z.of_nat (length raw) -> 0 <= off' -> off' + 4 <= off \/ off + 4 <= off' ->
  get_le32 (put_le32 off v raw) off' = get_le32 raw off'.
Proof.
  intros H0 Hl H0' Hd. unfold get_le32. rewrite !lookup_put_le32 by done.
  repeat (rewrite decide_False by lia). done.
Qed.

Lemma get_take off n raw rest :
  0 <= off -> off + 4 <= Z.of_nat n -> (n <= length raw)%nat ->
  get_le32 (take n raw ++ rest) off = get_le32 raw off.
Proof.
  intros H0 Hn Hl. unfold get_le32.
  rewrite !lookup_app_l by (rewrite length_take; lia). by rewrite !lookup_take_lt by lia.
Qed.

End le32.

(** Read the words of a buffer that was written word by word. *)
Ltac get_put :=
  repeat first
    [ rewrite get_put_same by
        (rewrite ?length_put_le32; unfold OFF_MAGIC_ETC, OFF_PERMITTED, OFF_INHERITABLE, OFF_ROOTID; first [lia | done])
    | rewrite get_put_other by
        (rewrite ?length_put_le32; unfold OFF_MAGIC_ETC, OFF_PERMITTED, OFF_INHERITABLE, OFF_ROOTID; lia) ].

Lemma land_not_eq_0 e x :
  is_u32 e -> is_u32 x ->
  Z.land (u32_not e) x = 0 <-> forall b, 0 <= b < 32 -> Z.testbit x b = true -> Z.testbit e b = true.
Proof.
  intros He Hx. split.
  - intros H b Hb Hxb. apply (f_equal (fun y => Z.testbit y b)) in H.
    rewrite Z.land_spec, u32_not_spec, Hxb, Z.testbit_0_l in H by lia.
    destruct (Z.ltb_spec b 32); [|lia]. by destruct (Z.testbit e b).
  - intros H. apply u32_ext; [by apply is_u32_land_r|apply is_u32_0|]. intros b Hb.
    rewrite Z.land_spec, u32_not_spec, Z.testbit_0_l by lia.
    destruct (Z.testbit x b) eqn:E; [|by rewrite andb_false_r].
    rewrite (H b Hb E). by rewrite andb_false_r.
Qed.

(** ** Which sets a file can hold

    The effective flag of a file is one bit for all capabilities, so the
    effective set must be empty or cover the other two. *)
Definition file_ok (u : list capblk) : Prop :=
  caps_of u CAP_EFFECTIVE = ∅ \/
  caps_of u CAP_PERMITTED ∪ caps_of u CAP_INHERITABLE ⊆ caps_of u CAP_EFFECTIVE.

Section words.

Lemma caps_empty_words b0 b1 s :
  blk_wf b0 -> blk_wf b1 -> caps_of [b0; b1] s = ∅ <-> flat b0 s = 0 /\ flat b1 s = 0.
Proof.
  intros H0 H1. assert (caps_of [blk0; blk0] s = ∅) as <- by apply (caps_of_blank 2).
  rewrite caps_of_words; [|by apply u_wf_pair|apply u_wf_pair; repeat split; apply is_u32_0].
  change (u_blk [b0; b1] 0) with b0. change (u_blk [b0; b1] 1) with b1.
  change (u_blk [blk0; blk0] 0) with blk0. change (u_blk [blk0; blk0] 1) with blk0.
  assert (flat blk0 s = 0) as -> by (unfold flat; by repeat case_match). done.
Qed.

Lemma eff_zero b0 b1 :
  blk_wf b0 -> blk_wf b1 ->
  Z.lor (Z.lor 0 (effective b0)) (effective b1) = 0 <-> caps_of [b0; b1] CAP_EFFECTIVE = ∅.
Proof.
  intros H0 H1. rewrite caps_empty_words by done. rewrite Z.lor_0_l, Z.lor_eq_0_iff. done.
Qed.

Lemma cover_words b0 b1 :
  blk_wf b0 -> blk_wf b1 ->
  caps_of [b0; b1] CAP_PERMITTED ∪ caps_of [b0; b1] CAP_INHERITABLE ⊆ caps_of [b0; b1] CAP_EFFECTIVE <->
  Z.land (u32_not (effective b0)) (Z.lor (permitted b0) (inheritable b0)) = 0 /\
  Z.land (u32_not (effective b1)) (Z.lor (permitted b1) (inheritable b1)) = 0.
Proof.
  intros (He0&Hp0&Hi0) (He1&Hp1&Hi1). rewrite !land_not_eq_0 by auto with words.
  split.
  - intros H. assert (forall i b, 0 <= i < 2 -> 0 <= b < 32 ->
      Z.testbit (flat (u_blk [b0; b1] i) CAP_PERMITTED) b = true \/
      Z.testbit (flat (u_blk [b0; b1] i) CAP_INHERITABLE) b = true ->
      Z.testbit (flat (u_blk [b0; b1] i) CAP_EFFECTIVE) b = true) as Hb.
    { intros i b Hi Hb Hor. destruct (cap_join i b Hi Hb) as (Hv & Hidx & Hbit).
      specialize (H (32 * i + b)). rewrite elem_of_union, !elem_of_caps_of in H. unfold has_cap in H.
      rewrite Hidx, Hbit in H. tauto. }
    split; intros b Hbb Ht; rewrite Z.lor_spec, orb_true_iff in Ht;
      [apply (Hb 0 b)|apply (Hb 1 b)]; try lia; done.
  - intros [H0 H1] x. rewrite elem_of_union, !elem_of_caps_of. unfold has_cap.
    pose proof (land31_bound x) as Hl.
    destruct (decide (valid_cap x)) as [Hx|]; [|tauto].
    specialize (H0 _ Hl). specialize (H1 _ Hl). rewrite Z.lor_spec, orb_true_iff in H0, H1.
    destruct (index_bound x Hx) as [-> | ->]; [change (u_blk [b0; b1] 0) with b0|change (u_blk [b0; b1] 1) with b1];
    [change (flat b0 CAP_EFFECTIVE) with (effective b0); change (flat b0 CAP_PERMITTED) with (permitted b0);
     change (flat b0 CAP_INHERITABLE) with (inheritable b0)
    |change (flat b1 CAP_EFFECTIVE) with (effective b1); change (flat b1 CAP_PERMITTED) with (permitted b1);
     change (flat b1 CAP_INHERITABLE) with (inheritable b1)]; tauto.
Qed.

End words.

(** The four words of the attribute. *)
Definition put_words (b0 b1 : capblk) (raw : list Z) : list Z :=
  put_le32 (OFF_INHERITABLE 1) (inheritable b1) (put_le32 (OFF_PERMITTED 1) (permitted b1)
    (put_le32 (OFF_INHERITABLE 0) (inheritable b0) (put_le32 (OFF_PERMITTED 0) (permitted b0) raw))).

(** The bytes that are stored for a version 2 or 3 set. *)
Definition stored (c : cap_struct) (b0 b1 : capblk) (raw : list Z) : list Z :=
  let magic := if c_rootid c =? 0 then VFS_CAP_REVISION_2 else VFS_CAP_REVISION_3 in
  put_le32 OFF_MAGIC_ETC
    (if bool_decide (caps_of [b0; b1] CAP_EFFECTIVE = ∅) then magic else Z.lor magic VFS_CAP_FLAGS_EFFECTIVE)
    (put_words b0 b1 (if c_rootid c =? 0 then raw else put_le32 OFF_ROOTID (c_rootid c) raw)).

Definition stored_size (c : cap_struct) : Z :=
  if c_rootid c =? 0 then XATTR_CAPS_SZ_2 else XATTR_CAPS_SZ_3.

Lemma save_data_2 c magic n b0 b1 raw :
  c_u c = [b0; b1] -> blk_wf b0 -> blk_wf b1 ->
  save_data c magic 2 n raw =
    if decide (file_ok [b0; b1]) then
      Some (put_le32 OFF_MAGIC_ETC (if bool_decide (caps_of [b0; b1] CAP_EFFECTIVE = ∅) then magic
                                    else Z.lor magic VFS_CAP_FLAGS_EFFECTIVE) (put_words b0 b1 raw), n)
    else None.
Proof.
  intros Hu H0 H1. unfold save_data, save_words. rewrite Hu.
  change (seqZ 2 (CAP_BLKS - 2)) with (@nil Z). change (seqZ 0 2) with [0; 1].
  cbn [existsb foldl mbind option_bind].
  change (u_blk [b0; b1] 0) with b0. change (u_blk [b0; b1] 1) with b1.
  pose proof (eff_zero b0 b1 H0 H1) as Hz. pose proof (cover_words b0 b1 H0 H1) as Hc.
  unfold file_ok. set (e := Z.lor (Z.lor 0 (effective b0)) (effective b1)) in *.
  destruct (Z.eqb_spec e 0) as [E|E]; cbn [negb andb].
  - assert (caps_of [b0; b1] CAP_EFFECTIVE = ∅) as HE by tauto.
    rewrite decide_True, bool_decide_true by tauto. done.
  - assert (caps_of [b0; b1] CAP_EFFECTIVE <> ∅) as HE by tauto.
    rewrite (bool_decide_false (_ = ∅)) by done.
    destruct (Z.eqb_spec (Z.land (u32_not (effective b0)) (Z.lor (permitted b0) (inheritable b0))) 0),
      (Z.eqb_spec (Z.land (u32_not (effective b1)) (Z.lor (permitted b1) (inheritable b1))) 0);
      cbn [negb mbind option_bind]; case_decide; tauto.
Qed.

Lemma save_locked_23 c b0 b1 raw :
  c_version c = LINUX_CAPABILITY_VERSION_3 \/ (c_version c = LINUX_CAPABILITY_VERSION_2 /\ c_rootid c = 0) ->
  c_u c = [b0; b1] -> blk_wf b0 -> blk_wf b1 ->
  save_locked c raw = if decide (file_ok (c_u c)) then Some (stored c b0 b1 raw, stored_size c) else None.
Proof.
  intros Hv Hu H0 H1. unfold save_locked, stored, stored_size. rewrite Hu.
  destruct Hv as [->|[-> Hr]].
  - change (LINUX_CAPABILITY_VERSION_3 =? LINUX_CAPABILITY_VERSION_1) with false.
    change ((LINUX_CAPABILITY_VERSION_3 =? LINUX_CAPABILITY_VERSION_2) ||
      (LINUX_CAPABILITY_VERSION_3 =? LINUX_CAPABILITY_VERSION_3)) with true.
    change (LINUX_CAPABILITY_VERSION_3 <? LINUX_CAPABILITY_VERSION_3) with false. cbv iota.
    destruct (c_rootid c =? 0); cbn [negb]; change VFS_CAP_U32_2 with 2; change VFS_CAP_U32_3 with 2;
      by rewrite (save_data_2 _ _ _ b0 b1) by done.
  - change (LINUX_CAPABILITY_VERSION_2 =? LINUX_CAPABILITY_VERSION_1) with false.
    change ((LINUX_CAPABILITY_VERSION_2 =? LINUX_CAPABILITY_VERSION_2) ||
      (LINUX_CAPABILITY_VERSION_2 =? LINUX_CAPABILITY_VERSION_3)) with true. cbv iota.
    rewrite Hr. cbn [Z.eqb negb]. change VFS_CAP_U32_2 with 2. by rewrite (save_data_2 _ _ _ b0 b1) by done.
Qed.

(** ** Loading what was stored *)

Lemma get_le32_u32 raw off : Forall is_byte raw -> is_u32 (get_le32 raw off).
Proof.
  intros H. unfold get_le32. apply is_u32_join4. destruct (raw !! _) eqn:E; simpl; [|unfold is_byte; lia].
  by eapply Forall_lookup_1 in H.
Qed.

(** The words a file capability attribute of revision 2 or 3 stands for, on top
    of the effective set that the loaded object had. *)
Definition loaded (magic_etc : Z) (b0 b1 : capblk) : list capblk :=
  let eff := negb (Z.land magic_etc VFS_CAP_FLAGS_EFFECTIVE =? 0) in
  map (fun b => mkBlk (if eff then Z.lor (inheritable b) (permitted b) else 0) (permitted b) (inheritable b))
    [b0; b1].

Lemma loaded_wf magic_etc b0 b1 : blk_wf b0 -> blk_wf b1 -> u_wf (loaded magic_etc b0 b1).
Proof.
  intros (?&?&?) (?&?&?). unfold loaded. cbv zeta.
  assert (forall (b : bool) x y, is_u32 x -> is_u32 y -> is_u32 (if b then Z.lor x y else 0)) as Hb
    by (intros []; auto with words).
  apply u_wf_pair; (split; [by apply Hb|split]); assumption.
Qed.

Lemma caps_of_loaded magic_etc b0 b1 s :
  blk_wf b0 -> blk_wf b1 -> valid_set s ->
  caps_of (loaded magic_etc b0 b1) s =
    if s =? CAP_EFFECTIVE then
      if Z.land magic_etc VFS_CAP_FLAGS_EFFECTIVE =? 0 then ∅
      else caps_of [b0; b1] CAP_PERMITTED ∪ caps_of [b0; b1] CAP_INHERITABLE
    else caps_of [b0; b1] s.
Proof.
  intros H0 H1 Hs. unfold valid_set, NUMBER_OF_CAP_SETS in Hs. apply set_eq. intros x.
  assert (forall i, i = 0 \/ i = 1 -> flat (u_blk (loaded magic_etc b0 b1) i) s =
    if s =? CAP_EFFECTIVE then
      if Z.land magic_etc VFS_CAP_FLAGS_EFFECTIVE =? 0 then 0
      else Z.lor (flat (u_blk [b0; b1] i) CAP_INHERITABLE) (flat (u_blk [b0; b1] i) CAP_PERMITTED)
    else flat (u_blk [b0; b1] i) s) as Hf.
  { intros i Hi. assert (s = 0 \/ s = 1 \/ s = 2) as [->|[->| ->]] by lia; destruct Hi as [->| ->];
      unfold loaded; by destruct (Z.land _ _ =? 0). }
  destruct (decide (valid_cap x)) as [Hx|Hx].
  - pose proof (index_bound x Hx) as Hi. rewrite elem_of_caps_of. unfold has_cap. rewrite Hf by done.
    destruct (s =? CAP_EFFECTIVE); [|rewrite elem_of_caps_of; done].
    destruct (Z.land magic_etc VFS_CAP_FLAGS_EFFECTIVE =? 0).
    + rewrite Z.testbit_0_l, elem_of_empty. intuition congruence.
    + rewrite Z.lor_spec, orb_true_iff, elem_of_union, !elem_of_caps_of. unfold has_cap. tauto.
  - repeat case_match; rewrite ?elem_of_union, ?elem_of_empty, !elem_of_caps_of; tauto.
Qed.

Section file_ops.
Context {K : Type} `{!Kernel K, !FileSys K}.
Implicit Types (w : world K) (p q : Z) (c : cap_struct).

(** cap_file.c loads into a set that cap_init() has just made. *)
Definition fresh_cap (c : cap_struct) : Prop := exists v pid r, c = mkCap false v pid [blk0; blk0] r.

Lemma fcaps_load_run raw q v pid r bytes w :
  heap w !! q = Some (OCap (mkCap false v pid [blk0; blk0] r)) ->
  let magic_etc := get_le32 raw OFF_MAGIC_ETC in
  let b i := mkBlk 0 (get_le32 raw (OFF_PERMITTED i)) (get_le32 raw (OFF_INHERITABLE i)) in
  (Z.land magic_etc VFS_CAP_REVISION_MASK = VFS_CAP_REVISION_2 -> bytes = XATTR_CAPS_SZ_2 ->
   fcaps_load raw q bytes w =
     (Ok q, with_heap (<[q := OCap (mkCap false v pid (loaded magic_etc (b 0) (b 1)) r)]> (heap w)) w)) /\
  (Z.land magic_etc VFS_CAP_REVISION_MASK = VFS_CAP_REVISION_3 -> bytes = XATTR_CAPS_SZ_3 ->
   fcaps_load raw q bytes w =
     (Ok q, with_heap (<[q := OCap (mkCap false v pid (loaded magic_etc (b 0) (b 1))
        (get_le32 raw OFF_ROOTID))]> (heap w)) w)).
Proof.
  intros Hq magic_etc b. unfold fcaps_load. fold magic_etc.
  assert (load_u raw magic_etc 2 [blk0; blk0] = loaded magic_etc (b 0) (b 1)) as Hl.
  { unfold load_u, loaded, load_blk. subst b. cbn [imap map].
    by destruct (Z.land magic_etc VFS_CAP_FLAGS_EFFECTIVE =? 0). }
  split; intros -> ->.
  - change (VFS_CAP_REVISION_2 =? VFS_CAP_REVISION_1) with false.
    change (VFS_CAP_REVISION_2 =? VFS_CAP_REVISION_2) with true. rewrite Z.sub_diag. cbn [Z.eqb negb].
    run. rewrite ret_run. unfold with_u; cbn [c_mutex c_version c_pid c_u c_rootid].
    change VFS_CAP_U32_2 with 2. by rewrite Hl.
  - change (VFS_CAP_REVISION_3 =? VFS_CAP_REVISION_1) with false.
    change (VFS_CAP_REVISION_3 =? VFS_CAP_REVISION_2) with false.
    change (VFS_CAP_REVISION_3 =? VFS_CAP_REVISION_3) with true. rewrite Z.sub_diag. cbn [Z.eqb negb].
    run. rewrite ret_run. unfold with_u, set_rootid; cbn [c_mutex c_version c_pid c_u c_rootid].
    change VFS_CAP_U32_3 with 2. rewrite Hl. by rewrite insert_insert_eq.
Qed.

(** A revision libcap does not know, or a size that does not fit the revision:
    the new set is released. *)
Definition attr_ok (raw : list Z) (bytes : Z) : Prop :=
  let rev := Z.land (get_le32 raw OFF_MAGIC_ETC) VFS_CAP_REVISION_MASK in
  (rev = VFS_CAP_REVISION_1 /\ bytes = XATTR_CAPS_SZ_1) \/
  (rev = VFS_CAP_REVISION_2 /\ bytes = XATTR_CAPS_SZ_2) \/
  (rev = VFS_CAP_REVISION_3 /\ bytes = XATTR_CAPS_SZ_3).

Lemma fcaps_load_bad raw q v pid r bytes w :
  q <> 0 -> q mod 16 = 8 -> heap w !! q = Some (OCap (mkCap false v pid [blk0; blk0] r)) ->
  ~ attr_ok raw bytes ->
  fcaps_load raw q bytes w = (Ok 0, with_heap (delete q (heap w)) w).
Proof.
  intros H0 Ha Hq Hbad. unfold fcaps_load, attr_ok in *.
  set (rev := Z.land _ VFS_CAP_REVISION_MASK) in *.
  assert (cap_free q w = (Ok 0, with_heap (delete q (heap w)) w)) as Hfree
    by (eapply cap_free_copy; done).
  assert (forall r', cap_free q (with_heap (<[q:=OCap (mkCap false v pid [blk0; blk0] r')]> (heap w)) w)
    = (Ok 0, with_heap (delete q (heap w)) w)) as Hfree'.
  { intros r0. erewrite cap_free_copy; [|done..|by wsimpl; rewrite lookup_insert_eq|done].
    f_equal. world_eq. }
  destruct (Z.eqb_spec rev VFS_CAP_REVISION_1); [|destruct (Z.eqb_spec rev VFS_CAP_REVISION_2);
    [|destruct (Z.eqb_spec rev VFS_CAP_REVISION_3)]].
  - destruct (Z.eqb_spec (bytes - XATTR_CAPS_SZ_1) 0); [exfalso; apply Hbad; left; split; [done|lia]|].
    cbn [negb]. by run.
  - destruct (Z.eqb_spec (bytes - XATTR_CAPS_SZ_2) 0); [exfalso; apply Hbad; right; left; split; [done|lia]|].
    cbn [negb]. by run.
  - destruct (Z.eqb_spec (bytes - XATTR_CAPS_SZ_3) 0); [exfalso; apply Hbad; right; right; split; [done|lia]|].
    cbn [negb]. unfold set_rootid. by run.
  - by run.
Qed.

Lemma fcaps_save_run stack p c b0 b1 w :
  world_wf w -> heap w !! p = Some (OCap c) -> c_mutex c = false ->
  c_version c = LINUX_CAPABILITY_VERSION_3 \/ (c_version c = LINUX_CAPABILITY_VERSION_2 /\ c_rootid c = 0) ->
  c_u c = [b0; b1] ->
  fcaps_save stack p w =
    if decide (file_ok (c_u c)) then (Ok (Some (stored c b0 b1 stack, stored_size c)), w)
    else (Ok None, with_errno EINVAL w).
Proof.
  intros Hw Hp Hc Hv Hu. destruct (live_cap _ _ _ Hw Hp) as [Hwf Hm].
  rewrite Hu in Hwf. apply u_wf_inv in Hwf as (?&?&[= <- <-]&H0&H1).
  unfold fcaps_save. run. rewrite Hm. cbn [negb]. run.
  rewrite (save_locked_23 _ b0 b1) by done. cbn [c_u cap_with_mutex]. case_decide.
  - unfold mu_unlock_return. run. rewrite ret_run. f_equal. apply with_heap_restore. heap_eq.
  - unfold mu_unlock_return. run. rewrite ret_run. f_equal.
    unfold with_heap, with_errno; cbn [heap]; f_equal. heap_eq.
Qed.

End file_ops.

(** ** The documented behaviour of the file system that the theorems rely on *)

Class FileSysLaws (K : Type) {F : FileSys K} := {
  (** an attribute that was set is what getxattr(2) then reads *)
  law_get_set : forall (k k' : K) fd v n,
    fs_setxattr k (ByFd fd) v = (0, k') -> Z.of_nat (length v) <= n ->
    fs_getxattr k' (ByFd fd) n = (Z.of_nat (length v), v);
  (** the open descriptors, and what open(2), close(2) and the rest do to them *)
  open_fds : K -> gset Z;
  law_open : forall k path o r k', fs_open k path o = (r, k') ->
    (r < 0 -> open_fds k' = open_fds k) /\
    (0 <= r -> ~ (r ∈ open_fds k) /\ open_fds k' = {[r]} ∪ open_fds k);
  law_close : forall k fd, open_fds (fs_close k fd) = open_fds k ∖ {[fd]};
  law_set : forall k f v, open_fds (snd (fs_setxattr k f v)) = open_fds k;
  law_remove : forall k f, open_fds (snd (fs_removexattr k f)) = open_fds k
}.

Section roundtrip.
Context {K : Type} `{!Kernel K, !FileSys K, !FileSysLaws K}.
Implicit Types (w : world K) (p q : Z) (c : cap_struct).

Lemma length_put_words b0 b1 raw : length (put_words b0 b1 raw) = length raw.
Proof. unfold put_words. by rewrite !length_put_le32. Qed.

Lemma length_stored c b0 b1 raw : length (stored c b0 b1 raw) = length raw.
Proof.
  unfold stored. rewrite length_put_le32, length_put_words.
  destruct (c_rootid c =? 0); [done|]. by rewrite length_put_le32.
Qed.

Lemma get_stored c b0 b1 raw :
  length raw = 24%nat -> blk_wf b0 -> blk_wf b1 -> is_u32 (c_rootid c) ->
  get_le32 (stored c b0 b1 raw) OFF_MAGIC_ETC =
    (let magic := if c_rootid c =? 0 then VFS_CAP_REVISION_2 else VFS_CAP_REVISION_3 in
     if bool_decide (caps_of [b0; b1] CAP_EFFECTIVE = ∅) then magic else Z.lor magic VFS_CAP_FLAGS_EFFECTIVE) /\
  get_le32 (stored c b0 b1 raw) (OFF_PERMITTED 0) = permitted b0 /\
  get_le32 (stored c b0 b1 raw) (OFF_INHERITABLE 0) = inheritable b0 /\
  get_le32 (stored c b0 b1 raw) (OFF_PERMITTED 1) = permitted b1 /\
  get_le32 (stored c b0 b1 raw) (OFF_INHERITABLE 1) = inheritable b1 /\
  (c_rootid c <> 0 -> get_le32 (stored c b0 b1 raw) OFF_ROOTID = c_rootid c).
Proof.
  intros Hl (?&?&?) (?&?&?) Hr. unfold stored, put_words.
  assert (forall b : bool, is_u32 (if b then VFS_CAP_REVISION_2 else VFS_CAP_REVISION_3)) as Hm
    by (intros []; done).
  assert (forall b : bool, is_u32 (Z.lor (if b then VFS_CAP_REVISION_2 else VFS_CAP_REVISION_3) VFS_CAP_FLAGS_EFFECTIVE)) as Hm'
    by (intros []; done).
  assert (length (if c_rootid c =? 0 then raw else put_le32 OFF_ROOTID (c_rootid c) raw) = 24%nat) as Hl'
    by (case_match; by rewrite ?length_put_le32).
  split_and!.
  - cbv zeta. rewrite get_put_same; [done|done|rewrite !length_put_le32, Hl'; unfold OFF_MAGIC_ETC; lia|].
    case_bool_decide; [apply Hm|apply Hm'].
  - destruct (c_rootid c =? 0); by get_put.
  - destruct (c_rootid c =? 0); by get_put.
  - destruct (c_rootid c =? 0); by get_put.
  - destruct (c_rootid c =? 0); by get_put.
  - intros Hne. apply Z.eqb_neq in Hne. rewrite Hne in *. by get_put.
Qed.

Lemma get_loaded_word c b0 b1 raw rest off :
  length raw = 24%nat -> 0 <= off -> off + 4 <= stored_size c ->
  get_le32 (take (Z.to_nat (stored_size c)) (stored c b0 b1 raw) ++ rest) off =
    get_le32 (stored c b0 b1 raw) off.
Proof.
  intros Hl H0 Ho. assert (stored_size c = 20 \/ stored_size c = 24) as Hs
    by (unfold stored_size; case_match; [by left|by right]).
  apply get_take; [done|lia|rewrite length_stored; lia].
Qed.

(** What getxattr(2) and _fcaps_load() make of the stored bytes. *)
Lemma fcaps_load_stored c b0 b1 raw rest q v pid w :
  length raw = 24%nat -> c_u c = [b0; b1] -> blk_wf b0 -> blk_wf b1 -> is_u32 (c_rootid c) ->
  heap w !! q = Some (OCap (mkCap false v pid [blk0; blk0] 0)) ->
  exists u, fcaps_load (take (Z.to_nat (stored_size c)) (stored c b0 b1 raw) ++ rest) q (stored_size c) w =
      (Ok q, with_heap (<[q := OCap (mkCap false v pid u (c_rootid c))]> (heap w)) w) /\
    u_wf u /\ forall s, valid_set s -> caps_of u s =
      if s =? CAP_EFFECTIVE then
        if decide (caps_of (c_u c) CAP_EFFECTIVE = ∅) then ∅
        else caps_of (c_u c) CAP_PERMITTED ∪ caps_of (c_u c) CAP_INHERITABLE
      else caps_of (c_u c) s.
Proof.
  intros Hl Hu H0 H1 Hr Hq.
  destruct (get_stored c b0 b1 raw Hl H0 H1 Hr) as (Hm&Hp0&Hi0&Hp1&Hi1&Hrt).
  set (raw' := take _ _ ++ rest).
  assert (forall off, 0 <= off -> off + 4 <= 20 -> get_le32 raw' off = get_le32 (stored c b0 b1 raw) off) as Hg.
  { intros. apply get_loaded_word; [done..|]. unfold stored_size. case_match; change XATTR_CAPS_SZ_2 with 20;
    change XATTR_CAPS_SZ_3 with 24; lia. }
  destruct (fcaps_load_run raw' q v pid 0 (stored_size c) w Hq) as [L2 L3].
  rewrite !Hg, Hm, Hp0, Hi0, Hp1, Hi1 in L2 by (unfold OFF_MAGIC_ETC, OFF_PERMITTED, OFF_INHERITABLE; lia).
  rewrite !Hg, Hm, Hp0, Hi0, Hp1, Hi1 in L3 by (unfold OFF_MAGIC_ETC, OFF_PERMITTED, OFF_INHERITABLE; lia).
  cbv zeta in L2, L3. set (m := if bool_decide _ then _ else _) in *.
  exists (loaded m (mkBlk 0 (permitted b0) (inheritable b0)) (mkBlk 0 (permitted b1) (inheritable b1))).
  assert (c_rootid c <> 0 -> get_le32 raw' OFF_ROOTID = c_rootid c) as Hroot.
  { intros E. etrans; [apply get_loaded_word|by apply Hrt]; [done|done|].
    unfold stored_size. apply Z.eqb_neq in E. by rewrite E. }
  destruct H0 as (He0&?&?), H1 as (He1&?&?).
  assert (blk_wf (mkBlk 0 (permitted b0) (inheritable b0))) as Hz0 by (split; [apply is_u32_0|by split]).
  assert (blk_wf (mkBlk 0 (permitted b1) (inheritable b1))) as Hz1 by (split; [apply is_u32_0|by split]).
  split; [|split].
  - unfold stored_size in *. destruct (Z.eqb_spec (c_rootid c) 0) as [E|E].
    + rewrite E. apply L2; [|done]. subst m. by case_bool_decide.
    + rewrite L3; [|subst m; by case_bool_decide|done]. by rewrite Hroot.
  - by apply loaded_wf.
  - intros s Hs. rewrite caps_of_loaded by done.
    assert (forall s', s' = CAP_PERMITTED \/ s' = CAP_INHERITABLE ->
      caps_of [mkBlk 0 (permitted b0) (inheritable b0); mkBlk 0 (permitted b1) (inheritable b1)] s' =
      caps_of (c_u c) s') as Hsame.
    { intros s' Hs'. rewrite Hu. apply caps_of_words;
        [by apply u_wf_pair..|].
      by destruct Hs' as [->| ->]. }
    rewrite !Hsame by tauto. destruct (Z.eqb_spec s CAP_EFFECTIVE) as [->|Hne].
    + subst m. rewrite Hu. case_bool_decide; case_decide; try done;
      by destruct (c_rootid c =? 0).
    + apply Hsame. unfold valid_set, NUMBER_OF_CAP_SETS, CAP_EFFECTIVE, CAP_PERMITTED, CAP_INHERITABLE in *. lia.
Qed.

(** The effective flag that a file gives back. *)
Definition file_caps (u : list capblk) (s : Z) : gset Z :=
  if s =? CAP_EFFECTIVE then
    if decide (caps_of u CAP_EFFECTIVE = ∅) then ∅
    else caps_of u CAP_PERMITTED ∪ caps_of u CAP_INHERITABLE
  else caps_of u s.

Lemma libc_ret_0 w : libc_ret 0 w = (Ok 0, w).
Proof. done. Qed.

Lemma put_caps_run stack f p c b0 b1 k' w :
  world_wf w -> heap w !! p = Some (OCap c) -> c_mutex c = false ->
  c_version c = LINUX_CAPABILITY_VERSION_3 -> c_u c = [b0; b1] -> file_ok (c_u c) ->
  fs_setxattr (kst w) f (take (Z.to_nat (stored_size c)) (stored c b0 b1 stack)) = (0, k') ->
  put_caps stack f p w = (Ok 0, with_kst k' w).
Proof.
  intros Hw Hp Hc Hv Hu Hok Hset. unfold put_caps.
  destruct (Z.eqb_spec p 0) as [E|_]; [by apply (wf_ne_0 _ _ _ Hw Hp) in E|].
  pose proof (fcaps_save_run stack p c b0 b1 w Hw Hp Hc (or_introl Hv) Hu) as Hs.
  rewrite decide_True in Hs by done. rewrite (bind_ok _ _ _ _ _ Hs).
  unfold sys_setxattr. by rewrite Hset.
Qed.

(** C12 cap_set_fd() on a regular file stores a version 3 set whose effective
    flag is empty or covers the other two, and cap_get_fd() of the same file
    then makes a set with the same permitted and inheritable capabilities, the
    same owner of its user namespace, and - the file has a single effective bit
    - all of them effective if any was. The set that was stored is untouched. *)
Theorem file_roundtrip stack stack' fd p c k' w mode :
  world_wf w -> heap w !! p = Some (OCap c) -> c_mutex c = false ->
  c_version c = LINUX_CAPABILITY_VERSION_3 -> is_u32 (c_rootid c) -> file_ok (c_u c) ->
  length stack = 24%nat -> length stack' = 24%nat ->
  fs_fstat (kst w) fd = (0, mode) -> S_ISREG mode = true ->
  (forall v, fs_setxattr (kst w) (ByFd fd) v = (0, k' v) /\ capget_probe_ok (k' v)) ->
  mem_ok w ->
  exists w1, cap_set_fd stack fd p w = (Ok 0, w1) /\ heap w1 = heap w /\
  exists q w2 c', cap_get_fd stack' fd w1 = (Ok q, w2) /\
    heap w !! q = None /\ heap w2 = <[q := OCap c']> (heap w) /\ world_wf w2 /\
    c_rootid c' = c_rootid c /\
    forall s, valid_set s -> caps_of (c_u c') s = file_caps (c_u c) s.
Proof.
  intros Hw Hp Hc Hv Hr Hok Hl Hl' Hst Hreg Hset Hmem.
  destruct (live_cap _ _ _ Hw Hp) as [Hwf Hm].
  destruct (u_wf_inv _ Hwf) as (b0&b1&Hu&H0&H1).
  set (v := take (Z.to_nat (stored_size c)) (stored c b0 b1 stack)).
  destruct (Hset v) as [Hv' Hk'].
  assert (S_ISLNK mode = false) as Hlnk.
  { unfold S_ISLNK, S_ISREG in *. apply Z.eqb_eq in Hreg. by rewrite Hreg. }
  exists (with_kst (k' v) w). split; [|split; [done|]].
  { unfold cap_set_fd, sys_fstat. erewrite bind_ok; [|by rewrite Hst].
    cbn [Z.eqb negb]. rewrite Hlnk, Hreg. cbn [negb orb]. by eapply put_caps_run. }
  set (w1 := with_kst (k' v) w). assert (world_wf w1) as Hw1 by (destruct Hw; by split).
  assert (length v = Z.to_nat (stored_size c)) as Hlen.
  { subst v. rewrite length_take, length_stored, Hl. unfold stored_size. by case_match. }
  assert (stored_size c = 20 \/ stored_size c = 24) as Hsz
    by (unfold stored_size; case_match; [by left|by right]).
  unfold cap_get_fd, cap_get_ref.
  pose proof (cap_init_run w1 (wf_next_ne_0 _ Hw1) Hmem Hk') as Hinit.
  pose proof (wf_next_ne_0 _ Hw1) as Hn0.
  set (w2 := placed (OCap cap_blank) w1).
  pose proof (law_get_set (kst w) (k' v) fd v SIZEOF_RAWVFSCAP Hv'
    ltac:(change SIZEOF_RAWVFSCAP with 24; lia)) as Hget.
  assert (sys_getxattr (ByFd fd) stack' w2 = (Ok (stored_size c, v ++ drop (length v) stack'), w2)) as Hgx.
  { unfold sys_getxattr. change (kst w2) with (k' v). rewrite Hget, Hlen.
    rewrite Z2Nat.id by lia. erewrite bind_ok; [|apply libc_ret_ok; lia].
    destruct (Z.ltb_spec (stored_size c) 0); [lia|]. done. }
  destruct (fcaps_load_stored c b0 b1 stack (drop (length v) stack') (next w1) LINUX_CAPABILITY_VERSION_3 0 w2)
    as (u & Hload & Huwf & Hcaps); [done..|apply lookup_insert_eq|].
  exists (next w1), (with_heap (<[next w1 := OCap (mkCap false LINUX_CAPABILITY_VERSION_3 0 u (c_rootid c))]> (heap w2)) w2).
  exists (mkCap false LINUX_CAPABILITY_VERSION_3 0 u (c_rootid c)). split_and!.
  - rewrite (bind_ok _ _ _ _ _ Hinit). destruct (Z.eqb_spec (next w1) 0); [done|]. cbn [negb].
    rewrite (bind_ok _ _ _ _ _ Hgx). destruct (Z.ltb_spec (stored_size c) 4); [lia|]. exact Hload.
  - by apply (wf_fresh w1).
  - subst w2. wsimpl. by rewrite insert_insert_eq.
  - eapply world_wf_insert; [|apply lookup_insert_eq|done].
    apply world_wf_placed; [done|]. split; [done|]. by apply (u_wf_pair blk0 blk0).
  - done.
  - intros s Hs. rewrite Hcaps by done. done.
Qed.

(** _fcaps_save() of a version 3 set succeeds exactly when the effective
    flag is empty or covers the permitted and the inheritable one; otherwise it
    fails with EINVAL. Either way the set is unchanged and unlocked. A version
    2 set with a namespace owner is refused too. *)
Theorem fcaps_save_correct stack p c w :
  world_wf w -> heap w !! p = Some (OCap c) -> c_mutex c = false ->
  (c_version c = LINUX_CAPABILITY_VERSION_3 ->
     (file_ok (c_u c) -> exists raw n, fcaps_save stack p w = (Ok (Some (raw, n)), w) /\
        n = (if c_rootid c =? 0 then XATTR_CAPS_SZ_2 else XATTR_CAPS_SZ_3) /\ length raw = length stack) /\
     (~ file_ok (c_u c) -> fcaps_save stack p w = (Ok None, with_errno EINVAL w))) /\
  (c_version c = LINUX_CAPABILITY_VERSION_2 -> c_rootid c <> 0 ->
     fcaps_save stack p w = (Ok None, with_errno EINVAL w)).
Proof.
  intros Hw Hp Hc. destruct (live_cap _ _ _ Hw Hp) as [Hwf Hm].
  destruct (u_wf_inv _ Hwf) as (b0&b1&Hu&H0&H1). split.
  - intros Hv. pose proof (fcaps_save_run stack p c b0 b1 w Hw Hp Hc (or_introl Hv) Hu) as Hs.
    rewrite Hs. split; intros Hok.
    + rewrite decide_True by done. eexists _, _. split; [done|]. split; [done|]. apply length_stored.
    + by rewrite decide_False.
  - intros Hv Hr%Z.eqb_neq. unfold fcaps_save. run. rewrite Hm. cbn [negb]. run.
    assert (save_locked (cap_with_mutex true c) stack = None) as ->.
    { unfold save_locked. cbn [c_version c_rootid cap_with_mutex]. by rewrite Hv, Hr. }
    unfold mu_unlock_return. run. rewrite ret_run. f_equal.
    unfold with_heap, with_errno; cbn [heap]; f_equal. heap_eq.
Qed.

(** cap_get_fd() and cap_get_file() on a file without the attribute, or with
    one of an unknown revision or of a size that does not fit its revision,
    return NULL and release the set they had made. In the first case errno is
    the system call's; in the second it is left as it was. *)
Theorem cap_get_file_errors stack f w r v :
  world_wf w -> mem_ok w -> capget_probe_ok (kst w) ->
  fs_getxattr (kst w) f SIZEOF_RAWVFSCAP = (r, v) ->
  (r < 0 -> cap_get_ref stack f w = (Ok 0, with_errno (- r) (spent w))) /\
  (4 <= r -> ~ attr_ok (v ++ drop (length v) stack) r -> cap_get_ref stack f w = (Ok 0, spent w)).
Proof.
  intros Hw Hm Hk Hg. unfold cap_get_ref. pose proof (wf_next_ne_0 _ Hw) as Hn0.
  pose proof (wf_fresh _ Hw) as Hf. pose proof (wf_next _ Hw) as [_ Hal].
  rewrite (bind_ok _ _ _ _ _ (cap_init_run _ Hn0 Hm Hk)).
  destruct (Z.eqb_spec (next w) 0); [done|]. cbn [negb].
  set (w1 := placed (OCap cap_blank) w).
  assert (heap w1 !! next w = Some (OCap cap_blank)) as Hq by (apply lookup_insert_eq).
  split.
  - intros Hr. unfold sys_getxattr. erewrite bind_ok; [|change (kst w1) with (kst w); rewrite Hg;
      unfold libc_ret; destruct (Z.ltb_spec r 0); [reflexivity|lia]]. cbn [Z.ltb Z.compare].
    set (w2 := with_errno (- r) w1).
    assert (cap_free (next w) w2 = (Ok 0, with_heap (delete (next w) (heap w2)) w2)) as Hfree
      by (eapply cap_free_copy; done).
    rewrite (bind_ok _ _ _ _ _ Hfree), ret_run. f_equal. subst w2 w1. world_eq.
  - intros Hr Hbad.
    assert (sys_getxattr f stack w1 = (Ok (r, v ++ drop (length v) stack), w1)) as Hgx.
    { unfold sys_getxattr. change (kst w1) with (kst w). rewrite Hg.
      erewrite bind_ok; [|apply libc_ret_ok; lia]. by destruct (Z.ltb_spec r 0); [lia|]. }
    rewrite (bind_ok _ _ _ _ _ Hgx).
    destruct (Z.ltb_spec r 4); [lia|].
    rewrite (fcaps_load_bad _ (next w) LINUX_CAPABILITY_VERSION_3 0 0) by done.
    f_equal. subst w1. world_eq.
Qed.

(** *** Descriptors *)

(** A world in which only the kernel and errno moved, the open descriptors
    being [fds]. *)
Definition kernel_step (fds : gset Z) w w' : Prop :=
  open_fds (kst w') = fds /\ exists e k, w' = with_errno e (with_kst k w).

Lemma kernel_step_trans fds fds' w w1 w2 :
  kernel_step fds w w1 -> kernel_step fds' w1 w2 -> kernel_step fds' w w2.
Proof. intros (_ & e & k & ->) (H & e' & k' & ->). split; [done|]. by exists e', k'. Qed.

Lemma libc_ret_frame r w :
  exists r' e, libc_ret r w = (Ok r', with_errno e w) /\ -1 <= r' /\
    (r < 0 /\ r' = -1 \/ 0 <= r /\ r' = r).
Proof.
  unfold libc_ret. destruct (Z.ltb_spec r 0).
  - exists (-1), (- r). repeat split; [lia|]. by left.
  - exists r, (errno w). repeat split; [by destruct w|lia|]. by right.
Qed.

Lemma sys_open_frame path o w :
  exists r w', sys_open path o w = (Ok r, w') /\ -1 <= r /\
    (r < 0 -> kernel_step (open_fds (kst w)) w w') /\
    (0 <= r -> ~ (r ∈ open_fds (kst w)) /\ kernel_step ({[r]} ∪ open_fds (kst w)) w w').
Proof.
  unfold sys_open. destruct (fs_open (kst w) path o) as [r k] eqn:E.
  destruct (law_open _ _ _ _ _ E) as [Hn Hp].
  destruct (libc_ret_frame r (with_kst k w)) as (r' & e & -> & Hr & Hcase).
  exists r', (with_errno e (with_kst k w)). split; [done|]. split; [done|].
  split; intros Hr'.
  - split; [apply Hn; lia|by exists e, k].
  - assert (r' = r) as -> by lia. split; [by apply Hp|]. split; [by apply Hp|by exists e, k].
Qed.

Lemma sys_close_frame fd w : exists w', sys_close fd w = (Ok tt, w') /\
  kernel_step (open_fds (kst w) ∖ {[fd]}) w w'.
Proof.
  unfold sys_close. eexists. split; [done|]. split; [apply law_close|].
  exists (errno w), (fs_close (kst w) fd). by destruct w.
Qed.

Lemma sys_fstat_frame fd w : exists r mode w', sys_fstat fd w = (Ok (r, mode), w') /\ -1 <= r /\
  kernel_step (open_fds (kst w)) w w'.
Proof.
  unfold sys_fstat. destruct (fs_fstat (kst w) fd) as [r mode].
  destruct (libc_ret_frame r w) as (r' & e & H & Hr & _).
  exists r', mode, (with_errno e w). rewrite (bind_ok _ _ _ _ _ H). split; [done|]. split; [done|].
  split; [done|]. exists e, (kst w). by destruct w.
Qed.

(** What an argument [cap_d] must be for the call not to wait for ever. *)
Definition free_cap_arg p w : Prop :=
  forall c, heap w !! p = Some (OCap c) -> c_mutex c = false.

Lemma fcaps_save_frame stack p w :
  world_wf w -> free_cap_arg p w ->
  exists r e, fcaps_save stack p w = (Ok r, with_errno e w).
Proof.
  intros Hw Hfree. unfold fcaps_save.
  destruct (Z.eqb_spec (magic_at (heap w) p) CAP_T_MAGIC) as [E|E].
  - destruct (magic_at_cap _ _ E) as [_ [c Hp]]. pose proof (Hfree c Hp) as Hc.
    run. rewrite E. cbn [negb Z.eqb]. change (CAP_T_MAGIC =? CAP_T_MAGIC) with true. cbn [negb]. run.
    destruct (save_locked _ stack) as [r|]; unfold mu_unlock_return; run.
    + exists (Some r), (errno w). rewrite ret_run, with_errno_id. f_equal.
      apply with_heap_restore. heap_eq.
    + exists None, EINVAL. rewrite ret_run. f_equal.
      unfold with_heap, with_errno; cbn [heap]; f_equal. heap_eq.
  - apply Z.eqb_neq in E. run. rewrite E. cbn [negb]. run. eauto.
Qed.

Lemma put_caps_frame stack f p w :
  world_wf w -> free_cap_arg p w ->
  exists r w', put_caps stack f p w = (Ok r, w') /\ -1 <= r /\ kernel_step (open_fds (kst w)) w w'.
Proof.
  intros Hw Hfree. unfold put_caps. destruct (p =? 0).
  - unfold sys_removexattr. pose proof (law_remove (kst w) f) as Hl.
    destruct (fs_removexattr (kst w) f) as [r k]. cbn [snd] in Hl.
    destruct (libc_ret_frame r (with_kst k w)) as (r' & e & -> & Hr & _).
    eexists _, _. split; [done|]. split; [done|]. split; [done|]. by exists e, k.
  - destruct (fcaps_save_frame stack p w Hw Hfree) as (r & e & Hs).
    rewrite (bind_ok _ _ _ _ _ Hs). destruct r as [[raw n]|].
    + unfold sys_setxattr. set (v := take _ raw). pose proof (law_set (kst w) f v) as Hl.
      change (kst (with_errno e w)) with (kst w).
      destruct (fs_setxattr (kst w) f v) as [r k]. cbn [snd] in Hl.
      destruct (libc_ret_frame r (with_kst k (with_errno e w))) as (r' & e' & -> & Hr & _).
      eexists _, _. split; [done|]. split; [done|]. split; [done|]. by exists e', k.
    + eexists _, _. split; [done|]. split; [lia|]. split; [done|]. exists e, (kst w). by destruct w.
Qed.

Lemma kernel_step_arg fds p w w' : kernel_step fds w w' -> world_wf w -> free_cap_arg p w ->
  world_wf w' /\ free_cap_arg p w'.
Proof. intros (_ & e & k & ->) Hw Hf. split; [|exact Hf]. destruct Hw. by split. Qed.

Lemma cap_set_fd_frame stack fd p w :
  world_wf w -> free_cap_arg p w ->
  exists r w', cap_set_fd stack fd p w = (Ok r, w') /\ -1 <= r /\ kernel_step (open_fds (kst w)) w w'.
Proof.
  intros Hw Hf. unfold cap_set_fd.
  destruct (sys_fstat_frame fd w) as (r & mode & w1 & H1 & Hr & Hk1).
  rewrite (bind_ok _ _ _ _ _ H1). destruct (kernel_step_arg _ _ _ _ Hk1 Hw Hf) as [Hw1 Hf1].
  destruct (negb (r =? 0)); [by eexists _, _|].
  destruct (S_ISLNK mode || negb (S_ISREG mode)).
  - run. eexists _, _. split; [done|]. split; [lia|]. destruct Hk1 as (? & e & k & ->).
    split; [done|]. by exists EINVAL, k.
  - destruct (put_caps_frame stack (ByFd fd) p w1 Hw1 Hf1) as (r2 & w2 & H2 & Hr2 & Hk2).
    exists r2, w2. split; [done|]. split; [done|]. rewrite (proj1 Hk1) in Hk2.
    by eapply kernel_step_trans.
Qed.

(** Closing what was opened last. *)
Lemma close_opened fd fds w w1 :
  ~ (fd ∈ fds) -> kernel_step ({[fd]} ∪ fds) w w1 ->
  exists w2, sys_close fd w1 = (Ok tt, w2) /\ kernel_step fds w w2.
Proof.
  intros Hfd Hk. destruct (sys_close_frame fd w1) as (w2 & H2 & Hk2). exists w2. split; [done|].
  rewrite (proj1 Hk) in Hk2. replace (({[fd]} ∪ fds) ∖ {[fd]}) with fds in Hk2 by set_solver.
  by eapply kernel_step_trans.
Qed.

(** Whatever the file and however its steps fail, cap_set_file() returns,
    changes no object and leaves exactly the descriptors open that were open
    before, on the direct path and on the O_PATH one. *)
Theorem cap_set_file_closes stack filename p w :
  world_wf w -> free_cap_arg p w ->
  exists r w', cap_set_file stack filename p w = (Ok r, w') /\ -1 <= r /\
    open_fds (kst w') = open_fds (kst w) /\ heap w' = heap w /\ glob w' = glob w.
Proof.
  intros Hw Hf.
  enough (exists r w', cap_set_file stack filename p w = (Ok r, w') /\ -1 <= r /\
    kernel_step (open_fds (kst w)) w w') as (r & w' & ? & ? & ? & e & k & ->)
    by (by eexists _, _; split_and!).
  unfold cap_set_file. destruct (sys_open_frame filename false w) as (fd & w1 & H1 & Hfd & Hneg & Hpos).
  rewrite (bind_ok _ _ _ _ _ H1). destruct (Z.leb_spec 0 fd) as [H0|H0].
  { destruct (Hpos H0) as [Hnot Hk1]. destruct (kernel_step_arg _ _ _ _ Hk1 Hw Hf) as [Hw1 Hf1].
    destruct (cap_set_fd_frame stack fd p w1 Hw1 Hf1) as (r & w2 & H2 & Hr & Hk2).
    rewrite (bind_ok _ _ _ _ _ H2). rewrite (proj1 Hk1) in Hk2.
    pose proof (kernel_step_trans _ _ _ _ _ Hk1 Hk2) as Hk.
    destruct (close_opened _ _ _ _ Hnot Hk) as (w3 & H3 & Hk3).
    rewrite (bind_ok _ _ _ _ _ H3). by exists r, w3. }
  specialize (Hneg H0). destruct (kernel_step_arg _ _ _ _ Hneg Hw Hf) as [Hw1 Hf1].
  destruct (sys_open_frame filename true w1) as (fd2 & w2 & H2 & Hfd2 & Hneg2 & Hpos2).
  rewrite (proj1 Hneg) in Hneg2, Hpos2. rewrite (bind_ok _ _ _ _ _ H2).
  destruct (Z.ltb_spec fd2 0) as [Hlt|Hge].
  { exists (-1), w2. split; [done|]. split; [lia|]. eapply kernel_step_trans; [exact Hneg|by apply Hneg2]. }
  destruct (Hpos2 Hge) as [Hnot Hk2].
  destruct (kernel_step_arg _ _ _ _ Hk2 Hw1 Hf1) as [Hw2 Hf2].
  pose proof (kernel_step_trans _ _ _ _ _ Hneg Hk2) as Hk2'.
  destruct (sys_fstat_frame fd2 w2) as (r & mode & w3 & H3 & Hr & Hk3). rewrite (proj1 Hk2) in Hk3.
  rewrite (bind_ok _ _ _ _ _ H3). pose proof (kernel_step_trans _ _ _ _ _ Hk2' Hk3) as Hk3'.
  destruct (kernel_step_arg _ _ _ _ Hk3 Hw2 Hf2) as [Hw3 Hf3].
  destruct (close_opened _ _ _ _ Hnot Hk3') as (wc & Hc & Hkc).
  destruct (negb (r =? 0)); [rewrite (bind_ok _ _ _ _ _ Hc); exists (-1), wc; by split_and!|].
  destruct (S_ISLNK mode || negb (S_ISREG mode)).
  { rewrite (bind_ok _ _ _ _ _ Hc). run. exists (-1), (with_errno EINVAL wc).
    split; [done|]. split; [lia|]. destruct Hkc as (? & e & k & ->). split; [done|]. by exists EINVAL, k. }
  set (fdpath := String.append _ _). destruct (fdpath_size <=? _).
  { run. assert (kernel_step ({[fd2]} ∪ open_fds (kst w)) w (with_errno EINVAL w3)) as Hk4.
    { destruct Hk3' as (? & e & k & ->). split; [done|]. by exists EINVAL, k. }
    destruct (close_opened _ _ _ _ Hnot Hk4) as (w5 & H5 & Hk5).
    injection H5 as <-. rewrite ret_run. eexists _, _. by split_and!. }
  destruct (put_caps_frame stack (ByPath fdpath) p w3 Hw3 Hf3) as (r4 & w4 & H4 & Hr4 & Hk4).
  rewrite (proj1 Hk3) in Hk4. rewrite (bind_ok _ _ _ _ _ H4).
  pose proof (kernel_step_trans _ _ _ _ _ Hk3' Hk4) as Hk4'.
  destruct (close_opened _ _ _ _ Hnot Hk4') as (w5 & H5 & Hk5).
  rewrite (bind_ok _ _ _ _ _ H5). by exists r4, w5.
Qed.

End roundtrip.
