(* ===== verification/Proc.v ===== *)
(** libcap/cap_proc.c, the operations on the running process: its capability
    sets, its ambient vector, its securebits and mode, its user and group
    identifiers and its IAB tuple. *)

From S2P Require Import Prelude Capability World Exec Syscall Alloc Flag.
From stdpp Require Import gmap strings list sets.
From Stdlib Require Import ZArith Lia.

Open Scope Z_scope.

(** <sys/securebits.h> *)
Definition SECBIT_NOROOT : Z := 0x01.
Definition SECBIT_NOROOT_LOCKED : Z := 0x02.
Definition SECBIT_NO_SETUID_FIXUP : Z := 0x04.
Definition SECBIT_NO_SETUID_FIXUP_LOCKED : Z := 0x08.
Definition SECBIT_KEEP_CAPS : Z := 0x10.
Definition SECBIT_KEEP_CAPS_LOCKED : Z := 0x20.
Definition SECBIT_NO_CAP_AMBIENT_RAISE : Z := 0x40.
Definition SECBIT_NO_CAP_AMBIENT_RAISE_LOCKED : Z := 0x80.

Definition CAP_SECURED_BITS_BASIC : Z :=
  Z.lor (Z.lor (Z.lor (Z.lor SECBIT_NOROOT SECBIT_NOROOT_LOCKED) SECBIT_NO_SETUID_FIXUP)
    SECBIT_NO_SETUID_FIXUP_LOCKED) SECBIT_KEEP_CAPS_LOCKED.
Definition CAP_SECURED_BITS_AMBIENT : Z :=
  Z.lor (Z.lor CAP_SECURED_BITS_BASIC SECBIT_NO_CAP_AMBIENT_RAISE) SECBIT_NO_CAP_AMBIENT_RAISE_LOCKED.

(** The loops that count capabilities up until the kernel refuses one have no
    bound of their own; the kernel's sets have 64 bits, so it refuses 64. *)
Definition probe_fuel : nat := 128.

Section proc.
Context {K : Type} `{!Kernel K}.
Implicit Types (w : world K) (p : Z).

Definition cap_get_proc : M K Z :=
  result ← cap_init;
  if negb (result =? 0) then
    r ← capget result true;
    if negb (r =? 0) then _ ← cap_free result; mret 0 else mret result
  else mret result.

(** [_cap_set_proc] *)
Definition cap_set_proc_sc (sc : syscaller_ref) (cap_d : Z) : M K Z :=
  good ← good_cap_t cap_d;
  if negb good then set_errno EINVAL;; mret (-1)
  else
    mu_lock cap_d;;
    c ← load_cap cap_d;
    retval ← libcap_capset sc (c_version c) (c_pid c) (c_u c);
    mu_unlock cap_d;;
    mret retval.

Definition cap_set_proc (cap_d : Z) : M K Z := cap_set_proc_sc multithread cap_d.

Definition set_pid v (c : cap_struct) : cap_struct :=
  mkCap (c_mutex c) (c_version c) v (c_u c) (c_rootid c).

Definition capgetp (pid cap_d : Z) : M K Z :=
  good ← good_cap_t cap_d;
  if negb good then set_errno EINVAL;; mret (-1)
  else
    mu_lock cap_d;;
    modify_cap cap_d (set_pid pid);;
    error ← capget cap_d true;
    modify_cap cap_d (set_pid 0);;
    mu_unlock cap_d;;
    mret error.

Definition cap_get_pid (pid : Z) : M K Z :=
  result ← cap_init;
  if negb (result =? 0) then
    r ← capgetp pid result;
    if negb (r =? 0) then
      my_errno ← get_errno;
      _ ← cap_free result;
      set_errno my_errno;;
      mret 0
    else mret result
  else mret result.

Definition capsetp (pid cap_d : Z) : M K Z :=
  good ← good_cap_t cap_d;
  if negb good then set_errno EINVAL;; mret (-1)
  else
    mu_lock cap_d;;
    modify_cap cap_d (set_pid pid);;
    c ← load_cap cap_d;
    error ← capset (c_version c) (c_pid c) (c_u c);
    modify_cap cap_d (set_version LIBCAP_CAPABILITY_VERSION);;
    modify_cap cap_d (set_pid 0);;
    mu_unlock cap_d;;
    mret error.

(** *** Ambient set, securebits, prctl *)

(** The loop of [_cap_reset_ambient]: [Some 0] for the return inside it, [None]
    when it ends because a capability is ambient. *)
Fixpoint reset_ambient_loop (fuel : nat) (olderrno c : Z) : M K (option Z) :=
  match fuel with
  | O => spin
  | S fuel =>
      result ← cap_get_ambient c;
      if result =? -1 then set_errno olderrno;; mret (Some 0)
      else if result =? 0 then reset_ambient_loop fuel olderrno (c + 1)
      else mret None
  end.

Definition cap_reset_ambient_sc (sc : syscaller_ref) : M K Z :=
  olderrno ← get_errno;
  r ← reset_ambient_loop probe_fuel olderrno 0;
  match r with
  | Some v => mret v
  | None =>
      libcap_wprctl6 sc PR_CAP_AMBIENT (pr_arg PR_CAP_AMBIENT_CLEAR_ALL)
        (pr_arg 0) (pr_arg 0) (pr_arg 0) (pr_arg 0)
  end.

Definition cap_reset_ambient : M K Z := cap_reset_ambient_sc multithread.

(** The result is converted to unsigned. *)
Definition cap_get_secbits : M K Z :=
  r ← prctl PR_GET_SECUREBITS (pr_arg 0) (pr_arg 0) 0 0 0;
  mret (u32 r).

Definition cap_set_secbits_sc (sc : syscaller_ref) (bits : Z) : M K Z :=
  libcap_wprctl3 sc PR_SET_SECUREBITS bits 0.
Definition cap_set_secbits (bits : Z) : M K Z := cap_set_secbits_sc multithread bits.

Definition cap_set_no_new_privs (sc : syscaller_ref) : M K unit :=
  _ ← libcap_wprctl6 sc PR_SET_NO_NEW_PRIVS 1 0 0 0 0; mret tt.

Definition cap_prctl (pr_cmd arg1 arg2 arg3 arg4 arg5 : Z) : M K Z :=
  prctl pr_cmd arg1 arg2 arg3 arg4 arg5.
Definition cap_prctlw (pr_cmd arg1 arg2 arg3 arg4 arg5 : Z) : M K Z :=
  libcap_wprctl6 multithread pr_cmd arg1 arg2 arg3 arg4 arg5.

(** *** Modes *)

Definition raise_cap_setpcap : list Z := [CAP_SETPCAP].

(** [CAP_AMBIENT_SUPPORTED()] *)
Definition CAP_AMBIENT_SUPPORTED : M K bool :=
  r ← cap_get_ambient CAP_CHOWN; mret (0 <=? r).

(** [for (c = 0; cap_get_bound(c) >= 0; c++) (void) _cap_drop_bound(sc, c);] *)
Fixpoint drop_bound_loop (fuel : nat) (sc : syscaller_ref) (c : Z) : M K unit :=
  match fuel with
  | O => spin
  | S fuel =>
      r ← cap_get_bound c;
      if 0 <=? r then _ ← cap_drop_bound_sc sc c; drop_bound_loop fuel sc (c + 1)
      else mret tt
  end.

(** The cases of the switch of [_cap_set_mode] from the label
    [CAP_MODE_PURE1E] on. *)
Definition set_mode_pure1e (sc : syscaller_ref) (flavor working : Z) : M K Z :=
  supported ← CAP_AMBIENT_SUPPORTED;
  ret ← (if negb supported then mret 0 else cap_reset_ambient_sc sc);
  if negb (ret =? 0) then mret ret
  else
    ret ← cap_set_secbits_sc sc
      (if negb supported then CAP_SECURED_BITS_BASIC else CAP_SECURED_BITS_AMBIENT);
    if negb (flavor =? CAP_MODE_NOPRIV) then mret ret
    else
      drop_bound_loop probe_fuel sc 0;;
      _ ← cap_clear_flag working CAP_PERMITTED;
      cap_set_no_new_privs sc;;
      mret ret.

Definition set_mode_switch (sc : syscaller_ref) (flavor working : Z) : M K Z :=
  if (flavor =? CAP_MODE_NOPRIV) || (flavor =? CAP_MODE_PURE1E_INIT) then
    _ ← cap_clear_flag working CAP_INHERITABLE;
    set_mode_pure1e sc flavor working
  else if flavor =? CAP_MODE_PURE1E then set_mode_pure1e sc flavor working
  else if flavor =? CAP_MODE_HYBRID then cap_set_secbits_sc sc 0
  else set_errno EINVAL;; mret (-1).

(** C leaves the order of the operands of [|] open; the code needs the flag
    raised before the set is installed, so the left operand goes first here. *)
Definition cap_set_mode_sc (sc : syscaller_ref) (flavor : Z) : M K Z :=
  working ← cap_get_proc;
  if working =? 0 then mret (-1)
  else
    r1 ← cap_set_flag working CAP_EFFECTIVE 1 raise_cap_setpcap CAP_SET;
    r2 ← cap_set_proc_sc sc working;
    let ret := Z.lor r1 r2 in
    ret ← (if ret =? 0 then set_mode_switch sc flavor working else mret ret);
    _ ← cap_clear_flag working CAP_EFFECTIVE;
    r ← cap_set_proc_sc sc working;
    let ret := Z.lor r ret in
    _ ← cap_free working;
    mret ret.

Definition cap_set_mode (flavor : Z) : M K Z := cap_set_mode_sc multithread flavor.

(** The ambient loop of cap_get_mode(): [true] when it returns
    CAP_MODE_UNCERTAIN. *)
Fixpoint get_mode_ambient_loop (fuel : nat) (secbits olderrno c : Z) : M K bool :=
  match fuel with
  | O => spin
  | S fuel =>
      ret ← cap_get_ambient c;
      if ret =? -1 then
        set_errno olderrno;;
        mret (negb (c =? 0) && negb (secbits =? CAP_SECURED_BITS_AMBIENT))
      else if negb (ret =? 0) then mret true
      else get_mode_ambient_loop fuel secbits olderrno (c + 1)
  end.

(** Its last loop: [true] when some capability is in the bounding set. *)
Fixpoint get_mode_bound_loop (fuel : nat) (c : Z) : M K bool :=
  match fuel with
  | O => spin
  | S fuel =>
      v ← cap_get_bound c;
      if v =? -1 then mret false
      else if negb (v =? 0) then mret true
      else get_mode_bound_loop fuel (c + 1)
  end.

Definition cap_get_mode : M K Z :=
  secbits ← cap_get_secbits;
  if secbits =? 0 then mret CAP_MODE_HYBRID
  else if negb (Z.land secbits CAP_SECURED_BITS_BASIC =? CAP_SECURED_BITS_BASIC)
  then mret CAP_MODE_UNCERTAIN
  else
    olderrno ← get_errno;
    uncertain ← get_mode_ambient_loop probe_fuel secbits olderrno 0;
    if uncertain : bool then mret CAP_MODE_UNCERTAIN
    else
      working ← cap_get_proc;
      empty ← cap_init;
      let bad := (working =? 0) || (empty =? 0) in
      cf ← (if bad then mret 0 else cap_compare empty working);
      _ ← cap_free empty;
      _ ← cap_free working;
      if bad then mret CAP_MODE_UNCERTAIN
      else if CAP_DIFFERS cf CAP_INHERITABLE then mret CAP_MODE_PURE1E
      else if CAP_DIFFERS cf CAP_PERMITTED || CAP_DIFFERS cf CAP_EFFECTIVE
      then mret CAP_MODE_PURE1E_INIT
      else
        bounded ← get_mode_bound_loop probe_fuel 0;
        mret (if bounded : bool then CAP_MODE_PURE1E_INIT else CAP_MODE_NOPRIV).

(** *** Users and groups *)

Definition raise_cap_setuid : list Z := [CAP_SETUID].
Definition raise_cap_setgid : list Z := [CAP_SETGID].

(** [if (ret < 0) { errno = -ret; ret = -1; }] *)
Definition fix_errno (ret : Z) : M K Z :=
  if ret <? 0 then set_errno (- ret);; mret (-1) else mret ret.

(** The end of _cap_setuid(), _cap_setgroups() and _cap_chroot(): drop the
    effective flag and the working copy, keeping errno. *)
Definition drop_working (sc : syscaller_ref) (working : Z) : M K unit :=
  _ ← cap_clear_flag working CAP_EFFECTIVE;
  _ ← cap_set_proc_sc sc working;
  _ ← cap_free working;
  mret tt.

Definition cap_setuid_sc (sc : syscaller_ref) (uid : Z) : M K Z :=
  working ← cap_get_proc;
  if working =? 0 then mret (-1)
  else
    _ ← cap_set_flag working CAP_EFFECTIVE 1 raise_cap_setuid CAP_SET;
    _ ← libcap_wprctl3 sc PR_SET_KEEPCAPS 1 0;
    ret ← cap_set_proc_sc sc working;
    ret ← (if ret =? 0 then
             b ← overrode_syscalls;
             if b : bool then ret ← sc_call sc (SYS_setuid uid); fix_errno ret
             else libc_syscall (SYS_setuid uid)
           else mret ret);
    olderrno ← get_errno;
    _ ← libcap_wprctl3 sc PR_SET_KEEPCAPS 0 0;
    drop_working sc working;;
    set_errno olderrno;;
    mret ret.

Definition cap_setuid (uid : Z) : M K Z := cap_setuid_sc multithread uid.

Definition cap_setgroups_sc (sc : syscaller_ref) (gid ngroups : Z) (groups : list Z) : M K Z :=
  working ← cap_get_proc;
  if working =? 0 then mret (-1)
  else
    _ ← cap_set_flag working CAP_EFFECTIVE 1 raise_cap_setgid CAP_SET;
    ret ← cap_set_proc_sc sc working;
    b ← overrode_syscalls;
    ret ← (if b : bool then
             ret ← (if ret =? 0 then sc_call sc (SYS_setgid gid) else mret ret);
             ret ← (if ret =? 0 then sc_call sc (SYS_setgroups ngroups groups) else mret ret);
             fix_errno ret
           else
             ret ← (if ret =? 0 then libc_syscall (SYS_setgid gid) else mret ret);
             if ret =? 0 then libc_syscall (SYS_setgroups ngroups groups) else mret ret);
    olderrno ← get_errno;
    drop_working sc working;;
    set_errno olderrno;;
    mret ret.

Definition cap_setgroups (gid ngroups : Z) (groups : list Z) : M K Z :=
  cap_setgroups_sc multithread gid ngroups groups.

(** *** IAB tuples *)

(** [iab->nb[o] |= mask] and [iab->a[o] |= mask] *)
Definition or_nb (o mask : Z) (t : cap_iab_s) : cap_iab_s :=
  mkIab (iab_mutex t) (iab_i t) (iab_a t) (upd_word o (fun v => Z.lor v mask) (iab_nb t)).
Definition or_a (o mask : Z) (t : cap_iab_s) : cap_iab_s :=
  mkIab (iab_mutex t) (iab_i t) (upd_word o (fun v => Z.lor v mask) (iab_a t)) (iab_nb t).

(** The capability numbers below [n], from the highest one down. *)
Definition countdown (n : Z) : list Z := reverse (seqZ 0 n).

Fixpoint iab_get_loop (iab : Z) (caps : list Z) : M K unit :=
  match caps with
  | [] => mret tt
  | c :: caps =>
      let o := Z.shiftr c 5 in
      let mask := bit32 c in
      b ← cap_get_bound c;
      (if b =? 0 then modify_iab iab (or_nb o mask) else mret tt);;
      a ← cap_get_ambient c;
      (if a =? 1 then modify_iab iab (or_a o mask) else mret tt);;
      iab_get_loop iab caps
  end.

Definition cap_iab_get_proc : M K Z :=
  iab ← cap_iab_init;
  if iab =? 0 then mret 0
  else
    current ← cap_get_proc;
    if current =? 0 then _ ← cap_free iab; mret 0
    else
      _ ← cap_iab_fill iab CAP_IAB_INH current CAP_INHERITABLE;
      _ ← cap_free current;
      max_bits ← cap_max_bits;
      iab_get_loop iab (countdown max_bits);;
      mret iab.

(** The first loop of _cap_iab_set_proc(): what is to be raised, and whether
    any bounding bit is to be dropped. *)
Definition iab_raising (t : cap_iab_s) (u : list capblk) : Z :=
  foldl (fun raising i =>
    let newI := word (iab_i t) i in
    let oldIP := Z.lor (flat (u_blk u i) CAP_INHERITABLE) (flat (u_blk u i) CAP_PERMITTED) in
    Z.lor raising (Z.land newI (u32_not oldIP))) 0 (seqZ 0 LIBCAP_CAPABILITY_U32S).
Definition iab_any_nb (t : cap_iab_s) : bool :=
  existsb (fun i => negb (word (iab_nb t) i =? 0)) (seqZ 0 LIBCAP_CAPABILITY_U32S).

Definition has_bit (v : list Z) (c : Z) : bool :=
  negb (Z.land (word v (Z.shiftr c 5)) (bit32 c) =? 0).

(** Whether some capability to be dropped is still in the bounding set. *)
Fixpoint check_bound_loop (t : cap_iab_s) (caps : list Z) : M K bool :=
  match caps with
  | [] => mret false
  | c :: caps =>
      if has_bit (iab_nb t) c then
        b ← cap_get_bound c;
        if negb (b =? 0) then mret true else check_bound_loop t caps
      else check_bound_loop t caps
  end.

(** The last loop; a nonzero result ends it. *)
Fixpoint iab_set_loop (sc : syscaller_ref) (t : cap_iab_s) (check_bound : bool) (caps : list Z) : M K Z :=
  match caps with
  | [] => mret 0
  | c :: caps =>
      ret ← (if has_bit (iab_a t) c then cap_set_ambient_sc sc c CAP_SET else mret 0);
      if negb (ret =? 0) then mret ret
      else
        ret ← (if check_bound && has_bit (iab_nb t) c then cap_drop_bound_sc sc c else mret 0);
        if negb (ret =? 0) then mret ret
        else iab_set_loop sc t check_bound caps
  end.

(** [_cap_iab_set_proc]; the caller holds the lock of the tuple. *)
Definition cap_iab_set_proc_sc (sc : syscaller_ref) (iab : Z) : M K Z :=
  temp ← cap_get_proc;
  if temp =? 0 then mret (-1)
  else
    t ← load_iab iab;
    c ← load_cap temp;
    let raising := iab_raising t (c_u c) in
    modify_cap temp (with_u (fill_words CAP_INHERITABLE (fun i => word (iab_i t) (Z.of_nat i))));;
    max_bits ← cap_max_bits;
    check_bound ← (if iab_any_nb t then check_bound_loop t (countdown max_bits) else mret false);
    let raising := if check_bound : bool then 1 else raising in
    working ← cap_dup temp;
    ret ← (if working =? 0 then mret (-1)
           else
             ret ← (if negb (raising =? 0)
                    then cap_set_flag working CAP_EFFECTIVE 1 raise_cap_setpcap CAP_SET
                    else mret 0);
             if negb (ret =? 0) then mret ret
             else
               ret ← cap_set_proc_sc sc working;
               if negb (ret =? 0) then mret ret
               else
                 ret ← cap_reset_ambient_sc sc;
                 ret ← (if negb (ret =? 0) then mret ret
                        else iab_set_loop sc t check_bound (countdown max_bits));
                 _ ← cap_set_proc temp;
                 mret ret);
    _ ← cap_free working;
    _ ← cap_free temp;
    mret ret.

Definition cap_iab_set_proc (iab : Z) : M K Z :=
  good ← good_cap_iab_t iab;
  if negb good then set_errno EINVAL;; mret (-1)
  else
    mu_lock iab;;
    retval ← cap_iab_set_proc_sc multithread iab;
    mu_unlock iab;;
    mret retval.

End proc.

(** *** The countdown *)

Lemma elem_of_countdown n x : x ∈ countdown n <-> 0 <= x < n.
Proof. unfold countdown. rewrite elem_of_reverse, elem_of_seqZ. lia. Qed.

Lemma countdown_range n : Forall (fun c => 0 <= c <= n) (countdown (n + 1)).
Proof. apply Forall_forall. intros x Hx. apply elem_of_countdown in Hx. lia. Qed.
