(* ===== verification/Text.v ===== *)
(** libcap/cap_text.c: parsing and printing capability sets and IAB tuples, the
    names of capabilities and modes, and the tuple of another process as /proc
    shows it. Character pointers are strings: what is left to read, or what has
    been written so far. *)

From S2P Require Import Prelude Capability World Syscall Alloc Flag Proc.
From stdpp Require Import gmap list.
From Stdlib Require Import ZArith Lia String Ascii.

Open Scope string_scope.
Open Scope Z_scope.

(** ** Characters, in the C locale *)

Definition code (c : ascii) : Z := Z.of_N (N_of_ascii c).
Definition NUL : ascii := "000".
Definition is_nul (c : ascii) : bool := Ascii.eqb c NUL.
Definition between (a b x : Z) : bool := (a <=? x) && (x <=? b).

Definition isspace (c : ascii) : bool := between 9 13 (code c) || (code c =? 32).
Definition isdigit (c : ascii) : bool := between 48 57 (code c).
Definition isalpha (c : ascii) : bool := between 65 90 (code c) || between 97 122 (code c).
Definition isalnum (c : ascii) : bool := isalpha c || isdigit c.
Definition tolower (c : ascii) : ascii :=
  if between 65 90 (code c) then ascii_of_N (Z.to_N (code c + 32)) else c.

(** [*str] and [str + 1]; at the end of the string [*str] is NUL. *)
Definition head (s : string) : ascii := match s with EmptyString => NUL | String c _ => c end.
Definition tail (s : string) : string := match s with EmptyString => EmptyString | String _ s => s end.
Definition at_end (s : string) : bool := is_nul (head s).
Definition starts_word (s : string) : bool := isalnum (head s) || Ascii.eqb (head s) "_".

(** *** strtoul(3) with base 0, on a string that starts with a digit. The value
    is not bounded here: libc's bound is far above the 64 it is compared with. *)

Definition digit_val (c : ascii) : Z :=
  if isdigit c then code c - 48
  else if between 97 102 (code c) then code c - 87
  else if between 65 70 (code c) then code c - 55
  else 99.

Fixpoint strtoul_digits (base acc : Z) (s : string) : Z * string :=
  match s with
  | EmptyString => (acc, s)
  | String c s' =>
      if digit_val c <? base then strtoul_digits base (acc * base + digit_val c) s' else (acc, s)
  end.

Definition strtoul (s : string) : Z * string :=
  if Ascii.eqb (head s) "0" then
    let x := tail s in
    if (Ascii.eqb (head x) "x" || Ascii.eqb (head x) "X") && (digit_val (head (tail x)) <? 16)
    then strtoul_digits 16 0 (tail x)
    else strtoul_digits 8 0 s
  else strtoul_digits 10 0 s.

(** ** Parsing *)

(** What a parser gives: a result, an error ([goto bad]), or - it would never
    end - nothing. *)
Inductive parsed (A : Type) :=
| PGood (a : A)
| PBad
| PSpin.
Arguments PGood {A} _.
Arguments PBad {A}.
Arguments PSpin {A}.

(** The words [b] of [blks] blocks are added to, or taken from, the flag [set]. *)
Definition setbits (b : list Z) (set : Z) (blks : nat) (u : list capblk) : list capblk :=
  imap (fun i blk => if (i <? blks)%nat
    then set_flat set (Z.lor (flat blk set) (word b (Z.of_nat i))) blk else blk) u.
Definition clrbits (b : list Z) (set : Z) (blks : nat) (u : list capblk) : list capblk :=
  imap (fun i blk => if (i <? blks)%nat
    then set_flat set (Z.land (flat blk set) (u32_not (word b (Z.of_nat i)))) blk else blk) u.

(** [raise_cap_mask] *)
Definition raise_cap_mask (c : Z) (l : list Z) : list Z :=
  upd_word (CAP_TO_INDEX c) (fun v => Z.lor v (CAP_TO_MASK c)) l.

Fixpoint namcmp (str nam : string) : option string :=
  match nam with
  | EmptyString => if starts_word str then None else Some str
  | String n nam => if Ascii.eqb (tolower (head str)) n then namcmp (tail str) nam else None
  end.

(** The mask of forceall() for the word that starts at bit [base]. *)
Definition forceall_mask (cmb base : Z) : Z :=
  if base + 32 <=? cmb then u32_max
  else if base <? cmb then u32 (Z.shiftl 1 (cmb mod 32) - 1)
  else 0.

(** forceall(): the first [blks] words become [value], masked. *)
Definition forceall (cmb value : Z) (blks : nat) (l : list Z) : list Z :=
  imap (fun i v => if (i <? blks)%nat then Z.land value (forceall_mask cmb (32 * Z.of_nat i)) else v) l.

(** The characters that make up a name for gperf's lookup. *)
Fixpoint span_name (s : string) : string * string :=
  match s with
  | EmptyString => ("", "")
  | String c s' =>
      if isalpha c || Ascii.eqb c "_"
      then let '(a, r) := span_name s' in (String c a, r) else ("", s)
  end.

(** The countdown over _cap_names. *)
Fixpoint name_loop (n : nat) (s : string) : option (Z * string) :=
  match n with
  | O => None
  | S n =>
      match LIBCAP_CAP_NAMES !! n with
      | Some (Some name) =>
          match namcmp s name with
          | Some rest => Some (Z.of_nat n, rest)
          | None => name_loop n s
          end
      | _ => name_loop n s
      end
  end.

Section lookup.
(** [__cap_lookup_name()], which gperf generates when it is installed; [None] in
    a build without gperf. *)
Variable gperf : option (string -> option Z).

Definition lookupname (cmb : Z) (str : string) : option (Z * string) :=
  if isdigit (head str) then
    let '(n, rest) := strtoul str in
    if CAP_MAXBITS <=? n then None else Some (n, rest)
  else
    match gperf with
    | Some f =>
        let '(token, rest) := span_name str in
        match f token with Some n => Some (n, rest) | None => None end
    | None => name_loop (Z.to_nat (if CAP_BITS <? cmb then CAP_BITS else cmb)) str
    end.

(** *** cap_from_text() *)

(** The comma separated list at the start of a clause. *)
Fixpoint caps_loop (fuel : nat) (cmb : Z) (blks : nat) (str : string) (l : list Z)
  : parsed (string * list Z) :=
  match fuel with
  | O => PSpin
  | S fuel =>
      match (match namcmp str "all" with
             | Some _ => Some (tail (tail (tail str)), forceall cmb u32_max blks l)
             | None =>
                 match lookupname cmb str with
                 | None => None
                 | Some (n, rest) => Some (rest, raise_cap_mask n l)
                 end
             end) with
      | None => PBad
      | Some (str, l) =>
          if negb (Ascii.eqb (head str) ",") then PGood (str, l)
          else
            let str := tail str in
            if starts_word str then caps_loop fuel cmb blks str l else PBad
      end
  end.

(** [op]: the three operators, and 'P' and 'M' for =+ and =-. *)
Inductive capop := OpSet | OpAdd | OpDel | OpSetAdd | OpSetDel.

Definition flag_of_letter (c : ascii) : option Z :=
  if Ascii.eqb c "e" then Some LIBCAP_EFF
  else if Ascii.eqb c "i" then Some LIBCAP_INH
  else if Ascii.eqb c "p" then Some LIBCAP_PER
  else None.

Definition has_flag (flags f : Z) : bool := negb (Z.land flags f =? 0).

(** The three conditional calls of setbits() or of clrbits(). *)
Definition set_flags (flags : Z) (l : list Z) (blks : nat) (u : list capblk) : list capblk :=
  let u := if has_flag flags LIBCAP_EFF then setbits l CAP_EFFECTIVE blks u else u in
  let u := if has_flag flags LIBCAP_PER then setbits l CAP_PERMITTED blks u else u in
  if has_flag flags LIBCAP_INH then setbits l CAP_INHERITABLE blks u else u.
Definition clr_flags (flags : Z) (l : list Z) (blks : nat) (u : list capblk) : list capblk :=
  let u := if has_flag flags LIBCAP_EFF then clrbits l CAP_EFFECTIVE blks u else u in
  let u := if has_flag flags LIBCAP_PER then clrbits l CAP_PERMITTED blks u else u in
  if has_flag flags LIBCAP_INH then clrbits l CAP_INHERITABLE blks u else u.
Definition clr_all (l : list Z) (blks : nat) (u : list capblk) : list capblk :=
  clrbits l CAP_INHERITABLE blks (clrbits l CAP_PERMITTED blks (clrbits l CAP_EFFECTIVE blks u)).

(** The [switch (op)]. *)
Definition apply_op (op : capop) (flags : Z) (l : list Z) (blks : nat) (u : list capblk) : list capblk :=
  match op with
  | OpSet | OpSetAdd => set_flags flags l blks (clr_all l blks u)
  | OpSetDel => clr_flags flags l blks (clr_all l blks u)
  | OpAdd => set_flags flags l blks u
  | OpDel => clr_flags flags l blks u
  end.

Definition is_set (op : capop) : bool := match op with OpSet => true | _ => false end.

(** The [do ... while] loop over the letters and further operators. *)
Fixpoint actions_loop (fuel : nat) (listed : bool) (l : list Z) (blks : nat)
    (op : capop) (flags : Z) (str : string) (u : list capblk) : parsed (string * list capblk) :=
  match fuel with
  | O => PSpin
  | S fuel =>
      match (if negb (at_end str) && negb (isspace (head str)) then
               match flag_of_letter (head str) with
               | Some f => Some (tail str, Z.lor flags f)
               | None => None
               end
             else if is_set op then Some (str, flags) else None) with
      | None => PBad
      | Some (str, flags) =>
          let u := apply_op op flags l blks u in
          match (if Ascii.eqb (head str) "+" || Ascii.eqb (head str) "-" then
                   if negb listed then None
                   else
                     let op := if Ascii.eqb (head str) "+" then OpAdd else OpDel in
                     if isalpha (head (tail str)) then Some (op, 0, tail str) else None
                 else Some (op, flags, str)) with
          | None => PBad
          | Some (op, flags, str) =>
              if negb (at_end str) && negb (isspace (head str))
              then actions_loop fuel listed l blks op flags str u
              else PGood (str, u)
          end
      end
  end.

(** The first operator of a clause. *)
Definition first_op (listed : bool) (str : string) : option (capop * string) :=
  let op := head str in
  let str := tail str in
  if Ascii.eqb op "=" && (Ascii.eqb (head str) "+" || Ascii.eqb (head str) "-") then
    if negb listed then None
    else Some (if Ascii.eqb (head str) "+" then OpSetAdd else OpSetDel, tail str)
  else if Ascii.eqb op "+" then Some (OpAdd, str)
  else if Ascii.eqb op "-" then Some (OpDel, str)
  else if Ascii.eqb op "=" then Some (OpSet, str)
  else None.

Fixpoint skip_spaces (s : string) : string :=
  match s with
  | String c s' => if isspace c then skip_spaces s' else s
  | EmptyString => s
  end.

(** One clause, from its first character on. *)
Definition clause (fuel : nat) (cmb : Z) (blks : nat) (str : string) (u : list capblk)
  : parsed (string * list capblk) :=
  let l := [0; 0] in
  match (if starts_word str then
           match caps_loop fuel cmb blks str l with
           | PGood (str, l) => PGood (str, l, true)
           | PBad => PBad
           | PSpin => PSpin
           end
         else if Ascii.eqb (head str) "+" || Ascii.eqb (head str) "-" then PBad
         else PGood (str, forceall cmb u32_max blks l, false)) with
  | PBad => PBad
  | PSpin => PSpin
  | PGood (str, l, listed) =>
      match first_op listed str with
      | None => PBad
      | Some (op, str) => actions_loop fuel listed l blks op 0 str u
      end
  end.

(** The outer loop. *)
Fixpoint clauses_loop (fuel : nat) (cmb : Z) (blks : nat) (str : string) (u : list capblk)
  : parsed (list capblk) :=
  match fuel with
  | O => PSpin
  | S fuel' =>
      let str := skip_spaces str in
      if at_end str then PGood u
      else
        match clause fuel cmb blks str u with
        | PBad => PBad
        | PSpin => PSpin
        | PGood (str, u) => clauses_loop fuel' cmb blks str u
        end
  end.

(** One turn per character is enough for every loop. *)
Definition parse_text (cmb : Z) (blks : nat) (str : string) (u : list capblk) : parsed (list capblk) :=
  clauses_loop (S (String.length str)) cmb blks str u.

Definition version_blks (v : Z) : option nat :=
  if v =? LINUX_CAPABILITY_VERSION_1 then Some (Z.to_nat LINUX_CAPABILITY_U32S_1)
  else if v =? LINUX_CAPABILITY_VERSION_2 then Some (Z.to_nat LINUX_CAPABILITY_U32S_2)
  else if v =? LINUX_CAPABILITY_VERSION_3 then Some (Z.to_nat LINUX_CAPABILITY_U32S_3)
  else None.

(** *** IAB tuples *)

(** The loop of cap_iab_from_text(): prefixes collect in [flags]. *)
Fixpoint iab_text_loop (fuel : nat) (cmb : Z) (flags : Z) (text : string) (t : cap_iab_s) : parsed cap_iab_s :=
  match fuel with
  | O => PSpin
  | S fuel =>
      if at_end text then PGood t
      else if Ascii.eqb (head text) "!" then
        iab_text_loop fuel cmb (Z.lor flags LIBCAP_IAB_NB_FLAG) (tail text) t
      else if Ascii.eqb (head text) "^" then
        iab_text_loop fuel cmb (Z.lor flags LIBCAP_IAB_IA_FLAG) (tail text) t
      else if Ascii.eqb (head text) "%" then
        iab_text_loop fuel cmb (Z.lor flags LIBCAP_IAB_I_FLAG) (tail text) t
      else
        let flags := if flags =? 0 then LIBCAP_IAB_I_FLAG else flags in
        match lookupname cmb text with
        | None => PBad
        | Some (c, text) =>
            let o := Z.shiftr c 5 in
            let mask := bit32 c in
            let upd f v := if has_flag flags f then upd_word o (fun x => Z.lor x mask) v else v in
            let t := mkIab (iab_mutex t) (upd LIBCAP_IAB_I_FLAG (iab_i t))
                       (upd LIBCAP_IAB_A_FLAG (iab_a t)) (upd LIBCAP_IAB_NB_FLAG (iab_nb t)) in
            if at_end text then PGood t
            else if negb (Ascii.eqb (head text) ",") then PBad
            else iab_text_loop fuel cmb 0 (tail text) t
        end
  end.

End lookup.

(** *** The hexadecimal words of /proc *)

(** [_parse_hex32]: eight digits, or 0. *)
Fixpoint parse_hex32_loop (n : nat) (c : string) (v : Z) : Z :=
  match n with
  | O => v
  | S n =>
      if digit_val (head c) <? 16
      then parse_hex32_loop n (tail c) (u32 (u32 (Z.shiftl v 4) + digit_val (head c)))
      else 0
  end.
Definition parse_hex32 (c : string) : Z := parse_hex32_loop 8 c 0.

Fixpoint str_drop (n : nat) (s : string) : string :=
  match n with O => s | S n => str_drop n (tail s) end.

(** [_parse_vec_string]: the new words, or the old ones and failure. *)
Definition parse_vec_string (cmb : Z) (vals : list Z) (c : string) (invert : bool) : list Z * bool :=
  let words := (String.length c / 8)%nat in
  if (Z.to_nat LIBCAP_CAPABILITY_U32S <? words)%nat then (vals, false)
  else
    let vals := forceall cmb u32_max words vals in
    (imap (fun i v =>
       if (i <? words)%nat then
         let val := parse_hex32 (str_drop (8 * (words - 1 - i)) c) in
         Z.land v (if invert then u32_not val else val)
       else v) vals, true).

(** ** Printing *)

Definition CAP_TEXT_SIZE : Z := CAP_NAME_SIZE * CAP_MAXBITS.
Definition CAP_TEXT_BUFFER_ZONE : Z := 100.

Definition strlen (s : string) : Z := Z.of_nat (String.length s).

Definition getstateflags (u : list capblk) (capno : Z) : Z :=
  let f := 0 in
  let f := if negb (isset_cap u capno CAP_EFFECTIVE =? 0) then Z.lor f LIBCAP_EFF else f in
  let f := if negb (isset_cap u capno CAP_PERMITTED =? 0) then Z.lor f LIBCAP_PER else f in
  if negb (isset_cap u capno CAP_INHERITABLE =? 0) then Z.lor f LIBCAP_INH else f.

(** [histo]: how many of the capabilities [caps] have each of the eight states. *)
Definition histogram (u : list capblk) (caps : list Z) : list Z :=
  foldl (fun h n => alter (fun x => x + 1) (Z.to_nat (getstateflags u n)) h) (replicate 8 0) caps.
Definition histo (h : list Z) (t : Z) : Z := default 0 (h !! Z.to_nat t).

(** [for (m=t=7; t--; ) if (histo[t] >= histo[m]) m = t;] *)
Definition common_state (h : list Z) : Z :=
  foldl (fun m t => if histo h m <=? histo h t then t else m) 7 (countdown 7).

(** [%s%s%s] of the letters of a state. *)
Definition letters (f : Z) : string :=
  (if has_flag f LIBCAP_EFF then "e" else "") ++
  (if has_flag f LIBCAP_INH then "i" else "") ++
  (if has_flag f LIBCAP_PER then "p" else "").

(** [p--] *)
Definition drop_last (s : string) : string := substring 0 (String.length s - 1) s.

Section text.
Context {K : Type} `{!Kernel K}.
Variable gperf : option (string -> option Z).
Implicit Types (w : world K) (p : Z).

(** [text] is None for NULL. *)
Definition cap_from_text (str : option string) : M K Z :=
  match str with
  | None => set_errno EINVAL;; mret 0
  | Some str =>
      res ← cap_init;
      if res =? 0 then mret 0
      else
        c ← load_cap res;
        match version_blks (c_version c) with
        | None => _ ← cap_free res; set_errno EINVAL;; mret 0
        | Some cap_blks =>
            cmb ← cap_max_bits;
            match parse_text gperf cmb cap_blks str (c_u c) with
            | PSpin => spin
            | PGood u => modify_cap res (with_u (fun _ => u));; mret res
            | PBad => _ ← cap_free res; set_errno EINVAL;; mret 0
            end
        end
  end.

(** The result, and what is stored through [value_p] unless that is NULL. *)
Definition cap_from_name (name : string) (want : bool) : M K (Z * option Z) :=
  cmb ← cap_max_bits;
  match lookupname gperf cmb name with
  | Some (n, _) => mret (0, if want then Some n else None)
  | None => mret (-1, None)
  end.

(** asprintf(3) takes memory of its own, released before the return. *)
Definition cap_to_name (cap : Z) : M K Z :=
  if (0 <=? cap) && (cap <? CAP_BITS)
  then libcap_strdup (default None (LIBCAP_CAP_NAMES !! Z.to_nat cap))
  else
    ok ← libc_alloc;
    if ok : bool then libcap_strdup (Some (fmt_uint 10 (u32 cap))) else mret 0.

(** The characters [s] at the end of the text [buf], in a buffer of the size that
    cap_to_text() and cap_iab_to_text() use, with the NUL after them. *)
Definition put (buf s : string) : M K string :=
  assert_ub (strlen buf + strlen s + 1 <=? CAP_TEXT_SIZE + CAP_TEXT_BUFFER_ZONE);;
  mret (buf ++ s).

(** The names of the capabilities in state [t], a comma after each; [None] when
    cap_to_text() returns NULL. *)
Fixpoint names_loop (caps t : Z) (l : list Z) (buf : string) : M K (option string) :=
  match l with
  | [] => mret (Some buf)
  | n :: l =>
      c ← load_cap caps;
      if getstateflags (c_u c) n =? t then
        this_cap_name ← cap_to_name n;
        if this_cap_name =? 0 then mret None
        else
          s ← load_str this_cap_name;
          if CAP_TEXT_SIZE <? strlen s + strlen buf then
            _ ← cap_free this_cap_name; set_errno ERANGE;; mret None
          else
            buf ← put buf (s ++ ",");
            _ ← cap_free this_cap_name;
            names_loop caps t l buf
      else names_loop caps t l buf
  end.

(** The operators after the names, given the prevailing state [m]; the flag says
    whether the leading "= " was dropped. *)
Definition group_ops (m t : Z) (first : bool) : string * bool :=
  let n := Z.ldiff t m in
  let '(s, base) := if negb (n =? 0)
    then ((if first then "=" else "+") ++ letters n, first) else ("", false) in
  let n := Z.ldiff m t in
  ((s ++ (if negb (n =? 0) then "-" ++ letters n else "")), base).

(** Whether [base[0] == '=' && base[1] == ' ']; [base] is the start of the
    buffer, or two further on. *)
Definition bare_default (base : bool) (buf : string) : bool :=
  let buf := if base then str_drop 2 buf else buf in
  Ascii.eqb (head buf) "=" && Ascii.eqb (head (tail buf)) " ".

(** The loop over the states of the named capabilities. *)
Fixpoint groups_loop (caps m cmb : Z) (histo_ : list Z) (l : list Z) (buf : string) (base : bool)
  : M K (option (string * bool)) :=
  match l with
  | [] => mret (Some (buf, base))
  | t :: l =>
      if (t =? m) || (histo histo_ t =? 0) then groups_loop caps m cmb histo_ l buf base
      else
        buf ← put buf " ";
        r ← names_loop caps t (seqZ 0 cmb) buf;
        match r with
        | None => mret None
        | Some buf =>
            let buf := drop_last buf in
            let '(ops, dropped) := group_ops m t (bare_default base buf) in
            buf ← put buf ops;
            if CAP_TEXT_SIZE <? strlen buf then set_errno ERANGE;; mret None
            else groups_loop caps m cmb histo_ l buf (base || dropped)
        end
  end.

(** The loop over the states of the capabilities the kernel does not have. *)
Fixpoint unnamed_loop (caps cmb : Z) (histo_ : list Z) (l : list Z) (buf : string) : M K (option string) :=
  match l with
  | [] => mret (Some buf)
  | t :: l =>
      if histo histo_ t =? 0 then unnamed_loop caps cmb histo_ l buf
      else
        buf ← put buf " ";
        r ← names_loop caps t (seqZ cmb (CAP_MAXBITS - cmb)) buf;
        match r with
        | None => mret None
        | Some buf =>
            buf ← put (drop_last buf) ("+" ++ letters t);
            if CAP_TEXT_SIZE <? strlen buf then set_errno ERANGE;; mret None
            else unnamed_loop caps cmb histo_ l buf
        end
  end.

Definition no_text : M K (Z * option Z) := mret (0, None).

(** The text, and what is stored through [length_p] unless that is NULL. *)
Definition cap_to_text (caps : Z) (want : bool) : M K (Z * option Z) :=
  good ← good_cap_t caps;
  if negb good then set_errno EINVAL;; no_text
  else
    cmb ← cap_max_bits;
    c ← load_cap caps;
    let h := histogram (c_u c) (seqZ 0 cmb) in
    let m := common_state h in
    buf ← put "" ("=" ++ letters m);
    r ← groups_loop caps m cmb h (countdown 8) buf false;
    match (r : option (string * bool)) with
    | None => no_text
    | Some (buf, base) =>
        let h := histogram (c_u c) (seqZ cmb (CAP_MAXBITS - cmb)) in
        r ← unnamed_loop caps cmb h (reverse (seqZ 1 7)) buf;
        match (r : option string) with
        | None => no_text
        | Some buf =>
            let text := if base then str_drop 2 buf else buf in
            result ← libcap_strdup (Some text);
            mret (result, if want then Some (strlen text) else None : option Z)
        end
    end.

Definition cap_mode_name (flavor : Z) : string :=
  if flavor =? CAP_MODE_NOPRIV then "NOPRIV"
  else if flavor =? CAP_MODE_PURE1E_INIT then "PURE1E_INIT"
  else if flavor =? CAP_MODE_PURE1E then "PURE1E"
  else if flavor =? CAP_MODE_UNCERTAIN then "UNCERTAIN"
  else if flavor =? CAP_MODE_HYBRID then "HYBRID"
  else "UNKNOWN".

(** *** IAB tuples *)

(** What cap_iab_to_text() writes for one capability of the tuple: nothing, or a
    comma unless it is the first, the prefixes and the name. *)
Definition iab_piece (t : cap_iab_s) (c : Z) (first : bool) : option string :=
  let ib := has_bit (iab_i t) c in
  let ab := has_bit (iab_a t) c in
  let nbb := has_bit (iab_nb t) c in
  if negb (nbb || ab || ib) then None
  else
    let name :=
      if c <? CAP_BITS then default "" (default None (LIBCAP_CAP_NAMES !! Z.to_nat c))
      else fmt_uint 10 c in
    Some ((if first then "" else ",") ++ (if nbb then "!" else "") ++
          (if ab then "^" else if nbb && ib then "%" else "") ++ name).

Fixpoint iab_to_text_loop (t : cap_iab_s) (l : list Z) (first : bool) (buf : string) : M K string :=
  match l with
  | [] => mret buf
  | c :: l =>
      match iab_piece t c first with
      | None => iab_to_text_loop t l first buf
      | Some s => buf ← put buf s; iab_to_text_loop t l false buf
      end
  end.

Definition cap_iab_to_text (iab : Z) : M K Z :=
  cmb ← cap_max_bits;
  good ← good_cap_iab_t iab;
  buf ← (if good : bool then
           mu_lock iab;;
           t ← load_iab iab;
           buf ← iab_to_text_loop t (seqZ 0 cmb) true "";
           mu_unlock iab;;
           mret buf
         else mret "");
  libcap_strdup (Some buf).

Definition cap_iab_from_text (text : option string) : M K Z :=
  iab ← cap_iab_init;
  if iab =? 0 then mret iab
  else
    match text with
    | None => mret iab
    | Some text =>
        cmb ← cap_max_bits;
        t ← load_iab iab;
        match iab_text_loop gperf (S (String.length text)) cmb 0 text t with
        | PSpin => spin
        | PGood t => modify_iab iab (fun _ => t);; mret iab
        | PBad => _ ← cap_free iab; set_errno EINVAL;; mret 0
        end
    end.

(** *** /proc *)

Definition set_proc_dir (p : Z) (g : globals) : globals :=
  mkGlobals (g_max_bits g) (g_libcap_mutex g) (g_overrode_syscalls g) (g_linked_psx g)
    (g_multithread g) (g_singlethread g) p.

Definition cap_proc_root (root : option string) : M K Z :=
  old ← gets (fun w => g_proc_dir (glob w));
  match root with
  | None => mret old
  | Some _ => dir ← libcap_strdup root; put_glob (set_proc_dir dir);; mret old
  end.

(** The destructor [_cleanup_libcap]. *)
Definition cleanup_libcap : M K unit :=
  dir ← gets (fun w => g_proc_dir (glob w));
  if dir =? 0 then mret tt
  else _ ← cap_free dir; put_glob (set_proc_dir 0).

End text.

(** What fopen(3) and successive fgets(3) of at most [size] - 1 characters read
    from a file: None when it cannot be opened. *)
Class ProcFs (K : Type) := {
  sys_lines : K -> string -> Z -> option (list string)
}.

Definition PROC_LINE_MAX : Z := 8 + 8 * LIBCAP_CAPABILITY_U32S + 100.

(** One line of /proc/<pid>/status. *)
Definition status_line (cmb : Z) (line : string) (s : cap_iab_s * Z) : cap_iab_s * Z :=
  let '(t, ok) := s in
  let take (vals : list Z) (invert : bool) (flag : Z) :=
    let '(v, good) := parse_vec_string cmb vals (str_drop 8 line) invert in
    (v, Z.lor (if good : bool then flag else 0) ok) in
  if negb (String.prefix "Cap" line) then s
  else if String.prefix ("Inh:" ++ String "009" "") (str_drop 3 line) then
    let '(v, ok) := take (iab_i t) false LIBCAP_IAB_I_FLAG in
    (mkIab (iab_mutex t) v (iab_a t) (iab_nb t), ok)
  else if String.prefix ("Bnd:" ++ String "009" "") (str_drop 3 line) then
    let '(v, ok) := take (iab_nb t) true LIBCAP_IAB_NB_FLAG in
    (mkIab (iab_mutex t) (iab_i t) (iab_a t) v, ok)
  else if String.prefix ("Amb:" ++ String "009" "") (str_drop 3 line) then
    let '(v, ok) := take (iab_a t) false LIBCAP_IAB_A_FLAG in
    (mkIab (iab_mutex t) (iab_i t) v (iab_nb t), ok)
  else s.

Definition cap_iab_get_pid {K} `{!Kernel K, !ProcFs K} (pid : Z) : M K Z :=
  dir ← gets (fun w => g_proc_dir (glob w));
  proc_root ← (if dir =? 0 then mret "/proc" else load_str dir);
  printed ← libc_alloc;
  if negb printed then mret 0
  else
    file ← gets (fun w => sys_lines (kst w) (proc_root ++ "/" ++ fmt_d pid ++ "/status") (PROC_LINE_MAX - 1));
    match file with
    | None => mret 0
    | Some lines =>
        iab ← cap_iab_init;
        ok ← (if iab =? 0 then mret 0
              else
                cmb ← cap_max_bits;
                t ← load_iab iab;
                let '(t, ok) := foldl (fun s line => status_line cmb line s) (t, 0) lines in
                modify_iab iab (fun _ => t);; mret ok);
        if negb (ok =? Z.lor LIBCAP_IAB_IA_FLAG LIBCAP_IAB_NB_FLAG)
        then _ ← cap_free iab; mret 0
        else mret iab
    end.
