(* ===== verification/TextLex.v ===== *)
(** Lemmas on the lexical level of cap_text.c: character classes, name
    comparison, numbers, and the lookup that turns a token into a capability
    number and returns what follows it. *)

From stdpp Require Import gmap list sets.
From Stdlib Require Import ZArith Lia String Ascii.
From S2P Require Import Prelude Capability World Exec Syscall Alloc Flag FlagSpec IabSpec Text.

Open Scope string_scope.
Open Scope Z_scope.

#[local] Arguments String.append !_ _ / : simpl nomatch.

(** Characters that can be part of a token, and those that end one. *)
Definition wordc (c : ascii) : bool := isalnum c || Ascii.eqb c "_".
Definition lowerc (c : ascii) : bool := wordc c && Ascii.eqb (tolower c) c.

Fixpoint all_chars (f : ascii -> bool) (s : string) : bool :=
  match s with EmptyString => true | String c s => f c && all_chars f s end.

(** [s] begins with a character that is no part of a token: it is [c :: r]. *)
Definition delimited (s : string) : Prop := wordc (head s) = false.

Lemma str_app_nil_r s : s ++ "" = s.
Proof. induction s as [|c s IH]; [done|]. simpl. by rewrite IH. Qed.
Lemma str_app_assoc a b c : (a ++ b) ++ c = a ++ (b ++ c).
Proof. induction a as [|x a IH]; [done|]. simpl. by rewrite IH. Qed.
Lemma str_length_app a b : String.length (a ++ b) = (String.length a + String.length b)%nat.
Proof. induction a as [|x a IH]; [done|]. simpl. by rewrite IH. Qed.
Lemma substring_length n s : String.length (String.substring 0 n s) = Nat.min n (String.length s).
Proof. revert n. induction s as [|c s IH]; intros [|n]; cbn; try done. by rewrite IH. Qed.
Lemma all_chars_app f a b : all_chars f (a ++ b) = all_chars f a && all_chars f b.
Proof. induction a as [|c a IH]; [done|]. simpl. by rewrite IH, andb_assoc. Qed.

Lemma starts_word_head s : starts_word s = wordc (head s).
Proof. done. Qed.

Lemma lowerc_tolower c : lowerc c = true -> tolower c = c.
Proof. unfold lowerc. intros [_ H]%andb_prop. by apply Ascii.eqb_eq. Qed.
Lemma lowerc_wordc c : lowerc c = true -> wordc c = true.
Proof. unfold lowerc. by intros [H _]%andb_prop. Qed.

Lemma ascii_eqb_false a b : a <> b -> Ascii.eqb a b = false.
Proof. intros H. by apply Ascii.eqb_neq. Qed.

(** Lower case turns no other character into a word character. *)
Lemma tolower_wordc c : wordc (tolower c) = wordc c.
Proof.
  destruct c as [[] [] [] [] [] [] [] []]; reflexivity.
Qed.

Fixpoint str_lower (s : string) : string :=
  match s with EmptyString => "" | String c s => String (tolower c) (str_lower s) end.

Lemma str_lower_id s : all_chars lowerc s = true -> str_lower s = s.
Proof.
  induction s as [|c s IH]; [done|]. simpl. intros [Hc Hs]%andb_prop.
  by rewrite lowerc_tolower, IH.
Qed.

(** namcmp() on a token and what follows it: the same name but for case. *)
Lemma namcmp_spec a b rest :
  all_chars wordc a = true -> all_chars lowerc b = true -> delimited rest ->
  namcmp (a ++ rest) b = if String.eqb (str_lower a) b then Some rest else None.
Proof.
  intros Ha Hb Hr. revert a Ha. induction b as [|n b IH]; intros [|c a] Ha; simpl in *.
  - by rewrite starts_word_head, Hr.
  - apply andb_prop in Ha as [Hc _]. unfold starts_word. simpl. by fold (wordc c); rewrite Hc.
  - apply andb_prop in Hb as [Hn%lowerc_wordc _].
    rewrite ascii_eqb_false; [done|]. intros E. apply (f_equal wordc) in E.
    rewrite tolower_wordc, Hr in E. congruence.
  - apply andb_prop in Ha as [Hc Ha]. apply andb_prop in Hb as [Hn Hb].
    destruct (Ascii.eqb (tolower c) n); [by apply IH|done].
Qed.

(** *** The name table *)

(** [_cap_names[n]] *)
Definition cap_name (n : Z) : string := default "" (default None (LIBCAP_CAP_NAMES !! Z.to_nat n)).

Definition namec (c : ascii) : bool := isalpha c || Ascii.eqb c "_".

Lemma namec_wordc c : namec c = true -> wordc c = true.
Proof. unfold namec, wordc, isalnum. destruct (isalpha c); [done|]. cbn [orb]. intros ->. by rewrite orb_true_r. Qed.

Lemma all_chars_impl (f g : ascii -> bool) s :
  (forall c, f c = true -> g c = true) -> all_chars f s = true -> all_chars g s = true.
Proof.
  intros Hfg. induction s as [|c s IH]; [done|]. simpl. intros [Hc Hs]%andb_prop. by rewrite Hfg, IH.
Qed.

Lemma cap_names_facts n :
  0 <= n < CAP_BITS ->
  LIBCAP_CAP_NAMES !! Z.to_nat n = Some (Some (cap_name n)) /\
  all_chars namec (cap_name n) = true /\ all_chars lowerc (cap_name n) = true /\
  wordc (head (cap_name n)) = true /\ isdigit (head (cap_name n)) = false /\
  String.eqb (cap_name n) "all" = false /\ strlen (cap_name n) < CAP_NAME_SIZE.
Proof.
  intros Hn.
  assert (forallb (fun n => bool_decide (LIBCAP_CAP_NAMES !! Z.to_nat n = Some (Some (cap_name n))) &&
    all_chars namec (cap_name n) && all_chars lowerc (cap_name n) && wordc (head (cap_name n)) &&
    negb (isdigit (head (cap_name n))) && negb (String.eqb (cap_name n) "all") &&
    (strlen (cap_name n) <? CAP_NAME_SIZE)) (seqZ 0 CAP_BITS) = true) as H by (vm_compute; reflexivity).
  rewrite forallb_forall in H. specialize (H n ltac:(apply list_elem_of_In, elem_of_seqZ; lia)).
  rewrite !andb_true_iff, bool_decide_eq_true, !negb_true_iff, Z.ltb_lt in H. tauto.
Qed.

Lemma cap_names_distinct n m :
  0 <= n < CAP_BITS -> 0 <= m < CAP_BITS -> cap_name n = cap_name m -> n = m.
Proof.
  intros Hn Hm E.
  assert (NoDup (cap_name <$> seqZ 0 CAP_BITS)) as Hnd
    by (apply (proj1 (bool_decide_eq_true (NoDup (cap_name <$> seqZ 0 CAP_BITS)))); vm_compute; reflexivity).
  assert (Z.to_nat n = Z.to_nat m) as H; [|lia].
  eapply (NoDup_lookup _ _ _ (cap_name n) Hnd);
    rewrite list_lookup_fmap_Some; [exists n|exists m]; (split; [done|]);
    apply lookup_seqZ; lia.
Qed.

(** The countdown finds the name, if it starts at or above it. *)
Lemma name_loop_spec k n s rest :
  (k <= Z.to_nat CAP_BITS)%nat -> 0 <= n < Z.of_nat k ->
  all_chars wordc s = true -> str_lower s = cap_name n -> delimited rest ->
  name_loop k (s ++ rest) = Some (n, rest).
Proof.
  intros Hk Hn Hs Hlow Hr. induction k as [|k IH]; [lia|]. cbn [name_loop].
  destruct (cap_names_facts (Z.of_nat k)) as (Hl & _ & Hlo & _); [lia|].
  rewrite Nat2Z.id in Hl. rewrite Hl, namcmp_spec, Hlow by done.
  destruct (String.eqb_spec (cap_name n) (cap_name (Z.of_nat k))) as [E|E].
  - apply cap_names_distinct in E as ->; [done|lia..].
  - apply IH; [lia|]. assert (n <> Z.of_nat k) by congruence. lia.
Qed.

Lemma span_name_spec s rest :
  all_chars namec s = true -> delimited rest -> span_name (s ++ rest) = (s, rest).
Proof.
  intros Hs Hr. induction s as [|c s IH]; simpl in *.
  - destruct rest as [|c r]; [done|]. unfold delimited in Hr. simpl in Hr. simpl.
    fold (namec c). destruct (namec c) eqn:E; [apply namec_wordc in E; congruence|done].
  - apply andb_prop in Hs as [Hc Hs]. fold (namec c). by rewrite Hc, IH.
Qed.

(** gperf's function finds exactly the names of the table, whatever their case:
    what its %ignore-case option documents. *)
Definition gperf_ok (gperf : option (string -> option Z)) : Prop :=
  match gperf with
  | None => True
  | Some f => forall s n, f s = Some n <-> 0 <= n < CAP_BITS /\ str_lower s = cap_name n
  end.

(** *** Tokens *)

(** [s] is a way to write the capability [n]. *)
Definition token_ok (gperf : option (string -> option Z)) (cmb : Z) (s : string) (n : Z) : Prop :=
  valid_cap n /\ wordc (head s) = true /\
  forall rest, delimited rest ->
    lookupname gperf cmb (s ++ rest) = Some (n, rest) /\ namcmp (s ++ rest) "all" = None.

Lemma head_app s rest : wordc (head s) = true -> head (s ++ rest) = head s.
Proof. by destruct s. Qed.

Lemma str_lower_digit s : isdigit (head (str_lower s)) = isdigit (head s).
Proof. destruct s as [|c s]; [done|]. simpl. destruct c as [[] [] [] [] [] [] [] []]; reflexivity. Qed.

Lemma str_lower_word s : wordc (head (str_lower s)) = wordc (head s).
Proof. destruct s as [|c s]; [done|]. simpl. apply tolower_wordc. Qed.

Lemma str_lower_namec s : all_chars namec (str_lower s) = all_chars namec s.
Proof.
  induction s as [|c s IH]; [done|]. simpl. rewrite IH. f_equal.
  destruct c as [[] [] [] [] [] [] [] []]; reflexivity.
Qed.

(** A name of the table, in any mix of cases. *)
Lemma token_name gperf cmb s n :
  gperf_ok gperf -> 0 <= n < CAP_BITS -> (gperf = None -> n < cmb) -> str_lower s = cap_name n ->
  token_ok gperf cmb s n.
Proof.
  intros Hg Hn Hcmb Hs. destruct (cap_names_facts n Hn) as (_ & Hnc & _ & Hw & Hd & Hall & _).
  rewrite <-Hs, str_lower_namec in Hnc. rewrite <-Hs, str_lower_word in Hw.
  rewrite <-Hs, str_lower_digit in Hd.
  assert (all_chars wordc s = true) as Hws by (eapply all_chars_impl; [apply namec_wordc|done]).
  split; [unfold valid_cap; change CAP_BITS with 41 in Hn; change CAP_MAXBITS with 64; lia|].
  split; [done|]. intros rest Hr. split.
  - unfold lookupname. rewrite head_app, Hd by done. destruct gperf as [f|].
    + rewrite span_name_spec by done. by rewrite (proj2 (Hg s n)).
    + specialize (Hcmb eq_refl). apply name_loop_spec; try done;
        destruct (Z.ltb_spec CAP_BITS cmb); rewrite ?Z2Nat.id; change CAP_BITS with 41 in *; lia.
  - rewrite namcmp_spec by done. by rewrite Hs, Hall.
Qed.

(** Numbers: what ends a token is no digit of any base. *)
Lemma digit_val_delimited rest : delimited rest -> digit_val (head rest) = 99.
Proof.
  unfold delimited, wordc, isalnum, isalpha, digit_val. intros H.
  apply orb_false_iff in H as [[[H1 H2]%orb_false_iff H3]%orb_false_iff _]. rewrite H3.
  unfold between in *.
  destruct (Z.leb_spec 97 (code (head rest))), (Z.leb_spec (code (head rest)) 102); cbn [andb];
    try (destruct (Z.leb_spec 97 (code (head rest))), (Z.leb_spec (code (head rest)) 122); simpl in H2; lia || done);
  destruct (Z.leb_spec 65 (code (head rest))), (Z.leb_spec (code (head rest)) 70); cbn [andb]; try done;
    destruct (Z.leb_spec 65 (code (head rest))), (Z.leb_spec (code (head rest)) 90); simpl in H1; lia || done.
Qed.

Lemma strtoul_digits_app base acc s n rest :
  base <= 16 -> strtoul_digits base acc s = (n, "") -> delimited rest ->
  strtoul_digits base acc (s ++ rest) = (n, rest).
Proof.
  intros Hb Hs Hr. revert acc Hs. induction s as [|c s IH]; intros acc Hs; simpl in *.
  - injection Hs as ->. destruct rest as [|c r]; [done|]. simpl.
    pose proof (digit_val_delimited _ Hr) as Hd. cbn [head] in Hd. rewrite Hd.
    by destruct (Z.ltb_spec 99 base); [lia|].
  - destruct (digit_val c <? base); [by apply IH|done].
Qed.

(** Written in any of the bases of strtoul(3). *)
Lemma token_number gperf cmb s n :
  isdigit (head s) = true -> strtoul s = (n, "") -> valid_cap n -> token_ok gperf cmb s n.
Proof.
  intros Hd Hs Hn. assert (wordc (head s) = true) as Hw
    by (unfold wordc, isalnum; rewrite Hd; by rewrite orb_true_r).
  split; [done|]. split; [done|]. intros rest Hr. split.
  - unfold lookupname. rewrite head_app, Hd by done.
    assert (strtoul (s ++ rest) = (n, rest)) as ->.
    { unfold strtoul in *. rewrite head_app by done. destruct s as [|c s]; [done|]. cbn [head tail] in *.
      change (String c s ++ rest) with (String c (s ++ rest)). cbn [tail].
      destruct (Ascii.eqb c "0").
      - destruct s as [|x s].
        + change ("" ++ rest) with rest. change (strtoul_digits 8 0 (String c "") = (n, "")) in Hs.
          assert (forall y, wordc y = true -> Ascii.eqb (head rest) y = false) as Hne.
          { intros y Hy. apply ascii_eqb_false. intros E. unfold delimited in Hr. congruence. }
          rewrite !Hne by done. cbn [orb andb]. by apply (strtoul_digits_app 8 0 (String c "")).
        + change (String x s ++ rest) with (String x (s ++ rest)). cbn [head tail] in *.
          destruct (Ascii.eqb x "x" || Ascii.eqb x "X") eqn:Ex; cbn [andb] in *.
          * destruct s as [|y s]; cbn [head tail] in *.
            { cbn [digit_val] in Hs. change ("" ++ rest) with rest.
              rewrite digit_val_delimited by done.
              change (99 <? 16) with false. change (digit_val NUL <? 16) with false in Hs.
              by apply (strtoul_digits_app 8 0 (String c (String x ""))). }
            change (String y s ++ rest) with (String y (s ++ rest)). cbn [head].
            destruct (digit_val y <? 16).
            -- by apply (strtoul_digits_app 16 0 (String y s)).
            -- by apply (strtoul_digits_app 8 0 (String c (String x (String y s)))).
          * by apply (strtoul_digits_app 8 0 (String c (String x s))).
      - by apply (strtoul_digits_app 10 0 (String c s)). }
    destruct (Z.leb_spec CAP_MAXBITS n) as [Hle|]; [unfold valid_cap in Hn; lia|done].
  - destruct s as [|c s]; [done|]. cbn [head] in Hd.
    change (String c s ++ rest) with (String c (s ++ rest)). cbn [namcmp head].
    rewrite ascii_eqb_false; [done|]. intros E. revert Hd. 
    destruct c as [[] [] [] [] [] [] [] []]; done.
Qed.

(** What cap_to_name() and cap_iab_to_text() write for a capability. *)
Definition cap_token (n : Z) : string := if n <? CAP_BITS then cap_name n else fmt_uint 10 n.

Lemma cap_token_ok gperf cmb n :
  gperf_ok gperf -> valid_cap n -> (gperf = None -> n < cmb \/ CAP_BITS <= n) ->
  token_ok gperf cmb (cap_token n) n.
Proof.
  intros Hg Hn Hc. unfold cap_token. destruct (Z.ltb_spec n CAP_BITS).
  - apply token_name; try done; [unfold valid_cap in Hn; lia|intros ->; destruct (Hc eq_refl); [done|lia]|].
    apply str_lower_id. apply cap_names_facts. unfold valid_cap in Hn. lia.
  - assert (forallb (fun n => isdigit (head (fmt_uint 10 n)) &&
      bool_decide (strtoul (fmt_uint 10 n) = (n, ""))) (seqZ 0 CAP_MAXBITS) = true) as H' by (vm_compute; reflexivity).
    rewrite forallb_forall in H'. specialize (H' n ltac:(apply list_elem_of_In, elem_of_seqZ; unfold valid_cap in Hn; lia)).
    apply andb_prop in H' as [H1 H2%bool_decide_eq_true]. by apply token_number.
Qed.

Lemma cap_token_length n : valid_cap n -> strlen (cap_token n) < CAP_NAME_SIZE.
Proof.
  intros Hn. assert (forallb (fun n => strlen (cap_token n) <? CAP_NAME_SIZE) (seqZ 0 CAP_MAXBITS) = true) as H
    by (vm_compute; reflexivity).
  rewrite forallb_forall in H. apply Z.ltb_lt, H, list_elem_of_In, elem_of_seqZ. unfold valid_cap in Hn. lia.
Qed.

(** *** Progress: what a lookup leaves is shorter than what it was given *)

Lemma namcmp_length s b r : namcmp s b = Some r -> (String.length r <= String.length s)%nat.
Proof.
  revert s. induction b as [|n b IH]; intros s; simpl.
  - destruct (starts_word s); [done|]. by injection 1 as ->.
  - destruct (Ascii.eqb (tolower (head s)) n); [|done]. intros H%IH. destruct s; simpl in *; lia.
Qed.

Lemma namcmp_progress s b r :
  b <> "" -> all_chars lowerc b = true -> namcmp s b = Some r -> (String.length r < String.length s)%nat.
Proof.
  destruct b as [|n b]; [done|]. intros _ [Hn _]%andb_prop. cbn [namcmp].
  destruct (Ascii.eqb_spec (tolower (head s)) n) as [E|]; [|done]. intros H%namcmp_length.
  destruct s as [|c s]; simpl in *; [|lia]. subst n. done.
Qed.

Lemma strtoul_digits_length base acc s :
  (String.length (strtoul_digits base acc s).2 <= String.length s)%nat.
Proof.
  revert acc. induction s as [|c s IH]; intros acc; simpl; [done|].
  destruct (digit_val c <? base); simpl; [|lia]. specialize (IH (acc * base + digit_val c)). lia.
Qed.

Lemma strtoul_digits_progress base acc c s :
  digit_val c < base -> (String.length (strtoul_digits base acc (String c s)).2 < String.length (String c s))%nat.
Proof.
  intros Hd. simpl. destruct (Z.ltb_spec (digit_val c) base); [|lia].
  pose proof (strtoul_digits_length base (acc * base + digit_val c) s). lia.
Qed.

Lemma digit_val_digit c : isdigit c = true -> 0 <= digit_val c < 10.
Proof.
  intros H. unfold digit_val. rewrite H. unfold isdigit, between in H. lia.
Qed.

Lemma strtoul_progress s :
  isdigit (head s) = true -> (String.length (strtoul s).2 < String.length s)%nat.
Proof.
  intros Hd. unfold strtoul. destruct s as [|c s]; [done|]. cbn [head tail] in *.
  pose proof (digit_val_digit c Hd). destruct (Ascii.eqb_spec c "0") as [->|]; [|apply strtoul_digits_progress; lia].
  destruct (_ && _); [|by apply strtoul_digits_progress].
  pose proof (strtoul_digits_length 16 0 (tail s)). destruct s; simpl in *; lia.
Qed.

Lemma span_name_length s : (String.length (span_name s).2 <= String.length s)%nat.
Proof.
  induction s as [|c s IH]; simpl; [done|]. destruct (_ || _); simpl; [|lia].
  destruct (span_name s) as [a r]. simpl in *. lia.
Qed.

Lemma name_loop_progress k s n r :
  (k <= Z.to_nat CAP_BITS)%nat -> name_loop k s = Some (n, r) ->
  0 <= n < CAP_BITS /\ (String.length r < String.length s)%nat.
Proof.
  intros Hk. induction k as [|k IH]; [done|]. cbn [name_loop].
  assert (0 <= Z.of_nat k < CAP_BITS) as Hk' by lia.
  destruct (cap_names_facts (Z.of_nat k) Hk') as (Hl & _ & Hlo & Hw & _).
  rewrite Nat2Z.id in Hl. rewrite Hl. destruct (namcmp s _) as [r'|] eqn:E; [|intros; apply IH; [lia|done]].
  injection 1 as <- <-. split; [done|]. eapply namcmp_progress; [|done..]. intros E0. by rewrite E0 in Hw.
Qed.

Lemma lookupname_progress gperf cmb s n r :
  gperf_ok gperf -> wordc (head s) = true -> lookupname gperf cmb s = Some (n, r) ->
  valid_cap n /\ (String.length r < String.length s)%nat.
Proof.
  intros Hg Hw. unfold lookupname, valid_cap. change CAP_MAXBITS with 64. destruct (isdigit (head s)) eqn:Hd.
  - pose proof (strtoul_progress s Hd) as Hp. assert (0 <= (strtoul s).1) as H0.
    { assert (forall base, 0 <= base -> forall s acc, 0 <= acc -> 0 <= (strtoul_digits base acc s).1) as Hpos.
      { intros base Hb s'. induction s' as [|c s' IH]; intros acc Ha; simpl; [done|].
        destruct (digit_val c <? base); [|done]. apply IH. assert (0 <= digit_val c); [|nia].
        unfold digit_val, isdigit, between. repeat (case_match; [lia|]). lia. }
      unfold strtoul. repeat case_match; apply Hpos; lia. }
    destruct (strtoul s) as [n' r']. simpl in *. destruct (Z.leb_spec 64 n'); [done|]. by injection 1 as <- <-.
  - destruct gperf as [f|].
    + pose proof (span_name_length (tail s)) as Hl. destruct s as [|c s]; [done|]. cbn [head tail] in *.
      cbn [span_name]. unfold wordc, isalnum in Hw. rewrite Hd, orb_false_r in Hw. rewrite Hw.
      destruct (span_name s) as [a r']. simpl in Hl. destruct (f _) as [n'|] eqn:E; [|done].
      injection 1 as <- <-. apply Hg in E as [E _]. change CAP_BITS with 41 in E. simpl. lia.
    + intros H%name_loop_progress; [change CAP_BITS with 41 in H; lia|].
      destruct (Z.ltb_spec CAP_BITS cmb); lia.
Qed.
