(* ===== verification/TextSpec.v ===== *)
(** The grammar that cap_from_text() reads, as syntax trees: how they are
    written, what they mean as a change of the three flags of each capability,
    and the proof that the parser implements that meaning on every text the
    grammar describes, and ends on every text there is. *)

From stdpp Require Import gmap list sets.
From Stdlib Require Import ZArith Lia Btauto String Ascii.
From S2P Require Import Prelude Capability World Exec Syscall Alloc Flag FlagSpec IabSpec Text TextLex.

Open Scope string_scope.
Open Scope Z_scope.

#[local] Arguments String.append !_ _ / : simpl nomatch.

(** *** The state of one capability: its three flags as a number below 8 *)

Section states.
Implicit Types (u : list capblk) (x s f g : Z) (l : list Z) (op : capop).

Lemma state_high (a i : Z) : 0 <= a < 8 -> 3 <= i -> Z.testbit a i = false.
Proof.
  intros Ha Hi. destruct (decide (a = 0)) as [->|]; [apply Z.testbit_0_l|].
  apply Z.bits_above_log2; [lia|]. apply Z.lt_le_trans with 3; [|lia].
  apply Z.log2_lt_pow2; [lia|]. change (2 ^ 3) with 8. lia.
Qed.

Lemma state_ext (a b : Z) :
  0 <= a < 8 -> 0 <= b < 8 -> (forall s, valid_set s -> Z.testbit a s = Z.testbit b s) -> a = b.
Proof.
  intros Ha Hb H. apply Z.bits_inj'. intros i Hi. destruct (Z.lt_ge_cases i 3).
  - apply H. unfold valid_set. change NUMBER_OF_CAP_SETS with 3. lia.
  - by rewrite !state_high.
Qed.

Lemma isset_has_cap u x s : negb (isset_cap u x s =? 0) = has_cap u x s.
Proof.
  unfold isset_cap, has_cap. by rewrite land_bit32_eqb, negb_involutive.
Qed.

Definition bits3 (e p i : bool) : Z := Z.b2z e + 2 * Z.b2z p + 4 * Z.b2z i.

Lemma getstateflags_bits u x :
  getstateflags u x = bits3 (has_cap u x CAP_EFFECTIVE) (has_cap u x CAP_PERMITTED) (has_cap u x CAP_INHERITABLE).
Proof.
  unfold getstateflags. rewrite !isset_has_cap.
  by destruct (has_cap u x CAP_EFFECTIVE), (has_cap u x CAP_PERMITTED), (has_cap u x CAP_INHERITABLE).
Qed.

Lemma valid_set_cases s : valid_set s -> s = CAP_EFFECTIVE \/ s = CAP_PERMITTED \/ s = CAP_INHERITABLE.
Proof.
  unfold valid_set, CAP_EFFECTIVE, CAP_PERMITTED, CAP_INHERITABLE. change NUMBER_OF_CAP_SETS with 3. lia.
Qed.

Lemma getstateflags_range u x : 0 <= getstateflags u x < 8.
Proof.
  rewrite getstateflags_bits. unfold bits3. pose proof (Z.b2z_bit0 true).
  repeat match goal with |- context [Z.b2z ?b] => let H := fresh in pose proof (Z.b2z_bit0 b) as H;
    assert (0 <= Z.b2z b <= 1) by (destruct b; cbn; lia); generalize dependent (Z.b2z b); intros end. lia.
Qed.

Lemma getstateflags_testbit u x s : valid_set s -> Z.testbit (getstateflags u x) s = has_cap u x s.
Proof.
  rewrite getstateflags_bits. intros [->|[->| ->]]%valid_set_cases;
    by destruct (has_cap u x CAP_EFFECTIVE), (has_cap u x CAP_PERMITTED), (has_cap u x CAP_INHERITABLE).
Qed.

(** Sets with the same states are equal. *)
Lemma states_inj u u' :
  u_wf u -> u_wf u' -> (forall x, valid_cap x -> getstateflags u x = getstateflags u' x) -> u = u'.
Proof.
  intros Hu Hu' H. apply u_ext; [done..|]. intros x s Hx Hs.
  rewrite <-!getstateflags_testbit by done. by rewrite H.
Qed.

Lemma has_flag_testbit f s : valid_set s -> has_flag f (Z.shiftl 1 s) = Z.testbit f s.
Proof.
  intros Hs. unfold has_flag. destruct (Z.testbit f s) eqn:E.
  - apply negb_true_iff, Z.eqb_neq. intros H. apply (f_equal (fun z => Z.testbit z s)) in H.
    rewrite Z.land_spec, E, Z.testbit_0_l, Z.shiftl_1_l, Z.pow2_bits_true in H; [done|unfold valid_set in Hs; lia].
  - apply negb_false_iff, Z.eqb_eq. apply Z.bits_inj'. intros i Hi.
    rewrite Z.land_spec, Z.shiftl_1_l, Z.testbit_0_l, Z.pow2_bits_eqb by (unfold valid_set in Hs; lia).
    destruct (Z.eqb_spec s i) as [<-|]; [by rewrite E|apply andb_false_r].
Qed.

Lemma has_cap_setbits l set u x s :
  u_wf u -> valid_cap x -> valid_set set -> valid_set s ->
  has_cap (setbits l set 2 u) x s = has_cap u x s || ((set =? s) && vec_bit l x).
Proof.
  intros (b0&b1&->&_&_)%u_wf_inv Hx Hset Hs. unfold has_cap, vec_bit.
  assert (forall b v, Z.testbit (flat (set_flat set (Z.lor (flat b set) v) b) s) (Z.land x 31) =
    Z.testbit (flat b s) (Z.land x 31) || ((set =? s) && Z.testbit v (Z.land x 31))) as H.
  { intros b v. rewrite flat_set_flat by done. destruct (Z.eqb_spec set s) as [->|]; cbn [andb].
    - by rewrite Z.lor_spec.
    - by rewrite orb_false_r. }
  destruct (index_bound x Hx) as [-> | ->]; apply H.
Qed.

Lemma has_cap_clrbits l set u x s :
  u_wf u -> valid_cap x -> valid_set set -> valid_set s ->
  has_cap (clrbits l set 2 u) x s = has_cap u x s && negb ((set =? s) && vec_bit l x).
Proof.
  intros (b0&b1&->&?&?)%u_wf_inv Hx Hset Hs. unfold has_cap, vec_bit.
  pose proof (land31_bound x) as Hb.
  assert (forall b v, blk_wf b -> Z.testbit (flat (set_flat set (Z.land (flat b set) (u32_not v)) b) s) (Z.land x 31) =
    Z.testbit (flat b s) (Z.land x 31) && negb ((set =? s) && Z.testbit v (Z.land x 31))) as Hbit.
  { intros b v Hbw. rewrite flat_set_flat by done. destruct (Z.eqb_spec set s) as [->|]; cbn [andb].
    - rewrite land_not_spec by (lia || by apply blk_wf_flat). done.
    - by rewrite andb_true_r. }
  destruct (index_bound x Hx) as [-> | ->]; by apply Hbit.
Qed.

Lemma u_wf_setbits l set u : words_wf l -> u_wf u -> u_wf (setbits l set 2 u).
Proof.
  intros Hl (b0&b1&->&?&?)%u_wf_inv. apply u_wf_pair; apply blk_wf_set_flat; try done;
    (apply is_u32_lor; [by apply blk_wf_flat|by apply word_wf]).
Qed.

Lemma u_wf_clrbits l set u : u_wf u -> u_wf (clrbits l set 2 u).
Proof.
  intros (b0&b1&->&?&?)%u_wf_inv. apply u_wf_pair; apply blk_wf_set_flat; try done;
    (apply is_u32_land_l; by apply blk_wf_flat).
Qed.

Create HintDb text.
#[local] Hint Resolve u_wf_setbits u_wf_clrbits : text.
#[local] Hint Extern 1 (valid_set _) => done : text.

Lemma u_wf_apply op f l u : words_wf l -> u_wf u -> u_wf (apply_op op f l 2 u).
Proof.
  intros Hl Hu. unfold apply_op, set_flags, clr_flags, clr_all.
  destruct op; repeat case_match; auto 8 with text.
Qed.

(** What an operator with the letters [f] makes of the state [g]. *)
Definition op_state (op : capop) (f g : Z) : Z :=
  match op with
  | OpSet | OpSetAdd => f
  | OpSetDel => 0
  | OpAdd => Z.lor g f
  | OpDel => Z.ldiff g f
  end.

Lemma has_cap_text_flags f l u x s :
  words_wf l -> u_wf u -> valid_cap x -> valid_set s ->
  has_cap (set_flags f l 2 u) x s = has_cap u x s || (Z.testbit f s && vec_bit l x).
Proof.
  intros Hl Hu Hx Hs. unfold set_flags, LIBCAP_EFF, LIBCAP_PER, LIBCAP_INH.
  rewrite !has_flag_testbit by done.
  destruct (valid_set_cases s Hs) as [->|[->| ->]]; repeat case_match;
    rewrite ?has_cap_setbits by auto 6 with text; cbn [Z.eqb CAP_EFFECTIVE CAP_PERMITTED CAP_INHERITABLE andb orb Pos.eqb];
    rewrite ?orb_false_r; congruence || (cbn; by rewrite ?orb_false_r).
Qed.

Lemma has_cap_clr_flags f l u x s :
  words_wf l -> u_wf u -> valid_cap x -> valid_set s ->
  has_cap (clr_flags f l 2 u) x s = has_cap u x s && negb (Z.testbit f s && vec_bit l x).
Proof.
  intros Hl Hu Hx Hs. unfold clr_flags, LIBCAP_EFF, LIBCAP_PER, LIBCAP_INH.
  rewrite !has_flag_testbit by done.
  destruct (valid_set_cases s Hs) as [->|[->| ->]]; repeat case_match;
    rewrite ?has_cap_clrbits by auto 6 with text; cbn [Z.eqb CAP_EFFECTIVE CAP_PERMITTED CAP_INHERITABLE andb orb Pos.eqb negb];
    rewrite ?andb_true_r; congruence || (cbn; by rewrite ?andb_true_r).
Qed.

Lemma has_cap_clr_all l u x s :
  u_wf u -> valid_cap x -> valid_set s ->
  has_cap (clr_all l 2 u) x s = has_cap u x s && negb (vec_bit l x).
Proof.
  intros Hu Hx Hs. unfold clr_all. rewrite !has_cap_clrbits by auto 6 with text.
  destruct (valid_set_cases s Hs) as [->|[->| ->]]; cbn [Z.eqb CAP_EFFECTIVE CAP_PERMITTED CAP_INHERITABLE andb Pos.eqb negb];
    by rewrite ?andb_true_r.
Qed.

Lemma u_wf_clr_all l u : u_wf u -> u_wf (clr_all l 2 u).
Proof. unfold clr_all. auto with text. Qed.

Lemma op_state_testbit op f g s :
  0 <= s -> Z.testbit (op_state op f g) s =
    match op with
    | OpSet | OpSetAdd => Z.testbit f s
    | OpSetDel => false
    | OpAdd => Z.testbit g s || Z.testbit f s
    | OpDel => Z.testbit g s && negb (Z.testbit f s)
    end.
Proof.
  intros Hs. destruct op; cbn [op_state];
    rewrite ?Z.lor_spec, ?Z.ldiff_spec, ?Z.testbit_0_l; done.
Qed.

Lemma state_range (a : Z) : 0 <= a -> (forall i, 3 <= i -> Z.testbit a i = false) -> 0 <= a < 8.
Proof.
  intros H0 H. split; [done|]. destruct (Z.lt_ge_cases a 8) as [|Hge]; [done|]. exfalso.
  assert (3 <= Z.log2 a) as Hl by (apply Z.log2_le_pow2; [lia|]; change (2 ^ 3) with 8; lia).
  pose proof (H _ Hl) as Hb. rewrite Z.bit_log2 in Hb; [done|lia].
Qed.

Lemma op_state_range op f g : 0 <= f < 8 -> 0 <= g < 8 -> 0 <= op_state op f g < 8.
Proof.
  intros Hf Hg. apply state_range.
  - destruct op; cbn [op_state]; try lia; [apply Z.lor_nonneg; lia|apply Z.ldiff_nonneg; lia].
  - intros i Hi. rewrite op_state_testbit by lia. rewrite (state_high f), (state_high g) by done. by destruct op.
Qed.

Lemma state_apply op f l u x :
  words_wf l -> u_wf u -> valid_cap x -> 0 <= f < 8 ->
  getstateflags (apply_op op f l 2 u) x =
    if vec_bit l x then op_state op f (getstateflags u x) else getstateflags u x.
Proof.
  intros Hl Hu Hx Hf. pose proof (getstateflags_range u x) as Hr.
  apply state_ext; [apply getstateflags_range|by destruct (vec_bit l x); [apply op_state_range|]|].
  intros s Hs. rewrite getstateflags_testbit by done.
  assert (Z.testbit (if vec_bit l x then op_state op f (getstateflags u x) else getstateflags u x) s =
    if vec_bit l x then Z.testbit (op_state op f (getstateflags u x)) s else has_cap u x s) as ->
    by (destruct (vec_bit l x); [done|by apply getstateflags_testbit]).
  rewrite op_state_testbit, getstateflags_testbit by (done || unfold valid_set in Hs; lia).
  unfold apply_op. pose proof (u_wf_clr_all l u Hu).
  destruct op; rewrite ?has_cap_text_flags, ?has_cap_clr_flags, ?has_cap_clr_all by done;
    destruct (vec_bit l x), (has_cap u x s), (Z.testbit f s); done.
Qed.

(** Letters are applied one by one; the last turn counts. *)
Lemma apply_op_twice op f f' l u :
  words_wf l -> u_wf u -> 0 <= f < 8 -> 0 <= f' < 8 ->
  apply_op op (Z.lor f f') l 2 (apply_op op f l 2 u) = apply_op op (Z.lor f f') l 2 u.
Proof.
  intros Hl Hu Hf Hf'. assert (0 <= Z.lor f f' < 8) as Hff by by apply (op_state_range OpAdd f' f).
  apply states_inj; [by repeat apply u_wf_apply..|]. intros x Hx. pose proof (getstateflags_range u x).
  rewrite !state_apply by auto using u_wf_apply. destruct (vec_bit l x); [|done].
  apply state_ext; [by repeat apply op_state_range..|]. intros s Hs.
  assert (0 <= s) by (unfold valid_set in Hs; lia).
  rewrite !op_state_testbit by done. destruct op; rewrite ?Z.lor_spec; btauto.
Qed.

End states.

(** *** Syntax *)

(** A capability in a list: the word "all", or one of them, as it is spelled. *)
Inductive capref :=
| AllCaps
| OneCap (spelling : string) (n : Z).

Inductive letter := Le | Li | Lp.

(** A clause: its list of capabilities, empty when none is written; the first
    operator with its letters; and further + and - with theirs, of which there
    is at least one. *)
Record clause_t := Clause {
  cl_refs : list capref;
  cl_op : capop;
  cl_letters : list letter;
  cl_more : list (bool * letter * list letter)
}.

Section syntax.
Variable gperf : option (string -> option Z).
Variable cmb : Z.
Hypothesis Hcmb : 1 <= cmb <= CAP_MAXBITS.
Implicit Types (u : list capblk) (x : Z) (c : clause_t) (s rest : string).

Definition ref_ok (r : capref) : Prop :=
  match r with AllCaps => True | OneCap s n => token_ok gperf cmb s n end.

(** Without a list only a plain = is allowed, and only a plain = can stand
    without letters. *)
Definition clause_ok c : Prop :=
  Forall ref_ok (cl_refs c) /\
  (cl_refs c = [] \/ cl_letters c = [] -> cl_op c = OpSet /\ cl_more c = []).

Definition letter_char (l : letter) : ascii := match l with Le => "e" | Li => "i" | Lp => "p" end.
Definition letter_flag (l : letter) : Z := match l with Le => LIBCAP_EFF | Li => LIBCAP_INH | Lp => LIBCAP_PER end.
Definition letters_flag (ls : list letter) : Z := foldl (fun f l => Z.lor f (letter_flag l)) 0 ls.

Definition show_letters (ls : list letter) : string := foldr (fun l s => String (letter_char l) s) "" ls.
Definition show_op (op : capop) : string :=
  match op with OpSet => "=" | OpAdd => "+" | OpDel => "-" | OpSetAdd => "=+" | OpSetDel => "=-" end.
Definition show_more (m : bool * letter * list letter) : string :=
  let '(add, l, ls) := m in show_op (if add : bool then OpAdd else OpDel) ++ show_letters (l :: ls).
Definition show_ref (r : capref) : string := match r with AllCaps => "all" | OneCap s _ => s end.
Fixpoint show_refs (rs : list capref) : string :=
  match rs with
  | [] => ""
  | [r] => show_ref r
  | r :: rs => show_ref r ++ "," ++ show_refs rs
  end.
Definition show_mores (ms : list (bool * letter * list letter)) : string :=
  foldr (fun m s => show_more m ++ s) "" ms.
Definition show_clause c : string :=
  show_refs (cl_refs c) ++ show_op (cl_op c) ++ show_letters (cl_letters c) ++ show_mores (cl_more c).

(** The text: clauses with a gap of white space after each, and one before. *)
Fixpoint show_clauses (cs : list (clause_t * string)) : string :=
  match cs with [] => "" | (c, gap) :: cs => show_clause c ++ gap ++ show_clauses cs end.

(** *** Meaning *)

(** The capabilities that the kernel has. *)
Definition named_set : gset Z := list_to_set (seqZ 0 cmb).

(** A list is read from left to right, and "all" replaces what was read. *)
Definition ref_set (S : gset Z) (r : capref) : gset Z :=
  match r with AllCaps => named_set | OneCap _ n => S ∪ {[n]} end.
Definition clause_set c : gset Z :=
  match cl_refs c with [] => named_set | rs => foldl ref_set ∅ rs end.

Definition more_state (g : Z) (m : bool * letter * list letter) : Z :=
  let '(add, l, ls) := m in op_state (if add : bool then OpAdd else OpDel) (letters_flag (l :: ls)) g.

(** What a clause does to the state of a capability. *)
Definition clause_state c (x g : Z) : Z :=
  if decide (x ∈ clause_set c)
  then foldl more_state (op_state (cl_op c) (letters_flag (cl_letters c)) g) (cl_more c) else g.
Definition clauses_state (cs : list (clause_t * string)) (x g : Z) : Z :=
  foldl (fun g cg => clause_state cg.1 x g) g cs.

(** The same on the words of a set. *)
Definition ref_words (l : list Z) (r : capref) : list Z :=
  match r with AllCaps => forceall cmb u32_max 2 l | OneCap _ n => raise_cap_mask n l end.
Definition clause_words c : list Z :=
  match cl_refs c with [] => forceall cmb u32_max 2 [0; 0] | rs => foldl ref_words [0; 0] rs end.
Definition more_u (l : list Z) u (m : bool * letter * list letter) : list capblk :=
  let '(add, x, xs) := m in apply_op (if add : bool then OpAdd else OpDel) (letters_flag (x :: xs)) l 2 u.
Definition clause_u c u : list capblk :=
  foldl (more_u (clause_words c)) (apply_op (cl_op c) (letters_flag (cl_letters c)) (clause_words c) 2 u) (cl_more c).
Definition clauses_u (cs : list (clause_t * string)) u : list capblk :=
  foldl (fun u cg => clause_u cg.1 u) u cs.

(** *** The words mean the sets *)

Lemma forceall_spec l :
  words_wf l -> words_wf (forceall cmb u32_max 2 l) /\ vec_caps (forceall cmb u32_max 2 l) = named_set.
Proof.
  intros (a&b&->&_&_)%words_wf_inv.
  change (forceall cmb u32_max 2 [a; b]) with
    [Z.land u32_max (forceall_mask cmb 0); Z.land u32_max (forceall_mask cmb 32)].
  split; [apply words_wf_pair; apply is_u32_land_l, is_u32_max|].
  assert (forallb (fun m => bool_decide (vec_caps_def [Z.land u32_max (forceall_mask m 0); Z.land u32_max (forceall_mask m 32)]
    = list_to_set (seqZ 0 m))) (seqZ 1 CAP_MAXBITS) = true) as H by (vm_compute; reflexivity).
  rewrite forallb_forall in H. specialize (H cmb ltac:(apply list_elem_of_In, elem_of_seqZ; lia)).
  apply bool_decide_eq_true in H. unfold vec_caps. by rewrite (seal_eq vec_caps_aux).
Qed.

Lemma raise_cap_mask_spec n l :
  words_wf l -> valid_cap n -> words_wf (raise_cap_mask n l) /\ vec_caps (raise_cap_mask n l) = vec_caps l ∪ {[n]}.
Proof.
  intros Hl Hn. unfold raise_cap_mask, CAP_TO_MASK. split; [by apply words_wf_or|by apply vec_caps_or].
Qed.

Lemma ref_words_spec rs l :
  Forall ref_ok rs -> words_wf l ->
  words_wf (foldl ref_words l rs) /\ vec_caps (foldl ref_words l rs) = foldl ref_set (vec_caps l) rs.
Proof.
  intros Hrs. revert l. induction Hrs as [|r rs Hr _ IH]; intros l Hl; [done|]. cbn [foldl].
  assert (words_wf (ref_words l r) /\ vec_caps (ref_words l r) = ref_set (vec_caps l) r) as [Hw <-]; [|by apply IH].
  destruct r as [|s n]; [by apply forceall_spec|]. destruct Hr as [Hn _]. by apply raise_cap_mask_spec.
Qed.

Lemma words_wf_0 : words_wf [0; 0].
Proof. apply words_wf_pair; apply is_u32_0. Qed.

Lemma clause_words_spec c :
  clause_ok c -> words_wf (clause_words c) /\ vec_caps (clause_words c) = clause_set c.
Proof.
  intros [Hr _]. unfold clause_words, clause_set. destruct (cl_refs c) as [|r rs]; [apply forceall_spec, words_wf_0|].
  destruct (ref_words_spec (r :: rs) [0; 0] Hr words_wf_0) as [Hw He]. split; [done|].
  rewrite He. f_equal. apply vec_caps_zero.
Qed.

Lemma letter_flag_range l : 0 <= letter_flag l < 8.
Proof. by destruct l. Qed.

Lemma letters_flag_app ls f : 0 <= f < 8 -> foldl (fun f l => Z.lor f (letter_flag l)) f ls = Z.lor f (letters_flag ls).
Proof.
  unfold letters_flag. revert f. induction ls as [|l ls IH] using rev_ind; intros f Hf; [by rewrite Z.lor_0_r|].
  rewrite !foldl_app. cbn [foldl]. rewrite IH by done. by rewrite Z.lor_assoc.
Qed.

Lemma letters_flag_range ls : 0 <= letters_flag ls < 8.
Proof.
  unfold letters_flag. induction ls as [|l ls IH] using rev_ind; [done|]. rewrite foldl_app. cbn [foldl].
  apply (op_state_range OpAdd (letter_flag l)); [apply letter_flag_range|done].
Qed.

Lemma more_u_spec l u m x :
  words_wf l -> u_wf u -> valid_cap x ->
  u_wf (more_u l u m) /\
  getstateflags (more_u l u m) x = if vec_bit l x then more_state (getstateflags u x) m else getstateflags u x.
Proof.
  intros Hl Hu Hx. destruct m as [[add y] ys]. unfold more_u, more_state. split; [by apply u_wf_apply|].
  apply state_apply; try done. apply letters_flag_range.
Qed.

Lemma mores_u_spec l u ms x :
  words_wf l -> u_wf u -> valid_cap x ->
  u_wf (foldl (more_u l) u ms) /\
  getstateflags (foldl (more_u l) u ms) x =
    if vec_bit l x then foldl more_state (getstateflags u x) ms else getstateflags u x.
Proof.
  intros Hl Hu Hx. revert u Hu. induction ms as [|m ms IH]; intros u Hu; cbn [foldl]; [by destruct (vec_bit l x)|].
  destruct (more_u_spec l u m x Hl Hu Hx) as [Hw He]. destruct (IH _ Hw) as [Hw' He']. split; [done|].
  rewrite He', He. by destruct (vec_bit l x).
Qed.

Lemma clause_u_spec c u x :
  clause_ok c -> u_wf u -> valid_cap x ->
  u_wf (clause_u c u) /\ getstateflags (clause_u c u) x = clause_state c x (getstateflags u x).
Proof.
  intros Hc Hu Hx. destruct (clause_words_spec c Hc) as [Hl He]. unfold clause_u, clause_state.
  pose proof (letters_flag_range (cl_letters c)).
  destruct (mores_u_spec (clause_words c) (apply_op (cl_op c) (letters_flag (cl_letters c)) (clause_words c) 2 u)
    (cl_more c) x Hl (u_wf_apply _ _ _ _ Hl Hu) Hx) as [Hw Hs]. split; [done|]. rewrite Hs, !state_apply by done.
  assert (x ∈ clause_set c <-> vec_bit (clause_words c) x = true) as Hin
    by (rewrite <-He, elem_of_vec_caps; tauto).
  destruct (vec_bit (clause_words c) x); case_decide; intuition congruence.
Qed.

Lemma clauses_u_spec cs u x :
  Forall (fun cg => clause_ok cg.1) cs -> u_wf u -> valid_cap x ->
  u_wf (clauses_u cs u) /\ getstateflags (clauses_u cs u) x = clauses_state cs x (getstateflags u x).
Proof.
  intros Hcs Hu Hx. unfold clauses_u, clauses_state. revert u Hu.
  induction Hcs as [|[c gap] cs Hc _ IH]; intros u Hu; [done|]. cbn [foldl fst].
  destruct (clause_u_spec c u x Hc Hu Hx) as [Hw He]. destruct (IH _ Hw) as [Hw' He']. split; [done|].
  by rewrite He', He.
Qed.

End syntax.
