(* ===== verification/TextParse.v ===== *)
(** The parser of cap_from_text() on the texts of the grammar of TextSpec.v, and
    its end on every text. *)

From Stdlib Require Import ZArith Lia String Ascii.
From stdpp Require Import gmap list sets.
From S2P Require Import Prelude Capability World Exec Syscall Alloc Flag FlagSpec IabSpec Text TextLex TextSpec.

Open Scope string_scope.
Open Scope Z_scope.

#[local] Arguments String.append !_ _ / : simpl nomatch.

(** What is left after a clause: nothing, or white space. *)
Definition ends (s : string) : Prop := at_end s || isspace (head s) = true.

Lemma ends_not s c : ends s -> isspace c = false -> is_nul c = false -> Ascii.eqb (head s) c = false.
Proof.
  intros H Hs Hn. apply ascii_eqb_false. intros E. unfold ends, at_end in H. rewrite E, Hs, Hn in H. done.
Qed.

Lemma ends_delimited s : ends s -> delimited s.
Proof.
  unfold ends, delimited, at_end. intros H. destruct (head s) as [[] [] [] [] [] [] [] []]; done.
Qed.

(** *** The actions of a clause *)

Section actions.
Variable l : list Z.
Hypothesis Hl : words_wf l.
Implicit Types (u : list capblk) (op : capop) (f : Z) (s : string).

(** A turn of the loop after the letter was applied. *)
Definition after_turn (fuel : nat) (listed : bool) (op : capop) (f : Z) (s : string) (u : list capblk)
  : parsed (string * list capblk) :=
  match (if Ascii.eqb (head s) "+" || Ascii.eqb (head s) "-" then
           if negb listed then None
           else
             let op := if Ascii.eqb (head s) "+" then OpAdd else OpDel in
             if isalpha (head (tail s)) then Some (op, 0, tail s) else None
         else Some (op, f, s)) with
  | None => PBad
  | Some (op, f, s) =>
      if negb (at_end s) && negb (isspace (head s))
      then actions_loop fuel listed l 2 op f s u
      else PGood (s, u)
  end.

Lemma letter_turn fuel listed op f x s u :
  actions_loop (S fuel) listed l 2 op f (String (letter_char x) s) u =
  after_turn fuel listed op (Z.lor f (letter_flag x)) s (apply_op op (Z.lor f (letter_flag x)) l 2 u).
Proof. by destruct x. Qed.

Lemma after_letter fuel listed op f x s u :
  after_turn fuel listed op f (String (letter_char x) s) u =
  actions_loop fuel listed l 2 op f (String (letter_char x) s) u.
Proof. by destruct x. Qed.

Lemma after_end fuel listed op f s u : ends s -> after_turn fuel listed op f s u = PGood (s, u).
Proof.
  intros H. unfold after_turn. rewrite !ends_not by done. cbn [orb].
  unfold ends in H. destruct (at_end s), (isspace (head s)); done.
Qed.

Lemma letters_flag_cons x xs : letters_flag (x :: xs) = Z.lor (letter_flag x) (letters_flag xs).
Proof.
  unfold letters_flag at 1. cbn [foldl]. rewrite Z.lor_0_l. apply letters_flag_app, letter_flag_range.
Qed.

Lemma letters_run fuel listed op f x xs s u :
  u_wf u -> 0 <= f < 8 -> (length (x :: xs) <= fuel)%nat ->
  actions_loop fuel listed l 2 op f (show_letters (x :: xs) ++ s) u =
  after_turn (fuel - length (x :: xs)) listed op (Z.lor f (letters_flag (x :: xs))) s
    (apply_op op (Z.lor f (letters_flag (x :: xs))) l 2 u).
Proof.
  revert fuel f x u. induction xs as [|y xs IH]; intros fuel f x u Hu Hf Hfuel;
    (destruct fuel as [|fuel]; [simpl in Hfuel; lia|]).
  - change (show_letters [x] ++ s) with (String (letter_char x) s). rewrite letter_turn.
    replace (S fuel - length [x])%nat with fuel by (simpl; lia). done.
  - change (show_letters (x :: y :: xs) ++ s) with (String (letter_char x) (show_letters (y :: xs) ++ s)).
    pose proof (letter_flag_range x). assert (0 <= Z.lor f (letter_flag x) < 8) as Hfx
      by by apply (op_state_range OpAdd (letter_flag x) f).
    rewrite letter_turn. change (show_letters (y :: xs) ++ s) with (String (letter_char y) (show_letters xs ++ s)).
    rewrite after_letter. change (String (letter_char y) (show_letters xs ++ s)) with (show_letters (y :: xs) ++ s).
    rewrite IH by (try apply u_wf_apply; done || (simpl in *; lia)).
    rewrite apply_op_twice by (done || apply letters_flag_range).
    assert (Z.lor (Z.lor f (letter_flag x)) (letters_flag (y :: xs)) = Z.lor f (letters_flag (x :: y :: xs))) as ->.
    { by rewrite (letters_flag_cons x), Z.lor_assoc. }
    reflexivity.
Qed.

Lemma length_show_letters xs : String.length (show_letters xs) = length xs.
Proof. induction xs as [|x xs IH]; [done|]. simpl. by rewrite <-IH. Qed.

Lemma mores_run ms fuel op f s u :
  u_wf u -> ends s -> (String.length (show_mores ms) <= fuel)%nat ->
  after_turn fuel true op f (show_mores ms ++ s) u = PGood (s, foldl (more_u l) u ms).
Proof.
  intros Hu Hs. revert fuel op f u Hu. induction ms as [|[[add x] xs] ms IH]; intros fuel op f u Hu Hfuel.
  - by apply after_end.
  - set (op' := if add then OpAdd else OpDel). set (t := show_mores ms ++ s).
    assert (show_mores ((add, x, xs) :: ms) ++ s = show_op op' ++ show_letters (x :: xs) ++ t) as ->.
    { subst op' t. cbn [show_mores foldr show_more]. fold (show_mores ms). by rewrite !str_app_assoc. }
    assert (after_turn fuel true op f (show_op op' ++ show_letters (x :: xs) ++ t) u =
      actions_loop fuel true l 2 op' 0 (show_letters (x :: xs) ++ t) u) as ->
      by (subst op'; by destruct add, x).
    cbn [show_mores foldr show_more] in Hfuel. fold (show_mores ms) in Hfuel. fold op' in Hfuel.
    rewrite !str_length_app, length_show_letters in Hfuel.
    rewrite letters_run by (done || lia). rewrite Z.lor_0_l. cbn [foldl more_u]. fold op'.
    apply IH; [by apply u_wf_apply|lia].
Qed.

Lemma actions_run fuel listed c s u :
  u_wf u -> ends s -> (cl_more c = [] \/ listed = true) ->
  (cl_letters c = [] -> cl_op c = OpSet /\ cl_more c = []) ->
  (String.length (show_letters (cl_letters c) ++ show_mores (cl_more c)) < fuel)%nat ->
  actions_loop fuel listed l 2 (cl_op c) 0 (show_letters (cl_letters c) ++ show_mores (cl_more c) ++ s) u =
  PGood (s, foldl (more_u l) (apply_op (cl_op c) (letters_flag (cl_letters c)) l 2 u) (cl_more c)).
Proof.
  intros Hu Hs Hm Hlet Hfuel. rewrite str_length_app, length_show_letters in Hfuel.
  destruct (cl_letters c) as [|x xs] eqn:Ex.
  - destruct (Hlet eq_refl) as [-> Em]. rewrite Em. destruct fuel as [|fuel]; [lia|].
    change (show_letters [] ++ show_mores [] ++ s) with s.
    rewrite <-(after_end fuel listed OpSet 0 s) by done. cbn [actions_loop].
    unfold ends in Hs. destruct (at_end s), (isspace (head s)); done.
  - rewrite letters_run by (done || lia). rewrite Z.lor_0_l. destruct Hm as [Em| ->].
    + rewrite Em. by apply after_end.
    + apply mores_run; [by apply u_wf_apply|done|simpl in *; lia].
Qed.

End actions.

(** *** A clause and a text *)

Section parse.
Variable gperf : option (string -> option Z).
Variable cmb : Z.
Hypothesis Hcmb : 1 <= cmb <= CAP_MAXBITS.
Implicit Types (u : list capblk) (c : clause_t) (s : string) (rs : list capref).

Lemma first_op_run listed op s :
  (op = OpSetAdd \/ op = OpSetDel -> listed = true) ->
  (op = OpSet -> Ascii.eqb (head s) "+" || Ascii.eqb (head s) "-" = false) ->
  first_op listed (show_op op ++ s) = Some (op, s).
Proof.
  intros Hl Hs. destruct op; try done.
  - unfold first_op. cbn [show_op]. change ("=" ++ s) with (String "=" s). cbn [head tail].
    rewrite Hs by done. done.
  - by rewrite Hl by auto.
  - by rewrite Hl by auto.
Qed.

Lemma delimited_comma s : delimited ("," ++ s).
Proof. done. Qed.

(** One capability of a list. *)
Lemma ref_run r rest l :
  ref_ok gperf cmb r -> delimited rest ->
  (match namcmp (show_ref r ++ rest) "all" with
   | Some _ => Some (tail (tail (tail (show_ref r ++ rest))), forceall cmb u32_max 2 l)
   | None => match lookupname gperf cmb (show_ref r ++ rest) with
             | None => None
             | Some (n, rest) => Some (rest, raise_cap_mask n l)
             end
   end) = Some (rest, ref_words cmb l r).
Proof.
  intros Hr Hd. destruct r as [|s n]; cbn [show_ref ref_words].
  - by rewrite namcmp_spec.
  - destruct Hr as (_ & _ & Hlook). destruct (Hlook rest Hd) as [-> ->]. done.
Qed.

Lemma show_ref_head r rest : ref_ok gperf cmb r -> wordc (head (show_ref r ++ rest)) = true.
Proof. destruct r as [|s n]; [done|]. intros (_ & H & _). cbn [show_ref]. by rewrite head_app. Qed.

Lemma show_refs_head r rs rest :
  ref_ok gperf cmb r -> wordc (head (show_refs (r :: rs) ++ rest)) = true.
Proof.
  intros Hr. destruct rs as [|r' rs]; [by apply show_ref_head|].
  change (show_refs (r :: r' :: rs)) with (show_ref r ++ "," ++ show_refs (r' :: rs)).
  rewrite str_app_assoc. by apply show_ref_head.
Qed.

Lemma caps_run rs s fuel l :
  rs <> [] -> Forall (ref_ok gperf cmb) rs -> delimited s -> Ascii.eqb (head s) "," = false ->
  (length rs <= fuel)%nat ->
  caps_loop gperf fuel cmb 2 (show_refs rs ++ s) l = PGood (s, foldl (ref_words cmb) l rs).
Proof.
  intros Hne Hrs Hd Hc. revert fuel l. induction Hrs as [|r rs Hr Hrs IH]; intros fuel l Hfuel; [done|].
  destruct fuel as [|fuel]; [simpl in Hfuel; lia|]. cbn [caps_loop]. destruct rs as [|r' rs].
  - change (show_refs [r]) with (show_ref r). rewrite ref_run by done. by rewrite Hc.
  - change (show_refs (r :: r' :: rs)) with (show_ref r ++ "," ++ show_refs (r' :: rs)).
    rewrite !str_app_assoc. rewrite ref_run by done.
    change ("," ++ show_refs (r' :: rs) ++ s) with (String "," (show_refs (r' :: rs) ++ s)). cbn [head tail].
    change (negb (Ascii.eqb "," ",")) with false. cbv iota.
    apply Forall_cons in Hrs as [Hr' Hrs']. rewrite starts_word_head, show_refs_head by done.
    apply (IH ltac:(done) fuel (ref_words cmb l r)). simpl in *; lia.
Qed.

Lemma length_show_refs rs : Forall (ref_ok gperf cmb) rs -> (length rs <= String.length (show_refs rs))%nat.
Proof.
  intros Hrs. assert (forall r, ref_ok gperf cmb r -> (1 <= String.length (show_ref r))%nat) as H1.
  { intros [|[|c s] n]; cbn [show_ref]; simpl; try lia. by intros (_ & ? & _). }
  induction Hrs as [|r rs Hr Hrs IH]; [done|]. specialize (H1 r Hr). destruct rs as [|r' rs]; [simpl in *; lia|].
  change (show_refs (r :: r' :: rs)) with (show_ref r ++ "," ++ show_refs (r' :: rs)).
  rewrite !str_length_app. simpl in *. lia.
Qed.

(** What follows the operator of a clause starts with no + and no -, if the
    operator is =. *)
Lemma after_op_head c s :
  ends s -> clause_ok gperf cmb c -> cl_op c = OpSet ->
  Ascii.eqb (head (show_letters (cl_letters c) ++ show_mores (cl_more c) ++ s)) "+" ||
  Ascii.eqb (head (show_letters (cl_letters c) ++ show_mores (cl_more c) ++ s)) "-" = false.
Proof.
  intros Hs [_ Hc] _. destruct (cl_letters c) as [|[] ls]; [|done..].
  destruct Hc as [_ ->]; [by right|]. change (show_letters [] ++ show_mores [] ++ s) with s.
  by rewrite !ends_not.
Qed.

Lemma show_op_head op s :
  delimited (show_op op ++ s) /\ Ascii.eqb (head (show_op op ++ s)) "," = false.
Proof. by destruct op. Qed.

Lemma clause_run c s u fuel :
  clause_ok gperf cmb c -> u_wf u -> ends s -> (String.length (show_clause c) < fuel)%nat ->
  clause gperf fuel cmb 2 (show_clause c ++ s) u = PGood (s, clause_u cmb c u).
Proof.
  intros Hok Hu Hs Hfuel. destruct (clause_words_spec gperf cmb Hcmb c Hok) as [Hw _].
  pose proof (after_op_head c s Hs Hok) as Hop. pose proof Hok as [Hrs Hb].
  unfold show_clause in *. rewrite !str_length_app in Hfuel. pose proof (length_show_refs _ Hrs) as Hlen.
  rewrite !str_app_assoc. set (t := show_letters (cl_letters c) ++ show_mores (cl_more c) ++ s) in *.
  assert (forall listed, (cl_more c = [] \/ listed = true) ->
    actions_loop fuel listed (clause_words cmb c) 2 (cl_op c) 0 t u = PGood (s, clause_u cmb c u)) as Hact.
  { intros listed Hl. unfold t, clause_u. apply actions_run; try done; [tauto|]. rewrite str_length_app. lia. }
  unfold clause. destruct (cl_refs c) as [|r rs] eqn:Er.
  - destruct Hb as [Eop Em]; [by left|]. change (show_refs [] ++ show_op (cl_op c) ++ t) with (show_op (cl_op c) ++ t).
    rewrite Eop in *. change (starts_word (show_op OpSet ++ t)) with false. cbv iota.
    change (Ascii.eqb (head (show_op OpSet ++ t)) "+" || Ascii.eqb (head (show_op OpSet ++ t)) "-") with false. cbv iota.
    rewrite first_op_run by (try (by intros [|]); by apply Hop).
    assert (forceall cmb u32_max 2 [0; 0] = clause_words cmb c) as -> by (unfold clause_words; by rewrite Er).
    by apply Hact; left.
  - assert (ref_ok gperf cmb r) as Hr by by apply Forall_cons in Hrs as [? _].
    rewrite starts_word_head, show_refs_head by done.
    destruct (show_op_head (cl_op c) t) as [Hd Hc].
    rewrite caps_run by (done || lia). rewrite first_op_run by (done || apply Hop).
    assert (foldl (ref_words cmb) [0; 0] (r :: rs) = clause_words cmb c) as -> by (unfold clause_words; by rewrite Er).
    by apply Hact; right.
Qed.

(** The gaps after the clauses: white space, and some of it between two. *)
Fixpoint gaps_ok (cs : list (clause_t * string)) : Prop :=
  match cs with
  | [] => True
  | (_, gap) :: cs => all_chars isspace gap = true /\ (gap = "" -> cs = []) /\ gaps_ok cs
  end.

Definition text_ok (lead : string) (cs : list (clause_t * string)) : Prop :=
  all_chars isspace lead = true /\ gaps_ok cs /\ Forall (fun cg => clause_ok gperf cmb cg.1) cs.

Lemma skip_gap gap s : all_chars isspace gap = true -> skip_spaces (gap ++ s) = skip_spaces s.
Proof.
  induction gap as [|c gap IH]; [done|]. simpl. intros [Hc Hg]%andb_prop. by rewrite Hc, IH.
Qed.

Lemma show_clause_head c s :
  clause_ok gperf cmb c -> at_end (show_clause c ++ s) = false /\ isspace (head (show_clause c ++ s)) = false.
Proof.
  intros [Hrs _]. unfold show_clause, at_end. rewrite !str_app_assoc. destruct (cl_refs c) as [|r rs].
  - by destruct (cl_op c).
  - apply Forall_cons in Hrs as [Hr _]. pose proof (show_refs_head r rs (show_op (cl_op c) ++
      show_letters (cl_letters c) ++ show_mores (cl_more c) ++ s) Hr) as H.
    destruct (head _) as [[] [] [] [] [] [] [] []]; done.
Qed.

Lemma gap_ends gap cs : all_chars isspace gap = true -> (gap = "" -> cs = []) -> ends (gap ++ show_clauses cs).
Proof.
  destruct gap as [|a gap]; simpl.
  - intros _ H. by rewrite H.
  - intros [Ha _]%andb_prop _. unfold ends. simpl. by rewrite Ha, orb_true_r.
Qed.

Lemma clauses_run lead cs u fuel :
  text_ok lead cs -> u_wf u -> (String.length (lead ++ show_clauses cs) < fuel)%nat ->
  clauses_loop gperf fuel cmb 2 (lead ++ show_clauses cs) u = PGood (clauses_u cmb cs u).
Proof.
  intros (Hlead & Hg & Hcs). revert lead Hlead u fuel Hg.
  induction Hcs as [|[c gap] cs Hc Hcs IH]; intros lead Hlead u fuel Hg Hu Hfuel;
    (destruct fuel as [|fuel]; [lia|]); cbn [clauses_loop]; rewrite skip_gap by done.
  - done.
  - destruct Hg as (Hgap & Hne & Hg). cbn [show_clauses fst] in *.
    destruct (show_clause_head c (gap ++ show_clauses cs) Hc) as [He Hs].
    rewrite !str_length_app in Hfuel.
    assert (skip_spaces (show_clause c ++ gap ++ show_clauses cs) = show_clause c ++ gap ++ show_clauses cs) as ->.
    { destruct (show_clause c ++ gap ++ show_clauses cs); [done|]. cbn [head] in Hs. simpl. by rewrite Hs. }
    rewrite He. cbv iota. rewrite (clause_run c _ u (S fuel) Hc Hu (gap_ends _ _ Hgap Hne)) by lia.
    unfold clauses_u. cbn [foldl fst]. apply IH; [done..| |].
    + by apply (clause_u_spec gperf cmb Hcmb c u 0).
    + rewrite str_length_app. assert (1 <= String.length (show_clause c))%nat; [|lia].
      unfold show_clause. rewrite !str_length_app. destruct (cl_op c); simpl; lia.
Qed.

Lemma parse_text_run lead cs u :
  text_ok lead cs -> u_wf u ->
  parse_text gperf cmb 2 (lead ++ show_clauses cs) u = PGood (clauses_u cmb cs u).
Proof. intros. unfold parse_text. apply clauses_run; [done..|lia]. Qed.

End parse.

(** *** Every text is read to an end *)

Section total.
Variable gperf : option (string -> option Z).
Hypothesis Hgperf : gperf_ok gperf.
Variable cmb : Z.
Hypothesis Hcmb : 1 <= cmb <= CAP_MAXBITS.
Implicit Types (u : list capblk) (s : string) (l : list Z).

(** A parser's answer: not none, and shorter where it read on. *)
Definition reads {A} (good : A -> Prop) (r : parsed A) : Prop :=
  match r with PGood a => good a | PBad => True | PSpin => False end.

Lemma length_tail s : (String.length (tail s) <= String.length s)%nat.
Proof. destruct s; simpl; lia. Qed.
Lemma caps_total fuel s l :
  (String.length s < fuel)%nat -> wordc (head s) = true -> words_wf l ->
  reads (fun '(r, l') => (String.length r < String.length s)%nat /\ words_wf l') (caps_loop gperf fuel cmb 2 s l).
Proof.
  revert s l. induction fuel as [|fuel IH]; intros s l Hf Hw Hl; [lia|]. cbn [caps_loop].
  assert (match (match namcmp s "all" with
             | Some _ => Some (tail (tail (tail s)), forceall cmb u32_max 2 l)
             | None => match lookupname gperf cmb s with
                       | None => None
                       | Some (n, rest) => Some (rest, raise_cap_mask n l)
                       end
             end) with
    | None => True
    | Some (r, l') => (String.length r < String.length s)%nat /\ words_wf l' end) as H.
  { destruct (namcmp s "all") as [r|] eqn:E.
    - pose proof (length_tail (tail (tail s))). pose proof (length_tail (tail s)).
      split; [|by apply forceall_spec]. destruct s as [|c s]; [done|]. simpl in *. lia.
    - destruct (lookupname gperf cmb s) as [[n r]|] eqn:E'; [|done].
      apply lookupname_progress in E' as [Hn Hr]; [|done..]. split; [done|]. by apply raise_cap_mask_spec. }
  destruct (match namcmp s "all" with Some _ => _ | None => _ end) as [[r l']|]; [|done].
  destruct H as [Hr Hl']. destruct (Ascii.eqb (head r) ",") eqn:Ec; cbn [negb]; [|done].
  rewrite starts_word_head. destruct (wordc (head (tail r))) eqn:Ew; [|done].
  pose proof (length_tail r). specialize (IH (tail r) l' ltac:(lia) Ew Hl').
  destruct (caps_loop gperf fuel cmb 2 (tail r) l') as [[r' l'']| |]; [|done..].
  simpl in *. destruct IH. split; [lia|done].
Qed.

Lemma actions_total fuel listed l op f s u :
  (String.length s < fuel)%nat -> words_wf l -> u_wf u ->
  reads (fun '(r, u') => (String.length r <= String.length s)%nat /\ u_wf u') (actions_loop fuel listed l 2 op f s u).
Proof.
  intros Hf Hl. revert s op f u Hf. induction fuel as [|fuel IH]; intros s op f u Hf Hu; [lia|]. cbn [actions_loop].
  destruct (negb (at_end s) && negb (isspace (head s))) eqn:E.
  - destruct (flag_of_letter (head s)) as [f1|]; [|done].
    set (u' := apply_op _ _ _ _ _). assert (u_wf u') as Hu' by by apply u_wf_apply.
    assert (String.length (tail s) < String.length s)%nat as Ht by (destruct s; [done|simpl; lia]).
    assert (forall op f r, (String.length r <= String.length (tail s))%nat ->
      reads (fun '(r, u') => (String.length r <= String.length s)%nat /\ u_wf u')
        (if negb (at_end r) && negb (isspace (head r)) then actions_loop fuel listed l 2 op f r u' else PGood (r, u'))) as Hgo.
    { intros op' f' r Hr. destruct (negb (at_end r) && negb (isspace (head r))); [|cbn [reads]; split; [lia|done]].
      specialize (IH r op' f' u' ltac:(lia) Hu'). destruct (actions_loop _ _ _ _ _ _ _ _) as [[r' u'']| |]; [|done..].
      simpl in *. destruct IH. split; [lia|done]. }
    destruct (Ascii.eqb (head (tail s)) "+" || Ascii.eqb (head (tail s)) "-"); [|by apply Hgo].
    destruct listed; [|done]. destruct (isalpha _); [|done]. cbn [negb]. apply Hgo. apply length_tail.
  - destruct (is_set op); [|done]. assert (ends s) as He
      by (unfold ends; by rewrite <-(negb_involutive (_ || _)), negb_orb, E).
    rewrite !ends_not by done. cbn [orb]. rewrite E. cbn [reads]. split; [done|by apply u_wf_apply].
Qed.

Lemma first_op_progress listed s op r : first_op listed s = Some (op, r) -> (String.length r < String.length s)%nat.
Proof.
  unfold first_op. destruct s as [|c s]; [done|]. cbn [head tail]. intros H.
  pose proof (length_tail s). simpl. destruct (_ && _); [destruct (negb listed); [done|]; injection H as _ <-; lia|].
  repeat (destruct (Ascii.eqb c _); [injection H as _ <-; lia|]). done.
Qed.

Lemma clause_total fuel s u :
  (String.length s < fuel)%nat -> u_wf u ->
  reads (fun '(r, u') => (String.length r < String.length s)%nat /\ u_wf u') (clause gperf fuel cmb 2 s u).
Proof.
  intros Hf Hu. unfold clause.
  assert (forall listed s' l, words_wf l -> (String.length s' <= String.length s)%nat ->
    reads (fun '(r, u') => (String.length r < String.length s)%nat /\ u_wf u')
      (match first_op listed s' with
       | None => PBad
       | Some (op, r) => actions_loop fuel listed l 2 op 0 r u
       end)) as Hgo.
  { intros listed s' l Hl Hs'. destruct (first_op listed s') as [[op r]|] eqn:E; [|done].
    apply first_op_progress in E. pose proof (actions_total fuel listed l op 0 r u ltac:(lia) Hl Hu) as H.
    destruct (actions_loop _ _ _ _ _ _ _ _) as [[r' u']| |]; [|done..]. simpl in *. destruct H. split; [lia|done]. }
  destruct (starts_word s) eqn:Ew.
  - pose proof (caps_total fuel s [0; 0] Hf Ew words_wf_0) as H.
    destruct (caps_loop _ _ _ _ _ _) as [[r l]| |]; [|done..]. destruct H. apply Hgo; [done|lia].
  - destruct (_ || _); [done|]. apply Hgo; [|done]. apply forceall_spec; [done|apply words_wf_0].
Qed.

Lemma skip_spaces_length s : (String.length (skip_spaces s) <= String.length s)%nat.
Proof. induction s as [|c s IH]; simpl; [done|]. destruct (isspace c); simpl; lia. Qed.

Lemma clauses_total fuel s u :
  (String.length s < fuel)%nat -> u_wf u -> reads u_wf (clauses_loop gperf fuel cmb 2 s u).
Proof.
  revert s u. induction fuel as [|fuel IH]; intros s u Hf Hu; [lia|]. cbn [clauses_loop].
  pose proof (skip_spaces_length s). destruct (at_end (skip_spaces s)); [done|].
  pose proof (clause_total (S fuel) (skip_spaces s) u ltac:(lia) Hu) as H'.
  destruct (clause _ _ _ _ _ _) as [[r u']| |]; [|done..]. destruct H'. apply IH; [lia|done].
Qed.

Lemma parse_text_total s u : u_wf u -> reads u_wf (parse_text gperf cmb 2 s u).
Proof. intros. apply clauses_total; [lia|done]. Qed.

End total.
