(* ===== verification/TextPrint.v ===== *)
(** cap_to_text(): the text it writes is the text of a list of clauses of the
    grammar of TextSpec.v that means the set it was given; it fits the buffer,
    and so cap_from_text() of it makes the set again. *)

From Stdlib Require Import ZArith Lia String Ascii.
From stdpp Require Import gmap list sets.
From S2P Require Import Prelude Capability World Exec Syscall Alloc Flag FlagSpec IabSpec Proc Text TextLex.
From S2P Require Import TextSpec TextParse.

Open Scope string_scope.
Open Scope Z_scope.

#[local] Arguments String.append !_ _ / : simpl nomatch.

(** *** The clauses of a text *)

Section clauses.
Implicit Types (u : list capblk) (m t f x n : Z) (l ts : list Z) (c : clause_t).

(** The capabilities of [l] that are in the state [t]. *)
Definition members u t l : list Z := filter (fun n => getstateflags u n = t) l.
Definition named n : capref := OneCap (cap_token n) n.

Definition letters_of f : list letter :=
  (if has_flag f LIBCAP_EFF then [Le] else []) ++ (if has_flag f LIBCAP_INH then [Li] else [])
  ++ (if has_flag f LIBCAP_PER then [Lp] else []).

Definition states : list Z := seqZ 0 8.

Lemma state_cases f : 0 <= f < 8 -> f ∈ states.
Proof. intros. apply elem_of_seqZ. lia. Qed.

Lemma letters_of_spec f :
  0 <= f < 8 -> show_letters (letters_of f) = letters f /\ letters_flag (letters_of f) = f /\
  (letters_of f = [] <-> f = 0) /\ (letters f = "" <-> f = 0) /\ strlen (letters f) <= 3.
Proof.
  intros Hf%state_cases. unfold states in Hf. change (seqZ 0 8) with [0;1;2;3;4;5;6;7] in Hf.
  rewrite !elem_of_cons, elem_of_nil in Hf.
  destruct Hf as [->|[->|[->|[->|[->|[->|[->|[->|[]]]]]]]]]; split_and!; done.
Qed.

Definition more_of f : list (bool * letter * list letter) :=
  match letters_of f with [] => [] | x :: xs => [(false, x, xs)] end.

(** The clause for the capabilities [l] in the state [t], when [m] prevails. *)
Definition group_clause m t l (first : bool) : clause_t :=
  let refs := named <$> l in
  if negb (Z.ldiff t m =? 0)
  then Clause refs (if first then OpSet else OpAdd) (letters_of (Z.ldiff t m)) (more_of (Z.ldiff m t))
  else Clause refs OpDel (letters_of (Z.ldiff m t)) [].

Fixpoint group_clauses u m l ts (first : bool) : list clause_t :=
  match ts with
  | [] => []
  | t :: ts =>
      if bool_decide (t = m \/ members u t l = []) then group_clauses u m l ts first
      else group_clause m t (members u t l) first :: group_clauses u m l ts false
  end.

Definition default_clause m : clause_t := Clause [] OpSet (letters_of m) [].

(** The clauses of cap_to_text(). *)
Definition text_clauses u cmb : list clause_t :=
  let m := common_state (histogram u (seqZ 0 cmb)) in
  let gs := group_clauses u m (seqZ 0 cmb) (countdown 8) (m =? 0) in
  (if bool_decide (m = 0 /\ gs <> []) then [] else [default_clause m])
  ++ gs ++ group_clauses u 0 (seqZ cmb (CAP_MAXBITS - cmb)) (reverse (seqZ 1 7)) false.

(** [c :: cs] as text, with a space between two. *)
Definition spaced (cs : list clause_t) : string := foldr (fun c s => " " ++ show_clause c ++ s) "" cs.
Fixpoint with_gaps (cs : list clause_t) : list (clause_t * string) :=
  match cs with [] => [] | [c] => [(c, "")] | c :: cs => (c, " ") :: with_gaps cs end.

Lemma show_with_gaps c cs : show_clauses (with_gaps (c :: cs)) = show_clause c ++ spaced cs.
Proof.
  revert c. induction cs as [|c' cs IH]; intros c; [done|].
  change (with_gaps (c :: c' :: cs)) with ((c, " ") :: with_gaps (c' :: cs)). cbn [show_clauses spaced foldr].
  by rewrite IH.
Qed.

Lemma with_gaps_fst cs : (with_gaps cs).*1 = cs.
Proof.
  induction cs as [|c cs IH]; [done|]. destruct cs as [|c' cs]; [done|].
  change (with_gaps (c :: c' :: cs)) with ((c, " ") :: with_gaps (c' :: cs)). cbn [fmap list_fmap fst]. by f_equal.
Qed.

Lemma gaps_ok_with_gaps cs : gaps_ok (with_gaps cs).
Proof.
  induction cs as [|c cs IH]; [done|]. destruct cs as [|c' cs]; [done|].
  change (with_gaps (c :: c' :: cs)) with ((c, " ") :: with_gaps (c' :: cs)). by split_and!.
Qed.

Lemma spaced_app a b : spaced (a ++ b)%list = spaced a ++ spaced b.
Proof. induction a as [|c a IH]; [done|]. cbn [app spaced foldr] in *. unfold spaced in IH. by rewrite IH, !str_app_assoc. Qed.

(** *** What they mean *)

Lemma elem_of_members u t l x : x ∈ members u t l <-> x ∈ l /\ getstateflags u x = t.
Proof. unfold members. rewrite list_elem_of_filter. tauto. Qed.

Lemma refs_set_named (S : gset Z) cmb l : foldl (ref_set cmb) S (named <$> l) = S ∪ list_to_set l.
Proof.
  revert S. induction l as [|n l IH]; intros S; cbn [fmap list_fmap foldl list_to_set]; [set_solver|].
  change (list_fmap Z capref named l) with (named <$> l). rewrite IH. cbn [ref_set named]. set_solver.
Qed.

Lemma group_clause_refs m t l first : cl_refs (group_clause m t l first) = named <$> l.
Proof. unfold group_clause. by destruct (negb _). Qed.

Lemma group_clause_set cmb m t l first : l <> [] -> clause_set cmb (group_clause m t l first) = list_to_set l.
Proof.
  intros Hl. unfold clause_set. rewrite group_clause_refs. destruct l as [|n l]; [done|].
  transitivity (foldl (ref_set cmb) ∅ (named <$> n :: l)); [done|]. rewrite refs_set_named. set_solver.
Qed.

(** From the prevailing state to the group's. *)
Lemma group_clause_state m t l first :
  0 <= m < 8 -> 0 <= t < 8 -> t <> m -> (first = true -> m = 0) ->
  let c := group_clause m t l first in
  foldl more_state (op_state (cl_op c) (letters_flag (cl_letters c)) m) (cl_more c) = t.
Proof.
  intros Hm%state_cases Ht%state_cases Hne Hf. unfold states in *. change (seqZ 0 8) with [0;1;2;3;4;5;6;7] in *.
  rewrite !elem_of_cons, elem_of_nil in Hm, Ht.
  destruct first; [rewrite (Hf eq_refl) in *; clear Hm|destruct Hm as [->|[->|[->|[->|[->|[->|[->|[->|[]]]]]]]]]];
    destruct Ht as [->|[->|[->|[->|[->|[->|[->|[->|[]]]]]]]]]; try done; reflexivity.
Qed.

Lemma group_clause_more m t l first :
  0 <= m < 8 -> 0 <= t < 8 -> t <> m -> (first = true -> m = 0) ->
  cl_letters (group_clause m t l first) <> [].
Proof.
  intros Hm Ht Hne Hf. unfold group_clause. destruct (Z.eqb_spec (Z.ldiff t m) 0) as [E|E]; cbn [negb cl_letters].
  - intros El. apply letters_of_spec in El; [|by apply (op_state_range OpDel t m)].
    apply Hne. apply state_ext; [done..|]. intros s Hs. assert (0 <= s) by (unfold valid_set in Hs; lia).
    apply (f_equal (fun z => Z.testbit z s)) in E, El. rewrite Z.ldiff_spec, Z.testbit_0_l in E, El by done.
    destruct (Z.testbit t s), (Z.testbit m s); done.
  - intros El. apply letters_of_spec in El; [done|by apply (op_state_range OpDel m t)].
Qed.

Lemma clause_state_out cmb c x g : x ∉ clause_set cmb c -> clause_state cmb c x g = g.
Proof. intros H. unfold clause_state. by case_decide. Qed.

(** A run of groups leaves alone what it does not list, and takes the others from
    the prevailing state to theirs. *)
Lemma groups_state cmb u m l ts first x g :
  0 <= m < 8 -> Forall (fun t => 0 <= t < 8) ts -> NoDup ts -> (first = true -> m = 0) ->
  (x ∈ l -> g = m) ->
  foldl (fun g c => clause_state cmb c x g) g (group_clauses u m l ts first) =
    if decide (x ∈ l /\ getstateflags u x ∈ ts) then getstateflags u x else g.
Proof.
  intros Hm Hts Hnd. revert first g. induction Hts as [|t ts Ht Hts IH]; intros first g Hf Hg.
  - rewrite decide_False; [done|]. intros [_ H]. by apply not_elem_of_nil in H.
  - apply NoDup_cons in Hnd as [Hnin Hnd]. cbn [group_clauses].
    case_bool_decide as Hb; [|cbn [foldl]].
    + rewrite (IH Hnd first g Hf Hg). repeat case_decide; rewrite ?elem_of_cons in *; try tauto; try done.
      destruct H0 as [Hx [E|]]; [|tauto]. destruct Hb as [->|Hb].
      * rewrite E. by apply Hg.
      * exfalso. apply (not_elem_of_nil x). rewrite <-Hb. by apply elem_of_members.
    + assert (members u t l <> []) as Hmem by tauto. destruct (decide (x ∈ members u t l)) as [Hin|Hout].
      * pose proof Hin as [Hx E]%elem_of_members.
        assert (clause_state cmb (group_clause m t (members u t l) first) x g = t) as ->.
        { unfold clause_state. rewrite group_clause_set, decide_True by (done || by apply elem_of_list_to_set).
          rewrite (Hg Hx). apply group_clause_state; try done. tauto. }
        rewrite (decide_True (P := x ∈ l /\ _)) by (rewrite E, elem_of_cons; tauto). rewrite E.
        assert (forall g', foldl (fun g c => clause_state cmb c x g) g' (group_clauses u m l ts false) = g') as Hrest.
        { assert (getstateflags u x ∉ ts) as Hn by by rewrite E. clear -Hn Hx. induction ts as [|t' ts IH]; intros g'; [done|].
          cbn [group_clauses]. rewrite elem_of_cons in Hn. case_bool_decide; [apply IH; tauto|]. cbn [foldl].
          rewrite clause_state_out; [apply IH; tauto|]. rewrite group_clause_set by tauto.
          rewrite elem_of_list_to_set, elem_of_members. tauto. }
        apply Hrest.
      * rewrite clause_state_out by (rewrite group_clause_set, elem_of_list_to_set by done; done).
        rewrite (IH Hnd false g ltac:(done) Hg).
        assert (getstateflags u x ∈ t :: ts /\ x ∈ l <-> getstateflags u x ∈ ts /\ x ∈ l) as Hiff.
        { rewrite elem_of_cons. split; [|tauto]. intros [[E|] Hx]; [|tauto]. exfalso. apply Hout. by apply elem_of_members. }
        repeat case_decide; tauto || done.
Qed.

Lemma common_state_range h : 0 <= common_state h < 8.
Proof.
  unfold common_state. assert (Forall (fun t => 0 <= t < 8) (countdown 7)) as Hl
    by (apply Forall_forall; intros t; rewrite elem_of_countdown; lia).
  assert (forall m, 0 <= m < 8 -> 0 <= foldl (fun m t => if histo h m <=? histo h t then t else m) m (countdown 7) < 8) as H;
    [|by apply H].
  induction Hl as [|t l Ht _ IH]; intros m Hm; [done|]. cbn [foldl]. apply IH. by case_match.
Qed.

Lemma named_set_iff cmb x : x ∈ named_set cmb <-> 0 <= x < cmb.
Proof. unfold named_set. rewrite elem_of_list_to_set, elem_of_seqZ. lia. Qed.

Lemma default_clause_state cmb m x g :
  0 <= m < 8 -> clause_state cmb (default_clause m) x g = if decide (x ∈ named_set cmb) then m else g.
Proof.
  intros Hm. unfold clause_state. cbn [clause_set default_clause cl_refs cl_op cl_letters cl_more foldl op_state].
  change (clause_set cmb (default_clause m)) with (named_set cmb).
  by destruct (letters_of_spec m Hm) as (_ & -> & _).
Qed.

Lemma countdown_states n : n <= 8 -> Forall (fun t => 0 <= t < 8) (countdown n).
Proof. intros. apply Forall_forall. intros t. rewrite elem_of_countdown. lia. Qed.

Lemma NoDup_countdown n : NoDup (countdown n).
Proof. unfold countdown. rewrite reverse_Permutation. apply NoDup_seqZ. Qed.

Lemma upper_states : Forall (fun t => 0 <= t < 8) (reverse (seqZ 1 7)) /\ NoDup (reverse (seqZ 1 7)).
Proof.
  split; [|rewrite reverse_Permutation; apply NoDup_seqZ]. apply Forall_forall. intros t.
  rewrite elem_of_reverse, elem_of_seqZ. lia.
Qed.

(** The text of a set means the set. *)
Lemma text_clauses_state u cmb x :
  1 <= cmb <= CAP_MAXBITS -> valid_cap x ->
  foldl (fun g c => clause_state cmb c x g) 0 (text_clauses u cmb) = getstateflags u x.
Proof.
  intros Hcmb Hx. unfold text_clauses. set (m := common_state _).
  assert (0 <= m < 8) as Hm by apply common_state_range.
  set (gs := group_clauses u m (seqZ 0 cmb) (countdown 8) (m =? 0)). rewrite !foldl_app.
  assert (foldl (fun g c => clause_state cmb c x g) 0 (if bool_decide (m = 0 /\ gs <> []) then [] else [default_clause m])
    = if decide (x ∈ named_set cmb) then m else 0) as ->.
  { case_bool_decide as Hb; cbn [foldl]; [|by apply default_clause_state].
    destruct Hb as [-> _]. by case_decide. }
  pose proof (getstateflags_range u x) as Hr. unfold valid_cap in Hx. change CAP_MAXBITS with 64 in *.
  assert (getstateflags u x ∈ countdown 8) as Hin by by apply elem_of_countdown.
  destruct upper_states as [Hup Hnd]. unfold gs.
  rewrite (groups_state cmb u m (seqZ 0 cmb)); [|done|by apply countdown_states|apply NoDup_countdown|apply Z.eqb_eq|].
  2: { rewrite elem_of_seqZ. intros H. rewrite decide_True; [done|]. apply named_set_iff. lia. }
  rewrite groups_state; [|done|done|done|done|].
  - repeat case_decide; rewrite ?named_set_iff, ?elem_of_seqZ, ?elem_of_reverse, ?elem_of_seqZ in *; try tauto; try lia.
  - rewrite elem_of_seqZ. intros H. rewrite decide_False by (rewrite elem_of_seqZ; lia).
    rewrite decide_False; [done|]. rewrite named_set_iff. lia.
Qed.

(** Every capability the text has to name can be looked up: with gperf all can;
    without it, not one that libcap has a name for and the kernel does not. *)
Definition nameable (gperf : option (string -> option Z)) u cmb : Prop :=
  gperf = None -> forall n, cmb <= n < CAP_BITS -> getstateflags u n = 0.

Lemma group_clauses_ok gperf cmb u m l ts first :
  gperf_ok gperf -> 0 <= m < 8 -> Forall (fun t => 0 <= t < 8) ts -> (first = true -> m = 0) ->
  (forall n, n ∈ l -> getstateflags u n ∈ ts -> getstateflags u n <> m ->
     valid_cap n /\ (gperf = None -> n < cmb \/ CAP_BITS <= n)) ->
  Forall (clause_ok gperf cmb) (group_clauses u m l ts first).
Proof.
  intros Hg Hm Hts Hf Hl. revert first Hf Hl. induction Hts as [|t ts Ht _ IH]; intros first Hf Hl; [constructor|].
  cbn [group_clauses]. case_bool_decide as Hb.
  - apply IH; [done|]. intros n Hn Ht'. apply Hl; [done|]. by right.
  - assert (t <> m /\ members u t l <> []) as [Hne Hmem] by tauto. constructor.
    + split.
      * rewrite group_clause_refs, Forall_fmap, Forall_forall. intros n [Hn E]%elem_of_members.
        destruct (Hl n Hn) as [Hv Hc]; [rewrite E; left|congruence|]. by apply cap_token_ok.
      * intros [E|E]; exfalso.
        -- rewrite group_clause_refs in E. by apply fmap_nil_inv in E.
        -- by apply group_clause_more in E.
    + apply IH; [done|]. intros n Hn Ht'. apply Hl; [done|]. by right.
Qed.

Lemma text_clauses_ok gperf u cmb :
  gperf_ok gperf -> 1 <= cmb <= CAP_MAXBITS -> nameable gperf u cmb ->
  Forall (clause_ok gperf cmb) (text_clauses u cmb).
Proof.
  intros Hg Hcmb Hn. unfold text_clauses. set (m := common_state _).
  assert (0 <= m < 8) as Hm by apply common_state_range. change CAP_MAXBITS with 64 in *.
  rewrite !Forall_app. split; [|split].
  - case_bool_decide; constructor; [|constructor]. by split.
  - apply group_clauses_ok; [done|done|by apply countdown_states|apply Z.eqb_eq|].
    intros n Hin _ _. rewrite elem_of_seqZ in Hin. unfold valid_cap. change CAP_MAXBITS with 64. split; [lia|]. intros. left. lia.
  - apply group_clauses_ok; [done|done|apply upper_states|done|].
    intros n Hin _ Hs. rewrite elem_of_seqZ in Hin. unfold valid_cap. change CAP_MAXBITS with 64. split; [lia|].
    intros E. right. destruct (Z.le_gt_cases CAP_BITS n); [done|]. exfalso. apply Hs. apply Hn; [done|]. lia.
Qed.

End clauses.
