(* ===== verification/TextToText.v ===== *)
(** cap_to_text() runs to its end on every set: the names fit the buffer, and
    what it returns is the text of the clauses of TextPrint.v. *)

From Stdlib Require Import ZArith Lia String Ascii.
From stdpp Require Import gmap list sets.
From S2P Require Import Prelude Capability World Exec Syscall Alloc Flag FlagSpec IabSpec Proc Text TextLex.
From S2P Require Import TextSpec TextParse TextPrint.

Open Scope string_scope.
Open Scope Z_scope.

#[local] Arguments String.append !_ _ / : simpl nomatch.

(** *** Lengths *)

Section lengths.
Implicit Types (u : list capblk) (m t f x n : Z) (l ts : list Z) (s : string).

Lemma strlen_app a b : strlen (a ++ b) = strlen a + strlen b.
Proof. unfold strlen. rewrite str_length_app. lia. Qed.
Lemma strlen_pos s : 0 <= strlen s.
Proof. unfold strlen. lia. Qed.

Fixpoint sumZ (f : Z -> Z) (l : list Z) : Z := match l with [] => 0 | x :: l => f x + sumZ f l end.

(** The room a list of names takes, with its commas. *)
Definition names_len l : Z := sumZ (fun n => strlen (cap_token n) + 1) l.

Lemma sumZ_add (f g : Z -> Z) l : sumZ (fun x => f x + g x) l = sumZ f l + sumZ g l.
Proof. induction l as [|x l IH]; [done|]. cbn [sumZ]. lia. Qed.
Lemma sumZ_ext (f g : Z -> Z) l : (forall x, x ∈ l -> f x = g x) -> sumZ f l = sumZ g l.
Proof.
  intros H. induction l as [|x l IH]; [done|]. cbn [sumZ]. rewrite IH by (intros; apply H; by right).
  by rewrite H by left.
Qed.
Lemma sumZ_nonneg (f : Z -> Z) l : (forall x, 0 <= f x) -> 0 <= sumZ f l.
Proof. intros H. induction l as [|x l IH]; [done|]. cbn [sumZ]. specialize (H x). lia. Qed.
Lemma sumZ_app (f : Z -> Z) l l' : sumZ f (l ++ l')%list = sumZ f l + sumZ f l'.
Proof. induction l as [|x l IH]; [done|]. cbn [app sumZ]. lia. Qed.

Lemma names_len_nonneg l : 0 <= names_len l.
Proof. apply sumZ_nonneg. intros x. pose proof (strlen_pos (cap_token x)). lia. Qed.

Lemma sumZ_once (a k : Z) l : 0 <= k -> NoDup l -> sumZ (fun t => if decide (a = t) then k else 0) l <= k.
Proof.
  intros Hk Hnd. assert (a ∉ l -> sumZ (fun t => if decide (a = t) then k else 0) l = 0) as Hz.
  { induction l as [|t l IH]; [done|]. rewrite elem_of_cons. intros Hn. cbn [sumZ].
    rewrite decide_False by tauto. apply NoDup_cons in Hnd as [_ Hnd]. rewrite IH by tauto. done. }
  induction Hnd as [|t l Hn Hnd IH]; [done|]. cbn [sumZ]. destruct (decide (a = t)) as [->|Hne].
  - assert (sumZ (fun t0 => if decide (t = t0) then k else 0) l = 0) as ->; [|lia].
    clear -Hn. induction l as [|t' l IH]; [done|]. cbn [sumZ]. rewrite elem_of_cons in Hn.
    rewrite decide_False by tauto. rewrite IH by tauto. done.
  - apply IH. intros Hnl. clear -Hnl. induction l as [|t' l IH]; [done|]. cbn [sumZ]. rewrite elem_of_cons in Hnl.
    rewrite decide_False by tauto. rewrite IH by tauto. done.
Qed.

(** Every capability is in one state: the groups together are no longer than the list. *)
Lemma members_len u l ts : NoDup ts -> sumZ (fun t => names_len (members u t l)) ts <= names_len l.
Proof.
  intros Hnd. induction l as [|n l IH].
  - cbn [members]. assert (sumZ (fun t => names_len (members u t [])) ts = 0) as ->; [|done].
    clear. induction ts as [|t ts IH]; [done|]. cbn [sumZ]. rewrite IH. done.
  - assert (sumZ (fun t => names_len (members u t (n :: l))) ts =
      sumZ (fun t => (if decide (getstateflags u n = t) then strlen (cap_token n) + 1 else 0) +
        names_len (members u t l)) ts) as ->.
    { apply sumZ_ext. intros t _. unfold members. rewrite filter_cons. case_decide; done. }
    rewrite sumZ_add. pose proof (strlen_pos (cap_token n)).
    pose proof (sumZ_once (getstateflags u n) (strlen (cap_token n) + 1) ts ltac:(lia) Hnd).
    unfold names_len at 2. cbn [sumZ]. fold (names_len l). lia.
Qed.

(** The room of the groups: a space, the names, at most eight more. *)
Definition group_len u m l t : Z :=
  if bool_decide (t = m \/ members u t l = []) then 0 else 9 + names_len (members u t l).

Lemma groups_len_bound u m l ts : NoDup ts -> sumZ (group_len u m l) ts <= 9 * Z.of_nat (length ts) + names_len l.
Proof.
  intros Hnd. etrans; [|apply Z.add_le_mono_l, (members_len u l ts Hnd)].
  clear Hnd. induction ts as [|t ts IH]; [done|]. cbn [sumZ length]. unfold group_len at 1.
  pose proof (names_len_nonneg (members u t l)). case_bool_decide; lia.
Qed.

Lemma seqZ_split cmb : 0 <= cmb <= CAP_MAXBITS -> seqZ 0 CAP_MAXBITS = (seqZ 0 cmb ++ seqZ cmb (CAP_MAXBITS - cmb))%list.
Proof.
  intros H. replace CAP_MAXBITS with (cmb + (CAP_MAXBITS - cmb)) at 1 by lia. rewrite seqZ_app by lia.
  by rewrite Z.add_0_l.
Qed.

(** All of it fits, with room to spare. *)
Lemma text_fits u cmb m :
  1 <= cmb <= CAP_MAXBITS ->
  4 + sumZ (group_len u m (seqZ 0 cmb)) (countdown 8) +
  sumZ (group_len u 0 (seqZ cmb (CAP_MAXBITS - cmb))) (reverse (seqZ 1 7)) <= CAP_TEXT_SIZE.
Proof.
  intros Hcmb. pose proof (groups_len_bound u m (seqZ 0 cmb) (countdown 8) (NoDup_countdown 8)).
  pose proof (groups_len_bound u 0 (seqZ cmb (CAP_MAXBITS - cmb)) (reverse (seqZ 1 7)) (proj2 upper_states)).
  assert (names_len (seqZ 0 cmb) + names_len (seqZ cmb (CAP_MAXBITS - cmb)) = names_len (seqZ 0 CAP_MAXBITS)) as Hs
    by (rewrite (seqZ_split cmb) by lia; unfold names_len; by rewrite sumZ_app).
  assert (names_len (seqZ 0 CAP_MAXBITS) <= 1200) by (apply Z.leb_le; vm_compute; reflexivity).
  change (Z.of_nat (length (countdown 8))) with 8 in *. change (Z.of_nat (length (reverse (seqZ 1 7)))) with 7 in *.
  change CAP_TEXT_SIZE with 1472. lia.
Qed.

End lengths.

(** *** Strings *)

Section strings.
Implicit Types (u : list capblk) (m t n : Z) (l : list Z) (s : string).

Definition names_text l : string := foldr (fun n s => cap_token n ++ "," ++ s) "" l.

Lemma strlen_names l : strlen (names_text l) = names_len l.
Proof.
  induction l as [|n l IH]; [done|]. cbn [names_text foldr]. fold (names_text l).
  rewrite !strlen_app, IH. unfold names_len. cbn [sumZ]. change (strlen ",") with 1. lia.
Qed.

Lemma names_refs n l : names_text (n :: l) = show_refs (named <$> n :: l) ++ ",".
Proof.
  revert n. induction l as [|n' l IH]; intros n; [done|].
  change (names_text (n :: n' :: l)) with (cap_token n ++ "," ++ names_text (n' :: l)). rewrite IH.
  change (show_refs (named <$> n :: n' :: l)) with (cap_token n ++ "," ++ show_refs (named <$> n' :: l)).
  by rewrite !str_app_assoc.
Qed.

Lemma substring_app s s' : substring 0 (String.length s) (s ++ s') = s.
Proof. induction s as [|c s IH]; [by destruct s'|]. simpl. by rewrite IH. Qed.

Lemma drop_last_comma s : drop_last (s ++ ",") = s.
Proof.
  unfold drop_last. rewrite str_length_app. change (String.length ",") with 1%nat.
  replace (String.length s + 1 - 1)%nat with (String.length s) by lia. apply substring_app.
Qed.

(** The operators cap_to_text() writes are those of the clause. *)
Lemma group_ops_clause m t l first :
  0 <= m < 8 -> 0 <= t < 8 -> t <> m -> (first = true -> m = 0) ->
  let c := group_clause m t l first in
  group_ops m t first = (show_op (cl_op c) ++ show_letters (cl_letters c) ++ show_mores (cl_more c), first) /\
  strlen (group_ops m t first).1 <= 8.
Proof.
  intros Hm%state_cases Ht%state_cases Hne Hf. unfold states in *. change (seqZ 0 8) with [0;1;2;3;4;5;6;7] in *.
  rewrite !elem_of_cons, elem_of_nil in Hm, Ht.
  destruct first; [rewrite (Hf eq_refl) in *; clear Hm|destruct Hm as [->|[->|[->|[->|[->|[->|[->|[->|[]]]]]]]]]];
    destruct Ht as [->|[->|[->|[->|[->|[->|[->|[->|[]]]]]]]]]; try done; (split; [reflexivity|vm_compute; discriminate]).
Qed.

End strings.

(** *** The loops *)

Section runs.
Context {K : Type} `{!Kernel K}.
Implicit Types (w : world K) (u : list capblk) (m t n : Z) (l ts : list Z) (s buf : string).

(** [w] after some objects were made and released. *)
Definition later w w' : Prop :=
  world_wf w' /\ mem_plenty w' /\ next w <= next w' /\
  w' = mkWorld (heap w) (next w') [] (errno w) (glob w) (kst w) (out w).

Lemma later_refl w : world_wf w -> mem_plenty w -> later w w.
Proof. intros Hw Hm. split; [done|]. split; [done|]. split; [done|]. unfold mem_plenty in Hm. destruct w. cbn in *. by subst. Qed.

Lemma later_trans w w' w'' : later w w' -> later w' w'' -> later w w''.
Proof.
  intros (_ & _ & Hn & E) (Hw & Hm & Hn' & E'). split; [done|]. split; [done|]. split; [lia|].
  rewrite E' at 1. by rewrite E.
Qed.

Lemma later_heap w w' : later w w' -> heap w' = heap w.
Proof. intros (_ & _ & _ & E). by rewrite E. Qed.
Lemma later_wf w w' : later w w' -> world_wf w' /\ mem_plenty w'.
Proof. by intros (? & ? & _). Qed.

(** An object made and released. *)
Lemma later_spent w o : world_wf w -> mem_plenty w -> obj_wf o ->
  later w (with_heap (delete (next w) (heap (placed o w))) (placed o w)).
Proof.
  intros Hw Hm Ho. rewrite free_placed by done. split; [|split; [|split]].
  - pose proof (world_wf_placed o w Hw Ho) as [Hn _]. split; [exact Hn|]. cbn [heap with_heap next placed].
    intros p o' Hp. destruct Hw as [_ Hh]. destruct (Hh _ _ Hp) as (? & ? & ?). split_and!; try done; lia.
  - unfold mem_plenty in *. cbn. by rewrite Hm.
  - cbn. lia.
  - unfold mem_plenty in Hm. unfold placed, with_heap. cbn. by rewrite Hm.
Qed.

Lemma cap_to_name_run n w :
  valid_cap n -> world_wf w -> mem_plenty w ->
  cap_to_name n w = (Ok (next w), placed (OStr (cap_token n)) w).
Proof.
  intros Hn Hw Hm. pose proof (cap_token_length n Hn) as Hl. change CAP_NAME_SIZE with 23 in Hl.
  assert (mem_ok w) as Hok by (unfold mem_ok; by rewrite Hm).
  unfold cap_to_name, cap_token, valid_cap in *. change CAP_MAXBITS with 64 in Hn.
  destruct (Z.leb_spec 0 n); [|lia]. cbn [andb]. destruct (Z.ltb_spec n CAP_BITS).
  - destruct (cap_names_facts n ltac:(lia)) as (E & _). rewrite E. cbn [default].
    apply libcap_strdup_run; [|by apply wf_next_ne_0|done]. unfold strlen in Hl. lia.
  - rewrite (bind_ok _ _ _ _ _ (libc_alloc_run w)). rewrite Hm. cbn [hd].
    rewrite u32_id by (unfold is_u32; lia).
    assert (popped w = w) as -> by (unfold popped; destruct w; cbn in *; by rewrite Hm).
    apply libcap_strdup_run; [|by apply wf_next_ne_0|done]. unfold strlen in Hl. lia.
Qed.

Lemma put_run buf s w :
  strlen buf + strlen s + 1 <= CAP_TEXT_SIZE + CAP_TEXT_BUFFER_ZONE -> put buf s w = (Ok (buf ++ s), w).
Proof.
  intros H. unfold put, assert_ub. destruct (Z.leb_spec (strlen buf + strlen s + 1) (CAP_TEXT_SIZE + CAP_TEXT_BUFFER_ZONE));
    [done|lia].
Qed.

Lemma names_loop_run caps c t l buf w :
  world_wf w -> mem_plenty w -> heap w !! caps = Some (OCap c) -> Forall valid_cap l ->
  strlen buf + names_len (members (c_u c) t l) <= CAP_TEXT_SIZE ->
  exists w', names_loop caps t l buf w = (Ok (Some (buf ++ names_text (members (c_u c) t l))), w') /\ later w w'.
Proof.
  intros Hw Hm Hc Hl. revert buf w Hw Hm Hc. induction Hl as [|n l Hn _ IH]; intros buf w Hw Hm Hc Hlen.
  - exists w. split; [|by apply later_refl]. cbn. by rewrite str_app_nil_r.
  - cbn [names_loop]. rewrite (bind_ok _ _ _ _ _ (load_cap_run _ _ _ Hc)). unfold members in *. rewrite filter_cons in *.
    destruct (decide (getstateflags (c_u c) n = t)) as [E|E].
    2: { apply Z.eqb_neq in E as ->. by apply IH. }
    rewrite (proj2 (Z.eqb_eq _ _) E). fold (members (c_u c) t l) in *.
    unfold names_len in Hlen. cbn [sumZ] in Hlen. fold (names_len (members (c_u c) t l)) in Hlen.
    rewrite (bind_ok _ _ _ _ _ (cap_to_name_run n w Hn Hw Hm)).
    destruct (Z.eqb_spec (next w) 0) as [E0|_]; [by apply wf_next_ne_0 in Hw|].
    rewrite (bind_ok _ _ _ _ _ (load_str_run _ _ _ (lookup_insert_eq _ _ _))).
    pose proof (names_len_nonneg (members (c_u c) t l)). pose proof (cap_token_length n Hn) as Htl.
    change CAP_NAME_SIZE with 23 in Htl. change CAP_TEXT_SIZE with 1472 in *.
    destruct (Z.ltb_spec 1472 (strlen (cap_token n) + strlen buf)); [lia|].
    assert (strlen (cap_token n ++ ",") = strlen (cap_token n) + 1) as Es by (rewrite strlen_app; done).
    rewrite (bind_ok _ _ _ _ _ (put_run buf _ _ ltac:(rewrite Es; change CAP_TEXT_SIZE with 1472; change CAP_TEXT_BUFFER_ZONE with 100; lia))).
    rewrite (bind_ok _ _ _ _ _ (cap_free_copy (next w) _ (placed (OStr (cap_token n)) w) (wf_next_ne_0 _ Hw)
      (proj2 (wf_next _ Hw)) (lookup_insert_eq _ _ _) eq_refl)).
    pose proof (later_spent w (OStr (cap_token n)) Hw Hm I) as Hlat. destruct (later_wf _ _ Hlat) as [Hw' Hm'].
    edestruct (IH (buf ++ cap_token n ++ ",")) as (w' & H' & Hlat'); [exact Hw'|exact Hm'|by rewrite (later_heap _ _ Hlat)| |].
    { rewrite strlen_app, Es. lia. }
    exists w'. split; [|by eapply later_trans]. rewrite H'. cbn [names_text foldr]. by rewrite !str_app_assoc.
Qed.

Lemma histogram_spec u l t : 0 <= t < 8 -> histo (histogram u l) t = Z.of_nat (length (members u t l)).
Proof.
  intros Ht. unfold histogram.
  assert (forall h, length h = 8%nat ->
    histo (foldl (fun h n => alter (fun x => x + 1) (Z.to_nat (getstateflags u n)) h) h l) t
    = histo h t + Z.of_nat (length (members u t l))) as H.
  { induction l as [|n l IH]; intros h Hh; cbn [foldl]; [cbn; lia|].
    rewrite IH by by rewrite length_alter. pose proof (getstateflags_range u n) as Hr.
    unfold members. rewrite filter_cons. fold (members u t l).
    assert (histo (alter (fun x => x + 1) (Z.to_nat (getstateflags u n)) h) t =
      histo h t + if decide (getstateflags u n = t) then 1 else 0) as ->.
    { unfold histo. destruct (decide (getstateflags u n = t)) as [<-|Hne].
      - rewrite list_lookup_alter_eq. destruct (h !! Z.to_nat (getstateflags u n)) eqn:E; [done|].
        apply lookup_ge_None in E. lia.
      - rewrite list_lookup_alter_ne by lia. lia. }
    case_decide; cbn [length]; lia. }
  rewrite H by done. unfold histo. destruct (replicate 8 0 !! Z.to_nat t) eqn:E; [|cbn [default]; lia].
  apply lookup_replicate in E as [-> _]. done.
Qed.

Lemma histo_empty u l t : 0 <= t < 8 -> (histo (histogram u l) t =? 0) = bool_decide (members u t l = []).
Proof.
  intros Ht. rewrite histogram_spec by done. case_bool_decide as E; [by rewrite E|].
  apply Z.eqb_neq. destruct (members u t l); [done|]. simpl. lia.
Qed.

(** Whether the leading "=" is bare at the next group: at the first one, when
    nothing prevails. *)
Definition bare_inv (first base : bool) buf : Prop :=
  if first then base = false /\ buf = "=" else forall s, bare_default base (buf ++ s) = false.

(** The buffer after the names of a group. *)
Lemma group_buf buf l : l <> [] -> drop_last ((buf ++ " ") ++ names_text l) = buf ++ " " ++ show_refs (named <$> l).
Proof.
  intros Hl. destruct l as [|n l]; [done|]. rewrite names_refs, <-!str_app_assoc. by rewrite drop_last_comma, !str_app_assoc.
Qed.

Lemma show_group m t l first :
  show_clause (group_clause m t l first) = show_refs (named <$> l) ++ show_op (cl_op (group_clause m t l first)) ++
    show_letters (cl_letters (group_clause m t l first)) ++ show_mores (cl_more (group_clause m t l first)).
Proof. unfold show_clause. by rewrite group_clause_refs. Qed.

Lemma refs_word n l : valid_cap n -> wordc (head (show_refs (named <$> n :: l))) = true.
Proof.
  intros Hn. assert (ref_ok None 64 (named n)) as Hr.
  { apply cap_token_ok; [done|done|]. intros _. left. unfold valid_cap in Hn. change CAP_MAXBITS with 64 in Hn. lia. }
  change (named <$> n :: l) with (named n :: (named <$> l)).
  pose proof (show_refs_head None 64 (named n) (named <$> l) "" Hr) as H. by rewrite str_app_nil_r in H.
Qed.

Lemma bare_after buf first base l :
  bare_inv first base buf -> l <> [] -> Forall valid_cap l ->
  bare_default base (buf ++ " " ++ show_refs (named <$> l)) = first /\
  forall ops, bare_inv false (base || first) (buf ++ " " ++ show_refs (named <$> l) ++ ops).
Proof.
  intros Hinv Hl Hv. destruct first; cbn in Hinv.
  - destruct Hinv as [-> ->]. split; [done|]. intros ops s. destruct l as [|n l]; [done|].
    apply Forall_cons in Hv as [Hn _]. pose proof (refs_word n l Hn) as Hw.
    set (refs := show_refs _) in *.
    assert (bare_default (false || true) (("=" ++ " " ++ refs ++ ops) ++ s) =
      Ascii.eqb (head ((refs ++ ops) ++ s)) "=" && Ascii.eqb (head (tail ((refs ++ ops) ++ s))) " ") as -> by done.
    rewrite str_app_assoc, head_app by done.
    rewrite ascii_eqb_false; [done|]. intros E. by rewrite E in Hw.
  - rewrite orb_false_r. split; [apply Hinv|]. intros ops s. rewrite str_app_assoc. apply Hinv.
Qed.

Lemma members_valid u t l : Forall valid_cap l -> Forall valid_cap (members u t l).
Proof. rewrite !Forall_forall. intros H x [Hx _]%elem_of_members. by apply H. Qed.

Lemma refs_fit buf l : l <> [] -> strlen (buf ++ " " ++ show_refs (named <$> l)) <= strlen buf + names_len l.
Proof.
  intros Hl. destruct l as [|n l]; [done|]. rewrite !strlen_app, <-strlen_names, names_refs, strlen_app.
  change (strlen ",") with 1. change (strlen " ") with 1. lia.
Qed.

Lemma groups_loop_run caps c m cmb ts buf base first w :
  world_wf w -> mem_plenty w -> heap w !! caps = Some (OCap c) -> 0 <= cmb <= CAP_MAXBITS ->
  0 <= m < 8 -> Forall (fun t => 0 <= t < 8) ts -> (first = true -> m = 0) -> bare_inv first base buf ->
  strlen buf + sumZ (group_len (c_u c) m (seqZ 0 cmb)) ts <= CAP_TEXT_SIZE ->
  let gs := group_clauses (c_u c) m (seqZ 0 cmb) ts first in
  exists w', groups_loop caps m cmb (histogram (c_u c) (seqZ 0 cmb)) ts buf base w =
      (Ok (Some (buf ++ spaced gs, base || (first && bool_decide (gs <> [])))), w') /\ later w w'.
Proof.
  intros Hw Hm Hc Hcmb Hmr Hts. revert buf base first w Hw Hm Hc.
  assert (Forall valid_cap (seqZ 0 cmb)) as Hv
    by (apply Forall_forall; intros x; rewrite elem_of_seqZ; unfold valid_cap; lia).
  induction Hts as [|t ts Ht _ IH]; intros buf base first w Hw Hm Hc Hf Hinv Hlen gs.
  - exists w. split; [|by apply later_refl]. cbn. rewrite str_app_nil_r.
    by rewrite andb_false_r, orb_false_r.
  - cbn [groups_loop sumZ] in *. unfold gs. clear gs. cbn [group_clauses]. rewrite histo_empty by done.
    assert ((t =? m) || bool_decide (members (c_u c) t (seqZ 0 cmb) = []) =
      bool_decide (t = m \/ members (c_u c) t (seqZ 0 cmb) = [])) as ->.
    { apply eq_true_iff_eq. rewrite orb_true_iff, !bool_decide_eq_true, Z.eqb_eq. done. }
    unfold group_len at 1 in Hlen. set (l := members (c_u c) t (seqZ 0 cmb)) in *.
    case_bool_decide as Hb; [by apply IH|].
    assert (t <> m /\ l <> []) as [Hne Hl] by tauto. pose proof (names_len_nonneg l). pose proof (strlen_pos buf).
    assert (0 <= sumZ (group_len (c_u c) m (seqZ 0 cmb)) ts) as Hrest.
    { apply sumZ_nonneg. intros x. unfold group_len. pose proof (names_len_nonneg (members (c_u c) x (seqZ 0 cmb))).
      case_bool_decide; lia. }
    assert (Forall valid_cap l) as Hvl by by apply members_valid.
    rewrite (bind_ok _ _ _ _ _ (put_run buf " " w ltac:(change (strlen " ") with 1; change CAP_TEXT_BUFFER_ZONE with 100; lia))).
    destruct (names_loop_run caps c t (seqZ 0 cmb) (buf ++ " ") w Hw Hm Hc Hv) as (w1 & H1 & Hlat).
    { fold l. rewrite strlen_app. change (strlen " ") with 1. lia. }
    rewrite (bind_ok _ _ _ _ _ H1). fold l. rewrite group_buf by done.
    destruct (bare_after buf first base l Hinv Hl Hvl) as [-> Hinv'].
    destruct (group_ops_clause m t l first Hmr Ht Hne Hf) as [Hops Hol]. 
    set (c' := group_clause m t l first) in *.
    pose proof (refs_fit buf l Hl) as Hsb.
    destruct (group_ops m t first) as [ops dropped]. cbn [fst] in Hol. injection Hops as -> ->.
    set (ops := show_op _ ++ _) in *.
    erewrite bind_ok; [|apply put_run; change CAP_TEXT_BUFFER_ZONE with 100; lia].
    set (buf' := (buf ++ " " ++ show_refs (named <$> l)) ++ ops).
    assert (strlen buf' <= strlen buf + names_len l + 8) as Hbl by (unfold buf'; rewrite strlen_app; lia).
    destruct (Z.ltb_spec CAP_TEXT_SIZE (strlen buf')); [lia|].
    destruct (later_wf _ _ Hlat) as [Hw1 Hm1].
    destruct (IH buf' (base || first) false w1 Hw1 Hm1) as (w2 & Hgo & Hlat2);
      [by rewrite (later_heap _ _ Hlat)|done| |lia|].
    { unfold buf'. rewrite !str_app_assoc. apply Hinv'. }
    exists w2. split; [|by eapply later_trans]. rewrite Hgo. cbn [andb]. rewrite orb_false_r.
    assert (bool_decide (c' :: group_clauses (c_u c) m (seqZ 0 cmb) ts false <> []) = true) as ->
      by by apply bool_decide_eq_true.
    rewrite andb_true_r. cbn [spaced foldr]. fold (spaced (group_clauses (c_u c) m (seqZ 0 cmb) ts false)).
    unfold c' at 1. rewrite show_group. fold c' ops. unfold buf'. by rewrite !str_app_assoc.
Qed.

Lemma unnamed_ops t l : 1 <= t < 8 ->
  "+" ++ letters t = show_op (cl_op (group_clause 0 t l false)) ++ show_letters (cl_letters (group_clause 0 t l false)) ++
    show_mores (cl_more (group_clause 0 t l false)) /\ strlen ("+" ++ letters t) <= 8.
Proof.
  intros Ht. assert (0 <= t < 8) as Hs%state_cases by lia. unfold states in Hs.
  change (seqZ 0 8) with [0;1;2;3;4;5;6;7] in Hs. rewrite !elem_of_cons, elem_of_nil in Hs.
  destruct Hs as [->|[->|[->|[->|[->|[->|[->|[->|[]]]]]]]]]; [lia|..]; (split; [reflexivity|vm_compute; discriminate]).
Qed.

Lemma unnamed_loop_run caps c cmb ts buf w :
  world_wf w -> mem_plenty w -> heap w !! caps = Some (OCap c) -> 0 <= cmb <= CAP_MAXBITS ->
  Forall (fun t => 1 <= t < 8) ts ->
  let l := seqZ cmb (CAP_MAXBITS - cmb) in
  strlen buf + sumZ (group_len (c_u c) 0 l) ts <= CAP_TEXT_SIZE ->
  exists w', unnamed_loop caps cmb (histogram (c_u c) l) ts buf w =
      (Ok (Some (buf ++ spaced (group_clauses (c_u c) 0 l ts false))), w') /\ later w w'.
Proof.
  intros Hw Hm Hc Hcmb Hts l. revert buf w Hw Hm Hc.
  assert (Forall valid_cap l) as Hv
    by (apply Forall_forall; intros x; unfold l; rewrite elem_of_seqZ; unfold valid_cap; lia).
  induction Hts as [|t ts Ht _ IH]; intros buf w Hw Hm Hc Hlen.
  - exists w. split; [|by apply later_refl]. cbn. by rewrite str_app_nil_r.
  - cbn [unnamed_loop sumZ group_clauses] in *. fold l in IH |- *. rewrite histo_empty by lia.
    assert (bool_decide (t = 0 \/ members (c_u c) t l = []) = bool_decide (members (c_u c) t l = [])) as Eb
      by (apply bool_decide_ext; intuition lia).
    unfold group_len at 1 in Hlen. rewrite Eb in *. clear Eb. case_bool_decide as Hl; [by apply IH|].
    pose proof (names_len_nonneg (members (c_u c) t l)). pose proof (strlen_pos buf).
    assert (0 <= sumZ (group_len (c_u c) 0 l) ts) as Hrest.
    { apply sumZ_nonneg. intros x. unfold group_len. pose proof (names_len_nonneg (members (c_u c) x l)).
      case_bool_decide; lia. }
    rewrite (bind_ok _ _ _ _ _ (put_run buf " " w ltac:(change (strlen " ") with 1; change CAP_TEXT_BUFFER_ZONE with 100; lia))).
    destruct (names_loop_run caps c t l (buf ++ " ") w Hw Hm Hc Hv) as (w1 & H1 & Hlat).
    { rewrite strlen_app. change (strlen " ") with 1. lia. }
    rewrite (bind_ok _ _ _ _ _ H1). rewrite group_buf by done.
    destruct (unnamed_ops t (members (c_u c) t l) Ht) as [Hops Hol].
    pose proof (refs_fit buf (members (c_u c) t l) Hl) as Hsb.
    erewrite bind_ok; [|apply put_run; change CAP_TEXT_BUFFER_ZONE with 100; lia].
    set (buf' := (buf ++ " " ++ show_refs (named <$> members (c_u c) t l)) ++ "+" ++ letters t).
    assert (strlen buf' <= strlen buf + names_len (members (c_u c) t l) + 8) as Hbl by (unfold buf'; rewrite strlen_app; lia).
    destruct (Z.ltb_spec CAP_TEXT_SIZE (strlen buf')); [lia|].
    destruct (later_wf _ _ Hlat) as [Hw1 Hm1].
    destruct (IH buf' w1 Hw1 Hm1) as (w2 & Hgo & Hlat2); [by rewrite (later_heap _ _ Hlat)|lia|].
    exists w2. split; [|by eapply later_trans]. rewrite Hgo. cbn [spaced foldr].
    fold (spaced (group_clauses (c_u c) 0 l ts false)). rewrite show_group, <-Hops. unfold buf'. by rewrite !str_app_assoc.
Qed.

End runs.

(** ** cap_to_text() *)

(** The text of a set: the clauses of TextPrint.v, a space between two. *)
Definition text_of (u : list capblk) (cmb : Z) : string := show_clauses (with_gaps (text_clauses u cmb)).

Section whole.
Context {K : Type} `{!Kernel K}.
Implicit Types (w : world K) (u : list capblk) (c : cap_struct).

Lemma text_of_buf u cmb :
  let m := common_state (histogram u (seqZ 0 cmb)) in
  let gs := group_clauses u m (seqZ 0 cmb) (countdown 8) (m =? 0) in
  let us := group_clauses u 0 (seqZ cmb (CAP_MAXBITS - cmb)) (reverse (seqZ 1 7)) false in
  let buf := (("=" ++ letters m) ++ spaced gs) ++ spaced us in
  (if (m =? 0) && bool_decide (gs <> []) then str_drop 2 buf else buf) = text_of u cmb.
Proof.
  intros m gs us buf. unfold text_of, text_clauses. fold m gs us.
  assert ((m =? 0) && bool_decide (gs <> []) = bool_decide (m = 0 /\ gs <> [])) as ->.
  { apply eq_true_iff_eq. rewrite andb_true_iff, !bool_decide_eq_true, Z.eqb_eq. done. }
  unfold buf. case_bool_decide as Hb.
  - destruct Hb as [-> Hgs]. destruct gs as [|c gs]; [done|]. cbn [app]. rewrite show_with_gaps, spaced_app.
    cbn [spaced foldr]. fold (spaced gs). change ("=" ++ letters 0) with "=". rewrite !str_app_assoc. done.
  - cbn [app]. rewrite show_with_gaps, spaced_app. unfold show_clause. cbn [default_clause cl_refs cl_op cl_letters cl_more].
    cbn [show_refs show_op show_mores]. destruct (letters_of_spec m (common_state_range _)) as (-> & _).
    cbn [fmap list_fmap]. by rewrite !str_app_assoc, ?str_app_nil_r.
Qed.

Lemma str_drop_length n s : strlen (str_drop n s) <= strlen s.
Proof.
  revert s. induction n as [|n IH]; intros s; [done|]. cbn [str_drop]. etrans; [apply IH|].
  destruct s; unfold strlen; cbn; lia.
Qed.

Lemma spaced_groups_len u m l ts first :
  0 <= m < 8 -> Forall (fun t => 0 <= t < 8) ts -> (first = true -> m = 0) ->
  strlen (spaced (group_clauses u m l ts first)) <= sumZ (group_len u m l) ts.
Proof.
  intros Hm Hts. revert first. induction Hts as [|t ts Ht _ IH]; intros first Hf; [done|].
  cbn [group_clauses sumZ]. unfold group_len at 1. case_bool_decide as Hb; [by apply IH|].
  assert (t <> m /\ members u t l <> []) as [Hne Hl] by tauto.
  destruct (group_ops_clause m t (members u t l) first Hm Ht Hne Hf) as [E Hlen]. rewrite E in Hlen. cbn [fst] in Hlen.
  pose proof (refs_fit "" _ Hl) as Hr. cbn [spaced foldr]. fold (spaced (group_clauses u m l ts false)).
  rewrite show_group. specialize (IH false ltac:(done)). rewrite !strlen_app in *. change (strlen "") with 0 in *. lia.
Qed.

Lemma bare_letters m : 0 < m < 8 -> bare_inv false false ("=" ++ letters m).
Proof.
  intros Hm. assert (0 <= m < 8) as Hs%state_cases by lia. unfold states in Hs.
  change (seqZ 0 8) with [0;1;2;3;4;5;6;7] in Hs. rewrite !elem_of_cons, elem_of_nil in Hs. intros s.
  by destruct Hs as [->|[->|[->|[->|[->|[->|[->|[->|[]]]]]]]]]; [lia|..].
Qed.

(** The text is no longer than CAP_TEXT_SIZE, whatever the set. *)
Lemma text_of_fits u cmb : 1 <= cmb <= CAP_MAXBITS -> strlen (text_of u cmb) <= CAP_TEXT_SIZE.
Proof.
  intros Hcmb. pose proof (text_of_buf u cmb) as Ht. cbv zeta in Ht.
  set (m := common_state (histogram u (seqZ 0 cmb))) in *. assert (0 <= m < 8) as Hmr by apply common_state_range.
  pose proof (text_fits u cmb m Hcmb) as Hfit. destruct (letters_of_spec m Hmr) as (_ & _ & _ & _ & Hl3).
  pose proof (spaced_groups_len u m (seqZ 0 cmb) (countdown 8) (m =? 0) Hmr (countdown_states 8 ltac:(lia)) (proj1 (Z.eqb_eq _ _))).
  pose proof (spaced_groups_len u 0 (seqZ cmb (CAP_MAXBITS - cmb)) (reverse (seqZ 1 7)) false ltac:(lia) (proj1 upper_states) ltac:(done)).
  rewrite <-Ht. destruct (_ && _); [etrans; [apply str_drop_length|]|]; rewrite !strlen_app; change (strlen "=") with 1; lia.
Qed.

Lemma cap_to_text_run caps c want w :
  world_wf w -> mem_plenty w -> heap w !! caps = Some (OCap c) -> 1 <= g_max_bits (glob w) <= CAP_MAXBITS ->
  let text := text_of (c_u c) (g_max_bits (glob w)) in
  exists w', later w w' /\
    cap_to_text caps want w = (Ok (next w', if want then Some (strlen text) else None), placed (OStr text) w').
Proof.
  intros Hw Hm Hc Hcmb text. unfold cap_to_text, cap_max_bits. set (cmb := g_max_bits (glob w)) in *.
  set (m := common_state (histogram (c_u c) (seqZ 0 cmb))).
  assert (0 <= m < 8) as Hmr by apply common_state_range. pose proof (text_fits (c_u c) cmb m Hcmb) as Hfit.
  destruct (letters_of_spec m Hmr) as (_ & _ & _ & _ & Hl3).
  assert (strlen ("=" ++ letters m) <= 4) as Hl4 by (rewrite strlen_app; change (strlen "=") with 1; lia).
  run. assert ((magic_at (heap w) caps =? CAP_T_MAGIC) = true) as ->
    by (apply Z.eqb_eq; by rewrite (magic_at_some _ _ _ (wf_ne_0 _ _ _ Hw Hc) Hc)). cbn [negb]. run. fold cmb m.
  erewrite bind_ok; [|apply put_run; change (strlen "") with 0; change CAP_TEXT_BUFFER_ZONE with 100;
    change CAP_TEXT_SIZE with 1472; lia].
  change ("" ++ "=" ++ letters m) with ("=" ++ letters m).
  set (ts := countdown 8) in *. set (us := reverse (seqZ 1 7)) in *.
  assert (forall a l xs, 0 <= sumZ (group_len (c_u c) a l) xs) as Hpos.
  { intros a l xs. apply sumZ_nonneg. intros x. unfold group_len. pose proof (names_len_nonneg (members (c_u c) x l)).
    case_bool_decide; lia. }
  destruct (groups_loop_run caps c m cmb ts ("=" ++ letters m) false (m =? 0) w) as (w1 & H1 & Hlat1);
    [done|done|done|lia|done|by apply countdown_states|apply Z.eqb_eq| |specialize (Hpos 0 (seqZ cmb (CAP_MAXBITS - cmb)) us); lia|].
  { destruct (Z.eqb_spec m 0) as [E0|E0]; [split; [done|by rewrite E0]|]. apply bare_letters. lia. }
  rewrite (bind_ok _ _ _ _ _ H1). destruct (later_wf _ _ Hlat1) as [Hw1 Hm1].
  set (gs := group_clauses (c_u c) m (seqZ 0 cmb) ts (m =? 0)) in *.
  destruct (unnamed_loop_run caps c cmb us (("=" ++ letters m) ++ spaced gs) w1) as (w2 & H2 & Hlat2);
    [done|done|by rewrite (later_heap _ _ Hlat1)|lia| | |].
  { apply Forall_forall. intros t. unfold us. rewrite elem_of_reverse, elem_of_seqZ. lia. }
  { pose proof (spaced_groups_len (c_u c) m (seqZ 0 cmb) ts (m =? 0) Hmr (countdown_states 8 ltac:(lia)) (proj1 (Z.eqb_eq _ _))).
    rewrite strlen_app. fold gs in H. lia. }
  rewrite (bind_ok _ _ _ _ _ H2). cbn [orb]. pose proof (text_of_buf (c_u c) cmb) as Ht. cbv zeta in Ht.
  fold m ts us in Ht. fold gs in Ht.
  match type of Ht with ?a = _ => match goal with |- context [libcap_strdup (Some ?b)] => change b with a end end.
  rewrite Ht. fold text.
  pose proof (text_of_fits (c_u c) cmb Hcmb) as Hlen. fold text in Hlen. change CAP_TEXT_SIZE with 1472 in Hlen.
  destruct (later_wf _ _ Hlat2) as [Hw2 Hm2]. exists w2. split; [by eapply later_trans|].
  erewrite bind_ok; [|apply libcap_strdup_run; [unfold strlen in Hlen; lia|by apply wf_next_ne_0|by unfold mem_ok; rewrite Hm2]].
  done.
Qed.

End whole.
