(* ===== verification/TextRound.v ===== *)
(** What cap_text.c promises its callers: cap_from_text() implements the grammar
    of TextSpec.v and ends on every string, cap_to_text() always fits, and text
    and name round trips. *)

From Stdlib Require Import ZArith Lia String Ascii.
From stdpp Require Import gmap list sets.
From S2P Require Import Prelude Capability World Exec Syscall Alloc Flag FlagSpec IabSpec Proc Text TextLex.
From S2P Require Import TextSpec TextParse TextPrint TextToText.

Open Scope string_scope.
Open Scope Z_scope.

#[local] Arguments String.append !_ _ / : simpl nomatch.

Section text.
Context {K : Type} `{!Kernel K}.
Variable gperf : option (string -> option Z).
Implicit Types (w : world K) (u : list capblk) (c : cap_struct) (p n x : Z).

(** A process whose libcap has started and whose memory suffices. *)
Definition text_world w : Prop :=
  world_wf w /\ mem_plenty w /\ capget_probe_ok (kst w) /\ 1 <= g_max_bits (glob w) <= CAP_MAXBITS.

(** The set with the words [u] and nothing else. *)
Definition set_of u : cap_struct := with_u (fun _ => u) cap_blank.

Lemma u_wf_blank : u_wf [blk0; blk0].
Proof. apply u_wf_pair; by split_and!. Qed.

Lemma blank_state x : valid_cap x -> getstateflags [blk0; blk0] x = 0.
Proof.
  intros Hx. rewrite getstateflags_bits. unfold has_cap.
  destruct (index_bound x Hx) as [-> | ->]; cbn; by rewrite ?Z.testbit_0_l.
Qed.

Lemma spent_later w : world_wf w -> mem_plenty w -> later w (spent w).
Proof.
  intros Hw Hm. pose proof (later_spent w (OCap cap_blank) Hw Hm u_wf_blank) as Hl. by rewrite free_placed in Hl.
Qed.

(** A fresh set on its way through the parser. *)
Lemma cap_from_text_step s w :
  text_world w ->
  cap_from_text gperf (Some s) w =
    match parse_text gperf (g_max_bits (glob w)) 2 s [blk0; blk0] with
    | PGood u => (Ok (next w), placed (OCap (set_of u)) w)
    | PBad => (Ok 0, with_errno EINVAL (spent w))
    | PSpin => (Spin, placed (OCap cap_blank) w)
    end.
Proof.
  intros (Hw & Hm & Hk & _). pose proof (wf_next_ne_0 _ Hw) as Hn.
  assert (mem_ok w) as Hok by (unfold mem_ok; by rewrite Hm).
  unfold cap_from_text. rewrite (bind_ok _ _ _ _ _ (cap_init_run w Hn Hok Hk)).
  destruct (Z.eqb_spec (next w) 0); [done|]. run. change (version_blks (c_version cap_blank)) with (Some 2%nat).
  unfold cap_max_bits. run. change (c_u cap_blank) with [blk0; blk0].
  destruct (parse_text _ _ _ _ _) as [u| |].
  - run. rewrite ret_run. f_equal. unfold placed, with_heap. cbn. f_equal. by rewrite insert_insert_eq.
  - rewrite (bind_ok _ _ _ _ _ (cap_free_copy (next w) (OCap cap_blank) (placed (OCap cap_blank) w) Hn
      (proj2 (wf_next _ Hw)) (lookup_insert_eq _ _ _) eq_refl)).
    rewrite free_placed by done. by run.
  - done.
Qed.

Lemma cap_from_text_run s w u :
  text_world w -> parse_text gperf (g_max_bits (glob w)) 2 s [blk0; blk0] = PGood u ->
  cap_from_text gperf (Some s) w = (Ok (next w), placed (OCap (set_of u)) w).
Proof. intros Hw H. rewrite cap_from_text_step by done. by rewrite H. Qed.

Lemma placed_heap_ne o w p o' : world_wf w -> heap w !! p = Some o' -> heap (placed o w) !! p = Some o'.
Proof.
  intros Hw Hp. cbn. rewrite lookup_insert_ne; [done|]. pose proof (wf_ne_next _ _ _ Hw Hp). congruence.
Qed.

Lemma clauses_state_fst cmb cs x g :
  clauses_state cmb cs x g = foldl (fun g cl => clause_state cmb cl x g) g cs.*1.
Proof.
  unfold clauses_state. revert g. induction cs as [|[c gap] cs IH]; intros g; [done|]. cbn [foldl fmap list_fmap fst].
  apply IH.
Qed.

Lemma text_of_ok u cmb :
  gperf_ok gperf -> 1 <= cmb <= CAP_MAXBITS -> nameable gperf u cmb ->
  text_ok gperf cmb "" (with_gaps (text_clauses u cmb)).
Proof.
  intros Hg Hcmb Hn. pose proof (text_clauses_ok gperf u cmb Hg Hcmb Hn) as Hcs.
  split; [done|]. split; [apply gaps_ok_with_gaps|].
  rewrite <-(with_gaps_fst (text_clauses u cmb)) in Hcs. by rewrite Forall_fmap in Hcs.
Qed.

(** No text is empty. *)
Lemma text_of_pos u cmb : 0 < strlen (text_of u cmb).
Proof.
  unfold text_of. assert (text_clauses u cmb <> []) as Hne.
  { unfold text_clauses. case_bool_decide as Hb; [|done]. cbn [app].
    intros [H _]%app_eq_nil. tauto. }
  destruct (text_clauses u cmb) as [|c cs]; [done|]. rewrite show_with_gaps. unfold show_clause. rewrite !strlen_app.
  assert (1 <= strlen (show_op (cl_op c))) by by destruct (cl_op c).
  repeat match goal with |- context [strlen ?a] => lazymatch goal with H : 0 <= strlen a |- _ => fail
    | _ => pose proof (strlen_pos a) end end. lia.
Qed.

Lemma text_world_later w w' : text_world w -> later w w' -> text_world w'.
Proof. intros (_ & _ & Hk & Hb) (Hw & Hm & _ & E). split; [done|]. split; [done|]. rewrite E. done. Qed.

Lemma text_world_placed o w : obj_wf o -> text_world w -> text_world (placed o w).
Proof.
  intros Ho (Hw & Hm & Hk & Hb). split; [by apply world_wf_placed|]. split; [|done].
  unfold mem_plenty in *. cbn. by rewrite Hm.
Qed.


(** C11 cap_from_text() ends on every string there is, and on NULL: either with a
    new, well-formed, unlocked set and nothing else changed, or with NULL, EINVAL
    and the heap as it was, the set it had begun with released. *)
Theorem cap_from_text_total str w :
  text_world w -> gperf_ok gperf ->
  (exists c, cap_from_text gperf str w = (Ok (next w), placed (OCap c) w) /\ cap_wf c /\ c_mutex c = false /\
     world_wf (placed (OCap c) w)) \/
  (exists w', cap_from_text gperf str w = (Ok 0, with_errno EINVAL w') /\ later w w').
Proof.
  intros Hw Hg. pose proof Hw as (Hwf & Hm & _ & Hcmb). destruct str as [s|].
  2: { right. exists w. split; [|by apply later_refl]. unfold cap_from_text. by run. }
  rewrite cap_from_text_step by done.
  pose proof (parse_text_total gperf Hg (g_max_bits (glob w)) Hcmb s [blk0; blk0] u_wf_blank) as H.
  destruct (parse_text _ _ _ _ _) as [u| |]; [| |done].
  - left. exists (set_of u). split_and!; try done. by apply world_wf_placed.
  - right. exists (spent w). split; [done|]. 
    by apply spent_later.
Qed.

(** C33 cap_to_text() returns a text for every set: it is not empty and no longer
    than CAP_TEXT_SIZE, no write leaves the buffer, the names made on the way are
    released, and the length that is stored is the length of the text. For
    anything but a set it returns NULL with EINVAL. *)
Theorem cap_to_text_correct p want w :
  text_world w ->
  (forall c, heap w !! p = Some (OCap c) ->
     exists q s w', cap_to_text p want w = (Ok (q, if want then Some (strlen s) else None), w') /\
       heap w' = <[q := OStr s]> (heap w) /\ heap w !! q = None /\ q <> 0 /\ world_wf w' /\
       0 < strlen s <= CAP_TEXT_SIZE) /\
  (magic_at (heap w) p <> CAP_T_MAGIC -> cap_to_text p want w = (Ok (0, None), with_errno EINVAL w)).
Proof.
  intros Hw. split.
  - intros c Hc. pose proof Hw as (Hwf & Hm & _ & Hcmb).
    destruct (cap_to_text_run p c want w Hwf Hm Hc Hcmb) as (w1 & Hlat & ->). eexists _, _, _. split; [done|].
    destruct (later_wf _ _ Hlat) as [Hwf1 _]. cbn [placed heap]. rewrite (later_heap _ _ Hlat).
    split_and!; [done| |by apply wf_next_ne_0|by apply world_wf_placed|by apply text_of_pos|by apply text_of_fits].
    rewrite <-(later_heap _ _ Hlat). by apply wf_fresh.
  - intros Hp. unfold cap_to_text. run. apply Z.eqb_neq in Hp as ->. by run.
Qed.

(** C9 Text round trip: cap_from_text() of what cap_to_text() wrote for a set
    makes a new set with the same three flags, for every set whose raised bits
    can be named again - with gperf all can, without it those that the library
    has a name for and the kernel does not know cannot. *)
Theorem cap_text_roundtrip p c w :
  text_world w -> gperf_ok gperf -> heap w !! p = Some (OCap c) -> nameable gperf (c_u c) (g_max_bits (glob w)) ->
  exists q s w1 r c' w2,
    cap_to_text p false w = (Ok (q, None), w1) /\ heap w1 = <[q := OStr s]> (heap w) /\
    cap_from_text gperf (Some s) w1 = (Ok r, w2) /\ heap w2 = <[r := OCap c']> (heap w1) /\
    heap w1 !! r = None /\ c_u c' = c_u c.
Proof.
  intros Hw Hg Hc Hn. pose proof Hw as (Hwf & Hm & _ & Hcmb). set (cmb := g_max_bits (glob w)) in *.
  destruct (cap_to_text_run p c false w Hwf Hm Hc Hcmb) as (w1 & Hlat & E1). fold cmb in E1.
  set (s := text_of (c_u c) cmb) in *. pose proof (text_world_later _ _ Hw Hlat) as Hw1.
  assert (text_world (placed (OStr s) w1)) as Hw2 by by apply text_world_placed.
  assert (g_max_bits (glob (placed (OStr s) w1)) = cmb) as Ecmb.
  { destruct Hlat as (_ & _ & _ & E). rewrite E. done. }
  pose proof (text_of_ok (c_u c) cmb Hg Hcmb Hn) as Hok. pose proof Hok as (_ & _ & Hcg).
  assert (cap_wf c) as Hcw by by eapply wf_heap in Hc as (_ & _ & ?).
  exists (next w1), s, (placed (OStr s) w1), (next (placed (OStr s) w1)). eexists _, _.
  split; [done|]. split; [cbn; by rewrite (later_heap _ _ Hlat)|].
  split; [apply cap_from_text_run; [done|]; rewrite Ecmb;
    exact (parse_text_run gperf cmb Hcmb "" _ _ Hok u_wf_blank)|].
  split; [done|]. split; [apply wf_fresh, Hw2|]. apply states_inj; [|done|].
  - by apply (clauses_u_spec gperf cmb Hcmb _ [blk0; blk0] 0 Hcg u_wf_blank).
  - intros x Hx. destruct (clauses_u_spec gperf cmb Hcmb _ [blk0; blk0] x Hcg u_wf_blank Hx) as [_ Hs].
    etrans; [exact Hs|]. rewrite blank_state by done.
    by rewrite clauses_state_fst, with_gaps_fst, text_clauses_state.
Qed.

(** C36 Name round trip: cap_to_name() gives every capability number a new string,
    its name or its decimal number, and cap_from_name() of that string - and of
    the name in any other mix of cases - is the number again, stored only when
    asked for. A number beyond the capabilities there can be is refused. *)
Theorem cap_name_roundtrip n want w :
  text_world w -> gperf_ok gperf -> valid_cap n ->
  (gperf = None -> n < g_max_bits (glob w) \/ CAP_BITS <= n) ->
  cap_to_name n w = (Ok (next w), placed (OStr (cap_token n)) w) /\
  (forall s, s = cap_token n \/ (n < CAP_BITS /\ str_lower s = cap_name n) ->
     cap_from_name gperf s want w = (Ok (0, if want then Some n else None), w)) /\
  (forall s m, isdigit (head s) = true -> strtoul s = (m, "") -> CAP_MAXBITS <= m ->
     cap_from_name gperf s want w = (Ok (-1, None), w)).
Proof.
  intros (Hw & Hm & _) Hg Hn Hc. split; [by apply cap_to_name_run|]. split.
  - intros s Hs. assert (token_ok gperf (g_max_bits (glob w)) s n) as (_ & _ & Ht).
    { destruct Hs as [->|[Hb Hs]]; [by apply cap_token_ok|]. unfold valid_cap in Hn.
      apply token_name; [done|lia| |done]. intros E. destruct (Hc E); [done|lia]. }
    destruct (Ht "" eq_refl) as [E _]. rewrite str_app_nil_r in E.
    unfold cap_from_name, cap_max_bits. run. by rewrite E.
  - intros s m Hd Hs Hle. unfold cap_from_name, cap_max_bits. run. unfold lookupname. rewrite Hd, Hs.
    by apply Z.leb_le in Hle as ->.
Qed.

End text.
