(* ===== verification/Launch.v ===== *)
(** libcap/cap_proc.c, launchers: preparing one and cap_launch(), which forks a
    child that changes its privilege and runs a callback or a program. *)

From S2P Require Import Prelude Capability World Exec Syscall Alloc Flag Proc.
From stdpp Require Import gmap strings list sets.
From Stdlib Require Import ZArith Lia.

Open Scope Z_scope.

(** ** Processes, which the kernel keeps

    [sys_fork] gives the parent's result, and the kernel as the parent and as
    the child see it; [child_gone kp kc] is what the parent sees once the child
    has left the kernel in state [kc] and its end of the pipe is closed - the
    parent's read(2) waits for that. [sys_read] gives the result and the errno
    value it read. [user_setup] is the client's callback: result, errno. *)
Class Process (K : Type) := {
  user_setup : Z -> Z -> K -> Z * Z * K;
  sys_pipe2 : K -> Z * (Z * Z) * K;
  sys_fork : K -> Z * K * K;
  child_gone : K -> K -> K;
  sys_set_name : K -> string -> K;
  sys_execve : K -> string -> option (list string) -> option (list string) -> Z * K;
  sys_write : K -> Z -> Z -> Z * K;
  sys_read : K -> Z -> Z * Z * K;
  sys_close_fd : K -> Z -> K;
  sys_waitpid : K -> Z -> K
}.

(** Turns of the loops that repeat a transfer on EAGAIN; a pipe that blocks, as
    these do, never gives it. *)
Definition retry_fuel : nat := 16.

Section launch.
Context {K : Type} `{!Kernel K, !Process K}.
Implicit Types (w : world K) (p : Z).

(** *** Preparing a launcher *)

Definition set_l_fn v (l : cap_launch_s) : cap_launch_s := launch_with_fn v l.
Definition set_l_uid uid (l : cap_launch_s) : cap_launch_s :=
  mkLaunch (l_mutex l) (l_custom_setup_fn l) true uid
    (l_change_gids l) (l_gid l) (l_ngroups l) (l_groups l)
    (l_change_mode l) (l_mode l) (l_iab l) (l_chroot l) (l_arg0 l) (l_argv l) (l_envp l).
Definition set_l_groups gid ngroups groups (l : cap_launch_s) : cap_launch_s :=
  mkLaunch (l_mutex l) (l_custom_setup_fn l) (l_change_uids l) (l_uid l)
    true gid ngroups groups
    (l_change_mode l) (l_mode l) (l_iab l) (l_chroot l) (l_arg0 l) (l_argv l) (l_envp l).
Definition set_l_mode flavor (l : cap_launch_s) : cap_launch_s :=
  mkLaunch (l_mutex l) (l_custom_setup_fn l) (l_change_uids l) (l_uid l)
    (l_change_gids l) (l_gid l) (l_ngroups l) (l_groups l)
    true flavor (l_iab l) (l_chroot l) (l_arg0 l) (l_argv l) (l_envp l).

(** The common text of the setters: check, lock, assign, unlock. *)
Definition launcher_set (attr : Z) (f : cap_launch_s -> cap_launch_s) : M K Z :=
  good ← good_cap_launch_t attr;
  if negb good then set_errno EINVAL;; mret (-1)
  else
    mu_lock attr;;
    modify_launch attr f;;
    mu_unlock attr;;
    mret 0.

Definition cap_launcher_callback (attr callback_fn : Z) : M K Z :=
  launcher_set attr (set_l_fn callback_fn).
Definition cap_launcher_setuid (attr uid : Z) : M K Z :=
  launcher_set attr (set_l_uid uid).
Definition cap_launcher_setgroups (attr gid ngroups : Z) (groups : list Z) : M K Z :=
  launcher_set attr (set_l_groups gid ngroups groups).
Definition cap_launcher_set_mode (attr flavor : Z) : M K Z :=
  launcher_set attr (set_l_mode flavor).

Definition cap_launcher_set_iab (attr iab : Z) : M K Z :=
  good ← good_cap_launch_t attr;
  if negb good then set_errno EINVAL;; mret 0
  else
    mu_lock attr;;
    l ← load_launch attr;
    let old := l_iab l in
    modify_launch attr (set_l_iab iab);;
    (if negb (old =? 0) then mu_unlock old else mret tt);;
    (if negb (iab =? 0) then mu_lock iab else mret tt);;
    mu_unlock attr;;
    mret old.

Definition cap_launcher_set_chroot (attr : Z) (chroot : option string) : M K Z :=
  good ← good_cap_launch_t attr;
  if negb good then set_errno EINVAL;; mret (-1)
  else
    mu_lock attr;;
    s ← libcap_strdup chroot;
    modify_launch attr (set_l_chroot s);;
    mu_unlock attr;;
    mret 0.

(** *** The child *)

Definition raise_cap_sys_chroot : list Z := [CAP_SYS_CHROOT].

Definition chdir (path : string) : M K Z := fun w =>
  let '(r, k) := sys_chdir (kst w) path in libc_ret r (with_kst k w).

Definition cap_chroot_sc (sc : syscaller_ref) (root : string) : M K Z :=
  working ← cap_get_proc;
  if working =? 0 then mret (-1)
  else
    _ ← cap_set_flag working CAP_EFFECTIVE 1 raise_cap_sys_chroot CAP_SET;
    ret ← cap_set_proc_sc sc working;
    ret ← (if ret =? 0 then
             b ← overrode_syscalls;
             ret ← (if b : bool then ret ← sc_call sc (SYS_chroot root); fix_errno ret
                    else libc_syscall (SYS_chroot root));
             if ret =? 0 then chdir "/" else mret ret
           else mret ret);
    olderrno ← get_errno;
    drop_working sc working;;
    set_errno olderrno;;
    mret ret.

(** [attr->custom_setup_fn(detail)] *)
Definition call_setup (fn detail : Z) : M K Z := fun w =>
  let '(r, e, k) := user_setup fn detail (kst w) in (Ok r, with_errno e (with_kst k w)).

(** A started program does not return; a refused one does. *)
Definition execve (path : string) (argv envp : option (list string)) : M K unit := fun w =>
  let '(r, k) := sys_execve (kst w) path argv envp in
  if r <? 0 then (Ok tt, with_errno (- r) (with_kst k w))
  else (Halt (Execed path argv envp), with_kst k w).

Definition close (fd : Z) : M K unit := modify (fun w => with_kst (sys_close_fd (kst w) fd) w).

Fixpoint write_errno (fuel : nat) (fd my_errno : Z) : M K unit :=
  match fuel with
  | O => spin
  | S fuel =>
      n ← (fun w => let '(r, k) := sys_write (kst w) fd my_errno in libc_ret r (with_kst k w));
      e ← get_errno;
      if (n <? 0) && (e =? EAGAIN) then write_errno fuel fd my_errno else mret tt
  end.

(** The label [defer] of _cap_launch(). *)
Definition launch_defer {A} (fd : Z) : M K A :=
  my_errno ← get_errno;
  write_errno retry_fuel fd my_errno;;
  close fd;;
  halt (Exited 1).

(** The steps of _cap_launch() between the callback and execve(), in order;
    [true] when one of them failed. *)
Definition launch_steps (l : cap_launch_s) : M K bool :=
  let sc := singlethread in
  r ← (if l_change_uids l then cap_setuid_sc sc (l_uid l) else mret 0);
  if negb (r =? 0) then mret true else
  r ← (if l_change_gids l then cap_setgroups_sc sc (l_gid l) (l_ngroups l) (l_groups l) else mret 0);
  if negb (r =? 0) then mret true else
  r ← (if l_change_mode l then cap_set_mode_sc sc (l_mode l) else mret 0);
  if negb (r =? 0) then mret true else
  r ← (if negb (l_iab l =? 0) then cap_iab_set_proc_sc sc (l_iab l) else mret 0);
  if negb (r =? 0) then mret true else
  r ← (if negb (l_chroot l =? 0) then root ← load_str (l_chroot l); cap_chroot_sc sc root else mret 0);
  mret (negb (r =? 0)).

Definition cap_launch_child {A} (fd attr detail : Z) : M K A :=
  l ← load_launch attr;
  r ← (if negb (l_custom_setup_fn l =? 0) then call_setup (l_custom_setup_fn l) detail else mret 0);
  if negb (r =? 0) then launch_defer fd else
  match l_arg0 l with
  | None => halt (Exited 0)
  | Some arg0 =>
      failed ← launch_steps l;
      if failed : bool then launch_defer fd
      else
        execve arg0 (l_argv l) (l_envp l);;
        launch_defer fd
  end.

(** *** The parent *)

(** fork(2): [child] runs on a copy of the memory. The parent's result, and how
    the child ended when there was one. Undefined behaviour of the child is
    that of the program. *)
Definition fork (child : M K Empty_set) : M K (Z * option ending) := fun w =>
  let '(r, kp, kc) := sys_fork (kst w) in
  if r <? 0 then (Ok (-1, None), with_errno (- r) (with_kst kp w))
  else
    match child (with_kst kc w) with
    | (Halt e, wc) => (Ok (r, Some e), with_kst (child_gone kp (kst wc)) w)
    | (Ok a, _) => match a with end
    | (Spin, _) => (Spin, w)
    | (Fault, _) => (Fault, w)
    end.

(** The reading loop: the new value of [child], and of [my_errno]. *)
Fixpoint read_result (fuel : nat) (fd child my_errno : Z) : M K (Z * Z) :=
  match fuel with
  | O => spin
  | S fuel =>
      '(n, v) ← (fun w => let '(r, v, k) := sys_read (kst w) fd in
                   (r ← libc_ret r; mret (r, v)) (with_kst k w));
      e ← get_errno;
      if n =? 0 then mret (child, my_errno)
      else if (n <? 0) && (e =? EAGAIN) then read_result fuel fd child my_errno
      else
        modify (fun w => with_kst (sys_waitpid (kst w) child) w);;
        mret (-1, ECHILD)
  end.

(** The result, and how the child ended. *)
Definition cap_launch (attr detail : Z) : M K (Z * option ending) :=
  good ← good_cap_launch_t attr;
  if negb good then set_errno EINVAL;; mret (-1, None)
  else
    mu_lock attr;;
    l ← load_launch attr;
    if (l_custom_setup_fn l =? 0)
       && (bool_decide (l_arg0 l = None) || bool_decide (l_argv l = None))
    then set_errno EINVAL;; mu_unlock_return attr (-1, None)
    else
      '(r, (ps0, ps1)) ← (fun w => let '(r, ps, k) := sys_pipe2 (kst w) in
                            (r ← libc_ret r; mret (r, ps)) (with_kst k w));
      if negb (r =? 0) then mu_unlock_return attr (-1, None)
      else
        '(child, ended) ← fork
          (close ps0;;
           modify (fun w => with_kst (sys_set_name (kst w) "cap-launcher") w);;
           cap_launch_child ps1 attr detail);
        my_errno ← get_errno;
        mu_unlock attr;;
        close ps1;;
        '(child, my_errno) ←
          (if child <? 0 then mret (child, my_errno)
           else read_result retry_fuel ps0 child my_errno);
        close ps0;;
        set_errno my_errno;;
        mret (child, ended).

End launch.
