(* ===== verification/ProcSpec.v ===== *)
(** What the operations of Proc.v ask of the kernel and leave behind: the
    requests they issue, in their order, for every kernel; the working copy they
    make and release; and what follows for users, groups, modes and tuples. *)

From S2P Require Import Prelude Capability World Exec Syscall Alloc Flag FlagSpec IabSpec Proc.
From stdpp Require Import gmap strings list sets.
From Stdlib Require Import ZArith Lia.

Open Scope Z_scope.

(** ** Requests *)

Section requests.
Context {K : Type} `{!Kernel K}.
Implicit Types (k : K) (w : world K) (sc : syscaller_ref).

(** One request takes the kernel from [k] to [k'], through syscall(2) or through
    a client's function. A kernel that logs its requests makes the lists below
    exactly its log. *)
Definition request (req : sysreq) (k k' : K) : Prop :=
  k' = (sys_call k req).2 \/ exists fn, k' = (user_syscall fn k req).2.

Inductive issues : list sysreq -> K -> K -> Prop :=
| issues_nil k : issues [] k k
| issues_cons req reqs k1 k2 k3 :
    request req k1 k2 -> issues reqs k2 k3 -> issues (req :: reqs) k1 k3.

Lemma issues_app l1 l2 k1 k2 k3 : issues l1 k1 k2 -> issues l2 k2 k3 -> issues (l1 ++ l2) k1 k3.
Proof. induction 1; [done|]. intros. simpl. econstructor; eauto. Qed.

Lemma issues_one req k k' : request req k k' -> issues [req] k k'.
Proof. intros. econstructor; [done|constructor]. Qed.

(** What a call that only talks to the kernel does to the world. *)
Definition talks {A} (m : M K A) (P : A -> list sysreq -> Prop) : Prop :=
  forall w, exists a e k reqs, m w = (Ok a, with_errno e (with_kst k w)) /\
    P a reqs /\ issues reqs (kst w) k.

Lemma libc_syscall_talks req : talks (libc_syscall req) (fun r l => l = [req] /\ -1 <= r).
Proof.
  intros w. destruct (sys_call (kst w) req) as [r k] eqn:E. rewrite (libc_syscall_run _ _ _ _ E).
  assert (issues [req] (kst w) k) as Hi by (apply issues_one; left; by rewrite E).
  destruct (Z.ltb_spec r 0).
  - exists (-1), (- r), k, [req]. split; [done|]. split; [done|done].
  - exists r, (errno w), k, [req]. split; [by destruct w|]. split; [split; [done|lia]|done].
Qed.

Lemma sc_call_talks sc req : talks (sc_call sc req) (fun r l => l = [req]).
Proof.
  intros w. unfold sc_call. rewrite (bind_ok _ _ _ _ _ (gets_run _ _)).
  destruct (deref_sc sc (glob w)).
  - destruct (libc_syscall_talks req w) as (r & e & k & l & H & [-> _] & Hi). by exists r, e, k, [req].
  - destruct (libc_syscall_talks req w) as (r & e & k & l & H & [-> _] & Hi). by exists r, e, k, [req].
  - destruct (user_syscall fn (kst w) req) as [[r e] k] eqn:E. exists r, e, k, [req].
    split; [done|]. split; [done|]. apply issues_one. right. exists fn. by rewrite E.
Qed.

Lemma talks_bind {A B} (m : M K A) (f : A -> M K B) P Q :
  talks m P -> (forall a l, P a l -> talks (f a) (fun b l' => Q b (l ++ l'))) -> talks (m ≫= f) Q.
Proof.
  intros Hm Hf w. destruct (Hm w) as (a & e & k & l & H & HP & Hi).
  destruct (Hf a l HP (with_errno e (with_kst k w))) as (b & e' & k' & l' & H' & HQ & Hi').
  exists b, e', k', (l ++ l'). rewrite (bind_ok _ _ _ _ _ H). split; [done|]. split; [done|].
  by eapply issues_app.
Qed.

Lemma talks_ret {A} (a : A) (P : A -> list sysreq -> Prop) : P a [] -> talks (mret a) P.
Proof.
  intros HP w. exists a, (errno w), (kst w), []. split; [by destruct w|]. split; [done|constructor].
Qed.

Lemma talks_errno {A} e (m : M K A) P : talks m P -> talks (set_errno e;; m) P.
Proof.
  intros Hm w. rewrite (bind_ok _ _ _ _ _ (set_errno_run _ _)).
  destruct (Hm (with_errno e w)) as (a & e' & k & l & H & HP & Hi). by exists a, e', k, l.
Qed.

Lemma talks_gets {A B} (f : world K -> A) (m : A -> M K B) P :
  (forall a, talks (m a) P) -> talks (gets f ≫= m) P.
Proof. intros Hm w. rewrite (bind_ok _ _ _ _ _ (gets_run _ _)). apply Hm. Qed.

Lemma talks_mono {A} (m : M K A) (P Q : A -> list sysreq -> Prop) :
  talks m P -> (forall a l, P a l -> Q a l) -> talks m Q.
Proof. intros Hm HPQ w. destruct (Hm w) as (a & e & k & l & ? & ? & ?). exists a, e, k, l. eauto. Qed.

Lemma fix_errno_talks r : talks (fix_errno r) (fun r' l => l = [] /\ (r = 0 <-> r' = 0)).
Proof.
  unfold fix_errno. destruct (Z.ltb_spec r 0).
  - apply talks_errno, talks_ret. split; [done|lia].
  - by apply talks_ret.
Qed.

Lemma libcap_capset_talks sc v pid d :
  talks (libcap_capset sc v pid d) (fun r l => l = [SYS_capset v pid d]).
Proof.
  unfold libcap_capset, overrode_syscalls. apply talks_gets. intros []; [apply sc_call_talks|].
  eapply talks_mono; [apply libc_syscall_talks|]. by intros ?? [].
Qed.

Lemma libcap_wprctl6_talks sc cmd a1 a2 a3 a4 a5 :
  talks (libcap_wprctl6 sc cmd a1 a2 a3 a4 a5)
    (fun r l => l = [SYS_prctl cmd a1 a2 a3 a4 a5] /\ -1 <= r).
Proof.
  unfold libcap_wprctl6, overrode_syscalls. apply talks_gets. intros [].
  - eapply talks_bind; [apply sc_call_talks|]. intros r l ->. unfold wprctl_result.
    destruct (Z.leb_spec 0 r); [apply talks_ret; split; [done|lia]|].
    apply talks_errno, talks_ret. split; [done|lia].
  - eapply talks_mono; [apply libc_syscall_talks|]. done.
Qed.

Lemma libcap_wprctl3_talks sc cmd a1 a2 :
  talks (libcap_wprctl3 sc cmd a1 a2) (fun r l => l = [SYS_prctl cmd a1 a2 0 0 0] /\ -1 <= r).
Proof. rewrite libcap_wprctl3_6. apply libcap_wprctl6_talks. Qed.

(** ** The working copy *)

(** capget(2) on the calling process, documented to succeed with the two
    blocks of its sets when the header says version 3. *)
Definition capget_self k (d : list capblk) : Prop :=
  sys_capget k LINUX_CAPABILITY_VERSION_3 0 true = mkCapget 0 LINUX_CAPABILITY_VERSION_3 d /\
  length d = 2%nat /\ Forall blk_wf d.

(** The set of the process, as cap_get_proc() returns it. *)
Definition proc_cap (d : list capblk) : cap_struct := mkCap false LINUX_CAPABILITY_VERSION_3 0 d 0.

(** [w] with the object [c] at its next address, errno [e] and kernel [k]: the
    worlds between making a working copy and releasing it. *)
Definition holding (c : cap_struct) (e : Z) (k : K) w : world K :=
  mkWorld (<[next w := OCap c]> (heap w)) (next w + 16) (tl (mem w)) e (glob w) k (out w).

Lemma cap_get_proc_run d w :
  next w <> 0 -> mem_ok w -> capget_probe_ok (kst w) -> capget_self (kst w) d ->
  cap_get_proc w = (Ok (next w), holding (proc_cap d) (errno w) (kst w) w).
Proof.
  intros Hn Hm Hk (Hd & Hlen & _). unfold cap_get_proc.
  rewrite (bind_ok _ _ _ _ _ (cap_init_run _ Hn Hm Hk)).
  destruct (Z.eqb_spec (next w) 0); [done|]. cbn [negb]. unfold capget. run. wsimpl.
  cbn [c_version c_pid cap_blank]. rewrite Hd. run.
  unfold holding, placed. cbn [cg_ret cg_version cg_data c_mutex c_pid c_u c_rootid cap_blank].
  rewrite insert_insert_eq. unfold write_blks. rewrite Hlen. cbn [drop]. rewrite app_nil_r. done.
Qed.

Lemma holding_lookup c e k w : heap (holding c e k w) !! next w = Some (OCap c).
Proof. apply lookup_insert_eq. Qed.

Lemma holding_placed c w : holding c (errno w) (kst w) w = placed (OCap c) w.
Proof. done. Qed.

Lemma holding_wf c e k w : world_wf w -> cap_wf c -> world_wf (holding c e k w).
Proof. intros Hw Hc. exact (world_wf_placed (OCap c) (with_errno e (with_kst k w)) ltac:(by destruct Hw) Hc). Qed.

Lemma holding_ne c e k w p o : world_wf w -> heap w !! p = Some o -> heap (holding c e k w) !! p = Some o.
Proof. intros Hw Hp. cbn [heap holding]. rewrite lookup_insert_ne; [done|]. intros <-. by eapply wf_ne_next. Qed.

Lemma holding_update c c' e k w :
  with_heap (<[next w := OCap c']> (heap (holding c e k w))) (holding c e k w) = holding c' e k w.
Proof. unfold holding, with_heap. cbn. by rewrite insert_insert_eq. Qed.

Lemma holding_set_flag c e k w s v :
  next w <> 0 -> c_mutex c = false -> u_wf (c_u c) -> valid_set s -> valid_cap v ->
  cap_set_flag (next w) s 1 [v] CAP_SET (holding c e k w) =
    (Ok 0, holding (with_u (fun _ => raise_cap v s (c_u c)) c) e k w).
Proof.
  intros Hn Hc Hu Hs Hv.
  rewrite (cap_set_flag_run (next w) c) by
    (try done; try apply holding_lookup; try (by left); change CAP_MAXBITS with 64; simpl; lia).
  rewrite holding_update. do 4 f_equal. unfold set_flag_u. simpl.
  apply out_of_range_false in Hv. by rewrite Hv.
Qed.

Lemma holding_clear_flag c e k w s :
  next w <> 0 -> c_mutex c = false -> valid_set s ->
  cap_clear_flag (next w) s (holding c e k w) =
    (Ok 0, holding (with_u (fun _ => fill_words s (fun _ => 0) (c_u c)) c) e k w).
Proof.
  intros Hn Hc Hs. rewrite (cap_clear_flag_run (next w) c) by (done || apply holding_lookup).
  by rewrite holding_update.
Qed.

Lemma holding_set_proc sc c e k w :
  next w <> 0 -> c_mutex c = false ->
  exists r e' k', cap_set_proc_sc sc (next w) (holding c e k w) = (Ok r, holding c e' k' w) /\
    issues [SYS_capset (c_version c) (c_pid c) (c_u c)] k k'.
Proof.
  intros Hn Hc. unfold cap_set_proc_sc.
  pose proof (holding_lookup c e k w) as Hl. run.
  rewrite (magic_at_some _ _ _ Hn Hl). change (obj_magic (OCap c) =? CAP_T_MAGIC) with true.
  cbn [negb]. run. cbn [c_version c_pid c_u cap_with_mutex].
  set (w1 := with_heap _ (holding c e k w)).
  destruct (libcap_capset_talks sc (c_version c) (c_pid c) (c_u c) w1) as (r & e' & k' & l & H & -> & Hi).
  rewrite (bind_ok _ _ _ _ _ H). subst w1. run. exists r, e', k'.
  rewrite ret_run. split; [|done]. f_equal. unfold holding. world_eq.
Qed.

Lemma holding_talks {A} (m : M K A) P c e k w :
  talks m P -> exists a e' k' l, m (holding c e k w) = (Ok a, holding c e' k' w) /\ P a l /\ issues l k k'.
Proof.
  intros Hm. destruct (Hm (holding c e k w)) as (a & e' & k' & l & H & HP & Hi).
  by exists a, e', k', l.
Qed.

(** The kernel and errno moved, and one allocation was made and undone. *)
Definition done_with (e : Z) (k : K) w : world K := with_errno e (with_kst k (spent w)).

Lemma holding_free c e k w :
  world_wf w -> c_mutex c = false -> cap_free (next w) (holding c e k w) = (Ok 0, done_with e k w).
Proof.
  intros Hw Hc. pose proof (wf_fresh _ Hw) as Hf.
  rewrite (cap_free_copy (next w) (OCap c));
    [|by apply wf_next_ne_0|by apply (wf_next _ Hw)|apply holding_lookup|by simpl; rewrite Hc].
  f_equal. unfold holding, done_with. world_eq.
Qed.

Lemma drop_working_run sc c e k w :
  world_wf w -> c_mutex c = false ->
  exists e' k', drop_working sc (next w) (holding c e k w) = (Ok tt, done_with e' k' w) /\
    issues [SYS_capset (c_version c) (c_pid c) (fill_words CAP_EFFECTIVE (fun _ => 0) (c_u c))] k k'.
Proof.
  intros Hw Hc. pose proof (wf_next_ne_0 _ Hw) as Hn. unfold drop_working.
  rewrite (bind_ok _ _ _ _ _ (holding_clear_flag _ _ _ _ CAP_EFFECTIVE Hn Hc ltac:(done))).
  set (c' := with_u _ c).
  destruct (holding_set_proc sc c' e k w Hn Hc) as (r & e' & k' & H & Hi).
  rewrite (bind_ok _ _ _ _ _ H).
  rewrite (bind_ok _ _ _ _ _ (holding_free c' e' k' w Hw Hc)). by exists e', k'.
Qed.

(** The request that makes a set of the kernel's data the process's. *)
Definition req_set (d : list capblk) : sysreq := SYS_capset LINUX_CAPABILITY_VERSION_3 0 d.
Definition no_effective (d : list capblk) : list capblk := fill_words CAP_EFFECTIVE (fun _ => 0) d.
Definition req_prctl3 (cmd a1 a2 : Z) : sysreq := SYS_prctl cmd a1 a2 0 0 0.


(** cap_setgroups(), likewise: its own set with CAP_SETGID effective, then
    the gid and, when that is set, the supplementary groups, and finally the
    set with nothing effective. The groups are never changed without the gid. *)
Theorem cap_setgroups_requests sc gid n groups d w :
  world_wf w -> mem_ok w -> capget_probe_ok (kst w) -> capget_self (kst w) d ->
  exists r e k (g1 g2 : bool), cap_setgroups_sc sc gid n groups w = (Ok r, done_with e k w) /\
    issues ([req_set (raise_cap CAP_SETGID CAP_EFFECTIVE d)]
      ++ (if g1 then [SYS_setgid gid] else []) ++ (if g2 then [SYS_setgroups n groups] else [])
      ++ [req_set (no_effective (raise_cap CAP_SETGID CAP_EFFECTIVE d))]) (kst w) k /\
    (g2 = true -> g1 = true) /\ (r = 0 -> g1 = true /\ g2 = true).
Proof.
  intros Hw Hm Hk Hd. pose proof (wf_next_ne_0 _ Hw) as Hn.
  assert (u_wf d) as Hu by (destruct Hd as (_ & ? & ?); by split).
  unfold cap_setgroups_sc. rewrite (bind_ok _ _ _ _ _ (cap_get_proc_run _ _ Hn Hm Hk Hd)).
  destruct (Z.eqb_spec (next w) 0); [done|].
  rewrite (bind_ok _ _ _ _ _ (holding_set_flag (proc_cap d) _ _ _ CAP_EFFECTIVE CAP_SETGID
    Hn eq_refl Hu ltac:(done) ltac:(done))).
  set (c := with_u _ _). assert (c_mutex c = false) as Hc by done.
  destruct (holding_set_proc sc c (errno w) (kst w) w Hn Hc) as (r2 & e2 & k2 & H2 & Hi2).
  rewrite (bind_ok _ _ _ _ _ H2). unfold overrode_syscalls.
  rewrite (bind_ok _ _ _ _ _ (gets_run _ _)). set (b := g_overrode_syscalls _).
  set (P := fun (r : Z) (l : list sysreq) => exists g1 g2 : bool,
    l = (if g1 then [SYS_setgid gid] else []) ++ (if g2 then [SYS_setgroups n groups] else []) /\
    (g2 = true -> g1 = true) /\ (r = 0 -> g1 = true /\ g2 = true)).
  assert (forall (one two : M K Z), talks one (fun r l => l = [SYS_setgid gid]) ->
    talks two (fun r l => l = [SYS_setgroups n groups]) ->
    talks (ret ← (if r2 =? 0 then one else mret r2); if ret =? 0 then two else mret ret) P) as Hseq.
  { intros one two H1 H2'. eapply (talks_bind _ _ (fun r l => r2 = 0 /\ l = [SYS_setgid gid] \/ r2 <> 0 /\ r = r2 /\ l = [])).
    - destruct (Z.eqb_spec r2 0); [eapply talks_mono; [exact H1|]; simpl; auto|].
      apply talks_ret. auto.
    - intros r l [[-> ->]|(Hr2 & -> & ->)].
      + destruct (Z.eqb_spec r 0) as [->|Hr].
        * eapply talks_mono; [exact H2'|]. intros r' l ->. by exists true, true.
        * apply talks_ret. exists true, false. split; [done|]. split; [done|]. congruence.
      + apply Z.eqb_neq in Hr2 as E. rewrite E. apply talks_ret. exists false, false.
        split; [done|]. split; [done|]. congruence. }
  assert (talks (if b then
             ret ← (if r2 =? 0 then sc_call sc (SYS_setgid gid) else mret r2);
             ret ← (if ret =? 0 then sc_call sc (SYS_setgroups n groups) else mret ret);
             fix_errno ret
           else
             ret ← (if r2 =? 0 then libc_syscall (SYS_setgid gid) else mret r2);
             if ret =? 0 then libc_syscall (SYS_setgroups n groups) else mret ret : M K Z) P) as Ht.
  { destruct b.
    - intros w'. rewrite <-bind_bind. revert w'.
      eapply (talks_bind _ _ P); [apply Hseq; apply sc_call_talks|].
      intros r l (g1 & g2 & -> & Hg & Hr). eapply talks_mono; [apply fix_errno_talks|].
      intros r' l' [-> Hr']. exists g1, g2. rewrite app_nil_r. intuition.
    - apply Hseq; (eapply talks_mono; [apply libc_syscall_talks|]; by intros ?? []). }
  destruct (holding_talks _ _ c e2 k2 w Ht) as (r3 & e3 & k3 & l3 & H3 & (g1 & g2 & -> & Hg & Hr) & Hi3).
  rewrite (bind_ok _ _ _ _ _ H3). unfold get_errno. run.
  destruct (drop_working_run sc c (errno (holding c e3 k3 w)) k3 w Hw Hc) as (e5 & k5 & H5 & Hi5).
  change (holding c (errno (holding c e3 k3 w)) k3 w) with (holding c e3 k3 w) in H5.
  rewrite (bind_ok _ _ _ _ _ H5). run. rewrite ret_run.
  exists r3, (errno (holding c e3 k3 w)), k5, g1, g2. split; [done|]. split; [|done].
  eapply issues_app; [exact Hi2|]. rewrite app_assoc. eapply issues_app; [exact Hi3|exact Hi5].
Qed.

End requests.
