(* ===== verification/KernelLaws.v ===== *)
(** The documented behaviour of the kernel that the functional theorems on
    cap_proc.c rely on - capget(2), capset(2), prctl(2), capabilities(7) - as an
    interface: a view of the process's credentials as sets of capabilities, and
    what each request answers and does to it. Proofs about libcap use only these
    laws; RefKernel.v has an executable kernel that satisfies them. *)

From S2P Require Import Prelude Capability World Exec Syscall Alloc Flag FlagSpec IabSpec Proc ProcSpec.
From stdpp Require Import gmap strings list sets.
From Stdlib Require Import ZArith Lia.

Open Scope Z_scope.

(** The credentials of a process, as far as libcap changes them. *)
Record creds := mkCreds {
  cr_eff : gset Z;
  cr_perm : gset Z;
  cr_inh : gset Z;
  cr_bound : gset Z;
  cr_amb : gset Z;
  cr_secbits : Z
}.

Definition cr_set (c : creds) (s : Z) : gset Z :=
  if s =? CAP_EFFECTIVE then cr_eff c else if s =? CAP_PERMITTED then cr_perm c else cr_inh c.

(** capset(2): permitted capabilities cannot be added, only permitted ones can
    be effective, and inheritable ones come from the old permitted ones - from
    anywhere with CAP_SETPCAP - and from the bounding set. *)
Definition capset_allowed (c : creds) (d : list capblk) : Prop :=
  u_wf d /\
  caps_of d CAP_PERMITTED ⊆ cr_perm c /\
  caps_of d CAP_EFFECTIVE ⊆ caps_of d CAP_PERMITTED /\
  (CAP_SETPCAP ∈ cr_eff c \/ caps_of d CAP_INHERITABLE ⊆ cr_inh c ∪ cr_perm c) /\
  caps_of d CAP_INHERITABLE ⊆ cr_inh c ∪ cr_bound c.

(** Ambient capabilities stay permitted and inheritable. *)
Definition after_capset (c : creds) (d : list capblk) : creds :=
  mkCreds (caps_of d CAP_EFFECTIVE) (caps_of d CAP_PERMITTED) (caps_of d CAP_INHERITABLE)
    (cr_bound c) (cr_amb c ∩ (caps_of d CAP_PERMITTED ∩ caps_of d CAP_INHERITABLE)) (cr_secbits c).

Definition with_bound b (c : creds) : creds :=
  mkCreds (cr_eff c) (cr_perm c) (cr_inh c) b (cr_amb c) (cr_secbits c).
Definition with_amb a (c : creds) : creds :=
  mkCreds (cr_eff c) (cr_perm c) (cr_inh c) (cr_bound c) a (cr_secbits c).
Definition with_secbits s (c : creds) : creds :=
  mkCreds (cr_eff c) (cr_perm c) (cr_inh c) (cr_bound c) (cr_amb c) s.

Lemma with_amb_id a c : cr_amb c = a -> with_amb a c = c.
Proof. intros <-. by destruct c. Qed.
Lemma with_bound_id b c : cr_bound c = b -> with_bound b c = c.
Proof. intros <-. by destruct c. Qed.

(** The lock bits of the securebits, and the bits each of them freezes. *)
Definition secbits_locked (s : Z) : Z := Z.lor (Z.land s 0xAA) (Z.shiftr (Z.land s 0xAA) 1).

Class KernelLaws (K : Type) {Ker : Kernel K} := {
  creds_of : K -> creds;
  last_cap : Z;
  law_last : 0 <= last_cap < CAP_MAXBITS /\ CAP_SETPCAP <= last_cap;
  (** the sets hold capabilities that exist, and obey capabilities(7) *)
  law_valid : forall k, (forall s, cr_set (creds_of k) s ⊆ list_to_set (seqZ 0 (last_cap + 1))) /\
    cr_bound (creds_of k) ⊆ list_to_set (seqZ 0 (last_cap + 1)) /\
    cr_eff (creds_of k) ⊆ cr_perm (creds_of k) /\
    cr_amb (creds_of k) ⊆ cr_perm (creds_of k) ∩ cr_inh (creds_of k) /\
    0 <= cr_secbits (creds_of k) < 256;
  law_probe : forall k, capget_probe_ok k;
  law_capget : forall k, exists d, capget_self k d /\
    forall s, valid_set s -> caps_of d s = cr_set (creds_of k) s;
  law_bound_read : forall k c, 0 <= c -> sys_call k (SYS_prctl PR_CAPBSET_READ c 0 0 0 0) =
    (if c <=? last_cap then (if decide (c ∈ cr_bound (creds_of k)) then 1 else 0) else - EINVAL, k);
  law_amb_read : forall k c, 0 <= c ->
    sys_call k (SYS_prctl PR_CAP_AMBIENT PR_CAP_AMBIENT_IS_SET c 0 0 0) =
    (if c <=? last_cap then (if decide (c ∈ cr_amb (creds_of k)) then 1 else 0) else - EINVAL, k);
  law_secbits_read : forall k, sys_call k (SYS_prctl PR_GET_SECUREBITS 0 0 0 0 0) =
    (cr_secbits (creds_of k), k);
  law_capset : forall k d, capset_allowed (creds_of k) d ->
    exists k', sys_call k (req_set d) = (0, k') /\ creds_of k' = after_capset (creds_of k) d;
  law_capset_refused : forall k d, u_wf d -> ~ capset_allowed (creds_of k) d ->
    sys_call k (req_set d) = (- EPERM, k);
  law_secbits_set : forall k s, CAP_SETPCAP ∈ cr_eff (creds_of k) -> 0 <= s < 256 ->
    Z.land (secbits_locked (cr_secbits (creds_of k))) (Z.lxor s (cr_secbits (creds_of k))) = 0 ->
    exists k', sys_call k (SYS_prctl PR_SET_SECUREBITS s 0 0 0 0) = (0, k') /\
      creds_of k' = with_secbits s (creds_of k);
  law_bound_drop : forall k c, CAP_SETPCAP ∈ cr_eff (creds_of k) -> 0 <= c <= last_cap ->
    exists k', sys_call k (SYS_prctl PR_CAPBSET_DROP c 0 0 0 0) = (0, k') /\
      creds_of k' = with_bound (cr_bound (creds_of k) ∖ {[c]}) (creds_of k);
  law_amb_clear : forall k,
    exists k', sys_call k (SYS_prctl PR_CAP_AMBIENT PR_CAP_AMBIENT_CLEAR_ALL 0 0 0 0) = (0, k') /\
      creds_of k' = with_amb ∅ (creds_of k);
  law_amb_raise : forall k c, c ∈ cr_perm (creds_of k) -> c ∈ cr_inh (creds_of k) ->
    Z.land (cr_secbits (creds_of k)) SECBIT_NO_CAP_AMBIENT_RAISE = 0 ->
    exists k', sys_call k (SYS_prctl PR_CAP_AMBIENT PR_CAP_AMBIENT_RAISE c 0 0 0) = (0, k') /\
      creds_of k' = with_amb ({[c]} ∪ cr_amb (creds_of k)) (creds_of k);
  law_no_new_privs : forall k,
    exists k', sys_call k (SYS_prctl PR_SET_NO_NEW_PRIVS 1 0 0 0 0) = (0, k') /\
      creds_of k' = creds_of k
}.
