(* ===== verification/ModeSpec.v ===== *)
(** cap_set_mode() and cap_get_mode() on a kernel with the documented
    behaviour: setting a mode succeeds for a process permitted CAP_SETPCAP, and
    the mode it then reads is the one it set. *)

From S2P Require Import Prelude Capability World Exec Syscall Alloc Flag FlagSpec IabSpec Proc ProcSpec KernelLaws.
From stdpp Require Import gmap strings list sets.
From Stdlib Require Import ZArith Lia.

Open Scope Z_scope.

Section laws.
Context {K : Type} `{!Kernel K, !KernelLaws K}.
Implicit Types (k : K) (w : world K) (sc : syscaller_ref).

(** Calls are not redirected to a client's function. *)
Definition direct sc w : Prop :=
  g_overrode_syscalls (glob w) = true -> forall fn, deref_sc sc (glob w) <> SC_user fn.

Lemma pr_arg_id x : 0 <= x < 256 -> pr_arg x = x.
Proof. intros H. apply Z.mod_small. lia. Qed.

Lemma last_cap_63 : 0 <= last_cap < 64.
Proof. destruct law_last as [H _]. by change CAP_MAXBITS with 64 in H. Qed.

(** *** Single requests *)

Lemma bound_read_run c w :
  0 <= c < 256 ->
  exists e, cap_get_bound c w =
    (Ok (if c <=? last_cap then (if decide (c ∈ cr_bound (creds_of (kst w))) then 1 else 0) else -1),
     with_errno e w) /\ (c <= last_cap -> e = errno w).
Proof.
  intros Hc. unfold cap_get_bound, prctl. rewrite pr_arg_id by lia. change (pr_arg 0) with 0.
  pose proof (law_bound_read (kst w) c ltac:(lia)) as H.
  destruct (Z.leb_spec c last_cap).
  - exists (errno w). rewrite (libc_syscall_ok _ _ _ _ H) by (case_decide; lia).
    split; [by destruct w|done].
  - exists EINVAL. rewrite (libc_syscall_err _ _ _ _ H) by done. split; [by destruct w|lia].
Qed.

Lemma amb_read_run c w :
  0 <= c < 256 ->
  exists e, cap_get_ambient c w =
    (Ok (if c <=? last_cap then (if decide (c ∈ cr_amb (creds_of (kst w))) then 1 else 0) else -1),
     with_errno e w) /\ (c <= last_cap -> e = errno w).
Proof.
  intros Hc. unfold cap_get_ambient, prctl. rewrite (pr_arg_id c) by lia.
  change (pr_arg 0) with 0. change (pr_arg PR_CAP_AMBIENT_IS_SET) with PR_CAP_AMBIENT_IS_SET.
  pose proof (law_amb_read (kst w) c ltac:(lia)) as H.
  destruct (Z.leb_spec c last_cap).
  - exists (errno w). rewrite (bind_ok _ _ _ _ _ (libc_syscall_ok _ _ _ _ H ltac:(case_decide; lia))).
    assert (with_kst (kst w) w = with_errno (errno w) w) as -> by by destruct w.
    by case_decide.
  - eexists. rewrite (bind_ok _ _ _ _ _ (libc_syscall_err _ _ _ _ H ltac:(done))). cbn [Z.ltb Z.compare].
    run. rewrite ret_run. split; [by destruct w|lia].
Qed.

Lemma direct_prctl6 sc cmd a1 a2 a3 a4 a5 w k' :
  direct sc w -> sys_call (kst w) (SYS_prctl cmd a1 a2 a3 a4 a5) = (0, k') ->
  libcap_wprctl6 sc cmd a1 a2 a3 a4 a5 w = (Ok 0, with_kst k' w).
Proof. intros Hd H. by rewrite (libcap_wprctl6_run _ _ _ _ _ _ _ _ _ _ Hd H). Qed.

Lemma direct_capset sc v pid d w k' :
  direct sc w -> sys_call (kst w) (SYS_capset v pid d) = (0, k') ->
  libcap_capset sc v pid d w = (Ok 0, with_kst k' w).
Proof.
  intros Hd H. unfold libcap_capset, overrode_syscalls. rewrite (bind_ok _ _ _ _ _ (gets_run _ _)).
  destruct (g_overrode_syscalls (glob w)) eqn:Ho.
  - rewrite sc_call_run by (by apply Hd). by apply libc_syscall_ok.
  - by apply libc_syscall_ok.
Qed.

(** *** The loops that probe the kernel *)

Lemma reset_ambient_loop_run fuel olderrno c w :
  0 <= c <= last_cap + 1 -> (Z.to_nat (last_cap + 1 - c) < fuel)%nat ->
  exists r e, reset_ambient_loop fuel olderrno c w = (Ok r, with_errno e w) /\
    (r = Some 0 /\ (forall x, c <= x <= last_cap -> x ∉ cr_amb (creds_of (kst w))) \/ r = None).
Proof.
  pose proof last_cap_63 as Hlast.
  revert c w. induction fuel as [|fuel IH]; intros c w Hc Hf; [lia|]. cbn [reset_ambient_loop].
  destruct (amb_read_run c w) as (e & H & He); [lia|]. rewrite (bind_ok _ _ _ _ _ H).
  destruct (Z.leb_spec c last_cap).
  - destruct (decide (c ∈ cr_amb (creds_of (kst w)))) as [Hin|Hin]; cbn [Z.eqb].
    + eexists None, e. split; [done|]. by right.
    + destruct (IH (c + 1) (with_errno e w)) as (r & e' & H' & Hr); [lia..|].
      exists r, e'. rewrite H'. split; [done|]. destruct Hr as [[-> Hx]|Hr]; [left|by right].
      split; [done|]. intros x Hx'. destruct (decide (x = c)) as [->|]; [done|]. apply Hx. lia.
  - cbn [Z.eqb Pos.eqb]. run. eexists (Some 0), olderrno. split; [done|]. left. split; [done|]. lia.
Qed.

Lemma creds_amb_valid k x : x ∈ cr_amb (creds_of k) -> 0 <= x <= last_cap.
Proof.
  destruct (law_valid k) as (Hs & _ & _ & Ha & _). intros [Hp _]%Ha%elem_of_intersection.
  specialize (Hs CAP_PERMITTED). apply Hs in Hp. rewrite elem_of_list_to_set, elem_of_seqZ in Hp. lia.
Qed.

Lemma cap_reset_ambient_run sc w :
  direct sc w ->
  exists e k', cap_reset_ambient_sc sc w = (Ok 0, with_errno e (with_kst k' w)) /\
    creds_of k' = with_amb ∅ (creds_of (kst w)).
Proof.
  intros Hd. pose proof last_cap_63 as Hlast. unfold cap_reset_ambient_sc, get_errno. run.
  destruct (reset_ambient_loop_run probe_fuel (errno w) 0 w) as (r & e & H & Hr);
    [lia|unfold probe_fuel; lia|]. rewrite (bind_ok _ _ _ _ _ H). destruct Hr as [[-> Hx]| ->].
  - exists e, (kst w). split; [by rewrite with_kst_id|]. symmetry. apply with_amb_id.
    apply set_eq. intros x. split; [|by intros ?%not_elem_of_empty]. intros Hin. exfalso.
    pose proof (creds_amb_valid _ _ Hin). eapply Hx; [|exact Hin]. lia.
  - destruct (law_amb_clear (kst w)) as (k' & Hk & Hc). exists e, k'.
    change (pr_arg PR_CAP_AMBIENT_CLEAR_ALL) with PR_CAP_AMBIENT_CLEAR_ALL. change (pr_arg 0) with 0.
    rewrite (direct_prctl6 sc _ _ _ _ _ _ (with_errno e w) k' Hd Hk). done.
Qed.

Lemma drop_bound_loop_run fuel sc c w :
  direct sc w -> CAP_SETPCAP ∈ cr_eff (creds_of (kst w)) ->
  0 <= c <= last_cap + 1 -> (Z.to_nat (last_cap + 1 - c) < fuel)%nat ->
  exists e k', drop_bound_loop fuel sc c w = (Ok tt, with_errno e (with_kst k' w)) /\
    creds_of k' = with_bound (cr_bound (creds_of (kst w)) ∖ list_to_set (seqZ c (last_cap + 1 - c))) (creds_of (kst w)).
Proof.
  pose proof last_cap_63 as Hlast.
  revert c w. induction fuel as [|fuel IH]; intros c w Hd Hp Hc Hf; [lia|]. cbn [drop_bound_loop].
  destruct (bound_read_run c w) as (e & H & He); [lia|]. rewrite (bind_ok _ _ _ _ _ H).
  destruct (Z.leb_spec c last_cap).
  - assert (forall b : bool, (0 <=? (if b then 1 else 0)) = true) as Hb by by intros [].
    assert ((0 <=? (if decide (c ∈ cr_bound (creds_of (kst w))) then 1 else 0)) = true) as -> by by case_decide.
    destruct (law_bound_drop (kst w) c Hp ltac:(lia)) as (k1 & Hk1 & Hc1).
    assert (cap_drop_bound_sc sc c (with_errno e w) = (Ok 0, with_kst k1 (with_errno e w))) as Hdrop.
    { unfold cap_drop_bound_sc. rewrite libcap_wprctl3_6. apply direct_prctl6; [done|].
      rewrite pr_arg_id by lia. exact Hk1. }
    rewrite (bind_ok _ _ _ _ _ Hdrop).
    destruct (IH (c + 1) (with_kst k1 (with_errno e w))) as (e' & k' & H' & Hk'); [done| |lia..|].
    { wsimpl. by rewrite Hc1. }
    exists e', k'. rewrite H'. split; [done|]. rewrite Hk'. wsimpl. rewrite Hc1. unfold with_bound. cbn. f_equal.
    apply set_eq. intros x. rewrite !elem_of_difference, !elem_of_list_to_set, !elem_of_seqZ, elem_of_singleton.
    split; [intros [[? ?] ?]; split; [done|lia]|intros [? ?]; split; [split; [done|lia]|lia]].
  - exists e, (kst w). split; [by rewrite with_kst_id|].
    replace (last_cap + 1 - c) with 0 by lia. symmetry. apply with_bound_id.
    set_solver.
Qed.

(** *** The working copy *)

Lemma live_set_proc_req sc p c w k' :
  p <> 0 -> heap w !! p = Some (OCap c) -> c_mutex c = false ->
  c_version c = LINUX_CAPABILITY_VERSION_3 -> c_pid c = 0 -> direct sc w ->
  sys_call (kst w) (req_set (c_u c)) = (0, k') -> cap_set_proc_sc sc p w = (Ok 0, with_kst k' w).
Proof.
  intros Hn Hl Hc Hv Hpid Hd Hk. unfold cap_set_proc_sc. run.
  rewrite (magic_at_some _ _ _ Hn Hl). change (obj_magic (OCap c) =? CAP_T_MAGIC) with true.
  cbn [negb]. run. cbn [c_version c_pid c_u cap_with_mutex]. rewrite Hv, Hpid.
  erewrite bind_ok; [|apply (direct_capset sc _ _ _ _ k'); [exact Hd|exact Hk]].
  run. rewrite ret_run. f_equal. world_eq.
Qed.

Lemma live_set_proc_ok sc p c w :
  p <> 0 -> heap w !! p = Some (OCap c) -> c_mutex c = false ->
  c_version c = LINUX_CAPABILITY_VERSION_3 -> c_pid c = 0 ->
  direct sc w -> capset_allowed (creds_of (kst w)) (c_u c) ->
  exists k', cap_set_proc_sc sc p w = (Ok 0, with_kst k' w) /\
    creds_of k' = after_capset (creds_of (kst w)) (c_u c).
Proof.
  intros Hn Hl Hc Hv Hpid Hd Hok. destruct (law_capset (kst w) (c_u c) Hok) as (k' & Hk & Hcr).
  exists k'. split; [|done]. by eapply live_set_proc_req.
Qed.

Lemma holding_set_proc_ok sc c e k w :
  next w <> 0 -> c_mutex c = false -> c_version c = LINUX_CAPABILITY_VERSION_3 -> c_pid c = 0 ->
  direct sc w -> capset_allowed (creds_of k) (c_u c) ->
  exists k', cap_set_proc_sc sc (next w) (holding c e k w) = (Ok 0, holding c e k' w) /\
    creds_of k' = after_capset (creds_of k) (c_u c).
Proof.
  intros Hn Hc Hv Hpid Hd Hok.
  by apply (live_set_proc_ok sc (next w) c (holding c e k w) Hn (holding_lookup _ _ _ _)).
Qed.

(** *** Setting a mode *)

Lemma caps_of_raise x s s' u :
  u_wf u -> valid_cap x -> valid_set s -> valid_set s' ->
  caps_of (raise_cap x s u) s' = if s =? s' then caps_of u s' ∪ {[x]} else caps_of u s'.
Proof.
  intros Hu Hx Hs Hs'. apply set_eq. intros y. destruct (decide (valid_cap y)) as [Hy|Hy].
  - rewrite elem_of_caps_of, has_cap_raise by done. destruct (s =? s'); cbn [andb orb];
      rewrite ?elem_of_union, ?elem_of_singleton, elem_of_caps_of; [|tauto].
    destruct (Z.eqb_spec x y); cbn [orb]; intuition congruence.
  - destruct (s =? s'); rewrite ?elem_of_union, ?elem_of_singleton, !elem_of_caps_of; intuition congruence.
Qed.

(** The process's own set, with some flag changed. *)
Lemma caps_of_fill_empty s s' u :
  u_wf u -> valid_set s -> valid_set s' ->
  caps_of (fill_words s (fun _ => 0) u) s' = if s =? s' then ∅ else caps_of u s'.
Proof.
  intros Hu Hs Hs'. destruct (Z.eqb_spec s s') as [->|]; [by apply caps_of_fill_0|].
  by apply caps_of_fill.
Qed.

Lemma u_wf_clear s u : u_wf u -> u_wf (fill_words s (fun _ => 0) u).
Proof. intros. apply u_wf_fill; [done|]. intros; apply is_u32_0. Qed.

(** Securebits that no lock keeps from becoming [s]. *)
Definition secbits_free (c : creds) (s : Z) : Prop :=
  Z.land (secbits_locked (cr_secbits c)) (Z.lxor s (cr_secbits c)) = 0.

Lemma set_secbits_run sc s w :
  direct sc w -> CAP_SETPCAP ∈ cr_eff (creds_of (kst w)) -> 0 <= s < 256 ->
  secbits_free (creds_of (kst w)) s ->
  exists k', cap_set_secbits_sc sc s w = (Ok 0, with_kst k' w) /\
    creds_of k' = with_secbits s (creds_of (kst w)).
Proof.
  intros Hd Hp Hs Hf. destruct (law_secbits_set _ s Hp Hs Hf) as (k' & Hk & Hc).
  exists k'. split; [|done]. unfold cap_set_secbits_sc. rewrite libcap_wprctl3_6.
  by apply direct_prctl6.
Qed.

Lemma ambient_supported w : exists e, CAP_AMBIENT_SUPPORTED w = (Ok true, with_errno e w).
Proof.
  pose proof last_cap_63. destruct (amb_read_run CAP_CHOWN w) as (e & H' & _); [done|].
  exists e. unfold CAP_AMBIENT_SUPPORTED. rewrite (bind_ok _ _ _ _ _ H').
  change CAP_CHOWN with 0. destruct (Z.leb_spec 0 last_cap); [|lia].
  destruct (decide (0 ∈ _)); reflexivity.
Qed.

(** The credentials after the part of cap_set_mode() from PURE1E on. *)
Definition pure1e_creds (flavor : Z) (c : creds) : creds :=
  let c := with_secbits CAP_SECURED_BITS_AMBIENT (with_amb ∅ c) in
  if flavor =? CAP_MODE_NOPRIV then with_bound ∅ c else c.

Definition pure1e_words (flavor : Z) (u : list capblk) : list capblk :=
  if flavor =? CAP_MODE_NOPRIV then fill_words CAP_PERMITTED (fun _ => 0) u else u.

Lemma set_mode_pure1e_run sc flavor c e k w :
  next w <> 0 -> direct sc w -> c_mutex c = false -> CAP_SETPCAP ∈ cr_eff (creds_of k) ->
  secbits_free (creds_of k) CAP_SECURED_BITS_AMBIENT ->
  exists e' k', set_mode_pure1e sc flavor (next w) (holding c e k w) =
      (Ok 0, holding (with_u (fun _ => pure1e_words flavor (c_u c)) c) e' k' w) /\
    creds_of k' = pure1e_creds flavor (creds_of k).
Proof.
  intros Hn Hd Hc Hp Hf. pose proof last_cap_63 as Hlast. unfold set_mode_pure1e.
  destruct (ambient_supported (holding c e k w)) as (e1 & H1). rewrite (bind_ok _ _ _ _ _ H1).
  change (with_errno e1 (holding c e k w)) with (holding c e1 k w). cbn [negb].
  destruct (cap_reset_ambient_run sc (holding c e1 k w) Hd) as (e2 & k2 & H2 & Hk2).
  rewrite (bind_ok _ _ _ _ _ H2). cbn [Z.eqb negb].
  change (with_errno e2 (with_kst k2 (holding c e1 k w))) with (holding c e2 k2 w).
  change (kst (holding c e1 k w)) with k in Hk2.
  destruct (set_secbits_run sc CAP_SECURED_BITS_AMBIENT (holding c e2 k2 w)) as (k3 & H3 & Hk3);
    [done|cbn [kst holding]; by rewrite Hk2|done|cbn [kst holding]; by rewrite Hk2|].
  rewrite (bind_ok _ _ _ _ _ H3). change (with_kst k3 (holding c e2 k2 w)) with (holding c e2 k3 w).
  cbn [kst holding] in Hk3. rewrite Hk2 in Hk3. unfold pure1e_creds, pure1e_words.
  destruct (Z.eqb_spec flavor CAP_MODE_NOPRIV); cbn [negb].
  - destruct (drop_bound_loop_run probe_fuel sc 0 (holding c e2 k3 w)) as (e4 & k4 & H4 & Hk4);
      [done|cbn [kst holding]; by rewrite Hk3|lia|unfold probe_fuel; lia|].
    rewrite (bind_ok _ _ _ _ _ H4).
    change (with_errno e4 (with_kst k4 (holding c e2 k3 w))) with (holding c e4 k4 w).
    rewrite (bind_ok _ _ _ _ _ (holding_clear_flag c e4 k4 w CAP_PERMITTED Hn Hc ltac:(done))).
    set (c' := with_u _ c). destruct (law_no_new_privs k4) as (k5 & H5 & Hk5).
    unfold cap_set_no_new_privs.
    assert (libcap_wprctl6 sc PR_SET_NO_NEW_PRIVS 1 0 0 0 0 (holding c' e4 k4 w) = (Ok 0, holding c' e4 k5 w)) as Hnnp
      by exact (direct_prctl6 sc _ _ _ _ _ _ (holding c' e4 k4 w) k5 Hd H5).
    rewrite bind_bind, (bind_ok _ _ _ _ _ Hnnp). run. rewrite ret_run. exists e4, k5. split; [done|].
    rewrite Hk5, Hk4. cbn [kst holding]. rewrite Hk3. unfold with_bound. cbn. f_equal.
    apply set_eq. intros x. rewrite elem_of_difference, elem_of_empty. split; [|done].
    intros [Hx Hnx]. apply Hnx. destruct (law_valid k) as (_ & Hb & _). rewrite Z.sub_0_r. by apply Hb in Hx.
  - rewrite ret_run. exists e2, k3. split; [|done]. f_equal. f_equal. by destruct c.
Qed.

(** The credentials that each mode leaves. *)
Definition mode_creds (flavor : Z) (c : creds) : creds :=
  mkCreds ∅
    (if flavor =? CAP_MODE_NOPRIV then ∅ else cr_perm c)
    (if (flavor =? CAP_MODE_NOPRIV) || (flavor =? CAP_MODE_PURE1E_INIT) then ∅ else cr_inh c)
    (if flavor =? CAP_MODE_NOPRIV then ∅ else cr_bound c)
    (if flavor =? CAP_MODE_HYBRID then cr_amb c else ∅)
    (if flavor =? CAP_MODE_HYBRID then 0 else CAP_SECURED_BITS_AMBIENT).

Definition known_mode (flavor : Z) : Prop :=
  flavor = CAP_MODE_NOPRIV \/ flavor = CAP_MODE_PURE1E_INIT \/ flavor = CAP_MODE_PURE1E \/
  flavor = CAP_MODE_HYBRID.

(** What the switch leaves in the working copy and in the kernel. *)
Definition switch_words (flavor : Z) (u : list capblk) : list capblk :=
  if (flavor =? CAP_MODE_NOPRIV) || (flavor =? CAP_MODE_PURE1E_INIT)
  then pure1e_words flavor (fill_words CAP_INHERITABLE (fun _ => 0) u) else u.
Definition switch_creds (flavor : Z) (c : creds) : creds :=
  if flavor =? CAP_MODE_HYBRID then with_secbits 0 c else pure1e_creds flavor c.
Definition mode_secbits (flavor : Z) : Z :=
  if flavor =? CAP_MODE_HYBRID then 0 else CAP_SECURED_BITS_AMBIENT.

Lemma set_mode_switch_run sc flavor c e k w :
  next w <> 0 -> direct sc w -> c_mutex c = false -> known_mode flavor ->
  CAP_SETPCAP ∈ cr_eff (creds_of k) -> secbits_free (creds_of k) (mode_secbits flavor) ->
  exists e' k', set_mode_switch sc flavor (next w) (holding c e k w) =
      (Ok 0, holding (with_u (fun _ => switch_words flavor (c_u c)) c) e' k' w) /\
    creds_of k' = switch_creds flavor (creds_of k).
Proof.
  intros Hn Hd Hc Hmode Hp Hf. unfold set_mode_switch, switch_words.
  destruct Hmode as [->|[->|[->| ->]]]; cbn [Z.eqb CAP_MODE_NOPRIV CAP_MODE_PURE1E_INIT CAP_MODE_PURE1E CAP_MODE_HYBRID Pos.eqb orb].
  1, 2: rewrite (bind_ok _ _ _ _ _ (holding_clear_flag c e k w CAP_INHERITABLE Hn Hc ltac:(done)));
    set (c' := with_u _ c).
  1: destruct (set_mode_pure1e_run sc CAP_MODE_NOPRIV c' e k w Hn Hd Hc Hp Hf) as (e' & k' & H & Hk);
    by exists e', k'.
  1: destruct (set_mode_pure1e_run sc CAP_MODE_PURE1E_INIT c' e k w Hn Hd Hc Hp Hf) as (e' & k' & H & Hk);
    by exists e', k'.
  - destruct (set_mode_pure1e_run sc CAP_MODE_PURE1E c e k w Hn Hd Hc Hp Hf) as (e' & k' & H & Hk).
    by exists e', k'.
  - destruct (set_secbits_run sc 0 (holding c e k w) Hd Hp ltac:(done) Hf) as (k' & H & Hk).
    exists e, k'. rewrite H. split; [|done]. change (with_kst k' (holding c e k w)) with (holding c e k' w).
    f_equal. f_equal. by destruct c.
Qed.

Lemma gset_empty_sub (X : gset Z) : ∅ ⊆ X.
Proof. set_solver. Qed.
Lemma gset_union_l (X Y : gset Z) : X ⊆ X ∪ Y.
Proof. set_solver. Qed.

Lemma gset_if_sub (b : bool) (X : gset Z) : (if b then ∅ else X) ⊆ X.
Proof. destruct b; set_solver. Qed.

Lemma u_wf_switch flavor u : u_wf u -> u_wf (switch_words flavor u).
Proof.
  intros Hu. unfold switch_words, pure1e_words. repeat case_match; auto using u_wf_clear.
Qed.

Lemma caps_of_switch flavor u :
  u_wf u -> known_mode flavor ->
  caps_of (switch_words flavor u) CAP_PERMITTED =
    (if flavor =? CAP_MODE_NOPRIV then ∅ else caps_of u CAP_PERMITTED) /\
  caps_of (switch_words flavor u) CAP_INHERITABLE =
    (if (flavor =? CAP_MODE_NOPRIV) || (flavor =? CAP_MODE_PURE1E_INIT) then ∅ else caps_of u CAP_INHERITABLE).
Proof.
  intros Hu. set (u1 := fill_words CAP_INHERITABLE (fun _ => 0) u).
  assert (u_wf u1) as Hu1 by by apply u_wf_clear.
  assert (caps_of u1 CAP_INHERITABLE = ∅) as H1 by by apply caps_of_fill_0.
  intros [->|[->|[->| ->]]].
  - change (switch_words CAP_MODE_NOPRIV u) with (fill_words CAP_PERMITTED (fun _ => 0) u1).
    split; [by rewrite caps_of_fill_0|]. rewrite caps_of_fill by done. exact H1.
  - change (switch_words CAP_MODE_PURE1E_INIT u) with u1. split; [|exact H1].
    subst u1. by rewrite caps_of_fill.
  - split; reflexivity.
  - split; reflexivity.
Qed.

(** What the last capset(2) of cap_set_mode() asks for is granted. *)
Lemma final_allowed flavor d c0 :
  u_wf d -> (forall s, valid_set s -> caps_of d s = cr_set c0 s) -> known_mode flavor ->
  let d1 := raise_cap CAP_SETPCAP CAP_EFFECTIVE d in
  let d2 := fill_words CAP_EFFECTIVE (fun _ => 0) (switch_words flavor d1) in
  let c1 := after_capset c0 d1 in
  capset_allowed (switch_creds flavor c1) d2 /\
  after_capset (switch_creds flavor c1) d2 =
    mode_creds flavor (mkCreds (cr_eff c0) (cr_perm c0) (cr_inh c0) (cr_bound c0)
      (cr_amb c0 ∩ (cr_perm c0 ∩ cr_inh c0)) (cr_secbits c0)).
Proof.
  intros Hu Hd Hmode d1 d2 c1.
  assert (u_wf d1) as Hu1 by by apply u_wf_raise.
  assert (u_wf (switch_words flavor d1)) as Husw by by apply u_wf_switch.
  assert (u_wf d2) as Hu2 by by apply u_wf_clear.
  assert (caps_of d1 CAP_PERMITTED = cr_perm c0) as HP1
    by (subst d1; rewrite caps_of_raise by done; cbn [Z.eqb CAP_EFFECTIVE CAP_PERMITTED]; by apply (Hd CAP_PERMITTED)).
  assert (caps_of d1 CAP_INHERITABLE = cr_inh c0) as HI1
    by (subst d1; rewrite caps_of_raise by done; cbn [Z.eqb CAP_EFFECTIVE CAP_INHERITABLE]; by apply (Hd CAP_INHERITABLE)).
  assert (caps_of d2 CAP_EFFECTIVE = ∅) as HE2 by (subst d2; by rewrite caps_of_fill_empty).
  destruct (caps_of_switch flavor d1 Hu1 Hmode) as [HsP HsI]. rewrite HP1 in HsP. rewrite HI1 in HsI.
  assert (caps_of d2 CAP_PERMITTED = if flavor =? CAP_MODE_NOPRIV then ∅ else cr_perm c0) as HP2
    by (rewrite <-HsP; by apply caps_of_fill).
  assert (caps_of d2 CAP_INHERITABLE =
    if (flavor =? CAP_MODE_NOPRIV) || (flavor =? CAP_MODE_PURE1E_INIT) then ∅ else cr_inh c0) as HI2
    by (rewrite <-HsI; by apply caps_of_fill).
  assert (cr_perm (switch_creds flavor c1) = cr_perm c0 /\ cr_inh (switch_creds flavor c1) = cr_inh c0 /\
    cr_bound (switch_creds flavor c1) = (if flavor =? CAP_MODE_NOPRIV then ∅ else cr_bound c0) /\
    cr_amb (switch_creds flavor c1) = (if flavor =? CAP_MODE_HYBRID then cr_amb c0 ∩ (cr_perm c0 ∩ cr_inh c0) else ∅) /\
    cr_secbits (switch_creds flavor c1) = mode_secbits flavor) as (HcP & HcI & HcB & HcA & HcS).
  { subst c1. unfold switch_creds, pure1e_creds, after_capset. rewrite HP1, HI1.
    destruct Hmode as [->|[->|[->| ->]]]; by split_and!. }
  split.
  - unfold capset_allowed. rewrite HE2, HP2, HI2, HcP, HcI. split; [done|].
    split; [apply gset_if_sub|]. split; [apply gset_empty_sub|].
    split; [right|]; (etrans; [apply gset_if_sub|apply gset_union_l]).
  - unfold after_capset, mode_creds. rewrite HE2, HP2, HI2, HcB, HcA, HcS. cbn [cr_perm cr_inh cr_bound cr_amb].
    destruct Hmode as [->|[->|[->| ->]]]; cbn [Z.eqb CAP_MODE_NOPRIV CAP_MODE_PURE1E_INIT CAP_MODE_PURE1E CAP_MODE_HYBRID Pos.eqb orb];
      unfold mode_secbits; cbn [Z.eqb CAP_MODE_NOPRIV CAP_MODE_PURE1E_INIT CAP_MODE_PURE1E CAP_MODE_HYBRID Pos.eqb];
      f_equal; set_solver.
Qed.

Lemma capset_raise_allowed d k :
  u_wf d -> (forall s, valid_set s -> caps_of d s = cr_set (creds_of k) s) ->
  forall x, x ∈ cr_perm (creds_of k) -> valid_cap x ->
  capset_allowed (creds_of k) (raise_cap x CAP_EFFECTIVE d).
Proof.
  intros Hu Hd x Hx Hv. destruct (law_valid k) as (_ & _ & HEP & _).
  pose proof (Hd CAP_EFFECTIVE ltac:(done)) as HE. pose proof (Hd CAP_PERMITTED ltac:(done)) as HP.
  pose proof (Hd CAP_INHERITABLE ltac:(done)) as HI. unfold cr_set in HE, HP, HI. cbn in HE, HP, HI.
  split; [auto with words|]. rewrite !caps_of_raise by done.
  cbn [Z.eqb CAP_EFFECTIVE CAP_PERMITTED CAP_INHERITABLE]. rewrite HE, HP, HI. clear HE HP HI Hd.
  split; [done|]. split; [set_solver|]. split; [right|]; apply gset_union_l.
Qed.

Lemma cap_set_mode_run flavor w :
  world_wf w -> mem_plenty w -> direct multithread w -> known_mode flavor ->
  CAP_SETPCAP ∈ cr_perm (creds_of (kst w)) -> secbits_free (creds_of (kst w)) (mode_secbits flavor) ->
  exists e k, cap_set_mode flavor w = (Ok 0, done_with e k w) /\
    creds_of k = mode_creds flavor (creds_of (kst w)).
Proof.
  intros Hw Hm Hdir Hmode Hp Hf. pose proof (wf_next_ne_0 _ Hw) as Hn.
  destruct (law_capget (kst w)) as (d & Hd & Hcaps). destruct (law_valid (kst w)) as (_ & _ & _ & Hamb & _).
  assert (u_wf d) as Hu by (destruct Hd as (_ & ? & ?); by split).
  assert (mem_ok w) as Hmem by (unfold mem_ok; by rewrite Hm).
  unfold cap_set_mode, cap_set_mode_sc.
  rewrite (bind_ok _ _ _ _ _ (cap_get_proc_run d w Hn Hmem (law_probe _) Hd)).
  destruct (Z.eqb_spec (next w) 0); [done|].
  rewrite (bind_ok _ _ _ _ _ (holding_set_flag (proc_cap d) _ _ _ CAP_EFFECTIVE CAP_SETPCAP
    Hn eq_refl Hu ltac:(done) ltac:(done))).
  set (c := with_u _ (proc_cap d)).
  destruct (holding_set_proc_ok multithread c (errno w) (kst w) w Hn eq_refl eq_refl eq_refl Hdir)
    as (k1 & H1 & Hk1); [by apply capset_raise_allowed|].
  rewrite (bind_ok _ _ _ _ _ H1). change (Z.lor 0 0 =? 0) with true. cbv iota.
  assert (caps_of (c_u c) CAP_EFFECTIVE = cr_eff (creds_of (kst w)) ∪ {[CAP_SETPCAP]}) as HE.
  { change (c_u c) with (raise_cap CAP_SETPCAP CAP_EFFECTIVE d). rewrite caps_of_raise, Z.eqb_refl by done.
    by rewrite (Hcaps CAP_EFFECTIVE) by done. }
  destruct (set_mode_switch_run multithread flavor c (errno w) k1 w Hn Hdir eq_refl Hmode)
    as (e2 & k2 & H2 & Hk2).
  { rewrite Hk1. cbn [after_capset cr_eff]. rewrite HE. apply elem_of_union_r, elem_of_singleton_2. done. }
  { unfold secbits_free. by rewrite Hk1. }
  rewrite (bind_ok _ _ _ _ _ H2). set (c2 := with_u _ c).
  rewrite (bind_ok _ _ _ _ _ (holding_clear_flag c2 e2 k2 w CAP_EFFECTIVE Hn eq_refl ltac:(done))).
  set (c3 := with_u _ c2). rewrite Hk1 in Hk2.
  destruct (final_allowed flavor d (creds_of (kst w)) Hu Hcaps Hmode) as [Hok Hfin].
  destruct (holding_set_proc_ok multithread c3 e2 k2 w Hn eq_refl eq_refl eq_refl Hdir) as (k3 & H3 & Hk3);
    [by rewrite Hk2|].
  rewrite (bind_ok _ _ _ _ _ H3).
  rewrite (bind_ok _ _ _ _ _ (holding_free c3 e2 k3 w Hw eq_refl)). rewrite ret_run.
  exists e2, k3. split; [done|]. rewrite Hk3, Hk2. etrans; [exact Hfin|].
  assert (cr_amb (creds_of (kst w)) ∩ (cr_perm (creds_of (kst w)) ∩ cr_inh (creds_of (kst w)))
    = cr_amb (creds_of (kst w))) as -> by (clear - Hamb; set_solver). done.
Qed.

(** *** Reading the mode *)

Lemma get_secbits_run w :
  cap_get_secbits w = (Ok (cr_secbits (creds_of (kst w))), w).
Proof.
  destruct (law_valid (kst w)) as (_ & _ & _ & _ & Hs). unfold cap_get_secbits, prctl.
  change (pr_arg 0) with 0.
  rewrite (bind_ok _ _ _ _ _ (libc_syscall_ok _ _ _ _ (law_secbits_read (kst w)) (proj1 Hs))).
  rewrite with_kst_id, ret_run. do 2 f_equal. apply u32_id. unfold is_u32. lia.
Qed.

Lemma get_mode_ambient_loop_run fuel secbits olderrno c w :
  cr_amb (creds_of (kst w)) = ∅ -> 0 <= c <= last_cap + 1 -> (Z.to_nat (last_cap + 1 - c) < fuel)%nat ->
  exists e, get_mode_ambient_loop fuel secbits olderrno c w =
    (Ok (negb (secbits =? CAP_SECURED_BITS_AMBIENT)), with_errno e w).
Proof.
  pose proof last_cap_63 as Hlast. intros Ha. revert c w Ha.
  induction fuel as [|fuel IH]; intros c w Ha Hc Hf; [lia|]. cbn [get_mode_ambient_loop].
  destruct (amb_read_run c w) as (e & H & _); [lia|]. rewrite (bind_ok _ _ _ _ _ H).
  destruct (Z.leb_spec c last_cap).
  - rewrite decide_False by (rewrite Ha; apply not_elem_of_empty). cbn [Z.eqb negb].
    destruct (IH (c + 1) (with_errno e w)) as (e' & H'); [done|lia..|]. rewrite H'. by exists e'.
  - cbn [Z.eqb Pos.eqb]. run. rewrite ret_run. exists olderrno.
    destruct (Z.eqb_spec c 0); [lia|]. done.
Qed.

Lemma get_mode_bound_loop_run fuel c w :
  0 <= c <= last_cap + 1 -> (Z.to_nat (last_cap + 1 - c) < fuel)%nat ->
  (forall x, x < c -> x ∉ cr_bound (creds_of (kst w))) ->
  exists e, get_mode_bound_loop fuel c w =
    (Ok (negb (bool_decide (cr_bound (creds_of (kst w)) = ∅))), with_errno e w).
Proof.
  pose proof last_cap_63 as Hlast. revert c w.
  induction fuel as [|fuel IH]; intros c w Hc Hf Hx; [lia|]. cbn [get_mode_bound_loop].
  destruct (bound_read_run c w) as (e & H & _); [lia|]. rewrite (bind_ok _ _ _ _ _ H).
  destruct (Z.leb_spec c last_cap).
  - destruct (decide (c ∈ cr_bound (creds_of (kst w)))) as [Hin|Hin]; cbn [Z.eqb negb].
    + exists e. rewrite bool_decide_false; [done|]. intros E. rewrite E in Hin. by apply not_elem_of_empty in Hin.
    + destruct (IH (c + 1) (with_errno e w)) as (e' & H'); [lia..| |by exists e'].
      intros x Hx'. destruct (decide (x = c)) as [->|]; [done|]. apply Hx. lia.
  - cbn [Z.eqb Pos.eqb]. exists e. rewrite bool_decide_true; [done|].
    apply set_eq. intros x. split; [|by intros ?%not_elem_of_empty]. intros Hin. exfalso.
    destruct (law_valid (kst w)) as (_ & Hb & _). pose proof Hin as Hin'. apply Hb in Hin'.
    rewrite elem_of_list_to_set, elem_of_seqZ in Hin'. apply (Hx x); [lia|done].
Qed.

(** The mode that cap_get_mode() finds when the securebits are the ones that
    libcap sets and nothing is ambient. *)
Definition mode_seen (c : creds) : Z :=
  if decide (cr_inh c <> ∅) then CAP_MODE_PURE1E
  else if decide (cr_perm c <> ∅ \/ cr_eff c <> ∅ \/ cr_bound c <> ∅) then CAP_MODE_PURE1E_INIT
  else CAP_MODE_NOPRIV.

Lemma cap_get_mode_hybrid w :
  cr_secbits (creds_of (kst w)) = 0 -> cap_get_mode w = (Ok CAP_MODE_HYBRID, w).
Proof.
  intros H. unfold cap_get_mode. rewrite (bind_ok _ _ _ _ _ (get_secbits_run w)). by rewrite H.
Qed.

(** The two sets that cap_get_mode() compares, made and released. *)
Lemma get_mode_compare d w :
  world_wf w -> mem_plenty w -> capget_self (kst w) d ->
  exists w', (working ← cap_get_proc;
    empty ← cap_init;
    let bad := (working =? 0) || (empty =? 0) in
    cf ← (if bad then mret 0 else cap_compare empty working);
    _ ← cap_free empty;
    _ ← cap_free working;
    mret (bad, cf)) w = (Ok (false, compare_u [blk0; blk0] d), w') /\
    heap w' = heap w /\ kst w' = kst w.
Proof.
  intros Hw Hm Hd. pose proof (wf_next_ne_0 _ Hw) as Hn.
  assert (mem_ok w) as Hmem by (unfold mem_ok; by rewrite Hm).
  assert (u_wf d) as Hu by (destruct Hd as (_ & ? & ?); by split).
  rewrite (bind_ok _ _ _ _ _ (cap_get_proc_run d w Hn Hmem (law_probe _) Hd)).
  set (w1 := holding (proc_cap d) (errno w) (kst w) w).
  assert (world_wf w1) as Hw1 by (apply (world_wf_placed (OCap (proc_cap d)) w Hw); done).
  assert (mem_ok w1) as Hmem1 by (unfold mem_ok; subst w1; cbn; by rewrite Hm).
  pose proof (wf_next_ne_0 _ Hw1) as Hn1.
  rewrite (bind_ok _ _ _ _ _ (cap_init_run w1 Hn1 Hmem1 (law_probe _))).
  set (w2 := placed (OCap cap_blank) w1).
  assert (world_wf w2) as Hw2 by (apply (world_wf_placed (OCap cap_blank) w1 Hw1); by apply (u_wf_pair blk0 blk0)).
  assert (mem_ok w2) as Hmem2 by (unfold mem_ok; subst w2 w1; cbn; by rewrite Hm).
  assert (next w1 <> next w) as Hne by (subst w1; cbn; lia).
  assert (heap w2 !! next w1 = Some (OCap cap_blank)) as He by apply lookup_insert_eq.
  assert (heap w2 !! next w = Some (OCap (proc_cap d))) as Hwk
    by (subst w2; cbn [heap placed]; rewrite lookup_insert_ne by done; apply lookup_insert_eq).
  destruct (Z.eqb_spec (next w) 0); [done|]. destruct (Z.eqb_spec (next w1) 0); [done|]. cbn [orb].
  rewrite (bind_ok _ _ _ _ _ (cap_compare_run (next w1) (next w) cap_blank (proc_cap d) w2
    Hw2 He eq_refl Hwk eq_refl (law_probe _) Hmem2)).
  assert (world_wf (spent w2)) as Hw3.
  { destruct Hw2 as [[H1 H1'] H2]. split; cbn [heap next spent].
    - split; [lia|]. replace (next w2 + 16) with (next w2 + 1 * 16) by lia. by rewrite Z.mod_add by lia.
    - intros p o Hp. apply H2 in Hp as (?&?&?). split_and!; [lia..|done|done]. }
  rewrite (bind_ok _ _ _ _ _ (cap_free_plain (next w1) _ (spent w2) Hw3 He eq_refl)).
  set (w4 := with_heap _ (spent w2)).
  assert (world_wf w4) as Hw4 by by apply world_wf_delete.
  assert (heap w4 !! next w = Some (OCap (proc_cap d))) as Hwk4
    by (etrans; [by apply lookup_delete_ne|exact Hwk]).
  rewrite (bind_ok _ _ _ _ _ (cap_free_plain (next w) _ w4 Hw4 Hwk4 eq_refl)), ret_run.
  eexists. split; [reflexivity|]. split; [|done]. subst w4 w2 w1. cbn [heap with_heap spent placed holding].
  pose proof (wf_fresh _ Hw) as Hf. cbn [next holding] in Hne.
  assert (heap w !! next (holding (proc_cap d) (errno w) (kst w) w) = None) as Hf1.
  { apply eq_None_not_Some. intros [o E]. destruct Hw as [_ Hw]. apply Hw in E. cbn in E. lia. }
  cbn [next holding] in *. apply map_eq. intros i.
  rewrite !lookup_delete, !lookup_insert. repeat case_decide; subst; congruence.
Qed.

Lemma cap_get_mode_run w :
  world_wf w -> mem_plenty w ->
  cr_secbits (creds_of (kst w)) = CAP_SECURED_BITS_AMBIENT -> cr_amb (creds_of (kst w)) = ∅ ->
  exists w', cap_get_mode w = (Ok (mode_seen (creds_of (kst w))), w') /\
    heap w' = heap w /\ kst w' = kst w.
Proof.
  intros Hw Hm Hs Ha. pose proof last_cap_63 as Hlast.
  destruct (law_capget (kst w)) as (d & Hd & Hcaps).
  assert (u_wf d) as Hu by (destruct Hd as (_ & ? & ?); by split).
  unfold cap_get_mode. rewrite (bind_ok _ _ _ _ _ (get_secbits_run w)), Hs.
  change (CAP_SECURED_BITS_AMBIENT =? 0) with false.
  change (negb (Z.land CAP_SECURED_BITS_AMBIENT CAP_SECURED_BITS_BASIC =? CAP_SECURED_BITS_BASIC)) with false.
  cbv iota. unfold get_errno. rewrite (bind_ok _ _ _ _ _ (gets_run _ _)).
  destruct (get_mode_ambient_loop_run probe_fuel CAP_SECURED_BITS_AMBIENT (errno w) 0 w Ha)
    as (e1 & H1); [lia|unfold probe_fuel; lia|]. rewrite (bind_ok _ _ _ _ _ H1).
  rewrite Z.eqb_refl. cbn [negb].
  destruct (get_mode_compare d (with_errno e1 w)) as (w2 & H2 & Hh2 & Hk2); [by destruct Hw|done|done|].
  (* split the run off the comparison *)
  assert (forall (f : bool * Z -> M K Z),
    (working ← cap_get_proc; empty ← cap_init;
     let bad := (working =? 0) || (empty =? 0) in
     cf ← (if bad then mret 0 else cap_compare empty working);
     _ ← cap_free empty; _ ← cap_free working; f (bad, cf)) (with_errno e1 w) =
    f (false, compare_u [blk0; blk0] d) w2) as Hsplit.
  { intros f. rewrite <-(bind_ok _ f _ _ _ H2). rewrite !bind_bind. unfold mbind, M_bind.
    destruct (cap_get_proc _) as [[x| | |] wa]; try done. destruct (cap_init wa) as [[y| | |] wb]; try done.
    destruct ((if (x =? 0) || (y =? 0) then mret 0 else cap_compare y x) wb) as [[z| | |] wc]; try done.
    destruct (cap_free y wc) as [[]?]; try done. by destruct (cap_free x _) as [[]?]. }
  pose proof (Hsplit (fun '(bad, cf) => if bad : bool then mret CAP_MODE_UNCERTAIN
      else if CAP_DIFFERS cf CAP_INHERITABLE then mret CAP_MODE_PURE1E
      else if CAP_DIFFERS cf CAP_PERMITTED || CAP_DIFFERS cf CAP_EFFECTIVE
      then mret CAP_MODE_PURE1E_INIT
      else
        bounded ← get_mode_bound_loop probe_fuel 0;
        mret (if bounded : bool then CAP_MODE_PURE1E_INIT else CAP_MODE_NOPRIV))) as Hrun.
  cbv beta iota zeta in Hrun |- *. rewrite Hrun. clear Hsplit Hrun H2.
  assert (u_wf [blk0; blk0]) as Hb0 by (apply u_wf_pair; split; try apply is_u32_0; split; apply is_u32_0).
  assert (forall s, valid_set s -> CAP_DIFFERS (compare_u [blk0; blk0] d) s = bool_decide (cr_set (creds_of (kst w)) s <> ∅)) as Hdiff.
  { intros s Hs'. apply eq_true_iff_eq. rewrite bool_decide_eq_true.
    destruct (compare_u_spec [blk0; blk0] d s Hb0 Hu) as [_ Hc]. rewrite (Hc Hs').
    assert (caps_of [blk0; blk0] s = ∅) as -> by apply (caps_of_blank 2). rewrite <-Hcaps by done.
    split; congruence. }
  rewrite !Hdiff by done. unfold mode_seen, cr_set. cbn [Z.eqb CAP_INHERITABLE CAP_EFFECTIVE CAP_PERMITTED Pos.eqb].
  change (kst (with_errno e1 w)) with (kst w) in Hk2. change (heap (with_errno e1 w)) with (heap w) in Hh2.
  case_bool_decide as HI; [rewrite (decide_True (P := cr_inh _ <> ∅)) by exact HI; by exists w2|].
  rewrite (decide_False (P := cr_inh _ <> ∅)) by tauto.
  destruct (bool_decide (cr_perm (creds_of (kst w)) <> ∅) || bool_decide (cr_eff (creds_of (kst w)) <> ∅)) eqn:E.
  - apply orb_true_iff in E. rewrite !bool_decide_eq_true in E.
    rewrite (decide_True (P := _ \/ _)) by tauto. by exists w2.
  - apply orb_false_iff in E as [E1%bool_decide_eq_false E2%bool_decide_eq_false].
    destruct (get_mode_bound_loop_run probe_fuel 0 w2) as (e3 & H3); [lia|unfold probe_fuel; lia| |].
    { intros x Hx Hin. rewrite Hk2 in Hin. destruct (law_valid (kst w)) as (_ & Hb & _). apply Hb in Hin.
      rewrite elem_of_list_to_set, elem_of_seqZ in Hin. lia. }
    rewrite (bind_ok _ _ _ _ _ H3), ret_run, Hk2. exists (with_errno e3 w2). split; [|done].
    clear H3. f_equal. f_equal. destruct (decide (_ \/ _)) as [Hor|Hor]; case_bool_decide as HB; cbn [negb];
      first [reflexivity|exfalso; tauto].
Qed.

(** C1 On a kernel that behaves as documented, a process that is permitted
    CAP_SETPCAP and whose securebits are not locked against it can set any of
    the four modes: cap_set_mode() returns 0, leaves no object behind, and the
    credentials become exactly those of the mode - nothing effective, nothing
    ambient except in HYBRID, nothing inheritable in PURE1E_INIT, nothing at all
    in NOPRIV, where the bounding set is emptied too. *)
Theorem cap_set_mode_correct flavor w :
  world_wf w -> mem_plenty w -> direct multithread w -> known_mode flavor ->
  CAP_SETPCAP ∈ cr_perm (creds_of (kst w)) -> secbits_free (creds_of (kst w)) (mode_secbits flavor) ->
  exists w', cap_set_mode flavor w = (Ok 0, w') /\ heap w' = heap w /\ glob w' = glob w /\
    creds_of (kst w') = mode_creds flavor (creds_of (kst w)).
Proof.
  intros Hw Hm Hdir Hmode Hp Hf.
  destruct (cap_set_mode_run flavor w Hw Hm Hdir Hmode Hp Hf) as (e & k & H & Hk).
  by exists (done_with e k w).
Qed.

(** C2 The mode that was set is the mode that cap_get_mode() then reads, except
    that PURE1E without any inheritable capability is PURE1E_INIT; reading it
    changes neither the objects nor the credentials. *)
Theorem cap_mode_roundtrip flavor w :
  world_wf w -> mem_plenty w -> direct multithread w -> known_mode flavor ->
  CAP_SETPCAP ∈ cr_perm (creds_of (kst w)) -> secbits_free (creds_of (kst w)) (mode_secbits flavor) ->
  exists w1 w2, cap_set_mode flavor w = (Ok 0, w1) /\
    cap_get_mode w1 = (Ok (if (flavor =? CAP_MODE_PURE1E) && bool_decide (cr_inh (creds_of (kst w)) = ∅)
                           then CAP_MODE_PURE1E_INIT else flavor), w2) /\
    heap w2 = heap w /\ kst w2 = kst w1.
Proof.
  intros Hw Hm Hdir Hmode Hp Hf.
  destruct (cap_set_mode_run flavor w Hw Hm Hdir Hmode Hp Hf) as (e & k & H & Hk).
  set (w1 := done_with e k w) in *. assert (mem_plenty w1) as Hm1 by (unfold mem_plenty; cbn; by rewrite Hm).
  assert (world_wf w1) as Hw1.
  { destruct Hw as [[H1 H1'] H2]. split; cbn.
    - split; [lia|]. replace (next w + 16) with (next w + 1 * 16) by lia. by rewrite Z.mod_add by lia.
    - intros p o Hpo. apply H2 in Hpo as (?&?&?). split_and!; [lia..|done|done]. }
  assert (cr_perm (creds_of (kst w)) <> ∅) as HP by (intros E; rewrite E in Hp; by apply not_elem_of_empty in Hp).
  assert (creds_of (kst w1) = mode_creds flavor (creds_of (kst w))) as Hc by exact Hk.
  destruct (decide (flavor = CAP_MODE_HYBRID)) as [->|Hnh].
  - exists w1, w1. split; [done|]. split; [|done]. apply cap_get_mode_hybrid. by rewrite Hc.
  - apply Z.eqb_neq in Hnh as Hnh'.
    destruct (cap_get_mode_run w1 Hw1 Hm1) as (w2 & H2 & Hh & Hk2);
      [rewrite Hc; unfold mode_creds; by rewrite Hnh'..|].
    exists w1, w2. split; [done|]. split; [|done]. rewrite H2, Hc. f_equal. f_equal.
    unfold mode_seen, mode_creds. cbn [cr_inh cr_perm cr_eff cr_bound].
    destruct Hmode as [->|[->|[->| ->]]]; [| | |done];
      cbn [Z.eqb CAP_MODE_NOPRIV CAP_MODE_PURE1E_INIT CAP_MODE_PURE1E CAP_MODE_HYBRID Pos.eqb orb andb].
    + destruct (decide (∅ <> ∅)); [tauto|]. destruct (decide (_ \/ _)); [tauto|reflexivity].
    + destruct (decide (∅ <> ∅)); [tauto|]. destruct (decide (_ \/ _)); [reflexivity|tauto].
    + case_bool_decide as HI; destruct (decide (_ <> ∅)); try tauto;
        destruct (decide (_ \/ _)); first [reflexivity|exfalso; tauto].
Qed.

End laws.
