(* ===== verification/IabProcSpec.v ===== *)
(** The IAB tuple of a process on a kernel with the documented behaviour:
    cap_iab_get_proc() reads the three vectors of the credentials, and
    cap_iab_set_proc() makes them what the tuple says, or nothing. *)

From S2P Require Import Prelude Capability World Exec Syscall Alloc Flag FlagSpec IabSpec Proc ProcSpec KernelLaws.
From S2P Require Import ModeSpec.
From stdpp Require Import gmap strings list sets.
From Stdlib Require Import ZArith Lia.

Open Scope Z_scope.

(** *** Vectors, bit by bit *)

Section bits.
Implicit Types (v : list Z) (c : Z) (caps : list Z) (t : cap_iab_s).

Lemma has_bit_spec v c : valid_cap c -> has_bit v c = bool_decide (c ∈ vec_caps v).
Proof.
  intros Hc. unfold has_bit. rewrite land_bit32_eqb, negb_involutive. apply eq_true_iff_eq.
  rewrite bool_decide_eq_true, elem_of_vec_caps. unfold vec_bit, CAP_TO_INDEX. tauto.
Qed.

Lemma view_iab0 : view iab0 = mkView ∅ ∅ ∅.
Proof. unfold view, iab0. cbn [iab_i iab_a iab_nb]. by rewrite vec_caps_zero. Qed.

Lemma raising_spec t u :
  iab_wf t -> u_wf u ->
  iab_raising t u = 0 <-> vec_caps (iab_i t) ⊆ caps_of u CAP_INHERITABLE ∪ caps_of u CAP_PERMITTED.
Proof.
  intros (Hi & _) Hu. destruct t as [m i a nb]. cbn [iab_i] in *.
  destruct (words_wf_inv _ Hi) as (i0&i1&->&?&?).
  pose proof (fun o s => blk_wf_flat (u_blk u o) s (u_blk_wf _ o Hu)) as Hf.
  rewrite <-!vec_caps_words, <-vec_caps_pair_lor. unfold iab_raising.
  change (seqZ 0 LIBCAP_CAPABILITY_U32S) with [0; 1]. cbn [foldl iab_i]. rewrite word_0, word_1, Z.lor_0_l.
  set (x0 := Z.lor (flat (u_blk u 0) _) _). set (x1 := Z.lor (flat (u_blk u 1) _) _).
  assert (is_u32 x0 /\ is_u32 x1) as [Hx0 Hx1] by (split; by apply is_u32_lor).
  rewrite Z.lor_eq_0_iff. transitivity (vec_caps [Z.land i0 (u32_not x0); Z.land i1 (u32_not x1)] = ∅).
  - rewrite <-vec_caps_zero. split; [by intros [-> ->]|].
    intros E%vec_caps_inj; [by injection E as -> ->|apply words_wf_pair; by apply is_u32_land_l|].
    apply words_wf_pair; apply is_u32_0.
  - rewrite vec_caps_pair_land, vec_caps_pair_not.
    assert (forall x, x ∈ vec_caps [i0; i1] -> x ∈ all_caps) as Hall
      by (intros x [? _]%elem_of_vec_caps; by apply elem_of_all_caps).
    revert Hall. generalize (vec_caps [i0; i1]) (vec_caps [x0; x1]) all_caps. intros A B R Hall.
    split; [|set_solver]. intros E x Hx. destruct (decide (x ∈ B)); [done|].
    exfalso. apply (not_elem_of_empty (C := gset Z) x). rewrite <-E. set_solver.
Qed.

Lemma any_nb_spec t : iab_wf t -> iab_any_nb t = false -> vec_caps (iab_nb t) = ∅.
Proof.
  intros (_ & _ & Hn) H. destruct t as [m i a nb]. cbn [iab_nb] in *.
  destruct (words_wf_inv _ Hn) as (n0&n1&->&_&_). unfold iab_any_nb in H.
  change (seqZ 0 LIBCAP_CAPABILITY_U32S) with [0; 1] in H. cbn [existsb iab_nb] in H.
  rewrite word_0, word_1, orb_false_r in H.
  apply orb_false_iff in H as [->%negb_false_iff%Z.eqb_eq ->%negb_false_iff%Z.eqb_eq]. apply vec_caps_zero.
Qed.

(** The process's set with the inheritable vector of the tuple in it. *)
Definition with_inh (t : cap_iab_s) (d : list capblk) : list capblk :=
  fill_words CAP_INHERITABLE (fun i => word (iab_i t) (Z.of_nat i)) d.

Lemma with_inh_spec t d :
  iab_wf t -> u_wf d ->
  u_wf (with_inh t d) /\ caps_of (with_inh t d) CAP_INHERITABLE = vec_caps (iab_i t) /\
  caps_of (with_inh t d) CAP_PERMITTED = caps_of d CAP_PERMITTED /\
  caps_of (with_inh t d) CAP_EFFECTIVE = caps_of d CAP_EFFECTIVE.
Proof.
  intros (Hi & _) Hd. unfold with_inh. split_and!; [|apply set_eq; intros x|by apply caps_of_fill..].
  - apply u_wf_fill; [done|]. intros. by apply word_wf.
  - rewrite elem_of_caps_of, elem_of_vec_caps. destruct (decide (valid_cap x)) as [Hx|]; [|tauto].
    rewrite has_cap_fill, Z.eqb_refl by done. unfold vec_bit. rewrite Z2Nat.id; [done|].
    destruct (index_bound x Hx) as [-> | ->]; lia.
Qed.

End bits.

Section iab_proc.
Context {K : Type} `{!Kernel K, !KernelLaws K}.
Implicit Types (k : K) (w : world K) (sc : syscaller_ref) (t : cap_iab_s).

Lemma last_cap_valid c : 0 <= c <= last_cap -> valid_cap c.
Proof. pose proof last_cap_63. unfold valid_cap. change CAP_MAXBITS with 64. lia. Qed.

(** The capabilities the kernel has. *)
Definition kernel_caps : gset Z := list_to_set (seqZ 0 (last_cap + 1)).

Lemma bound_read_in c w :
  0 <= c <= last_cap -> cap_get_bound c w = (Ok (if decide (c ∈ cr_bound (creds_of (kst w))) then 1 else 0), w).
Proof.
  intros Hc. pose proof last_cap_63. destruct (bound_read_run c w) as (e & H' & He); [lia|].
  rewrite H', He, with_errno_id by lia. destruct (Z.leb_spec c last_cap); [done|lia].
Qed.

Lemma amb_read_in c w :
  0 <= c <= last_cap -> cap_get_ambient c w = (Ok (if decide (c ∈ cr_amb (creds_of (kst w))) then 1 else 0), w).
Proof.
  intros Hc. pose proof last_cap_63. destruct (amb_read_run c w) as (e & H' & He); [lia|].
  rewrite H', He, with_errno_id by lia. destruct (Z.leb_spec c last_cap); [done|lia].
Qed.

(** One capability of the loop of cap_iab_get_proc(). *)
Definition seen_one (cr : creds) (t : cap_iab_s) (c : Z) : cap_iab_s :=
  let t := if decide (c ∈ cr_bound cr) then t else or_nb (Z.shiftr c 5) (bit32 c) t in
  if decide (c ∈ cr_amb cr) then or_a (Z.shiftr c 5) (bit32 c) t else t.

Lemma iab_get_loop_run p t caps w :
  heap w !! p = Some (OIab t) -> Forall (fun c => 0 <= c <= last_cap) caps ->
  iab_get_loop p caps w =
    (Ok tt, with_heap (<[p := OIab (foldl (seen_one (creds_of (kst w))) t caps)]> (heap w)) w).
Proof.
  intros Hp Hc. revert t w Hp. induction Hc as [|c caps Hc _ IH]; intros t w Hp; cbn [iab_get_loop foldl].
  - rewrite ret_run. f_equal. symmetry. apply with_heap_restore. heap_eq.
  - assert (forall (w' : world K) b f t, heap w' !! p = Some (OIab t) ->
      (if b : bool then modify_iab p f else mret tt) w' =
      (Ok tt, with_heap (<[p := OIab (if b then f t else t)]> (heap w')) w')) as Hmod.
    { intros w' [] f t0 Hp'; [by rewrite (modify_iab_run _ _ _ _ Hp')|]. rewrite ret_run. f_equal. symmetry. apply with_heap_restore. heap_eq. }
    rewrite (bind_ok _ _ _ _ _ (bound_read_in c w Hc)).
    erewrite bind_ok; [|by apply Hmod]. set (t1 := if _ : bool then _ else _).
    set (w1 := with_heap _ w). assert (heap w1 !! p = Some (OIab t1)) as Hp1 by apply lookup_insert_eq.
    rewrite (bind_ok _ _ _ _ _ (amb_read_in c w1 Hc)).
    erewrite bind_ok; [|by apply Hmod]. set (t2 := if _ : bool then _ else _).
    rewrite (IH t2) by apply lookup_insert_eq.
    assert (t2 = seen_one (creds_of (kst w)) t c) as ->.
    { subst t2 t1 w1. unfold seen_one. cbn [kst with_heap].
      by destruct (decide (c ∈ cr_bound _)), (decide (c ∈ cr_amb _)). }
    f_equal. subst w1. world_eq.
Qed.

Lemma seen_one_spec cr t c :
  iab_wf t -> valid_cap c ->
  iab_wf (seen_one cr t c) /\ iab_mutex (seen_one cr t c) = iab_mutex t /\
  view (seen_one cr t c) = mkView (v_i (view t)) (v_a (view t) ∪ (cr_amb cr ∩ {[c]}))
    (v_nb (view t) ∪ ({[c]} ∖ cr_bound cr)).
Proof.
  intros (Hi & Ha & Hn) Hc. unfold seen_one, or_nb, or_a, view.
  destruct (decide (c ∈ cr_bound cr)), (decide (c ∈ cr_amb cr)); cbn [iab_i iab_a iab_nb iab_mutex v_i v_a v_nb];
    (split; [split_and!; cbn [iab_i iab_a iab_nb]; auto using words_wf_or|split; [done|]]); rewrite ?vec_caps_or by done; f_equal; set_solver.
Qed.

Lemma seen_all_spec cr caps t :
  iab_wf t -> Forall valid_cap caps ->
  let t' := foldl (seen_one cr) t caps in
  iab_wf t' /\ iab_mutex t' = iab_mutex t /\
  view t' = mkView (v_i (view t)) (v_a (view t) ∪ (cr_amb cr ∩ list_to_set caps))
    (v_nb (view t) ∪ (list_to_set caps ∖ cr_bound cr)).
Proof.
  intros Ht Hc. revert t Ht. induction Hc as [|c caps Hc _ IH]; intros t Ht; cbn [foldl list_to_set list_fmap].
  - split; [done|]. split; [done|]. destruct (view t). cbn. f_equal; set_solver.
  - destruct (seen_one_spec cr t c Ht Hc) as (Ht1 & Hm1 & Hv1).
    destruct (IH _ Ht1) as (Ht2 & Hm2 & Hv2). split; [done|]. split; [congruence|]. rewrite Hv2, Hv1.
    cbn [v_i v_a v_nb]. f_equal; set_solver.
Qed.

(** What cap_iab_get_proc() reports of the credentials. *)
Definition creds_view (cr : creds) : iab_view :=
  mkView (cr_inh cr) (cr_amb cr) (kernel_caps ∖ cr_bound cr).

(** The count of the start-up constructor is that of the kernel: what
    libcap_initialize_correct establishes. *)
Definition counted w : Prop := g_max_bits (glob w) = last_cap + 1.

Lemma check_bound_loop_run t caps w :
  Forall (fun c => 0 <= c <= last_cap) caps ->
  check_bound_loop t caps w =
    (Ok (existsb (fun c => bool_decide (c ∈ vec_caps (iab_nb t) ∩ cr_bound (creds_of (kst w)))) caps), w).
Proof.
  induction 1 as [|c caps Hc _ IH]; cbn [check_bound_loop existsb]; [done|].
  rewrite has_bit_spec by by apply last_cap_valid. case_bool_decide as Hin.
  - rewrite (bind_ok _ _ _ _ _ (bound_read_in c w Hc)). destruct (decide (c ∈ cr_bound _)).
    + rewrite bool_decide_true by by apply elem_of_intersection. done.
    + rewrite bool_decide_false by (rewrite elem_of_intersection; tauto). done.
  - rewrite bool_decide_false by (rewrite elem_of_intersection; tauto). done.
Qed.

Lemma cap_iab_get_proc_run w :
  world_wf w -> mem_plenty w -> counted w ->
  exists t, cap_iab_get_proc w = (Ok (next w),
      mkWorld (<[next w := OIab t]> (heap w)) (next w + 48) [] (errno w) (glob w) (kst w) (out w)) /\
    iab_wf t /\ iab_mutex t = false /\ view t = creds_view (creds_of (kst w)).
Proof.
  intros Hw Hm Hcnt. pose proof last_cap_63 as Hlast. pose proof (wf_next_ne_0 _ Hw) as Hn.
  destruct (law_capget (kst w)) as (d & Hd & Hcaps).
  assert (cap_wf (proc_cap d)) as Hu by (destruct Hd as (_ & ? & ?); by split).
  assert (mem_ok w) as Hmem by (unfold mem_ok; by rewrite Hm).
  unfold cap_iab_get_proc, cap_iab_init.
  rewrite (bind_ok _ _ _ _ _ (alloc_run _ _ Hmem)). destruct (Z.eqb_spec (next w) 0); [done|].
  set (w1 := placed (OIab iab0) w).
  assert (iab_wf iab0) as Hw0 by (split_and!; apply words_wf_pair; apply is_u32_0).
  assert (world_wf w1) as Hw1 by by apply world_wf_placed.
  assert (mem_ok w1) as Hmem1 by (unfold mem_ok, w1; cbn [placed mem]; by rewrite Hm).
  rewrite (bind_ok _ _ _ _ _ (cap_get_proc_run d w1 (wf_next_ne_0 _ Hw1) Hmem1 (law_probe _) Hd)).
  destruct (Z.eqb_spec (next w1) 0) as [E|]; [by apply wf_next_ne_0 in Hw1|].
  set (w2 := holding (proc_cap d) (errno w1) (kst w1) w1).
  assert (world_wf w2) as Hw2 by by apply holding_wf.
  assert (heap w1 !! next w = Some (OIab iab0)) as Hp1 by apply lookup_insert_eq.
  destruct (cap_iab_fill_run (next w) iab0 CAP_IAB_INH (next w1) (proc_cap d) CAP_INHERITABLE w2)
    as (t' & Hfill & Ht' & Hmu & Hview); try done.
  { by apply holding_ne. } { apply holding_lookup. } { apply law_probe. }
  { unfold mem_ok, w2, w1. cbn [holding placed mem]. by rewrite Hm. } { by left. }
  rewrite (bind_ok _ _ _ _ _ Hfill). set (w3 := with_heap _ _).
  assert (heap w3 !! next w1 = Some (OCap (proc_cap d))) as Hl3.
  { subst w3. cbn [heap with_heap]. rewrite lookup_insert_ne; [apply holding_lookup|].
    apply not_eq_sym. cbn. lia. }
  rewrite (bind_ok _ _ _ _ _ (cap_free_copy (next w1) _ w3 ltac:(done) (proj2 (wf_next _ Hw1)) Hl3 eq_refl)).
  set (w4 := with_heap _ _). unfold cap_max_bits. rewrite (bind_ok _ _ _ _ _ (gets_run _ _)).
  assert (g_max_bits (glob w4) = last_cap + 1) as -> by exact Hcnt.
  assert (heap w4 !! next w = Some (OIab t')) as Hp4.
  { subst w4 w3. cbn [heap with_heap]. rewrite lookup_delete_ne by (cbn; lia). apply lookup_insert_eq. }
  rewrite (bind_ok _ _ _ _ _ (iab_get_loop_run _ _ _ _ Hp4 (countdown_range last_cap))). rewrite ret_run.
  destruct (seen_all_spec (creds_of (kst w)) (countdown (last_cap + 1)) t' Ht') as (Hwf & Hmu2 & Hv2).
  { eapply Forall_impl; [apply countdown_range|]. apply last_cap_valid. }
  exists (foldl (seen_one (creds_of (kst w))) t' (countdown (last_cap + 1))).
  split; [apply (f_equal (pair (Ok (next w))))|split; [exact Hwf|split; [by rewrite <-Hmu, <-Hmu2|]]].
  - change (kst w4) with (kst w). set (t'' := foldl _ _ _). subst w4 w3 w2 w1.
    unfold holding, placed, spent, with_heap. cbn [heap next mem errno glob kst out]. rewrite Hm.
    f_equal; [|lia]. assert (heap w !! (next w + 16) = None) by (apply wf_beyond; [done|lia]).
    assert (next w + 16 <> next w) by lia. clear - H H0. heap_eq.
  - rewrite Hv2, Hview, view_iab0. unfold view_set, fill_caps, creds_view. cbn [v_i v_a v_nb Z.eqb CAP_IAB_INH CAP_IAB_BOUND Pos.eqb].
    cbn [c_u proc_cap]. rewrite (Hcaps CAP_INHERITABLE) by done. destruct (law_valid (kst w)) as (Hs & Hb & _ & Ha & _).
    assert (list_to_set (countdown (last_cap + 1)) = kernel_caps) as ->
      by (apply set_eq; intros x; unfold kernel_caps; by rewrite !elem_of_list_to_set, elem_of_countdown, elem_of_seqZ).
    change (cr_set (creds_of (kst w)) CAP_INHERITABLE) with (cr_inh (creds_of (kst w))).
    specialize (Hs CAP_PERMITTED). cbn in Hs. fold kernel_caps in Hs.
    clear - Ha Hs. revert Ha Hs. generalize kernel_caps (cr_amb (creds_of (kst w))) (cr_perm (creds_of (kst w)))
      (cr_inh (creds_of (kst w))) (cr_bound (creds_of (kst w))). intros R A P I B HA HP. f_equal; set_solver.
Qed.

(** *** Setting the tuple *)

(** Whether CAP_SETPCAP has to be raised for it. *)
Definition needs_setpcap (cr : creds) (v : iab_view) : Prop :=
  ~ v_i v ⊆ cr_inh cr ∪ cr_perm cr \/ ~ (v_nb v ∩ cr_bound cr) ⊆ ∅.

(** The capset(2) of cap_iab_set_proc() is one the kernel grants. The kernel
    looks at the effective capabilities of the process as it is: CAP_SETPCAP that
    the same call would raise comes too late for the inheritable vector. *)
Definition capset_grants (cr : creds) (v : iab_view) : Prop :=
  v_i v ⊆ cr_inh cr ∪ cr_bound cr /\
  (CAP_SETPCAP ∈ cr_eff cr \/ v_i v ⊆ cr_inh cr ∪ cr_perm cr) /\
  (needs_setpcap cr v -> CAP_SETPCAP ∈ cr_perm cr).

(** The ambient vector can be raised. *)
Definition ambient_ok (cr : creds) (v : iab_view) : Prop :=
  v_a v ⊆ cr_perm cr /\
  (v_a v = ∅ \/ Z.land (cr_secbits cr) SECBIT_NO_CAP_AMBIENT_RAISE = 0).

(** The credentials the tuple describes. *)
Definition iab_creds (v : iab_view) (cr : creds) : creds :=
  mkCreds (cr_eff cr) (cr_perm cr) (v_i v) (cr_bound cr ∖ v_nb v) (v_a v) (cr_secbits cr).

Lemma set_ambient_run sc c w :
  direct sc w -> 0 <= c <= last_cap -> c ∈ cr_perm (creds_of (kst w)) -> c ∈ cr_inh (creds_of (kst w)) ->
  Z.land (cr_secbits (creds_of (kst w))) SECBIT_NO_CAP_AMBIENT_RAISE = 0 ->
  exists k', cap_set_ambient_sc sc c CAP_SET w = (Ok 0, with_kst k' w) /\
    creds_of k' = with_amb ({[c]} ∪ cr_amb (creds_of (kst w))) (creds_of (kst w)).
Proof.
  intros Hd Hc Hp Hi Hs. destruct (law_amb_raise _ c Hp Hi Hs) as (k' & Hk & Hcr).
  exists k'. split; [|done]. unfold cap_set_ambient_sc. rewrite Z.eqb_refl. apply direct_prctl6; [done|].
  pose proof last_cap_63. rewrite (pr_arg_id c) by lia. exact Hk.
Qed.

Lemma drop_bound_run sc c w :
  direct sc w -> 0 <= c <= last_cap -> CAP_SETPCAP ∈ cr_eff (creds_of (kst w)) ->
  exists k', cap_drop_bound_sc sc c w = (Ok 0, with_kst k' w) /\
    creds_of k' = with_bound (cr_bound (creds_of (kst w)) ∖ {[c]}) (creds_of (kst w)).
Proof.
  intros Hd Hc Hp. destruct (law_bound_drop _ c Hp Hc) as (k' & Hk & Hcr).
  exists k'. split; [|done]. unfold cap_drop_bound_sc. rewrite libcap_wprctl3_6. apply direct_prctl6; [done|].
  pose proof last_cap_63. rewrite (pr_arg_id c) by lia. exact Hk.
Qed.

Lemma iab_set_loop_run sc t b caps w :
  direct sc w -> iab_wf t -> Forall (fun c => 0 <= c <= last_cap) caps ->
  vec_caps (iab_a t) ⊆ cr_perm (creds_of (kst w)) -> vec_caps (iab_a t) ⊆ cr_inh (creds_of (kst w)) ->
  (vec_caps (iab_a t) = ∅ \/ Z.land (cr_secbits (creds_of (kst w))) SECBIT_NO_CAP_AMBIENT_RAISE = 0) ->
  (b = true -> CAP_SETPCAP ∈ cr_eff (creds_of (kst w))) ->
  exists k', iab_set_loop sc t b caps w = (Ok 0, with_kst k' w) /\
    creds_of k' = with_amb (cr_amb (creds_of (kst w)) ∪ (vec_caps (iab_a t) ∩ list_to_set caps))
      (with_bound (cr_bound (creds_of (kst w)) ∖ (if b then vec_caps (iab_nb t) ∩ list_to_set caps else ∅))
        (creds_of (kst w))).
Proof.
  intros Hd Ht Hc. revert w Hd. induction Hc as [|c caps Hc _ IH]; intros w Hd Hp Hi Hs Hb;
    cbn [iab_set_loop list_to_set list_fmap].
  - exists (kst w). rewrite with_kst_id. split; [done|]. destruct (creds_of (kst w)); unfold with_amb, with_bound; cbn.
    f_equal; [destruct b|]; set_solver.
  - rewrite !has_bit_spec by by apply last_cap_valid.
    assert (exists k1, (if bool_decide (c ∈ vec_caps (iab_a t)) then cap_set_ambient_sc sc c CAP_SET else mret 0) w
      = (Ok 0, with_kst k1 w) /\ creds_of k1 =
        with_amb (cr_amb (creds_of (kst w)) ∪ (vec_caps (iab_a t) ∩ {[c]})) (creds_of (kst w))) as (k1 & H1 & Hk1).
    { case_bool_decide as Hin.
      - destruct (set_ambient_run sc c w) as (k1 & H1 & Hk1); auto.
        { destruct Hs as [E|]; [|done]. rewrite E in Hin. by apply not_elem_of_empty in Hin. }
        exists k1. split; [done|]. rewrite Hk1. f_equal. set_solver.
      - exists (kst w). rewrite with_kst_id. split; [done|]. symmetry. apply with_amb_id. set_solver. }
    rewrite (bind_ok _ _ _ _ _ H1). cbn [Z.eqb negb].
    assert (exists k2, (if b && bool_decide (c ∈ vec_caps (iab_nb t)) then cap_drop_bound_sc sc c else mret 0) (with_kst k1 w)
      = (Ok 0, with_kst k2 w) /\ creds_of k2 =
        with_bound (cr_bound (creds_of k1) ∖ (if b then vec_caps (iab_nb t) ∩ {[c]} else ∅)) (creds_of k1))
      as (k2 & H2 & Hk2).
    { clear H1. destruct b; cbn [andb].
      2: { exists k1. split; [done|]. symmetry. apply with_bound_id. set_solver. }
      case_bool_decide as Hin.
      - destruct (drop_bound_run sc c (with_kst k1 w)) as (k2 & H2 & Hk2); auto.
        { cbn [kst with_kst]. rewrite Hk1. by apply Hb. }
        exists k2. split; [done|]. rewrite Hk2. cbn [kst with_kst]. f_equal. set_solver.
      - exists k1. split; [done|]. symmetry. apply with_bound_id. set_solver. }
    rewrite (bind_ok _ _ _ _ _ H2). cbn [Z.eqb negb].
    destruct (IH (with_kst k2 w)) as (k3 & H3 & Hk3); try done;
      try (cbn [kst with_kst]; rewrite Hk2, Hk1; done).
    exists k3. split; [done|]. rewrite Hk3. cbn [kst with_kst]. rewrite Hk2, Hk1.
    unfold with_amb, with_bound. cbn [cr_eff cr_perm cr_inh cr_bound cr_amb cr_secbits].
    f_equal; [destruct b|]; set_solver.
Qed.

Definition working_words (b : bool) (t : cap_iab_s) (d : list capblk) : list capblk :=
  if b then raise_cap CAP_SETPCAP CAP_EFFECTIVE (with_inh t d) else with_inh t d.

Lemma working_words_spec b t d cr :
  iab_wf t -> u_wf d -> (forall s, valid_set s -> caps_of d s = cr_set cr s) ->
  u_wf (working_words b t d) /\
  caps_of (working_words b t d) CAP_EFFECTIVE = cr_eff cr ∪ (if b then {[CAP_SETPCAP]} else ∅) /\
  caps_of (working_words b t d) CAP_PERMITTED = cr_perm cr /\
  caps_of (working_words b t d) CAP_INHERITABLE = v_i (view t).
Proof.
  intros Ht Hd Hcaps. destruct (with_inh_spec t d Ht Hd) as (Hu & HI & HP & HE). unfold working_words.
  rewrite (Hcaps CAP_EFFECTIVE) in HE by done. rewrite (Hcaps CAP_PERMITTED) in HP by done.
  cbn in HE, HP. destruct b.
  - split; [auto with words|]. rewrite !caps_of_raise by done.
    cbn [Z.eqb CAP_EFFECTIVE CAP_PERMITTED CAP_INHERITABLE]. by rewrite HE, HP, HI.
  - rewrite HE, HP, HI. split; [done|]. split; [|done]. by rewrite union_empty_r_L.
Qed.

Lemma working_allowed b t d cr :
  iab_wf t -> u_wf d -> (forall s, valid_set s -> caps_of d s = cr_set cr s) ->
  cr_eff cr ⊆ cr_perm cr -> (b = true <-> needs_setpcap cr (view t)) ->
  capset_allowed cr (working_words b t d) <-> capset_grants cr (view t).
Proof.
  intros Ht Hd Hcaps HEP Hb. destruct (working_words_spec b t d cr Ht Hd Hcaps) as (Hu & HE & HP & HI).
  unfold capset_allowed, capset_grants. rewrite HE, HP, HI, <-Hb. clear Hb HE HP HI Hcaps.
  revert HEP. generalize (v_i (view t)) (cr_eff cr) (cr_perm cr) (cr_inh cr) (cr_bound cr).
  intros V E P I B HEP. split.
  - intros (_ & _ & HE & HI & HB). split; [done|]. split; [done|]. intros ->. set_solver.
  - intros (HB & HI & Hp). split; [done|]. split; [done|]. split; [destruct b; set_solver|]. done.
Qed.

Lemma live_set_proc_refused sc p c w :
  p <> 0 -> heap w !! p = Some (OCap c) -> c_mutex c = false ->
  c_version c = LINUX_CAPABILITY_VERSION_3 -> c_pid c = 0 ->
  direct sc w -> u_wf (c_u c) -> ~ capset_allowed (creds_of (kst w)) (c_u c) ->
  cap_set_proc_sc sc p w = (Ok (-1), with_errno EPERM w).
Proof.
  intros Hn Hl Hc Hv Hpid Hd Hu Hno. pose proof (law_capset_refused (kst w) (c_u c) Hu Hno) as Hk.
  unfold cap_set_proc_sc. run.
  rewrite (magic_at_some _ _ _ Hn Hl). change (obj_magic (OCap c) =? CAP_T_MAGIC) with true.
  cbn [negb]. run. cbn [c_version c_pid c_u cap_with_mutex]. rewrite Hv, Hpid.
  set (w1 := with_heap _ w).
  assert (libcap_capset sc LINUX_CAPABILITY_VERSION_3 0 (c_u c) w1 = (Ok (-1), with_errno EPERM w1)) as H1.
  { unfold libcap_capset, overrode_syscalls. rewrite (bind_ok _ _ _ _ _ (gets_run _ _)).
    pose proof (libc_syscall_err (req_set (c_u c)) w1 _ _ Hk ltac:(done)) as He.
    destruct (g_overrode_syscalls (glob w1)) eqn:Ho; [rewrite sc_call_run by (by apply Hd)|]; exact He. }
  rewrite (bind_ok _ _ _ _ _ H1). subst w1. run. rewrite ret_run. f_equal. world_eq.
Qed.

Lemma check_bound_run t w :
  iab_wf t ->
  (if iab_any_nb t then check_bound_loop t (countdown (last_cap + 1)) else mret false) w =
    (Ok (bool_decide (~ (v_nb (view t) ∩ cr_bound (creds_of (kst w))) ⊆ ∅)), w).
Proof.
  intros Ht. destruct (iab_any_nb t) eqn:E.
  - rewrite (check_bound_loop_run _ _ _ (countdown_range _)). do 2 f_equal. apply eq_true_iff_eq.
    rewrite bool_decide_eq_true, existsb_exists. unfold view. cbn [v_nb]. split.
    + intros (x & _ & Hx%bool_decide_eq_true) Hsub. apply Hsub in Hx. by apply not_elem_of_empty in Hx.
    + intros Hno. destruct (set_choose_or_empty (vec_caps (iab_nb t) ∩ cr_bound (creds_of (kst w)))) as [[x Hx]|Hx].
      * exists x. rewrite bool_decide_eq_true. split; [|done]. apply list_elem_of_In, elem_of_countdown.
        apply elem_of_intersection in Hx as [_ Hx]. destruct (law_valid (kst w)) as (_ & Hb & _).
        apply Hb in Hx. rewrite elem_of_list_to_set, elem_of_seqZ in Hx. lia.
      * destruct Hno. apply leibniz_equiv in Hx. rewrite Hx. done.
  - rewrite ret_run, bool_decide_false; [done|]. intros Hno. apply Hno. unfold view. cbn [v_nb].
    rewrite (any_nb_spec _ Ht E). set_solver.
Qed.

Lemma bound_eq (B NB R : gset Z) :
  B ⊆ R -> B ∖ (if bool_decide (~ NB ∩ B ⊆ ∅) then NB ∩ R else ∅) = B ∖ NB.
Proof. intros. case_bool_decide; set_solver. Qed.

Lemma ambient_eq (A P I R : gset Z) : A ⊆ P -> A ⊆ I -> P ⊆ R -> (∅ ∪ A ∩ R) ∩ (P ∩ I) = A.
Proof. set_solver. Qed.

(** The kernel and errno moved, and two allocations were made and undone. *)
Definition done_twice (e : Z) (k : K) w : world K :=
  mkWorld (heap w) (next w + 32) [] e (glob w) k (out w).

(** The working copy of cap_iab_set_proc() was sent to the kernel: what the rest
    does, up to the releases. [n] is the number of the copy's capability that had
    to be raised. *)
Lemma iab_send_run sc t d b temp working e k w1 :
  temp = with_u (fun _ => with_inh t d) (proc_cap d) ->
  working = with_u (fun _ => working_words b t d) (proc_cap d) ->
  world_wf w1 -> heap w1 !! (next w1 - 16) = Some (OCap temp) -> direct sc w1 -> direct multithread w1 ->
  iab_wf t -> iab_inv t -> u_wf d -> (forall s, valid_set s -> caps_of d s = cr_set (creds_of k) s) ->
  (b = true <-> needs_setpcap (creds_of k) (view t)) ->
  capset_grants (creds_of k) (view t) -> ambient_ok (creds_of k) (view t) ->
  exists e' k', (ret ← cap_set_proc_sc sc (next w1);
      if negb (ret =? 0) then mret ret
      else
        ret ← cap_reset_ambient_sc sc;
        ret ← (if negb (ret =? 0) then mret ret
               else iab_set_loop sc t (bool_decide (~ (v_nb (view t) ∩ cr_bound (creds_of k)) ⊆ ∅))
                      (countdown (last_cap + 1)));
        _ ← cap_set_proc (next w1 - 16);
        mret ret) (holding working e k w1) = (Ok 0, holding working e' k' w1) /\
    creds_of k' = iab_creds (view t) (creds_of k).
Proof.
  intros -> -> Hw1 Hl Hd Hdm Ht Hinv Hu Hcaps Hb Hg [Hap Has].
  destruct (law_valid k) as (Hs & Hbk & HEP & _). pose proof (wf_next_ne_0 _ Hw1) as Hn1.
  destruct (working_words_spec b t d (creds_of k) Ht Hu Hcaps) as (Huw & HE & HP & HI).
  destruct (with_inh_spec t d Ht Hu) as (Hut & HtI & HtP & HtE).
  rewrite (Hcaps CAP_PERMITTED) in HtP by done. rewrite (Hcaps CAP_EFFECTIVE) in HtE by done. cbn in HtP, HtE.
  set (temp := with_u _ (proc_cap d)) in Hl. set (working := with_u _ (proc_cap d)).
  destruct (holding_set_proc_ok sc working e k w1 Hn1 eq_refl eq_refl eq_refl Hd) as (k1 & H1 & Hk1).
  { by apply (working_allowed b t d (creds_of k) Ht Hu Hcaps HEP Hb). }
  rewrite (bind_ok _ _ _ _ _ H1). cbn [Z.eqb negb].
  destruct (cap_reset_ambient_run sc (holding working e k1 w1) Hd) as (e2 & k2 & H2 & Hk2).
  rewrite (bind_ok _ _ _ _ _ H2). cbn [Z.eqb negb]. set (b' := bool_decide _).
  change (with_errno e2 (with_kst k2 (holding working e k1 w1))) with (holding working e2 k2 w1).
  change (c_u working) with (working_words b t d) in Hk1.
  cbn [kst holding] in Hk2. rewrite Hk1 in Hk2. unfold after_capset in Hk2. rewrite HE, HP, HI in Hk2.
  unfold with_amb in Hk2. cbn [cr_eff cr_perm cr_inh cr_bound cr_amb cr_secbits] in Hk2.
  destruct (iab_set_loop_run sc t b' (countdown (last_cap + 1)) (holding working e2 k2 w1) Hd Ht
    (countdown_range _)) as (k3 & H3 & Hk3).
  { cbn [kst holding]. rewrite Hk2. exact Hap. }
  { cbn [kst holding]. rewrite Hk2. exact Hinv. }
  { cbn [kst holding]. rewrite Hk2. exact Has. }
  { cbn [kst holding]. rewrite Hk2. cbn [cr_eff]. intros Hb'. assert (b = true) as ->.
    { apply Hb. right. by apply bool_decide_eq_true in Hb'. }
    apply elem_of_union_r. by apply elem_of_singleton_2. }
  rewrite (bind_ok _ _ _ _ _ H3). change (with_kst k3 (holding working e2 k2 w1)) with (holding working e2 k3 w1).
  cbn [kst holding] in Hk3. rewrite Hk2 in Hk3. unfold with_amb, with_bound in Hk3.
  cbn [cr_eff cr_perm cr_inh cr_bound cr_amb cr_secbits] in Hk3.
  pose proof (wf_ne_0 _ _ _ Hw1 Hl) as Hn0.
  destruct (live_set_proc_ok multithread (next w1 - 16) temp (holding working e2 k3 w1) Hn0
    (holding_ne _ _ _ _ _ _ Hw1 Hl) eq_refl eq_refl eq_refl Hdm) as (k4 & H4 & Hk4).
  { cbn [kst holding]. rewrite Hk3. change (c_u temp) with (with_inh t d).
    unfold capset_allowed. rewrite HtI, HtP, HtE. cbn [cr_eff cr_perm cr_inh cr_bound].
    split; [done|]. split; [done|]. split; [done|]. split; [right|]; apply gset_union_l. }
  unfold cap_set_proc. rewrite (bind_ok _ _ _ _ _ H4). rewrite ret_run. exists e2, k4. split; [done|].
  rewrite Hk4. cbn [kst holding]. rewrite Hk3. change (c_u temp) with (with_inh t d).
  unfold after_capset, iab_creds. rewrite HtI, HtP, HtE. cbn [cr_bound cr_amb cr_secbits v_i v_a v_nb view].
  assert (list_to_set (countdown (last_cap + 1)) = kernel_caps) as ->
    by (apply set_eq; intros x; unfold kernel_caps; by rewrite !elem_of_list_to_set, elem_of_countdown, elem_of_seqZ).
  f_equal; [|apply ambient_eq; [exact Hap|exact Hinv|]].
  - subst b'. by apply bound_eq.
  - exact (Hs CAP_PERMITTED).
Qed.

(** Whether anything is to be dropped, and whether CAP_SETPCAP is raised. *)
Definition drops (cr : creds) (v : iab_view) : bool := bool_decide (~ (v_nb v ∩ cr_bound cr) ⊆ ∅).
Definition raises (cr : creds) t (d : list capblk) : bool :=
  negb ((if drops cr (view t) then 1 else iab_raising t d) =? 0).

Lemma raises_spec cr t d :
  iab_wf t -> u_wf d -> (forall s, valid_set s -> caps_of d s = cr_set cr s) ->
  raises cr t d = true <-> needs_setpcap cr (view t).
Proof.
  intros Ht Hu Hcaps. pose proof (raising_spec t d Ht Hu) as Hr. rewrite !Hcaps in Hr by done.
  change (cr_set cr CAP_INHERITABLE) with (cr_inh cr) in Hr.
  change (cr_set cr CAP_PERMITTED) with (cr_perm cr) in Hr.
  change (vec_caps (iab_i t)) with (v_i (view t)) in Hr.
  unfold needs_setpcap, raises. rewrite negb_true_iff, Z.eqb_neq.
  destruct (drops cr (view t)) eqn:E; unfold drops in E.
  - apply bool_decide_eq_true in E. by intuition.
  - apply bool_decide_eq_false in E. rewrite Hr. tauto.
Qed.

(** The set the process ends with, and the copy that is sent first. *)
Definition temp_cap t d : cap_struct := with_u (fun _ => with_inh t d) (proc_cap d).
Definition working_cap b t d : cap_struct := with_u (fun _ => working_words b t d) (proc_cap d).

(** cap_iab_set_proc() up to the copy that is sent, in the world [w1] that holds
    the set the process ends with. *)
Lemma iab_setup_run sc p t d w :
  world_wf w -> mem_plenty w -> counted w -> heap w !! p = Some (OIab t) -> iab_wf t ->
  capget_self (kst w) d ->
  let cr := creds_of (kst w) in
  let w1 := holding (temp_cap t d) (errno w) (kst w) w in
  cap_iab_set_proc_sc sc p w = (ret ← (ret ← cap_set_proc_sc sc (next w1);
      if negb (ret =? 0) then mret ret
      else
        ret ← cap_reset_ambient_sc sc;
        ret ← (if negb (ret =? 0) then mret ret
               else iab_set_loop sc t (drops cr (view t)) (countdown (last_cap + 1)));
        _ ← cap_set_proc (next w);
        mret ret);
      _ ← cap_free (next w1); _ ← cap_free (next w); mret ret)
    (holding (working_cap (raises cr t d) t d) (errno w) (kst w) w1).
Proof.
  intros Hw Hm Hcnt Hp Ht Hdd cr w1. pose proof (wf_next_ne_0 _ Hw) as Hn.
  assert (u_wf d) as Hu by (destruct Hdd as (_ & ? & ?); by split).
  assert (mem_ok w /\ mem_ok w1) as [Hmem Hmem1] by (unfold mem_ok, w1; cbn [holding mem]; by rewrite Hm).
  destruct (with_inh_spec t d Ht Hu) as (Hut & _).
  assert (world_wf w1) as Hw1 by by apply holding_wf. pose proof (wf_next_ne_0 _ Hw1) as Hn1.
  assert (heap w1 !! next w = Some (OCap (temp_cap t d))) as Hl1 by apply holding_lookup.
  unfold cap_iab_set_proc_sc. rewrite (bind_ok _ _ _ _ _ (cap_get_proc_run d w Hn Hmem (law_probe _) Hdd)).
  destruct (Z.eqb_spec (next w) 0); [done|].
  rewrite (bind_ok _ _ _ _ _ (load_iab_run _ _ _ (holding_ne _ _ _ _ _ _ Hw Hp))).
  rewrite (bind_ok _ _ _ _ _ (load_cap_run _ _ _ (holding_lookup _ _ _ _))).
  rewrite (bind_ok _ _ _ _ _ (modify_cap_run _ _ _ _ (holding_lookup _ _ _ _))), holding_update.
  fold (with_inh t d). change (holding (with_u _ (proc_cap d)) (errno w) (kst w) w) with w1.
  unfold cap_max_bits. rewrite (bind_ok _ _ _ _ _ (gets_run _ _)).
  assert (g_max_bits (glob w1) = last_cap + 1) as -> by exact Hcnt.
  rewrite (bind_ok _ _ _ _ _ (check_bound_run t w1 Ht)).
  change (bool_decide (~ (v_nb (view t) ∩ cr_bound (creds_of (kst w1))) ⊆ ∅)) with (drops cr (view t)).
  rewrite (bind_ok _ _ _ _ _ (cap_dup_run (next w) _ w1 Hw1 Hl1 eq_refl Hmem1 (law_probe _))).
  destruct (Z.eqb_spec (next w1) 0); [done|]. rewrite <-holding_placed.
  change (negb ((if drops cr (view t) then 1 else iab_raising t (c_u (proc_cap d))) =? 0)) with (raises cr t d).
  assert ((if raises cr t d then cap_set_flag (next w1) CAP_EFFECTIVE 1 raise_cap_setpcap CAP_SET else mret 0)
    (holding (temp_cap t d) (errno w1) (kst w1) w1) =
    (Ok 0, holding (working_cap (raises cr t d) t d) (errno w) (kst w) w1)) as Hflag.
  { unfold working_cap, working_words. destruct (raises cr t d); [|done].
    by rewrite (holding_set_flag (temp_cap t d) _ _ _ CAP_EFFECTIVE CAP_SETPCAP Hn1 eq_refl Hut ltac:(done) ltac:(done)). }
  rewrite bind_bind, (bind_ok _ _ _ _ _ Hflag). cbn [Z.eqb negb]. done.
Qed.

Lemma cap_iab_set_proc_sc_run sc p t w :
  world_wf w -> mem_plenty w -> direct sc w -> direct multithread w -> counted w ->
  heap w !! p = Some (OIab t) -> iab_inv t ->
  (capset_grants (creds_of (kst w)) (view t) -> ambient_ok (creds_of (kst w)) (view t) ->
     exists e k, cap_iab_set_proc_sc sc p w = (Ok 0, done_twice e k w) /\
       creds_of k = iab_creds (view t) (creds_of (kst w))) /\
  (~ capset_grants (creds_of (kst w)) (view t) ->
     cap_iab_set_proc_sc sc p w = (Ok (-1), done_twice EPERM (kst w) w)).
Proof.
  intros Hw Hm Hd Hdm Hcnt Hp Hinv. destruct (live_iab _ _ _ Hw Hp) as [Ht _].
  destruct (law_capget (kst w)) as (d & Hdd & Hcaps). destruct (law_valid (kst w)) as (_ & _ & HEP & _).
  assert (u_wf d) as Hu by (destruct Hdd as (_ & ? & ?); by split).
  pose proof (raises_spec _ t d Ht Hu Hcaps) as Hb.
  rewrite (iab_setup_run sc p t d w Hw Hm Hcnt Hp Ht Hdd). set (b := raises _ t d) in *.
  set (w1 := holding (temp_cap t d) (errno w) (kst w) w).
  assert (world_wf w1) as Hw1 by (apply holding_wf; [done|by apply with_inh_spec]).
  pose proof (wf_next_ne_0 _ Hw) as Hn. pose proof (wf_next_ne_0 _ Hw1) as Hn1.
  assert (forall e k, cap_free (next w1) (holding (working_cap b t d) e k w1) = (Ok 0, done_with e k w1)) as Hf1
    by (intros; by apply holding_free).
  assert (forall e k, cap_free (next w) (done_with e k w1) = (Ok 0, done_twice e k w)) as Hf2.
  { intros e k. rewrite (cap_free_copy (next w) (OCap (temp_cap t d)));
      [|done|by apply (wf_next _ Hw)|apply (holding_lookup _ _ _ w)|done].
    pose proof (wf_fresh _ Hw). f_equal. unfold done_with, done_twice, w1, holding. world_eq; [lia|by rewrite Hm]. }
  assert (next w = next w1 - 16) as Hnw by (cbn; lia). split.
  - intros Hg Ha. destruct (iab_send_run sc t d b _ _ (errno w) (kst w) w1 eq_refl eq_refl Hw1) as (e & k & H & Hk);
      try done; [rewrite <-Hnw; apply (holding_lookup _ _ _ w)|].
    rewrite <-Hnw in H. rewrite (bind_ok _ _ _ _ _ H).
    rewrite (bind_ok _ _ _ _ _ (Hf1 _ _)), (bind_ok _ _ _ _ _ (Hf2 _ _)). by exists e, k.
  - intros Hg.
    assert (cap_set_proc_sc sc (next w1) (holding (working_cap b t d) (errno w) (kst w) w1) =
      (Ok (-1), holding (working_cap b t d) EPERM (kst w) w1)) as H.
    { apply (live_set_proc_refused sc (next w1) (working_cap b t d) _ Hn1 (holding_lookup _ _ _ _) eq_refl eq_refl eq_refl Hd).
      - by apply (working_words_spec b t d (creds_of (kst w)) Ht Hu Hcaps).
      - intros Hok. apply Hg. by apply (working_allowed b t d (creds_of (kst w)) Ht Hu Hcaps HEP Hb). }
    rewrite bind_bind, (bind_ok _ _ _ _ _ H). cbn [Z.eqb negb].
    rewrite (bind_ok _ _ _ _ _ (ret_run _ _)).
    rewrite (bind_ok _ _ _ _ _ (Hf1 _ _)), (bind_ok _ _ _ _ _ (Hf2 _ _)). done.
Qed.

(** C8 cap_iab_get_proc() makes, at a new address, the tuple of the process: I
    its inheritable and A its ambient capabilities, the bounding vector those of
    the kernel that its bounding set lacks; A lies within I, the tuple is
    unlocked, and nothing else has changed. *)
Theorem cap_iab_get_proc_correct w :
  world_wf w -> mem_plenty w -> counted w ->
  exists t, cap_iab_get_proc w = (Ok (next w),
      mkWorld (<[next w := OIab t]> (heap w)) (next w + 48) [] (errno w) (glob w) (kst w) (out w)) /\
    iab_wf t /\ iab_mutex t = false /\ iab_inv t /\ view t = creds_view (creds_of (kst w)).
Proof.
  intros Hw Hm Hc. destruct (cap_iab_get_proc_run w Hw Hm Hc) as (t & H & Ht & Hmu & Hv).
  exists t. split_and!; try done. unfold iab_inv. change (v_a (view t) ⊆ v_i (view t)). rewrite Hv.
  destruct (law_valid (kst w)) as (_ & _ & _ & Ha & _). cbn [creds_view v_a v_i].
  intros x Hx. by apply Ha, elem_of_intersection in Hx as [_ ?].
Qed.

Lemma cap_iab_set_proc_run p t w :
  world_wf w -> mem_plenty w -> direct multithread w -> counted w ->
  heap w !! p = Some (OIab t) -> iab_mutex t = false -> iab_inv t ->
  (capset_grants (creds_of (kst w)) (view t) -> ambient_ok (creds_of (kst w)) (view t) ->
     exists e k, cap_iab_set_proc p w = (Ok 0, done_twice e k w) /\
       creds_of k = iab_creds (view t) (creds_of (kst w))) /\
  (~ capset_grants (creds_of (kst w)) (view t) ->
     cap_iab_set_proc p w = (Ok (-1), done_twice EPERM (kst w) w)).
Proof.
  intros Hw Hm Hd Hcnt Hp Hmu Hinv. destruct (live_iab _ _ _ Hw Hp) as [Ht Hmag].
  unfold cap_iab_set_proc. run. rewrite Hmag. cbn [negb]. run. set (w0 := with_heap _ w).
  assert (world_wf w0) as Hw0 by exact (world_wf_insert p (OIab (iab_with_mutex true t)) _ w Hw Hp Ht).
  assert (heap w0 !! p = Some (OIab (iab_with_mutex true t))) as Hp0 by apply lookup_insert_eq.
  destruct (cap_iab_set_proc_sc_run multithread p _ w0 Hw0 Hm Hd Hd Hcnt Hp0 Hinv) as [Hok Hno].
  assert (forall r e k, (mu_unlock p;; mret r : M K Z) (done_twice e k w0) = (Ok r, done_twice e k w)) as Hun.
  { intros r e k. assert (heap (done_twice e k w0) !! p = Some (OIab (iab_with_mutex true t))) by done.
    run. rewrite ret_run. f_equal. unfold done_twice, w0. world_eq. }
  split.
  - intros Hg Ha. destruct (Hok Hg Ha) as (e & k & H & Hk). rewrite (bind_ok _ _ _ _ _ H).
    exists e, k. by rewrite Hun.
  - intros Hg. rewrite (bind_ok _ _ _ _ _ (Hno Hg)). by rewrite Hun.
Qed.


End iab_proc.
