(* ===== verification/IabText.v ===== *)
(** The text form of IAB tuples: the grammar of cap_iab_from_text(), what the
    parser makes of every text, and the round trip with cap_iab_to_text(). *)

From Stdlib Require Import ZArith Lia String Ascii.
From stdpp Require Import gmap list sets.
From S2P Require Import Prelude Capability World Exec Syscall Alloc Flag FlagSpec IabSpec Proc ProcSpec Text TextLex.
From S2P Require Import TextSpec TextParse TextPrint TextToText TextRound IabProcSpec.

Open Scope string_scope.
Open Scope Z_scope.

#[local] Arguments String.append !_ _ / : simpl nomatch.

(** *** Syntax and meaning *)

(** The prefixes: blocked, ambient (and inheritable), inheritable. *)
Inductive iab_prefix := PBlocked | PAmbient | PInherit.

Record iab_item := Item {
  it_prefixes : list iab_prefix;
  it_name : string;
  it_cap : Z
}.

Definition prefix_char (p : iab_prefix) : ascii :=
  match p with PBlocked => "!" | PAmbient => "^" | PInherit => "%" end.
Definition prefix_flag (p : iab_prefix) : Z :=
  match p with
  | PBlocked => LIBCAP_IAB_NB_FLAG | PAmbient => LIBCAP_IAB_IA_FLAG | PInherit => LIBCAP_IAB_I_FLAG
  end.

Definition show_prefixes (ps : list iab_prefix) (rest : string) : string :=
  foldr (fun p s => String (prefix_char p) s) rest ps.
Definition show_item (it : iab_item) : string := show_prefixes (it_prefixes it) (it_name it).
Fixpoint show_items (its : list iab_item) : string :=
  match its with
  | [] => ""
  | [it] => show_item it
  | it :: its => show_item it ++ "," ++ show_items its
  end.

Definition has_prefix (p : iab_prefix) (ps : list iab_prefix) : bool :=
  existsb (fun q => match p, q with
    | PBlocked, PBlocked | PAmbient, PAmbient | PInherit, PInherit => true | _, _ => false end) ps.

Definition with_cap (b : bool) (n : Z) (S : gset Z) : gset Z := if b then S ∪ {[n]} else S.

(** An item without a prefix is inheritable; an ambient one is inheritable too. *)
Definition item_view (v : iab_view) (it : iab_item) : iab_view :=
  let ps := it_prefixes it in
  mkView
    (with_cap (bool_decide (ps = []) || has_prefix PAmbient ps || has_prefix PInherit ps) (it_cap it) (v_i v))
    (with_cap (has_prefix PAmbient ps) (it_cap it) (v_a v))
    (with_cap (has_prefix PBlocked ps) (it_cap it) (v_nb v)).
Definition items_view (its : list iab_item) : iab_view := foldl item_view (mkView ∅ ∅ ∅) its.

Section iab_text.
Variable gperf : option (string -> option Z).
Implicit Types (t : cap_iab_s) (n f : Z) (s : string).

Definition item_ok (cmb : Z) (it : iab_item) : Prop := token_ok gperf cmb (it_name it) (it_cap it).

(** *** The parser *)

(** One turn of the loop on a token. *)
Definition take_cap (f n : Z) t : cap_iab_s :=
  let upd flag v := if has_flag f flag then upd_word (Z.shiftr n 5) (fun x => Z.lor x (bit32 n)) v else v in
  mkIab (iab_mutex t) (upd LIBCAP_IAB_I_FLAG (iab_i t)) (upd LIBCAP_IAB_A_FLAG (iab_a t))
    (upd LIBCAP_IAB_NB_FLAG (iab_nb t)).

Lemma take_cap_spec f n t :
  iab_wf t -> valid_cap n ->
  iab_wf (take_cap f n t) /\ view (take_cap f n t) =
    mkView (with_cap (has_flag f LIBCAP_IAB_I_FLAG) n (v_i (view t)))
      (with_cap (has_flag f LIBCAP_IAB_A_FLAG) n (v_a (view t)))
      (with_cap (has_flag f LIBCAP_IAB_NB_FLAG) n (v_nb (view t))).
Proof.
  intros (Hi & Ha & Hn) Hc. unfold take_cap, view, with_cap, iab_wf. cbn [iab_i iab_a iab_nb v_i v_a v_nb].
  split.
  - split_and!; case_match; auto using words_wf_or.
  - repeat case_match; rewrite ?vec_caps_or by done; done.
Qed.

(** Three bits of flags. *)
Definition prefixes_flag (f : Z) (ps : list iab_prefix) : Z := foldl (fun f p => Z.lor f (prefix_flag p)) f ps.

Lemma has_flag_lor a b f : has_flag (Z.lor a b) f = has_flag a f || has_flag b f.
Proof.
  unfold has_flag. rewrite Z.land_lor_distr_l. apply eq_true_iff_eq.
  rewrite orb_true_iff, !negb_true_iff, !Z.eqb_neq, Z.lor_eq_0_iff. destruct (Z.eq_dec (Z.land a f) 0); tauto.
Qed.

Lemma prefixes_flag_has f ps :
  has_flag (prefixes_flag f ps) LIBCAP_IAB_I_FLAG =
    has_flag f LIBCAP_IAB_I_FLAG || (has_prefix PAmbient ps || has_prefix PInherit ps) /\
  has_flag (prefixes_flag f ps) LIBCAP_IAB_A_FLAG = has_flag f LIBCAP_IAB_A_FLAG || has_prefix PAmbient ps /\
  has_flag (prefixes_flag f ps) LIBCAP_IAB_NB_FLAG = has_flag f LIBCAP_IAB_NB_FLAG || has_prefix PBlocked ps.
Proof.
  revert f. induction ps as [|p ps IH]; intros f; [by rewrite !orb_false_r|].
  cbn [prefixes_flag foldl]. fold (prefixes_flag (Z.lor f (prefix_flag p)) ps).
  destruct (IH (Z.lor f (prefix_flag p))) as (-> & -> & ->). rewrite !has_flag_lor. cbn [has_prefix existsb].
  fold (has_prefix PAmbient ps) (has_prefix PInherit ps) (has_prefix PBlocked ps).
  destruct p; cbn [prefix_flag];
    repeat match goal with |- context [has_flag ?a ?b] => is_ground a; is_ground b;
      let v := eval vm_compute in (has_flag a b) in change (has_flag a b) with v end;
    rewrite ?orb_false_r, ?orb_true_r, ?orb_false_l, <-?orb_assoc, ?orb_true_l; split_and!; try done.
Qed.

Lemma prefixes_flag_0 ps : prefixes_flag 0 ps = 0 <-> ps = [].
Proof.
  split; [|by intros ->]. intros H. destruct (prefixes_flag_has 0 ps) as (H1 & H2 & H3). rewrite H in *.
  change (has_flag 0 _) with false in *. cbn [orb] in *. destruct ps as [|[] ps]; try done.
  cbn in H1. by rewrite orb_true_r in H1.
Qed.

Lemma prefixes_run ps fuel cmb f rest t :
  iab_text_loop gperf (length ps + fuel) cmb f (show_prefixes ps rest) t =
  iab_text_loop gperf fuel cmb (prefixes_flag f ps) rest t.
Proof. revert f. induction ps as [|p ps IH]; intros f; [done|]. by destruct p; cbn; rewrite IH. Qed.

Lemma word_head_facts s : wordc (head s) = true ->
  at_end s = false /\ Ascii.eqb (head s) "!" = false /\ Ascii.eqb (head s) "^" = false /\ Ascii.eqb (head s) "%" = false.
Proof.
  intros H. unfold at_end, is_nul. split_and!; apply ascii_eqb_false; intros E; by rewrite E in H.
Qed.

Lemma token_turn fuel cmb f it rest t :
  item_ok cmb it -> delimited rest ->
  iab_text_loop gperf (S fuel) cmb f (it_name it ++ rest) t =
    let t := take_cap (if f =? 0 then LIBCAP_IAB_I_FLAG else f) (it_cap it) t in
    if at_end rest then PGood t else if negb (Ascii.eqb (head rest) ",") then PBad
    else iab_text_loop gperf fuel cmb 0 (tail rest) t.
Proof.
  intros (Hn & Hw & Ht) Hr. cbn [iab_text_loop].
  destruct (word_head_facts (it_name it ++ rest)) as (-> & -> & -> & ->); [by rewrite head_app|].
  by destruct (Ht rest Hr) as [-> _].
Qed.

(** What the flags of an item's prefixes do is what the item means. *)
Lemma take_item it t :
  iab_wf t -> valid_cap (it_cap it) ->
  let f := prefixes_flag 0 (it_prefixes it) in
  let t' := take_cap (if f =? 0 then LIBCAP_IAB_I_FLAG else f) (it_cap it) t in
  iab_wf t' /\ view t' = item_view (view t) it.
Proof.
  intros Ht Hn f t'. destruct (take_cap_spec (if f =? 0 then LIBCAP_IAB_I_FLAG else f) (it_cap it) t Ht Hn) as [Hwf Hv].
  split; [done|]. etrans; [exact Hv|]. unfold item_view. destruct (prefixes_flag_has 0 (it_prefixes it)) as (H1 & H2 & H3).
  fold f in H1, H2, H3. pose proof (prefixes_flag_0 (it_prefixes it)) as H0. fold f in H0.
  destruct (Z.eqb_spec f 0) as [E|E].
  - apply H0 in E as E'. rewrite E' in *. done.
  - rewrite H1, H2, H3. rewrite bool_decide_eq_false_2 by tauto. done.
Qed.

Lemma show_prefixes_length ps s : String.length (show_prefixes ps s) = (length ps + String.length s)%nat.
Proof. induction ps as [|p ps IH]; [done|]. simpl. by rewrite IH. Qed.
Lemma show_prefixes_app ps a b : show_prefixes ps a ++ b = show_prefixes ps (a ++ b).
Proof. induction ps as [|p ps IH]; [done|]. simpl. by rewrite IH. Qed.

Lemma items_run cmb its fuel t :
  Forall (item_ok cmb) its -> iab_wf t -> (String.length (show_items its) < fuel)%nat ->
  exists t', iab_text_loop gperf fuel cmb 0 (show_items its) t = PGood t' /\ iab_wf t' /\
    iab_mutex t' = iab_mutex t /\ view t' = foldl item_view (view t) its.
Proof.
  intros Hits. revert fuel t. induction Hits as [|it its Hit Hits IH]; intros fuel t Ht Hf.
  { destruct fuel; [simpl in Hf; lia|]. by exists t. }
  pose proof Hit as (Hn & Hw & _). destruct (take_item it t Ht Hn) as [Hwf Hv].
  assert (0 < String.length (it_name it))%nat as Hlen by (destruct (it_name it); [done|simpl; lia]).
  set (t1 := take_cap _ _ t) in *. change (iab_mutex t) with (iab_mutex t1). cbn [foldl]. rewrite <-Hv.
  destruct its as [|it' its].
  - change (show_items [it]) with (show_item it) in *. unfold show_item in *. rewrite show_prefixes_length in Hf.
    replace fuel with (length (it_prefixes it) + S (fuel - length (it_prefixes it) - 1))%nat by lia.
    rewrite prefixes_run. rewrite <-(str_app_nil_r (it_name it)), token_turn by done. by exists t1.
  - change (show_items (it :: it' :: its)) with (show_item it ++ "," ++ show_items (it' :: its)) in *.
    set (rest := show_items (it' :: its)) in *. unfold show_item in *. rewrite show_prefixes_app in *.
    rewrite show_prefixes_length, str_length_app in Hf. change (String.length ("," ++ rest)) with (S (String.length rest)) in Hf.
    destruct (IH (fuel - length (it_prefixes it) - 1)%nat t1 Hwf ltac:(lia)) as (t' & Hgo & H).
    exists t'. split; [|done]. rewrite <-Hgo.
    replace fuel with (length (it_prefixes it) + S (fuel - length (it_prefixes it) - 1))%nat at 1 by lia.
    rewrite prefixes_run. by rewrite token_turn.
Qed.

(** *** Every text *)

Lemma lookupname_any cmb s n r :
  gperf_ok gperf -> lookupname gperf cmb s = Some (n, r) -> valid_cap n /\ (String.length r < String.length s)%nat.
Proof.
  intros Hg H. destruct (wordc (head s)) eqn:Hw; [by eapply lookupname_progress|].
  unfold wordc, isalnum in Hw. apply orb_false_iff in Hw as [[Ha Hd]%orb_false_iff Hu].
  unfold lookupname in H. rewrite Hd in H. destruct gperf as [f|] eqn:Eg.
  - assert (span_name s = ("", s)) as E by (destruct s as [|c s]; [done|]; cbn in *; by rewrite Ha, Hu).
    rewrite E in H. destruct (f "") as [n'|] eqn:Ef; [|done]. apply Hg in Ef as [Hn E'].
    destruct (cap_names_facts n' Hn) as (_ & _ & _ & Hw' & _). by rewrite <-E' in Hw'.
  - apply name_loop_progress in H as [Hn Hl]; [|destruct (Z.ltb_spec CAP_BITS cmb); lia].
    split; [|done]. unfold valid_cap. change CAP_BITS with 41 in Hn. change CAP_MAXBITS with 64. lia.
Qed.

(** The flags that collect never hold the ambient one alone. *)
Definition flags_ok f : Prop := has_flag f LIBCAP_IAB_A_FLAG = true -> has_flag f LIBCAP_IAB_I_FLAG = true.

Lemma flags_ok_lor f p : flags_ok f -> flags_ok (Z.lor f (prefix_flag p)).
Proof.
  unfold flags_ok. rewrite !has_flag_lor, !orb_true_iff. intros H [Ha|Ha]; [tauto|]. right. by destruct p.
Qed.

Lemma take_cap_inv f n t : iab_wf t -> valid_cap n -> flags_ok f -> iab_inv t -> iab_inv (take_cap f n t).
Proof.
  intros Ht Hn Hf Hinv. destruct (take_cap_spec f n t Ht Hn) as [_ Hv].
  change (v_a (view (take_cap f n t)) ⊆ v_i (view (take_cap f n t))). rewrite Hv. cbn [v_a v_i view].
  unfold iab_inv in Hinv. unfold with_cap, flags_ok in *. destruct (has_flag f LIBCAP_IAB_A_FLAG).
  - rewrite Hf by done. by apply union_mono_r.
  - case_match; [|done]. by apply union_subseteq_l'.
Qed.

Definition good_tuple (m : bool) t : Prop := iab_wf t /\ iab_inv t /\ iab_mutex t = m.

Lemma iab_text_total fuel cmb f s t m :
  gperf_ok gperf -> (String.length s < fuel)%nat -> flags_ok f -> good_tuple m t ->
  reads (good_tuple m) (iab_text_loop gperf fuel cmb f s t).
Proof.
  intros Hg. revert f s t. induction fuel as [|fuel IH]; intros f s t Hlen Hf Ht; [lia|]. cbn [iab_text_loop].
  destruct (at_end s) eqn:E; [done|]. assert (String.length (tail s) < fuel)%nat by (destruct s; [done|simpl in *; lia]).
  destruct (Ascii.eqb (head s) "!"); [apply IH; [done|by apply (flags_ok_lor f PBlocked)|done]|].
  destruct (Ascii.eqb (head s) "^"); [apply IH; [done|by apply (flags_ok_lor f PAmbient)|done]|].
  destruct (Ascii.eqb (head s) "%"); [apply IH; [done|by apply (flags_ok_lor f PInherit)|done]|].
  destruct (lookupname gperf cmb s) as [[n r]|] eqn:El; [|done]. apply lookupname_any in El as [Hn Hr]; [|done].
  set (f' := if f =? 0 then LIBCAP_IAB_I_FLAG else f).
  assert (flags_ok f') as Hf' by (unfold f'; by case_match).
  fold (take_cap f' n t). assert (good_tuple m (take_cap f' n t)) as Ht'.
  { destruct Ht as (Hwf & Hinv & Hm). split_and!; [by apply take_cap_spec|by apply take_cap_inv|done]. }
  destruct (at_end r); [done|]. destruct (Ascii.eqb (head r) ","); cbn [negb]; [|done].
  apply IH; [pose proof (length_tail r); lia|done|done].
Qed.

End iab_text.

(** *** What cap_iab_to_text() writes *)

Section printed.
Implicit Types (t : cap_iab_s) (n c : Z) (l : list Z) (buf : string).

Definition item_for t c : option iab_item :=
  let ib := has_bit (iab_i t) c in let ab := has_bit (iab_a t) c in let nbb := has_bit (iab_nb t) c in
  if nbb || ab || ib
  then Some (Item ((if nbb then [PBlocked] else []) ++
                   (if ab then [PAmbient] else if nbb && ib then [PInherit] else [])) (cap_token c) c)
  else None.
Definition items_of t l : list iab_item := omap (item_for t) l.

Definition comma_items (its : list iab_item) : string := foldr (fun it s => "," ++ show_item it ++ s) "" its.

Lemma show_items_cons it its : show_items (it :: its) = show_item it ++ comma_items its.
Proof.
  revert it. induction its as [|it' its IH]; intros it; [cbn; by rewrite str_app_nil_r|].
  change (show_items (it :: it' :: its)) with (show_item it ++ "," ++ show_items (it' :: its)). by rewrite IH.
Qed.

Lemma iab_piece_item t c first :
  iab_piece t c first = (fun it => (if first then "" else ",") ++ show_item it) <$> item_for t c.
Proof.
  unfold iab_piece, item_for, show_item. destruct (has_bit (iab_nb t) c), (has_bit (iab_a t) c), (has_bit (iab_i t) c);
    destruct first; reflexivity.
Qed.

Lemma show_item_len t c it : valid_cap c -> item_for t c = Some it -> strlen (show_item it) <= strlen (cap_token c) + 2.
Proof.
  unfold item_for. destruct (_ || _); [|done]. intros Hc [= <-]. unfold show_item. cbn [it_prefixes it_name].
  unfold strlen. rewrite show_prefixes_length, length_app. repeat case_match; cbn [length]; lia.
Qed.

(** The room of the pieces. *)
Definition pieces_len l : Z := sumZ (fun n => strlen (cap_token n) + 3) l.

Lemma items_of_cons t c l :
  items_of t (c :: l) = match item_for t c with Some it => it :: items_of t l | None => items_of t l end.
Proof. done. Qed.
Lemma pieces_len_cons c l : pieces_len (c :: l) = strlen (cap_token c) + 3 + pieces_len l.
Proof. done. Qed.

Lemma iab_to_text_loop_run {K} `{!Kernel K} t l first buf (w : world K) :
  Forall valid_cap l -> strlen buf + pieces_len l + 1 <= CAP_TEXT_SIZE + CAP_TEXT_BUFFER_ZONE ->
  iab_to_text_loop t l first buf w =
    (Ok (buf ++ (if first then show_items (items_of t l) else comma_items (items_of t l))), w).
Proof.
  intros Hl. revert first buf. induction Hl as [|c l Hc _ IH]; intros first buf Hlen.
  - cbn. destruct first; by rewrite str_app_nil_r.
  - cbn [iab_to_text_loop]. rewrite iab_piece_item, items_of_cons. rewrite pieces_len_cons in Hlen. pose proof (strlen_pos (cap_token c)).
    destruct (item_for t c) as [it|] eqn:E; cbn [fmap option_fmap option_map]; [|apply IH; lia].
    pose proof (show_item_len _ _ _ Hc E) as Hi.
    assert (0 <= pieces_len l) by (apply sumZ_nonneg; intros x; pose proof (strlen_pos (cap_token x)); lia).
    assert (strlen ((if first then "" else ",") ++ show_item it) <= 1 + strlen (show_item it)) as Hp
      by (rewrite strlen_app; destruct first; [change (strlen "") with 0|change (strlen ",") with 1]; lia).
    erewrite bind_ok; [|apply put_run; lia]. rewrite IH by (rewrite strlen_app; lia).
    rewrite !str_app_assoc. destruct first; [by rewrite show_items_cons|done].
Qed.

Lemma show_items_fit t l : Forall valid_cap l -> strlen (show_items (items_of t l)) <= pieces_len l.
Proof.
  intros Hl. etrans; [|instantiate (1 := strlen (comma_items (items_of t l)))].
  { destruct (items_of t l) as [|it its]; [done|]. rewrite show_items_cons. cbn [comma_items foldr].
    fold (comma_items its). rewrite !strlen_app. pose proof (strlen_pos ","). lia. }
  induction Hl as [|c l Hc _ IH]; [done|]. rewrite items_of_cons, pieces_len_cons. pose proof (strlen_pos (cap_token c)).
  destruct (item_for t c) as [it|] eqn:E; [|lia]. pose proof (show_item_len _ _ _ Hc E).
  cbn [comma_items foldr]. fold (comma_items (items_of t l)). rewrite !strlen_app. change (strlen ",") with 1. lia.
Qed.

Lemma pieces_fit cmb : 0 <= cmb <= CAP_MAXBITS -> pieces_len (seqZ 0 cmb) <= 1400.
Proof.
  intros H. assert (pieces_len (seqZ 0 CAP_MAXBITS) <= 1400) as Hm by (apply Z.leb_le; vm_compute; reflexivity).
  rewrite (seqZ_split cmb) in Hm by done. unfold pieces_len in *. rewrite sumZ_app in Hm.
  assert (0 <= sumZ (fun n => strlen (cap_token n) + 3) (seqZ cmb (CAP_MAXBITS - cmb))); [|lia].
  apply sumZ_nonneg. intros x. pose proof (strlen_pos (cap_token x)). lia.
Qed.

Lemma items_of_ok gperf cmb t :
  gperf_ok gperf -> 0 <= cmb <= CAP_MAXBITS -> Forall (item_ok gperf cmb) (items_of t (seqZ 0 cmb)).
Proof.
  intros Hg Hcmb. apply Forall_forall. intros it. unfold items_of. rewrite list_elem_of_omap.
  intros (c & Hc%elem_of_seqZ & E). unfold item_for in E. destruct (_ || _); [|done]. injection E as <-.
  unfold item_ok. cbn [it_name it_cap]. apply cap_token_ok; [done|unfold valid_cap; lia|]. intros _. left. lia.
Qed.

(** The items of a tuple mean the tuple. *)
Lemma item_for_view t c v :
  iab_inv t -> valid_cap c ->
  match item_for t c with Some it => item_view v it | None => v end =
    mkView (with_cap (has_bit (iab_i t) c) c (v_i v)) (with_cap (has_bit (iab_a t) c) c (v_a v))
      (with_cap (has_bit (iab_nb t) c) c (v_nb v)).
Proof.
  intros Hinv Hc. assert (has_bit (iab_a t) c = true -> has_bit (iab_i t) c = true) as H.
  { rewrite !has_bit_spec, !bool_decide_eq_true by done. apply Hinv. }
  unfold item_for. destruct v as [i a nb].
  destruct (has_bit (iab_nb t) c), (has_bit (iab_a t) c), (has_bit (iab_i t) c); (try by specialize (H eq_refl)); reflexivity.
Qed.

Lemma elem_of_with_cap b n (S : gset Z) x : x ∈ with_cap b n S <-> x ∈ S \/ (b = true /\ x = n).
Proof. unfold with_cap. destruct b; rewrite ?elem_of_union, ?elem_of_singleton; intuition congruence. Qed.

Lemma items_of_view t l v :
  iab_inv t -> Forall valid_cap l ->
  let r := foldl item_view v (items_of t l) in
  forall x, (x ∈ v_i r <-> x ∈ v_i v \/ (x ∈ l /\ x ∈ vec_caps (iab_i t))) /\
    (x ∈ v_a r <-> x ∈ v_a v \/ (x ∈ l /\ x ∈ vec_caps (iab_a t))) /\
    (x ∈ v_nb r <-> x ∈ v_nb v \/ (x ∈ l /\ x ∈ vec_caps (iab_nb t))).
Proof.
  intros Hinv Hl. revert v. induction Hl as [|c l Hc _ IH]; intros v r x.
  { unfold r. cbn. pose proof (not_elem_of_nil x). tauto. }
  assert (r = foldl item_view (match item_for t c with Some it => item_view v it | None => v end) (items_of t l)) as ->.
  { unfold r. rewrite items_of_cons. by destruct (item_for t c). }
  rewrite item_for_view by done. destruct (IH (mkView (with_cap (has_bit (iab_i t) c) c (v_i v))
    (with_cap (has_bit (iab_a t) c) c (v_a v)) (with_cap (has_bit (iab_nb t) c) c (v_nb v))) x) as (H1 & H2 & H3).
  rewrite H1, H2, H3. cbn [v_i v_a v_nb]. rewrite !elem_of_with_cap, !has_bit_spec, !bool_decide_eq_true, !elem_of_cons by done.
  split_and!; (split; [intros [[?|[? ->]]|[? ?]]; tauto|intros [?|[[->|?] ?]]; tauto]).
Qed.

End printed.

(** *** The operations *)

Section ops.
Context {K : Type} `{!Kernel K}.
Variable gperf : option (string -> option Z).
Implicit Types (w : world K) (t : cap_iab_s) (p : Z).

Lemma iab0_good : good_tuple false iab0 /\ view iab0 = mkView ∅ ∅ ∅.
Proof.
  assert (words_wf [0; 0]) by (apply words_wf_pair; apply is_u32_0).
  split; [|unfold view; cbn; by rewrite vec_caps_zero]. split_and!; try done. unfold iab_inv. cbn. by rewrite vec_caps_zero.
Qed.

Lemma cap_iab_from_text_step s w :
  text_world w ->
  cap_iab_from_text gperf (Some s) w =
    match iab_text_loop gperf (S (String.length s)) (g_max_bits (glob w)) 0 s iab0 with
    | PGood t => (Ok (next w), placed (OIab t) w)
    | PBad => (Ok 0, with_errno EINVAL (spent w))
    | PSpin => (Spin, placed (OIab iab0) w)
    end.
Proof.
  intros (Hw & Hm & _). pose proof (wf_next_ne_0 _ Hw) as Hn.
  assert (mem_ok w) as Hok by (unfold mem_ok; by rewrite Hm).
  unfold cap_iab_from_text, cap_iab_init. rewrite (bind_ok _ _ _ _ _ (alloc_run _ _ Hok)).
  destruct (Z.eqb_spec (next w) 0); [done|]. unfold cap_max_bits. run. cbn [glob placed].
  destruct (iab_text_loop _ _ _ _ _ _) as [t| |].
  - run. rewrite ret_run. f_equal. unfold placed, with_heap. cbn. f_equal. by rewrite insert_insert_eq.
  - rewrite (bind_ok _ _ _ _ _ (cap_free_copy (next w) (OIab iab0) (placed (OIab iab0) w) Hn
      (proj2 (wf_next _ Hw)) (lookup_insert_eq _ _ _) eq_refl)).
    rewrite free_placed by done. by run.
  - done.
Qed.

(** C35 cap_iab_from_text() ends on every string, and on NULL: with a new,
    unlocked, well-formed tuple whose ambient vector lies within the inheritable
    one, or with NULL, EINVAL and the heap as it was. On a text of its grammar -
    items of prefixes and a name or number, a comma between two - the tuple is
    the one that the items describe. *)
Theorem cap_iab_from_text_correct str w :
  text_world w -> gperf_ok gperf ->
  ((exists t, cap_iab_from_text gperf str w = (Ok (next w), placed (OIab t) w) /\
      iab_wf t /\ iab_inv t /\ iab_mutex t = false) \/
   (exists w', cap_iab_from_text gperf str w = (Ok 0, with_errno EINVAL w') /\ later w w')) /\
  (forall its, str = Some (show_items its) -> Forall (item_ok gperf (g_max_bits (glob w))) its ->
     exists t, cap_iab_from_text gperf str w = (Ok (next w), placed (OIab t) w) /\ view t = items_view its).
Proof.
  intros Hw Hg. pose proof Hw as (Hwf & Hm & _). destruct iab0_good as [H0 Hv0].
  assert (mem_ok w) as Hok by (unfold mem_ok; by rewrite Hm). split.
  - destruct str as [s|].
    2: { left. exists iab0. split; [|done]. unfold cap_iab_from_text, cap_iab_init.
         rewrite (bind_ok _ _ _ _ _ (alloc_run _ _ Hok)).
         by destruct (Z.eqb_spec (next w) 0); [apply wf_next_ne_0 in Hwf|]. }
    rewrite cap_iab_from_text_step by done.
    pose proof (iab_text_total gperf (S (String.length s)) (g_max_bits (glob w)) 0 s iab0 false Hg ltac:(lia) ltac:(done) H0) as H.
    destruct (iab_text_loop _ _ _ _ _ _) as [t| |]; [left; by exists t| |done].
    right. exists (spent w). split; [done|]. by apply spent_later.
  - intros its -> Hits. rewrite cap_iab_from_text_step by done.
    destruct (items_run gperf (g_max_bits (glob w)) its (S (String.length (show_items its))) iab0 Hits)
      as (t & -> & _ & _ & Hv); [apply H0|lia|]. exists t. split; [done|]. rewrite Hv, Hv0. done.
Qed.

Lemma cap_iab_to_text_run p t w :
  text_world w -> heap w !! p = Some (OIab t) -> iab_mutex t = false ->
  cap_iab_to_text p w =
    (Ok (next w), placed (OStr (show_items (items_of t (seqZ 0 (g_max_bits (glob w)))))) w).
Proof.
  intros (Hwf & Hm & Hk & Hcmb) Ht Hlock. set (cmb := g_max_bits (glob w)) in *.
  destruct (live_iab _ _ _ Hwf Ht) as [_ Hmag]. pose proof (pieces_fit cmb ltac:(lia)) as Hfit.
  assert (Forall valid_cap (seqZ 0 cmb)) as Hv
    by (apply Forall_forall; intros x; rewrite elem_of_seqZ; unfold valid_cap; lia).
  assert (strlen "" + pieces_len (seqZ 0 cmb) + 1 <= CAP_TEXT_SIZE + CAP_TEXT_BUFFER_ZONE) as Hroom
    by (change (strlen "") with 0; change (CAP_TEXT_SIZE + CAP_TEXT_BUFFER_ZONE) with 1572; lia).
  unfold cap_iab_to_text, cap_max_bits. run. rewrite Hmag. run.
  erewrite bind_ok; [|by apply (iab_to_text_loop_run _ (seqZ 0 cmb) true "")]. run.
  match goal with |- context [with_heap ?h w] => assert (with_heap h w = w) as -> end.
  { apply with_heap_restore. heap_eq. }
  change ("" ++ ?s) with s. apply libcap_strdup_run; [|by apply wf_next_ne_0|by unfold mem_ok; rewrite Hm].
  pose proof (show_items_fit t (seqZ 0 cmb) Hv). unfold strlen in *. lia.
Qed.

Lemma tuple_eq t t' :
  iab_wf t -> iab_wf t' -> iab_mutex t = iab_mutex t' -> view t = view t' -> t = t'.
Proof.
  intros (Hi & Ha & Hn) (Hi' & Ha' & Hn') Hm (Ei & Ea & En)%view_eq.
  apply vec_caps_inj in Ei, Ea, En; [|done..]. destruct t, t'. cbn in *. congruence.
Qed.

(** All of a tuple within the kernel's capabilities is in its items. *)
Lemma items_view_of t cmb :
  cmb <= CAP_MAXBITS -> iab_inv t -> vec_caps (iab_i t) ∪ vec_caps (iab_nb t) ⊆ named_set cmb ->
  items_view (items_of t (seqZ 0 cmb)) = view t.
Proof.
  intros Hcmb Hinv Hsub. unfold items_view.
  assert (Forall valid_cap (seqZ 0 cmb)) as Hv
    by (apply Forall_forall; intros x; rewrite elem_of_seqZ; unfold valid_cap; lia).
  pose proof (items_of_view t (seqZ 0 cmb) (mkView ∅ ∅ ∅) Hinv Hv) as H. cbv zeta in H.
  destruct (foldl item_view _ _) as [i a nb]. unfold view. cbn [v_i v_a v_nb] in H.
  assert (forall x, x ∈ vec_caps (iab_i t) \/ x ∈ vec_caps (iab_nb t) -> x ∈ seqZ 0 cmb) as Hin.
  { intros x Hx. rewrite <-elem_of_union in Hx. apply Hsub, named_set_iff in Hx. apply elem_of_seqZ. lia. }
  f_equal; apply set_eq; intros x; destruct (H x) as (H1 & H2 & H3); rewrite ?H1, ?H2, ?H3, elem_of_empty; pose proof (Hin x).
  - tauto.
  - pose proof (Hinv x). tauto.
  - tauto.
Qed.

(** C34 IAB text round trip: cap_iab_to_text() writes a text for every unlocked
    tuple, within its buffer, and leaves the tuple as it was; and from a tuple
    within the kernel's capabilities that satisfies the invariant,
    cap_iab_from_text() of the text makes an equal tuple, the prefixes !, ^ and
    % included. For anything but a tuple the text is empty. *)
Theorem cap_iab_text_roundtrip p w :
  text_world w -> gperf_ok gperf ->
  (forall t, heap w !! p = Some (OIab t) -> iab_mutex t = false -> iab_inv t ->
     vec_caps (iab_i t) ∪ vec_caps (iab_nb t) ⊆ named_set (g_max_bits (glob w)) ->
     exists s w1, cap_iab_to_text p w = (Ok (next w), w1) /\ w1 = placed (OStr s) w /\
       cap_iab_from_text gperf (Some s) w1 = (Ok (next w1), placed (OIab t) w1)) /\
  (magic_at (heap w) p <> CAP_IAB_MAGIC ->
     cap_iab_to_text p w = (Ok (next w), placed (OStr "") w)).
Proof.
  intros Hw Hg. pose proof Hw as (Hwf & Hm & Hk & Hcmb). set (cmb := g_max_bits (glob w)) in *.
  assert (mem_ok w) as Hok by (unfold mem_ok; by rewrite Hm). pose proof (wf_next_ne_0 _ Hwf) as Hn. split.
  2: { intros Hp. unfold cap_iab_to_text, cap_max_bits. run. apply Z.eqb_neq in Hp as ->. run.
       by apply libcap_strdup_run. }
  intros t Ht Hlock Hinv Hsub. destruct (live_iab _ _ _ Hwf Ht) as [Htw Hmag].
  set (s := show_items (items_of t (seqZ 0 cmb))).
  assert (Forall valid_cap (seqZ 0 cmb)) as Hv
    by (apply Forall_forall; intros x; rewrite elem_of_seqZ; unfold valid_cap; lia).
  assert (cap_iab_to_text p w = (Ok (next w), placed (OStr s) w)) as E by by apply cap_iab_to_text_run.
  destruct (items_run gperf cmb (items_of t (seqZ 0 cmb)) (S (String.length s)) iab0) as (t' & Hrun & Htw' & Hlock' & Hv');
    [by apply items_of_ok; [done|lia]|apply iab0_good|fold s; lia|].
  exists s, (placed (OStr s) w). split; [done|]. split; [done|].
  rewrite cap_iab_from_text_step by by apply text_world_placed. cbn [glob placed]. fold cmb. fold s in Hrun. rewrite Hrun.
  assert (t' = t) as ->; [|done]. rewrite (proj2 iab0_good) in Hv'. apply tuple_eq; [done|done|by rewrite Hlock'|].
  rewrite Hv'. apply items_view_of; [lia|done..].
Qed.

End ops.
