(* ===== verification/Psx.v ===== *)
(** psx/psx.c and psx/psx_calls.c: one system call on every thread of the
    process. The tracker and its hash map of threads are data; what a thread
    does between two locks of the tracker is one step of a transition system
    whose threads interleave, create threads, exit and are interrupted by the
    signal at any point. *)

From stdpp Require Import gmap list.
From Stdlib Require Import ZArith Lia.
From S2P Require Import Prelude.

Open Scope Z_scope.

(** ** The tracker *)

(** [psx_thread_ref_t] *)
Record thread_ref := mkRef { x_sweep : Z; x_pending : Z; x_tid : Z; x_retval : Z }.
Definition ref0 : thread_ref := mkRef 0 0 0 0.

Inductive tracker_state := PSX_IDLE | PSX_SETUP | PSX_SYSCALL | PSX_EXITING.
#[global] Instance tracker_state_eq_dec : EqDecision tracker_state.
Proof. solve_decision. Defined.

Definition PSX_IGNORE : Z := 0.
Definition PSX_WARNING : Z := 1.
Definition PSX_ERROR : Z := 2.

(** [psx_tracker.cmd]; [c_args] are arg1 to arg6. *)
Record psx_cmd := mkCmd { c_nr : Z; c_args : list Z; c_six : bool; c_active : bool }.
Definition cmd0 : psx_cmd := mkCmd 0 [0; 0; 0; 0; 0; 0] false false.

(** What rt_sigaction(2) sets: the handler's address, flags and restorer. *)
Record sigact := mkSigact { sa_handler : Z; sa_flags : Z; sa_restorer : Z }.
Definition sigact0 : sigact := mkSigact 0 0 0.

(** [psx_tracker_t]; [t_map] holds map_entries references. *)
Record tracker := mkTracker {
  t_pid : Z;
  t_mu : Z;
  t_state : tracker_state;
  t_initialized : bool;
  t_incomplete : Z;
  t_sensitivity : Z;
  t_cmd : psx_cmd;
  t_sig_action : sigact;
  t_chained_action : sigact;
  t_map : list thread_ref
}.
Definition tracker0 : tracker :=
  mkTracker 0 0 PSX_IDLE false 0 PSX_IGNORE cmd0 sigact0 sigact0 [].

Implicit Types (tr : tracker) (tid pid : Z).

Definition set_mu v tr := mkTracker (t_pid tr) v (t_state tr) (t_initialized tr) (t_incomplete tr)
  (t_sensitivity tr) (t_cmd tr) (t_sig_action tr) (t_chained_action tr) (t_map tr).
Definition set_state v tr := mkTracker (t_pid tr) (t_mu tr) v (t_initialized tr) (t_incomplete tr)
  (t_sensitivity tr) (t_cmd tr) (t_sig_action tr) (t_chained_action tr) (t_map tr).
Definition set_incomplete v tr := mkTracker (t_pid tr) (t_mu tr) (t_state tr) (t_initialized tr) v
  (t_sensitivity tr) (t_cmd tr) (t_sig_action tr) (t_chained_action tr) (t_map tr).
Definition set_sensitivity v tr := mkTracker (t_pid tr) (t_mu tr) (t_state tr) (t_initialized tr) (t_incomplete tr)
  v (t_cmd tr) (t_sig_action tr) (t_chained_action tr) (t_map tr).
Definition set_cmd v tr := mkTracker (t_pid tr) (t_mu tr) (t_state tr) (t_initialized tr) (t_incomplete tr)
  (t_sensitivity tr) v (t_sig_action tr) (t_chained_action tr) (t_map tr).
Definition set_active b tr :=
  set_cmd (mkCmd (c_nr (t_cmd tr)) (c_args (t_cmd tr)) (c_six (t_cmd tr)) b) tr.
Definition set_map v tr := mkTracker (t_pid tr) (t_mu tr) (t_state tr) (t_initialized tr) (t_incomplete tr)
  (t_sensitivity tr) (t_cmd tr) (t_sig_action tr) (t_chained_action tr) v.
Definition active tr : bool := c_active (t_cmd tr).

(** *** The map of threads *)

Definition psx_mix (value : Z) : Z :=
  Z.lxor (Z.lxor (Z.lxor value (Z.shiftr value 7)) (Z.shiftr value 13)) (Z.shiftr value 23).

Definition psx_set_map (size : Z) : list thread_ref := replicate (Z.to_nat size) ref0.

(** [&map[psx_mix(tid) & map_mask]] *)
Definition slot (m : list thread_ref) tid : nat :=
  Z.to_nat (Z.land (psx_mix tid) (Z.of_nat (length m) - 1)).
Definition ref_at (m : list thread_ref) tid : thread_ref := default ref0 (m !! slot m tid).
Definition upd_ref (f : thread_ref -> thread_ref) tid (m : list thread_ref) : list thread_ref :=
  alter f (slot m tid) m.

(** How many times a long can be doubled. *)
Definition LONG_BITS : nat := 63.

(** [for (oval = psx_mix(x->tid); ; entries <<= 1)]: the first size at which the
    two threads no longer collide. *)
Fixpoint grow_entries (fuel : nat) (oval mix entries : Z) : option Z :=
  match fuel with
  | O => None
  | S fuel =>
      if negb (Z.land (Z.lxor oval mix) (entries - 1) =? 0) then Some entries
      else grow_entries fuel oval mix (Z.shiftl entries 1)
  end.

(** The copy of the old map to the new one. *)
Definition rehash_one (ok_sweep : Z) (m : list thread_ref) (y : thread_ref) : list thread_ref :=
  if x_sweep y <? ok_sweep then m
  else upd_ref (fun _ => mkRef (x_sweep y) (x_pending y) (x_tid y) (x_retval y)) (x_tid y) m.
Definition rehash (entries ok_sweep : Z) (old : list thread_ref) : list thread_ref :=
  foldl (rehash_one ok_sweep) (psx_set_map entries) old.

(** *** Start, lock and unlock *)

Definition psx_syscall_start tr : tracker :=
  mkTracker (t_pid tr) (t_mu tr) (t_state tr) true (t_incomplete tr)
    (t_sensitivity tr) (t_cmd tr) sigact0 sigact0 (psx_set_map 256).

(** psx_lock() by a thread of process [pid]: the exchange of the lock's word, and
    when that takes the lock - the word was not [pid] - the check of the process.
    [None]: the lock is taken; the loop goes round after a sched_yield(). *)
Definition psx_lock pid tr : option tracker :=
  if t_mu tr =? pid then None
  else
    let tr := set_mu pid tr in
    Some (if negb (t_pid tr =? pid) then
            let tr := if t_initialized tr then tr else psx_syscall_start tr in
            let tr := mkTracker pid (t_mu tr) PSX_IDLE (t_initialized tr) (t_incomplete tr)
              (t_sensitivity tr) (t_cmd tr) (t_sig_action tr) (t_chained_action tr) (t_map tr) in
            set_active false tr
          else tr).

Definition psx_unlock tr : tracker := set_mu 0 tr.

(** *** psx_confirm_sigaction() *)

(** The address of psx_posix_syscall_actor() and of psx_restorer(). *)
Definition ACTOR : Z := 1.
Definition RESTORER : Z := 2.
(** SA_SIGINFO | SA_ONSTACK | SA_RESTART | SA_RESTORER *)
Definition PSX_SA_FLAGS : Z := Z.lor (Z.lor (Z.lor 4 0x08000000) 0x10000000) 0x04000000.

(** The new action of the signal, given the existing one. *)
Definition psx_confirm_sigaction (existing : sigact) tr : sigact * tracker :=
  if sa_handler existing =? ACTOR then (existing, tr)
  else
    let act := mkSigact ACTOR (Z.lor (sa_flags existing) PSX_SA_FLAGS)
      (if sa_restorer existing =? 0 then RESTORER else sa_restorer existing) in
    (act, mkTracker (t_pid tr) (t_mu tr) (t_state tr) (t_initialized tr) (t_incomplete tr)
       (t_sensitivity tr) (t_cmd tr) act existing (t_map tr)).

(** *** The command *)

(** The stores of __psx_immediate_syscall(); [args] are as many as the caller gave. *)
Definition psx_command (nr : Z) (args : list Z) (old : psx_cmd) : psx_cmd :=
  let arg i := default 0 (args !! i) in
  let six := (3 <? length args)%nat in
  mkCmd nr
    ([arg 0%nat; arg 1%nat; arg 2%nat] ++
     (if six then [arg 3%nat; arg 4%nat; arg 5%nat] else drop 3 (c_args old)))
    six (c_active old).

(** The arguments of the call that the command describes. *)
Definition call_args (c : psx_cmd) : list Z := if c_six c then c_args c else take 3 (c_args c).

(** ** Threads *)

(** The local variables of __psx_syscall(). *)
Record locals := mkLocals {
  l_nr : Z;
  l_args : list Z;
  l_ret : Z;
  l_sweep : Z;
  l_some : Z;
  l_incomplete : Z;
  l_mismatch : bool;
  l_verified : Z
}.
Implicit Types (lo : locals).

Definition enter_locals nr args : locals := mkLocals nr args 0 1 0 0 false 0.
Definition set_ret r lo := mkLocals (l_nr lo) (l_args lo) r (l_sweep lo) (l_some lo) (l_incomplete lo)
  (l_mismatch lo) (l_verified lo).
(** [incomplete = 0; some = 0; sweep++;] *)
Definition next_sweep lo := mkLocals (l_nr lo) (l_args lo) (l_ret lo) (l_sweep lo + 1) 0 0
  (l_mismatch lo) (l_verified lo).
Definition set_verified v lo := mkLocals (l_nr lo) (l_args lo) (l_ret lo) (l_sweep lo) (l_some lo) (l_incomplete lo)
  (l_mismatch lo) v.
(** [incomplete++; if (x->pending) some++; else if (x->retval != ret) mismatch = 1;] *)
Definition count_ref (x : thread_ref) lo := mkLocals (l_nr lo) (l_args lo) (l_ret lo) (l_sweep lo)
  (if x_pending x =? 0 then l_some lo else l_some lo + 1) (l_incomplete lo + 1)
  (l_mismatch lo || ((x_pending x =? 0) && negb (x_retval x =? l_ret lo))) (l_verified lo).

(** Where a thread's ordinary control is. A name that ends in Locked is a point
    at which the thread holds the lock. *)
Inductive point :=
| Idle                                           (* outside of libpsx *)
| NewState (was to : tracker_state) (lo : locals)     (* psx_new_state(): before psx_lock() *)
| NewStateLocked (was to : tracker_state) (lo : locals)
| Confirm (lo : locals)
| Call (lo : locals)                             (* __psx_immediate_syscall() *)
| Clear (lo : locals)                            (* memset() of the map *)
| Sweep (lo : locals)                            (* the top of the do loop *)
| Read (lo : locals)                             (* the next directory entry *)
| Look (lo : locals) (tid : Z)
| Grow (lo : locals) (tid entries : Z)
| GrowLocked (lo : locals) (tid entries : Z)
| Add (lo : locals) (tid : Z)
| AddLocked (lo : locals) (tid : Z)
| Kill (lo : locals) (tid : Z)
| Mark (lo : locals) (tid : Z)
| MarkLocked (lo : locals) (tid : Z)
| Closing (lo : locals)                          (* close(fd) and the loop's condition *)
| Finish (lo : locals)
| FinishLocked (lo : locals)
| Drain (lo : locals)                            (* psx_cond_wait() for the handlers *)
| DrainLocked (lo : locals)
| Differ (lo : locals)
| DifferLocked (lo : locals)
| Cleanup                                        (* _psx_cleanup() *)
| CleanupLocked
| Sensitivity (level : Z)                        (* psx_set_sensitivity() *)
| SensitivityLocked (level : Z)
| Returned (ret : Z).

(** Where the handler is: psx_posix_syscall_actor(). *)
Inductive hpoint :=
| HStart (genuine : bool)
| HTestLocked (genuine : bool)
| HCall
| HRet (retval : Z)
| HReportLocked (retval : Z)
| HWait
| HWaitLocked.

Section system.
(** A thread's own kernel state - its credentials - and what a system call makes
    of it: the result and the new state. *)
Context {C : Type} (sysc : Z -> list Z -> C -> Z * C).

Record thread := mkThread {
  th_point : point;
  th_hand : option hpoint;
  th_sigs : list bool;       (* queued signals: true for one of tkill() by libpsx *)
  th_creds : C
}.

Record system := mkSystem {
  s_pid : Z;
  s_trk : tracker;
  s_sa : sigact;              (* the action of the signal *)
  s_threads : gmap Z thread;
  s_start : gset Z;           (* the open directory: threads there since it was opened, *)
  s_seen : gset Z;            (* entries it has given, *)
  s_churn : bool;             (* and whether a thread was created since *)
  s_late : bool;              (* some last sweep overlapped the creation of a thread *)
  s_killed : bool
}.
Implicit Types (s : system) (th : thread).

Definition with_trk tr s := mkSystem (s_pid s) tr (s_sa s) (s_threads s) (s_start s) (s_seen s) (s_churn s) (s_late s) (s_killed s).
Definition with_thread tid th s := mkSystem (s_pid s) (s_trk s) (s_sa s) (<[tid := th]> (s_threads s)) (s_start s)
  (s_seen s) (s_churn s) (s_late s) (s_killed s).
Definition with_sa sa s := mkSystem (s_pid s) (s_trk s) sa (s_threads s) (s_start s) (s_seen s) (s_churn s) (s_late s) (s_killed s).
Definition with_dir start seen churn s := mkSystem (s_pid s) (s_trk s) (s_sa s) (s_threads s) start seen churn (s_late s) (s_killed s).
Definition with_late s := mkSystem (s_pid s) (s_trk s) (s_sa s) (s_threads s) (s_start s) (s_seen s) (s_churn s)
  (s_late s || s_churn s) (s_killed s).
Definition with_killed s := mkSystem (s_pid s) (s_trk s) (s_sa s) (s_threads s) (s_start s) (s_seen s) (s_churn s) (s_late s) true.

Definition at_point p th := mkThread p (th_hand th) (th_sigs th) (th_creds th).
Definition in_hand h th := mkThread (th_point th) h (th_sigs th) (th_creds th).
Definition with_creds c th := mkThread (th_point th) (th_hand th) (th_sigs th) c.
Definition with_sigs q th := mkThread (th_point th) (th_hand th) q (th_creds th).

(** After psx_new_state(was, to). *)
Definition after_new_state (was to : tracker_state) lo : point :=
  match was, to with
  | PSX_IDLE, PSX_SETUP => Confirm lo
  | PSX_SETUP, PSX_SYSCALL => Clear lo
  | _, _ => Returned (l_ret lo)
  end.

(** The first step of psx_syscall() with the arguments [args]. *)
Definition enter_syscall nr (args : list Z) : point :=
  if (6 <? length args)%nat then Returned (-1)
  else NewState PSX_IDLE PSX_SETUP (enter_locals nr args).

Definition psx_set_sensitivity (level : Z) : point :=
  if (level <? PSX_IGNORE) || (PSX_ERROR <? level) then Returned (-1) else Sensitivity level.

(** What the directory gives next. *)
Inductive dirent := Entry (tid : Z) | EndOfDir | DirFails.

(** A point before psx_lock(): the point with the lock. *)
Definition locked_point (p : point) : option point :=
  match p with
  | NewState was to lo => Some (NewStateLocked was to lo)
  | Grow lo t e => Some (GrowLocked lo t e)
  | Add lo t => Some (AddLocked lo t)
  | Mark lo t => Some (MarkLocked lo t)
  | Finish lo => Some (FinishLocked lo)
  | Drain lo => Some (DrainLocked lo)
  | Differ lo => if l_mismatch lo then Some (DifferLocked lo) else None
  | Cleanup => Some CleanupLocked
  | Sensitivity level => Some (SensitivityLocked level)
  | _ => None
  end.

(** What a thread does with the lock, up to and including psx_unlock(): the
    tracker and where it goes on; [None] at a point without the lock. *)
Definition locked_step tr (p : point) : option (tracker * point) :=
  match p with
  | NewStateLocked was to lo =>
      if decide (t_state tr = was)
      then Some (psx_unlock (set_state to tr), after_new_state was to lo)
      else Some (psx_unlock tr, NewState was to lo)
  | GrowLocked lo tid entries =>
      Some (psx_unlock (set_map (rehash entries (l_sweep lo - 1) (t_map tr)) tr), Add lo tid)
  | AddLocked lo tid =>
      let m := upd_ref (fun x => mkRef (x_sweep x) 1 tid (x_retval x)) tid (t_map tr) in
      Some (psx_unlock (set_active true (set_map m tr)), Kill lo tid)
  | MarkLocked lo tid =>
      let m := upd_ref (fun x => mkRef (l_sweep lo) (x_pending x) (x_tid x) (x_retval x)) tid (t_map tr) in
      Some (psx_unlock (set_map m tr), Read (count_ref (ref_at m tid) lo))
  | FinishLocked lo =>
      let tr := set_active false (set_incomplete (l_incomplete lo) tr) in
      Some (psx_unlock tr, if t_incomplete tr =? 0 then Differ lo else Drain lo)
  | DrainLocked lo =>
      Some (psx_unlock tr, if t_incomplete tr =? 0 then Differ lo else Drain lo)
  | DifferLocked lo => Some (psx_unlock tr, NewState PSX_SYSCALL PSX_IDLE lo)
  | CleanupLocked =>
      match t_state tr with
      | PSX_IDLE => Some (psx_unlock (set_map [] (set_state PSX_EXITING tr)), Returned 0)
      | PSX_EXITING => Some (psx_unlock tr, Returned 0)
      | _ => Some (psx_unlock tr, Cleanup)
      end
  | SensitivityLocked level => Some (psx_unlock (set_sensitivity level tr), Returned 0)
  | _ => None
  end.

(** The end of a sweep. *)
Definition end_sweep lo : point :=
  let v := if l_some lo =? 0 then l_verified lo + 1 else 0 in
  if v <? 2 then Sweep (set_verified v lo) else Finish (set_verified v lo).

(** tkill(): the signal joins the queue of the thread, if there is one. *)
Definition tkill (tid : Z) s : system :=
  match s_threads s !! tid with
  | Some th => with_thread tid (with_sigs (th_sigs th ++ [true]) th) s
  | None => s
  end.

(** One step of a thread's ordinary control; [d] is used at [Read] only. *)
Definition point_step (tid : Z) (d : dirent) s : option system :=
  th ← s_threads s !! tid;
  let go p s := with_thread tid (at_point p th) s in
  match locked_point (th_point th) with
  | Some p =>
      match psx_lock (s_pid s) (s_trk s) with
      | Some tr => Some (go p (with_trk tr s))
      | None => Some s
      end
  | None =>
      match locked_step (s_trk s) (th_point th) with
      | Some (tr, p) =>
          let s := go p (with_trk tr s) in
          match th_point th with
          | DifferLocked _ =>
              Some (if t_sensitivity tr =? PSX_IGNORE then s
                    else if t_sensitivity tr =? PSX_WARNING then s else with_killed s)
          | _ => Some s
          end
      | None =>
          match th_point th with
          | Confirm lo =>
              let '(sa, tr) := psx_confirm_sigaction (s_sa s) (s_trk s) in
              Some (go (Call lo) (with_sa sa (with_trk tr s)))
          | Call lo =>
              let tr := set_cmd (psx_command (l_nr lo) (l_args lo) (t_cmd (s_trk s))) (s_trk s) in
              let '(ret, c) := sysc (l_nr lo) (call_args (t_cmd tr)) (th_creds th) in
              let p := if ret =? -1 then NewState PSX_SETUP PSX_IDLE (set_ret ret lo)
                       else NewState PSX_SETUP PSX_SYSCALL (set_ret ret lo) in
              Some (with_thread tid (with_creds c (at_point p th)) (with_trk tr s))
          | Clear lo =>
              Some (go (Sweep lo) (with_trk (set_map (replicate (length (t_map (s_trk s))) ref0) (s_trk s)) s))
          | Sweep lo =>
              match d with
              | DirFails => Some (with_killed s)
              | _ => Some (go (Read (next_sweep lo)) (with_dir (dom (s_threads s)) ∅ false s))
              end
          | Read lo =>
              match d with
              | DirFails => Some (with_killed s)
              | EndOfDir =>
                  if decide (s_start s ⊆ s_seen s) then Some (go (Closing lo) s) else None
              | Entry e =>
                  if decide (e ∈ s_seen s \/ e <= 0) then None
                  else
                    let s := with_dir (s_start s) (s_seen s ∪ {[e]}) (s_churn s) s in
                    if e =? tid then Some s else Some (go (Look lo e) s)
              end
          | Look lo e =>
              let x := ref_at (t_map (s_trk s)) e in
              if x_tid x =? e then Some (go (Mark lo e) s)
              else if x_tid x =? 0 then Some (go (Add lo e) s)
              else
                n ← grow_entries LONG_BITS (psx_mix (x_tid x)) (psx_mix e) (Z.of_nat (length (t_map (s_trk s))));
                Some (go (Grow lo e n) s)
          | Kill lo e => Some (tkill e (go (Mark lo e) s))
          | Closing lo =>
              let p := end_sweep lo in
              Some (go p (match p with Finish _ => with_late s | _ => s end))
          | Differ lo => Some (go (NewState PSX_SYSCALL PSX_IDLE lo) s)
          | Returned _ => Some (go Idle s)
          | _ => None
          end
      end
  end.

(** A point of the handler before psx_lock(). *)
Definition locked_hpoint (h : hpoint) : option hpoint :=
  match h with
  | HStart g => Some (HTestLocked g)
  | HRet r => Some (HReportLocked r)
  | HWait => Some HWaitLocked
  | _ => None
  end.

(** [while (cmd.active) psx_cond_wait(); incomplete--; psx_unlock();] *)
Definition wait_active tr : tracker * option hpoint :=
  if active tr then (psx_unlock tr, Some HWait)
  else (psx_unlock (set_incomplete (t_incomplete tr - 1) tr), None).

(** What the handler of thread [tid] does with the lock. *)
Definition locked_hstep (tid : Z) tr (h : hpoint) : option (tracker * option hpoint) :=
  match h with
  | HTestLocked genuine =>
      Some (psx_unlock tr, if active tr && genuine then Some HCall else None)
  | HReportLocked r =>
      let m := upd_ref (fun x => mkRef (x_sweep x) 0 (x_tid x) r) tid (t_map tr) in
      Some (wait_active (set_map m tr))
  | HWaitLocked => Some (wait_active tr)
  | _ => None
  end.

Definition hand_step (tid : Z) s : option system :=
  th ← s_threads s !! tid;
  h ← th_hand th;
  match locked_hpoint h with
  | Some h' =>
      match psx_lock (s_pid s) (s_trk s) with
      | Some tr => Some (with_thread tid (in_hand (Some h') th) (with_trk tr s))
      | None => Some s
      end
  | None =>
      match locked_hstep tid (s_trk s) h with
      | Some (tr, h') => Some (with_thread tid (in_hand h' th) (with_trk tr s))
      | None =>
          let cmd := t_cmd (s_trk s) in
          let '(r, c) := sysc (c_nr cmd) (call_args cmd) (th_creds th) in
          Some (with_thread tid (with_creds c (in_hand (Some (HRet r)) th)) s)
      end
  end.

(** ** The whole process *)

Inductive event :=
| Step (tid : Z) (d : dirent)
| HandStep (tid : Z)
| Deliver (tid : Z)                      (* the kernel runs the handler *)
| Foreign (tid : Z)                      (* somebody else sends the signal *)
| Enter (tid nr : Z) (args : list Z)     (* psx_syscall() is called *)
| AtExit (tid : Z)                       (* exit() runs _psx_cleanup() *)
| Sense (tid level : Z)                  (* psx_set_sensitivity() is called *)
| Clone (tid new : Z)
| Exit (tid : Z).

(** Outside of libpsx and of the handler. *)
Definition free_thread th : bool :=
  match th_point th, th_hand th with Idle, None => true | _, _ => false end.

Definition do_event (e : event) s : option system :=
  if s_killed s then None
  else
    match e with
    | Step tid d => th ← s_threads s !! tid; match th_hand th with None => point_step tid d s | Some _ => None end
    | HandStep tid => hand_step tid s
    | Deliver tid =>
        th ← s_threads s !! tid;
        match th_hand th, th_sigs th with
        | None, g :: q => Some (with_thread tid (with_sigs q (in_hand (Some (HStart g)) th)) s)
        | _, _ => None
        end
    | Foreign tid => th ← s_threads s !! tid; Some (with_thread tid (with_sigs (th_sigs th ++ [false]) th) s)
    | Enter tid nr args =>
        th ← s_threads s !! tid;
        if free_thread th then Some (with_thread tid (at_point (enter_syscall nr args) th) s) else None
    | AtExit tid =>
        th ← s_threads s !! tid;
        if free_thread th then Some (with_thread tid (at_point Cleanup th) s) else None
    | Sense tid level =>
        th ← s_threads s !! tid;
        if free_thread th then Some (with_thread tid (at_point (psx_set_sensitivity level) th) s) else None
    | Clone tid new =>
        th ← s_threads s !! tid;
        if free_thread th && bool_decide (s_threads s !! new = None) && (0 <? new)
        then Some (with_dir (s_start s) (s_seen s) true (with_thread new (mkThread Idle None [] (th_creds th)) s))
        else None
    | Exit tid =>
        th ← s_threads s !! tid;
        if free_thread th
        then Some (mkSystem (s_pid s) (s_trk s) (s_sa s) (delete tid (s_threads s)) (s_start s ∖ {[tid]})
               (s_seen s) (s_churn s) (s_late s) (s_killed s))
        else None
    end.

Fixpoint run_events (es : list event) s : option system :=
  match es with
  | [] => Some s
  | e :: es => s' ← do_event e s; run_events es s'
  end.

Inductive step s s' : Prop :=
| step_event e : do_event e s = Some s' -> step s s'.

Inductive reach s : system -> Prop :=
| reach_refl : reach s s
| reach_step s' s'' : reach s s' -> step s' s'' -> reach s s''.

(** fork(): the child has one thread, the caller's, and a copy of the tracker. *)
Definition fork_child (child tid : Z) s : option system :=
  th ← s_threads s !! tid;
  if free_thread th
  then Some (mkSystem child (s_trk s) (s_sa s) {[child := with_sigs [] th]} ∅ ∅ false false (s_killed s))
  else None.

End system.
