(* ===== verification/PsxMap.v ===== *)
(** The tracker's hash map of threads: psx_mix() is injective, so a map that is
    large enough tells any two threads apart; growing the map ends, and loses no
    thread of the current sweep. *)

From stdpp Require Import gmap list.
From Stdlib Require Import ZArith Lia.
From S2P Require Import Prelude Psx.

Open Scope Z_scope.

(** *** psx_mix() *)

Lemma psx_mix_spec v i : 0 <= i ->
  Z.testbit (psx_mix v) i =
    xorb (xorb (xorb (Z.testbit v i) (Z.testbit v (i + 7))) (Z.testbit v (i + 13))) (Z.testbit v (i + 23)).
Proof. intros Hi. unfold psx_mix. by rewrite !Z.lxor_spec, !Z.shiftr_spec. Qed.

Lemma psx_mix_lxor a b : psx_mix (Z.lxor a b) = Z.lxor (psx_mix a) (psx_mix b).
Proof.
  apply Z.bits_inj'. intros i Hi. rewrite Z.lxor_spec, !psx_mix_spec, !Z.lxor_spec by done.
  destruct (Z.testbit a i), (Z.testbit a (i + 7)), (Z.testbit a (i + 13)), (Z.testbit a (i + 23)),
    (Z.testbit b i), (Z.testbit b (i + 7)), (Z.testbit b (i + 13)), (Z.testbit b (i + 23)); done.
Qed.

Lemma psx_mix_zero d : 0 <= d -> psx_mix d = 0 -> d = 0.
Proof.
  intros Hd H. destruct (Z.eq_dec d 0) as [|Hne]; [done|]. exfalso.
  apply (f_equal (fun z => Z.testbit z (Z.log2 d))) in H. pose proof (Z.log2_nonneg d).
  rewrite psx_mix_spec, Z.testbit_0_l, Z.bit_log2, !Z.bits_above_log2 in H by lia. done.
Qed.

Lemma lxor_nonneg_pos a b : 0 <= a -> 0 <= b -> 0 <= Z.lxor a b.
Proof. intros. apply Z.lxor_nonneg. lia. Qed.

Lemma psx_mix_inj a b : 0 <= a -> 0 <= b -> psx_mix a = psx_mix b -> a = b.
Proof.
  intros Ha Hb H. apply Z.lxor_eq_0_iff. apply psx_mix_zero; [by apply lxor_nonneg_pos|].
  rewrite psx_mix_lxor, H. apply Z.lxor_nilpotent.
Qed.

Lemma psx_mix_nonneg a : 0 <= a -> 0 <= psx_mix a.
Proof. intros. unfold psx_mix. repeat apply lxor_nonneg_pos; try apply Z.shiftr_nonneg; done. Qed.

(** Below 2^n, and so is the mix. *)
Lemma below_bits a n : 0 <= n -> 0 <= a -> (forall i, n <= i -> Z.testbit a i = false) -> a < 2 ^ n.
Proof.
  intros Hn Ha H. destruct (Z.lt_ge_cases a (2 ^ n)) as [|Hge]; [done|]. exfalso.
  assert (0 < 2 ^ n) by (apply Z.pow_pos_nonneg; lia).
  assert (n <= Z.log2 a) as Hl by (apply Z.log2_le_pow2; lia).
  pose proof (H _ Hl) as Hb. rewrite Z.bit_log2 in Hb by lia. done.
Qed.
Lemma bits_below a n i : 0 <= a < 2 ^ n -> n <= i -> Z.testbit a i = false.
Proof.
  intros Ha Hi. destruct (Z.eq_dec a 0) as [->|]; [apply Z.testbit_0_l|].
  apply Z.bits_above_log2; [lia|]. apply Z.lt_le_trans with n; [|done]. apply Z.log2_lt_pow2; lia.
Qed.

Lemma psx_mix_bound a n : 0 <= n -> 0 <= a < 2 ^ n -> 0 <= psx_mix a < 2 ^ n.
Proof.
  intros Hn Ha. split; [apply psx_mix_nonneg; lia|]. apply below_bits; [done|apply psx_mix_nonneg; lia|].
  intros i Hi. rewrite psx_mix_spec by lia. by rewrite !(bits_below a n) by lia.
Qed.

(** *** Growing *)

Lemma land_mask x k : 0 <= k -> Z.land x (2 ^ k - 1) = x mod 2 ^ k.
Proof. intros Hk. rewrite <-Z.land_ones by done. f_equal. rewrite Z.ones_equiv. lia. Qed.

Lemma lxor_mod_zero a b k : 0 <= k -> (Z.lxor a b) mod 2 ^ k = 0 <-> a mod 2 ^ k = b mod 2 ^ k.
Proof.
  intros Hk. rewrite <-!land_mask by done. rewrite !land_mask by done. split; intros H.
  - apply Z.bits_inj'. intros i Hi. destruct (Z.lt_ge_cases i k).
    + rewrite !Z.mod_pow2_bits_low by lia. apply (f_equal (fun z => Z.testbit z i)) in H.
      rewrite Z.mod_pow2_bits_low, Z.lxor_spec, Z.testbit_0_l in H by lia. by apply xorb_eq.
    + by rewrite !Z.mod_pow2_bits_high by lia.
  - apply Z.bits_inj'. intros i Hi. rewrite Z.testbit_0_l. destruct (Z.lt_ge_cases i k).
    + apply (f_equal (fun z => Z.testbit z i)) in H. rewrite !Z.mod_pow2_bits_low in H by lia.
      rewrite Z.mod_pow2_bits_low, Z.lxor_spec, H by lia. apply xorb_nilpotent.
    + by rewrite Z.mod_pow2_bits_high by lia.
Qed.

(** From 2^k on, two numbers below 2^n that differ are told apart, at the first
    power of two that does. *)
Lemma grow_entries_spec fuel k n a b :
  0 <= k -> 0 <= a < 2 ^ n -> 0 <= b < 2 ^ n -> a <> b -> n < k + Z.of_nat fuel -> (0 < fuel)%nat ->
  exists j, grow_entries fuel a b (2 ^ k) = Some (2 ^ j) /\ k <= j <= Z.max k n /\ a mod 2 ^ j <> b mod 2 ^ j /\
    forall i, k <= i < j -> a mod 2 ^ i = b mod 2 ^ i.
Proof.
  intros Hk Ha Hb Hne. revert k Hk. induction fuel as [|fuel IH]; intros k Hk Hf Hpos; [lia|]. cbn [grow_entries].
  rewrite land_mask by done. destruct (Z.eqb_spec (Z.lxor a b mod 2 ^ k) 0) as [E|E]; cbn [negb].
  - apply lxor_mod_zero in E; [|done]. rewrite Z.shiftl_mul_pow2 by lia. change (2 ^ 1) with 2.
      replace (2 ^ k * 2) with (2 ^ (k + 1)) by (rewrite Z.pow_add_r by lia; lia).
      assert (k < n) as Hkn.
      { destruct (Z.lt_ge_cases k n); [done|]. exfalso. pose proof (Z.pow_le_mono_r 2 n k ltac:(lia) ltac:(lia)).
        rewrite !Z.mod_small in E by lia. done. }
      destruct (IH (k + 1) ltac:(lia) ltac:(lia) ltac:(lia)) as (j & Hj & Hr & Hd & Hi). exists j. split; [done|]. split; [lia|].
      split; [done|]. intros i Hik. destruct (Z.eq_dec i k) as [->|]; [done|]. apply Hi. lia.
  - exists k. split; [done|]. split; [lia|]. split; [|lia]. by rewrite lxor_mod_zero in E.
Qed.

(** Whatever size it finds tells the two apart. *)
Lemma grow_entries_power fuel k a b n :
  0 <= k -> grow_entries fuel a b (2 ^ k) = Some n -> exists j, k <= j /\ n = 2 ^ j /\ a mod 2 ^ j <> b mod 2 ^ j.
Proof.
  revert k. induction fuel as [|fuel IH]; intros k Hk H; [done|]. cbn [grow_entries] in H.
  rewrite land_mask in H by done. destruct (Z.eqb_spec (Z.lxor a b mod 2 ^ k) 0) as [E|E]; cbn [negb] in H.
  - rewrite Z.shiftl_mul_pow2 in H by lia. replace (2 ^ k * 2 ^ 1) with (2 ^ (k + 1)) in H by (rewrite Z.pow_add_r; lia).
    destruct (IH (k + 1) ltac:(lia) H) as (j & Hj & Hr). exists j. split; [lia|done].
  - injection H as <-. exists k. split; [lia|]. split; [done|]. by rewrite lxor_mod_zero in E.
Qed.

(** *** The map *)

(** A power of two of references: each at its own thread's slot, or unused. *)
Definition map_ok (m : list thread_ref) : Prop :=
  (exists k, 0 <= k /\ Z.of_nat (length m) = 2 ^ k) /\
  forall i x, m !! i = Some x ->
    (x_tid x <> 0 -> 0 < x_tid x /\ slot m (x_tid x) = i) /\ (x_tid x = 0 -> x_sweep x = 0).

(** What the map knows of a thread. *)
Definition entry (m : list thread_ref) (t : Z) : option thread_ref :=
  let x := ref_at m t in if x_tid x =? t then Some x else None.

Lemma slot_mod m t k : 0 <= k -> Z.of_nat (length m) = 2 ^ k -> slot m t = Z.to_nat (psx_mix t mod 2 ^ k).
Proof. intros Hk E. unfold slot. by rewrite E, land_mask. Qed.

Lemma slot_length m m' t : length m = length m' -> slot m t = slot m' t.
Proof. intros E. unfold slot. by rewrite E. Qed.

Lemma slot_lt m t : map_ok m -> (slot m t < length m)%nat.
Proof.
  intros [(k & Hk & E) _]. rewrite (slot_mod m t k) by done.
  pose proof (Z.mod_pos_bound (psx_mix t) (2 ^ k) ltac:(apply Z.pow_pos_nonneg; lia)). lia.
Qed.

Lemma ref_at_lookup m t : map_ok m -> m !! slot m t = Some (ref_at m t).
Proof.
  intros H. unfold ref_at. destruct (m !! slot m t) eqn:E; [done|]. apply lookup_ge_None in E.
  pose proof (slot_lt m t H). lia.
Qed.

Lemma length_upd_ref f t m : length (upd_ref f t m) = length m.
Proof. apply length_alter. Qed.

Lemma ref_at_upd f t m t' : map_ok m ->
  ref_at (upd_ref f t m) t' = if decide (slot m t' = slot m t) then f (ref_at m t') else ref_at m t'.
Proof.
  intros Hm. unfold ref_at at 1, upd_ref. rewrite (slot_length _ m t') by apply length_alter.
  case_decide as E.
  - rewrite E, list_lookup_alter_eq, <-E, ref_at_lookup by done. done.
  - rewrite list_lookup_alter_ne by done. done.
Qed.

Lemma map_ok_upd f t m :
  map_ok m -> (forall x, m !! slot m t = Some x -> 0 < x_tid (f x) /\ slot m (x_tid (f x)) = slot m t) ->
  map_ok (upd_ref f t m).
Proof.
  intros [Hl Hm] Hf. split; [by rewrite length_upd_ref|]. intros i x Hi.
  rewrite (slot_length _ m) by apply length_alter. unfold upd_ref in Hi.
  destruct (decide (i = slot m t)) as [->|Hne].
  - rewrite list_lookup_alter_eq in Hi. destruct (m !! slot m t) as [y|] eqn:E; [|done]. injection Hi as <-.
    destruct (Hf y eq_refl) as [H0 H]. split; [done|lia].
  - rewrite list_lookup_alter_ne in Hi by done. by apply Hm.
Qed.

(** Changing what is known of a thread. *)
Lemma entry_upd f t m t' :
  map_ok m -> 0 < t -> (forall x, x_tid (f x) = x_tid x) -> entry m t <> None ->
  map_ok (upd_ref f t m) /\
  entry (upd_ref f t m) t' = if decide (t' = t) then f <$> entry m t else entry m t'.
Proof.
  intros Hm Ht Hf He. unfold entry in He. destruct (Z.eqb_spec (x_tid (ref_at m t)) t) as [Et|]; [|done]. split.
  - apply map_ok_upd; [done|]. intros x Hx. rewrite ref_at_lookup in Hx by done. injection Hx as <-. by rewrite Hf, Et.
  - unfold entry. rewrite ref_at_upd by done. repeat case_decide; subst.
    + rewrite Hf, Et. by rewrite Z.eqb_refl.
    + rewrite Hf. assert (ref_at m t' = ref_at m t) as E by (unfold ref_at; congruence).
      rewrite E, Et. by destruct (Z.eqb_spec t t').
    + done.
    + done.
Qed.

(** Adding a thread at an empty slot. *)
Lemma entry_add f t m t' :
  map_ok m -> 0 < t -> 0 < t' -> (forall x, x_tid (f x) = t) -> x_tid (ref_at m t) = 0 ->
  map_ok (upd_ref f t m) /\
  entry (upd_ref f t m) t' = if decide (t' = t) then Some (f (ref_at m t)) else entry m t'.
Proof.
  intros Hm Ht Ht' Hf H0. split.
  - apply map_ok_upd; [done|]. intros x _. by rewrite Hf.
  - unfold entry. rewrite ref_at_upd by done. repeat case_decide; subst.
    + by rewrite Hf, Z.eqb_refl.
    + rewrite Hf. assert (ref_at m t' = ref_at m t) as -> by (unfold ref_at; congruence).
      rewrite H0. destruct (Z.eqb_spec t t'); [done|]. by destruct (Z.eqb_spec 0 t'); [lia|].
    + done.
    + done.
Qed.

Lemma map_ok_replicate k : 0 <= k -> map_ok (replicate (Z.to_nat (2 ^ k)) ref0).
Proof.
  intros Hk. split.
  - exists k. split; [done|]. rewrite length_replicate. pose proof (Z.pow_pos_nonneg 2 k ltac:(lia) Hk). lia.
  - intros i x [-> _]%lookup_replicate. done.
Qed.

Lemma entry_replicate n t : 0 < t -> entry (replicate n ref0) t = None.
Proof.
  intros Ht. unfold entry. assert (ref_at (replicate n ref0) t = ref0) as ->.
  { unfold ref_at. destruct (replicate n ref0 !! _) eqn:E; [by apply lookup_replicate in E as [-> _]|done]. }
  destruct (Z.eqb_spec (x_tid ref0) t) as [E|]; [cbn in E; lia|done].
Qed.

(** *** The copy to a larger map *)

Section rehash.
Variables (m : list thread_ref) (k j ok : Z).
Hypothesis Hm : map_ok m.
Hypothesis Hk : 0 <= k.
Hypothesis Hj : k <= j.
Hypothesis Hlen : Z.of_nat (length m) = 2 ^ k.
Hypothesis Hok : 0 < ok.
Let m0 := replicate (Z.to_nat (2 ^ j)) ref0.

Lemma slot_big t i x : m !! i = Some x -> x_tid x <> 0 -> 
  slot m0 t = slot m0 (x_tid x) -> slot m t = i.
Proof.
  intros Hi Hx E. assert (0 < 2 ^ j /\ 0 < 2 ^ k) as [Hpj Hpk] by (split; apply Z.pow_pos_nonneg; lia).
  destruct (proj1 (proj2 Hm i x Hi) Hx) as [_ <-].
  rewrite !(slot_mod m0 _ j) in E by (lia || (unfold m0; rewrite length_replicate; lia)).
  rewrite !(slot_mod m _ k) by done.
  pose proof (Z.mod_pos_bound (psx_mix t) (2 ^ j) Hpj). pose proof (Z.mod_pos_bound (psx_mix (x_tid x)) (2 ^ j) Hpj).
  assert (psx_mix t mod 2 ^ j = psx_mix (x_tid x) mod 2 ^ j) as Ej by lia. f_equal.
  assert (2 ^ j = 2 ^ k * 2 ^ (j - k)) as Ep by (rewrite <-Z.pow_add_r by lia; f_equal; lia).
  pose proof (Z.pow_pos_nonneg 2 (j - k) ltac:(lia) ltac:(lia)).
  rewrite <-(Z.mod_mod_divide (psx_mix t) (2 ^ j) (2 ^ k)), Ej by (exists (2 ^ (j - k)); lia).
  apply Z.mod_mod_divide. exists (2 ^ (j - k)). lia.
Qed.

(** [x] is among the first [n] references, is to be copied, and goes to [t]'s slot. *)
Definition copied (n : nat) (t : Z) (x : thread_ref) : Prop :=
  exists i, (i < n)%nat /\ m !! i = Some x /\ ok <= x_sweep x /\ slot m0 (x_tid x) = slot m0 t.

Lemma copied_tid n t x : copied n t x -> x_tid x <> 0.
Proof. intros (i & _ & Hi & Hs & _) E. apply (proj2 Hm i x Hi) in E. lia. Qed.

Lemma copied_unique n t x y : copied n t x -> copied n t y -> x = y.
Proof.
  intros Hx Hy. pose proof (copied_tid _ _ _ Hx) as Hx0. pose proof (copied_tid _ _ _ Hy) as Hy0.
  destruct Hx as (i & _ & Hi & _ & Ei), Hy as (i' & _ & Hi' & _ & Ei').
  assert (slot m (x_tid y) = i) as E by (apply (slot_big _ i x); [done..|congruence]).
  destruct (proj1 (proj2 Hm i' y Hi') Hy0) as [_ E']. rewrite E' in E. subst. congruence.
Qed.

(** Having copied the first references. *)
Lemma rehash_prefix n :
  (n <= length m)%nat ->
  let r := foldl (rehash_one ok) m0 (take n m) in
  map_ok r /\ length r = length m0 /\
  forall t, (forall x, copied n t x -> ref_at r t = x) /\ ((forall x, ~ copied n t x) -> ref_at r t = ref0).
Proof.
  induction n as [|n IH]; intros Hn r.
  - unfold r. rewrite take_0. cbn. split; [apply map_ok_replicate; lia|]. split; [done|].
    intros t. split; [intros x (i & Hi & _); lia|]. intros _.
    unfold ref_at, m0. destruct (replicate _ ref0 !! _) eqn:E; [by apply lookup_replicate in E as [-> _]|done].
  - destruct (lookup_lt_is_Some_2 m n ltac:(lia)) as [y Hy]. unfold r. rewrite (take_S_r _ _ y Hy), foldl_snoc.
    destruct (IH ltac:(lia)) as (Hr & Hl & Hf). set (r0 := foldl (rehash_one ok) m0 (take n m)) in *.
    assert (forall t x, copied (S n) t x -> copied n t x \/ (x = y /\ ok <= x_sweep y /\ slot m0 (x_tid y) = slot m0 t)) as HS.
    { intros t x (i & Hi & Hx & Hs & E). destruct (decide (i = n)) as [->|]; [right|left; exists i; split_and!; try done; lia].
      assert (x = y) as -> by congruence. done. }
    assert (forall t x, copied n t x -> copied (S n) t x) as HS'
      by (intros t x (i & Hi & H); exists i; split; [lia|done]).
    unfold rehash_one. destruct (Z.ltb_spec (x_sweep y) ok) as [Hlt|Hge].
    + split; [done|]. split; [done|]. intros t. destruct (Hf t) as [H1 H2].
      split; [intros x [H|H]%HS; [by apply H1|lia]|]. intros H. apply H2. intros x Hx. by apply (H x), HS'.
    + assert (forall t, slot m0 (x_tid y) = slot m0 t -> copied (S n) t y) as Hcy by (intros t E; exists n; split_and!; [lia|done..]).
      pose proof (copied_tid _ _ _ (Hcy (x_tid y) eq_refl)) as Hy0.
      split; [apply map_ok_upd; [done|]; intros x _; split; [apply (proj2 Hm n y Hy), Hy0|done]|].
      split; [by rewrite length_upd_ref|]. intros t. rewrite ref_at_upd, !(slot_length r0 m0) by done.
      destruct (Hf t) as [H1 H2]. case_decide as E.
      * split; [|intros H; exfalso; by apply (H y), Hcy]. intros x Hx.
        rewrite (copied_unique _ _ _ _ Hx (Hcy t (eq_sym E))). by destruct y.
      * split; [intros x [H|(_ & _ & H)]%HS; [by apply H1|congruence]|].
        intros H. apply H2. intros x Hx. by apply (H x), HS'.
Qed.

(** What the new map knows: all that is recent; and the slot of a thread that
    collided is free. *)
Lemma rehash_spec :
  let r := rehash (2 ^ j) ok m in
  map_ok r /\ Z.of_nat (length r) = 2 ^ j /\
  (forall t, 0 < t -> entry r t =
     match entry m t with Some x => if x_sweep x <? ok then None else Some x | None => None end) /\
  (forall t, x_tid (ref_at m t) <> 0 -> psx_mix t mod 2 ^ j <> psx_mix (x_tid (ref_at m t)) mod 2 ^ j ->
     x_tid (ref_at r t) = 0).
Proof.
  intros r. destruct (rehash_prefix (length m) ltac:(done)) as (Hr & Hl & Hf). rewrite take_ge in Hr, Hl, Hf by done.
  change (foldl (rehash_one ok) m0 m) with r in Hr, Hl, Hf.
  assert (0 < 2 ^ j) as Hpj by (apply Z.pow_pos_nonneg; lia).
  assert (Z.of_nat (length m0) = 2 ^ j) as Hl0 by (unfold m0; rewrite length_replicate; lia).
  split; [done|]. split; [by rewrite Hl|].
  assert (forall t x, copied (length m) t x -> ref_at m t = x) as Hold.
  { intros t x Hx. pose proof (copied_tid _ _ _ Hx) as Hx0. destruct Hx as (i & _ & Hi & _ & E).
    unfold ref_at. by rewrite (slot_big t i x), Hi. }
  assert (forall t, 0 < t -> copied (length m) t (ref_at m t) \/ (forall x, ~ copied (length m) t x)) as Hdec.
  { intros t Ht. destruct (decide (ok <= x_sweep (ref_at m t) /\ slot m0 (x_tid (ref_at m t)) = slot m0 t)) as [[H1 H2]|H].
    - left. exists (slot m t). split_and!; [by apply slot_lt|by apply ref_at_lookup|done..].
    - right. intros x Hx. apply H. rewrite (Hold t x Hx). destruct Hx as (i & _ & _ & ? & ?). done. }
  split.
  - intros t Ht. unfold entry. destruct (Hf t) as [H1 H2]. destruct (Hdec t Ht) as [Hc|Hc].
    + rewrite (H1 _ Hc). destruct (x_tid (ref_at m t) =? t); [|done]. destruct Hc as (i & _ & _ & Hs & _).
      by destruct (Z.ltb_spec (x_sweep (ref_at m t)) ok); [lia|].
    + rewrite H2 by done. destruct (Z.eqb_spec (x_tid ref0) t) as [E|_]; [cbn in E; lia|].
      destruct (Z.eqb_spec (x_tid (ref_at m t)) t) as [E|]; [|done]. destruct (Z.ltb_spec (x_sweep (ref_at m t)) ok); [done|].
      exfalso. apply (Hc (ref_at m t)). exists (slot m t). split_and!; [by apply slot_lt|by apply ref_at_lookup|done|by rewrite E].
  - intros t H0 Hne. destruct (Hf t) as [_ ->]; [done|]. intros x Hx. apply Hne. rewrite (Hold t x Hx).
    destruct Hx as (i & _ & _ & _ & E). rewrite !(slot_mod m0 _ j) in E by lia.
    pose proof (Z.mod_pos_bound (psx_mix t) (2 ^ j) Hpj). pose proof (Z.mod_pos_bound (psx_mix (x_tid x)) (2 ^ j) Hpj). lia.
Qed.

End rehash.
