(* ===== verification/PsxInv.v ===== *)
(** Two invariants of the interleavings of libpsx: the lock is held at one place
    at most, and the tracker's state belongs to one call of psx_syscall() at a
    time. *)

From stdpp Require Import gmap list sets.
From Stdlib Require Import ZArith Lia.
From S2P Require Import Prelude Psx.

Open Scope Z_scope.

(** *** Where the lock is held, and by what right *)

Definition point_locked (p : point) : bool :=
  match p with
  | NewStateLocked _ _ _ | GrowLocked _ _ _ | AddLocked _ _ | MarkLocked _ _ | FinishLocked _
  | DrainLocked _ | DifferLocked _ | CleanupLocked | SensitivityLocked _ => true
  | _ => false
  end.
Definition hand_locked (h : option hpoint) : bool :=
  match h with Some (HTestLocked _ | HReportLocked _ | HWaitLocked) => true | _ => false end.

(** The tracker state that a thread at this point has brought about. *)
Definition phase (p : point) : option tracker_state :=
  match p with
  | NewState PSX_IDLE _ _ | NewStateLocked PSX_IDLE _ _ => None
  | NewState was _ _ | NewStateLocked was _ _ => Some was
  | Confirm _ | Call _ => Some PSX_SETUP
  | Clear _ | Sweep _ | Read _ | Look _ _ | Grow _ _ _ | GrowLocked _ _ _ | Add _ _ | AddLocked _ _
  | Kill _ _ | Mark _ _ | MarkLocked _ _ | Closing _ | Finish _ | FinishLocked _ | Drain _ | DrainLocked _
  | Differ _ | DifferLocked _ => Some PSX_SYSCALL
  | _ => None
  end.

(** The calls of psx_new_state() that there are. *)
Definition point_ok (p : point) : Prop :=
  match p with
  | NewState was to _ | NewStateLocked was to _ =>
      (was, to) ∈ [(PSX_IDLE, PSX_SETUP); (PSX_SETUP, PSX_IDLE); (PSX_SETUP, PSX_SYSCALL); (PSX_SYSCALL, PSX_IDLE)]
  | _ => True
  end.

Lemma new_state_pairs was to :
  (was, to) ∈ [(PSX_IDLE, PSX_SETUP); (PSX_SETUP, PSX_IDLE); (PSX_SETUP, PSX_SYSCALL); (PSX_SYSCALL, PSX_IDLE)] ->
  was = PSX_IDLE /\ to = PSX_SETUP \/ was = PSX_SETUP /\ to = PSX_IDLE \/ was = PSX_SETUP /\ to = PSX_SYSCALL \/
  was = PSX_SYSCALL /\ to = PSX_IDLE.
Proof. destruct was, to; set_solver. Qed.

Section inv.
Context {C : Type} (sysc : Z -> list Z -> C -> Z * C).
Implicit Types (s : @system C) (th : @thread C) (tr : tracker) (l m : option Z) (t : Z).

Definition holds th : bool := point_locked (th_point th) || hand_locked (th_hand th).

(** Thread [t], when [l] holds the lock and [m] has brought about the state [st]. *)
Definition thread_ok l m (st : tracker_state) t th : Prop :=
  (holds th = true <-> l = Some t) /\
  point_locked (th_point th) && hand_locked (th_hand th) = false /\
  (phase (th_point th) <> None <-> m = Some t) /\
  (forall st', phase (th_point th) = Some st' -> st = st') /\
  point_ok (th_point th).

Record base l m s : Prop := {
  base_pid : s_pid s <> 0;
  base_thread t th : s_threads s !! t = Some th -> thread_ok l m (t_state (s_trk s)) t th;
  base_lock : t_mu (s_trk s) = s_pid s <-> l <> None;
  base_dom t : l = Some t \/ m = Some t -> s_threads s !! t <> None;
  base_idle : t_pid (s_trk s) = s_pid s -> m = None -> t_state (s_trk s) = PSX_IDLE \/ t_state (s_trk s) = PSX_EXITING;
  base_fresh : t_pid (s_trk s) <> s_pid s -> l = None /\ m = None
}.

Lemma owner_update (o o' : option Z) t t' :
  t' <> t -> (o' = o \/ (o = None /\ o' = Some t) \/ (o = Some t /\ o' = None)) -> (o' = Some t' <-> o = Some t').
Proof. intros Hne [->|[[-> ->]|[-> ->]]]; [done|..]; split; intros H; congruence. Qed.

(** One thread and the tracker change; [l] and [m] change to or from that thread. *)
Lemma base_update l m l' m' s s' t th th' :
  base l m s -> s_threads s !! t = Some th -> s_threads s' = <[t := th']> (s_threads s) -> s_pid s' = s_pid s ->
  thread_ok l' m' (t_state (s_trk s')) t th' ->
  (l' = l \/ (l = None /\ l' = Some t) \/ (l = Some t /\ l' = None)) ->
  (m' = m \/ (m = None /\ m' = Some t) \/ (m = Some t /\ m' = None)) ->
  (t_state (s_trk s') = t_state (s_trk s) \/ m = None \/ m = Some t) ->
  (t_mu (s_trk s') = s_pid s <-> l' <> None) ->
  (t_pid (s_trk s') = s_pid s -> m' = None -> t_state (s_trk s') = PSX_IDLE \/ t_state (s_trk s') = PSX_EXITING) ->
  (t_pid (s_trk s') <> s_pid s -> l' = None /\ m' = None) ->
  base l' m' s'.
Proof.
  intros [Hp Ht Hl Hd Hi Hf] Hth E Ep Hok Hl' Hm' Hst Hmu Hidle Hfresh. split.
  - by rewrite Ep.
  - intros t' th1 H1. rewrite E in H1. destruct (decide (t' = t)) as [->|Hne].
    + rewrite lookup_insert_eq in H1. by injection H1 as <-.
    + rewrite lookup_insert_ne in H1 by done. destruct (Ht t' th1 H1) as (A & B & D & F & G).
      split; [by rewrite A, (owner_update l l' t t')|]. split; [done|]. split; [by rewrite D, (owner_update m m' t t')|].
      split; [|done]. intros st' Hph. rewrite <-(F st' Hph). destruct Hst as [|Hst]; [done|].
      exfalso. assert (phase (th_point th1) <> None) as Hn by by rewrite Hph. apply D in Hn. destruct Hst; congruence.
  - by rewrite Ep.
  - intros t' Ht'. rewrite E. destruct (decide (t' = t)) as [->|Hne]; [by rewrite lookup_insert_eq|].
    rewrite lookup_insert_ne by done. apply Hd.
    destruct Ht' as [Ht'|Ht']; [left; by apply (owner_update l l' t t')|right; by apply (owner_update m m' t t')].
  - by rewrite Ep.
  - by rewrite Ep.
Qed.

(** Nothing that matters here changes for the tracker. *)
Lemma base_local l m s s' t th th' :
  base l m s -> s_threads s !! t = Some th -> s_threads s' = <[t := th']> (s_threads s) -> s_pid s' = s_pid s ->
  t_mu (s_trk s') = t_mu (s_trk s) -> t_state (s_trk s') = t_state (s_trk s) -> t_pid (s_trk s') = t_pid (s_trk s) ->
  holds th' = holds th -> point_locked (th_point th') && hand_locked (th_hand th') = false ->
  phase (th_point th') = phase (th_point th) -> point_ok (th_point th') ->
  base l m s'.
Proof.
  intros Hb Hth E Ep Emu Est Epid Hh Ho Hph Hok. eapply base_update; try done; try by left.
  - destruct (base_thread _ _ _ Hb _ _ Hth) as (A & B & D & F & G). unfold thread_ok. rewrite Hh, Hph, Est. done.
  - rewrite Emu. apply Hb.
  - rewrite Est, Epid. apply Hb.
  - rewrite Epid. apply Hb.
Qed.

Lemma base_same l m s s' :
  base l m s -> s_threads s' = s_threads s -> s_pid s' = s_pid s -> s_trk s' = s_trk s -> base l m s'.
Proof. intros [] E1 E2 E3. split; rewrite ?E1, ?E2, ?E3; done. Qed.

(** psx_lock() has taken the lock. *)
Lemma psx_lock_facts pid tr tr' :
  psx_lock pid tr = Some tr' ->
  t_mu tr <> pid /\ t_mu tr' = pid /\ t_pid tr' = pid /\ 
  ((t_pid tr = pid /\ tr' = set_mu pid tr) \/ (t_pid tr <> pid /\ t_state tr' = PSX_IDLE /\ active tr' = false)).
Proof.
  unfold psx_lock. destruct (Z.eqb_spec (t_mu tr) pid); [done|]. intros H. split; [done|].
  cbn [t_pid set_mu] in H. destruct (Z.eqb_spec (t_pid tr) pid); cbn [negb] in H; injection H as <-.
  - split; [done|]. split; [done|]. by left.
  - destruct (t_initialized tr); cbn; (split; [done|]; split; [done|]); right; done.
Qed.

Lemma base_acquire l m s s' t th th' tr' :
  base l m s -> s_threads s !! t = Some th -> psx_lock (s_pid s) (s_trk s) = Some tr' ->
  s_trk s' = tr' -> s_threads s' = <[t := th']> (s_threads s) -> s_pid s' = s_pid s ->
  holds th' = true -> point_locked (th_point th') && hand_locked (th_hand th') = false ->
  phase (th_point th') = phase (th_point th) -> point_ok (th_point th') ->
  base (Some t) m s'.
Proof.
  intros Hb Hth Hlk Etr E Ep Hh Ho Hph Hok. destruct (psx_lock_facts _ _ _ Hlk) as (Hmu & Hmu' & Hpid' & Hcase).
  assert (l = None) as ->. { destruct l; [|done]. exfalso. apply Hmu, Hb. done. }
  destruct (base_thread _ _ _ Hb _ _ Hth) as (A & B & D & F & G).
  assert (t_state tr' = t_state (s_trk s) \/ m = None) as Hst.
  { destruct Hcase as [[_ ->]|[Hne _]]; [by left|]. right. by apply (base_fresh _ _ _ Hb). }
  eapply base_update; try done; rewrite ?Etr; try (by left || by right; left); try done.
  - unfold thread_ok. rewrite Hh, Hph. split; [done|]. split; [done|]. split; [done|]. split; [|done].
    intros st' H'. destruct Hst as [->|Hm]; [by apply F|]. rewrite H' in D. assert (m = Some t) by by apply D. congruence.
  - tauto.
  - tauto.
  - intros _ Hm. destruct Hcase as [[Hp ->]|(_ & -> & _)]; [|by left]. by apply (base_idle _ _ _ Hb).
Qed.

(** A holder lets go. *)
Lemma base_release l m m' s s' t th th' :
  base l m s -> s_threads s !! t = Some th -> holds th = true ->
  s_threads s' = <[t := th']> (s_threads s) -> s_pid s' = s_pid s ->
  t_mu (s_trk s') = 0 -> t_pid (s_trk s') = t_pid (s_trk s) ->
  holds th' = false -> 
  (phase (th_point th') <> None <-> m' = Some t) -> (forall st', phase (th_point th') = Some st' -> t_state (s_trk s') = st') ->
  point_ok (th_point th') ->
  (m' = m \/ (m = None /\ m' = Some t) \/ (m = Some t /\ m' = None)) ->
  (t_state (s_trk s') = t_state (s_trk s) \/ m = None \/ m = Some t) ->
  (t_pid (s_trk s) = s_pid s -> m' = None -> t_state (s_trk s') = PSX_IDLE \/ t_state (s_trk s') = PSX_EXITING) ->
  base None m' s' /\ t_pid (s_trk s) = s_pid s.
Proof.
  intros Hb Hth Hh E Ep Emu Epid Hh' Hph Hphs Hok Hm' Hst Hidle.
  destruct (base_thread _ _ _ Hb _ _ Hth) as (A & _). apply A in Hh. subst l.
  assert (t_pid (s_trk s) = s_pid s) as Hp.
  { destruct (Z.eq_dec (t_pid (s_trk s)) (s_pid s)); [done|]. by apply (base_fresh _ _ _ Hb) in n as [? _]. }
  split; [|done]. eapply base_update; try done; rewrite ?Emu, ?Epid; try done.
  - unfold thread_ok. rewrite Hh'. split; [done|]. split; [|done]. unfold holds in Hh'.
    apply orb_false_iff in Hh' as [-> ->]. done.
  - by right; right.
  - pose proof (base_pid _ _ _ Hb). split; [congruence|done].
Qed.

(** *** Every event keeps it *)

Lemma locked_point_facts p p' :
  locked_point p = Some p' ->
  point_locked p = false /\ point_locked p' = true /\ phase p' = phase p /\ (point_ok p -> point_ok p').
Proof.
  destruct p; cbn; try done; try (by injection 1 as <-). destruct (l_mismatch lo); [|done]. by injection 1 as <-.
Qed.

Lemma locked_step_none tr p : locked_step tr p = None -> point_locked p = false.
Proof. destruct p; cbn; try done; repeat case_match; done. Qed.

(** What a holder does to the lock and to the state. *)
Lemma locked_step_facts tr p tr' p' :
  locked_step tr p = Some (tr', p') -> point_ok p ->
  t_mu tr' = 0 /\ t_pid tr' = t_pid tr /\ point_locked p' = false /\ point_ok p' /\ point_locked p = true /\
  ((t_state tr' = t_state tr /\ phase p' = phase p) \/
   (exists was to lo, p = NewStateLocked was to lo /\ t_state tr = was /\ t_state tr' = to /\ p' = after_new_state was to lo) \/
   (phase p = None /\ phase p' = None /\ t_state tr = PSX_IDLE /\ t_state tr' = PSX_EXITING)).
Proof.
  intros H Hok. destruct p; cbn in H; try done.
  - case_decide as Hd; injection H as <- <-; cbn.
    + split_and!; try done; [by destruct was, to..|]. right; left. by eexists _, _, _.
    + split_and!; try done. by left.
  - injection H as <- <-. cbn. split_and!; try done. by left.
  - injection H as <- <-. cbn. split_and!; try done. by left.
  - injection H as <- <-. cbn. split_and!; try done. by left.
  - injection H as <- <-. cbn. case_match; split_and!; try done; by left.
  - injection H as <- <-. cbn. case_match; split_and!; try done; by left.
  - injection H as <- <-. cbn. split_and!; try done; [|by left]. set_solver.
  - destruct (t_state tr) eqn:E; injection H as <- <-; cbn; split_and!; try done; try (by left).
    all: right; right; done.
  - injection H as <- <-. cbn. split_and!; try done. by left.
Qed.

Lemma phase_busy p st : point_ok p -> phase p = Some st -> st = PSX_SETUP \/ st = PSX_SYSCALL.
Proof.
  intros Hok H. destruct p; cbn in *; try done; try (injection H as <-; tauto);
    destruct was; try done; injection H as <-; try tauto; set_solver.
Qed.

(** Nobody has brought about an idle tracker. *)
Lemma base_nobody l m s :
  base l m s -> t_state (s_trk s) = PSX_IDLE \/ t_state (s_trk s) = PSX_EXITING -> m = None.
Proof.
  intros Hb Hst. destruct m as [t|]; [|done]. exfalso.
  destruct (s_threads s !! t) as [th|] eqn:Hth; [|by apply (base_dom _ _ _ Hb t); [right|]].
  destruct (base_thread _ _ _ Hb _ _ Hth) as (_ & _ & D & F & G).
  destruct (phase (th_point th)) as [st|] eqn:E; [|by apply D]. pose proof (F _ eq_refl) as E'.
  destruct (phase_busy _ _ G E) as [->| ->]; intuition congruence.
Qed.

Lemma base_locked_step l m s s' t th tr' p' :
  base l m s -> s_threads s !! t = Some th -> th_hand th = None ->
  locked_step (s_trk s) (th_point th) = Some (tr', p') ->
  s_threads s' = <[t := at_point p' th]> (s_threads s) -> s_trk s' = tr' -> s_pid s' = s_pid s ->
  exists m', base None m' s'.
Proof.
  intros Hb Hth Hh Hstep E Etr Ep. destruct (base_thread _ _ _ Hb _ _ Hth) as (A & B & D & F & G).
  destruct (locked_step_facts _ _ _ _ Hstep G) as (Hmu & Hpid & Hnl & Hok & Hl & Hcase).
  assert (holds th = true) as Hhold by (unfold holds; by rewrite Hl).
  assert (holds (at_point p' th) = false) as Hh' by (unfold holds; cbn; by rewrite Hnl, Hh).
  pose proof (base_release l m) as Hrel.
  destruct Hcase as [[Est Eph]|[(was & to & lo & Ept & Ew & Et & Ep')|(Eph & Eph' & Est & Est')]].
  - exists m. eapply (Hrel m s s' t th (at_point p' th)); try done; rewrite ?Etr, ?Est; try done; cbn [th_point at_point];
      rewrite ?Eph; try done; try (by left). apply (base_idle _ _ _ Hb).
  - rewrite Ept in *. cbn in G. rewrite Ep' in *.
    destruct (new_state_pairs _ _ G) as [[-> ->]|[[-> ->]|[[-> ->]|[-> ->]]]]; cbn in D, Ew, Et |- *;
      [assert (m = None) as -> by (apply (base_nobody _ _ _ Hb); by left)|assert (m = Some t) as -> by (by apply D)..];
      [exists (Some t)|exists None|exists (Some t)|exists None]; eapply (Hrel _ s s' t th); try done;
      rewrite ?Etr, ?Et; cbn; try done; try (by left); try (by right; left); try (by right; right); try (by intros ? [= <-]).
  - assert (m = None) as -> by (apply (base_nobody _ _ _ Hb); tauto).
    exists None. eapply (Hrel None s s' t th (at_point p' th)); try done; rewrite ?Etr, ?Est'; try done; cbn [th_point at_point];
      rewrite ?Eph'; try done; try (by left); try (by right; left); intros; by right.
Qed.

(** The other fields. *)
Lemma base_killed l m s : base l m s -> base l m (with_killed s).
Proof. intros. by eapply base_same. Qed.

#[local] Hint Extern 1 (s_threads _ = <[_ := _]> _) => reflexivity : core.

Ltac stay Hb Hth Hh Ep := eexists _, _; eapply base_local; [exact Hb|exact Hth|reflexivity..| | | |];
  cbn; unfold holds; cbn; rewrite ?Hh, ?Ep; try done.

Lemma base_point_step l m s t d s' th :
  base l m s -> s_threads s !! t = Some th -> th_hand th = None ->
  point_step sysc t d s = Some s' -> exists l' m', base l' m' s'.
Proof.
  intros Hb Hth Hh H. unfold point_step in H. rewrite Hth in H. cbn [mbind option_bind] in H.
  destruct (base_thread _ _ _ Hb _ _ Hth) as (A & B & D & F & G).
  destruct (locked_point (th_point th)) as [p'|] eqn:Elp.
  { destruct (locked_point_facts _ _ Elp) as (Hnl & Hl & Eph & Hok).
    destruct (psx_lock (s_pid s) (s_trk s)) as [tr|] eqn:Elk; injection H as <-; [|by exists l, m].
    exists (Some t), m. eapply (base_acquire l m s); [done..| | | |]; cbn; rewrite ?Hh, ?Hl; auto. unfold holds. cbn. by rewrite Hl. }
  destruct (locked_step (s_trk s) (th_point th)) as [[tr p']|] eqn:Els.
  { assert (exists m', base None m' (with_thread t (at_point p' th) (with_trk tr s))) as [m' Hm'] by by eapply base_locked_step.
    exists None, m'. destruct (th_point th); try (by injection H as <-). injection H as <-.
    repeat case_match; try done; by apply base_killed. }
  destruct (th_point th) eqn:Ep; try done.
  - (* Confirm *) unfold psx_confirm_sigaction in H. destruct (_ =? ACTOR); injection H as <-; stay Hb Hth Hh Ep.
  - (* Call *) destruct (sysc _ _ _) as [ret c]. injection H as <-.
    stay Hb Hth Hh Ep; destruct (ret =? -1); cbn; rewrite ?Hh; try done; set_solver.
  - injection H as <-. stay Hb Hth Hh Ep.
  - destruct d; injection H as <-; [| |exists l, m; by apply base_killed]; stay Hb Hth Hh Ep.
  - destruct d as [e| |].
    + case_decide; [done|]. destruct (e =? t); injection H as <-; [exists l, m; by eapply base_same|].
      stay Hb Hth Hh Ep.
    + case_decide; [|done]. injection H as <-. stay Hb Hth Hh Ep.
    + injection H as <-. exists l, m. by apply base_killed.
  - destruct (_ =? tid); [injection H as <-; stay Hb Hth Hh Ep|].
    destruct (_ =? 0); [injection H as <-; stay Hb Hth Hh Ep|].
    destruct (grow_entries _ _ _ _) as [n|]; [|done]. injection H as <-. stay Hb Hth Hh Ep.
  - (* Kill *) injection H as <-. unfold tkill. cbn [s_threads with_thread].
    assert (base l m (with_thread t (at_point (Mark lo tid) th) s)) as Hb1.
    { eapply base_local; [exact Hb|exact Hth|reflexivity..| | | |]; cbn; unfold holds; cbn; rewrite ?Hh; try done; by rewrite Ep. }
    destruct (<[t:=_]> (s_threads s) !! tid) as [th1|] eqn:E1; [|by exists l, m].
    exists l, m. eapply base_local; [exact Hb1|exact E1|reflexivity..| | | |]; try done; by apply (base_thread _ _ _ Hb1 _ _ E1).
  - (* Closing *) injection H as <-. unfold end_sweep. destruct (_ <? 2).
    all: stay Hb Hth Hh Ep.
  - (* Differ *) injection H as <-. stay Hb Hth Hh Ep. set_solver.
  - injection H as <-. stay Hb Hth Hh Ep.
Qed.

Lemma base_hand_step l m s t s' :
  base l m s -> hand_step sysc t s = Some s' -> exists l' m', base l' m' s'.
Proof.
  intros Hb H. unfold hand_step in H. destruct (s_threads s !! t) as [th|] eqn:Hth; [|done]. cbn [mbind option_bind] in H.
  destruct (th_hand th) as [h|] eqn:Hh; [|done]. cbn [mbind option_bind] in H.
  destruct (base_thread _ _ _ Hb _ _ Hth) as (A & B & D & F & G).
  destruct (locked_hpoint h) as [h'|] eqn:Elp.
  { destruct (psx_lock (s_pid s) (s_trk s)) as [tr|] eqn:Elk; injection H as <-; [|by exists l, m].
    assert (point_locked (th_point th) = false) as Hpl.
    { destruct (point_locked (th_point th)) eqn:E; [|done]. exfalso.
      assert (holds th = true) as Hhold by (unfold holds; by rewrite E). apply A in Hhold.
      apply (psx_lock_facts _ _ _ Elk). apply (base_lock _ _ _ Hb). congruence. }
    exists (Some t), m. eapply (base_acquire l m s); [done..| | | |]; cbn; rewrite ?Hpl; try done.
    unfold holds. cbn. rewrite Hpl. destruct h; try done; by injection Elp as <-. }
  destruct (locked_hstep t (s_trk s) h) as [[tr h']|] eqn:Els.
  - injection H as <-. assert (hand_locked (Some h) = true) as Hlk by (by destruct h).
    assert (holds th = true) as Hhold by (unfold holds; rewrite Hh, Hlk; apply orb_true_r).
    assert (point_locked (th_point th) = false) as Hpl by (rewrite Hh, Hlk, andb_true_r in B; done).
    assert (t_mu tr = 0 /\ t_pid tr = t_pid (s_trk s) /\ t_state tr = t_state (s_trk s) /\ hand_locked h' = false) as (E1 & E2 & E3 & E4).
    { destruct h; try done; cbn in Els; unfold wait_active in Els; repeat case_match; by injection Els as <- <-. }
    exists None, m. eapply (base_release l m m s); try done; cbn; rewrite ?E3; try done; try (by left).
    + unfold holds. cbn. by rewrite Hpl, E4.
    + apply (base_idle _ _ _ Hb).
  - destruct h; try done; destruct (sysc _ _ _) as [r c]; injection H as <-.
    exists l, m. eapply base_local; [exact Hb|exact Hth|reflexivity..| | | |]; cbn; unfold holds; cbn; rewrite ?Hh; try done.
    by rewrite andb_false_r.
Qed.

Lemma base_event l m e s s' : base l m s -> do_event sysc e s = Some s' -> exists l' m', base l' m' s'.
Proof.
  intros Hb H. unfold do_event in H. destruct (s_killed s); [done|].
  destruct e as [t d|t|t|t|t nr args|t|t level|t new|t]; try (by eapply base_hand_step);
    destruct (s_threads s !! t) as [th|] eqn:Hth; try done; cbn [mbind option_bind] in H;
    pose proof (base_thread _ _ _ Hb _ _ Hth) as (A & B & D & F & G).
  - destruct (th_hand th) eqn:Hh; [done|]. by eapply base_point_step.
  - destruct (th_hand th) as [h|] eqn:Hh; [done|]. destruct (th_sigs th) as [|g q]; [done|]. injection H as <-.
    stay Hb Hth Hh (eq_refl (th_point th)).
  - injection H as <-. stay Hb Hth (eq_refl (th_hand th)) (eq_refl (th_point th)).
  - unfold free_thread in H. destruct (th_point th) eqn:Ep; try done. destruct (th_hand th) eqn:Hh; [done|]. injection H as <-.
    stay Hb Hth Hh Ep; unfold enter_syscall; destruct (6 <? length args)%nat; cbn; rewrite ?Hh; try done. set_solver.
  - unfold free_thread in H. destruct (th_point th) eqn:Ep; try done. destruct (th_hand th) eqn:Hh; [done|]. injection H as <-.
    stay Hb Hth Hh Ep.
  - unfold free_thread in H. destruct (th_point th) eqn:Ep; try done. destruct (th_hand th) eqn:Hh; [done|]. injection H as <-.
    stay Hb Hth Hh Ep; unfold psx_set_sensitivity;
      destruct ((level <? PSX_IGNORE) || (PSX_ERROR <? level)); cbn; by rewrite ?Hh.
  - case_match eqn:Hc; [|done]. injection H as <-. apply andb_prop in Hc as [[_ Hn%bool_decide_eq_true]%andb_prop _].
    exists l, m. split; try apply Hb; cbn.
    + intros t' th' H'. destruct (decide (t' = new)) as [->|Hne].
      * rewrite lookup_insert_eq in H'. injection H' as <-. unfold thread_ok, holds. cbn.
        assert (l <> Some new /\ m <> Some new) as [H1 H2]
          by (split; intros E; apply (base_dom _ _ _ Hb new); [by left|done|by right|done]).
        split_and!; try done; split; congruence.
      * rewrite lookup_insert_ne in H' by done. by apply Hb.
    + intros t' Ht'. destruct (decide (t' = new)) as [->|Hne]; [by rewrite lookup_insert_eq|].
      rewrite lookup_insert_ne by done. by apply Hb.
  - case_match eqn:Hc; [|done]. injection H as <-. unfold free_thread in Hc.
    destruct (th_point th) eqn:Ep; try done. destruct (th_hand th) eqn:Hh; [done|].
    assert (l <> Some t /\ m <> Some t) as [H1 H2].
    { unfold holds in A. rewrite Ep, Hh in *. cbn in *. split; [intros E; by apply A in E|intros E; by apply D in E]. }
    exists l, m. split; try apply Hb; cbn.
    + intros t' th' H'. apply lookup_delete_Some in H' as [_ H']. by apply Hb.
    + intros t' Ht'. rewrite lookup_delete_ne by (intuition congruence). by apply Hb.
Qed.

(** *** The start, and every reachable state *)

(** A process before its first use of libpsx - at its start, or as the child of
    a fork(), with whatever the tracker held in the parent, the lock included. *)
Definition quiet_thread th : Prop := th_point th = Idle /\ th_hand th = None /\ true ∉ th_sigs th.
Definition initial s : Prop :=
  0 < s_pid s /\ t_mu (s_trk s) <> s_pid s /\ t_pid (s_trk s) <> s_pid s /\ s_late s = false /\
  map_Forall (fun t th => 0 < t /\ quiet_thread th) (s_threads s).

Lemma base_initial s : initial s -> base None None s.
Proof.
  intros (Hp & Hmu & Hpid & _ & Hth). split; try done; [lia| |intros t [|]; done].
  intros t th H. destruct (Hth t th H) as (_ & Ep & Hh & _). unfold thread_ok, holds. rewrite Ep, Hh. cbn.
  split_and!; try done.
Qed.

Lemma base_reach s0 s : initial s0 -> reach sysc s0 s -> exists l m, base l m s.
Proof.
  intros H0 H. induction H as [|s' s'' _ IH [e He]]; [exists None, None; by apply base_initial|].
  destruct IH as (l & m & Hb). by eapply base_event.
Qed.

End inv.
