(* ===== verification/PsxUniform.v ===== *)
(** What psx_syscall() is for: all threads of a process that have the same
    credentials before a call have the same credentials after it. The invariant
    follows the caller through its sweeps of the thread directory: which threads
    the signal has reached, which have made the call, and which have left the
    handler. *)

From stdpp Require Import gmap list sets.
From Stdlib Require Import ZArith Lia.
From S2P Require Import Prelude Psx PsxMap PsxInv.

Open Scope Z_scope.

(** The point before psx_lock() of a point with the lock. *)
Definition unlocked_point (p : point) : point :=
  match p with
  | NewStateLocked was to lo => NewState was to lo
  | GrowLocked lo t e => Grow lo t e
  | AddLocked lo t => Add lo t
  | MarkLocked lo t => Mark lo t
  | FinishLocked lo => Finish lo
  | DrainLocked lo => Drain lo
  | DifferLocked lo => Differ lo
  | p => p
  end.

(** The thread that the caller is dealing with. *)
Definition current (p : point) : option Z :=
  match p with Look _ e | Grow _ e _ | Add _ e | Kill _ e | Mark _ e => Some e | _ => None end.

(** The sweeps are counted from 1. *)
Definition locals_of (p : point) : option locals :=
  match p with
  | NewState _ _ lo | NewStateLocked _ _ lo | Confirm lo | Call lo | Clear lo | Sweep lo | Read lo | Look lo _
  | Grow lo _ _ | GrowLocked lo _ _ | Add lo _ | AddLocked lo _ | Kill lo _ | Mark lo _ | MarkLocked lo _
  | Closing lo | Finish lo | FinishLocked lo | Drain lo | DrainLocked lo | Differ lo | DifferLocked lo => Some lo
  | _ => None
  end.
Definition sweep_pos (p : point) : Prop := forall lo, locals_of p = Some lo -> 1 <= l_sweep lo.

Definition calm_hand (h : option hpoint) : bool :=
  match h with None | Some (HStart false) | Some (HTestLocked false) => true | _ => false end.
Definition waiting_hand (h : option hpoint) : bool :=
  match h with Some HWait | Some HWaitLocked => true | _ => false end.
(** One genuine signal among others. *)
Definition one_genuine (q : list bool) : Prop := exists a b, q = app a (true :: b) /\ (true ∉ a) /\ (true ∉ b).

Section uniform.
Context {C : Type} (sysc : Z -> list Z -> C -> Z * C).
Implicit Types (s : @system C) (th : @thread C) (tr : tracker) (m : option Z) (t : Z) (c : C) (lo : locals).

(** No signal of libpsx is on its way to the thread, nor being handled. *)
Definition calm th : Prop := calm_hand (th_hand th) = true /\ true ∉ th_sigs th.
Definition waiting th : Prop := waiting_hand (th_hand th) = true /\ true ∉ th_sigs th.
#[local] Instance calm_dec th : Decision (calm th).
Proof. apply _. Defined.

(** A thread during the sweeps, given what the map knows of it: not reached;
    signalled; in the handler before the call; after it; and waiting there. *)
Inductive busy c c1 (ret : Z) (act : bool) (e : option thread_ref) th : Prop :=
| busy_not : calm th -> th_creds th = c -> (forall x, e = Some x -> x_pending x <> 0) -> busy c c1 ret act e th
| busy_queued x : calm_hand (th_hand th) = true -> one_genuine (th_sigs th) -> th_creds th = c -> act = true ->
    e = Some x -> x_pending x <> 0 -> busy c c1 ret act e th
| busy_begun h x : th_hand th = Some h -> h = HStart true \/ h = HTestLocked true \/ h = HCall -> true ∉ th_sigs th ->
    th_creds th = c -> act = true -> e = Some x -> x_pending x <> 0 -> busy c c1 ret act e th
| busy_called h x : th_hand th = Some h -> h = HRet ret \/ h = HReportLocked ret -> true ∉ th_sigs th ->
    th_creds th = c1 -> act = true -> e = Some x -> x_pending x <> 0 -> busy c c1 ret act e th
| busy_waiting x : waiting th -> th_creds th = c1 -> act = true -> e = Some x -> x_pending x = 0 -> busy c c1 ret act e th.

Definition others_calm m c s : Prop :=
  forall t th, m <> Some t -> s_threads s !! t = Some th -> calm th /\ th_creds th = c.

(** What the system call in the tracker makes of [c]. *)
Definition called lo c c1 s : Prop :=
  let cmd := t_cmd (s_trk s) in sysc (c_nr cmd) (call_args cmd) c = (l_ret lo, c1).

Definition the_map s : list thread_ref := t_map (s_trk s).

(** What holds at one of the points of a sweep. *)
Definition point_fact t0 (p : point) s : Prop :=
  match p with
  | Look lo e => 0 < e /\ e <> t0
  | Grow lo e n => 0 < e /\ e <> t0 /\ x_tid (ref_at (the_map s) e) <> 0 /\ x_tid (ref_at (the_map s) e) <> e /\
      exists k j, 0 <= k <= j /\ Z.of_nat (length (the_map s)) = 2 ^ k /\ n = 2 ^ j /\
        psx_mix e mod 2 ^ j <> psx_mix (x_tid (ref_at (the_map s) e)) mod 2 ^ j
  | Add lo e => 0 < e /\ e <> t0 /\ x_tid (ref_at (the_map s) e) = 0
  | Kill lo e => 0 < e /\ e <> t0 /\ (exists x, entry (the_map s) e = Some x /\ x_pending x <> 0) /\
      active (s_trk s) = true /\ forall th, s_threads s !! e = Some th -> calm th /\ True
  | Mark lo e => 0 < e /\ e <> t0 /\ entry (the_map s) e <> None
  | _ => True
  end.

(** What is known of the open directory. *)
Record dir_fact t0 (p : point) lo s : Prop := {
  dir_pos : 0 <= l_some lo /\ 2 <= l_sweep lo;
  dir_new : s_churn s = false -> dom (s_threads s) ⊆ s_start s;
  dir_waiting t : l_some lo = 0 -> t ∈ s_seen s -> t <> t0 -> current p <> Some t ->
    exists th, s_threads s !! t = Some th /\ waiting th;
  dir_count : l_incomplete lo = Z.of_nat (size (s_seen s ∖ {[t0]} ∖ list_to_set (option_list (current p))));
  dir_current e : current p = Some e -> e ∈ s_seen s;
  dir_end : p = Closing lo -> s_start s ⊆ s_seen s
}.

Record sweeping t0 (p : point) lo c c1 s : Prop := {
  sw_map : map_ok (the_map s);
  sw_busy t th : t <> t0 -> s_threads s !! t = Some th ->
    busy c c1 (l_ret lo) (active (s_trk s)) (entry (the_map s) t) th;
  sw_self : entry (the_map s) t0 = None;
  sw_zero t x : 0 < t -> entry (the_map s) t = Some x -> x_pending x = 0 ->
    exists th, s_threads s !! t = Some th /\ waiting th;
  sw_active t : 0 < t -> entry (the_map s) t <> None -> active (s_trk s) = true;
  sw_recent t th x : t <> t0 -> s_threads s !! t = Some th -> ~ calm th -> entry (the_map s) t = Some x ->
    current p <> Some t ->
    x_sweep x = l_sweep lo \/ (p <> Sweep lo /\ x_sweep x = l_sweep lo - 1 /\ t ∈ s_start s /\ t ∉ s_seen s);
  sw_point : point_fact t0 p s;
  sw_dir : p <> Sweep lo -> dir_fact t0 p lo s
}.

(** The threads but [t0] that are in the handler's last loop. *)
Definition waiters s : gset Z := dom (filter (fun p : Z * thread => waiting_hand (th_hand p.2) = true) (s_threads s)).

(** The regime of a call by [t0], whose credentials are [c1], by where it is. *)
Definition regime t0 (p : point) c1 s : Prop :=
  match p with
  | Confirm _ | Call _ | NewState PSX_SETUP PSX_IDLE _ | NewState PSX_SYSCALL PSX_IDLE _ | Differ _ =>
      active (s_trk s) = false /\ others_calm (Some t0) c1 s
  | NewState PSX_SETUP PSX_SYSCALL lo | Clear lo =>
      active (s_trk s) = false /\ exists c, called lo c c1 s /\ others_calm (Some t0) c s
  | Sweep lo | Read lo | Look lo _ | Grow lo _ _ | Add lo _ | Kill lo _ | Mark lo _ | Closing lo =>
      exists c, called lo c c1 s /\ sweeping t0 p lo c c1 s
  | Finish lo =>
      l_incomplete lo = Z.of_nat (size (dom (s_threads s) ∖ {[t0]})) /\
      forall t th, t <> t0 -> s_threads s !! t = Some th -> waiting th /\ th_creds th = c1 /\ active (s_trk s) = true
  | Drain lo =>
      active (s_trk s) = false /\ t_incomplete (s_trk s) = Z.of_nat (size (waiters s)) /\
      forall t th, t <> t0 -> s_threads s !! t = Some th -> (calm th \/ waiting th) /\ th_creds th = c1
  | _ => False
  end.

Definition map_fit s : Prop :=
  (t_initialized (s_trk s) = true -> t_state (s_trk s) = PSX_EXITING \/ map_ok (the_map s)) /\
  (t_pid (s_trk s) <> s_pid s -> t_initialized (s_trk s) = true -> map_ok (the_map s)) /\
  (t_pid (s_trk s) = s_pid s -> t_initialized (s_trk s) = true).

Definition uni m s : Prop :=
  (forall t th, s_threads s !! t = Some th -> 0 < t /\ sweep_pos (th_point th)) /\ map_fit s /\
  match m with
  | None => (t_pid (s_trk s) = s_pid s -> active (s_trk s) = false) /\ exists c, others_calm None c s
  | Some t0 => exists th0, s_threads s !! t0 = Some th0 /\ calm th0 /\ regime t0 (unlocked_point (th_point th0)) (th_creds th0) s
  end.

(** *** Changes of a thread that do not matter *)

Record mild (act : bool) th th' : Prop := {
  mild_creds : th_creds th' = th_creds th;
  mild_calm : calm th -> calm th';
  mild_waiting : waiting th -> waiting th';
  mild_hand : waiting_hand (th_hand th') = waiting_hand (th_hand th);
  mild_busy c c1 ret e : busy c c1 ret act e th -> busy c c1 ret act e th'
}.

(** The tracker but for its lock and sensitivity. *)
Definition same_trk tr tr' : Prop :=
  t_pid tr' = t_pid tr /\ t_state tr' = t_state tr /\ t_initialized tr' = t_initialized tr /\
  t_incomplete tr' = t_incomplete tr /\ t_cmd tr' = t_cmd tr /\ t_map tr' = t_map tr.
Definition same_dir s s' : Prop := s_start s' = s_start s /\ s_seen s' = s_seen s /\ s_churn s' = s_churn s.

Lemma dom_update s s' t th th' :
  s_threads s !! t = Some th -> s_threads s' = <[t := th']> (s_threads s) -> dom (s_threads s') = dom (s_threads s).
Proof.
  intros Hth ->. rewrite dom_insert_L. apply elem_of_dom_2 in Hth. apply set_eq. intros x.
  rewrite elem_of_union, elem_of_singleton. split; [intros [->|]; done|tauto].
Qed.

Lemma waiters_update s s' t th th' :
  s_threads s !! t = Some th -> s_threads s' = <[t := th']> (s_threads s) ->
  waiting_hand (th_hand th') = waiting_hand (th_hand th) -> waiters s' = waiters s.
Proof.
  intros Hth E Hh. unfold waiters. apply set_eq. intros x. rewrite !elem_of_dom.
  assert (forall y, is_Some (filter (fun p : Z * thread => waiting_hand (th_hand p.2) = true) (s_threads y) !! x) <->
    exists th, s_threads y !! x = Some th /\ waiting_hand (th_hand th) = true) as Hy.
  { intros y. split.
    - intros [th1 [H1 H2]%map_lookup_filter_Some]. by exists th1.
    - intros (th1 & H1 & H2). exists th1. by apply map_lookup_filter_Some. }
  rewrite !Hy, E. destruct (decide (x = t)) as [->|Hne].
  - rewrite lookup_insert_eq, Hth. split; intros (th1 & [= <-] & H); eexists; split; [done|congruence|done|congruence].
  - by rewrite lookup_insert_ne.
Qed.

Section mild_step.
Context (s s' : @system C) (t : Z) (th th' : @thread C).
Hypothesis Hth : s_threads s !! t = Some th.
Hypothesis E : s_threads s' = <[t := th']> (s_threads s).
Hypothesis Epid : s_pid s' = s_pid s.
Hypothesis Etrk : same_trk (s_trk s) (s_trk s').
Hypothesis Edir : same_dir s s'.

Lemma mild_lookup t1 th1 : s_threads s' !! t1 = Some th1 ->
  exists th0, s_threads s !! t1 = Some th0 /\ ((t1 = t /\ th0 = th /\ th1 = th') \/ (t1 <> t /\ th1 = th0)).
Proof.
  rewrite E. destruct (decide (t1 = t)) as [->|Hne].
  - rewrite lookup_insert_eq. intros [= <-]. exists th. split; [done|by left].
  - rewrite lookup_insert_ne by done. intros H. exists th1. split; [done|by right].
Qed.

Lemma mild_keeps (P : @thread C -> Prop) t1 th0 :
  (P th -> P th') -> s_threads s !! t1 = Some th0 -> P th0 -> exists th1, s_threads s' !! t1 = Some th1 /\ P th1.
Proof.
  intros HP H0 HP0. rewrite E. destruct (decide (t1 = t)) as [->|Hne].
  - rewrite lookup_insert_eq. exists th'. split; [done|]. apply HP. congruence.
  - rewrite lookup_insert_ne by done. by exists th0.
Qed.

Lemma mild_active : active (s_trk s') = active (s_trk s).
Proof. destruct Etrk as (_&_&_&_&Ec&_). unfold active. by rewrite Ec. Qed.
Lemma mild_map : the_map s' = the_map s.
Proof. by destruct Etrk as (_&_&_&_&_&Em). Qed.

Lemma update_point t0 p : (calm th -> calm th') -> point_fact t0 p s -> point_fact t0 p s'.
Proof.
  intros Hcalm. destruct p; cbn; rewrite ?mild_map, ?mild_active; try done. intros (H1 & H2 & H3 & H4 & H5). split_and!; try done.
  intros th1 H1'. destruct (mild_lookup _ _ H1') as (th0 & H0 & [(-> & -> & ->)|(_ & ->)]); [|by apply (H5 th0)].
  split; [|done]. by apply Hcalm, (H5 th).
Qed.

Lemma update_dir t0 p lo : (waiting th -> waiting th') -> dir_fact t0 p lo s -> dir_fact t0 p lo s'.
Proof.
  intros Hwt. destruct Edir as (E1 & E2 & E3). intros [Hp Hn Hw Hc Hcur Hend]. split; rewrite ?E1, ?E2, ?E3; try done.
  - by rewrite (dom_update s s' t th th').
  - intros t1 Hs H1 H2 H3. destruct (Hw t1 Hs H1 H2 H3) as (th0 & H0 & Hwt0). by apply (mild_keeps waiting t1 th0).
Qed.

Lemma update_sweeping t0 p lo c c1 :
  (calm th -> calm th') -> (waiting th -> waiting th') ->
  (t <> t0 -> let e := entry (the_map s) t in let a := active (s_trk s) in
     busy c c1 (l_ret lo) a e th -> busy c c1 (l_ret lo) a e th') ->
  sweeping t0 p lo c c1 s -> sweeping t0 p lo c c1 s'.
Proof.
  intros Hcalm Hwt Hbusy [H1 H3 H4 H5 H6 H7 H8 H9]. pose proof Edir as (D1 & D2 & D3).
  split; rewrite ?mild_map, ?mild_active, ?D1, ?D2; try done.
  - intros t1 th1 Hne Ht1. destruct (mild_lookup _ _ Ht1) as (th0 & H0 & [(-> & -> & ->)|(_ & ->)]); [|by apply H3].
    apply Hbusy; [done|]. by apply H3.
  - intros t1 x Hp He Hx. destruct (H5 t1 x Hp He Hx) as (th0 & H0 & Hw). by apply (mild_keeps waiting t1 th0).
  - intros t1 th1 x Hne Ht1 Hnc. destruct (mild_lookup _ _ Ht1) as (th0 & H0 & [(-> & -> & ->)|(_ & ->)]); [|by eapply H7].
    eapply H7; [done|done|]. intros Hc. by apply Hnc, Hcalm.
  - by apply update_point.
  - intros Hp. by apply update_dir, H9.
Qed.

Hypothesis Hmild : mild (active (s_trk s)) th th'.

Lemma mild_others m c : others_calm m c s -> others_calm m c s'.
Proof.
  intros H t1 th1 Hm H1. destruct (mild_lookup _ _ H1) as (th0 & H0 & [(-> & -> & ->)|(_ & ->)]).
  - destruct (H t th Hm H0) as [Hc <-]. split; [by apply Hmild|apply Hmild].
  - by apply (H t1 th0).
Qed.

Lemma mild_called lo c c1 : called lo c c1 s -> called lo c c1 s'.
Proof. unfold called. by destruct Etrk as (_&_&_&_&->&_). Qed.

Lemma mild_sweeping t0 p lo c c1 : sweeping t0 p lo c c1 s -> sweeping t0 p lo c c1 s'.
Proof. apply update_sweeping; [apply Hmild|apply Hmild|]. intros _. cbv zeta. apply Hmild. Qed.

Lemma mild_regime t0 p c1 : regime t0 p c1 s -> regime t0 p c1 s'.
Proof.
  assert (t_incomplete (s_trk s') = t_incomplete (s_trk s)) as Ei by by destruct Etrk as (_&_&_&?&_).
  destruct p; cbn [regime]; try done; rewrite ?mild_active, ?Ei;
    try (intros (c & Hc & Hs); exists c; split; [by apply mild_called|by apply mild_sweeping]).
  - destruct was, to; try done; (intros [Ha H]; split; [done|]); try by apply mild_others.
    destruct H as (c & Hc & Ho). exists c. split; [by apply mild_called|by apply mild_others].
  - intros [Ha H]. split; [done|]. by apply mild_others.
  - intros [Ha H]. split; [done|]. by apply mild_others.
  - intros [Ha H]. split; [done|]. destruct H as (c & Hc & Ho). exists c. split; [by apply mild_called|by apply mild_others].
  - intros [Hn H]. split; [by rewrite (dom_update s s' t th th')|]. intros t1 th1 Hne H1.
    destruct (mild_lookup _ _ H1) as (th0 & H0 & [(-> & -> & ->)|(_ & ->)]); [|by apply (H t1)].
    destruct (H t th Hne H0) as (Hw & Hc & Ha). split_and!; [by apply Hmild|by rewrite (mild_creds _ _ _ Hmild)|done].
  - intros (Ha & Hn & H). split; [done|]. split; [by rewrite (waiters_update s s' t th th') by (done || apply Hmild)|].
    intros t1 th1 Hne H1. destruct (mild_lookup _ _ H1) as (th0 & H0 & [(-> & -> & ->)|(_ & ->)]); [|by apply (H t1)].
    destruct (H t th Hne H0) as (Hw & Hc). split; [|by rewrite (mild_creds _ _ _ Hmild)].
    destruct Hw as [Hw|Hw]; [left|right]; by apply Hmild.
  - intros [Ha H]. split; [done|]. by apply mild_others.
Qed.

Lemma mild_fit : map_fit s -> map_fit s'.
Proof.
  destruct Etrk as (E1 & E2 & E3 & _ & _ & E6). unfold map_fit, the_map. by rewrite E1, E2, E3, E6, Epid.
Qed.

Lemma mild_uni m :
  uni m s -> sweep_pos (th_point th') -> (m = Some t -> unlocked_point (th_point th') = unlocked_point (th_point th)) -> uni m s'.
Proof.
  intros (Hp & Hf & Hm) Hpos Hpt. split; [|split; [by apply mild_fit|]].
  - intros t1 th1 H1. destruct (mild_lookup _ _ H1) as (th0 & H0 & [(-> & -> & ->)|(_ & ->)]); [|by apply Hp].
    split; [by eapply Hp|done].
  - destruct m as [t0|].
    + destruct Hm as (th0 & H0 & Hc & Hr). destruct (decide (t0 = t)) as [->|Hne].
      * assert (th0 = th) as -> by congruence. exists th'. rewrite E, lookup_insert_eq. split; [done|].
        split; [by apply Hmild|]. rewrite Hpt, (mild_creds _ _ _ Hmild) by done. by apply mild_regime.
      * exists th0. rewrite E, lookup_insert_ne by done. split; [done|]. split; [done|]. by apply mild_regime.
    + destruct Etrk as (E1 & _). rewrite E1, Epid, mild_active. destruct Hm as (Ha & c & Ho). split; [done|].
      exists c. by apply mild_others.
Qed.

End mild_step.

(** *** What does not matter *)

Lemma mild_same act th th' :
  th_hand th' = th_hand th -> th_sigs th' = th_sigs th -> th_creds th' = th_creds th -> mild act th th'.
Proof.
  intros E1 E2 E3. destruct th, th'. cbn in *. subst. split; try done.
  intros c c1 ret e []; [by apply busy_not|by eapply busy_queued|by eapply busy_begun|by eapply busy_called|by eapply busy_waiting].
Qed.

Lemma mild_move act p th : mild act th (at_point p th).
Proof. by apply mild_same. Qed.

Lemma one_genuine_tail q : one_genuine (false :: q) -> one_genuine q.
Proof.
  intros (a & b & E & Ha & Hb). destruct a as [|x a]; [done|]. injection E as <- ->. exists a, b. set_solver.
Qed.
Lemma one_genuine_head q : one_genuine (true :: q) -> true ∉ q.
Proof.
  intros (a & b & E & Ha & Hb). destruct a as [|x a]; [by injection E as ->|]. injection E as <- ->. set_solver.
Qed.
Lemma one_genuine_snoc q : one_genuine q -> one_genuine (q ++ [false]).
Proof. intros (a & b & -> & Ha & Hb). exists a, (b ++ [false]). rewrite <-app_assoc. set_solver. Qed.
Lemma one_genuine_new q : true ∉ q -> one_genuine (q ++ [true]).
Proof. intros H. exists q, []. set_solver. Qed.
Lemma one_genuine_in q : one_genuine q -> true ∈ q.
Proof. intros (a & b & -> & _ & _). set_solver. Qed.

Lemma mild_deliver act th g q :
  th_hand th = None -> th_sigs th = g :: q -> mild act th (with_sigs q (in_hand (Some (HStart g)) th)).
Proof.
  intros Hh Hq. split; cbn; try done.
  - intros [_ Hn]. rewrite Hq in Hn. split; cbn; destruct g; set_solver.
  - unfold waiting. rewrite Hh. by intros [? _].
  - by rewrite Hh.
  - intros c c1 ret e []; rewrite ?Hh in *; try done.
    + destruct H as [_ Hn]. rewrite Hq in Hn. apply busy_not; [|done..]. split; cbn; destruct g; set_solver.
    + rewrite Hq in *. destruct g.
      * eapply (busy_begun _ _ _ _ _ _ (HStart true)); try done; [by left|by apply one_genuine_head].
      * eapply busy_queued; try done. by apply one_genuine_tail.
    + destruct H as [H _]. by rewrite Hh in H.
Qed.

Lemma mild_foreign act th : mild act th (with_sigs (th_sigs th ++ [false]) th).
Proof.
  assert (true ∉ th_sigs th -> true ∉ th_sigs th ++ [false]) as Hn by set_solver.
  split; cbn; try done.
  - intros [? ?]. split; cbn; auto.
  - intros [? ?]. split; cbn; auto.
  - intros c c1 ret e [].
    + destruct H. apply busy_not; [split; cbn; auto|done..].
    + eapply busy_queued; try done. by apply one_genuine_snoc.
    + eapply busy_begun; cbn; try done. auto.
    + eapply busy_called; cbn; try done. auto.
    + destruct H. eapply busy_waiting; [split; cbn; auto|done..].
Qed.

(** The handler takes the lock. *)
Lemma mild_hlock act th h h' : th_hand th = Some h -> locked_hpoint h = Some h' -> mild act th (in_hand (Some h') th).
Proof.
  intros Hh Hl. destruct h; try done; injection Hl as <-; (split; cbn; rewrite ?Hh; try done;
    [by intros [H ?]; rewrite Hh in H; split|by intros [H ?]; rewrite Hh in H; split|]);
    intros c c1 ret e [H|H|h0 x H1 H2|h0 x H1 H2|x H]; unfold calm, waiting in *; rewrite ?Hh in *;
    try (by destruct H); try injection H1 as <-; try (by repeat destruct H2 as [H2|H2]).
  - destruct H. by apply busy_not.
  - by eapply busy_queued.
  - destruct H2 as [[= ->]|[|]]; try done. eapply busy_begun; try done. tauto.
  - destruct H2 as [[= ->]|]; try done. eapply busy_called; try done. tauto.
  - destruct H. by eapply busy_waiting.
Qed.

(** It finds that the signal is not for it, or goes on to the call. *)
Lemma mild_test act th g :
  th_hand th = Some (HTestLocked g) -> mild act th (in_hand (if act && g then Some HCall else None) th).
Proof.
  intros Hh. split; cbn; rewrite ?Hh; try done.
  - intros [H ?]. rewrite Hh in H. destruct g; [done|]. rewrite andb_false_r. by split.
  - intros [H ?]. by rewrite Hh in H.
  - by destruct (act && g).
  - intros c c1 ret e [H|x H|h0 x H1 H2|h0 x H1 H2|x H]; unfold calm, waiting in *; rewrite ?Hh in *;
      try (by destruct H); try injection H1 as <-; try (by repeat destruct H2 as [H2|H2]).
    + destruct H. destruct g; [done|]. rewrite andb_false_r. by apply busy_not.
    + destruct g; [done|]. rewrite andb_false_r. by eapply busy_queued.
    + destruct H2 as [|[[= ->]|]]; try done. subst act. eapply (busy_begun _ _ _ _ _ _ HCall); try done. tauto.
Qed.

(** It waits on. *)
Lemma mild_wait th : th_hand th = Some HWaitLocked -> mild true th (in_hand (Some HWait) th).
Proof.
  intros Hh. split; cbn; rewrite ?Hh; try done.
  - intros [H ?]. by rewrite Hh in H.
  - intros [H ?]. by split.
  - intros c c1 ret e [H|x H|h0 x H1 H2|h0 x H1 H2|x H]; unfold calm, waiting in *; rewrite ?Hh in *;
      try (by destruct H); try injection H1 as <-; try (by repeat destruct H2 as [H2|H2]).
    destruct H. by eapply busy_waiting.
Qed.

End uniform.
