(* ===== verification/PsxSweep.v ===== *)
(** The caller's sweeps of the thread directory, one lemma for each step of the
    loop of __psx_syscall(): how it carries over what PsxUniform.v says of the
    threads. *)

From stdpp Require Import gmap list sets fin_sets.
From Stdlib Require Import ZArith Lia.
From S2P Require Import Prelude Psx PsxMap PsxInv PsxUniform.

Open Scope Z_scope.

Section sweep.
Context {C : Type} (sysc : Z -> list Z -> C -> Z * C).
Implicit Types (s : @system C) (th : @thread C) (tr : tracker) (t e : Z) (c : C) (lo : locals).

Lemma busy_calm c c1 ret a x th : busy c c1 ret a x th -> x = None -> calm th /\ th_creds th = c.
Proof. intros [] Hx; try congruence; done. Qed.

Lemma calm_hand_cases h : calm_hand (Some h) = true -> h = HStart false \/ h = HTestLocked false.
Proof. destruct h as [[]|[]| | | | |]; try done; tauto. Qed.

Lemma calm_busy c c1 ret a x th : busy c c1 ret a x th -> calm th -> th_creds th = c.
Proof.
  intros [H|y H|h y H H'|h y H H'|y [H _]] [Hc _]; try done; exfalso.
  - rewrite H in Hc. apply calm_hand_cases in Hc. intuition congruence.
  - destruct (th_hand th) as [h|]; [|done]. apply calm_hand_cases in Hc as [->| ->]; done.
Qed.

Lemma waiting_not_calm th : waiting th -> ~ calm th.
Proof. intros [H _] [H' _]. destruct (th_hand th) as [[]|]; done. Qed.

Lemma busy_is_waiting c c1 ret a x th : busy c c1 ret a x th -> waiting th -> th_creds th = c1 /\ a = true.
Proof.
  intros [H|y H|h y H H'|h y H H'|y H] Hw; try done; [by apply waiting_not_calm in Hw|exfalso..];
    destruct Hw as [Hw _].
  all: first [by rewrite H in Hw; repeat destruct H' as [H'|H']; subst | by destruct (th_hand th) as [[]|]].
Qed.

(** Only an active command makes a thread busy. *)
Lemma busy_active c c1 ret a x th : busy c c1 ret a x th -> busy c c1 ret true x th.
Proof. intros []; subst; [by apply busy_not|by eapply busy_queued|by eapply busy_begun|by eapply busy_called|by eapply busy_waiting]. Qed.

Lemma sweep_read t0 lo c c1 s :
  1 <= l_sweep lo -> sweeping t0 (Sweep lo) lo c c1 s ->
  sweeping t0 (Read (next_sweep lo)) (next_sweep lo) c c1 (with_dir (dom (s_threads s)) ∅ false s).
Proof.
  intros Hpos [H1 H3 H4 H5 H6 H7 H8 H9]. split; try done.
  - intros t th x Hne Hth Hc He _. right. split; [done|]. destruct (H7 t th x Hne Hth Hc He ltac:(done)) as [E|[]]; [|done].
    cbn. split; [lia|]. split; [by eapply elem_of_dom_2|set_solver].
  - intros _. split; try done.
    + cbn. lia.
    + cbn. assert ((∅ : gset Z) ∖ {[t0]} ∖ ∅ = ∅) as -> by set_solver. by rewrite size_empty.
Qed.

Lemma read_self t0 lo c c1 s :
  sweeping t0 (Read lo) lo c c1 s ->
  sweeping t0 (Read lo) lo c c1 (with_dir (s_start s) (s_seen s ∪ {[t0]}) (s_churn s) s).
Proof.
  intros [H1 H3 H4 H5 H6 H7 H8 H9]. split; try done.
  - intros t th x Hne Hth Hc He Hcur. destruct (H7 t th x Hne Hth Hc He Hcur) as [|(? & ? & ? & ?)]; [by left|right].
    cbn. split_and!; try done. set_solver.
  - intros Hp. destruct (H9 Hp) as [Dp Dn Dw Dc Dcur De]. split; try done; cbn in *.
    + intros t Hs Ht Hne _. apply Dw; [done| |done|done]. set_solver.
    + rewrite Dc. f_equal. f_equal. set_solver.
Qed.

Lemma read_look t0 lo e c c1 s :
  0 < e -> e <> t0 -> e ∉ s_seen s -> sweeping t0 (Read lo) lo c c1 s ->
  sweeping t0 (Look lo e) lo c c1 (with_dir (s_start s) (s_seen s ∪ {[e]}) (s_churn s) s).
Proof.
  intros He Hne Hseen [H1 H3 H4 H5 H6 H7 H8 H9]. split; try done.
  - intros t th x Ht Hth Hc Hx Hcur. cbn in Hcur. destruct (H7 t th x Ht Hth Hc Hx ltac:(done)) as [|(? & ? & ? & ?)]; [by left|right].
    cbn. split_and!; try done. assert (t <> e) by congruence. set_solver.
  - intros _. destruct (H9 ltac:(done)) as [Dp Dn Dw Dc Dcur De]. split; try done; cbn in *.
    + intros t Hs Ht Hne' Hcur. apply Dw; [done| |done|done]. assert (t <> e) by congruence. set_solver.
    + rewrite Dc. f_equal. f_equal. set_solver.
    + intros e' [= <-]. set_solver.
Qed.

Lemma read_closing t0 lo c c1 s :
  s_start s ⊆ s_seen s -> sweeping t0 (Read lo) lo c c1 s -> sweeping t0 (Closing lo) lo c c1 s.
Proof.
  intros Hend [H1 H3 H4 H5 H6 H7 H8 H9]. split; try done.
  - intros t th x Ht Hth Hc Hx Hcur. destruct (H7 t th x Ht Hth Hc Hx Hcur) as [|(? & ? & ? & ?)]; [by left|right]. done.
  - intros _. destruct (H9 ltac:(done)) as [Dp Dn Dw Dc Dcur De]. by split.
Qed.

(** From one point of the same entry to the next, nothing else changing. *)
Lemma point_on t0 p p' lo c c1 s :
  p <> Sweep lo -> p' <> Sweep lo -> (forall l, p' <> Closing l) -> current p' = current p ->
  sweeping t0 p lo c c1 s -> point_fact t0 p' s -> sweeping t0 p' lo c c1 s.
Proof.
  intros Hp Hp' Hcl Ecur [H1 H3 H4 H5 H6 H7 H8 H9] Hpt. split; try done.
  - intros t th x Ht Hth Hc Hx Hcur. rewrite Ecur in Hcur.
    destruct (H7 t th x Ht Hth Hc Hx Hcur) as [|(? & ? & ? & ?)]; [by left|by right].
  - intros _. destruct (H9 Hp) as [Dp Dn Dw Dc Dcur De].
    split; try done; rewrite ?Ecur; try done. intros E. by apply Hcl in E.
Qed.

Section positive.
Variables (s : @system C) (t0 : Z).
Hypothesis Hposs : forall t th, s_threads s !! t = Some th -> 0 < t.
Hypothesis Hpos0 : 0 < t0.

Lemma grow_add lo e n c c1 :
  sweeping t0 (Grow lo e n) lo c c1 s ->
  sweeping t0 (Add lo e) lo c c1 (with_trk (psx_unlock (set_map (rehash n (l_sweep lo - 1) (the_map s)) (s_trk s))) s).
Proof.
  intros [H1 H3 H4 H5 H6 H7 H8 H9]. destruct (H9 ltac:(done)) as [Dp Dn Dw Dc Dcur De].
  cbn in H8. destruct H8 as (Hpos & Hne & Hx0 & Hxe & k & j & Hkj & Hlen & -> & Hmod).
  destruct (rehash_spec (the_map s) k j (l_sweep lo - 1) H1 ltac:(lia) ltac:(lia) Hlen ltac:(lia)) as (R1 & R2 & R3 & R4).
  set (r := rehash (2 ^ j) (l_sweep lo - 1) (the_map s)) in *.
  assert (forall t x, 0 < t -> entry r t = Some x -> entry (the_map s) t = Some x) as Hsub.
  { intros t x Ht Hx. rewrite R3 in Hx by done. destruct (entry (the_map s) t) as [y|]; [|done]. by destruct (x_sweep y <? _). }
  assert (entry (the_map s) e = None) as Hee by (unfold entry; by apply Z.eqb_neq in Hxe as ->).
  split; unfold the_map; cbn [s_trk with_trk psx_unlock set_mu t_map set_map s_threads s_start s_seen]; fold r; try done.
  - intros t th Ht Hth. pose proof (Hposs _ _ Hth) as Hpt. pose proof (H3 t th Ht Hth) as Hb.
    destruct (decide (calm th)) as [Hc|Hc].
    + change (active _) with (active (s_trk s)). apply busy_not; [done| |].
      * by apply (calm_busy _ _ _ _ _ _ Hb).
      * intros x Hx. apply Hsub in Hx; [|done].
        destruct Hb as [? ? Hn|? ? ? ? ? E|? ? ? ? ? ? ? E|? ? ? ? ? ? ? E|? Hw]; [by apply Hn|congruence..|].
        by apply waiting_not_calm in Hw.
    + rewrite R3 by done. destruct (entry (the_map s) t) as [x|] eqn:Ex; [|done].
      destruct (Z.ltb_spec (x_sweep x) (l_sweep lo - 1)); [exfalso|done].
      destruct (H7 t th x Ht Hth Hc Ex) as [E|(_ & E & _)]; [cbn; congruence|lia|lia].
  - rewrite R3, H4 by done. done.
  - intros t x Ht Hx. apply Hsub in Hx; [|done]. by apply H5.
  - intros t Ht Hx. destruct (entry r t) as [x|] eqn:Ex; [|done]. apply Hsub in Ex; [|done]. apply (H6 t); [done|congruence].
  - intros t th x Ht Hth Hc Hx Hcur. apply Hsub in Hx; [|by eapply Hposs].
    destruct (H7 t th x Ht Hth Hc Hx Hcur) as [|(? & ? & ? & ?)]; [by left|by right].
  - split; [done|]. split; [done|]. by apply R4.
Qed.

Lemma add_kill lo e c c1 :
  sweeping t0 (Add lo e) lo c c1 s ->
  let m := upd_ref (fun x => mkRef (x_sweep x) 1 e (x_retval x)) e (the_map s) in
  sweeping t0 (Kill lo e) lo c c1 (with_trk (psx_unlock (set_active true (set_map m (s_trk s)))) s).
Proof.
  intros [H1 H3 H4 H5 H6 H7 H8 H9] m. destruct (H9 ltac:(done)) as [Dp Dn Dw Dc Dcur De].
  cbn in H8. destruct H8 as (Hpos & Hne & Hx0).
  assert (forall t, 0 < t -> map_ok m /\ entry m t = if decide (t = e) then Some (mkRef (x_sweep (ref_at (the_map s) e)) 1 e
    (x_retval (ref_at (the_map s) e))) else entry (the_map s) t) as Hm by (intros t Ht; by apply entry_add).
  assert (entry (the_map s) e = None) as Hee by (unfold entry; rewrite Hx0; by destruct (Z.eqb_spec 0 e); [lia|]).
  split; unfold the_map; cbn [s_trk with_trk psx_unlock set_mu t_map set_map set_active set_cmd s_threads s_start s_seen];
    unfold active; cbn [c_active t_cmd]; try done.
  - by apply (Hm t0).
  - intros t th Ht Hth. destruct (Hm t (Hposs _ _ Hth)) as [_ ->]. pose proof (H3 t th Ht Hth) as Hb. case_decide.
    + subst. apply busy_calm in Hb as [Hc <-]; [|done]. apply busy_not; [done..|]. by intros x [= <-].
    + by eapply busy_active.
  - destruct (Hm t0 Hpos0) as [_ ->]. by rewrite decide_False.
  - intros t x Ht Hx. destruct (Hm t Ht) as [_ E]. rewrite E in Hx. case_decide; [by injection Hx as <-|by apply H5].
  - intros t th x Ht Hth Hc Hx Hcur. destruct (Hm t (Hposs _ _ Hth)) as [_ E]. rewrite E in Hx.
    case_decide; [subst; by destruct Hcur|].
    destruct (H7 t th x Ht Hth Hc Hx Hcur) as [|(? & ? & ? & ?)]; [by left|by right].
  - cbn. split; [done|]. split; [done|]. unfold the_map, active. cbn. split; [|split; [done|]].
    + destruct (Hm e Hpos) as [_ ->]. rewrite decide_True by done. by eexists.
    + intros th Hth. split; [|done]. by apply (busy_calm _ _ _ _ _ _ (H3 e th Hne Hth)).
Qed.

Lemma mark_read lo e c c1 :
  sweeping t0 (Mark lo e) lo c c1 s ->
  let m := upd_ref (fun x => mkRef (l_sweep lo) (x_pending x) (x_tid x) (x_retval x)) e (the_map s) in
  let lo' := count_ref (ref_at m e) lo in
  sweeping t0 (Read lo') lo' c c1 (with_trk (psx_unlock (set_map m (s_trk s))) s).
Proof.
  intros [H1 H3 H4 H5 H6 H7 H8 H9] m lo'. destruct (H9 ltac:(done)) as [[Dp1 Dp2] Dn Dw Dc Dcur De].
  cbn in H8. destruct H8 as (Hpos & Hne & Hent).
  set (f := fun x => mkRef (l_sweep lo) (x_pending x) (x_tid x) (x_retval x)) in *.
  assert (forall t, map_ok m /\ entry m t = if decide (t = e) then f <$> entry (the_map s) e else entry (the_map s) t) as Hm
    by (intros t; by apply entry_upd).
  destruct (entry (the_map s) e) as [x0|] eqn:Ex0; [|done]. cbn [fmap option_fmap option_map] in Hm.
  assert (ref_at m e = f x0) as Href.
  { destruct (Hm e) as [_ E]. rewrite decide_True in E by done. unfold entry in E. destruct (_ =? e); [|done]. by injection E as ->. }
  assert (forall t x, entry m t = Some x -> exists y, entry (the_map s) t = Some y /\ x_pending x = x_pending y) as Hback.
  { intros t x Hx. destruct (Hm t) as [_ E]. rewrite E in Hx. case_decide; [subst; injection Hx as <-; by exists x0|by exists x]. }
  split; unfold the_map; cbn [s_trk with_trk psx_unlock set_mu t_map set_map s_threads s_start s_seen]; try done.
  - apply (Hm e).
  - intros t th Ht Hth. destruct (Hm t) as [_ ->]. pose proof (H3 t th Ht Hth) as Hb.
    change (l_ret lo') with (l_ret lo). change (active _) with (active (s_trk s)). case_decide; [subst|done].
    rewrite Ex0 in Hb. destruct Hb as [? ? Hn|x ? ? ? ? [= <-]|h x ? ? ? ? ? [= <-]|h x ? ? ? ? ? [= <-]|x ? ? ? [= <-]];
      [apply busy_not; try done; intros x [= <-]; by apply (Hn x0)|by eapply busy_queued|by eapply busy_begun|by eapply busy_called|by eapply busy_waiting].
  - destruct (Hm t0) as [_ ->]. by rewrite decide_False.
  - intros t x Ht Hx Hz. destruct (Hback t x Hx) as (y & Hy & E). apply (H5 t y Ht Hy). congruence.
  - intros t Ht Hx. destruct (entry m t) as [x|] eqn:Ex; [|done]. destruct (Hback t x Ex) as (y & Hy & _). apply (H6 t Ht). congruence.
  - intros t th x Ht Hth Hc Hx _. destruct (Hm t) as [_ E]. rewrite E in Hx. case_decide; [injection Hx as <-; by left|].
    destruct (H7 t th x Ht Hth Hc Hx ltac:(cbn; congruence)) as [|(? & ? & ? & ?)]; [by left|by right].
  - intros _. subst lo'. rewrite Href. split; cbn [current s_seen s_start s_churn s_threads with_trk]; try done.
    + cbn. destruct (x_pending x0 =? 0); lia.
    + cbn. intros t Hsome Hs Ht _. destruct (Z.eqb_spec (x_pending x0) 0) as [Hz|Hz]; [|lia].
      destruct (decide (t = e)) as [->|]; [by apply (H5 e x0)|]. apply Dw; [done..|cbn; congruence].
    + cbn. rewrite Dc. cbn. assert (e ∈ s_seen s) as Hin by by apply Dcur.
      assert (s_seen s ∖ {[t0]} ∖ ∅ = {[e]} ∪ (s_seen s ∖ {[t0]} ∖ ({[e]} ∪ ∅))) as ->.
      { apply set_eq. intros x. destruct (decide (x = e)) as [->|]; set_solver. }
      pose proof (size_union (C := gset Z) {[e]} (s_seen s ∖ {[t0]} ∖ ({[e]} ∪ ∅)) ltac:(set_solver)) as Hu.
      rewrite size_singleton in Hu. lia.
Qed.

(** tkill(): the thread, if it is still there, is calm until the signal joins
    its queue. *)
Lemma kill_mark lo e c c1 :
  sweeping t0 (Kill lo e) lo c c1 s -> sweeping t0 (Mark lo e) lo c c1 (tkill e s).
Proof.
  intros Hs. pose proof Hs as [H1 H3 H4 H5 H6 H7 H8 H9]. cbn in H8.
  destruct H8 as (Hpos & Hne & (x & Hx & Hx0) & Hact & Hcalm).
  assert (sweeping t0 (Mark lo e) lo c c1 s) as Hm.
  { apply (point_on t0 (Kill lo e)); try done. cbn. split_and!; [done..|congruence]. }
  unfold tkill. destruct (s_threads s !! e) as [th|] eqn:Hth; [|done].
  destruct (Hcalm th eq_refl) as [Hc _]. destruct Hm as [M1 M3 M4 M5 M6 M7 M8 M9].
  set (th' := with_sigs (th_sigs th ++ [true]) th). set (s' := with_thread e th' s).
  assert (forall t th1, s_threads s' !! t = Some th1 -> (t = e /\ th1 = th') \/ (t <> e /\ s_threads s !! t = Some th1)) as Hlk.
  { intros t th1 H. cbn in H. destruct (decide (t = e)) as [->|Hd].
    - rewrite lookup_insert_eq in H. injection H as <-. by left.
    - rewrite lookup_insert_ne in H by done. by right. }
  assert (forall t th1, s_threads s !! t = Some th1 -> waiting th1 -> s_threads s' !! t = Some th1) as Hkeep.
  { intros t th1 H Hw. cbn. rewrite lookup_insert_ne; [done|]. intros <-. assert (th1 = th) as -> by congruence.
    by apply waiting_not_calm in Hw. }
  split; try done.
  - intros t th1 Ht Hth1. destruct (Hlk _ _ Hth1) as [[-> ->]|[_ H]]; [|by apply H3].
    pose proof (calm_busy _ _ _ _ _ _ (H3 e th Hne Hth) Hc) as Hcr. destruct Hc as [Hc1 Hc2].
    apply (busy_queued _ _ _ _ _ _ x); [done|by apply one_genuine_new|done..].
  - intros t y Ht Hy Hz. destruct (H5 t y Ht Hy Hz) as (th1 & Hth1 & Hw). exists th1. by split; [apply Hkeep|].
  - intros t th1 y Ht Hth1 Hnc Hy Hcur. destruct (Hlk _ _ Hth1) as [[-> ->]|[_ H]]; [by destruct Hcur|by eapply M7].
  - intros _. destruct (M9 ltac:(done)) as [Dp Dn Dw Dc Dcur De]. split; try done.
    + by rewrite (dom_update sysc s s' e th th').
    + intros t Hsm Hseen Ht Hcur. destruct (Dw t Hsm Hseen Ht Hcur) as (th1 & Hth1 & Hw). exists th1. by split; [apply Hkeep|].
Qed.

Lemma closing_sweep lo v c c1 :
  sweeping t0 (Closing lo) lo c c1 s -> sweeping t0 (Sweep (set_verified v lo)) (set_verified v lo) c c1 s.
Proof.
  intros [H1 H3 H4 H5 H6 H7 H8 H9]. split; try done. intros t th x Ht Hth Hc Hx _. left.
  destruct (H7 t th x Ht Hth Hc Hx ltac:(done)) as [E|(_ & _ & Hin & Hout)]; [done|].
  destruct (H9 ltac:(done)) as [_ _ _ _ _ De]. by destruct Hout; apply De.
Qed.

(** The last sweep has found every other thread waiting in the handler. *)
Lemma closing_finish lo c c1 :
  sweeping t0 (Closing lo) lo c c1 s -> l_some lo = 0 -> s_churn s = false ->
  l_incomplete lo = Z.of_nat (size (dom (s_threads s) ∖ {[t0]})) /\
  forall t th, t <> t0 -> s_threads s !! t = Some th -> waiting th /\ th_creds th = c1 /\ active (s_trk s) = true.
Proof.
  intros [H1 H3 H4 H5 H6 H7 H8 H9] Hsome Hch. destruct (H9 ltac:(done)) as [Dp Dn Dw Dc Dcur De].
  assert (forall t th, t <> t0 -> s_threads s !! t = Some th -> waiting th) as Hw.
  { intros t th Ht Hth. destruct (Dw t Hsome) as (th' & Hth' & Hw); [|done|done|congruence].
    apply De; [done|]. apply Dn; [done|]. by eapply elem_of_dom_2. }
  split.
  - rewrite Dc. f_equal. f_equal. cbn. apply set_eq. intros x.
    assert (x ∈ s_seen s -> x <> t0 -> x ∈ dom (s_threads s)) as Hin.
    { intros Hx Hne. destruct (Dw x Hsome Hx Hne ltac:(done)) as (th & Hth & _). by eapply elem_of_dom_2. }
    assert (x ∈ dom (s_threads s) -> x ∈ s_seen s) as Hout by (intros Hx; by apply De, Dn).
    set_solver.
  - intros t th Ht Hth. pose proof (Hw t th Ht Hth) as Hwt. split; [done|]. by eapply busy_is_waiting; [apply (H3 t th)|].
Qed.

End positive.

End sweep.
