(* ===== verification/PsxCall.v ===== *)
(** The other steps of a call of psx_syscall(): the caller's own, those of the
    handler, and the creation and the exit of a thread; each keeps the invariant
    of PsxUniform.v. *)

From stdpp Require Import gmap list sets fin_sets.
From Stdlib Require Import ZArith Lia.
From S2P Require Import Prelude Psx PsxMap PsxInv PsxUniform PsxSweep.

Open Scope Z_scope.

Section call.
Context {C : Type} (sysc : Z -> list Z -> C -> Z * C).
Implicit Types (s : @system C) (th : @thread C) (tr : tracker) (l m : option Z) (t e : Z) (c : C) (lo : locals).

(** *** Whose call it is *)

Lemma master_is l m s t th :
  base l m s -> s_threads s !! t = Some th -> phase (th_point th) <> None -> m = Some t.
Proof. intros Hb Hth Hp. by apply (base_thread _ _ _ Hb _ _ Hth). Qed.

Lemma master_phase l m s t th :
  base l m s -> s_threads s !! t = Some th -> m = Some t -> phase (th_point th) <> None.
Proof. intros Hb Hth Hm. by apply (base_thread _ _ _ Hb _ _ Hth). Qed.

Lemma base_master l t s : base l (Some t) s -> exists th, s_threads s !! t = Some th /\ phase (th_point th) <> None.
Proof.
  intros Hb. assert (s_threads s !! t <> None) as Hd by by (apply (base_dom _ _ _ Hb); right).
  destruct (s_threads s !! t) as [th|] eqn:Hth; [|done]. exists th. split; [done|]. by eapply master_phase.
Qed.

(** A thread that is in a call before and after a step, or in none before and
    after, does not change whose call it is. *)
Lemma same_master l m l' m' s s' :
  base l m s -> base l' m' s' ->
  (forall t th, s_threads s !! t = Some th -> phase (th_point th) <> None ->
     exists th', s_threads s' !! t = Some th' /\ phase (th_point th') <> None) ->
  (forall t th', s_threads s' !! t = Some th' -> phase (th_point th') <> None ->
     exists th, s_threads s !! t = Some th /\ phase (th_point th) <> None) ->
  m' = m.
Proof.
  intros Hb Hb' H1 H2. destruct m as [t|].
  - destruct (base_master _ _ _ Hb) as (th & Hth & Hp). destruct (H1 t th Hth Hp) as (th' & Hth' & Hp').
    by eapply master_is.
  - destruct m' as [t|]; [exfalso|done].
    destruct (base_master _ _ _ Hb') as (th & Hth & Hp). destruct (H2 t th Hth Hp) as (th' & Hth' & Hp').
    by pose proof (master_is _ _ _ _ _ Hb Hth' Hp').
Qed.

Lemma same_master_threads l m l' m' s s' : base l m s -> base l' m' s' -> s_threads s' = s_threads s -> m' = m.
Proof. intros Hb Hb' E. eapply same_master; [exact Hb|exact Hb'|..]; rewrite E; eauto. Qed.

Lemma same_master_update l m l' m' s s' t th th' :
  base l m s -> base l' m' s' -> s_threads s !! t = Some th -> s_threads s' = <[t := th']> (s_threads s) ->
  (phase (th_point th') = None <-> phase (th_point th) = None) -> m' = m.
Proof.
  intros Hb Hb' Hth E Hp. eapply same_master; [exact Hb|exact Hb'|..]; intros t1 th1; rewrite E; destruct (decide (t1 = t)) as [->|Hne].
  - rewrite lookup_insert_eq. intros H1 Hph. exists th'. split; [done|]. rewrite Hp. congruence.
  - rewrite lookup_insert_ne by done. by exists th1.
  - rewrite lookup_insert_eq. intros [= <-] Hph. exists th. split; [done|]. by rewrite <-Hp.
  - rewrite lookup_insert_ne by done. by exists th1.
Qed.

Lemma master_ends l m l' m' s s' t th th' :
  base l m s -> base l' m' s' -> s_threads s !! t = Some th -> s_threads s' = <[t := th']> (s_threads s) ->
  phase (th_point th) <> None -> phase (th_point th') = None -> m = Some t /\ m' = None.
Proof.
  intros Hb Hb' Hth E Hp Hp'. pose proof (master_is _ _ _ _ _ Hb Hth Hp) as ->. split; [done|].
  destruct m' as [t1|]; [exfalso|done].
  destruct (base_master _ _ _ Hb') as (th1 & H1 & Hph). rewrite E in H1. destruct (decide (t1 = t)) as [->|Hne].
  - rewrite lookup_insert_eq in H1. congruence.
  - rewrite lookup_insert_ne in H1 by done. pose proof (master_is _ _ _ _ _ Hb H1 Hph). congruence.
Qed.

(** A state that is in use belongs to this process. *)
Lemma base_ours l m s : base l m s -> l <> None \/ m <> None -> t_pid (s_trk s) = s_pid s.
Proof.
  intros Hb H. destruct (Z.eq_dec (t_pid (s_trk s)) (s_pid s)) as [|Hne]; [done|].
  apply (base_fresh _ _ _ Hb) in Hne. intuition congruence.
Qed.

Lemma fit_ok s s' :
  map_fit s -> t_pid (s_trk s) = s_pid s -> s_pid s' = s_pid s -> t_pid (s_trk s') = t_pid (s_trk s) ->
  t_initialized (s_trk s') = t_initialized (s_trk s) ->
  (t_state (s_trk s') = PSX_EXITING \/ map_ok (the_map s')) -> map_fit s'.
Proof.
  intros (_ & _ & F) Hp E1 E2 E3 Hm. unfold map_fit. rewrite E1, E2, E3. split; [by intros _|]. split; [congruence|auto].
Qed.

(** *** When no call is in progress *)

Lemma uni_none s s' t th th' :
  uni sysc None s -> s_threads s !! t = Some th -> s_threads s' = <[t := th']> (s_threads s) ->
  (calm th -> calm th') -> th_creds th' = th_creds th -> sweep_pos (th_point th') ->
  map_fit s' -> (t_pid (s_trk s') = s_pid s' -> active (s_trk s') = false) ->
  uni sysc None s'.
Proof.
  intros (Hp & _ & _ & c & Ho) Hth E Hc Hcr Hpos Hf Ha. split; [|split; [done|split; [done|]]].
  - intros t1 th1 H1. rewrite E in H1. apply lookup_insert_Some in H1 as [[<- <-]|[_ H1]]; [|by apply Hp].
    split; [by apply (Hp t th)|done].
  - exists c. intros t1 th1 _ H1. rewrite E in H1. apply lookup_insert_Some in H1 as [[<- <-]|[_ H1]]; [|by apply (Ho t1)].
    destruct (Ho t th ltac:(done) Hth) as [? <-]. auto.
Qed.

(** psx_lock() has taken the lock. *)
Lemma uni_acquire l m s s' t th th' tr :
  base l m s -> uni sysc m s -> s_threads s !! t = Some th -> psx_lock (s_pid s) (s_trk s) = Some tr ->
  s' = with_thread t th' (with_trk tr s) -> mild (active (s_trk s)) th th' -> sweep_pos (th_point th') ->
  (m = Some t -> unlocked_point (th_point th') = unlocked_point (th_point th)) -> uni sysc m s'.
Proof.
  intros Hb Hu Hth Hlk -> Hmild Hpos Hpt. unfold psx_lock in Hlk. destruct (_ =? s_pid s); [done|]. cbn [t_pid set_mu] in Hlk.
  destruct (Z.eqb_spec (t_pid (s_trk s)) (s_pid s)) as [Ep|Ep]; cbn [negb] in Hlk; injection Hlk as <-.
  - by eapply (mild_uni sysc s _ t th th').
  - apply (base_fresh _ _ _ Hb) in Ep as Hlm. destruct Hlm as [_ ->]. pose proof Hu as (_ & (F1 & F2 & F3) & _).
    eapply uni_none; [exact Hu|exact Hth|done|apply Hmild|apply Hmild|done| |done].
    unfold map_fit, the_map. cbn. destruct (t_initialized (s_trk s)) eqn:Ei; cbn; rewrite ?Ei; cbn.
    + split; [|done]. intros _. right. by apply F2.
    + split; [|done]. intros _. right. apply (map_ok_replicate 8). lia.
Qed.

(** *** The caller moves on *)

Lemma master_moves s1 s' t0 th p :
  s_threads s1 !! t0 = Some th -> calm th -> s_threads s' = <[t0 := at_point p th]> (s_threads s1) ->
  s_pid s' = s_pid s1 -> same_trk (s_trk s1) (s_trk s') -> same_dir s1 s' ->
  regime sysc t0 (unlocked_point p) (th_creds th) s1 -> map_fit s1 ->
  (forall t th, s_threads s1 !! t = Some th -> 0 < t /\ sweep_pos (th_point th)) -> sweep_pos p ->
  uni sysc (Some t0) s'.
Proof.
  intros Hth Hc E Ep Et Ed Hr Hf Hp Hpos. split; [|split].
  - intros t1 th1 H1. rewrite E in H1. apply lookup_insert_Some in H1 as [[<- <-]|[_ H1]]; [|by apply Hp].
    split; [by apply (Hp t0 th)|done].
  - by eapply (mild_fit s1).
  - exists (at_point p th). rewrite E, lookup_insert_eq. split; [done|]. split; [done|].
    eapply (mild_regime sysc s1 s' t0 th); try done. apply mild_move.
Qed.

(** *** The handler *)

Lemma one_dec th : calm th \/ ~ calm th.
Proof. destruct (decide (calm_hand (th_hand th) = true /\ true ∉ th_sigs th)); [by left|by right]. Qed.

(** A thread that is neither calm nor waiting is one that a sweep has reached. *)
Lemma uni_sweeping m s t th :
  uni sysc m s -> s_threads s !! t = Some th -> ~ calm th -> ~ waiting th ->
  exists t0 th0 lo c, m = Some t0 /\ t <> t0 /\ s_threads s !! t0 = Some th0 /\ calm th0 /\
    let p := unlocked_point (th_point th0) in let c1 := th_creds th0 in
    called sysc lo c c1 s /\ sweeping t0 p lo c c1 s /\
    forall s', called sysc lo c c1 s' -> sweeping t0 p lo c c1 s' -> regime sysc t0 p c1 s'.
Proof.
  intros (_ & _ & Hm) Hth Hnc Hnw. destruct m as [t0|].
  - destruct Hm as (th0 & H0 & Hc0 & Hr). assert (t <> t0) as Hne by (intros ->; congruence).
    assert (forall c, ~ others_calm (Some t0) c s) as Ho by (intros c H; by destruct (H t th ltac:(congruence) Hth)).
    assert ((exists lo c, called sysc lo c (th_creds th0) s /\ sweeping t0 (unlocked_point (th_point th0)) lo c (th_creds th0) s /\
      forall s', called sysc lo c (th_creds th0) s' -> sweeping t0 (unlocked_point (th_point th0)) lo c (th_creds th0) s' ->
      regime sysc t0 (unlocked_point (th_point th0)) (th_creds th0) s')) as (lo & c & H).
    { destruct (unlocked_point (th_point th0)) as [| | | | | |lo|lo|lo ?|lo ? ?| |lo ?| |lo ?|lo ?| |lo| | | | | | | | | | |]; cbn [regime] in Hr; try done;
        try (destruct Hr as (c & H1 & H2); exists lo, c; split; [done|]; split; [done|]; intros s' ? ?; by exists c);
        try (destruct Hr as [_ Hr]; by apply Ho in Hr); try (destruct Hr as (_ & c & _ & Hr); by apply Ho in Hr).
      - destruct was, to; try done; destruct Hr as [_ Hr]; first [by apply Ho in Hr|destruct Hr as (c & _ & Hr); by apply Ho in Hr].
      - destruct Hr as [_ Hr]. by destruct (Hr t th Hne Hth).
      - destruct Hr as (_ & _ & Hr). by destruct (Hr t th Hne Hth) as [[] _]. }
    exists t0, th0, lo, c. done.
  - destruct Hm as (_ & c & Hm). by destruct (Hm t th ltac:(done) Hth).
Qed.

(** Its step, when the sweep's facts carry over. *)
Lemma hand_keeps m s s' t th th' t0 th0 :
  uni sysc m s -> m = Some t0 -> t <> t0 -> s_threads s !! t0 = Some th0 -> calm th0 -> s_threads s !! t = Some th ->
  s_threads s' = <[t := th']> (s_threads s) -> th_point th' = th_point th -> map_fit s' ->
  regime sysc t0 (unlocked_point (th_point th0)) (th_creds th0) s' -> uni sysc m s'.
Proof.
  intros (Hp & _ & _) -> Hne H0 Hc0 Hth E Ept Hf Hr. split; [|split; [done|]].
  - intros t1 th1 H1. rewrite E in H1. apply lookup_insert_Some in H1 as [[<- <-]|[_ H1]]; [|by apply Hp].
    rewrite Ept. by apply (Hp t th).
  - exists th0. rewrite E, lookup_insert_ne by done. done.
Qed.

Lemma uni_hcall m s t th r c' :
  uni sysc m s -> s_threads s !! t = Some th -> th_hand th = Some HCall ->
  sysc (c_nr (t_cmd (s_trk s))) (call_args (t_cmd (s_trk s))) (th_creds th) = (r, c') ->
  uni sysc m (with_thread t (with_creds c' (in_hand (Some (HRet r)) th)) s).
Proof.
  intros Hu Hth Hh Hsys.
  assert (~ calm th /\ ~ waiting th) as [Hnc Hnw] by (unfold calm, waiting; rewrite Hh; split; by intros []).
  destruct (uni_sweeping _ _ _ _ Hu Hth Hnc Hnw) as (t0 & th0 & lo & c & Em & Hne & H0 & Hc0 & Hcall & Hsw & Hback).
  eapply (hand_keeps m s _ t th); try done; [by apply Hu|]. apply Hback; [done|].
  eapply (update_sweeping sysc s _ t th); try done. intros _. cbv zeta. intros [H|x H|h x H H'|h x H H'|x H]; try done.
  - by rewrite Hh in H.
  - rewrite Hh in H. injection H as <-. unfold called in Hcall. subst. rewrite Hcall in Hsys. injection Hsys as <- <-.
    eapply (busy_called _ _ _ _ _ _ (HRet (l_ret lo))); try done. by left.
  - rewrite Hh in H. injection H as <-. by destruct H'.
Qed.

(** A thread in the handler whose call is done records its result. *)
Section report.
Variables (s : @system C) (t t0 : Z) (th : @thread C) (r : Z) (p : point) (lo : locals) (c c1 : C) (x : thread_ref).
Hypothesis Hpos : 0 < t.
Hypothesis Hne : t <> t0.
Hypothesis Hth : s_threads s !! t = Some th.
Hypothesis Hh : th_hand th = Some (HReportLocked r).
Hypothesis Hq : true ∉ th_sigs th.
Hypothesis Hc : th_creds th = c1.
Hypothesis Ha : active (s_trk s) = true.
Hypothesis Hx : entry (the_map s) t = Some x.
Let f := fun x => mkRef (x_sweep x) 0 (x_tid x) r.
Let map' := upd_ref f t (the_map s).
Let th' := in_hand (Some HWait) th.
Let s' := with_thread t th' (with_trk (psx_unlock (set_map map' (s_trk s))) s).

Lemma report_map : map_ok (the_map s) -> map_ok map' /\
  (forall t1, entry map' t1 = if decide (t1 = t) then Some (f x) else entry (the_map s) t1) /\
  (forall t1, x_tid (ref_at map' t1) = x_tid (ref_at (the_map s) t1)).
Proof.
  intros Hm. assert (forall t1, map_ok map' /\ entry map' t1 = if decide (t1 = t) then Some (f x) else entry (the_map s) t1) as H.
  { intros t1. pose proof (entry_upd f t (the_map s) t1 Hm Hpos) as H. rewrite Hx in H. by apply H. }
  split; [apply (H t)|]. split; [apply H|]. intros t1. unfold map'. rewrite ref_at_upd by done. by case_decide.
Qed.

Lemma report_point : map_ok (the_map s) -> point_fact t0 p s -> point_fact t0 p s'.
Proof.
  intros Hm. destruct (report_map Hm) as (M1 & M2 & M3). destruct p; try done; cbn; unfold the_map, active; cbn; fold map'.
  - rewrite !M3. intros (? & ? & ? & ? & k & j & ?). split_and!; try done. exists k, j. by rewrite (length_upd_ref f t (the_map s) : length map' = _).
  - by rewrite M3.
  - intros (H1 & H2 & (y & Hy & Hy0) & H4 & H5). split; [done|]. split; [done|].
    assert (tid <> t) as Hd.
    { intros ->. destruct (H5 th Hth) as [[Hcalm _] _]. by rewrite Hh in Hcalm. }
    split; [|split; [done|]].
    + exists y. by rewrite M2, decide_False.
    + intros th1. rewrite lookup_insert_ne by done. apply H5.
  - intros (H1 & H2 & H3). split_and!; try done. rewrite M2. by case_decide.
Qed.

Lemma report_sweeping : sweeping t0 p lo c c1 s -> sweeping t0 p lo c c1 s'.
Proof.
  intros [H1 H3 H4 H5 H6 H7 H8 H9]. destruct (report_map H1) as (M1 & M2 & M3).
  assert (waiting th') as Hw by done.
  assert (forall t1 th1, s_threads s' !! t1 = Some th1 -> (t1 = t /\ th1 = th') \/ (t1 <> t /\ s_threads s !! t1 = Some th1)) as Hlk.
  { intros t1 th1 H. cbn in H. apply lookup_insert_Some in H as [[<- <-]|[? H]]; [by left|by right]. }
  assert (forall t1, (exists th1, s_threads s !! t1 = Some th1 /\ waiting th1) -> exists th1, s_threads s' !! t1 = Some th1 /\ waiting th1) as Hkeep.
  { intros t1 (th1 & H & Hw1). cbn. destruct (decide (t1 = t)) as [->|]; [rewrite lookup_insert_eq; by exists th'|].
    rewrite lookup_insert_ne by done. by exists th1. }
  assert (~ calm th) as Hnc by (intros [H _]; by rewrite Hh in H).
  split; change (the_map s') with map'; try done.
  - intros t1 th1 Hd Ht1. rewrite M2. change (active (s_trk s')) with (active (s_trk s)).
    destruct (Hlk _ _ Ht1) as [[-> ->]|[Hd1 H]].
    + rewrite decide_True by done. by apply (busy_waiting _ _ _ _ _ _ (f x)).
    + rewrite decide_False by done. by apply H3.
  - by rewrite M2, decide_False.
  - intros t1 y Hp1 Hy Hy0. rewrite M2 in Hy. case_decide; [subst; exists th'; split; [apply lookup_insert_eq|done]|].
    apply Hkeep. by apply (H5 t1 y).
  - intros t1 th1 y Hd Ht1 Hc1 Hy Hcur. rewrite M2 in Hy. destruct (Hlk _ _ Ht1) as [[-> ->]|[Hd1 H]].
    + rewrite decide_True in Hy by done. injection Hy as <-. by apply (H7 t th x).
    + rewrite decide_False in Hy by done. by apply (H7 t1 th1 y).
  - by apply report_point.
  - intros Hp. destruct (H9 Hp) as [Dp Dn Dw Dc Dcur De]. split; try done.
    + by rewrite (dom_update sysc s s' t th th').
    + intros t1 Hs H0 Hd Hcur. apply Hkeep. by apply Dw.
Qed.

End report.

Lemma busy_report c c1 ret a o th r :
  busy c c1 ret a o th -> th_hand th = Some (HReportLocked r) ->
  (true ∉ th_sigs th) /\ th_creds th = c1 /\ a = true /\ is_Some o.
Proof.
  intros [[H _]|x H|h x H H'|h x H H'|x [H _]] Hh; try (by rewrite Hh in H).
  rewrite Hh in H. injection H as <-. by destruct H' as [|[|]].
Qed.

Lemma uni_report l m s t th r tr h' :
  base l m s -> uni sysc m s -> s_threads s !! t = Some th -> th_hand th = Some (HReportLocked r) ->
  locked_hstep t (s_trk s) (HReportLocked r) = Some (tr, h') ->
  uni sysc m (with_thread t (in_hand h' th) (with_trk tr s)).
Proof.
  intros Hb Hu Hth Hh Hstep.
  assert (~ calm th /\ ~ waiting th) as [Hnc Hnw] by (unfold calm, waiting; rewrite Hh; split; by intros []).
  destruct (uni_sweeping _ _ _ _ Hu Hth Hnc Hnw) as (t0 & th0 & lo & c & Em & Hne & H0 & Hc0 & Hcall & Hsw & Hback).
  destruct (busy_report _ _ _ _ _ _ _ (sw_busy _ _ _ _ _ _ Hsw t th Hne Hth) Hh) as (Hq & Hc & Ha & x & Hx).
  assert (0 < t) as Hpos by by apply (proj1 Hu t th).
  cbn in Hstep. unfold wait_active in Hstep. change (active (set_map _ _)) with (active (s_trk s)) in Hstep. rewrite Ha in Hstep.
  injection Hstep as <- <-. eapply (hand_keeps m s _ t th); try done.
  - eapply (fit_ok s); try done; [apply Hu|by apply (base_ours _ _ _ Hb); right; rewrite Em|]. right.
    eapply report_map; try done. apply Hsw.
  - apply Hback; [done|]. by eapply report_sweeping.
Qed.

Lemma elem_of_waiters s t : t ∈ waiters s <-> exists th, s_threads s !! t = Some th /\ waiting_hand (th_hand th) = true.
Proof.
  unfold waiters. rewrite elem_of_dom. split.
  - intros [th [H1 H2]%map_lookup_filter_Some]. by exists th.
  - intros (th & H1 & H2). exists th. by apply map_lookup_filter_Some.
Qed.

(** The command is over: a thread leaves the handler. *)
Lemma waiters_leave s s' t th th' :
  s_threads s !! t = Some th -> waiting_hand (th_hand th) = true ->
  s_threads s' = <[t := th']> (s_threads s) -> waiting_hand (th_hand th') = false ->
  Z.of_nat (size (waiters s')) = Z.of_nat (size (waiters s)) - 1.
Proof.
  intros Hth Hw E Hw'. assert (waiters s = {[t]} ∪ waiters s' /\ t ∉ waiters s') as [Eu Hn].
  { assert (t ∉ waiters s') as Hn.
    { intros (th1 & H1 & H2)%elem_of_waiters. rewrite E, lookup_insert_eq in H1. congruence. }
    split; [|done]. apply set_eq. intros x. rewrite elem_of_union, elem_of_singleton, !elem_of_waiters, E.
    destruct (decide (x = t)) as [->|Hne].
    - rewrite Hth. split; [by left|]. intros _. by exists th.
    - rewrite lookup_insert_ne by done. split; [by right|]. by intros [|]. }
  rewrite Eu. pose proof (size_union (C := gset Z) {[t]} (waiters s') ltac:(set_solver)) as Hu.
  rewrite size_singleton in Hu. lia.
Qed.

Lemma busy_hwait c c1 ret a o th : busy c c1 ret a o th -> th_hand th = Some HWaitLocked -> a = true.
Proof. intros [[H _]|x H|h x H H'|h x H H'|x [H _]] Hh; try done; by rewrite Hh in H. Qed.

Lemma uni_hwait m s t th tr h' :
  uni sysc m s -> s_threads s !! t = Some th -> th_hand th = Some HWaitLocked -> t_pid (s_trk s) = s_pid s ->
  wait_active (s_trk s) = (tr, h') -> uni sysc m (with_thread t (in_hand h' th) (with_trk tr s)).
Proof.
  intros Hu Hth Hh Hours Hstep. pose proof Hu as (Hp & Hf & Hm). pose proof (Hp t th Hth) as [Hpos Hsp]. unfold wait_active in Hstep.
  destruct (active (s_trk s)) eqn:Ha; injection Hstep as <- <-.
  { eapply (mild_uni sysc s _ t th); try done. rewrite Ha. by apply mild_wait. }
  assert (~ calm th) as Hnc by (intros [H _]; by rewrite Hh in H).
  destruct m as [t0|]; [|destruct Hm as (_ & c & Hm); by destruct (Hm t th ltac:(done) Hth)].
  destruct Hm as (th0 & H0 & Hc0 & Hr). assert (t <> t0) as Hne by (intros ->; congruence).
  assert (forall c, ~ others_calm (Some t0) c s) as Ho by (intros c H; by destruct (H t th ltac:(congruence) Hth)).
  assert (forall p lo c, ~ sweeping t0 p lo c (th_creds th0) s) as Hs.
  { intros p lo c H. pose proof (busy_hwait _ _ _ _ _ _ (sw_busy _ _ _ _ _ _ H t th Hne Hth) Hh). congruence. }
  split; [|split].
  - intros t1 th1 H1. cbn in H1. apply lookup_insert_Some in H1 as [[<- <-]|[_ H1]]; [done|by apply Hp].
  - eapply (fit_ok s); try done. by apply (proj1 Hf), (proj2 (proj2 Hf)).
  - exists th0. cbn [s_threads with_thread with_trk]. rewrite lookup_insert_ne by done. split; [done|]. split; [done|].
    destruct (unlocked_point (th_point th0)) as [|was to lo| | | | | | | | | | | | | | | |lo| |lo| |lo| | | | | |] eqn:Ept;
      cbn [regime] in Hr |- *; try done;
      try (destruct Hr as (c & _ & Hr); by apply Hs in Hr); try (destruct Hr as [_ Hr]; by apply Ho in Hr);
      try (destruct Hr as (_ & c & _ & Hr); by apply Ho in Hr).
    + destruct was, to; try done; destruct Hr as [_ Hr]; first [by apply Ho in Hr|destruct Hr as (c & _ & Hr); by apply Ho in Hr].
    + destruct Hr as [_ Hr]. destruct (Hr t th Hne Hth) as (_ & _ & Ha'). congruence.
    + destruct Hr as (_ & Hn & Hr). split; [done|]. split.
      * rewrite (waiters_leave s _ t th (in_hand None th)) by (done || by rewrite Hh). cbn. lia.
      * intros t1 th1 Hd H1. cbn in H1. apply lookup_insert_Some in H1 as [[<- <-]|[_ H1]]; [|by apply (Hr t1)].
        destruct (Hr t th Hne Hth) as [[Hc|Hw] Hcr]; [done|]. split; [left; by split; [|apply Hw]|done].
Qed.

Lemma uni_hand_step l m l' m' s t s' :
  base l m s -> base l' m' s' -> uni sysc m s -> hand_step sysc t s = Some s' -> uni sysc m' s'.
Proof.
  intros Hb Hb' Hu H. unfold hand_step in H. destruct (s_threads s !! t) as [th|] eqn:Hth; [|done]. cbn [mbind option_bind] in H.
  destruct (th_hand th) as [h|] eqn:Hh; [|done]. cbn [mbind option_bind] in H. pose proof Hu as (Hp & _).
  destruct (Hp t th Hth) as [Hpos Hsp].
  assert (forall h' c' tr, s' = with_thread t (with_creds c' (in_hand h' th)) (with_trk tr s) -> m' = m) as Hm
    by (intros h' c' tr ->; by eapply (same_master_update _ _ _ _ _ _ t th _ Hb Hb')).
  assert (forall h' tr, s' = with_thread t (in_hand h' th) (with_trk tr s) -> m' = m) as Hm1
    by (intros h' tr E; by apply (Hm h' (th_creds th) tr)).
  destruct (locked_hpoint h) as [h'|] eqn:El.
  { destruct (psx_lock (s_pid s) (s_trk s)) as [tr|] eqn:Elk; injection H as <-.
    - rewrite (Hm1 _ _ eq_refl). eapply uni_acquire; try done. by eapply mild_hlock.
    - by rewrite (same_master_threads _ _ _ _ _ _ Hb Hb'). }
  destruct (locked_hstep t (s_trk s) h) as [[tr h']|] eqn:Els.
  - injection H as <-. rewrite (Hm1 _ _ eq_refl).
    assert (t_pid (s_trk s) = s_pid s) as Hours.
    { apply (base_ours _ _ _ Hb). left. assert (holds th = true) as Hho; [|by apply (base_thread _ _ _ Hb _ _ Hth) in Hho as ->].
      unfold holds. rewrite Hh. destruct h; try done; apply orb_true_r. }
    destruct h; try done.
    + cbn in Els. injection Els as <- <-. eapply (mild_uni sysc s _ t th); try done. by apply mild_test.
    + by eapply uni_report.
    + cbn in Els. injection Els as Els. by eapply uni_hwait.
  - destruct h; try done. destruct (sysc _ _ _) as [r c] eqn:Es. injection H as <-.
    rewrite (Hm (Some (HRet r)) c (s_trk s) ltac:(by destruct s)). by apply uni_hcall.
Qed.

(** *** Threads come and go *)

Lemma free_calm th : free_thread th = true -> th_point th = Idle /\ th_hand th = None.
Proof. unfold free_thread. by destruct (th_point th), (th_hand th). Qed.

Lemma busy_free c c1 ret a o th : busy c c1 ret a o th -> th_hand th = None -> th_creds th = c.
Proof. intros [H|x H|h x H H'|h x H H'|x [H _]] Hh; try done; by rewrite Hh in H. Qed.

Lemma clone_sweeping s t0 p lo c c1 new q :
  0 < new -> s_threads s !! new = None -> new <> t0 -> sweeping t0 p lo c c1 s ->
  sweeping t0 p lo c c1 (with_dir (s_start s) (s_seen s) true (with_thread new (mkThread q None [] c) s)).
Proof.
  intros Hpos Hnew Hne [H1 H3 H4 H5 H6 H7 H8 H9]. set (th' := mkThread q None [] c). set (s' := with_dir _ _ _ _).
  assert (calm th') as Hc by (split; [done|set_solver]).
  assert (forall t1, (exists th1, s_threads s !! t1 = Some th1 /\ waiting th1) -> exists th1, s_threads s' !! t1 = Some th1 /\ waiting th1) as Hkeep.
  { intros t1 (th1 & H & Hw). exists th1. split; [|done]. cbn. rewrite lookup_insert_ne; [done|congruence]. }
  assert (forall t1 th1, s_threads s' !! t1 = Some th1 -> (t1 = new /\ th1 = th') \/ s_threads s !! t1 = Some th1) as Hlk.
  { intros t1 th1 H. cbn in H. apply lookup_insert_Some in H as [[<- <-]|[? H]]; [by left|by right]. }
  split; try done.
  - intros t1 th1 Ht Hth1. destruct (Hlk _ _ Hth1) as [[-> ->]|H]; [|by apply H3]. apply busy_not; [done..|].
    intros x Hx Hx0. destruct (H5 new x Hpos Hx Hx0) as (th1 & H & _). cbn in *. congruence.
  - intros t1 x Hp1 Hx Hx0. apply Hkeep. by apply (H5 t1 x).
  - intros t1 th1 x Ht Hth1 Hnc Hx Hcur. destruct (Hlk _ _ Hth1) as [[-> ->]|H]; [done|by apply (H7 t1 th1 x)].
  - destruct p; try done. destruct H8 as (A1 & A2 & A3 & A4 & A5). split_and!; try done.
    intros th1 Hth1. destruct (Hlk _ _ Hth1) as [[-> ->]|H]; [done|by apply A5].
  - intros Hp. destruct (H9 Hp) as [Dp Dn Dw Dc Dcur De]. split; try done. intros t1 Hs Hseen Ht Hcur. apply Hkeep. by apply Dw.
Qed.

Lemma exit_sweeping s t0 p lo c c1 t th :
  s_threads s !! t = Some th -> th_hand th = None -> sweeping t0 p lo c c1 s ->
  sweeping t0 p lo c c1 (mkSystem (s_pid s) (s_trk s) (s_sa s) (delete t (s_threads s)) (s_start s ∖ {[t]})
    (s_seen s) (s_churn s) (s_late s) (s_killed s)).
Proof.
  intros Hth Hh [H1 H3 H4 H5 H6 H7 H8 H9]. set (s' := mkSystem _ _ _ _ _ _ _ _ _).
  assert (forall t1, (exists th1, s_threads s !! t1 = Some th1 /\ waiting th1) -> exists th1, s_threads s' !! t1 = Some th1 /\ waiting th1) as Hkeep.
  { intros t1 (th1 & H & Hw). exists th1. split; [|done]. cbn. rewrite lookup_delete_ne; [done|]. intros <-.
    destruct Hw as [Hw _]. assert (th1 = th) as -> by congruence. by rewrite Hh in Hw. }
  assert (forall t1 th1, s_threads s' !! t1 = Some th1 -> t1 <> t /\ s_threads s !! t1 = Some th1) as Hlk.
  { intros t1 th1 H. cbn in H. apply lookup_delete_Some in H as [? H]. split; [by intros ->|done]. }
  split; try done.
  - intros t1 th1 Ht Hth1. apply Hlk in Hth1 as [_ H]. by apply H3.
  - intros t1 x Hp1 Hx Hx0. apply Hkeep. by apply (H5 t1 x).
  - intros t1 th1 x Ht Hth1 Hnc Hx Hcur. apply Hlk in Hth1 as [Hd H].
    destruct (H7 t1 th1 x Ht H Hnc Hx Hcur) as [|(A1 & A2 & A3 & A4)]; [by left|right]. split_and!; try done. cbn. set_solver.
  - destruct p; try done. destruct H8 as (A1 & A2 & A3 & A4 & A5). split_and!; try done.
    intros th1 Hth1. apply Hlk in Hth1 as [_ H]. by apply A5.
  - intros Hp. destruct (H9 Hp) as [Dp Dn Dw Dc Dcur De]. split; try done.
    + intros Hch. cbn. rewrite dom_delete_L. pose proof (Dn Hch). set_solver.
    + intros t1 Hs Hseen Ht Hcur. apply Hkeep. by apply Dw.
    + intros E. pose proof (De E). cbn. set_solver.
Qed.

Lemma free_not_master l m s t th :
  base l m s -> s_threads s !! t = Some th -> free_thread th = true -> m <> Some t.
Proof. intros Hb Hth Hf Hm. pose proof (master_phase _ _ _ _ _ Hb Hth Hm) as Hp. apply free_calm in Hf as [Hf _]. by rewrite Hf in Hp. Qed.

Lemma uni_clone l m s t th new :
  base l m s -> uni sysc m s -> s_threads s !! t = Some th -> free_thread th = true -> s_threads s !! new = None -> 0 < new ->
  uni sysc m (with_dir (s_start s) (s_seen s) true (with_thread new (mkThread Idle None [] (th_creds th)) s)).
Proof.
  intros Hb (Hp & Hf & Hm) Hth Hfree Hnew Hpos. pose proof (free_not_master _ _ _ _ _ Hb Hth Hfree) as Hnm.
  apply free_calm in Hfree as [_ Hh]. set (th' := mkThread _ _ _ _). set (s' := with_dir _ _ _ _).
  assert (calm th') as Hc' by (split; [done|set_solver]).
  assert (forall t1 th1, s_threads s' !! t1 = Some th1 -> (t1 = new /\ th1 = th') \/ s_threads s !! t1 = Some th1) as Hlk.
  { intros t1 th1 H. cbn in H. apply lookup_insert_Some in H as [[<- <-]|[? H]]; [by left|by right]. }
  assert (forall m1 c, m1 <> Some t -> others_calm m1 c s -> others_calm m1 c s') as Ho.
  { intros m1 c Hm1 H t1 th1 Ht1 H1. destruct (Hlk _ _ H1) as [[-> ->]|H1']; [|by apply (H t1)].
    split; [done|]. by apply (H t th). }
  split; [|split; [done|]].
  - intros t1 th1 H1. destruct (Hlk _ _ H1) as [[-> ->]|H1']; [done|by apply Hp].
  - destruct m as [t0|]; [|destruct Hm as (Ha & c & Hm); split; [done|]; exists c; by apply Ho].
    destruct Hm as (th0 & H0 & Hc0 & Hr). assert (new <> t0) as Hne by congruence. assert (t <> t0) as Ht by congruence.
    exists th0. split; [cbn; by rewrite lookup_insert_ne|]. split; [done|].
    assert (forall p lo, (exists c, called sysc lo c (th_creds th0) s /\ sweeping t0 p lo c (th_creds th0) s) ->
       exists c, called sysc lo c (th_creds th0) s' /\ sweeping t0 p lo c (th_creds th0) s') as Hsw.
    { intros p lo (c & Hc & Hs). exists c. split; [done|].
      pose proof (busy_free _ _ _ _ _ _ (sw_busy _ _ _ _ _ _ Hs t th Ht Hth) Hh) as E. subst s' th'. rewrite E. by apply clone_sweeping. }
    assert ((exists th1, s_threads s !! t = Some th1 /\ waiting th1) -> False) as Hnw.
    { intros (th1 & H1 & [Hw _]). assert (th1 = th) as -> by congruence. by rewrite Hh in Hw. }
    destruct (unlocked_point (th_point th0)) as [|was to lo| | | | | | | | | | | | | | | |lo| |lo| |lo| | | | | |] eqn:Ept;
      cbn [regime] in Hr |- *; try done; try (by apply Hsw);
      try (destruct Hr as [Ha Hr]; split; [done|by apply Ho]);
      try (destruct Hr as (Ha & c & Hcl & Hr); split; [done|exists c; split; [done|by apply Ho]]).
    + destruct was, to; try done; destruct Hr as [Ha Hr]; (split; [done|]); try (by apply Ho).
      destruct Hr as (c & Hcl & Hr). exists c. split; [done|by apply Ho].
    + destruct Hr as [_ Hr]. destruct Hnw. exists th. split; [done|]. by apply (Hr t).
    + destruct Hr as (Ha & Hn & Hr). split; [done|]. split.
      * etransitivity; [exact Hn|]. f_equal. f_equal. apply set_eq. intros x. rewrite !elem_of_waiters. split; intros (th1 & H1 & H2); exists th1.
        -- split; [|done]. cbn. rewrite lookup_insert_ne; [done|congruence].
        -- destruct (Hlk _ _ H1) as [[-> ->]|]; done.
      * intros t1 th1 Hd H1. destruct (Hlk _ _ H1) as [[-> ->]|H1']; [|by apply (Hr t1)]. split; [by left|]. apply (Hr t th Ht Hth).
Qed.

Lemma uni_exit l m s t th :
  base l m s -> uni sysc m s -> s_threads s !! t = Some th -> free_thread th = true ->
  uni sysc m (mkSystem (s_pid s) (s_trk s) (s_sa s) (delete t (s_threads s)) (s_start s ∖ {[t]})
    (s_seen s) (s_churn s) (s_late s) (s_killed s)).
Proof.
  intros Hb (Hp & Hf & Hm) Hth Hfree. pose proof (free_not_master _ _ _ _ _ Hb Hth Hfree) as Hnm.
  apply free_calm in Hfree as [_ Hh]. set (s' := mkSystem _ _ _ _ _ _ _ _ _).
  assert (forall t1 th1, s_threads s' !! t1 = Some th1 -> s_threads s !! t1 = Some th1) as Hlk.
  { intros t1 th1 H. cbn in H. by apply lookup_delete_Some in H as [? H]. }
  assert (forall m1 c, others_calm m1 c s -> others_calm m1 c s') as Ho by (intros m1 c H t1 th1 Ht1 H1; by apply (H t1), Hlk).
  split; [|split; [done|]].
  - intros t1 th1 H1. by apply Hp, Hlk.
  - destruct m as [t0|]; [|destruct Hm as (Ha & c & Hm); split; [done|]; exists c; by apply Ho].
    destruct Hm as (th0 & H0 & Hc0 & Hr). assert (t <> t0) as Ht by congruence.
    exists th0. split; [cbn; by rewrite lookup_delete_ne|]. split; [done|].
    assert (forall p lo, (exists c, called sysc lo c (th_creds th0) s /\ sweeping t0 p lo c (th_creds th0) s) ->
       exists c, called sysc lo c (th_creds th0) s' /\ sweeping t0 p lo c (th_creds th0) s') as Hsw.
    { intros p lo (c & Hc & Hs). exists c. split; [done|]. by eapply exit_sweeping. }
    destruct (unlocked_point (th_point th0)) as [|was to lo| | | | | | | | | | | | | | | |lo| |lo| |lo| | | | | |] eqn:Ept;
      cbn [regime] in Hr |- *; try done; try (by apply Hsw);
      try (destruct Hr as [Ha Hr]; split; [done|by apply Ho]);
      try (destruct Hr as (Ha & c & Hcl & Hr); split; [done|exists c; split; [done|by apply Ho]]).
    + destruct was, to; try done; destruct Hr as [Ha Hr]; (split; [done|]); try (by apply Ho).
      destruct Hr as (c & Hcl & Hr). exists c. split; [done|by apply Ho].
    + destruct Hr as [_ Hr]. destruct (Hr t th Ht Hth) as [[Hw _] _]. by rewrite Hh in Hw.
    + destruct Hr as (Ha & Hn & Hr). split; [done|]. split; [|intros t1 th1 Hd H1; by apply (Hr t1), Hlk].
      etransitivity; [exact Hn|]. f_equal. f_equal. apply set_eq. intros x. rewrite !elem_of_waiters. split; intros (th1 & H1 & H2); exists th1.
      * split; [|done]. cbn. rewrite lookup_delete_ne; [done|]. intros ->. assert (th1 = th) as -> by congruence. by rewrite Hh in H2.
      * split; [by apply Hlk|done].
Qed.

End call.
