(* ===== verification/PsxMaster.v ===== *)
(** The steps of the thread that calls psx_syscall(), and with them every step of
    the process: as long as no thread is created during the last sweep, all
    threads have the caller's credentials when the call is over. *)

From stdpp Require Import gmap list sets fin_sets.
From Stdlib Require Import ZArith Lia.
From S2P Require Import Prelude Psx PsxMap PsxInv PsxUniform PsxSweep PsxCall.

Open Scope Z_scope.

Section master.
Context {C : Type} (sysc : Z -> list Z -> C -> Z * C).
Implicit Types (s : @system C) (th : @thread C) (tr : tracker) (l m : option Z) (t e : Z) (c : C) (lo : locals).

Lemma uni_caller s t th :
  uni sysc (Some t) s -> s_threads s !! t = Some th ->
  calm th /\ regime sysc t (unlocked_point (th_point th)) (th_creds th) s.
Proof. intros (_ & _ & th0 & H0 & Hc & Hr) Hth. assert (th0 = th) as -> by congruence. done. Qed.

Lemma uni_positive m s t th : uni sysc m s -> s_threads s !! t = Some th -> 0 < t.
Proof. intros (Hp & _) H. by apply (Hp t th). Qed.

Lemma base_locked l m s t th :
  base l m s -> s_threads s !! t = Some th -> point_locked (th_point th) = true -> t_pid (s_trk s) = s_pid s.
Proof.
  intros Hb Hth Hl. apply (base_ours _ _ _ Hb). left. assert (holds th = true) as Hh by (unfold holds; by rewrite Hl).
  apply (base_thread _ _ _ Hb _ _ Hth) in Hh. congruence.
Qed.

Lemma uni_ours_fit m s : uni sysc m s -> t_pid (s_trk s) = s_pid s -> t_state (s_trk s) = PSX_EXITING \/ map_ok (the_map s).
Proof. intros (_ & (F1 & F2 & F3) & _) E. auto. Qed.

(** The caller goes on, in its call. *)
Lemma caller_moves m s s1 s' t th p :
  uni sysc m s -> s_threads s !! t = Some th -> calm th ->
  s_threads s1 = s_threads s -> s_threads s' = <[t := at_point p th]> (s_threads s1) ->
  s_pid s1 = s_pid s -> s_pid s' = s_pid s1 -> same_trk (s_trk s1) (s_trk s') -> same_dir s1 s' ->
  map_fit s1 -> sweep_pos p -> regime sysc t (unlocked_point p) (th_creds th) s1 -> uni sysc (Some t) s'.
Proof.
  intros (Hp & _) Hth Hc E1 E' P1 P' Et Ed Hf Hsp Hr. eapply (master_moves sysc s1 s' t th p); try done; rewrite ?E1; done.
Qed.

(** psx_new_state() *)
Lemma uni_new_state l m l' m' s t th was to lo :
  base l m s -> uni sysc m s -> s_threads s !! t = Some th -> calm th -> th_point th = NewStateLocked was to lo ->
  t_state (s_trk s) = was ->
  let s' := with_thread t (at_point (after_new_state was to lo) th) (with_trk (psx_unlock (set_state to (s_trk s))) s) in
  base l' m' s' -> uni sysc m' s'.
Proof.
  intros Hb Hu Hth Hc Ept Est s' Hb'. assert (t_pid (s_trk s) = s_pid s) as Hours by (eapply base_locked; [done..|by rewrite Ept]).
  pose proof (base_thread _ _ _ Hb _ _ Hth) as (_ & _ & _ & _ & G). rewrite Ept in G. cbn in G.
  assert (s_threads s' !! t = Some (at_point (after_new_state was to lo) th)) as Hth' by apply lookup_insert_eq.
  set (s1 := with_trk (psx_unlock (set_state to (s_trk s))) s).
  pose proof (proj1 Hu t th Hth) as [Hpos Hsp]. rewrite Ept in Hsp.
  assert (map_fit s1) as Hf1.
  { eapply (fit_ok s); try done; [apply Hu|]. destruct (uni_ours_fit _ _ Hu Hours) as [E|E]; [|by right].
    exfalso. rewrite Est in E. rewrite E in G. by destruct (new_state_pairs _ _ G) as [[? _]|[[? _]|[[? _]|[? _]]]]. }
  assert (forall c, active (s_trk s) = false -> others_calm (Some t) c s -> th_creds th = c -> m' = None -> sweep_pos (after_new_state was to lo) ->
    uni sysc m' s') as Hend.
  { intros c Ha Ho Hcr -> Hsp'. split; [|split; [done|split; [done|]]].
    - intros t1 th1 H1. cbn in H1. apply lookup_insert_Some in H1 as [[<- <-]|[_ H1]]; [done|by apply Hu].
    - exists c. intros t1 th1 _ H1. cbn in H1. apply lookup_insert_Some in H1 as [[<- <-]|[Hd H1]]; [done|].
      apply (Ho t1); congruence. }
  destruct (new_state_pairs _ _ G) as [[-> ->]|[[-> ->]|[[-> ->]|[-> ->]]]].
  - assert (m = None) as -> by (eapply base_nobody; [done..|by left]).
    assert (m' = Some t) as -> by by eapply master_is.
    eapply (caller_moves None s s1); try done. destruct Hu as (_ & _ & Ha & c & Ho). split; [by apply Ha|].
    intros t1 th1 _ H1. destruct (Ho t th ltac:(done) Hth) as [_ ->]. by apply (Ho t1).
  - destruct (master_ends _ _ _ _ _ _ t th _ Hb Hb' Hth eq_refl) as [-> ->]; [by rewrite Ept|done|].
    destruct (uni_caller _ _ _ Hu Hth) as [_ Hr]. rewrite Ept in Hr. destruct Hr as [Ha Ho].
    by eapply Hend.
  - assert (m = Some t) as -> by (eapply master_is; [done..|by rewrite Ept]).
    assert (m' = Some t) as -> by by eapply master_is.
    destruct (uni_caller _ _ _ Hu Hth) as [_ Hr]. rewrite Ept in Hr. eapply (caller_moves _ s s1); try done.
  - destruct (master_ends _ _ _ _ _ _ t th _ Hb Hb' Hth eq_refl) as [-> ->]; [by rewrite Ept|done|].
    destruct (uni_caller _ _ _ Hu Hth) as [_ Hr]. rewrite Ept in Hr. destruct Hr as [Ha Ho]. by eapply Hend.
Qed.

(** *** The sweeps *)

Lemma size_empty_dom s t : Z.of_nat (size (dom (s_threads s) ∖ {[t]})) = 0 ->
  forall t1 th1, t1 <> t -> s_threads s !! t1 = Some th1 -> False.
Proof.
  intros E t1 th1 Hne H1. assert (size (dom (s_threads s) ∖ {[t]}) = 0%nat) as E' by lia.
  apply size_empty_inv in E'. apply elem_of_dom_2 in H1. set_solver.
Qed.

Lemma waiters_others s t th :
  s_threads s !! t = Some th -> calm th -> (forall t1 th1, t1 <> t -> s_threads s !! t1 = Some th1 -> waiting th1) ->
  waiters s = dom (s_threads s) ∖ {[t]}.
Proof.
  intros Hth Hc H. apply set_eq. intros x. rewrite elem_of_waiters, elem_of_difference, elem_of_singleton, elem_of_dom. split.
  - intros (th1 & H1 & H2). split; [by eexists|]. intros ->. assert (th1 = th) as -> by congruence.
    destruct Hc as [Hc _]. by destruct (th_hand th) as [[]|].
  - intros [[th1 H1] Hne]. exists th1. split; [done|]. by apply (H x).
Qed.

Lemma no_waiters s t1 th1 : Z.of_nat (size (waiters s)) = 0 -> s_threads s !! t1 = Some th1 -> ~ waiting th1.
Proof.
  intros E H1 [Hw _]. assert (size (waiters s) = 0%nat) as E' by lia. apply size_empty_inv in E'.
  assert (t1 ∈ waiters s) as Hin by (apply elem_of_waiters; by exists th1). set_solver.
Qed.

Lemma uni_caller_locked l m s t th tr p' :
  base l m s -> uni sysc (Some t) s -> s_threads s !! t = Some th -> locked_step (s_trk s) (th_point th) = Some (tr, p') ->
  match th_point th with NewStateLocked _ _ _ => False | _ => phase (th_point th) <> None end ->
  uni sysc (Some t) (with_thread t (at_point p' th) (with_trk tr s)).
Proof.
  intros Hb Hu Hth Hst Hph. destruct (uni_caller _ _ _ Hu Hth) as [Hc Hr].
  destruct (proj1 Hu t th Hth) as [Hpos Hsp].
  assert (point_locked (th_point th) = true) as Hl by (by destruct (th_point th)).
  pose proof (base_locked _ _ _ _ _ Hb Hth Hl) as Hours.
  assert (forall t1 th1, s_threads s !! t1 = Some th1 -> 0 < t1) as Hposs by (intros; by eapply uni_positive).
  assert (forall tr' p lo, t_pid tr' = t_pid (s_trk s) -> t_initialized tr' = t_initialized (s_trk s) ->
     (map_ok (t_map tr') \/ t_state tr' = t_state (s_trk s) /\ t_map tr' = t_map (s_trk s)) ->
     locals_of p = Some lo -> 1 <= l_sweep lo ->
     regime sysc t (unlocked_point p) (th_creds th) (with_trk tr' s) ->
     uni sysc (Some t) (with_thread t (at_point p th) (with_trk tr' s))) as Hgo.
  { intros tr' p lo E1 E2 Hmap Hlo Hsw Hr'. eapply (caller_moves _ s (with_trk tr' s)); try done.
    - eapply (fit_ok s); try done; [apply Hu|]. destruct Hmap as [|[E3 E4]]; [by right|]. unfold the_map. cbn. rewrite E3, E4.
      by apply (uni_ours_fit (Some t)).
    - intros lo' E. rewrite Hlo in E. by injection E as <-. }
  destruct (th_point th) as [| | | | | | | | | |lo e n| |lo e| | |lo e| | |lo| |lo| |lo| | | | |] eqn:Ept; try done;
    pose proof (Hsp _ eq_refl) as Hs1; cbn [locked_step] in Hst; cbn [unlocked_point regime] in Hr.
  - destruct Hr as (c & Hcl & Hsw). injection Hst as <- <-. pose proof (grow_add sysc s t Hposs Hpos lo e n _ _ Hsw) as Hn.
    eapply Hgo; try done; [left; apply Hn|]. by exists c.
  - destruct Hr as (c & Hcl & Hsw). injection Hst as <- <-. pose proof (add_kill s t Hposs Hpos lo e _ _ Hsw) as Hn.
    eapply Hgo; try done; [left; apply Hn|]. by exists c.
  - destruct Hr as (c & Hcl & Hsw). injection Hst as <- <-. pose proof (mark_read sysc s t Hposs Hpos lo e _ _ Hsw) as Hn.
    eapply Hgo; try done; [left; apply Hn|]. by exists c.
  - destruct Hr as [Hn Hw]. cbn [set_active set_incomplete set_cmd t_incomplete] in Hst. injection Hst as <- <-.
    destruct (Z.eqb_spec (l_incomplete lo) 0) as [Hz|Hz]; (eapply Hgo; [done..|by right| |done|]; [done|]); cbn [unlocked_point regime].
    + split; [done|]. intros t1 th1 Hd H1. exfalso. rewrite Hn in Hz. apply (size_empty_dom _ _ Hz t1 th1); [congruence|done].
    + split; [done|]. split.
      * rewrite (waiters_others _ t th); [done..|]. intros t1 th1 Hd H1. by apply (Hw t1).
      * intros t1 th1 Hd H1. destruct (Hw t1 th1 Hd H1) as (? & ? & _). split; [by right|done].
  - destruct Hr as (Ha & Hn & Hw). injection Hst as <- <-.
    destruct (Z.eqb_spec (t_incomplete (s_trk s)) 0) as [Hz|Hz]; (eapply Hgo; [done..|by right| |done|]; [done|]); cbn [unlocked_point regime].
    + split; [done|]. intros t1 th1 Hd H1. destruct (Hw t1 th1 ltac:(congruence) H1) as [[Hc1|Hw1] Hcr]; [done|].
      rewrite Hn in Hz. by apply (no_waiters s t1 th1 Hz H1) in Hw1.
    + done.
  - injection Hst as <- <-. eapply Hgo; try done. by right.
Qed.

(** A call that fails changes nothing, as system calls do. *)
Hypothesis Hfail : forall nr args c, (sysc nr args c).1 = -1 -> (sysc nr args c).2 = c.

Lemma uni_call s t th lo ret c' :
  uni sysc (Some t) s -> s_threads s !! t = Some th -> th_point th = Call lo -> t_pid (s_trk s) = s_pid s ->
  let tr := set_cmd (psx_command (l_nr lo) (l_args lo) (t_cmd (s_trk s))) (s_trk s) in
  let p := if ret =? -1 then NewState PSX_SETUP PSX_IDLE (set_ret ret lo) else NewState PSX_SETUP PSX_SYSCALL (set_ret ret lo) in
  sysc (l_nr lo) (call_args (t_cmd tr)) (th_creds th) = (ret, c') ->
  uni sysc (Some t) (with_thread t (with_creds c' (at_point p th)) (with_trk tr s)).
Proof.
  intros Hu Hth Ept Hours tr p Hsys. destruct (uni_caller _ _ _ Hu Hth) as [Hc Hr]. rewrite Ept in Hr. destruct Hr as [Ha Ho].
  set (th' := with_creds c' (at_point p th)). set (s' := with_thread t th' _).
  assert (forall c, others_calm (Some t) c s -> others_calm (Some t) c s') as Ho'.
  { intros c H t1 th1 Hd H1. cbn in H1. apply lookup_insert_Some in H1 as [[<- <-]|[_ H1]]; [done|by apply (H t1)]. }
  destruct (proj1 Hu t th Hth) as [Hpos Hsp]. rewrite Ept in Hsp. specialize (Hsp _ eq_refl).
  split; [|split].
  - intros t1 th1 H1. cbn in H1. apply lookup_insert_Some in H1 as [[<- <-]|[_ H1]]; [|by apply Hu]. split; [done|].
    cbn. unfold p. intros lo' E. destruct (ret =? -1); cbn in E; injection E as <-; exact Hsp.
  - eapply (fit_ok s); try done; [apply Hu|]. exact (uni_ours_fit (Some t) s Hu Hours).
  - exists th'. split; [apply lookup_insert_eq|]. split; [done|]. cbn [th_point th' with_creds at_point th_creds]. unfold p.
    pose proof (Hfail (l_nr lo) (call_args (t_cmd tr)) (th_creds th)) as Hf. rewrite Hsys in Hf. cbn in Hf.
    destruct (Z.eqb_spec ret (-1)) as [->|Hne]; cbn [unlocked_point regime]; (split; [done|]).
    + rewrite Hf by done. by apply Ho'.
    + exists (th_creds th). split; [done|]. by apply Ho'.
Qed.

(** A map that has been cleared. *)
Lemma cleared_sweep s t lo c c1 k :
  0 <= k -> Z.of_nat (length (the_map s)) = 2 ^ k -> 0 < t ->
  (forall t th, s_threads s !! t = Some th -> 0 < t) -> others_calm (Some t) c s ->
  sweeping t (Sweep lo) lo c c1 (with_trk (set_map (replicate (length (the_map s)) ref0) (s_trk s)) s).
Proof.
  intros Hk Hlen Hpos Hposs Ho. assert (forall t1, 0 < t1 -> entry (replicate (length (the_map s)) ref0) t1 = None) as He
    by (intros; by apply entry_replicate).
  split; try done.
  - unfold the_map. cbn. pose proof (map_ok_replicate k Hk) as Hm. by rewrite <-Hlen, Nat2Z.id in Hm.
  - intros t1 th1 Hd H1. destruct (Ho t1 th1 ltac:(congruence) H1) as [Hc Hcr]. apply busy_not; [done..|].
    intros x. unfold the_map. cbn [s_trk with_trk t_map set_map]. by rewrite He by by eapply Hposs.
  - by apply He.
  - intros t1 x Hp1. unfold the_map. cbn [s_trk with_trk t_map set_map]. by rewrite He.
  - intros t1 Hp1. unfold the_map. cbn [s_trk with_trk t_map set_map]. by rewrite He.
  - intros t1 th1 x Hd H1 _. unfold the_map. cbn [s_trk with_trk t_map set_map]. by rewrite He by by eapply Hposs.
Qed.

(** The signal is sent, and nothing is marked yet. *)
Lemma uni_kill s t th lo e :
  uni sysc (Some t) s -> s_threads s !! t = Some th -> th_hand th = None -> t_pid (s_trk s) = s_pid s ->
  t_state (s_trk s) <> PSX_EXITING -> th_point th = Kill lo e ->
  uni sysc (Some t) (tkill e (with_thread t (at_point (Mark lo e) th) s)).
Proof.
  intros Hu Hth Hh Hours Hex Ept. destruct (uni_caller _ _ _ Hu Hth) as [Hc Hr]. rewrite Ept in Hr. cbn [unlocked_point regime] in Hr.
  assert (map_fit s) as Hf by apply Hu. destruct (proj1 Hu t th Hth) as [Hpos Hsp]. rewrite Ept in Hsp. pose proof (Hsp _ eq_refl) as Hs1.
  destruct Hr as (c & Hcl & Hsw). destruct (sw_point _ _ _ _ _ _ Hsw) as (He & Hne & _).
  pose proof (kill_mark sysc s t lo e _ _ Hsw) as Hn.
  assert (s_threads (tkill e s) !! t = Some th) as Hth1.
  { unfold tkill. destruct (s_threads s !! e); [|done]. cbn. by rewrite lookup_insert_ne. }
  assert (s_trk (tkill e s) = s_trk s /\ s_pid (tkill e s) = s_pid s) as [E1 E2] by (unfold tkill; by case_match).
  assert (s_threads (tkill e (with_thread t (at_point (Mark lo e) th) s)) = <[t := at_point (Mark lo e) th]> (s_threads (tkill e s))) as E3.
  { unfold tkill. cbn. rewrite lookup_insert_ne by done. case_match; [|done]. cbn. by rewrite insert_insert_ne. }
  eapply (master_moves sysc (tkill e s) _ t th (Mark lo e)); try done.
  + unfold tkill. cbn. rewrite lookup_insert_ne by done. case_match; done.
  + unfold tkill. cbn. rewrite lookup_insert_ne by done. case_match; done.
  + unfold tkill. cbn. rewrite lookup_insert_ne by done. case_match; done.
  + exists c. split; [|done]. unfold called. by rewrite E1.
  + unfold map_fit, the_map. by rewrite E1, E2.
  + intros t1 th1 H1. unfold tkill in H1. destruct (s_threads s !! e) as [th2|] eqn:E4; [|by apply Hu]. cbn in H1.
    apply lookup_insert_Some in H1 as [[<- <-]|[_ H1]]; [|by apply Hu]. by apply (proj1 Hu e th2).
Qed.

(** What a step of the caller without the lock comes to: [s1] differs from [s] in
    the tracker and the directory. *)
Lemma uni_caller_free s t th d s' :
  uni sysc (Some t) s -> s_threads s !! t = Some th -> th_hand th = None -> t_pid (s_trk s) = s_pid s ->
  t_state (s_trk s) <> PSX_EXITING ->
  phase (th_point th) <> None -> locked_point (th_point th) = None -> locked_step (s_trk s) (th_point th) = None ->
  point_step sysc t d s = Some s' -> s_late s' = false -> uni sysc (Some t) s'.
Proof.
  intros Hu Hth Hh Hours Hex Hph Hlp Hls H Hlate. unfold point_step in H. rewrite Hth in H. cbn [mbind option_bind] in H.
  rewrite Hlp, Hls in H. destruct (uni_caller _ _ _ Hu Hth) as [Hc Hr]. pose proof (proj1 Hu t th Hth) as [Hpos Hsp].
  assert (map_ok (the_map s)) as Hmap by by destruct (uni_ours_fit _ _ Hu Hours).
  assert (map_fit s) as Hf by apply Hu.
  assert (forall t1 th1, s_threads s !! t1 = Some th1 -> 0 < t1) as Hposs by (intros; by eapply uni_positive).
  assert (uni sysc (Some t) (with_killed s)) as Hkill.
  { eapply (mild_uni sysc s _ t th th); try done; first [by apply mild_same|cbn; by rewrite insert_id]. }
  assert (forall s1 p lo, s_threads s1 = s_threads s -> s_pid s1 = s_pid s -> map_fit s1 -> locals_of p = Some lo -> 1 <= l_sweep lo ->
     regime sysc t (unlocked_point p) (th_creds th) s1 -> uni sysc (Some t) (with_thread t (at_point p th) s1)) as Hgo.
  { intros s1 p lo E1 P1 F1 Hlo Hsw Hr'. eapply (caller_moves _ s s1); try done.
    intros lo' E. rewrite Hlo in E. by injection E as <-. }
  destruct (th_point th) as [|was to lo|was to lo|lo|lo|lo|lo|lo|lo e|lo e n| |lo e| |lo e|lo e| |lo|lo| |lo| |lo| | | | | | ] eqn:Ept;
    try done; pose proof (Hsp _ eq_refl) as Hs1; cbn [unlocked_point regime] in Hr.
  - (* Confirm *) destruct (psx_confirm_sigaction (s_sa s) (s_trk s)) as [sa tr] eqn:Econf. injection H as <-.
    assert (same_trk (s_trk s) tr) as Et by (unfold psx_confirm_sigaction in Econf; case_match; by injection Econf as <- <-).
    eapply (caller_moves _ s s _ t th (Call lo)); try done.
  - (* Call *) destruct (sysc _ _ _) as [ret c'] eqn:Hsys. injection H as <-. by apply uni_call.
  - (* Clear *) injection H as <-. destruct Hr as (Ha & c & Hcl & Ho). pose proof Hmap as [(k & Hk & Hlen) _].
    pose proof (cleared_sweep s t lo c (th_creds th) k Hk Hlen Hpos Hposs Ho) as Hsw.
    eapply Hgo; try done; [|by exists c]. eapply (fit_ok s); try done. right. apply Hsw.
  - (* Sweep *) destruct Hr as (c & Hcl & Hsw). pose proof (sweep_read t lo c (th_creds th) s Hs1 Hsw) as Hn.
    destruct d; injection H as <-; try done; (eapply Hgo; [done..| |by exists c]; cbn; lia).
  - (* Read *) destruct Hr as (c & Hcl & Hsw). destruct d as [e| |]; [| |by injection H as <-].
    + case_decide as Hd; [done|]. destruct (Z.eqb_spec e t) as [->|Hne]; injection H as <-.
      * pose proof (read_self sysc t lo c (th_creds th) s Hsw) as Hn.
        set (s1 := with_dir _ _ _ _) in *. assert (s_threads s1 = <[t := at_point (Read lo) th]> (s_threads s1)) as E.
        { cbn. rewrite insert_id; [done|]. rewrite Hth, <-Ept. by destruct th. }
        eapply (caller_moves _ s s1 s1 t th (Read lo)); try done. by exists c.
      * eapply Hgo; try done. exists c. split; [done|]. apply (read_look sysc); try done; [lia|]. tauto.
    + case_decide as Hd; [|done]. injection H as <-. eapply Hgo; try done. exists c. split; [done|]. by apply read_closing.
  - (* Look *) destruct Hr as (c & Hcl & Hsw). destruct (sw_point _ _ _ _ _ _ Hsw) as [He Hne].
    destruct (Z.eqb_spec (x_tid (ref_at (t_map (s_trk s)) e)) e) as [E|E];
      [|destruct (Z.eqb_spec (x_tid (ref_at (t_map (s_trk s)) e)) 0) as [E0|E0]].
    + injection H as <-. eapply Hgo; try done. exists c. split; [done|]. eapply (point_on t (Look lo e)); try done.
      cbn. split; [done|]. split; [done|]. unfold entry, the_map. by rewrite (proj2 (Z.eqb_eq _ _) E).
    + injection H as <-. eapply Hgo; try done. exists c. split; [done|]. by eapply (point_on t (Look lo e)).
    + pose proof Hmap as [(k & Hk & Hlen) _]. unfold the_map in Hlen. rewrite Hlen in H.
      destruct (grow_entries _ _ _ _) as [n|] eqn:Eg; [|done]. injection H as <-.
      apply grow_entries_power in Eg as (j & Hj & -> & Hmod); [|done].
      eapply Hgo; try done. exists c. split; [done|]. eapply (point_on t (Look lo e)); try done. cbn.
      split_and!; try done. exists k, j. by split_and!.
  - (* Kill *) injection H as <-. by eapply uni_kill.
  - (* Closing *) destruct Hr as (c & Hcl & Hsw). injection H as <-. unfold end_sweep in *.
    destruct (Z.eqb_spec (l_some lo) 0) as [Hz|Hz]; [|].
    + destruct (Z.ltb_spec (l_verified lo + 1) 2).
      * eapply Hgo; try done. exists c. split; [done|]. by apply closing_sweep.
      * eapply Hgo; try done. cbn in Hlate. apply orb_false_iff in Hlate as [_ Hch].
        by apply (closing_finish sysc s t Hposs Hpos lo c (th_creds th) Hsw Hz Hch).
    + eapply Hgo; try done. exists c. split; [done|]. by apply closing_sweep.
  - (* Differ *) injection H as <-. by eapply Hgo.
Qed.

(** *** Every step *)

Lemma locked_point_unlocked p p' :
  locked_point p = Some p' -> locals_of p' = locals_of p /\ (phase p <> None \/ (exists to lo, p = NewState PSX_IDLE to lo) ->
    unlocked_point p' = unlocked_point p).
Proof.
  destruct p; cbn; try done; try (by injection 1 as <-).
  - destruct (l_mismatch lo); [|done]. by injection 1 as <-.
  - injection 1 as <-. split; [done|]. by intros [|(? & ? & ?)].
  - injection 1 as <-. split; [done|]. by intros [|(? & ? & ?)].
Qed.

Lemma regime_phase t p c s : regime sysc t (unlocked_point p) c s -> phase p <> None.
Proof. destruct p; cbn; try done; by destruct was. Qed.

Lemma uni_master l' m' s' t : base l' m' s' -> uni sysc (Some t) s' -> m' = Some t.
Proof.
  intros Hb (_ & _ & th & Hth & _ & Hr). eapply master_is; [done..|]. by eapply regime_phase.
Qed.

(** A step of a thread that changes neither whose call it is nor what matters of
    the tracker. *)
Lemma uni_mild l m l' m' s s' t th th' :
  base l m s -> base l' m' s' -> uni sysc m s -> s_threads s !! t = Some th ->
  s_threads s' = <[t := th']> (s_threads s) -> s_pid s' = s_pid s -> same_trk (s_trk s) (s_trk s') -> same_dir s s' ->
  mild (active (s_trk s)) th th' -> sweep_pos (th_point th') ->
  (phase (th_point th') = None <-> phase (th_point th) = None) ->
  (phase (th_point th) <> None -> unlocked_point (th_point th') = unlocked_point (th_point th)) -> uni sysc m' s'.
Proof.
  intros Hb Hb' Hu Hth E Ep Et Ed Hmild Hsp Hph Hpt.
  rewrite (same_master_update _ _ _ _ _ _ t th th' Hb Hb' Hth E Hph). eapply (mild_uni sysc s s' t th th'); try done.
  intros Hm. apply Hpt. exact (master_phase _ _ _ _ _ Hb Hth Hm).
Qed.

Lemma uni_killed m s : uni sysc m s -> s_threads s <> ∅ -> uni sysc m (with_killed s).
Proof.
  intros Hu Hne. apply map_choose in Hne as (t & th & Hth).
  eapply (mild_uni sysc s _ t th th); try done; first [by apply mild_same|cbn; by rewrite insert_id|by apply (proj1 Hu t)].
Qed.

Lemma uni_locked_step l m l' m' s t th tr p' :
  base l m s -> uni sysc m s -> s_threads s !! t = Some th -> th_hand th = None ->
  locked_step (s_trk s) (th_point th) = Some (tr, p') ->
  let s' := with_thread t (at_point p' th) (with_trk tr s) in base l' m' s' -> uni sysc m' s'.
Proof.
  intros Hb Hu Hth Hh Hst s' Hb'. pose proof (proj1 Hu t th Hth) as [Hpos Hsp].
  pose proof (base_thread _ _ _ Hb _ _ Hth) as (_ & _ & _ & _ & G).
  destruct (locked_step_facts _ _ _ _ Hst G) as (_ & _ & _ & _ & Hl & _).
  pose proof (base_locked _ _ _ _ _ Hb Hth Hl) as Hours.
  assert (match th_point th with NewStateLocked _ _ _ => False | _ => phase (th_point th) <> None end -> uni sysc m' s') as Hcaller.
  { intros Hp. assert (m = Some t) as -> by (eapply master_is; [done..|]; by destruct (th_point th)).
    assert (uni sysc (Some t) s') as Hu' by by eapply uni_caller_locked. by rewrite (uni_master _ _ _ _ Hb' Hu'). }
  destruct (th_point th) as [| |was to lo| | | | | | | | | | | | | | | | | | | | | | | |level|] eqn:Ept; try done; try (by apply Hcaller).
  - cbn in Hst. case_decide as Hd; injection Hst as <- <-.
    + eapply uni_new_state; try done. destruct m as [t0|].
      * destruct (decide (t0 = t)) as [->|Hne]; [by apply (uni_caller s t th)|]. exfalso.
        assert (was = PSX_IDLE) as ->; [|by pose proof (base_nobody sysc _ _ _ Hb (or_introl Hd))].
        destruct (decide (was = PSX_IDLE)); [done|]. exfalso. apply Hne.
        assert (Some t0 = Some t) as [= ->]; [|done]. eapply master_is; [done..|]. rewrite Ept. cbn. by destruct was.
      * destruct Hu as (_ & _ & _ & c & Ho). by apply (Ho t th).
    + eapply (uni_mild l m l' m' s s' t th); try done; [by apply mild_move|by rewrite Ept|by rewrite Ept].
  - cbn in Hst. destruct (t_state (s_trk s)) eqn:Est; injection Hst as <- <-;
      try (by eapply (uni_mild l m l' m' s s' t th); try done; [by apply mild_move|by rewrite Ept..]).
    pose proof (base_nobody sysc _ _ _ Hb (or_introl Est)) as ->.
    assert (m' = None) as -> by (eapply (same_master_update _ _ _ _ _ _ t th _ Hb Hb' Hth); [done|by rewrite Ept]).
    eapply uni_none; try done; [|intros _; by apply Hu].
    eapply (fit_ok s); try done; [apply Hu|by left].
  - injection Hst as <- <-. by eapply (uni_mild l m l' m' s s' t th); try done; [by apply mild_move|by rewrite Ept..].
Qed.

Lemma uni_point_step l m l' m' s t th d s' :
  base l m s -> base l' m' s' -> uni sysc m s -> s_threads s !! t = Some th -> th_hand th = None ->
  point_step sysc t d s = Some s' -> s_late s' = false -> uni sysc m' s'.
Proof.
  intros Hb Hb' Hu Hth Hh H Hlate. pose proof (proj1 Hu t th Hth) as [Hpos Hsp].
  pose proof (base_thread _ _ _ Hb _ _ Hth) as (_ & _ & _ & F & G).
  destruct (locked_point (th_point th)) as [p'|] eqn:Elp.
  { unfold point_step in H. rewrite Hth in H. cbn [mbind option_bind] in H. rewrite Elp in H.
    destruct (locked_point_facts _ _ Elp) as (_ & _ & Eph & _). destruct (locked_point_unlocked _ _ Elp) as [Elo Eun].
    destruct (psx_lock (s_pid s) (s_trk s)) as [tr|] eqn:Elk; injection H as <-.
    - assert (m' = m) as -> by (eapply (same_master_update _ _ _ _ _ _ t th _ Hb Hb' Hth); [done|cbn; by rewrite Eph]).
      apply (uni_acquire sysc l m s _ t th _ tr Hb Hu Hth Elk eq_refl); [by apply mild_move|intros lo E; cbn in E; rewrite Elo in E; by apply Hsp|].
      intros Hm. apply Eun. left. exact (master_phase _ _ _ _ _ Hb Hth Hm).
    - by rewrite (same_master_threads _ _ _ _ _ _ Hb Hb'). }
  destruct (locked_step (s_trk s) (th_point th)) as [[tr p']|] eqn:Els.
  { unfold point_step in H. rewrite Hth in H. cbn [mbind option_bind] in H. rewrite Elp, Els in H.
    set (s1 := with_thread t (at_point p' th) (with_trk tr s)) in *.
    assert (exists m1, base None m1 s1) as [m1 Hb1] by exact (base_locked_step sysc l m s s1 t th tr p' Hb Hth Hh Els eq_refl eq_refl eq_refl).
    assert (uni sysc m1 s1) as Hu1 by by eapply uni_locked_step.
    assert (s' = s1 \/ s' = with_killed s1) as [->| ->].
    { destruct (th_point th); try (injection H as <-; by left). repeat case_match; injection H as <-; first [by left|by right]. }
    - by rewrite (same_master_threads _ _ _ _ _ _ Hb1 Hb').
    - rewrite (same_master_threads _ _ _ _ _ _ Hb1 Hb') by done. apply uni_killed; [done|]. cbn. apply insert_non_empty. }
  destruct (phase (th_point th)) as [st|] eqn:Eph.
  - assert (m = Some t) as -> by (eapply master_is; [done..|congruence]).
    assert (uni sysc (Some t) s') as Hu'; [|by rewrite (uni_master _ _ _ _ Hb' Hu')].
    eapply uni_caller_free; try done; [apply (base_ours _ _ _ Hb); by right| |congruence].
    rewrite (F _ eq_refl). by destruct (phase_busy sysc _ _ G Eph) as [-> | ->].
  - unfold point_step in H. rewrite Hth in H. cbn [mbind option_bind] in H. rewrite Elp, Els in H.
    destruct (th_point th) eqn:Ept; try done. injection H as <-.
    by eapply (uni_mild l m l' m' s _ t th); try done; [by apply mild_move|by rewrite Ept..].
Qed.

Lemma uni_event l m l' m' (ev : event) s s' :
  base l m s -> base l' m' s' -> uni sysc m s -> do_event sysc ev s = Some s' -> s_late s' = false -> uni sysc m' s'.
Proof.
  intros Hb Hb' Hu H Hlate. unfold do_event in H. destruct (s_killed s) eqn:Hk; [done|].
  destruct ev as [t d|t|t|t|t nr args|t|t level|t new|t]; try (by eapply (uni_hand_step sysc l m l' m'));
    destruct (s_threads s !! t) as [th|] eqn:Hth; try done; cbn [mbind option_bind] in H;
    pose proof (proj1 Hu t th Hth) as [Hpos Hsp].
  - destruct (th_hand th) eqn:Hh; [done|]. by eapply (uni_point_step l m l' m' s t th).
  - destruct (th_hand th) as [h|] eqn:Hh; [done|]. destruct (th_sigs th) as [|g q] eqn:Hq; [done|]. injection H as <-.
    eapply (uni_mild l m l' m' s _ t th); try done. by apply mild_deliver.
  - injection H as <-. eapply (uni_mild l m l' m' s _ t th); try done. by apply mild_foreign.
  - destruct (free_thread th) eqn:Hfree; [|done]. injection H as <-. apply free_calm in Hfree as [Ept Hh].
    eapply (uni_mild l m l' m' s _ t th); try done; rewrite ?Ept; [by apply mild_move|..];
      cbn; unfold enter_syscall; destruct (6 <? length args)%nat; try done. by intros lo [= <-].
  - destruct (free_thread th) eqn:Hfree; [|done]. injection H as <-. apply free_calm in Hfree as [Ept Hh].
    eapply (uni_mild l m l' m' s _ t th); try done; rewrite ?Ept; [by apply mild_move|done..].
  - destruct (free_thread th) eqn:Hfree; [|done]. injection H as <-. apply free_calm in Hfree as [Ept Hh].
    eapply (uni_mild l m l' m' s _ t th); try done; rewrite ?Ept; [by apply mild_move|..];
      cbn; unfold psx_set_sensitivity; by destruct ((level <? PSX_IGNORE) || (PSX_ERROR <? level)).
  - destruct (free_thread th && _ && _) eqn:Hcond; [|done]. injection H as <-.
    apply andb_prop in Hcond as [[Hfree Hnew%bool_decide_eq_true]%andb_prop Hn%Z.ltb_lt].
    assert (m' = m) as ->; [|by eapply (uni_clone sysc l m)].
    eapply (same_master l m l' m'); [exact Hb|exact Hb'|..]; cbn; intros t1 th1.
    + intros H1 Hp. exists th1. rewrite lookup_insert_ne; [done|congruence].
    + intros [[<- <-]|[_ H1]]%lookup_insert_Some Hp; [done|]. by exists th1.
  - destruct (free_thread th) eqn:Hfree; [|done]. injection H as <-.
    assert (m' = m) as ->; [|pose proof (uni_exit sysc l m s t th Hb Hu Hth Hfree) as Hx; by rewrite Hk in Hx].
    eapply (same_master l m l' m'); [exact Hb|exact Hb'|..]; cbn; intros t1 th1.
    + intros H1 Hp. exists th1. rewrite lookup_delete_ne; [done|]. intros <-. apply free_calm in Hfree as [Ept _].
      assert (th1 = th) as -> by congruence. by rewrite Ept in Hp.
    + intros [_ H1]%lookup_delete_Some Hp. by exists th1.
Qed.

(** *** From the start *)

(** At the start all threads have the same credentials, and a map that the
    tracker brings along - of the parent, after a fork() - is a good one. *)
Definition uniform s : Prop :=
  initial s /\ (t_initialized (s_trk s) = true -> map_ok (the_map s)) /\
  exists c, forall t th, s_threads s !! t = Some th -> th_creds th = c.

Lemma uni_initial s : uniform s -> uni sysc None s.
Proof.
  intros [(Hp & Hmu & Hpid & Hl & Hth) [Hm [c Hc]]]. split; [|split; [|split]].
  - intros t th H. destruct (Hth t th H) as [Ht [Ept _]]. split; [done|]. rewrite Ept. by intros lo [=].
  - split; [intros Hi; right; by apply Hm|]. split; [by intros _|done].
  - done.
  - exists c. intros t th _ H. split; [|by eapply Hc]. destruct (Hth t th H) as (_ & _ & Hh & Hq). split; [by rewrite Hh|done].
Qed.

(** An overlap is never forgotten. *)
Lemma late_tkill e s : s_late (tkill e s) = s_late s.
Proof. unfold tkill. by destruct (s_threads s !! e). Qed.

Lemma late_point_step t d s s' : point_step sysc t d s = Some s' -> s_late s = true -> s_late s' = true.
Proof.
  unfold point_step. destruct (s_threads s !! t) as [th|]; [|done]. cbn [mbind option_bind]. intros H Hl.
  destruct (locked_point (th_point th)); [case_match; injection H as <-; exact Hl|].
  destruct (locked_step (s_trk s) (th_point th)) as [[tr p]|]; [repeat case_match; injection H as <-; exact Hl|].
  destruct (th_point th); try done; repeat (case_match || (destruct (grow_entries _ _ _ _); [cbn in H|done])); simplify_eq; rewrite ?late_tkill; cbn; by rewrite ?Hl.
Qed.

Lemma late_kept (ev : event) s s' : do_event sysc ev s = Some s' -> s_late s = true -> s_late s' = true.
Proof.
  unfold do_event. destruct (s_killed s); [done|].
  destruct ev as [t d|t|t|t|t nr args|t|t level|t new|t]; unfold hand_step; (destruct (s_threads s !! t) as [th|]; [|done]);
    cbn [mbind option_bind]; intros H Hl; try (repeat case_match; simplify_eq; exact Hl).
  - case_match; [done|]. by eapply late_point_step.
  - destruct (th_hand th); [|done]. cbn [mbind option_bind] in H. repeat case_match; simplify_eq; exact Hl.
Qed.

Lemma uni_reach s0 s :
  uniform s0 -> reach sysc s0 s -> s_late s = false -> exists l m, base l m s /\ uni sysc m s.
Proof.
  intros H0 H. induction H as [|s' s'' _ IH [e He]]; intros Hl.
  - exists None, None. split; [by apply base_initial, H0|by apply uni_initial].
  - destruct (s_late s') eqn:Hl'; [by rewrite (late_kept _ _ _ He Hl') in Hl|]. destruct (IH eq_refl) as (l & m & Hb & Hu).
    destruct (base_event sysc _ _ _ _ _ Hb He) as (l' & m' & Hb'). exists l', m'. split; [done|]. exact (uni_event l m l' m' e s' s'' Hb Hb' Hu He Hl).
Qed.

Lemma run_events_reach es s s' : run_events sysc es s = Some s' -> reach sysc s s'.
Proof.
  assert (forall s0, reach sysc s0 s -> run_events sysc es s = Some s' -> reach sysc s0 s') as H.
  { revert s. induction es as [|e es IH]; intros s s0 Hr H; cbn in H; [by injection H as <-|].
    destruct (do_event sysc e s) as [s1|] eqn:E; [|done]. eapply (IH s1); [|done]. eapply reach_step; [done|by econstructor]. }
  apply H, reach_refl.
Qed.

End master.
