(* ===== verification/PsxSolo.v ===== *)
(** psx_syscall() in a process with one thread is the system call: the steps of
    the thread from the call to its return, one lemma for each kind of step. *)

From stdpp Require Import gmap list sets fin_sets.
From Stdlib Require Import ZArith Lia.
From S2P Require Import Prelude Psx.

Open Scope Z_scope.

Section solo.
Context {C : Type} (sysc : Z -> list Z -> C -> Z * C).
(** The arguments of the system call: as many zeros as make three or six. *)
Definition padded (args : list Z) : list Z := args ++ replicate ((if (3 <? length args)%nat then 6 else 3) - length args) 0.

Lemma call_args_padded nr args old : (length args <= 6)%nat -> call_args (psx_command nr args old) = padded args.
Proof. intros H. destruct args as [|? [|? [|? [|? [|? [|? [|]]]]]]]; cbn in *; try done; lia. Qed.

Definition own (t : Z) : event := Step t EndOfDir.
(** The steps of the thread, from the call to its return. *)
Definition solo_call (t nr : Z) (args : list Z) (fails : bool) : list event :=
  Enter t nr args :: own t :: own t :: own t :: own t ::
  (if fails then [own t; own t]
   else [own t; own t; own t; own t; Step t (Entry t); own t; own t; own t; Step t (Entry t); own t; own t;
         own t; own t; own t; own t; own t]).

Section run.
Variables (pid t : Z).
Hypothesis Hpid : pid <> 0.
Definition solo (tr : tracker) (sa : sigact) (p : point) (c : C) (st sn : gset Z) (ch la : bool) : @system C :=
  mkSystem pid tr sa {[t := mkThread p None [] c]} st sn ch la false.

Lemma point_step_solo tr sa p c st sn ch la d :
  do_event sysc (Step t d) (solo tr sa p c st sn ch la) = point_step sysc t d (solo tr sa p c st sn ch la).
Proof. unfold do_event. cbn. by rewrite lookup_singleton_eq. Qed.

Ltac solve_solo := rewrite ?point_step_solo; unfold point_step; cbn [solo s_threads s_trk s_pid];
  rewrite ?lookup_singleton_eq; cbn [mbind option_bind th_point].

Lemma solo_lock tr sa p p' c st sn ch la d :
  locked_point p = Some p' -> t_mu tr = 0 -> t_pid tr = pid ->
  do_event sysc (Step t d) (solo tr sa p c st sn ch la) = Some (solo (set_mu pid tr) sa p' c st sn ch la).
Proof.
  intros Hp Hmu E. solve_solo. rewrite Hp. unfold psx_lock. rewrite Hmu. destruct (Z.eqb_spec 0 pid); [by subst|].
  cbn [t_pid set_mu]. rewrite E, Z.eqb_refl. cbn [negb]. unfold solo, with_thread. cbn. by rewrite insert_singleton_eq.
Qed.

Lemma solo_locked tr sa p tr' p' c st sn ch la d :
  locked_point p = None -> locked_step tr p = Some (tr', p') -> match p with DifferLocked _ => False | _ => True end ->
  do_event sysc (Step t d) (solo tr sa p c st sn ch la) = Some (solo tr' sa p' c st sn ch la).
Proof.
  intros Hp Hl Hd. solve_solo. rewrite Hp, Hl. unfold solo, with_thread. cbn. rewrite insert_singleton_eq. by destruct p.
Qed.

Lemma run_cons e es s s1 r : do_event sysc e s = Some s1 -> run_events sysc es s1 = r -> run_events sysc (e :: es) s = r.
Proof. intros E. cbn. by rewrite E. Qed.

Lemma solo_enter tr sa c st sn ch la nr args :
  (length args <= 6)%nat ->
  do_event sysc (Enter t nr args) (solo tr sa Idle c st sn ch la) =
    Some (solo tr sa (NewState PSX_IDLE PSX_SETUP (enter_locals nr args)) c st sn ch la).
Proof.
  intros Hl. assert (enter_syscall nr args = NewState PSX_IDLE PSX_SETUP (enter_locals nr args)) as E.
  { unfold enter_syscall. by assert ((6 <? length args)%nat = false) as -> by (apply Nat.ltb_ge; lia). }
  unfold do_event. cbn [solo s_killed s_threads]. rewrite lookup_singleton_eq. cbn [mbind option_bind free_thread th_point th_hand].
  rewrite E. unfold solo, with_thread. cbn. by rewrite insert_singleton_eq.
Qed.

Lemma solo_call_step tr sa c st sn ch la nr args ret c' d :
  (length args <= 6)%nat -> sysc nr (padded args) c = (ret, c') ->
  do_event sysc (Step t d) (solo tr sa (Call (enter_locals nr args)) c st sn ch la) =
    Some (solo (set_cmd (psx_command nr args (t_cmd tr)) tr) sa
      (if ret =? -1 then NewState PSX_SETUP PSX_IDLE (set_ret ret (enter_locals nr args))
       else NewState PSX_SETUP PSX_SYSCALL (set_ret ret (enter_locals nr args))) c' st sn ch la).
Proof.
  intros Hl Hs. solve_solo. cbn. rewrite call_args_padded, Hs by done. unfold solo, with_thread. cbn. by rewrite insert_singleton_eq.
Qed.

Ltac here := solve_solo; unfold solo, with_thread; cbn; rewrite ?insert_singleton_eq; reflexivity.

Lemma solo_confirm tr sa lo c st sn ch la d sa' tr' : psx_confirm_sigaction sa tr = (sa', tr') ->
  do_event sysc (Step t d) (solo tr sa (Confirm lo) c st sn ch la) =
    Some (solo tr' sa' (Call lo) c st sn ch la).
Proof. intros E. solve_solo. cbn. rewrite E. unfold solo, with_thread. cbn. by rewrite insert_singleton_eq. Qed.

Lemma solo_clear tr sa lo c st sn ch la d :
  do_event sysc (Step t d) (solo tr sa (Clear lo) c st sn ch la) =
    Some (solo (set_map (replicate (length (t_map tr)) ref0) tr) sa (Sweep lo) c st sn ch la).
Proof. here. Qed.

Lemma solo_sweep tr sa lo c st sn ch la :
  do_event sysc (own t) (solo tr sa (Sweep lo) c st sn ch la) = Some (solo tr sa (Read (next_sweep lo)) c {[t]} ∅ false la).
Proof. unfold own. solve_solo. unfold solo, with_thread. cbn. by rewrite insert_singleton_eq, dom_singleton_L. Qed.

Lemma solo_self tr sa lo c sn ch la : 0 < t -> t ∉ sn ->
  do_event sysc (Step t (Entry t)) (solo tr sa (Read lo) c {[t]} sn ch la) = Some (solo tr sa (Read lo) c {[t]} (sn ∪ {[t]}) ch la).
Proof.
  intros Ht Hn. solve_solo. cbn. destruct (decide _) as [[|]|]; [done|lia|]. by rewrite Z.eqb_refl.
Qed.

Lemma solo_end tr sa lo c sn ch la : t ∈ sn ->
  do_event sysc (own t) (solo tr sa (Read lo) c {[t]} sn ch la) = Some (solo tr sa (Closing lo) c {[t]} sn ch la).
Proof.
  intros Hn. unfold own. solve_solo. cbn. destruct (decide _) as [|H]; [|destruct H; set_solver].
  unfold solo, with_thread. cbn. by rewrite insert_singleton_eq.
Qed.

Lemma solo_close tr sa lo c st sn la :
  do_event sysc (own t) (solo tr sa (Closing lo) c st sn false la) = Some (solo tr sa (end_sweep lo) c st sn false la).
Proof.
  unfold own. solve_solo. cbn. unfold solo, with_thread. cbn. destruct (end_sweep lo); cbn; by rewrite ?insert_singleton_eq, ?orb_false_r.
Qed.

Lemma solo_differ tr sa lo c st sn ch la : l_mismatch lo = false ->
  do_event sysc (own t) (solo tr sa (Differ lo) c st sn ch la) = Some (solo tr sa (NewState PSX_SYSCALL PSX_IDLE lo) c st sn ch la).
Proof. intros Hm. unfold own. solve_solo. cbn. rewrite Hm. unfold solo, with_thread. cbn. by rewrite insert_singleton_eq. Qed.

(** The tracker after psx_syscall() has been used and is not in use. *)
Definition ready (s : @system C) : Prop :=
  t_pid (s_trk s) = s_pid s /\ t_mu (s_trk s) = 0 /\ t_state (s_trk s) = PSX_IDLE /\ t_initialized (s_trk s) = true /\
  s_killed s = false.

End run.

#[local] Opaque do_event.
Ltac next := eapply run_cons;
  [first [by apply solo_enter | by apply solo_lock | by eapply solo_locked
         | by eapply solo_confirm | apply solo_clear | apply solo_sweep | apply solo_self; [assumption|set_solver] | apply solo_end; set_solver
         | apply solo_close | by apply solo_differ | by apply solo_call_step ]
  |match goal with |- context [solo ?tr _ ?p] => let p' := eval cbn in p in
    let tr' := eval cbn -[psx_command replicate] in tr in change p with p'; change tr with tr' end].

(** From the end of the last sweep to the return. *)
Lemma solo_finish pid t inc sens cmd sa1 sa2 m sa lo c st sn ch la :
  pid <> 0 -> l_incomplete lo = 0 -> l_mismatch lo = false ->
  run_events sysc [own t; own t; own t; own t; own t]
    (solo pid t (mkTracker pid 0 PSX_SYSCALL true inc sens cmd sa1 sa2 m) sa (Finish lo) c st sn ch la) =
  Some (solo pid t (mkTracker pid 0 PSX_IDLE true 0 sens (mkCmd (c_nr cmd) (c_args cmd) (c_six cmd) false) sa1 sa2 m) sa
    (Returned (l_ret lo)) c st sn ch la).
Proof.
  intros Hpid Hi Hm. next. eapply run_cons.
  { eapply solo_locked; [done| |done]. cbn. rewrite Hi. reflexivity. }
  next. next. next. reflexivity.
Qed.

(** The two sweeps find nobody else. *)
Lemma solo_sweeps pid t tr sa lo c st sn ch la :
  pid <> 0 -> 0 < t -> l_verified lo = 0 ->
  run_events sysc [own t; Step t (Entry t); own t; own t; own t; Step t (Entry t); own t; own t]
    (solo pid t tr sa (Sweep lo) c st sn ch la) =
  Some (solo pid t tr sa (Finish (set_verified 2 (next_sweep (next_sweep lo)))) c {[t]} (∅ ∪ {[t]}) false la).
Proof.
  intros Hpid Ht Hv. next. next. next. eapply run_cons; [apply solo_close|].
  assert (end_sweep (next_sweep lo) = Sweep (set_verified 1 (next_sweep lo))) as -> by (unfold end_sweep; cbn; by rewrite Hv).
  next. next. next. next. reflexivity.
Qed.

Lemma run_app es es' s s1 r : run_events sysc es s = Some s1 -> run_events sysc es' s1 = r -> run_events sysc (es ++ es') s = r.
Proof.
  revert s. induction es as [|e es IH]; intros s; cbn [run_events app]; [by intros [= ->]|].
  destruct (do_event sysc e s) as [s2|]; [|done]. cbn. apply IH.
Qed.

(** C13: The steps of a lone thread, from the call with up to six arguments to the
    return, lead to the credentials that the system call makes of its own when
    the missing arguments are zero, with the result of the system call; the
    tracker is as ready as before. *)
Theorem psx_solo_call s t nr args c ret c'
  (Hready : ready s) (Hpid : s_pid s <> 0) (Ht : 0 < t) (Halone : s_threads s = {[t := mkThread Idle None [] c]})
  (Hlen : (length args <= 6)%nat) (Hsys : sysc nr (padded args) c = (ret, c')) :
  exists s', run_events sysc (solo_call t nr args (ret =? -1)) s = Some s' /\ ready s' /\
    s_threads s' = {[t := mkThread (Returned ret) None [] c']}.
Proof.
  destruct s as [pid [? ? ? ? inc sens cmd sa1 sa2 m] sa ths st sn ch la killed].
  destruct Hready as (E1 & E2 & E3 & E4 & E5). cbn in E1, E2, E3, E4, E5, Hpid, Halone. subst.
  change (mkSystem pid _ _ _ _ _ _ _ _) with (solo pid t (mkTracker pid 0 PSX_IDLE true inc sens cmd sa1 sa2 m) sa Idle c st sn ch la).
  assert (exists sa' sa1' sa2', psx_confirm_sigaction sa (mkTracker pid 0 PSX_SETUP true inc sens cmd sa1 sa2 m) =
    (sa', mkTracker pid 0 PSX_SETUP true inc sens cmd sa1' sa2' m)) as (sa' & sa1' & sa2' & Hconf).
  { unfold psx_confirm_sigaction. case_match; by eexists _, _, _. }
  destruct (Z.eqb_spec ret (-1)) as [->|Hret].
  - eexists. split.
    + unfold solo_call. do 7 next. reflexivity.
    + done.
  - eexists. split.
    + unfold solo_call. do 4 next. eapply run_cons; [by apply solo_call_step|].
      rewrite (proj2 (Z.eqb_neq _ _) Hret). do 3 next.
      eapply (run_app [_; _; _; _; _; _; _; _]); [by apply solo_sweeps|]. by apply solo_finish.
    + done.
Qed.

End solo.
