(* ===== verification/PsxSpec.v ===== *)
(** What libpsx promises, and where it does not keep it: at most one thread holds
    the lock and one is in a call, a call leaves all threads with the same
    credentials, a single thread's call is the system call, the child of a fork()
    starts afresh; and a thread that the signal interrupts inside the lock stays
    there for ever. *)

From stdpp Require Import gmap list sets fin_sets.
From Stdlib Require Import ZArith Lia.
From S2P Require Import Prelude Psx PsxMap PsxInv PsxUniform PsxSweep PsxCall PsxMaster.

Open Scope Z_scope.

(** *** The map grows *)

(** The largest thread number there is: the kernel's PID_MAX_LIMIT. *)
Definition PID_MAX_LIMIT : Z := 2 ^ 22.


Section spec.
Context {C : Type} (sysc : Z -> list Z -> C -> Z * C).
Implicit Types (s : @system C) (th : @thread C) (tr : tracker) (t : Z) (c : C) (lo : locals).

(** C6: psx_lock() is a lock, also against the handlers, and psx_new_state() lets one
    call in at a time: in every reachable state two threads that hold the lock
    are the same thread, and so are two threads within a call, whose phase is the
    tracker's state; the lock's word is the process's exactly when a thread holds
    it. *)
Theorem psx_exclusive s0 s (Hinit : initial s0) (Hreach : reach sysc s0 s) :
  (forall t t' th th', s_threads s !! t = Some th -> s_threads s !! t' = Some th' ->
     (holds th = true -> holds th' = true -> t = t') /\
     (phase (th_point th) <> None -> phase (th_point th') <> None -> t = t') /\
     (forall st, phase (th_point th) = Some st -> t_state (s_trk s) = st)) /\
  (t_mu (s_trk s) = s_pid s <-> exists t th, s_threads s !! t = Some th /\ holds th = true).
Proof.
  destruct (base_reach sysc s0 s Hinit Hreach) as (l & m & Hb). split.
  - intros t t' th th' H H'. destruct (base_thread _ _ _ Hb _ _ H) as (A & _ & D & F & _).
    destruct (base_thread _ _ _ Hb _ _ H') as (A' & _ & D' & _). split; [|split; [|done]].
    + intros E%A E'%A'. congruence.
    + intros E%D E'%D'. congruence.
  - rewrite (base_lock _ _ _ Hb). split.
    + intros Hl. destruct l as [t|]; [|done]. destruct (s_threads s !! t) as [th|] eqn:Hth.
      * exists t, th. split; [done|]. by apply (base_thread _ _ _ Hb _ _ Hth).
      * destruct (base_dom _ _ _ Hb t); [by left|done].
    + intros (t & th & Hth & Hh). apply (base_thread _ _ _ Hb _ _ Hth) in Hh. congruence.
Qed.

(** C5: The purpose of libpsx. Threads that agree at the start agree whenever no call
    is in progress, and when a caller is done with its threads - before it lets
    the next caller in - all of them have its credentials and none is still in
    the handler; provided that no last sweep overlapped the creation of a thread.
    System calls that fail are taken to change nothing. *)
Theorem psx_uniform s0 s
  (Hfail : forall nr args c, (sysc nr args c).1 = -1 -> (sysc nr args c).2 = c)
  (Hinit : uniform s0) (Hreach : reach sysc s0 s) (Hlate : s_late s = false) :
  (t_state (s_trk s) = PSX_IDLE -> exists c, forall t th, s_threads s !! t = Some th -> th_creds th = c /\ calm th) /\
  (forall t th lo, s_threads s !! t = Some th -> th_point th = NewState PSX_SYSCALL PSX_IDLE lo ->
     forall t' th', s_threads s !! t' = Some th' -> th_creds th' = th_creds th /\ calm th').
Proof.
  destruct (uni_reach sysc Hfail s0 s Hinit Hreach Hlate) as (l & m & Hb & Hu). split.
  - intros Hi. pose proof (base_nobody sysc _ _ _ Hb (or_introl Hi)) as ->. destruct Hu as (_ & _ & _ & c & Ho).
    exists c. intros t th Hth. by destruct (Ho t th ltac:(done) Hth).
  - intros t th lo Hth Ept t' th' Hth'. assert (m = Some t) as -> by (eapply master_is; [done..|by rewrite Ept]).
    destruct (uni_caller sysc s t th Hu Hth) as [Hc Hr]. rewrite Ept in Hr. destruct Hr as [_ Ho].
    destruct (decide (t' = t)) as [->|Hne]; [assert (th' = th) as -> by congruence; done|].
    by destruct (Ho t' th' ltac:(congruence) Hth').
Qed.


(** *** A thread interrupted inside the lock *)

(** [t] holds the lock, and the signal's handler has interrupted it. *)
Definition interrupted t (p : point) s : Prop :=
  t_mu (s_trk s) = s_pid s /\ exists th g, s_threads s !! t = Some th /\ th_point th = p /\ th_hand th = Some (HStart g).

Lemma tkill_hand e s t th : s_threads s !! t = Some th ->
  exists th', s_threads (tkill e s) !! t = Some th' /\ th_point th' = th_point th /\ th_hand th' = th_hand th.
Proof.
  intros Hth. unfold tkill. destruct (s_threads s !! e) as [th1|] eqn:E; [|by exists th]. cbn.
  destruct (decide (t = e)) as [->|Hne]; [|rewrite lookup_insert_ne by done; by exists th].
  rewrite lookup_insert_eq. assert (th1 = th) as -> by congruence. by eexists.
Qed.

(** A step of another thread that does not have the lock. *)
Lemma other_point_step t p t1 d s s' th1 :
  interrupted t p s -> t1 <> t -> s_threads s !! t1 = Some th1 -> point_locked (th_point th1) = false ->
  point_step sysc t1 d s = Some s' -> interrupted t p s'.
Proof.
  intros (Hmu & th & g & Hth & Ept & Hh) Hne Hth1 Hl H. unfold point_step in H. rewrite Hth1 in H. cbn [mbind option_bind] in H.
  destruct (locked_point (th_point th1)).
  { unfold psx_lock in H. apply Z.eqb_eq in Hmu as Hmu'. rewrite Hmu' in H. injection H as <-. split; [done|]. by exists th, g. }
  destruct (locked_step (s_trk s) (th_point th1)) as [[tr p1]|] eqn:E; [exfalso; by destruct (th_point th1)|].
  assert (forall s1, t_mu (s_trk s1) = s_pid s1 -> (exists th', s_threads s1 !! t = Some th' /\ th_point th' = th_point th /\ th_hand th' = th_hand th) ->
    interrupted t p s1) as Hgo by (intros s1 E1 (th' & E2 & E3 & E4); split; [done|]; exists th', g; by rewrite E3, E4).
  assert (forall q, exists th', <[t1 := q]> (s_threads s) !! t = Some th' /\ th_point th' = th_point th /\ th_hand th' = th_hand th) as Hin
    by (intros q; exists th; by rewrite lookup_insert_ne).
  assert (forall tr, t_mu tr = t_mu (s_trk s) -> t_mu tr = s_pid s) as Htr by congruence.
  destruct (th_point th1) eqn:Ep; try done.
  - destruct (psx_confirm_sigaction (s_sa s) (s_trk s)) as [sa tr] eqn:Ec. injection H as <-. apply Hgo; [|apply Hin]. apply Htr. cbn.
    unfold psx_confirm_sigaction in Ec. case_match; by injection Ec as <- <-.
  - destruct (sysc _ _ _) as [r c']. injection H as <-. by apply Hgo; [|apply Hin].
  - injection H as <-. by apply Hgo; [|apply Hin].
  - destruct d; injection H as <-; apply Hgo; try done; try apply Hin; by exists th.
  - destruct d; [case_decide; [done|]; destruct (tid =? t1)|case_decide; [|done]|]; injection H as <-;
      apply Hgo; try done; try apply Hin; by exists th.
  - destruct (_ =? tid); [injection H as <-; by apply Hgo; [|apply Hin]|].
    destruct (_ =? 0); [injection H as <-; by apply Hgo; [|apply Hin]|].
    destruct (grow_entries _ _ _ _); [|done]. injection H as <-. by apply Hgo; [|apply Hin].
  - injection H as <-. apply Hgo; [unfold tkill; by case_match|]. apply (tkill_hand tid (with_thread t1 _ s) t th).
    cbn. by rewrite lookup_insert_ne.
  - injection H as <-. by destruct (end_sweep lo); apply Hgo; try apply Hin.
  - injection H as <-. by apply Hgo; [|apply Hin].
  - injection H as <-. by apply Hgo; [|apply Hin].
Qed.

Lemma other_hand_step t p t1 s s' th1 h1 :
  interrupted t p s -> s_threads s !! t1 = Some th1 -> th_hand th1 = Some h1 -> (t1 <> t -> hand_locked (Some h1) = false) ->
  hand_step sysc t1 s = Some s' -> interrupted t p s'.
Proof.
  intros (Hmu & th & g & Hth & Ept & Hh) Hth1 Hh1 Hl H. unfold hand_step in H. rewrite Hth1 in H. cbn [mbind option_bind] in H.
  rewrite Hh1 in H. cbn [mbind option_bind] in H. apply Z.eqb_eq in Hmu as Hmu'. unfold psx_lock in H. rewrite Hmu' in H.
  assert (t1 = t -> h1 = HStart g) as Hg by (intros ->; congruence).
  destruct (locked_hpoint h1) eqn:E1; [injection H as <-; split; [done|]; by exists th, g|].
  assert (t1 <> t) as Hne by (intros ->; by rewrite Hg in E1). specialize (Hl Hne).
  destruct h1; try done. cbn in H. destruct (sysc _ _ _) as [r c']. injection H as <-. split; [done|].
  exists th, g. cbn. by rewrite lookup_insert_ne.
Qed.

Lemma interrupted_event s0 t p e s s' :
  initial s0 -> reach sysc s0 s -> point_locked p = true -> interrupted t p s -> do_event sysc e s = Some s' -> interrupted t p s'.
Proof.
  intros Hinit Hreach Hl Hs H. destruct (base_reach sysc s0 s Hinit Hreach) as (l & m & Hb).
  pose proof Hs as (Hmu & th & g & Hth & Ept & Hh).
  assert (l = Some t) as ->. { apply (base_thread _ _ _ Hb _ _ Hth). unfold holds. by rewrite Ept, Hl. }
  assert (forall t1 th1, s_threads s !! t1 = Some th1 -> t1 <> t -> point_locked (th_point th1) = false /\ hand_locked (th_hand th1) = false) as Hothers.
  { intros t1 th1 H1 Hne. apply orb_false_iff. destruct (holds th1) eqn:E; [|done].
    apply (base_thread _ _ _ Hb _ _ H1) in E. congruence. }
  assert (forall t1 th1, s_threads s !! t1 = Some th1 -> th_hand th1 = None -> t1 <> t) as Hfree by (intros t1 th1 H1 E ->; congruence).
  assert (forall t1 q, t1 <> t -> interrupted t p (with_thread t1 q s)) as Hin.
  { intros t1 q Hne. split; [done|]. exists th, g. cbn. by rewrite lookup_insert_ne. }
  unfold do_event in H. destruct (s_killed s); [done|].
  destruct e as [t1 d|t1|t1|t1|t1 nr args|t1|t1 level|t1 new|t1];
    (destruct (s_threads s !! t1) as [th1|] eqn:Hth1; [|by try (unfold hand_step in H; rewrite Hth1 in H)]); cbn [mbind option_bind] in H.
  - destruct (th_hand th1) eqn:Eh; [done|]. pose proof (Hfree _ _ Hth1 Eh) as Hne.
    apply (other_point_step t p t1 d s s' th1); try done. by apply (Hothers t1).
  - destruct (th_hand th1) as [h1|] eqn:Eh; [|by unfold hand_step in H; rewrite Hth1 in H; cbn in H; rewrite Eh in H].
    apply (other_hand_step t p t1 s s' th1 h1); try done. intros Hne. rewrite <-Eh. by apply (Hothers t1).
  - destruct (th_hand th1) eqn:Eh; [done|]. destruct (th_sigs th1); [done|]. injection H as <-. apply Hin. by eapply Hfree.
  - injection H as <-. split; [done|]. cbn. destruct (decide (t1 = t)) as [->|Hne].
    + rewrite lookup_insert_eq. assert (th1 = th) as -> by congruence. by eexists _, g.
    + rewrite lookup_insert_ne by done. by exists th, g.
  - destruct (free_thread th1) eqn:E; [|done]. injection H as <-. apply free_calm in E as [_ E]. apply Hin. by eapply Hfree.
  - destruct (free_thread th1) eqn:E; [|done]. injection H as <-. apply free_calm in E as [_ E]. apply Hin. by eapply Hfree.
  - destruct (free_thread th1) eqn:E; [|done]. injection H as <-. apply free_calm in E as [_ E]. apply Hin. by eapply Hfree.
  - destruct (_ && bool_decide (s_threads s !! new = None) && _) eqn:E; [|done]. injection H as <-.
    apply andb_prop in E as [[_ En%bool_decide_eq_true]%andb_prop _]. split; [done|]. exists th, g. cbn.
    rewrite lookup_insert_ne; [done|congruence].
  - destruct (free_thread th1) eqn:E; [|done]. injection H as <-. apply free_calm in E as [_ E]. split; [done|].
    exists th, g. cbn. rewrite lookup_delete_ne; [done|]. by eapply Hfree.
Qed.

(** C16: Nothing blocks the signal while psx_lock() is held: once the handler has
    interrupted a thread inside the lock, the thread spins in the handler's own
    psx_lock() for ever, and no other thread gets the lock. *)
Theorem psx_handler_deadlock s0 s s' t p
  (Hinit : initial s0) (Hreach : reach sysc s0 s) (Hlocked : point_locked p = true) (Hint : interrupted t p s)
  (Hlater : reach sysc s s') :
  interrupted t p s' /\ psx_lock (s_pid s') (s_trk s') = None.
Proof.
  assert (interrupted t p s' /\ reach sysc s0 s') as [H _].
  { induction Hlater as [|s1 s2 _ [IH1 IH2] [e He]]; [done|]. split; [by eapply interrupted_event|].
    eapply reach_step; [done|by econstructor]. }
  split; [done|]. destruct H as [Hmu _]. unfold psx_lock. by apply Z.eqb_eq in Hmu as ->.
Qed.

End spec.
