(* ===== verification/LaunchSpec.v ===== *)
(** What cap_launch() guarantees: a child starts the program only after every step
    asked for has succeeded, in the order of the code; and the parent learns from
    the pipe whether it did. *)

From S2P Require Import Prelude Capability World Exec Syscall Alloc Flag Proc Launch.
From stdpp Require Import gmap strings list sets.
From Stdlib Require Import ZArith Lia.

Open Scope Z_scope.

(** ** The documented behaviour of pipe(2), fork(2) and their relatives

    [msg k] is what the open pipe of a launch holds: the child has an end of its
    own, and only write(2) puts something in it; a read(2) at the other end,
    once the child is gone, takes what it holds or finds the end of the file. *)
Class ProcessLaws (K : Type) `{!Kernel K, !Process K} := {
  msg : K -> option Z;
  msg_call k r : msg (sys_call k r).2 = msg k;
  msg_user fn k r : msg (user_syscall fn k r).2 = msg k;
  msg_chdir k path : msg (sys_chdir k path).2 = msg k;
  msg_setup fn detail k : msg (user_setup fn detail k).2 = msg k;
  msg_name k name : msg (sys_set_name k name) = msg k;
  msg_close k fd : msg (sys_close_fd k fd) = msg k;
  msg_exec k path argv envp : msg (sys_execve k path argv envp).2 = msg k;
  msg_write k fd e : 0 < (sys_write k fd e).1 /\ msg (sys_write k fd e).2 = Some e;
  msg_pipe k r ps k' : sys_pipe2 k = (r, ps, k') -> 0 <= r -> r = 0 /\ msg k' = None;
  msg_fork k r kp kc : sys_fork k = (r, kp, kc) -> msg kc = msg k;
  msg_gone kp kc : msg (child_gone kp kc) = msg kc;
  msg_read k fd : match msg k with None => (sys_read k fd).1.1 = 0 | Some e => 0 < (sys_read k fd).1.1 end
}.

Section launch_spec.
Context {K : Type} `{!Kernel K, !Process K, !ProcessLaws K}.
Implicit Types (w : world K) (p : Z) (l : cap_launch_s).

(** *** Operations that neither end the process nor write to the pipe *)

Definition quiet {A} (m : M K A) : Prop := forall w,
  match m w with (Ok _, w') => msg (kst w') = msg (kst w) | (Halt _, _) => False | _ => True end.

Lemma quiet_ret {A} (a : A) : quiet (mret a).
Proof. done. Qed.
Lemma quiet_bind {A B} (m : M K A) (f : A -> M K B) : quiet m -> (forall a, quiet (f a)) -> quiet (m ≫= f).
Proof.
  intros Hm Hf w. unfold mbind, M_bind. pose proof (Hm w) as H. destruct (m w) as [[a|e| |] w1]; try done.
  pose proof (Hf a w1) as H1. destruct (f a w1) as [[b|e| |] w2]; try done. congruence.
Qed.
Lemma quiet_gets {A} (f : world K -> A) : quiet (gets f).
Proof. done. Qed.
Lemma quiet_modify f : (forall w, msg (kst (f w)) = msg (kst w)) -> quiet (modify f).
Proof. intros H w. apply H. Qed.
Lemma quiet_fault {A} : quiet (fault : M K A).
Proof. done. Qed.
Lemma quiet_spin {A} : quiet (spin : M K A).
Proof. done. Qed.
Lemma quiet_load p : quiet (load p).
Proof. intros w. unfold load. by destruct (heap w !! p). Qed.
Lemma quiet_store p o : quiet (store p o).
Proof. intros w. unfold store. by destruct (heap w !! p). Qed.
Lemma quiet_dealloc p : quiet (dealloc p).
Proof. done. Qed.
Lemma quiet_place o : quiet (place o).
Proof. done. Qed.
Lemma quiet_libc_alloc : quiet libc_alloc.
Proof. done. Qed.
Lemma quiet_set_errno e : quiet (set_errno e).
Proof. done. Qed.
Lemma quiet_put_glob f : quiet (put_glob f).
Proof. done. Qed.

End launch_spec.

Create HintDb quiet.
#[export] Hint Resolve quiet_ret quiet_gets quiet_fault quiet_spin quiet_load quiet_store quiet_dealloc quiet_place
  quiet_libc_alloc quiet_set_errno quiet_put_glob : quiet.

(** Take a program apart. *)
Ltac quiet_step :=
  lazymatch goal with
  | |- quiet (_ ≫= _) => apply quiet_bind; [|intros ?]
  | |- quiet (match ?x with _ => _ end) => destruct x
  | |- quiet (let '(_, _) := ?x in _) => destruct x
  end.
Ltac quiet := cbv zeta; repeat (first [solve [eauto 2 with quiet nocore]|quiet_step]; cbv zeta).

Section steps.
Context {K : Type} `{!Kernel K, !Process K, !ProcessLaws K}.
Implicit Types (w : world K) (p : Z) (l : cap_launch_s) (sc : syscaller_ref).

(** *** The objects *)

Lemma quiet_load_cap p : quiet (load_cap p).
Proof. unfold load_cap. quiet. Qed.
Lemma quiet_load_iab p : quiet (load_iab p).
Proof. unfold load_iab. quiet. Qed.
Lemma quiet_load_launch p : quiet (load_launch p).
Proof. unfold load_launch. quiet. Qed.
Lemma quiet_load_str p : quiet (load_str p).
Proof. unfold load_str. quiet. Qed.
#[local] Hint Resolve quiet_load_cap quiet_load_iab quiet_load_launch quiet_load_str : quiet.

Lemma quiet_modify_cap p f : quiet (modify_cap p f).
Proof. unfold modify_cap. quiet. Qed.
Lemma quiet_mu_lock p : quiet (mu_lock p).
Proof. unfold mu_lock, mu_blocked. quiet. Qed.
Lemma quiet_mu_unlock p : quiet (mu_unlock p).
Proof. unfold mu_unlock. quiet. Qed.
Lemma quiet_alloc o : quiet (alloc o).
Proof. unfold alloc. quiet. Qed.
Lemma quiet_assert_ub b : quiet (assert_ub b).
Proof. unfold assert_ub. quiet. Qed.
Lemma quiet_libc_ret r : quiet (libc_ret r).
Proof. unfold libc_ret. quiet. Qed.
Lemma quiet_modify_launch p f : quiet (modify_launch p f).
Proof. unfold modify_launch. quiet. Qed.
#[local] Hint Resolve quiet_modify_cap quiet_mu_lock quiet_mu_unlock quiet_alloc quiet_assert_ub quiet_libc_ret quiet_modify_launch : quiet.

Lemma quiet_magic_of p : quiet (magic_of p).
Proof. unfold magic_of. quiet. Qed.
#[local] Hint Resolve quiet_magic_of : quiet.
Lemma quiet_good_cap_t p : quiet (good_cap_t p).
Proof. unfold good_cap_t. quiet. Qed.
#[local] Hint Resolve quiet_good_cap_t : quiet.
Lemma quiet_cap_free p : quiet (cap_free p).
Proof.
  unfold cap_free. generalize 3%nat. intros fuel. revert p. induction fuel as [|fuel IH]; intros p; cbn [cap_free_rec]; [done|].
  quiet; apply IH.
Qed.
#[local] Hint Resolve quiet_cap_free : quiet.

(** *** The system calls *)

(** A call to the kernel, then libc's way of returning. *)
Lemma quiet_libc_kst (g : K -> Z * K) : (forall k, msg (g k).2 = msg k) ->
  quiet (fun w => let '(r, k) := g (kst w) in libc_ret r (with_kst k w)).
Proof.
  intros Hg w. pose proof (Hg (kst w)) as H. destruct (g (kst w)) as [r k]. cbn in H.
  pose proof (quiet_libc_ret r (with_kst k w)) as Hr. destruct (libc_ret r (with_kst k w)) as [[| | |] w']; try done.
  by rewrite Hr.
Qed.

Lemma quiet_libc_syscall r : quiet (libc_syscall r).
Proof. apply (quiet_libc_kst (fun k => sys_call k r)). intros k. apply msg_call. Qed.
#[local] Hint Resolve quiet_libc_syscall : quiet.

Lemma quiet_sc_call sc r : quiet (sc_call sc r).
Proof.
  unfold sc_call, cap_syscall. quiet. intros w. pose proof (msg_user fn (kst w) r) as H.
  by destruct (user_syscall fn (kst w) r) as [[a e] k].
Qed.
#[local] Hint Resolve quiet_sc_call : quiet.
Lemma quiet_capset v pid d : quiet (capset v pid d).
Proof. unfold capset. quiet. Qed.
Lemma quiet_prctl a b c d e f : quiet (prctl a b c d e f).
Proof. unfold prctl. quiet. Qed.
Lemma quiet_overrode : quiet overrode_syscalls.
Proof. unfold overrode_syscalls. quiet. Qed.
Lemma quiet_wprctl_result r : quiet (wprctl_result r).
Proof. unfold wprctl_result. quiet. Qed.
Lemma quiet_fix_errno r : quiet (fix_errno r).
Proof. unfold fix_errno. quiet. Qed.
Lemma quiet_get_errno : quiet get_errno.
Proof. unfold get_errno. quiet. Qed.
#[local] Hint Resolve quiet_capset quiet_prctl quiet_overrode quiet_wprctl_result quiet_fix_errno quiet_get_errno : quiet.

Lemma quiet_libcap_capset sc v pid d : quiet (libcap_capset sc v pid d).
Proof. unfold libcap_capset. quiet. Qed.
Lemma quiet_wprctl3 sc a b c : quiet (libcap_wprctl3 sc a b c).
Proof. unfold libcap_wprctl3. quiet. Qed.
Lemma quiet_wprctl6 sc a b c d e f : quiet (libcap_wprctl6 sc a b c d e f).
Proof. unfold libcap_wprctl6. quiet. Qed.
Lemma quiet_cap_get_bound c : quiet (cap_get_bound c).
Proof. unfold cap_get_bound. quiet. Qed.
Lemma quiet_cap_get_ambient c : quiet (cap_get_ambient c).
Proof. unfold cap_get_ambient. quiet. Qed.
#[local] Hint Resolve quiet_libcap_capset quiet_wprctl3 quiet_wprctl6 quiet_cap_get_bound quiet_cap_get_ambient : quiet.
Lemma quiet_cap_drop_bound_sc sc c : quiet (cap_drop_bound_sc sc c).
Proof. unfold cap_drop_bound_sc. quiet. Qed.
Lemma quiet_cap_set_ambient_sc sc c s : quiet (cap_set_ambient_sc sc c s).
Proof. unfold cap_set_ambient_sc. quiet. Qed.
Lemma quiet_capget p b : quiet (capget p b).
Proof. unfold capget. quiet. Qed.
#[local] Hint Resolve quiet_cap_drop_bound_sc quiet_cap_set_ambient_sc quiet_capget : quiet.

(** *** Sets *)

Lemma quiet_cap_init : quiet cap_init.
Proof. unfold cap_init. quiet. Qed.
#[local] Hint Resolve quiet_cap_init : quiet.
Lemma quiet_cap_dup p : quiet (cap_dup p).
Proof. unfold cap_dup. quiet. Qed.
Lemma quiet_cap_set_flag_loop p set r vs n : forall i, quiet (cap_set_flag_loop p set r vs i n).
Proof. induction n as [|n IH]; intros i; cbn [cap_set_flag_loop]; [quiet|]. unfold cap_set_flag_one. quiet; apply IH. Qed.
#[local] Hint Resolve quiet_cap_dup quiet_cap_set_flag_loop : quiet.
Lemma quiet_cap_set_flag p set n vs r : quiet (cap_set_flag p set n vs r).
Proof. unfold cap_set_flag. quiet. Qed.
Lemma quiet_cap_clear_flag p f : quiet (cap_clear_flag p f).
Proof. unfold cap_clear_flag. quiet. Qed.
Lemma quiet_cap_get_proc : quiet cap_get_proc.
Proof. unfold cap_get_proc. quiet. Qed.
Lemma quiet_cap_set_proc_sc sc p : quiet (cap_set_proc_sc sc p).
Proof. unfold cap_set_proc_sc. quiet. Qed.
Lemma quiet_cap_max_bits : quiet cap_max_bits.
Proof. unfold cap_max_bits. quiet. Qed.
#[local] Hint Resolve quiet_cap_set_flag quiet_cap_clear_flag quiet_cap_get_proc quiet_cap_set_proc_sc quiet_cap_max_bits : quiet.

(** *** The steps of a launch *)

Lemma quiet_drop_working sc p : quiet (drop_working sc p).
Proof. unfold drop_working. quiet. Qed.
#[local] Hint Resolve quiet_drop_working : quiet.
Lemma quiet_cap_setuid_sc sc uid : quiet (cap_setuid_sc sc uid).
Proof. unfold cap_setuid_sc. quiet. Qed.
Lemma quiet_cap_setgroups_sc sc gid n g : quiet (cap_setgroups_sc sc gid n g).
Proof. unfold cap_setgroups_sc. quiet. Qed.
Lemma quiet_reset_ambient_loop n e : forall c, quiet (reset_ambient_loop n e c).
Proof. induction n as [|n IH]; intros c; cbn [reset_ambient_loop]; [quiet|]. quiet; apply IH. Qed.
#[local] Hint Resolve quiet_reset_ambient_loop : quiet.
Lemma quiet_cap_reset_ambient_sc sc : quiet (cap_reset_ambient_sc sc).
Proof. unfold cap_reset_ambient_sc. quiet. Qed.
Lemma quiet_drop_bound_loop n sc : forall c, quiet (drop_bound_loop n sc c).
Proof. induction n as [|n IH]; intros c; cbn [drop_bound_loop]; [quiet|]. quiet; apply IH. Qed.
#[local] Hint Resolve quiet_cap_reset_ambient_sc quiet_drop_bound_loop : quiet.
Lemma quiet_set_mode_pure1e sc f p : quiet (set_mode_pure1e sc f p).
Proof. unfold set_mode_pure1e, CAP_AMBIENT_SUPPORTED, cap_set_secbits_sc, cap_set_no_new_privs. quiet. Qed.
#[local] Hint Resolve quiet_set_mode_pure1e : quiet.
Lemma quiet_cap_set_mode_sc sc f : quiet (cap_set_mode_sc sc f).
Proof. unfold cap_set_mode_sc, set_mode_switch, cap_set_secbits_sc. quiet. Qed.
Lemma quiet_check_bound_loop t cs : quiet (check_bound_loop t cs).
Proof. induction cs as [|c cs IH]; cbn [check_bound_loop]; quiet; apply IH. Qed.
Lemma quiet_iab_set_loop sc t b cs : quiet (iab_set_loop sc t b cs).
Proof. induction cs as [|c cs IH]; cbn [iab_set_loop]; quiet; apply IH. Qed.
#[local] Hint Resolve quiet_check_bound_loop quiet_iab_set_loop : quiet.
Lemma quiet_cap_iab_set_proc_sc sc p : quiet (cap_iab_set_proc_sc sc p).
Proof. unfold cap_iab_set_proc_sc, cap_set_proc. quiet. Qed.
Lemma quiet_cap_chroot_sc sc root : quiet (cap_chroot_sc sc root).
Proof.
  assert (quiet (chdir "/")) as Hc by (apply (quiet_libc_kst (fun k => sys_chdir k "/")); intros k; apply msg_chdir).
  unfold cap_chroot_sc. quiet.
Qed.
#[local] Hint Resolve quiet_cap_setuid_sc quiet_cap_setgroups_sc quiet_cap_set_mode_sc quiet_cap_iab_set_proc_sc quiet_cap_chroot_sc : quiet.

End steps.
#[export] Hint Resolve quiet_load_launch quiet_load_str quiet_cap_setuid_sc quiet_cap_setgroups_sc quiet_cap_set_mode_sc
  quiet_cap_iab_set_proc_sc quiet_cap_chroot_sc : quiet.

Section launch_thms.
Context {K : Type} `{!Kernel K, !Process K, !ProcessLaws K}.
Implicit Types (w : world K) (p fd attr detail : Z) (l : cap_launch_s).

(** ** The child *)

(** A step that is asked for has run, and has returned zero. *)
Definition ran (asked : bool) (m : M K Z) w w' : Prop := if asked then m w = (Ok 0, w') else w' = w.

(** The callback. *)
Definition set_up l detail w w' : Prop :=
  ran (negb (l_custom_setup_fn l =? 0)) (call_setup (l_custom_setup_fn l) detail) w w'.

(** All the changes of privilege the launcher asks for, in their order. *)
Definition privileged l w w' : Prop := exists w1 w2 w3 w4,
  ran (l_change_uids l) (cap_setuid_sc singlethread (l_uid l)) w w1 /\
  ran (l_change_gids l) (cap_setgroups_sc singlethread (l_gid l) (l_ngroups l) (l_groups l)) w1 w2 /\
  ran (l_change_mode l) (cap_set_mode_sc singlethread (l_mode l)) w2 w3 /\
  ran (negb (l_iab l =? 0)) (cap_iab_set_proc_sc singlethread (l_iab l)) w3 w4 /\
  ran (negb (l_chroot l =? 0)) (root ← load_str (l_chroot l); cap_chroot_sc singlethread root) w4 w'.

(** One step, then the rest. *)
Lemma ran_bind (b : bool) (m : M K Z) (rest : M K bool) w w' :
  (r ← (if b then m else mret 0); if negb (r =? 0) then mret true else rest) w = (Ok false, w') <->
  exists w1, ran b m w w1 /\ rest w1 = (Ok false, w').
Proof.
  split.
  - intros H. apply bind_inv in H as (r & w1 & H1 & H2). exists w1. destruct (Z.eqb_spec r 0) as [->|]; [|done]. split; [|done].
    unfold ran. destruct b; [done|]. by injection H1 as <-.
  - intros (w1 & H1 & H2). unfold ran in H1. destruct b.
    + by rewrite (bind_ok _ _ _ _ _ H1).
    + subst. by rewrite (bind_ok _ _ _ _ _ (ret_run _ _)).
Qed.

Lemma launch_steps_spec l w w' : launch_steps l w = (Ok false, w') <-> privileged l w w'.
Proof.
  unfold launch_steps, privileged.
  assert (forall w0, (r ← (if negb (l_chroot l =? 0) then root ← load_str (l_chroot l); cap_chroot_sc singlethread root else mret 0);
    mret (negb (r =? 0))) w0 = (Ok false, w') <-> ran (negb (l_chroot l =? 0)) (root ← load_str (l_chroot l); cap_chroot_sc singlethread root) w0 w') as Hlast.
  { intros w0. split.
    - intros H. apply bind_inv in H as (r & w1 & H1 & H2). injection H2 as E ->. apply negb_false_iff, Z.eqb_eq in E as ->.
      unfold ran. destruct (negb _); [done|]. by injection H1 as <-.
    - intros H. unfold ran in H. destruct (negb _); [by rewrite (bind_ok _ _ _ _ _ H)|subst; done]. }
  setoid_rewrite ran_bind. setoid_rewrite ran_bind. setoid_rewrite ran_bind. setoid_rewrite ran_bind. setoid_rewrite Hlast.
  split.
  - intros (w1 & H1 & w2 & H2 & w3 & H3 & w4 & H4 & H5). by exists w1, w2, w3, w4.
  - intros (w1 & w2 & w3 & w4 & H1 & H2 & H3 & H4 & H5). exists w1. split; [done|]. exists w2. split; [done|].
    exists w3. split; [done|]. exists w4. done.
Qed.

Lemma quiet_launch_steps l : quiet (launch_steps l).
Proof. unfold launch_steps. quiet. Qed.

(** The label defer: errno is on its way to the parent. *)
Lemma launch_defer_run {A} fd w :
  exists w', (launch_defer fd : M K A) w = (Halt (Exited 1), w') /\ msg (kst w') = Some (errno w).
Proof.
  unfold launch_defer, get_errno. rewrite (bind_ok _ _ _ _ _ (gets_run _ _)).
  destruct (sys_write (kst w) fd (errno w)) as [r k] eqn:E. pose proof (msg_write (kst w) fd (errno w)) as [Hr Hm].
  rewrite E in Hr, Hm. cbn in Hr, Hm.
  assert (write_errno retry_fuel fd (errno w) w = (Ok tt, with_kst k w)) as Hw.
  { unfold retry_fuel. cbn [write_errno]. rewrite (bind_ok _ _ w r (with_kst k w)) by (rewrite E; apply libc_ret_ok; lia).
    unfold get_errno. rewrite (bind_ok _ _ _ _ _ (gets_run _ _)). by destruct (Z.ltb_spec r 0); [lia|]. }
  rewrite (bind_ok _ _ _ _ _ Hw). unfold close. rewrite (bind_ok _ _ _ _ _ (modify_run _ _)).
  eexists. split; [reflexivity|]. cbn. by rewrite msg_close.
Qed.

(** How a child of cap_launch() can end. *)
Definition child_ended l detail w (e : ending) w' : Prop :=
  match e with
  | Execed path argv envp => l_arg0 l = Some path /\ argv = l_argv l /\ envp = l_envp l /\ msg (kst w') = msg (kst w) /\
      exists w1 w2, set_up l detail w w1 /\ privileged l w1 w2 /\ 0 <= (sys_execve (kst w2) path argv envp).1
  | Exited status => (status = 0 /\ l_arg0 l = None /\ set_up l detail w w' /\ msg (kst w') = msg (kst w)) \/
      (status = 1 /\ exists error, msg (kst w') = Some error)
  end.

(** The child runs the program only when the callback and every change of
    privilege that the launcher asks for have returned zero, one after the other
    in the code's order; a launcher without a program ends with status 0 once
    its callback has; whatever else happens, the child exits with status 1 and
    has sent its errno. *)
Lemma cap_launch_child_ends {A} fd attr detail l w :
  heap w !! attr = Some (OLaunch l) ->
  match (cap_launch_child fd attr detail : M K A) w with
  | (Ok _, _) => False
  | (Halt e, w') => child_ended l detail w e w'
  | _ => True
  end.
Proof.
  intros Hl. unfold cap_launch_child. rewrite (bind_ok _ _ _ _ _ (load_launch_run _ _ _ Hl)).
  assert (forall w0, match (launch_defer fd : M K A) w0 with (Ok _, _) => False | (Halt e, w') => child_ended l detail w e w' | _ => True end) as Hdefer.
  { intros w0. destruct (@launch_defer_run A fd w0) as (w' & -> & Hm). right. eauto. }
  assert (exists r w1, (if negb (l_custom_setup_fn l =? 0) then call_setup (l_custom_setup_fn l) detail else mret 0) w = (Ok r, w1) /\
    msg (kst w1) = msg (kst w) /\ (r = 0 -> set_up l detail w w1)) as (r & w1 & H1 & Hm1 & Hset).
  { unfold set_up, ran. destruct (negb _); [|by exists 0, w]. unfold call_setup.
    pose proof (msg_setup (l_custom_setup_fn l) detail (kst w)) as Hm.
    destruct (user_setup (l_custom_setup_fn l) detail (kst w)) as [[r e] k]. exists r. eexists. split; [reflexivity|]. split; [done|]. by intros ->. }
  rewrite (bind_ok _ _ _ _ _ H1). destruct (Z.eqb_spec r 0) as [->|]; [|apply Hdefer]. specialize (Hset eq_refl). cbn [negb].
  destruct (l_arg0 l) as [arg0|] eqn:Earg.
  - pose proof (quiet_launch_steps l w1) as Hq. destruct (launch_steps l w1) as [[failed|e| |] w2] eqn:Hsteps;
      [|done|by rewrite (bind_spin _ _ _ _ Hsteps)|by rewrite (bind_fault _ _ _ _ Hsteps)].
    rewrite (bind_ok _ _ _ _ _ Hsteps). destruct failed; [apply Hdefer|].
    apply launch_steps_spec in Hsteps. pose proof (msg_exec (kst w2) arg0 (l_argv l) (l_envp l)) as Hme.
    unfold execve at 1. unfold mbind, M_bind. destruct (sys_execve (kst w2) arg0 (l_argv l) (l_envp l)) as [x k] eqn:Ex. cbn in Hme.
    destruct (Z.ltb_spec x 0); [apply Hdefer|]. cbn. split; [done|]. split; [done|]. split; [done|]. split; [congruence|].
    exists w1, w2. rewrite Ex. done.
  - left. done.
Qed.

(** ** The parent *)

Lemma read_result_run fd child my_errno w :
  exists w', heap w' = heap w /\
    read_result retry_fuel fd child my_errno w = (Ok (match msg (kst w) with None => (child, my_errno) | Some _ => (-1, ECHILD) end), w').
Proof.
  unfold retry_fuel. cbn [read_result]. pose proof (msg_read (kst w) fd) as Hm.
  destruct (sys_read (kst w) fd) as [[n v] k] eqn:E. cbn in Hm.
  assert (0 <= n) as Hn by (destruct (msg (kst w)); lia).
  rewrite (bind_ok _ _ w (n, v) (with_kst k w)) by (rewrite E, (bind_ok _ _ _ _ _ (libc_ret_ok n (with_kst k w) Hn)); done).
  unfold get_errno. rewrite (bind_ok _ _ _ _ _ (gets_run _ _)). destruct (msg (kst w)) as [e|].
  - destruct (Z.eqb_spec n 0); [lia|]. destruct (Z.ltb_spec n 0); [lia|]. cbn [andb].
    rewrite (bind_ok _ _ _ _ _ (modify_run _ _)). eexists. split; [|reflexivity]. done.
  - subst n. eexists. split; [|reflexivity]. done.
Qed.

(** The result of fork(), when there is a child. *)
Lemma fork_run (child : M K Empty_set) w r kp kc :
  sys_fork (kst w) = (r, kp, kc) ->
  fork child w = (if r <? 0 then (Ok (-1, None), with_errno (- r) (with_kst kp w))
    else match child (with_kst kc w) with
         | (Halt e, wc) => (Ok (r, Some e), with_kst (child_gone kp (kst wc)) w)
         | (Ok a, _) => match a with end
         | (Spin, _) => (Spin, w) | (Fault, _) => (Fault, w) end).
Proof. intros E. unfold fork. by rewrite E. Qed.

Lemma close_run fd w : close fd w = (Ok tt, with_kst (sys_close_fd (kst w) fd) w).
Proof. done. Qed.

(** What the parent does once fork() has returned. *)
Definition launch_finish (attr ps0 ps1 child : Z) (ended : option ending) : M K (Z * option ending) :=
  my_errno ← get_errno;
  mu_unlock attr;;
  close ps1;;
  '(child, my_errno) ← (if child <? 0 then mret (child, my_errno) else read_result retry_fuel ps0 child my_errno);
  close ps0;;
  set_errno my_errno;;
  mret (child, ended).

Lemma launch_finish_run attr ps0 ps1 child ended l w :
  heap w !! attr = Some (OLaunch (launch_with_mutex true l)) -> l_mutex l = false ->
  exists w', heap w' = <[attr := OLaunch l]> (heap w) /\
    ((child <? 0) = false -> msg (kst w) <> None -> errno w' = ECHILD) /\
    launch_finish attr ps0 ps1 child ended w =
      (Ok ((if child <? 0 then child else match msg (kst w) with None => child | Some _ => -1 end), ended), w').
Proof.
  intros Hl Hmu. unfold launch_finish, get_errno. rewrite (bind_ok _ _ _ _ _ (gets_run _ _)).
  rewrite (bind_ok _ _ _ _ _ (mu_unlock_run attr _ _ w Hl eq_refl)). cbn [obj_with_mutex].
  rewrite launch_with_mutex_twice, launch_with_mutex_id by done.
  rewrite (bind_ok _ _ _ _ _ (close_run _ _)). set (w2 := with_kst _ _).
  assert (msg (kst w2) = msg (kst w)) as Hm by apply msg_close.
  destruct (child <? 0) eqn:Hc.
  - rewrite (bind_ok _ _ _ _ _ (ret_run _ _)). rewrite (bind_ok _ _ _ _ _ (close_run _ _)).
    eexists. split; [|split; [|reflexivity]]; done.
  - destruct (read_result_run ps0 child (errno w) w2) as (w3 & E3 & H3). rewrite Hm in H3.
    destruct (msg (kst w)) as [e|]; rewrite (bind_ok _ _ _ _ _ H3); rewrite (bind_ok _ _ _ _ _ (close_run _ _)).
    + eexists. split; [|split; [|reflexivity]]; [|done]. cbn. by rewrite E3.
    + eexists. split; [|split; [|reflexivity]]; [|done]. cbn. by rewrite E3.
Qed.

(** A launcher with neither a callback nor a program. *)
Definition purposeless l : bool :=
  (l_custom_setup_fn l =? 0) && (bool_decide (l_arg0 l = None) || bool_decide (l_argv l = None)).

(** cap_launch() with its pipe: the child, and the parent. *)
Definition launch_piped (attr detail ps0 ps1 : Z) : M K (Z * option ending) :=
  '(child, ended) ← fork
    (close ps0;;
     modify (fun w => with_kst (sys_set_name (kst w) "cap-launcher") w);;
     cap_launch_child ps1 attr detail);
  launch_finish attr ps0 ps1 child ended.

(** A child that exits with 1 is the only one that is reported as a failure. *)
Definition reported (r : Z) (e : ending) (w' : world K) : Prop :=
  match e with Exited 1 => r = -1 /\ errno w' = ECHILD | _ => 0 <= r end.

Lemma launch_piped_run attr detail ps0 ps1 l w :
  heap w !! attr = Some (OLaunch (launch_with_mutex true l)) -> l_mutex l = false -> msg (kst w) = None ->
  match launch_piped attr detail ps0 ps1 w with
  | (Ok (r, None), w') => r = -1 /\ heap w' = <[attr := OLaunch l]> (heap w)
  | (Ok (r, Some e), w') => heap w' = <[attr := OLaunch l]> (heap w) /\
      exists k wc', child_ended (launch_with_mutex true l) detail (with_kst k w) e wc' /\ reported r e w'
  | (Halt _, _) => False
  | _ => True
  end.
Proof.
  intros Hl Hmu Hmsg. unfold launch_piped, mbind at 1. unfold M_bind at 1.
  destruct (sys_fork (kst w)) as [[child kp] kc] eqn:Efork. pose proof (msg_fork _ _ _ _ Efork) as Hmc. rewrite Hmsg in Hmc.
  rewrite (fork_run _ _ _ _ _ Efork). set (wc := with_kst (sys_set_name (sys_close_fd kc ps0) "cap-launcher") w).
  assert (msg (kst wc) = None) as Hmwc by (unfold wc; cbn; by rewrite msg_name, msg_close, Hmc).
  change ((close ps0;; _;; _) _) with ((cap_launch_child ps1 attr detail : M K Empty_set) wc).
  pose proof (@cap_launch_child_ends Empty_set ps1 attr detail _ wc Hl) as Hchild.
  destruct (child <? 0) eqn:Hneg.
  { set (w2 := with_errno _ _). destruct (launch_finish_run attr ps0 ps1 (-1) None l w2 Hl Hmu) as (w3 & E3 & _ & ->). done. }
  destruct (cap_launch_child ps1 attr detail wc) as [[[]|e| |] w2]; [|done|done].
  set (w3 := with_kst _ _). destruct (launch_finish_run attr ps0 ps1 child (Some e) l w3 Hl Hmu) as (w4 & E4 & He & ->).
  rewrite Hneg. split; [exact E4|]. eexists _, w2. split; [apply Hchild|].
  assert (msg (kst w3) = msg (kst w2)) as Hm3 by apply msg_gone. rewrite Hm3 in *. apply Z.ltb_ge in Hneg as Hpos.
  destruct e as [status|path argv envp]; cbn in Hchild |- *.
  - destruct Hchild as [(-> & _ & _ & Hm)|(-> & x & Hm)]; [by rewrite (eq_trans Hm Hmwc)|]. rewrite Hm in *. split; [done|]. by apply He.
  - destruct Hchild as (_ & _ & _ & Hm & _). by rewrite (eq_trans Hm Hmwc).
Qed.

(** cap_launch() by what it is asked for. *)
Lemma cap_launch_parts attr detail l w :
  attr <> 0 -> heap w !! attr = Some (OLaunch l) -> l_mutex l = false ->
  let w1 := with_heap (<[attr := OLaunch (launch_with_mutex true l)]> (heap w)) w in
  cap_launch attr detail w = (if purposeless l then set_errno EINVAL;; mu_unlock_return attr (-1, None) else
    '(r, (ps0, ps1)) ← (fun w => let '(r, ps, k) := sys_pipe2 (kst w) in (r ← libc_ret r; mret (r, ps)) (with_kst k w));
    if negb (r =? 0) then mu_unlock_return attr (-1, None) else launch_piped attr detail ps0 ps1) w1.
Proof.
  intros Hattr Hl Hmu w1. unfold cap_launch. run. rewrite (magic_at_some _ _ _ Hattr Hl). change (obj_magic (OLaunch l) =? CAP_LAUNCH_MAGIC) with true.
  cbn [negb]. rewrite (bind_ok _ _ _ _ _ (mu_lock_run _ _ _ Hl ltac:(cbn; by rewrite Hmu))). cbn [obj_with_mutex].
  assert (heap w1 !! attr = Some (OLaunch (launch_with_mutex true l))) as Hl1 by apply lookup_insert_eq.
  by rewrite (bind_ok _ _ _ _ _ (load_launch_run _ _ _ Hl1)).
Qed.

(** C17 cap_launch() of a launcher that nobody has locked leaves the caller's
    memory as it was, the launcher unlocked, and reports the truth: it returns a
    child's number exactly when that child has come as far as the program - or,
    in a launcher without one, through its callback - and then every change of
    privilege the launcher asks for has succeeded in the child, in the order
    uid, groups, mode, IAB tuple, root; when anything failed in the child it
    returns -1 with errno ECHILD. Without a purpose it is refused with EINVAL. *)
Theorem cap_launch_correct attr detail l w
  (Hattr : attr <> 0) (Hl : heap w !! attr = Some (OLaunch l)) (Hmu : l_mutex l = false) :
  match cap_launch attr detail w with
  | (Ok (r, None), w') => r = -1 /\ heap w' = heap w /\ (purposeless l = true -> errno w' = EINVAL)
  | (Ok (r, Some e), w') => purposeless l = false /\ heap w' = heap w /\
      exists k wc', child_ended (launch_with_mutex true l) detail
          (with_kst k (with_heap (<[attr := OLaunch (launch_with_mutex true l)]> (heap w)) w)) e wc' /\
        reported r e w'
  | (Halt _, _) => False
  | _ => True
  end.
Proof.
  rewrite (cap_launch_parts _ _ _ _ Hattr Hl Hmu). set (w1 := with_heap _ w).
  assert (heap w1 !! attr = Some (OLaunch (launch_with_mutex true l))) as Hl1 by apply lookup_insert_eq.
  assert (<[attr := OLaunch l]> (heap w1) = heap w) as Hback by (cbn; by rewrite insert_insert_eq, insert_id).
  assert (forall w2, heap w2 = heap w1 -> exists w3, mu_unlock attr w2 = (Ok tt, w3) /\ heap w3 = heap w /\ errno w3 = errno w2) as Hun.
  { intros w2 E. eexists. split; [eapply mu_unlock_run; [by rewrite E, Hl1|done]|]. split; [|done].
    cbn [heap with_heap obj_with_mutex]. by rewrite E, launch_with_mutex_twice, launch_with_mutex_id. }
  destruct (purposeless l) eqn:Hp.
  { rewrite (bind_ok _ _ _ _ _ (set_errno_run _ _)). unfold mu_unlock_return.
    destruct (Hun (with_errno EINVAL w1) eq_refl) as (w3 & H3 & E3 & Ee). by rewrite (bind_ok _ _ _ _ _ H3). }
  destruct (sys_pipe2 (kst w1)) as [[r [ps0 ps1]] k2] eqn:Epipe. destruct (Z.lt_ge_cases r 0) as [Hr|Hr].
  { rewrite (bind_ok _ _ w1 (-1, (ps0, ps1)) (with_errno (- r) (with_kst k2 w1))).
    2:{ rewrite Epipe. unfold libc_ret, mbind, M_bind. by destruct (Z.ltb_spec r 0); [|lia]. }
    destruct (Hun (with_errno (- r) (with_kst k2 w1)) eq_refl) as (w3 & H3 & E3 & _).
    change (negb (-1 =? 0)) with true. cbv beta iota. unfold mu_unlock_return. by rewrite (bind_ok _ _ _ _ _ H3). }
  destruct (msg_pipe _ _ _ _ Epipe Hr) as [-> Hmsg].
  rewrite (bind_ok _ _ w1 (0, (ps0, ps1)) (with_kst k2 w1)) by (by rewrite Epipe, (bind_ok _ _ _ _ _ (libc_ret_ok 0 _ Hr))).
  change (negb (0 =? 0)) with false. cbv beta iota.
  pose proof (launch_piped_run attr detail ps0 ps1 l (with_kst k2 w1) Hl1 Hmu Hmsg) as H.
  change (heap (with_kst k2 w1)) with (heap w1) in H. rewrite Hback in H.
  destruct (launch_piped _ _ _ _ _) as [[[r [e|]]|e| |] w']; try done.
  by destruct H.
Qed.

End launch_thms.
