(* ===== verification/ApiSpec.v ===== *)
(** What holds of every call of libcap's programming interface, whatever its
    arguments, the memory that is left and the kernel do: the objects in memory
    stay well formed and keep their types, no address is used twice, and the only
    byte lock that outlives a call is that of a tuple handed to a launcher. *)

From Stdlib Require Import ZArith Lia String Ascii.
From stdpp Require Import gmap list sets.
From S2P Require Import Prelude Capability World Exec Syscall Alloc Flag FlagSpec IabSpec ExtInt File FileSpec Proc ProcSpec Text TextLex.
From S2P Require Import TextSpec TextParse TextPrint TextToText TextRound IabProcSpec IabText ModeSpec Launch.

Open Scope Z_scope.

(** ** Steps *)

Definition locked (h : gmap Z obj) p : Prop := exists o, h !! p = Some o /\ obj_mutex o = Some true.

(** From [w] to [w'], the locks [A] may have been taken, and the locks [D] were
    released. *)
Record keeps {K} (A D : list Z) (w w' : world K) : Prop := {
  keeps_wf : world_wf w';
  keeps_next : next w <= next w';
  keeps_kind : forall p o', heap w' !! p = Some o' ->
    next w <= p \/ exists o, heap w !! p = Some o /\ obj_magic o = obj_magic o';
  keeps_lock : forall p, locked (heap w') p -> p ∈ A \/ (locked (heap w) p /\ p ∉ D)
}.

(** A run of [m] that returns does so, and its result satisfies [Q]. *)
Definition does {K A} (T D : list Z) (m : M K A) (Q : A -> Prop) : Prop :=
  forall w a w', world_wf w -> m w = (Ok a, w') -> keeps T D w w' /\ Q a.
Abbreviation tame m := (does [] [] m (fun _ => True)).

Section does.
Context {K : Type}.
Implicit Types (w : world K) (p : Z).

Lemma keeps_refl w : world_wf w -> keeps [] [] w w.
Proof.
  intros Hw. split; [done|lia| |].
  - intros p o Ho. right. by exists o.
  - intros p Hp. right. split; [done|apply not_elem_of_nil].
Qed.

Lemma keeps_trans T T1 T2 D D1 D2 w w1 w2 : keeps T1 D1 w w1 -> keeps T2 D2 w1 w2 ->
  (forall q, q ∈ T1 -> q ∈ D2 \/ q ∈ T) -> (forall q, q ∈ T2 -> q ∈ T) -> (forall q, q ∈ D -> q ∈ D1 \/ q ∈ D2) -> keeps T D w w2.
Proof.
  intros [Hw1 Hn1 Hk1 Hl1] [Hw2 Hn2 Hk2 Hl2] HT1 HT2 HD. split; [done|lia| |].
  - intros p o2 Ho2. destruct (Hk2 _ _ Ho2) as [Hp|(o1 & Ho1 & E1)]; [left; lia|].
    destruct (Hk1 _ _ Ho1) as [Hp|(o & Ho & E)]; [by left|]. right. exists o. split; [done|congruence].
  - intros p Hp. destruct (Hl2 _ Hp) as [HpT|[Hp1 Hno2]]; [left; by apply HT2|].
    destruct (Hl1 _ Hp1) as [HpT|[Hp0 Hno1]]; [apply HT1 in HpT; tauto|].
    right. split; [done|]. intros HpD. by destruct (HD _ HpD).
Qed.

Lemma does_bind {A B} T T1 T2 D D1 D2 (m : M K A) (f : A -> M K B) Q R :
  does T1 D1 m Q -> (forall a, Q a -> does T2 D2 (f a) R) ->
  (forall q, q ∈ T1 -> q ∈ D2 \/ q ∈ T) -> (forall q, q ∈ T2 -> q ∈ T) -> (forall q, q ∈ D -> q ∈ D1 \/ q ∈ D2) -> does T D (m ≫= f) R.
Proof.
  intros Hm Hf HT1 HT2 HD w b w' Hw H. apply bind_inv in H as (a & w1 & H1 & H2). destruct (Hm _ _ _ Hw H1) as [Hk1 Ha].
  destruct (Hf a Ha _ _ _ (keeps_wf _ _ _ _ Hk1) H2) as [Hk2 Hb]. split; [|done]. by eapply keeps_trans.
Qed.

Lemma does_weaken {A} T D (m : M K A) (Q R : A -> Prop) : does T D m Q -> (forall a, Q a -> R a) -> does T D m R.
Proof. intros Hm HQ w a w' Hw H. destruct (Hm _ _ _ Hw H) as [Hk Ha]. split; [done|by apply HQ]. Qed.

Lemma does_less {A} T T' D D' (m : M K A) Q : does T D m Q -> (forall q, q ∈ T -> q ∈ T') -> (forall q, q ∈ D' -> q ∈ D) -> does T' D' m Q.
Proof.
  intros Hm HT HD w a w' Hw H. destruct (Hm _ _ _ Hw H) as [[Hw' Hn Hk Hl] Ha]. split; [|done]. split; [done..|].
  intros p Hp. destruct (Hl p Hp) as [?|[? Hno]]; [left; by apply HT|right]. split; [done|]. intros Hin. by apply Hno, HD.
Qed.

(** The rules for a step that takes no lock, one that takes [p]'s and one that releases it. *)
Lemma does_seq {A B} D (m : M K A) (f : A -> M K B) Q R :
  does [] [] m Q -> (forall a, Q a -> does [] D (f a) R) -> does [] D (m ≫= f) R.
Proof. intros Hm Hf. eapply does_bind; [exact Hm|exact Hf|..]; set_solver. Qed.
Lemma does_take {A B} p D (m : M K A) (f : A -> M K B) Q R :
  does [p] [] m Q -> (forall a, Q a -> does [] (p :: D) (f a) R) -> does [] D (m ≫= f) R.
Proof. intros Hm Hf. eapply does_bind; [exact Hm|exact Hf|..]; set_solver. Qed.
Lemma does_release {A B} p D D' (m : M K A) (f : A -> M K B) Q R :
  does [] [p] m Q -> (forall q, q ∈ D -> q = p \/ q ∈ D') -> (forall a, Q a -> does [] D' (f a) R) -> does [] D (m ≫= f) R.
Proof. intros Hm HD Hf. eapply does_bind; [exact Hm|exact Hf|..]; set_solver. Qed.

(** *** Operations on the world *)

Lemma does_ret {A} (a : A) (Q : A -> Prop) : Q a -> does [] [] (mret a : M K A) Q.
Proof. intros HQ w b w' Hw [= <- <-]. split; [by apply keeps_refl|done]. Qed.
Lemma does_stop {A} (m : M K A) D Q : (forall w a w', m w <> (Ok a, w')) -> does [] D m Q.
Proof. intros H w a w' _ E. by apply H in E. Qed.
Lemma does_fault {A} D Q : does [] D (fault : M K A) Q.
Proof. by apply does_stop. Qed.
Lemma does_spin {A} D Q : does [] D (spin : M K A) Q.
Proof. by apply does_stop. Qed.

(** A step that leaves the memory alone. *)
Lemma keeps_same w w' : world_wf w -> heap w' = heap w -> next w' = next w -> keeps [] [] w w'.
Proof.
  intros Hw Hh Hn. destruct (keeps_refl w Hw) as [_ Hn0 Hk Hl]. split; rewrite ?Hh, ?Hn; try done.
  destruct Hw. by split; rewrite ?Hh, ?Hn.
Qed.
Lemma does_same {A} (m : M K A) : (forall w, heap (m w).2 = heap w /\ next (m w).2 = next w) -> tame m.
Proof. intros H w a w' Hw E. specialize (H w). rewrite E in H. destruct H. split; [|done]. by apply keeps_same. Qed.

Lemma does_gets {A} (f : world K -> A) : tame (gets f).
Proof. by apply does_same. Qed.
Lemma does_set_errno e : tame (@set_errno K e).
Proof. by apply does_same. Qed.
Lemma does_put_glob f : tame (@put_glob K f).
Proof. by apply does_same. Qed.
Lemma does_assert b : tame (@assert_ub K b).
Proof. destruct b; [by apply does_ret|apply does_fault]. Qed.
Lemma does_libc_ret r : tame (@libc_ret K r).
Proof. apply does_same. intros w. unfold libc_ret. by destruct (r <? 0). Qed.
Lemma does_libc_alloc : tame (@libc_alloc K).
Proof. by apply does_same. Qed.

Lemma does_load p : does [] [] (load p : M K obj) obj_wf.
Proof.
  intros w o w' Hw H. unfold load in H. destruct (heap w !! p) as [o'|] eqn:E; [|done]. injection H as -> ->.
  split; [by apply keeps_refl|]. by apply (wf_heap _ Hw) in E as (_ & _ & ?).
Qed.
Lemma does_load_cap p : does [] [] (load_cap p : M K cap_struct) cap_wf.
Proof. eapply does_seq; [apply does_load|]. intros [] Ho; try apply does_fault. by apply does_ret. Qed.
Lemma does_load_iab p : does [] [] (load_iab p : M K cap_iab_s) iab_wf.
Proof. eapply does_seq; [apply does_load|]. intros [] Ho; try apply does_fault. by apply does_ret. Qed.
Lemma does_load_launch p : tame (load_launch p : M K cap_launch_s).
Proof. eapply does_seq; [apply does_load|]. intros [] Ho; try apply does_fault. by apply does_ret. Qed.
Lemma does_load_str p : tame (load_str p : M K string).
Proof. eapply does_seq; [apply does_load|]. intros [] Ho; try apply does_fault. by apply does_ret. Qed.

(** The object at [p] is replaced by one of its type. *)
Lemma keeps_insert T D p o o' w : world_wf w -> heap w !! p = Some o -> obj_wf o' -> obj_magic o' = obj_magic o ->
  (obj_mutex o' = Some true -> p ∈ T \/ (obj_mutex o = Some true /\ p ∉ D)) -> (forall q, q ∈ D -> q = p) ->
  keeps T D w (with_heap (<[p := o']> (heap w)) w).
Proof.
  intros Hw Hp Ho' Hm Hl HD. split; [by eapply world_wf_insert|cbn; lia| |].
  - intros q oq Hq. right. cbn in Hq. apply lookup_insert_Some in Hq as [[<- <-]|[Hne Hq]]; [by exists o|by exists oq].
  - intros q (oq & Hq & Hlq). cbn in Hq. apply lookup_insert_Some in Hq as [[<- <-]|[Hne Hq]].
    + destruct (Hl Hlq) as [?|[Ho Hno]]; [by left|right]. split; [by exists o|done].
    + right. split; [by exists oq|]. intros Hin. by apply HD in Hin.
Qed.

Lemma load_inv p w o w' : load p w = (Ok o, w') -> heap w !! p = Some o /\ w' = w.
Proof. unfold load. destruct (heap w !! p) as [o'|]; [|done]. by intros [= <- <-]. Qed.
Lemma store_inv p o w u w' : store p o w = (Ok u, w') -> w' = with_heap (<[p := o]> (heap w)) w.
Proof. unfold store. destruct (heap w !! p) as [o'|]; [|done]. by intros [= <- <-]. Qed.

Lemma does_mu_lock p : does [p] [] (mu_lock p : M K unit) (fun _ => True).
Proof.
  intros w a w' Hw H. split; [|done]. apply bind_inv in H as (b & w1 & H1 & H2). destruct b; [done|]. injection H2 as <- <-.
  apply bind_inv in H1 as (o & w2 & [Hp ->]%load_inv & H2). destruct (obj_mutex o) as [m|] eqn:Em; [|done].
  apply bind_inv in H2 as (u & w2 & ->%store_inv & H2). injection H2 as -> <-.
  pose proof (wf_heap _ Hw _ _ Hp) as (_ & _ & Ho). apply keeps_insert with (o := o); try done.
  - by destruct o.
  - by destruct o.
  - intros _. left. by apply list_elem_of_singleton.
  - by intros q []%not_elem_of_nil.
Qed.

Lemma does_mu_unlock p : does [] [p] (mu_unlock p : M K unit) (fun _ => True).
Proof.
  intros w a w' Hw H. split; [|done]. apply bind_inv in H as (o & w1 & [Hp ->]%load_inv & H2).
  destruct (obj_mutex o) as [m|] eqn:Em; [|done]. apply store_inv in H2 as ->.
  pose proof (wf_heap _ Hw _ _ Hp) as (_ & _ & Ho). apply keeps_insert with (o := o); try done.
  - by destruct o.
  - by destruct o.
  - by destruct o.
  - intros q Hq. by apply list_elem_of_singleton in Hq.
Qed.

(** An assignment to an object keeps its lock as it is, or may take it. *)
Lemma does_modify_cap T p f : (forall c, cap_wf c -> cap_wf (f c)) -> (p ∈ T \/ forall c, c_mutex (f c) = c_mutex c) ->
  does T [] (modify_cap p f : M K unit) (fun _ => True).
Proof.
  intros Hf HT w a w' Hw H. split; [|done]. apply bind_inv in H as (c & w1 & (o & w2 & [Hp ->]%load_inv & H3)%bind_inv & ->%store_inv).
  destruct o as [c'| | |]; try done. injection H3 as -> ->. pose proof (wf_heap _ Hw _ _ Hp) as (_ & _ & Ho).
  apply keeps_insert with (o := OCap c); try done; [by apply Hf| |by intros q []%not_elem_of_nil].
  cbn. intros [= Hm]. destruct HT as [?|HT]; [by left|right]. rewrite HT in Hm. split; [by rewrite Hm|apply not_elem_of_nil].
Qed.
Lemma does_modify_iab T p f : (forall t, iab_wf t -> iab_wf (f t)) -> (p ∈ T \/ forall t, iab_mutex (f t) = iab_mutex t) ->
  does T [] (modify_iab p f : M K unit) (fun _ => True).
Proof.
  intros Hf HT w a w' Hw H. split; [|done]. apply bind_inv in H as (c & w1 & (o & w2 & [Hp ->]%load_inv & H3)%bind_inv & ->%store_inv).
  destruct o as [|c'| |]; try done. injection H3 as -> ->. pose proof (wf_heap _ Hw _ _ Hp) as (_ & _ & Ho).
  apply keeps_insert with (o := OIab c); try done; [by apply Hf| |by intros q []%not_elem_of_nil].
  cbn. intros [= Hm]. destruct HT as [?|HT]; [by left|right]. rewrite HT in Hm. split; [by rewrite Hm|apply not_elem_of_nil].
Qed.
Lemma does_modify_launch p f : (forall l, l_mutex (f l) = l_mutex l) -> tame (modify_launch p f : M K unit).
Proof.
  intros HT w a w' Hw H. split; [|done]. apply bind_inv in H as (c & w1 & (o & w2 & [Hp ->]%load_inv & H3)%bind_inv & ->%store_inv).
  destruct o as [| |c'|]; try done. injection H3 as -> ->.
  apply keeps_insert with (o := OLaunch c); try done; [|by intros q []%not_elem_of_nil].
  cbn. intros [= Hm]. right. rewrite HT in Hm. split; [by rewrite Hm|apply not_elem_of_nil].
Qed.

Lemma does_alloc o : obj_wf o -> obj_mutex o <> Some true -> tame (alloc o : M K Z).
Proof.
  intros Ho Hm. eapply does_seq; [apply does_libc_alloc|]. intros [] _.
  - intros w p w' Hw [= <- <-]. split; [|done]. pose proof (wf_next _ Hw) as Hn. split; cbn.
    + destruct (world_wf_placed o w Hw Ho). by split.
    + lia.
    + intros q oq Hq. apply lookup_insert_Some in Hq as [[<- <-]|[_ Hq]]; [left; lia|right; by exists oq].
    + intros q (oq & Hq & Hl). right. apply lookup_insert_Some in Hq as [[<- <-]|[_ Hq]]; [done|]. split; [by exists oq|apply not_elem_of_nil].
  - eapply does_seq; [apply does_set_errno|]. intros _ _. by apply does_ret.
Qed.

Lemma does_dealloc p : does [] [p] (dealloc p : M K unit) (fun _ => True).
Proof.
  intros w a w' Hw [= <- <-]. split; [|done]. split; cbn; [by apply world_wf_delete|lia| |].
  - intros q o Hq. apply lookup_delete_Some in Hq as [_ Hq]. right. by exists o.
  - intros q (o & Hq & Hl). apply lookup_delete_Some in Hq as [Hne Hq]. right. split; [by exists o|]. by rewrite list_elem_of_singleton.
Qed.

(** A tuple that was loaded, and is put back changed before anything else happens. *)
Definition at_iab {A} p (t : cap_iab_s) (m : M K A) (Q : A -> Prop) : Prop :=
  forall w a w', world_wf w -> heap w !! p = Some (OIab t) -> m w = (Ok a, w') -> keeps [] [] w w' /\ Q a.
Lemma does_with_iab {A} p (f : cap_iab_s -> M K A) Q : (forall t, iab_wf t -> at_iab p t (f t) Q) -> does [] [] (load_iab p ≫= f) Q.
Proof.
  intros Hf w a w' Hw H. apply bind_inv in H as (t & w1 & (o & w2 & [Hp ->]%load_inv & H1)%bind_inv & H2).
  destruct o as [|t'| |]; try done. injection H1 as -> <-. pose proof (wf_heap _ Hw _ _ Hp) as (_ & _ & Ht). by apply (Hf t Ht).
Qed.
Lemma at_iab_any {A} p t (m : M K A) Q : does [] [] m Q -> at_iab p t m Q.
Proof. intros Hm w a w' Hw _ H. by apply Hm. Qed.
Lemma at_iab_modify {A} p t t' (m : M K A) Q :
  iab_wf t' -> iab_mutex t' = iab_mutex t -> does [] [] m Q -> at_iab p t (modify_iab p (fun _ => t');; m) Q.
Proof.
  intros Ht' Hmx Hm w a w' Hw Hp H. rewrite (bind_ok _ _ _ _ _ (modify_iab_run _ _ _ _ Hp)) in H.
  assert (keeps [] [] w (with_heap (<[p := OIab t']> (heap w)) w)) as Hk.
  { apply keeps_insert with (o := OIab t); try done; [|by intros q []%not_elem_of_nil].
    cbn. rewrite Hmx. intros Hl. right. split; [done|apply not_elem_of_nil]. }
  destruct (Hm _ _ _ (keeps_wf _ _ _ _ Hk) H) as [Hk' HQ]. split; [|done]. eapply keeps_trans; [exact Hk|exact Hk'|..]; set_solver.
Qed.

End does.

(** ** Automation *)

Create HintDb tame.
#[export] Hint Resolve does_gets does_set_errno does_put_glob does_assert does_libc_ret does_libc_alloc does_load_cap does_load_iab
  does_load_launch does_load_str does_spin does_fault : tame.

Ltac without p D :=
  lazymatch D with
  | nil => constr:(@nil Z)
  | p :: ?D' => without p D'
  | ?q :: ?D' => let r := without p D' in constr:(q :: r)
  end.
Ltac solve_in := intros ?; rewrite ?elem_of_cons, ?elem_of_nil; tauto.

(** One rule; the goals it leaves are those of the calls without a hint, and the
    words that are assigned. *)
Ltac tame_step :=
  lazymatch goal with
  | |- does _ _ (match ?x with _ => _ end) _ => destruct x eqn:?
  | |- does _ _ (mret _) _ => apply does_ret; try exact I
  | |- does _ _ fault _ => apply does_fault
  | |- does _ _ spin _ => apply does_spin
  | |- does _ _ (mu_unlock_return _ _) _ => unfold mu_unlock_return
  | |- does [] ?D (mu_unlock ?p ≫= _) _ =>
      let D' := without p D in eapply (does_release p D D'); [apply does_mu_unlock|solve_in|intros ? _]
  | |- does [] ?D (dealloc ?p ≫= _) _ =>
      let D' := without p D in eapply (does_release p D D'); [apply does_dealloc|solve_in|intros ? _]
  | |- does [] ?D (mu_lock ?p ≫= _) _ => eapply (does_take p D); [apply does_mu_lock|intros ? _]
  | |- does [] ?D (modify_launch ?p _ ≫= _) _ => eapply does_seq; [apply does_modify_launch; by intros []|intros ? _]
  | |- does [] ?D (modify_cap ?p _ ≫= _) _ =>
      first [eapply does_seq; [apply (does_modify_cap [] p); [|right; by intros []]|intros ? _]
            |eapply (does_take p D); [apply (does_modify_cap [p] p); [|left; by apply list_elem_of_singleton]|intros ? _]]
  | |- does [] ?D (modify_iab ?p _ ≫= _) _ =>
      first [eapply does_seq; [apply (does_modify_iab [] p); [|right; by intros []]|intros ? _]
            |eapply (does_take p D); [apply (does_modify_iab [p] p); [|left; by apply list_elem_of_singleton]|intros ? _]]
  | |- does [] [] (modify_cap ?p _) _ => apply (does_modify_cap [] p); [|right; by intros []]
  | |- does [] [] (modify_iab ?p _) _ => apply (does_modify_iab [] p); [|right; by intros []]
  | |- does _ _ (_ ≫= _) _ =>
      first [eapply does_seq; [solve [eauto 2 with tame nocore]|intros ? ?]
            |apply does_seq with (Q := fun _ => True); [|intros ? _]]
  | |- does _ _ _ _ => solve [eauto 2 with tame nocore]
  end.
Ltac tame_steps := repeat (cbn beta zeta; tame_step).

(** What the interfaces of the kernel cannot but give: words of 32 bits, and bytes. *)
Class WordLaws (K : Type) `{!Kernel K} := {
  law_capget_words : forall (k : K) v pid b, (List.length (cg_data (sys_capget k v pid b)) <= 2)%nat /\
    Forall blk_wf (cg_data (sys_capget k v pid b))
}.
Class ByteLaws (K : Type) `{!FileSys K} := {
  law_getxattr_bytes : forall (k : K) f n, Forall is_byte (fs_getxattr k f n).2
}.

Section calls.
Context {K : Type} `{!Kernel K, !FileSys K, !Process K, !ProcFs K, !WordLaws K, !ByteLaws K}.
Implicit Types (w : world K) (p : Z).


Lemma libc_syscall_tame req : tame (libc_syscall (K := K) req).
Proof. apply does_same. intros w. unfold libc_syscall, libc_ret. destruct (sys_call _ _). by destruct (_ <? 0). Qed.
#[local] Hint Resolve libc_syscall_tame : tame.

Lemma sc_call_tame sc req : tame (sc_call (K := K) sc req).
Proof.
  unfold sc_call. tame_steps. apply does_same. intros w. by destruct (user_syscall _ _ _) as [[? ?] ?].
Qed.
#[local] Hint Resolve sc_call_tame : tame.

Lemma wprctl_tame sc c a1 a2 a3 a4 a5 : tame (libcap_wprctl6 (K := K) sc c a1 a2 a3 a4 a5).
Proof. unfold libcap_wprctl6, prctl, wprctl_result, overrode_syscalls. tame_steps. Qed.
Lemma wprctl3_tame sc c a1 a2 : tame (libcap_wprctl3 (K := K) sc c a1 a2).
Proof. unfold libcap_wprctl3, prctl, wprctl_result, overrode_syscalls. tame_steps. Qed.
Lemma libcap_capset_tame sc v pid d : tame (libcap_capset (K := K) sc v pid d).
Proof. unfold libcap_capset, capset, overrode_syscalls. tame_steps. Qed.
Lemma cap_set_syscall_tame f : tame (cap_set_syscall (K := K) f).
Proof. unfold cap_set_syscall, psx_load_syscalls, psx_load_syscalls_weak. tame_steps. Qed.
#[local] Hint Resolve wprctl_tame wprctl3_tame libcap_capset_tame : tame.

Lemma cap_get_bound_tame c : tame (cap_get_bound (K := K) c).
Proof. apply libc_syscall_tame. Qed.
Lemma cap_drop_bound_tame sc c : tame (cap_drop_bound_sc (K := K) sc c).
Proof. apply wprctl3_tame. Qed.
Lemma cap_get_ambient_tame c : tame (cap_get_ambient (K := K) c).
Proof. unfold cap_get_ambient, prctl. tame_steps. Qed.
Lemma cap_set_ambient_tame sc c v : tame (cap_set_ambient_sc (K := K) sc c v).
Proof. unfold cap_set_ambient_sc. tame_steps. Qed.
#[local] Hint Resolve cap_get_bound_tame cap_drop_bound_tame cap_get_ambient_tame cap_set_ambient_tame : tame.

(** *** Memory *)

Lemma cap_free_rec_tame n p : tame (cap_free_rec (K := K) n p).
Proof.
  revert p. induction n as [|n IH]; intros p; [apply does_spin|]. rewrite cap_free_rec_S. tame_steps.
Qed.
Lemma cap_free_tame p : tame (cap_free (K := K) p).
Proof. apply cap_free_rec_tame. Qed.
#[local] Hint Resolve cap_free_tame : tame.

Lemma alloc_cap_tame : tame (alloc (K := K) (OCap cap0)).
Proof. apply does_alloc; [|done]. exact u_wf_blank. Qed.
Lemma alloc_iab_tame : tame (alloc (K := K) (OIab iab0)).
Proof. apply does_alloc; [|done]. split_and!; apply words_wf_0. Qed.
Lemma alloc_launch_tame : tame (alloc (K := K) (OLaunch launch0)).
Proof. by apply does_alloc. Qed.
Lemma alloc_str_tame s : tame (alloc (K := K) (OStr s)).
Proof. by apply does_alloc. Qed.
#[local] Hint Resolve alloc_cap_tame alloc_iab_tame alloc_launch_tame alloc_str_tame : tame.

Lemma write_blks_wf d u : (List.length d <= 2)%nat -> Forall blk_wf d -> u_wf u -> u_wf (write_blks d u).
Proof.
  intros Hd Hf [Hl Hu]. change (Z.to_nat CAP_BLKS) with 2%nat in Hl. split.
  - unfold write_blks. rewrite length_app, length_drop. change (Z.to_nat CAP_BLKS) with 2%nat. lia.
  - apply Forall_app. split; [done|by apply Forall_drop].
Qed.

Lemma capget_tame p b : tame (capget (K := K) p b).
Proof.
  intros w r w' Hw H. apply bind_inv in H as (c & w1 & Hc & H1). apply bind_inv in Hc as (o & w2 & [Hp ->]%load_inv & Ho').
  destruct o as [c'| | |]; try done. injection Ho' as -> <-. apply bind_inv in H1 as (g & w2 & [= <- <-] & H2).
  apply bind_inv in H2 as (u & w2 & ->%store_inv & H).
  set (c1 := OCap _) in H. pose proof (wf_heap _ Hw _ _ Hp) as (_ & _ & Ho).
  assert (keeps [] [] w (with_heap (<[p := c1]> (heap w)) w)) as Hk.
  { apply keeps_insert with (o := OCap c); try done; [|intros Hm; right; split; [exact Hm|apply not_elem_of_nil]|by intros q []%not_elem_of_nil].
    change (u_wf (if b then write_blks (cg_data (sys_capget (kst w) (c_version c) (c_pid c) b)) (c_u c) else c_u c)).
    destruct b; [|exact Ho]. by apply write_blks_wf; [apply law_capget_words..|]. }
  destruct (does_libc_ret _ _ _ _ (keeps_wf _ _ _ _ Hk) H) as [Hk' _]. split; [|done].
  eapply keeps_trans; [exact Hk|exact Hk'|..]; set_solver.
Qed.
#[local] Hint Resolve capget_tame : tame.

Lemma cap_init_tame : tame (cap_init (K := K)).
Proof. unfold cap_init. tame_steps. by intros c. Qed.
#[local] Hint Resolve cap_init_tame : tame.

Lemma cap_dup_tame p : tame (cap_dup (K := K) p).
Proof. unfold cap_dup, good_cap_t, magic_of. tame_steps. by intros c' _. Qed.
Lemma libcap_strdup_tame s : tame (libcap_strdup (K := K) s).
Proof. unfold libcap_strdup. tame_steps. Qed.
Lemma cap_iab_init_tame : tame (cap_iab_init (K := K)).
Proof. apply alloc_iab_tame. Qed.
#[local] Hint Resolve cap_dup_tame libcap_strdup_tame cap_iab_init_tame : tame.
Lemma cap_iab_dup_tame p : tame (cap_iab_dup (K := K) p).
Proof. unfold cap_iab_dup, good_cap_iab_t, magic_of. tame_steps. by intros c' _. Qed.
#[local] Hint Resolve cap_iab_dup_tame : tame.
Lemma cap_new_launcher_tame a b c : tame (cap_new_launcher (K := K) a b c).
Proof. unfold cap_new_launcher. tame_steps. Qed.
Lemma cap_func_launcher_tame f : tame (cap_func_launcher (K := K) f).
Proof. unfold cap_func_launcher. tame_steps. Qed.

(** *** Flags *)

Lemma cap_get_flag_tame p v s r : tame (cap_get_flag (K := K) p v s r).
Proof. unfold cap_get_flag, good_cap_t, magic_of. tame_steps. Qed.
Lemma cap_set_flag_loop_tame p s r l n i : tame (cap_set_flag_loop (K := K) p s r l i n).
Proof.
  revert i. induction n as [|n IH]; intros i; cbn [cap_set_flag_loop]; [by apply does_ret|]. unfold cap_set_flag_one. tame_steps.
  - intros c. apply u_wf_raise.
  - intros c. apply u_wf_lower.
Qed.
#[local] Hint Resolve cap_set_flag_loop_tame : tame.
Lemma cap_set_flag_tame p s n l r : tame (cap_set_flag (K := K) p s n l r).
Proof. unfold cap_set_flag, good_cap_t, magic_of. tame_steps. Qed.
Lemma cap_clear_tame p : tame (cap_clear (K := K) p).
Proof.
  unfold cap_clear, good_cap_t, magic_of. tame_steps. intros c [Hl _]. split; [cbn; by rewrite length_replicate|].
  cbn. apply Forall_replicate. by split_and!.
Qed.
Lemma cap_clear_flag_tame p f : tame (cap_clear_flag (K := K) p f).
Proof. unfold cap_clear_flag, good_cap_t, magic_of. tame_steps. intros c Hc. by apply u_wf_fill. Qed.
Lemma cap_compare_tame a b : tame (cap_compare (K := K) a b).
Proof. unfold cap_compare, good_cap_t, magic_of. tame_steps. Qed.
Lemma cap_fill_flag_tame p to ref from : tame (cap_fill_flag (K := K) p to ref from).
Proof.
  unfold cap_fill_flag, good_cap_t, magic_of. tame_steps. intros c Hc. apply u_wf_fill; [done|]. intros i. by apply blk_wf_flat, u_blk_wf.
Qed.
#[local] Hint Resolve cap_set_flag_tame cap_clear_flag_tame cap_compare_tame : tame.

(** *** IAB tuples *)

Lemma cap_iab_get_vector_tame p v b : tame (cap_iab_get_vector (K := K) p v b).
Proof. unfold cap_iab_get_vector, good_cap_iab_t, magic_of, cap_max_bits. tame_steps. Qed.

Lemma set_vector_wf vec o x raised t t' : is_u32 x -> iab_wf t -> set_vector_words vec o x raised t = Some t' -> iab_wf t'.
Proof.
  intros Hx (Hi & Ha & Hn). unfold set_vector_words. set (put := fun v => Z.lor _ _).
  assert (forall v, words_wf v -> words_wf (upd_word o put v)) as Hput.
  { intros v Hv. apply words_wf_upd; [done|]. intros y Hy. unfold put. case_match; auto with words. }
  repeat case_match; intros [= <-] || done; split_and!; cbn [iab_i iab_a iab_nb]; auto;
    (apply words_wf_upd; [done|]); intros y Hy; auto using word_wf with words.
Qed.
Lemma cap_iab_set_vector_tame p v b r : tame (cap_iab_set_vector (K := K) p v b r).
Proof.
  unfold cap_iab_set_vector, good_cap_iab_t, magic_of, cap_max_bits. tame_steps. intros t' _.
  eapply set_vector_wf; [|eassumption..]. apply is_u32_bit32.
Qed.

Lemma fill_vector_wf vec f u l t t' ok : u_wf u -> iab_wf t -> fill_vector_loop vec f u l t = (t', ok) -> iab_wf t'.
Proof.
  intros Hu. revert t. induction l as [|i l IH]; intros t Ht; [by intros [= <- <-]|]. cbn [fill_vector_loop].
  destruct (fill_vector_word vec i (flat (u_blk u i) f) t) as [t1|] eqn:E; [|by intros [= <- <-]]. apply IH. revert E.
  assert (is_u32 (flat (u_blk u i) f)) as Hf by by apply blk_wf_flat, u_blk_wf.
  destruct Ht as (Hi & Ha & Hn). unfold fill_vector_word.
  assert (forall v, words_wf v -> words_wf (upd_word i (fun _ => flat (u_blk u i) f) v)) as Hput by (intros v Hv; by apply words_wf_upd).
  repeat case_match; intros [= <-] || done; split_and!; cbn [iab_i iab_a iab_nb]; auto;
    (apply words_wf_upd; [done|]); intros y Hy; auto using word_wf with words.
Qed.
Lemma cap_iab_fill_tame p v c f : tame (cap_iab_fill (K := K) p v c f).
Proof.
  unfold cap_iab_fill, good_cap_t, good_cap_iab_t, magic_of. tame_steps. intros t' _.
  eapply fill_vector_wf; eassumption.
Qed.
Lemma cap_iab_compare_tame a b : tame (cap_iab_compare (K := K) a b).
Proof. unfold cap_iab_compare, good_cap_iab_t, magic_of. tame_steps. Qed.
#[local] Hint Resolve cap_iab_fill_tame : tame.

(** *** External form *)

Lemma foldl_keeps {A B} (P : A -> Prop) (f : A -> B -> A) l a : (forall a b, P a -> P (f a b)) -> P a -> P (foldl f a l).
Proof. intros Hf. revert a. induction l as [|b l IH]; intros a Ha; [done|]. cbn. by apply IH, Hf. Qed.

Definition some_wf {A} (P : A -> Prop) (o : option A) : Prop := match o with Some a => P a | None => True end.

Lemma import_u_wf e blen u u' : Forall is_byte e -> u_wf u -> import_u e blen u = Some u' -> u_wf u'.
Proof.
  intros He Hu H. assert (some_wf u_wf (import_u e blen u)) as H'; [|by rewrite H in H'].
  clear u' H. unfold import_u. apply foldl_keeps; [|done]. intros [v|] set Hv; [|done]. unfold import_set. cbn [mbind option_bind].
  match goal with |- context [foldl ?f ?a ?l] => assert (some_wf (fun r => u_wf r.2) (foldl f a l)) as H end.
  { apply foldl_keeps; [|done]. intros [[bno u1]|] blk Hu1; [|done]. cbn [mbind option_bind].
    assert (some_wf (fun r => is_u32 r.2) (read_word e blen set bno)) as Hr.
    { unfold read_word. apply foldl_keeps; [|apply is_u32_0]. intros [[n v1]|] sh Hv1; [|done]. unfold read_step. cbn [mbind option_bind].
      destruct (n =? blen); [done|]. destruct (e !! ext_offset n set) as [b|] eqn:Eb; [|done]. cbn [some_wf snd] in *.
      pose proof (Forall_lookup_1 _ _ _ _ He Eb) as Hb. destruct (sh =? 0); cbn; [unfold is_byte, is_u32 in *; lia|]. auto with words. }
    destruct (read_word e blen set bno) as [[n1 v1]|]; [|done]. cbn [mbind option_bind some_wf snd] in *.
    apply u_wf_alter; [done|]. intros b Hb. by apply blk_wf_set_flat. }
  destruct (foldl _ _ _) as [[n1 u1]|]; [exact H|done].
Qed.

Lemma cap_size_tame p : tame (cap_size (K := K) p).
Proof. unfold cap_size, good_cap_t, magic_of. tame_steps. Qed.
Lemma cap_copy_ext_tame b p n : tame (cap_copy_ext (K := K) b p n).
Proof. unfold cap_copy_ext, good_cap_t, magic_of. tame_steps. Qed.
Definition bytes_of (e : option (list Z)) : Prop := forall l, e = Some l -> Forall is_byte l.
Lemma cap_copy_int_tame e : bytes_of e -> tame (cap_copy_int (K := K) e).
Proof. intros He. unfold cap_copy_int. tame_steps. intros c' _. eapply import_u_wf; [by apply He| |eassumption]. done. Qed.
Lemma cap_copy_int_check_tame e n : bytes_of e -> tame (cap_copy_int_check (K := K) e n).
Proof. intros He. unfold cap_copy_int_check. tame_steps. by apply cap_copy_int_tame. Qed.

(** *** Files *)

Lemma u_wf_imap f u : u_wf u -> (forall i b, blk_wf b -> blk_wf (f i b)) -> u_wf (imap f u).
Proof. intros (b0 & b1 & -> & H0 & H1)%u_wf_inv Hf. apply u_wf_pair; by apply Hf. Qed.
Lemma words_wf_imap f l : words_wf l -> (forall i x, is_u32 x -> is_u32 (f i x)) -> words_wf (imap f l).
Proof. intros (a & b & -> & H0 & H1)%words_wf_inv Hf. apply words_wf_pair; by apply Hf. Qed.

Lemma load_u_wf raw m n u : Forall is_byte raw -> u_wf u -> u_wf (load_u raw m n u).
Proof.
  intros Hraw Hu. apply u_wf_imap; [done|]. intros i b Hb. case_match; [|by split_and!]. unfold load_blk.
  pose proof (get_le32_u32 raw (OFF_INHERITABLE (Z.of_nat i)) Hraw). pose proof (get_le32_u32 raw (OFF_PERMITTED (Z.of_nat i)) Hraw).
  set (b' := set_flat CAP_PERMITTED _ _). assert (blk_wf b') as Hb' by by repeat apply blk_wf_set_flat.
  case_match; [|done]. apply blk_wf_set_flat; [done|]. destruct Hb' as (_ & ? & ?). auto with words.
Qed.

Lemma fcaps_load_tame raw p n : Forall is_byte raw -> tame (fcaps_load (K := K) raw p n).
Proof. intros Hraw. unfold fcaps_load. tame_steps; try (by intros c); intros c Hc; by apply load_u_wf. Qed.
#[local] Hint Resolve fcaps_load_tame : tame.

Lemma sys_getxattr_does f raw : Forall is_byte raw -> does [] [] (sys_getxattr (K := K) f raw) (fun r => Forall is_byte r.2).
Proof.
  intros Hraw w r w' Hw H. unfold sys_getxattr in H. destruct (fs_getxattr (kst w) f SIZEOF_RAWVFSCAP) as [n v] eqn:E.
  apply bind_inv in H as (n' & w1 & H1 & [= <- <-]). destruct (does_libc_ret _ _ _ _ Hw H1) as [Hk _]. split; [done|]. cbn.
  pose proof (law_getxattr_bytes (kst w) f SIZEOF_RAWVFSCAP) as Hb. rewrite E in Hb. case_match; [done|].
  apply Forall_app. split; [done|by apply Forall_drop].
Qed.
Lemma cap_get_ref_tame stack f : Forall is_byte stack -> tame (cap_get_ref (K := K) stack f).
Proof.
  intros Hs. unfold cap_get_ref. tame_step. tame_step; [|by apply does_ret].
  eapply does_seq; [by apply sys_getxattr_does|]. intros [n raw] Hraw. cbn in Hraw. tame_steps.
Qed.

Lemma sys_open_tame path o : tame (sys_open (K := K) path o).
Proof. apply does_same. intros w. unfold sys_open, libc_ret. destruct (fs_open _ _ _). by destruct (_ <? 0). Qed.
Lemma sys_close_tame fd : tame (sys_close (K := K) fd).
Proof. by apply does_same. Qed.
Lemma sys_fstat_tame fd : tame (sys_fstat (K := K) fd).
Proof. apply does_same. intros w. unfold sys_fstat, libc_ret. destruct (fs_fstat _ _). unfold mbind, M_bind. by destruct (_ <? 0). Qed.
Lemma sys_setxattr_tame f v : tame (sys_setxattr (K := K) f v).
Proof. apply does_same. intros w. unfold sys_setxattr, libc_ret. destruct (fs_setxattr _ _ _). by destruct (_ <? 0). Qed.
Lemma sys_removexattr_tame f : tame (sys_removexattr (K := K) f).
Proof. apply does_same. intros w. unfold sys_removexattr, libc_ret. destruct (fs_removexattr _ _). by destruct (_ <? 0). Qed.
#[local] Hint Resolve sys_open_tame sys_close_tame sys_fstat_tame sys_setxattr_tame sys_removexattr_tame : tame.

Lemma put_caps_tame stack f p : tame (put_caps (K := K) stack f p).
Proof. unfold put_caps, fcaps_save, good_cap_t, magic_of. tame_steps. Qed.
#[local] Hint Resolve put_caps_tame : tame.
Lemma cap_set_fd_tame stack fd p : tame (cap_set_fd (K := K) stack fd p).
Proof. unfold cap_set_fd. tame_steps. Qed.
#[local] Hint Resolve cap_set_fd_tame : tame.
Lemma cap_set_file_tame stack path p : tame (cap_set_file (K := K) stack path p).
Proof. unfold cap_set_file. tame_steps. Qed.
Lemma cap_get_nsowner_tame p : tame (cap_get_nsowner (K := K) p).
Proof. unfold cap_get_nsowner, good_cap_t, magic_of. tame_steps. Qed.
Lemma cap_set_nsowner_tame p r : tame (cap_set_nsowner (K := K) p r).
Proof. unfold cap_set_nsowner, good_cap_t, magic_of. tame_steps. by intros c. Qed.

(** *** Processes *)

Lemma cap_get_proc_tame : tame (cap_get_proc (K := K)).
Proof. unfold cap_get_proc. tame_steps. Qed.
Lemma cap_set_proc_sc_tame sc p : tame (cap_set_proc_sc (K := K) sc p).
Proof. unfold cap_set_proc_sc, good_cap_t, magic_of. tame_steps. Qed.
#[local] Hint Resolve cap_get_proc_tame cap_set_proc_sc_tame : tame.
Lemma capgetp_tame pid p : tame (capgetp (K := K) pid p).
Proof. unfold capgetp, good_cap_t, magic_of. tame_steps; by intros c. Qed.
#[local] Hint Resolve capgetp_tame : tame.
Lemma cap_get_pid_tame pid : tame (cap_get_pid (K := K) pid).
Proof. unfold cap_get_pid, get_errno. tame_steps. Qed.
Lemma capsetp_tame pid p : tame (capsetp (K := K) pid p).
Proof. unfold capsetp, capset, good_cap_t, magic_of. tame_steps; by intros c'. Qed.

Lemma reset_ambient_loop_tame n e c : tame (reset_ambient_loop (K := K) n e c).
Proof. revert c. induction n as [|n IH]; intros c; cbn [reset_ambient_loop]; tame_steps. Qed.
#[local] Hint Resolve reset_ambient_loop_tame : tame.
Lemma cap_reset_ambient_tame sc : tame (cap_reset_ambient_sc (K := K) sc).
Proof. unfold cap_reset_ambient_sc, get_errno. tame_steps. Qed.
Lemma cap_get_secbits_tame : tame (cap_get_secbits (K := K)).
Proof. unfold cap_get_secbits, prctl. tame_steps. Qed.
Lemma cap_set_secbits_tame sc b : tame (cap_set_secbits_sc (K := K) sc b).
Proof. apply wprctl3_tame. Qed.
#[local] Hint Resolve cap_reset_ambient_tame cap_get_secbits_tame cap_set_secbits_tame cap_clear_flag_tame : tame.

Lemma drop_bound_loop_tame n sc c : tame (drop_bound_loop (K := K) n sc c).
Proof. revert c. induction n as [|n IH]; intros c; cbn [drop_bound_loop]; tame_steps. Qed.
#[local] Hint Resolve drop_bound_loop_tame : tame.
Lemma set_mode_pure1e_tame sc f p : tame (set_mode_pure1e (K := K) sc f p).
Proof. unfold set_mode_pure1e, CAP_AMBIENT_SUPPORTED, cap_set_no_new_privs. tame_steps. Qed.
#[local] Hint Resolve set_mode_pure1e_tame : tame.
Lemma cap_set_mode_tame sc f : tame (cap_set_mode_sc (K := K) sc f).
Proof. unfold cap_set_mode_sc, set_mode_switch. tame_steps. Qed.
Lemma get_mode_loops_tame n s e c : tame (get_mode_ambient_loop (K := K) n s e c) /\ tame (get_mode_bound_loop (K := K) n c).
Proof. split; revert c; (induction n as [|n IH]; intros c; cbn [get_mode_ambient_loop get_mode_bound_loop]; tame_steps). Qed.
Lemma cap_get_mode_tame : tame (cap_get_mode (K := K)).
Proof. unfold cap_get_mode, get_errno. tame_steps; by apply get_mode_loops_tame. Qed.

Lemma drop_working_tame sc p : tame (drop_working (K := K) sc p).
Proof. unfold drop_working. tame_steps. Qed.
#[local] Hint Resolve drop_working_tame : tame.
Lemma cap_setuid_tame sc uid : tame (cap_setuid_sc (K := K) sc uid).
Proof. unfold cap_setuid_sc, overrode_syscalls, fix_errno, get_errno. tame_steps. Qed.
Lemma cap_setgroups_tame sc gid n l : tame (cap_setgroups_sc (K := K) sc gid n l).
Proof. unfold cap_setgroups_sc, overrode_syscalls, fix_errno, get_errno. tame_steps. Qed.

(** *** IAB tuples of processes *)

Lemma or_words_wf o x l : words_wf l -> is_u32 x -> words_wf (upd_word o (fun v => Z.lor v x) l).
Proof. intros Hl Hx. apply words_wf_upd; [done|]. intros y Hy. auto with words. Qed.
Lemma iab_get_loop_tame p l : tame (iab_get_loop (K := K) p l).
Proof.
  induction l as [|c l IH]; cbn [iab_get_loop]; tame_steps;
    intros t (Hi & Ha & Hn); split_and!; cbn; try done; (apply or_words_wf; [done|apply is_u32_bit32]).
Qed.
#[local] Hint Resolve iab_get_loop_tame : tame.
Lemma cap_iab_get_proc_tame : tame (cap_iab_get_proc (K := K)).
Proof. unfold cap_iab_get_proc, cap_max_bits. tame_steps. Qed.

Lemma check_bound_loop_tame t l : tame (check_bound_loop (K := K) t l).
Proof. induction l as [|c l IH]; cbn [check_bound_loop]; tame_steps. Qed.
Lemma iab_set_loop_tame sc t b l : tame (iab_set_loop (K := K) sc t b l).
Proof. induction l as [|c l IH]; cbn [iab_set_loop]; tame_steps. Qed.
#[local] Hint Resolve check_bound_loop_tame iab_set_loop_tame : tame.
Lemma cap_iab_set_proc_sc_tame sc p : tame (cap_iab_set_proc_sc (K := K) sc p).
Proof.
  unfold cap_iab_set_proc_sc, cap_set_proc, cap_max_bits. tame_steps.
  all: intros c' Hc; apply u_wf_fill; [done|]; intros i; apply word_wf; by apply H0.
Qed.
#[local] Hint Resolve cap_iab_set_proc_sc_tame : tame.
Lemma cap_iab_set_proc_tame p : tame (cap_iab_set_proc (K := K) p).
Proof. unfold cap_iab_set_proc, good_cap_iab_t, magic_of. tame_steps. Qed.

(** *** Launchers *)

Lemma launcher_set_tame p f : (forall l, l_mutex (f l) = l_mutex l) -> tame (launcher_set (K := K) p f).
Proof.
  intros Hf. unfold launcher_set, good_cap_launch_t, magic_of. tame_steps.
Qed.
Lemma cap_launcher_set_chroot_tame p s : tame (cap_launcher_set_chroot (K := K) p s).
Proof. unfold cap_launcher_set_chroot, good_cap_launch_t, magic_of. tame_steps. Qed.
(** The tuple stays locked as long as the launcher holds it. *)
Lemma cap_launcher_set_iab_does p iab : does [iab] [] (cap_launcher_set_iab (K := K) p iab) (fun _ => True).
Proof.
  unfold cap_launcher_set_iab, good_cap_launch_t, magic_of.
  apply (does_bind [iab] [] [iab] [] [] []) with (Q := fun _ => True); [tame_steps|intros good _|set_solver..]. destruct (negb good).
  { apply (does_less [] [iab] [] []); [tame_steps|set_solver..]. }
  apply (does_bind [iab] [p] [iab] [] [] [p]) with (Q := fun _ => True); [apply does_mu_lock|intros _ _|set_solver..].
  apply (does_bind [iab] [] [iab] [p] [] [p]) with (Q := fun _ => True); [tame_steps|intros l _|set_solver..].
  apply (does_bind [iab] [] [iab] [p] [] [p]) with (Q := fun _ => True); [by apply does_modify_launch|intros _ _|set_solver..].
  apply (does_bind [iab] [] [iab] [p] [] [p]) with (Q := fun _ => True); [|intros _ _|set_solver..].
  { destruct (negb _); [|by apply does_ret]. apply (does_less [] [] [l_iab l] []); [apply does_mu_unlock|set_solver..]. }
  apply (does_bind [iab] [iab] [] [p] [] [p]) with (Q := fun _ => True); [|intros _ _; tame_steps| |set_solver..].
  - destruct (negb _); [apply does_mu_lock|]. apply (does_less [] [iab] [] []); [by apply does_ret|set_solver..].
  - by right.
Qed.

Lemma close_tame fd : tame (close (K := K) fd).
Proof. by apply does_same. Qed.
Lemma fork_tame child : tame (fork (K := K) child).
Proof.
  apply does_same. intros w. unfold fork. destruct (sys_fork (kst w)) as [[r kp] kc]. destruct (r <? 0); [done|].
  by destruct (child _) as [[[]| | |] ?].
Qed.
#[local] Hint Resolve close_tame fork_tame : tame.
Lemma read_result_tame n fd c e : tame (read_result (K := K) n fd c e).
Proof.
  revert c e. induction n as [|n IH]; intros c e; cbn [read_result]; [apply does_spin|]. unfold get_errno.
  tame_step. { apply does_same. intros w. destruct (sys_read _ _) as [[r v] k]. unfold libc_ret, mbind, M_bind. by destruct (r <? 0). }
  tame_steps. by apply does_same.
Qed.
#[local] Hint Resolve read_result_tame : tame.
Lemma cap_launch_tame p d : tame (cap_launch (K := K) p d).
Proof.
  unfold cap_launch, good_cap_launch_t, magic_of, get_errno. tame_steps.
  apply does_same. intros w. destruct (sys_pipe2 _) as [[r v] k]. unfold libc_ret, mbind, M_bind. by destruct (r <? 0).
Qed.

(** *** Text *)

Section parsed.
Variable gperf : option (string -> option Z).
Implicit Types (u : list capblk) (s : string) (l : list Z) (blks : nat).

Definition good_result {A} (P : A -> Prop) (r : parsed A) : Prop := forall a, r = PGood a -> P a.

Lemma forceall_wf cmb blks l : words_wf l -> words_wf (forceall cmb u32_max blks l).
Proof. intros Hl. apply words_wf_imap; [done|]. intros i x Hx. case_match; auto with words. Qed.
Lemma caps_loop_wf fuel cmb blks s l : words_wf l -> good_result (fun r => words_wf r.2) (caps_loop gperf fuel cmb blks s l).
Proof.
  revert s l. induction fuel as [|fuel IH]; intros s l Hl r; cbn [caps_loop]; [done|].
  assert (forall r, words_wf r.2 -> good_result (fun r => words_wf r.2)
    (let '(str, l) := r in if negb (Ascii.eqb (head str) ",") then PGood (str, l)
     else if starts_word (tail str) then caps_loop gperf fuel cmb blks (tail str) l else PBad)) as Hgo.
  { intros [str l'] Hl'. cbn in Hl'. destruct (negb _); [by intros ? [= <-]|]. destruct (starts_word _); [by apply IH|done]. }
  destruct (namcmp s "all"); [apply (Hgo (_, _)), forceall_wf, Hl|].
  destruct (lookupname gperf cmb s) as [[n rest]|]; [|done]. apply (Hgo (_, _)). apply or_words_wf; [done|apply is_u32_bit32].
Qed.

Lemma setbits_wf l set blks u : words_wf l -> u_wf u -> u_wf (setbits l set blks u).
Proof.
  intros Hl Hu. apply u_wf_imap; [done|]. intros i b Hb. case_match; [|done]. apply blk_wf_set_flat; [done|].
  apply is_u32_lor; [by apply blk_wf_flat|by apply word_wf].
Qed.
Lemma clrbits_wf l set blks u : u_wf u -> u_wf (clrbits l set blks u).
Proof.
  intros Hu. apply u_wf_imap; [done|]. intros i b Hb. case_match; [|done]. apply blk_wf_set_flat; [done|].
  apply is_u32_land_l. by apply blk_wf_flat.
Qed.
Lemma apply_op_wf op f l blks u : words_wf l -> u_wf u -> u_wf (apply_op op f l blks u).
Proof.
  intros Hl Hu. unfold apply_op, set_flags, clr_flags, clr_all. destruct op; repeat case_match; auto 8 using setbits_wf, clrbits_wf.
Qed.

Lemma actions_loop_wf fuel listed l blks op f s u : words_wf l -> u_wf u ->
  good_result (fun r => u_wf r.2) (actions_loop fuel listed l blks op f s u).
Proof.
  intros Hl. revert op f s u. induction fuel as [|fuel IH]; intros op f s u Hu r; cbn [actions_loop]; [done|].
  destruct (if negb (at_end s) && _ then _ else _) as [[s' f']|]; [|done].
  destruct (if Ascii.eqb _ _ || _ then _ else _) as [[[op' f''] s'']|]; [|done].
  assert (u_wf (apply_op op f' l blks u)) as Hu' by by apply apply_op_wf.
  case_match; [by apply IH|]. by intros [= <-].
Qed.

Lemma clause_wf fuel cmb blks s u : u_wf u -> good_result (fun r => u_wf r.2) (clause gperf fuel cmb blks s u).
Proof.
  intros Hu r. unfold clause. destruct (if starts_word s then _ else _) as [[[s' l] listed]| |] eqn:E; [|done..].
  assert (words_wf l) as Hl.
  { destruct (starts_word s).
    - pose proof (caps_loop_wf fuel cmb blks s [0; 0] words_wf_0) as H. destruct (caps_loop _ _ _ _ _ _) as [[s1 l1]| |]; [|done..].
      injection E as <- <- <-. exact (H _ eq_refl).
    - case_match; [done|]. injection E as <- <- <-. apply forceall_wf, words_wf_0. }
  destruct (first_op listed s') as [[op s1]|]; [|done]. by apply actions_loop_wf.
Qed.
Lemma clauses_loop_wf fuel cmb blks s u : u_wf u -> good_result u_wf (clauses_loop gperf fuel cmb blks s u).
Proof.
  revert s u. induction fuel as [|fuel IH]; intros s u Hu r; cbn [clauses_loop]; [done|]. destruct (at_end _); [by intros [= <-]|].
  pose proof (clause_wf (S fuel) cmb blks (skip_spaces s) u Hu) as H. destruct (clause _ _ _ _ _ _) as [[s' u']| |]; [|done..].
  apply IH. exact (H _ eq_refl).
Qed.

(** The words are well formed, and the lock is as it was. *)
Definition like_iab t t' : Prop := iab_wf t' /\ iab_mutex t' = iab_mutex t.

Lemma iab_text_loop_wf fuel cmb f s t0 t : like_iab t0 t -> good_result (like_iab t0) (iab_text_loop gperf fuel cmb f s t).
Proof.
  revert f s t. induction fuel as [|fuel IH]; intros f s t Ht r; cbn [iab_text_loop]; [done|].
  destruct (at_end s); [by intros [= <-]|]. do 3 (destruct (Ascii.eqb _ _); [by apply IH|]).
  destruct (lookupname gperf cmb s) as [[n rest]|]; [|done]. set (t' := mkIab _ _ _ _).
  assert (like_iab t0 t') as Ht'.
  { destruct Ht as ((Hi & Ha & Hn) & Hm). split; [|done]. assert (forall (b : bool) l, words_wf l -> words_wf (if b then upd_word (Z.shiftr n 5) (fun x => Z.lor x (bit32 n)) l else l)) as Hif
      by (intros [] l Hl; [apply or_words_wf; [done|apply is_u32_bit32]|done]).
    split; [|split]; by apply Hif. }
  destruct (at_end rest); [by intros [= <-]|]. destruct (negb _); [done|]. by apply IH.
Qed.

Lemma parse_vec_string_wf cmb l s b : words_wf l -> words_wf (parse_vec_string cmb l s b).1.
Proof.
  intros Hl. unfold parse_vec_string. destruct (_ <? _)%nat; [exact Hl|]. cbn [fst]. apply words_wf_imap; [by apply forceall_wf|].
  intros i x Hx. case_match; auto with words.
Qed.
Lemma status_line_wf cmb line t0 (s : cap_iab_s * Z) : like_iab t0 s.1 -> like_iab t0 (status_line cmb line s).1.
Proof.
  destruct s as [t ok]. intros ((Hi & Ha & Hn) & Hm). cbn [fst] in *.
  assert (forall l b (f : list Z -> cap_iab_s) flag, words_wf l -> (forall v, words_wf v -> like_iab t0 (f v)) ->
    like_iab t0 (let '(v, ok) := let '(v, good) := parse_vec_string cmb l (str_drop 8 line) b in (v, Z.lor (if good : bool then flag else 0) ok) in
      (f v, ok)).1) as Htake.
  { intros l b f flag Hl Hf. pose proof (parse_vec_string_wf cmb l (str_drop 8 line) b Hl) as H.
    destruct (parse_vec_string _ _ _ _) as [v good]. by apply Hf. }
  unfold status_line. cbv zeta. destruct (negb _); [by split; [split|]|].
  destruct (String.prefix _ _); [apply (Htake _ _ (fun v => mkIab (iab_mutex t) v (iab_a t) (iab_nb t))); [done|intros v Hv; by split; [split|]]|].
  destruct (String.prefix _ _); [apply (Htake _ _ (fun v => mkIab (iab_mutex t) (iab_i t) (iab_a t) v)); [done|intros v Hv; by split; [split|]]|].
  destruct (String.prefix _ _); [apply (Htake _ _ (fun v => mkIab (iab_mutex t) (iab_i t) v (iab_nb t))); [done|intros v Hv; by split; [split|]]|].
  by split; [split|].
Qed.
End parsed.

Lemma cap_from_text_tame gperf s : tame (cap_from_text (K := K) gperf s).
Proof.
  unfold cap_from_text, cap_max_bits. tame_steps. intros c Hc. eapply clauses_loop_wf; [|eassumption]. done.
Qed.
Lemma cap_from_name_tame gperf s b : tame (cap_from_name (K := K) gperf s b).
Proof. unfold cap_from_name, cap_max_bits. tame_steps. Qed.
Lemma cap_to_name_tame c : tame (cap_to_name (K := K) c).
Proof. unfold cap_to_name. tame_steps. Qed.
#[local] Hint Resolve cap_to_name_tame : tame.
Lemma put_tame buf s : tame (put (K := K) buf s).
Proof. unfold put. tame_steps. Qed.
#[local] Hint Resolve put_tame : tame.
Lemma names_loop_tame p t l buf : tame (names_loop (K := K) p t l buf).
Proof. revert buf. induction l as [|n l IH]; intros buf; cbn [names_loop]; tame_steps. Qed.
#[local] Hint Resolve names_loop_tame : tame.
Lemma groups_loop_tame p m cmb h l buf b : tame (groups_loop (K := K) p m cmb h l buf b).
Proof. revert buf b. induction l as [|t l IH]; intros buf b; cbn [groups_loop]; tame_steps. Qed.
Lemma unnamed_loop_tame p cmb h l buf : tame (unnamed_loop (K := K) p cmb h l buf).
Proof. revert buf. induction l as [|t l IH]; intros buf; cbn [unnamed_loop]; tame_steps. Qed.
#[local] Hint Resolve groups_loop_tame unnamed_loop_tame : tame.
Lemma cap_to_text_tame p b : tame (cap_to_text (K := K) p b).
Proof. unfold cap_to_text, no_text, good_cap_t, magic_of, cap_max_bits. tame_steps. Qed.

Lemma iab_to_text_loop_tame t l first buf : tame (iab_to_text_loop (K := K) t l first buf).
Proof. revert first buf. induction l as [|c l IH]; intros first buf; cbn [iab_to_text_loop]; tame_steps. Qed.
#[local] Hint Resolve iab_to_text_loop_tame : tame.
Lemma cap_iab_to_text_tame p : tame (cap_iab_to_text (K := K) p).
Proof. unfold cap_iab_to_text, good_cap_iab_t, magic_of, cap_max_bits. tame_steps. Qed.
Lemma cap_iab_from_text_tame gperf s : tame (cap_iab_from_text (K := K) gperf s).
Proof.
  unfold cap_iab_from_text, cap_max_bits. apply does_seq with (Q := fun _ => True); [apply cap_iab_init_tame|intros p _].
  destruct (p =? 0); [by apply does_ret|]. destruct s as [s|]; [|by apply does_ret].
  apply does_seq with (Q := fun _ => True); [apply does_gets|intros cmb _]. apply does_with_iab. intros t Ht. pose proof (iab_text_loop_wf gperf (S (String.length s)) cmb 0 s t t ltac:(by split)) as H'.
  destruct (iab_text_loop _ _ _ _ _ _) as [t'| |]; [|apply at_iab_any; tame_steps..].
  destruct (H' _ eq_refl). apply at_iab_modify; [done..|]. by apply does_ret.
Qed.
Lemma cap_proc_root_tame s : tame (cap_proc_root (K := K) s).
Proof. unfold cap_proc_root. tame_steps. Qed.
Lemma cap_iab_get_pid_tame pid : tame (cap_iab_get_pid (K := K) pid).
Proof.
  assert (forall lines p, tame (if p =? 0 then mret 0 else
    cmb ← cap_max_bits; t ← load_iab p;
    let '(t, ok) := foldl (fun s line => status_line cmb line s) (t, 0) lines in
    modify_iab p (fun _ => t);; mret ok : M K Z)) as Hread.
  { intros lines p. unfold cap_max_bits. destruct (p =? 0); [by apply does_ret|].
    apply does_seq with (Q := fun _ => True); [apply does_gets|intros cmb _]. apply does_with_iab. intros t Ht.
    assert (like_iab t (foldl (fun s line => status_line cmb line s) (t, 0) lines).1) as Hl.
    { apply (foldl_keeps (fun s => like_iab t s.1)); [|by split]. intros s line. apply status_line_wf. }
    destruct (foldl _ _ _) as [t' ok]. destruct Hl. apply at_iab_modify; [done..|]. by apply does_ret. }
  unfold cap_iab_get_pid. tame_steps.
Qed.

End calls.

(** ** Programs that use the library *)

(** The calls of <sys/capability.h>; [stack] are the bytes of an uninitialised
    automatic variable. *)
Inductive call :=
| C_cap_init
| C_cap_dup (p : Z)
| C_cap_free (p : Z)
| C_cap_get_flag (p v s : Z) (raised : bool)
| C_cap_set_flag (p s n : Z) (l : list Z) (r : Z)
| C_cap_clear (p : Z)
| C_cap_clear_flag (p f : Z)
| C_cap_fill (p to from : Z)
| C_cap_fill_flag (p to ref from : Z)
| C_cap_compare (p q : Z)
| C_cap_iab_init
| C_cap_iab_dup (p : Z)
| C_cap_iab_get_vector (p v b : Z)
| C_cap_iab_set_vector (p v b r : Z)
| C_cap_iab_fill (p v q f : Z)
| C_cap_iab_compare (p q : Z)
| C_cap_size (p : Z)
| C_cap_copy_ext (buf : option (list Z)) (p n : Z)
| C_cap_copy_int (e : option (list Z))
| C_cap_copy_int_check (e : option (list Z)) (n : Z)
| C_cap_get_fd (stack : list Z) (fd : Z)
| C_cap_get_file (stack : list Z) (path : string)
| C_cap_set_fd (stack : list Z) (fd p : Z)
| C_cap_set_file (stack : list Z) (path : string) (p : Z)
| C_cap_get_nsowner (p : Z)
| C_cap_set_nsowner (p r : Z)
| C_cap_get_proc
| C_cap_set_proc (p : Z)
| C_cap_get_pid (pid : Z)
| C_capgetp (pid p : Z)
| C_capsetp (pid p : Z)
| C_cap_get_bound (c : Z)
| C_cap_drop_bound (c : Z)
| C_cap_get_ambient (c : Z)
| C_cap_set_ambient (c v : Z)
| C_cap_reset_ambient
| C_cap_get_secbits
| C_cap_set_secbits (b : Z)
| C_cap_prctl (c a1 a2 a3 a4 a5 : Z)
| C_cap_prctlw (c a1 a2 a3 a4 a5 : Z)
| C_cap_set_mode (f : Z)
| C_cap_get_mode
| C_cap_setuid (uid : Z)
| C_cap_setgroups (gid n : Z) (l : list Z)
| C_cap_set_syscall (f : option Z)
| C_cap_iab_get_proc
| C_cap_iab_get_pid (pid : Z)
| C_cap_iab_set_proc (p : Z)
| C_cap_from_text (t : option string)
| C_cap_to_text (p : Z) (want : bool)
| C_cap_from_name (name : string) (want : bool)
| C_cap_to_name (c : Z)
| C_cap_iab_to_text (p : Z)
| C_cap_iab_from_text (t : option string)
| C_cap_proc_root (root : option string)
| C_cap_new_launcher (arg0 : option string) (argv envp : option (list string))
| C_cap_func_launcher (f : Z)
| C_cap_launcher_callback (p f : Z)
| C_cap_launcher_setuid (p uid : Z)
| C_cap_launcher_setgroups (p gid n : Z) (l : list Z)
| C_cap_launcher_set_mode (p f : Z)
| C_cap_launcher_set_iab (p iab : Z)
| C_cap_launcher_set_chroot (p : Z) (root : option string)
| C_cap_launch (p detail : Z).

(** Buffers hold bytes. *)
Definition typed_call (c : call) : Prop :=
  match c with
  | C_cap_copy_int e => bytes_of e
  | C_cap_copy_int_check e _ => bytes_of e
  | C_cap_get_fd stack _ => Forall is_byte stack
  | C_cap_get_file stack _ => Forall is_byte stack
  | _ => True
  end.
(** The tuple that a call hands to a launcher. *)
Definition handed (c : call) : list Z := match c with C_cap_launcher_set_iab _ iab => [iab] | _ => [] end.

Section sessions.
Context {K : Type} `{!Kernel K, !FileSys K, !Process K, !ProcFs K}.
Variable gperf : option (string -> option Z).
Implicit Types (w : world K) (p : Z).

Definition perform (c : call) : M K unit :=
  match c with
  | C_cap_init => _ ← cap_init; mret tt
  | C_cap_dup p => _ ← cap_dup p; mret tt
  | C_cap_free p => _ ← cap_free p; mret tt
  | C_cap_get_flag p v s raised => _ ← cap_get_flag p v s raised; mret tt
  | C_cap_set_flag p s n l r => _ ← cap_set_flag p s n l r; mret tt
  | C_cap_clear p => _ ← cap_clear p; mret tt
  | C_cap_clear_flag p f => _ ← cap_clear_flag p f; mret tt
  | C_cap_fill p to from => _ ← cap_fill p to from; mret tt
  | C_cap_fill_flag p to ref from => _ ← cap_fill_flag p to ref from; mret tt
  | C_cap_compare p q => _ ← cap_compare p q; mret tt
  | C_cap_iab_init => _ ← cap_iab_init; mret tt
  | C_cap_iab_dup p => _ ← cap_iab_dup p; mret tt
  | C_cap_iab_get_vector p v b => _ ← cap_iab_get_vector p v b; mret tt
  | C_cap_iab_set_vector p v b r => _ ← cap_iab_set_vector p v b r; mret tt
  | C_cap_iab_fill p v q f => _ ← cap_iab_fill p v q f; mret tt
  | C_cap_iab_compare p q => _ ← cap_iab_compare p q; mret tt
  | C_cap_size p => _ ← cap_size p; mret tt
  | C_cap_copy_ext buf p n => _ ← cap_copy_ext buf p n; mret tt
  | C_cap_copy_int e => _ ← cap_copy_int e; mret tt
  | C_cap_copy_int_check e n => _ ← cap_copy_int_check e n; mret tt
  | C_cap_get_fd stack fd => _ ← cap_get_fd stack fd; mret tt
  | C_cap_get_file stack path => _ ← cap_get_file stack path; mret tt
  | C_cap_set_fd stack fd p => _ ← cap_set_fd stack fd p; mret tt
  | C_cap_set_file stack path p => _ ← cap_set_file stack path p; mret tt
  | C_cap_get_nsowner p => _ ← cap_get_nsowner p; mret tt
  | C_cap_set_nsowner p r => _ ← cap_set_nsowner p r; mret tt
  | C_cap_get_proc => _ ← cap_get_proc; mret tt
  | C_cap_set_proc p => _ ← cap_set_proc p; mret tt
  | C_cap_get_pid pid => _ ← cap_get_pid pid; mret tt
  | C_capgetp pid p => _ ← capgetp pid p; mret tt
  | C_capsetp pid p => _ ← capsetp pid p; mret tt
  | C_cap_get_bound c => _ ← cap_get_bound c; mret tt
  | C_cap_drop_bound c => _ ← cap_drop_bound c; mret tt
  | C_cap_get_ambient c => _ ← cap_get_ambient c; mret tt
  | C_cap_set_ambient c v => _ ← cap_set_ambient c v; mret tt
  | C_cap_reset_ambient => _ ← cap_reset_ambient; mret tt
  | C_cap_get_secbits => _ ← cap_get_secbits; mret tt
  | C_cap_set_secbits b => _ ← cap_set_secbits b; mret tt
  | C_cap_prctl c a1 a2 a3 a4 a5 => _ ← cap_prctl c a1 a2 a3 a4 a5; mret tt
  | C_cap_prctlw c a1 a2 a3 a4 a5 => _ ← cap_prctlw c a1 a2 a3 a4 a5; mret tt
  | C_cap_set_mode f => _ ← cap_set_mode f; mret tt
  | C_cap_get_mode => _ ← cap_get_mode; mret tt
  | C_cap_setuid uid => _ ← cap_setuid uid; mret tt
  | C_cap_setgroups gid n l => _ ← cap_setgroups gid n l; mret tt
  | C_cap_set_syscall f => cap_set_syscall f
  | C_cap_iab_get_proc => _ ← cap_iab_get_proc; mret tt
  | C_cap_iab_get_pid pid => _ ← cap_iab_get_pid pid; mret tt
  | C_cap_iab_set_proc p => _ ← cap_iab_set_proc p; mret tt
  | C_cap_from_text t => _ ← cap_from_text gperf t; mret tt
  | C_cap_to_text p want => _ ← cap_to_text p want; mret tt
  | C_cap_from_name name want => _ ← cap_from_name gperf name want; mret tt
  | C_cap_to_name c => _ ← cap_to_name c; mret tt
  | C_cap_iab_to_text p => _ ← cap_iab_to_text p; mret tt
  | C_cap_iab_from_text t => _ ← cap_iab_from_text gperf t; mret tt
  | C_cap_proc_root root => _ ← cap_proc_root root; mret tt
  | C_cap_new_launcher arg0 argv envp => _ ← cap_new_launcher arg0 argv envp; mret tt
  | C_cap_func_launcher f => _ ← cap_func_launcher f; mret tt
  | C_cap_launcher_callback p f => _ ← cap_launcher_callback p f; mret tt
  | C_cap_launcher_setuid p uid => _ ← cap_launcher_setuid p uid; mret tt
  | C_cap_launcher_setgroups p gid n l => _ ← cap_launcher_setgroups p gid n l; mret tt
  | C_cap_launcher_set_mode p f => _ ← cap_launcher_set_mode p f; mret tt
  | C_cap_launcher_set_iab p iab => _ ← cap_launcher_set_iab p iab; mret tt
  | C_cap_launcher_set_chroot p root => _ ← cap_launcher_set_chroot p root; mret tt
  | C_cap_launch p detail => _ ← cap_launch p detail; mret tt
  end.

(** One call after another; what [H] lists was handed to launchers. Between the
    calls, anything but libcap's objects and globals may change. *)
Inductive session : world K -> list Z -> world K -> Prop :=
| session_end w : session w [] w
| session_call w c w1 k e m o H w2 :
    typed_call c -> perform c w = (Ok tt, w1) ->
    session (mkWorld (heap w1) (next w1) m e (glob w1) k o) H w2 -> session w (handed c ++ H) w2.

Context `{!WordLaws K, !ByteLaws K}.

Lemma perform_does c : typed_call c -> does (handed c) [] (perform c) (fun _ => True).
Proof.
  intros Hc.
  assert (forall A T (m : M K A), does T [] m (fun _ => True) -> does T [] (_ ← m; mret tt) (fun _ => True)) as Hthen.
  { intros A T m Hm. eapply (does_bind T T [] [] [] []); [exact Hm|intros _ _; by apply does_ret|set_solver..]. }
  destruct c; cbn [perform handed typed_call] in *; try apply Hthen.
  - apply cap_init_tame.
  - apply cap_dup_tame.
  - apply cap_free_tame.
  - apply cap_get_flag_tame.
  - apply cap_set_flag_tame.
  - apply cap_clear_tame.
  - apply cap_clear_flag_tame.
  - apply cap_fill_flag_tame.
  - apply cap_fill_flag_tame.
  - apply cap_compare_tame.
  - apply cap_iab_init_tame.
  - apply cap_iab_dup_tame.
  - apply cap_iab_get_vector_tame.
  - apply cap_iab_set_vector_tame.
  - apply cap_iab_fill_tame.
  - apply cap_iab_compare_tame.
  - apply cap_size_tame.
  - apply cap_copy_ext_tame.
  - by apply cap_copy_int_tame.
  - by apply cap_copy_int_check_tame.
  - by apply cap_get_ref_tame.
  - by apply cap_get_ref_tame.
  - apply cap_set_fd_tame.
  - apply cap_set_file_tame.
  - apply cap_get_nsowner_tame.
  - apply cap_set_nsowner_tame.
  - apply cap_get_proc_tame.
  - apply cap_set_proc_sc_tame.
  - apply cap_get_pid_tame.
  - apply capgetp_tame.
  - apply capsetp_tame.
  - apply cap_get_bound_tame.
  - apply cap_drop_bound_tame.
  - apply cap_get_ambient_tame.
  - apply cap_set_ambient_tame.
  - apply cap_reset_ambient_tame.
  - apply cap_get_secbits_tame.
  - apply cap_set_secbits_tame.
  - apply libc_syscall_tame.
  - apply wprctl_tame.
  - apply cap_set_mode_tame.
  - apply cap_get_mode_tame.
  - apply cap_setuid_tame.
  - apply cap_setgroups_tame.
  - apply cap_set_syscall_tame.
  - apply cap_iab_get_proc_tame.
  - apply cap_iab_get_pid_tame.
  - apply cap_iab_set_proc_tame.
  - apply cap_from_text_tame.
  - apply cap_to_text_tame.
  - apply cap_from_name_tame.
  - apply cap_to_name_tame.
  - apply cap_iab_to_text_tame.
  - apply cap_iab_from_text_tame.
  - apply cap_proc_root_tame.
  - apply cap_new_launcher_tame.
  - apply cap_func_launcher_tame.
  - by apply launcher_set_tame.
  - by apply launcher_set_tame.
  - by apply launcher_set_tame.
  - by apply launcher_set_tame.
  - apply cap_launcher_set_iab_does.
  - apply cap_launcher_set_chroot_tame.
  - apply cap_launch_tame.
Qed.


End sessions.
