(* ===== verification/Progress.v ===== *)
(** Total correctness of libcap's operations, up to the shape of memory: which
    objects there are, of which type, whether their byte locks are taken, and what
    launchers point to. The judgement [goes] says that a run neither faults nor
    waits for ever and what becomes of the shape; a lemma per operation, on every
    kernel that follows the documentation and whatever allocation fails. *)

From Stdlib Require Import ZArith Lia String Ascii.
From stdpp Require Import gmap list sets.
From S2P Require Import Prelude Capability World Exec Syscall Alloc Flag FlagSpec IabSpec ExtInt File FileSpec Proc ProcSpec Text TextLex.
From S2P Require Import TextSpec TextParse TextPrint TextToText TextRound KernelLaws IabProcSpec IabText ModeSpec Launch LaunchSpec ApiSpec.

Open Scope Z_scope.

(** ** Shapes *)

(** What an object is, less the words it holds. *)
Inductive kind :=
| KCap (locked : bool)
| KIab (locked : bool)
| KStr
| KLaunch (locked : bool) (iab chroot : Z).

Definition kind_of (o : obj) : kind :=
  match o with
  | OCap c => KCap (c_mutex c)
  | OIab t => KIab (iab_mutex t)
  | OStr _ => KStr
  | OLaunch l => KLaunch (l_mutex l) (l_iab l) (l_chroot l)
  end.
Abbreviation shape := (gmap Z kind).
Definition shape_of {K} (w : world K) : shape := kind_of <$> heap w.

Definition kind_locked (κ : kind) : bool :=
  match κ with KCap b => b | KIab b => b | KStr => false | KLaunch b _ _ => b end.
(** Whatever is at [p] can be locked at once. *)
Definition unlocked (h : shape) (p : Z) : Prop := forall κ, h !! p = Some κ -> kind_locked κ = false.

(** ** The judgement *)

(** Where cap_iab_get_pid() reads below: the string of _cap_proc_dir, or 0. *)
Class ProcDir := proc_dir : Z.

Section goes.
Context {K : Type} `{!Kernel K, !KernelLaws K, D : !ProcDir}.
Implicit Types (w : world K) (p : Z) (h : shape).

(** What the library's globals are between the calls of it, but for the system
    calls: the count of the kernel's capabilities, and the directory. *)
Definition started w : Prop := counted w /\ g_proc_dir (glob w) = proc_dir.
(** A world of shape [h]. *)
Definition fit h w : Prop := world_wf w /\ started w /\ shape_of w = h.

(** From a world of shape [h], [m] returns, and its result and the shape it leaves
    satisfy [Q] - or it ends the program in one of the ways [E]. *)
Definition runs {A} (E : ending -> Prop) w (m : M K A) (Q : A -> shape -> Prop) : Prop :=
  match m w with
  | (Ok a, w') => exists h', fit h' w' /\ Q a h'
  | (Halt e, _) => E e
  | (Spin, _) | (Fault, _) => False
  end.
Definition goes {A} (E : ending -> Prop) h (m : M K A) (Q : A -> shape -> Prop) : Prop := forall w, fit h w ->
  match m w with
  | (Ok a, w') => exists h', fit h' w' /\ Q a h'
  | (Halt e, _) => E e
  | (Spin, _) | (Fault, _) => False
  end.
Lemma runs_goes {A} E h w (m : M K A) Q : fit h w -> goes E h m Q -> runs E w m Q.
Proof. intros Hw Hm. by apply Hm. Qed.
(** It always leaves the shape as it was. *)
Definition steady {A} (m : M K A) (P : A -> Prop) : Prop := forall E h, goes E h m (fun a h' => h' = h /\ P a).

Lemma goes_ret {A} E h (a : A) (Q : A -> shape -> Prop) : Q a h -> goes E h (mret a) Q.
Proof. intros HQ w Hw. by exists h. Qed.
Lemma goes_weaken {A} E h (m : M K A) (P Q : A -> shape -> Prop) : goes E h m P -> (forall a h', P a h' -> Q a h') -> goes E h m Q.
Proof.
  intros Hm HPQ w Hw. specialize (Hm w Hw). unfold runs in *. destruct (m w) as [[a|e| |] w']; try done. destruct Hm as (h' & Hh' & HP). exists h'. by split; [|apply HPQ].
Qed.
Lemma goes_bind {A B} E h (m : M K A) (f : A -> M K B) P Q :
  goes E h m P -> (forall a h', P a h' -> goes E h' (f a) Q) -> goes E h (m ≫= f) Q.
Proof.
  intros Hm Hf w Hw. specialize (Hm w Hw). unfold runs in *. destruct (m w) as [[a|e| |] w'] eqn:Em; try done.
  - destruct Hm as (h' & Hh' & HP). rewrite (bind_ok _ _ _ _ _ Em). exact (Hf a h' HP _ Hh').
  - by rewrite (bind_halt _ _ _ _ _ Em).
Qed.
Lemma goes_exits {A} (E : ending -> Prop) h e Q : E e -> goes E h (halt e : M K A) Q.
Proof. intros HE w Hw. exact HE. Qed.
Lemma goes_then {A B} E h (m : M K A) (f : A -> M K B) P Q :
  steady m P -> (forall a, P a -> goes E h (f a) Q) -> goes E h (m ≫= f) Q.
Proof. intros Hm Hf. eapply goes_bind; [apply Hm|]. intros a h' [-> Ha]. by apply Hf. Qed.

Lemma steady_ret {A} (a : A) (P : A -> Prop) : P a -> steady (mret a) P.
Proof. intros HP E h. by apply goes_ret. Qed.
Lemma steady_bind {A B} (m : M K A) (f : A -> M K B) P Q : steady m P -> (forall a, P a -> steady (f a) Q) -> steady (m ≫= f) Q.
Proof. intros Hm Hf E h. eapply goes_then; [exact Hm|]. intros a Ha. by apply Hf. Qed.
Lemma goes_steady {A} E h (m : M K A) P Q : steady m P -> (forall a, P a -> Q a h) -> goes E h m Q.
Proof. intros Hm HQ. eapply goes_weaken; [apply Hm|]. intros a h' [-> Ha]. by apply HQ. Qed.
Lemma steady_any {A} (m : M K A) P : steady m P -> steady m (fun _ => True).
Proof. intros Hm E h. eapply goes_weaken; [apply Hm|]. by intros a h' [-> _]. Qed.

(** *** Steps beside the memory *)

Definition same_start (g g' : globals) : Prop := g_max_bits g' = g_max_bits g /\ g_proc_dir g' = g_proc_dir g.
Lemma fit_beside h w w' : heap w' = heap w -> next w' = next w -> same_start (glob w) (glob w') -> fit h w -> fit h w'.
Proof.
  intros Eh En [Eg Ed] (Hw & Hc & Hs). split; [|split].
  - destruct Hw. by split; rewrite ?Eh, ?En.
  - unfold started, counted in *. by rewrite Eg, Ed.
  - unfold shape_of. by rewrite Eh.
Qed.
Lemma steady_beside {A} (m : M K A) (P : A -> Prop) :
  (forall w, exists a w', m w = (Ok a, w') /\ P a /\ heap w' = heap w /\ next w' = next w /\ same_start (glob w) (glob w')) -> steady m P.
Proof. intros Hm E h w Hw. destruct (Hm w) as (a & w' & -> & HP & ? & ? & ?). exists h. split; [by eapply fit_beside|done]. Qed.

Lemma steady_gets {A} (f : world K -> A) : steady (gets f) (fun _ => True).
Proof. apply steady_beside. intros w. by exists (f w), w. Qed.
Lemma steady_set_errno e : steady (set_errno e) (fun _ => True).
Proof. apply steady_beside. intros w. by eexists _, _. Qed.
Lemma steady_libc_ret r : steady (libc_ret r) (fun n => n = if r <? 0 then -1 else r).
Proof. apply steady_beside. intros w. unfold libc_ret. destruct (r <? 0); by eexists _, _. Qed.
Lemma steady_libc_alloc : steady libc_alloc (fun _ => True).
Proof. apply steady_beside. intros w. by eexists _, _. Qed.
Lemma steady_assert b : b = true -> steady (assert_ub b) (fun _ => True).
Proof. intros ->. by apply steady_ret. Qed.
Lemma steady_max_bits : steady cap_max_bits (fun n => n = last_cap + 1).
Proof. intros E h w Hw. exists h. split; [done|]. split; [done|]. destruct Hw as (_ & [Hc _] & _). exact Hc. Qed.

(** *** The memory *)

Lemma fit_lookup h w p κ : fit h w -> h !! p = Some κ -> exists o, heap w !! p = Some o /\ kind_of o = κ /\ obj_wf o /\ p <> 0 /\ p mod 16 = 8.
Proof.
  intros (Hw & _ & <-) Hp. unfold shape_of in Hp. rewrite lookup_fmap in Hp. destruct (heap w !! p) as [o|] eqn:Eo; [|done].
  exists o. injection Hp as <-. destruct (wf_heap _ Hw _ _ Eo) as (? & ? & ?). split_and!; try done. lia.
Qed.
Lemma fit_missing h w p : fit h w -> h !! p = None -> heap w !! p = None.
Proof. intros (_ & _ & <-) Hp. unfold shape_of in Hp. rewrite lookup_fmap in Hp. by destruct (heap w !! p). Qed.
Lemma fit_0 h w : fit h w -> h !! 0 = None.
Proof. intros Hw. destruct (h !! 0) as [κ|] eqn:E; [|done]. destruct (fit_lookup _ _ _ _ Hw E) as (o & _ & _ & _ & Hne & _). by destruct Hne. Qed.

(** An object is replaced. *)
Lemma fit_insert h w p o o' : heap w !! p = Some o -> obj_wf o' -> fit h w -> fit (<[p := kind_of o']> h) (with_heap (<[p := o']> (heap w)) w).
Proof.
  intros Hp Ho' (Hw & Hc & <-). split; [by eapply world_wf_insert|]. split; [done|]. unfold shape_of. cbn [heap with_heap]. by rewrite fmap_insert.
Qed.
Lemma fit_delete h w p : fit h w -> fit (delete p h) (with_heap (delete p (heap w)) w).
Proof. intros (Hw & Hc & <-). split; [by apply world_wf_delete|]. split; [done|]. unfold shape_of. cbn [heap with_heap]. by rewrite fmap_delete. Qed.

(** What a function that makes an object of kind [κ] returns. *)
Definition made κ h (p : Z) (h' : shape) : Prop := (p = 0 /\ h' = h) \/ (p <> 0 /\ h !! p = None /\ h' = <[p := κ]> h).

Lemma goes_alloc E h o : obj_wf o -> goes E h (alloc o) (made (kind_of o) h).
Proof.
  intros Ho. eapply goes_then; [apply steady_libc_alloc|]. intros [] _.
  - intros w Hw. exists (<[next w := kind_of o]> h). pose proof Hw as (Hww & Hc & <-). split.
    + split; [destruct (world_wf_placed o w Hww Ho); by split|]. split; [done|]. unfold shape_of. cbn. by rewrite fmap_insert.
    + right. split; [by apply wf_next_ne_0|]. split; [|done]. unfold shape_of. rewrite lookup_fmap. by rewrite wf_fresh.
  - eapply goes_then; [apply steady_set_errno|]. intros _ _. apply goes_ret. by left.
Qed.
Lemma goes_dealloc E h p : goes E h (dealloc p) (fun _ h' => h' = delete p h).
Proof. intros w Hw. eexists. split; [by apply fit_delete|done]. Qed.

(** The kind an address has for [magic_of]. *)
Lemma fit_magic h w p : fit h w -> magic_at (heap w) p = match h !! p with
  | Some (KCap _) => CAP_T_MAGIC | Some (KIab _) => CAP_IAB_MAGIC | Some KStr => CAP_S_MAGIC | Some (KLaunch _ _ _) => CAP_LAUNCH_MAGIC | None => 0 end.
Proof.
  intros Hw. destruct (h !! p) as [κ|] eqn:E.
  - destruct (fit_lookup _ _ _ _ Hw E) as (o & Ho & <- & _ & Hp & _). rewrite (magic_at_some _ _ _ Hp Ho). by destruct o.
  - unfold magic_at. rewrite (fit_missing _ _ _ Hw E). by destruct (p =? 0).
Qed.
Lemma goes_good_cap {B} E h p (f : bool -> M K B) Q : unlocked h p ->
  (h !! p = Some (KCap false) -> p <> 0 -> goes E h (f true) Q) -> goes E h (f false) Q -> goes E h (good_cap_t p ≫= f) Q.
Proof.
  intros Hu Ht Hf w Hw. unfold good_cap_t. rewrite (bind_ok _ _ w _ _ (good_cap_t_run p w)), (fit_magic _ _ _ Hw).
  destruct (h !! p) as [[b|b| |b i r]|] eqn:E'; [|by apply Hf..]. pose proof (Hu _ E') as Hb. cbn in Hb. subst b. apply Ht; [done| |done].
  by destruct (fit_lookup _ _ _ _ Hw E') as (_ & _ & _ & _ & ? & _).
Qed.
Lemma goes_good_iab {B} E h p (f : bool -> M K B) Q : unlocked h p ->
  (h !! p = Some (KIab false) -> p <> 0 -> goes E h (f true) Q) -> goes E h (f false) Q -> goes E h (good_cap_iab_t p ≫= f) Q.
Proof.
  intros Hu Ht Hf w Hw. unfold good_cap_iab_t. rewrite (bind_ok _ _ w _ _ (good_cap_iab_t_run p w)), (fit_magic _ _ _ Hw).
  destruct (h !! p) as [[b|b| |b i r]|] eqn:E'; [by apply Hf| |by apply Hf..]. pose proof (Hu _ E') as Hb. cbn in Hb. subst b. apply Ht; [done| |done].
  by destruct (fit_lookup _ _ _ _ Hw E') as (_ & _ & _ & _ & ? & _).
Qed.
Lemma goes_good_launch {B} E h p (f : bool -> M K B) Q : unlocked h p ->
  (forall i r, h !! p = Some (KLaunch false i r) -> p <> 0 -> goes E h (f true) Q) -> goes E h (f false) Q -> goes E h (good_cap_launch_t p ≫= f) Q.
Proof.
  intros Hu Ht Hf w Hw. unfold good_cap_launch_t. rewrite (bind_ok _ _ w _ _ (good_cap_launch_t_run p w)), (fit_magic _ _ _ Hw).
  destruct (h !! p) as [[b|b| |b i r]|] eqn:E'; [by apply Hf|by apply Hf|by apply Hf| |by apply Hf]. pose proof (Hu _ E') as Hb. cbn in Hb. subst b. eapply Ht; [done| |done].
  by destruct (fit_lookup _ _ _ _ Hw E') as (_ & _ & _ & _ & ? & _).
Qed.

(** *** Loads, assignments and locks *)

Lemma goes_load_cap {B} E h p b (f : cap_struct -> M K B) Q : h !! p = Some (KCap b) ->
  (forall c, cap_wf c -> c_mutex c = b -> goes E h (f c) Q) -> goes E h (load_cap p ≫= f) Q.
Proof.
  intros Hp Hf w Hw. destruct (fit_lookup _ _ _ _ Hw Hp) as (o & Ho & Hk & Hwf & _). destruct o as [c| | |]; try done.
  injection Hk as Hk. rewrite (bind_ok _ _ _ _ _ (load_cap_run _ _ _ Ho)). by apply Hf.
Qed.
Lemma goes_load_iab {B} E h p b (f : cap_iab_s -> M K B) Q : h !! p = Some (KIab b) ->
  (forall t, iab_wf t -> iab_mutex t = b -> goes E h (f t) Q) -> goes E h (load_iab p ≫= f) Q.
Proof.
  intros Hp Hf w Hw. destruct (fit_lookup _ _ _ _ Hw Hp) as (o & Ho & Hk & Hwf & _). destruct o as [|t| |]; try done.
  injection Hk as Hk. rewrite (bind_ok _ _ _ _ _ (load_iab_run _ _ _ Ho)). by apply Hf.
Qed.
Lemma goes_load_launch {B} E h p b i r (f : cap_launch_s -> M K B) Q : h !! p = Some (KLaunch b i r) ->
  (forall l, l_mutex l = b -> l_iab l = i -> l_chroot l = r -> goes E h (f l) Q) -> goes E h (load_launch p ≫= f) Q.
Proof.
  intros Hp Hf w Hw. destruct (fit_lookup _ _ _ _ Hw Hp) as (o & Ho & Hk & Hwf & _). destruct o as [| |l|]; try done.
  injection Hk as H1 H2 H3. rewrite (bind_ok _ _ _ _ _ (load_launch_run _ _ _ Ho)). by apply Hf.
Qed.
Lemma goes_load_str E h p : h !! p = Some KStr -> goes E h (load_str p) (fun _ h' => h' = h).
Proof.
  intros Hp w Hw. destruct (fit_lookup _ _ _ _ Hw Hp) as (o & Ho & Hk & _). destruct o as [| | |s]; try done.
  rewrite (load_str_run _ _ _ Ho). by exists h.
Qed.

Lemma goes_modify_cap {B} E h p b b' g (f : unit -> M K B) Q : h !! p = Some (KCap b) ->
  (forall c, cap_wf c -> c_mutex c = b -> cap_wf (g c) /\ c_mutex (g c) = b') ->
  goes E (<[p := KCap b']> h) (f tt) Q -> goes E h (modify_cap p g ≫= f) Q.
Proof.
  intros Hp Hg Hf w Hw. destruct (fit_lookup _ _ _ _ Hw Hp) as (o & Ho & Hk & Hwf & _). destruct o as [c| | |]; try done.
  injection Hk as Hk. rewrite (bind_ok _ _ _ _ _ (modify_cap_run _ _ _ _ Ho)). destruct (Hg c Hwf Hk) as [Hc <-].
  apply Hf. by apply (fit_insert h w p (OCap c) (OCap (g c))).
Qed.
Lemma goes_modify_iab {B} E h p b b' g (f : unit -> M K B) Q : h !! p = Some (KIab b) ->
  (forall t, iab_wf t -> iab_mutex t = b -> iab_wf (g t) /\ iab_mutex (g t) = b') ->
  goes E (<[p := KIab b']> h) (f tt) Q -> goes E h (modify_iab p g ≫= f) Q.
Proof.
  intros Hp Hg Hf w Hw. destruct (fit_lookup _ _ _ _ Hw Hp) as (o & Ho & Hk & Hwf & _). destruct o as [|t| |]; try done.
  injection Hk as Hk. rewrite (bind_ok _ _ _ _ _ (modify_iab_run _ _ _ _ Ho)). destruct (Hg t Hwf Hk) as [Hc <-].
  apply Hf. by apply (fit_insert h w p (OIab t) (OIab (g t))).
Qed.
Lemma goes_modify_launch {B} E h p κ b i r g (f : unit -> M K B) Q : h !! p = Some (KLaunch b i r) ->
  (forall l, kind_of (OLaunch l) = KLaunch b i r -> kind_of (OLaunch (g l)) = κ) ->
  goes E (<[p := κ]> h) (f tt) Q -> goes E h (modify_launch p g ≫= f) Q.
Proof.
  intros Hp Hg Hf w Hw. destruct (fit_lookup _ _ _ _ Hw Hp) as (o & Ho & Hk & Hwf & _). destruct o as [| |l|]; try done.
  rewrite (bind_ok _ _ _ _ _ (modify_launch_run _ _ _ _ Ho)). rewrite <-(Hg l Hk) in Hf.
  apply Hf. by apply (fit_insert h w p (OLaunch l) (OLaunch (g l))).
Qed.

(** An assignment that keeps the kind. *)
Lemma goes_assign_cap {B} E h p b g (f : unit -> M K B) Q : h !! p = Some (KCap b) ->
  (forall c, cap_wf c -> cap_wf (g c)) -> (forall c, c_mutex (g c) = c_mutex c) -> goes E h (f tt) Q -> goes E h (modify_cap p g ≫= f) Q.
Proof.
  intros Hp Hg Hm Hf. apply (goes_modify_cap _ _ _ b b); [done| |by rewrite insert_id].
  intros c Hc <-. split; [by apply Hg|apply Hm].
Qed.
Lemma goes_assign_iab {B} E h p b g (f : unit -> M K B) Q : h !! p = Some (KIab b) ->
  (forall t, iab_wf t -> iab_mutex t = b -> iab_wf (g t) /\ iab_mutex (g t) = b) -> goes E h (f tt) Q -> goes E h (modify_iab p g ≫= f) Q.
Proof. intros Hp Hg Hf. apply (goes_modify_iab _ _ _ b b); [done|exact Hg|by rewrite insert_id]. Qed.

Lemma goes_assign_cap_last E h p b g : h !! p = Some (KCap b) -> (forall c, cap_wf c -> cap_wf (g c)) -> (forall c, c_mutex (g c) = c_mutex c) ->
  goes E h (modify_cap p g) (fun _ h' => h' = h).
Proof.
  intros Hp Hg Hm. assert (goes E h (modify_cap p g ≫= mret) (fun _ h' => h' = h)) as H by (eapply goes_assign_cap; eauto; by apply goes_ret).
  intros w Hw. specialize (H w Hw). unfold runs, mbind, M_bind in *. by destruct (modify_cap p g w) as [[]].
Qed.
Lemma goes_assign_iab_last E h p b g : h !! p = Some (KIab b) -> (forall t, iab_wf t -> iab_mutex t = b -> iab_wf (g t) /\ iab_mutex (g t) = b) ->
  goes E h (modify_iab p g) (fun _ h' => h' = h).
Proof.
  intros Hp Hg. assert (goes E h (modify_iab p g ≫= mret) (fun _ h' => h' = h)) as H by (eapply goes_assign_iab; eauto; by apply goes_ret).
  intros w Hw. specialize (H w Hw). unfold runs, mbind, M_bind in *. by destruct (modify_iab p g w) as [[]].
Qed.

Definition lock_kind (b : bool) (κ : kind) : kind :=
  match κ with KCap _ => KCap b | KIab _ => KIab b | KStr => KStr | KLaunch _ i r => KLaunch b i r end.
Lemma kind_of_mutex b o : kind_of (obj_with_mutex b o) = lock_kind b (kind_of o).
Proof. by destruct o. Qed.
Lemma obj_wf_mutex b o : obj_wf o -> obj_wf (obj_with_mutex b o).
Proof. by destruct o. Qed.
Lemma kind_mutex o : kind_of o <> KStr -> obj_mutex o = Some (kind_locked (kind_of o)).
Proof. by destruct o. Qed.

Lemma goes_mu_lock E h p κ : h !! p = Some κ -> κ <> KStr -> kind_locked κ = false ->
  goes E h (mu_lock p) (fun _ h' => h' = <[p := lock_kind true κ]> h).
Proof.
  intros Hp Hs Hb w Hw. destruct (fit_lookup _ _ _ _ Hw Hp) as (o & Ho & <- & Hwf & _).
  pose proof (kind_mutex o Hs) as Hm. rewrite Hb in Hm. rewrite (mu_lock_run _ _ _ Ho Hm), <-kind_of_mutex. eexists.
  split; [|done]. by apply (fit_insert h w p o); [|apply obj_wf_mutex|].
Qed.
Lemma goes_mu_unlock E h p κ : h !! p = Some κ -> κ <> KStr -> goes E h (mu_unlock p) (fun _ h' => h' = <[p := lock_kind false κ]> h).
Proof.
  intros Hp Hs w Hw. destruct (fit_lookup _ _ _ _ Hw Hp) as (o & Ho & <- & Hwf & _).
  rewrite (mu_unlock_run _ _ _ _ Ho (kind_mutex o Hs)), <-kind_of_mutex. eexists.
  split; [|done]. by apply (fit_insert h w p o); [|apply obj_wf_mutex|].
Qed.

(** A lock that is held for a while: the shape [h1] of the meantime. *)
Lemma goes_lock {B} E h p κ (f : unit -> M K B) Q : h !! p = Some κ -> κ <> KStr -> kind_locked κ = false ->
  (forall h1, h1 !! p = Some (lock_kind true κ) -> <[p := κ]> h1 = h -> (forall q, q <> p -> h1 !! q = h !! q) -> goes E h1 (f tt) Q) ->
  goes E h (mu_lock p ≫= f) Q.
Proof.
  intros Hp Hs Hb Hf. eapply goes_bind; [by apply goes_mu_lock|]. intros [] h1 ->. apply Hf.
  - by rewrite lookup_insert_eq.
  - rewrite insert_insert_eq. by apply insert_id.
  - intros q Hq. by rewrite lookup_insert_ne.
Qed.
Lemma goes_unlock {B} E h h1 p κ (f : unit -> M K B) Q : h1 !! p = Some (lock_kind true κ) -> κ <> KStr -> kind_locked κ = false ->
  <[p := κ]> h1 = h -> goes E h (f tt) Q -> goes E h1 (mu_unlock p ≫= f) Q.
Proof.
  intros Hp Hs Hb Eh Hf. eapply goes_bind; [apply (goes_mu_unlock _ _ _ _ Hp); by destruct κ|]. intros [] h' ->.
  replace (<[p := lock_kind false (lock_kind true κ)]> h1) with h; [done|]. rewrite <-Eh. f_equal. by destruct κ; cbn in *; subst.
Qed.

Lemma goes_same {A B} E h (m : M K A) (f : A -> M K B) Q : goes E h m (fun _ h' => h' = h) -> (forall a, goes E h (f a) Q) -> goes E h (m ≫= f) Q.
Proof. intros Hm Hf. eapply goes_bind; [exact Hm|]. by intros a h' ->. Qed.
Lemma goes_last {A} E h (m : M K A) (Q : A -> shape -> Prop) : goes E h m (fun _ h' => h' = h) -> (forall a, Q a h) -> goes E h m Q.
Proof. intros Hm HQ. eapply goes_weaken; [exact Hm|]. by intros a h' ->. Qed.
Lemma goes_ret_bind {A B} E h (a : A) (f : A -> M K B) Q : goes E h (f a) Q -> goes E h (mret a ≫= f) Q.
Proof. done. Qed.
Lemma goes_bind_bind {A B C} E h (m : M K A) (f : A -> M K B) (g : B -> M K C) Q :
  goes E h (m ≫= (fun a => f a ≫= g)) Q -> goes E h ((m ≫= f) ≫= g) Q.
Proof. intros H w Hw. rewrite bind_bind. by apply H. Qed.
Lemma goes_assert {B} E h b (f : unit -> M K B) Q : b = true -> goes E h (f tt) Q -> goes E h (assert_ub b ≫= f) Q.
Proof. by intros ->. Qed.
Lemma goes_make {B} E h κ (m : M K Z) (f : Z -> M K B) Q : goes E h m (made κ h) -> goes E h (f 0) Q ->
  (forall p, p <> 0 -> (p =? 0) = false -> h !! p = None -> goes E (<[p := κ]> h) (f p) Q) -> goes E h (m ≫= f) Q.
Proof.
  intros Hm H0 Hp. eapply goes_bind; [exact Hm|]. intros p h' [[-> ->]|(Hne & Hn & ->)]; [done|]. apply Hp; [done| |done]. by apply Z.eqb_neq.
Qed.
Lemma made_0 κ h : made κ h 0 h.
Proof. by left. Qed.
Lemma made_new κ h p : p <> 0 -> h !! p = None -> made κ h p (<[p := κ]> h).
Proof. intros. right. by split_and!. Qed.

(** What is unlocked stays so. *)
Lemma unlocked_insert h p q κ : kind_locked κ = false -> unlocked h q -> unlocked (<[p := κ]> h) q.
Proof. intros Hκ Hq κ' [[<- <-]|[_ H]]%lookup_insert_Some; [done|by apply Hq]. Qed.
Lemma unlocked_delete h p q : unlocked h q -> unlocked (delete p h) q.
Proof. intros Hq κ' [_ H]%lookup_delete_Some. by apply Hq. Qed.
Lemma unlocked_at h p κ : h !! p = Some κ -> kind_locked κ = false -> unlocked h p.
Proof. by intros Hp Hκ κ' [= ->]%(fun H => eq_trans (eq_sym Hp) H). Qed.
Lemma unlocked_new h p : h !! p = None -> unlocked h p.
Proof. by intros Hp κ' H%(fun H => eq_trans (eq_sym Hp) H). Qed.
Lemma unlocked_while h h1 p q : (forall q, q <> p -> h1 !! q = h !! q) -> q <> p -> unlocked h q -> unlocked h1 q.
Proof. intros Hh Hne Hq κ. rewrite Hh by done. apply Hq. Qed.

End goes.

(** Look an address up in a shape that operations have updated. *)
Ltac shape_lookup :=
  first
    [ eassumption
    | rewrite lookup_insert_eq; reflexivity
    | rewrite lookup_insert_ne by (congruence || naive_solver congruence); shape_lookup
    | match goal with H : forall q, q <> ?p -> ?h1 !! q = ?h !! q |- ?h1 !! _ = _ => rewrite H by congruence; shape_lookup end ].

Create HintDb goes.
#[export] Hint Resolve steady_gets steady_set_errno steady_libc_ret steady_libc_alloc steady_max_bits : goes.
#[export] Hint Resolve unlocked_insert unlocked_delete unlocked_new : goes.
#[export] Hint Extern 2 (unlocked _ _) => eapply unlocked_at; [solve [shape_lookup]|reflexivity] : goes.
#[export] Hint Extern 1 (kind_locked _ = false) => reflexivity : goes.

(** A test that failed already. *)
Ltac absurd_test := match goal with H : _ = true |- _ => exfalso; rewrite ?andb_false_r in H; discriminate H end.

(** The release of an object, by the rules below. *)
Ltac go_drop := fail.

(** One rule of the judgement. *)
Ltac go_step :=
  lazymatch goal with
  | |- goes _ _ (mret _) _ => apply goes_ret
  | |- goes _ _ (mu_unlock_return _ _) _ => unfold mu_unlock_return
  | |- goes _ _ (good_cap_t _ ≫= _) _ => apply goes_good_cap; [solve [eauto 4 with goes]|intros ? ?|]
  | |- goes _ _ (good_cap_iab_t _ ≫= _) _ => apply goes_good_iab; [solve [eauto 4 with goes]|intros ? ?|]
  | |- goes _ _ (good_cap_launch_t _ ≫= _) _ => apply goes_good_launch; [solve [eauto 4 with goes]|intros ? ? ? ?|]
  | |- goes _ _ (mu_lock _ ≫= _) _ => eapply goes_lock; [solve [shape_lookup]|discriminate|reflexivity|cbn [lock_kind]; intros ? ? ? ?]
  | |- goes _ _ (mu_unlock _ ≫= _) _ => eapply goes_unlock; [| | |eassumption|]; [eassumption|discriminate|reflexivity|]
  | |- goes _ _ (load_cap _ ≫= _) _ => eapply goes_load_cap; [solve [shape_lookup]|intros ? ? ?]
  | |- goes _ _ (load_iab _ ≫= _) _ => eapply goes_load_iab; [solve [shape_lookup]|intros ? ? ?]
  | |- goes _ _ (modify_cap _ _ ≫= _) _ => eapply goes_assign_cap; [solve [shape_lookup]|try by intros []|solve [by intros []]|]
  | |- goes _ _ ((_ ≫= _) ≫= _) _ => apply goes_bind_bind
  | |- goes _ _ (mret _ ≫= _) _ => apply goes_ret_bind
  | |- goes _ _ (modify_cap _ _) _ => eapply goes_last; [eapply goes_assign_cap_last; [solve [shape_lookup]|try by intros []|solve [by intros []]]|intros ?]
  | |- goes _ _ (assert_ub _ ≫= _) _ => apply goes_assert
  | |- goes _ _ (cap_free _ ≫= _) _ => go_drop
  | |- goes _ _ ((if ?b then _ else _) ≫= _) _ => destruct b eqn:?; try absurd_test
  | |- goes _ _ (match ?x with _ => _ end) _ => destruct x eqn:?; try absurd_test
  | |- goes _ _ (_ ≫= _) _ =>
      first [eapply goes_then; [solve [eauto 4 with goes]|cbn beta; intros ? ?]|eapply goes_same; [solve [eauto 5 with goes]|intros ?]]
  | |- goes _ _ _ _ => first [eapply goes_steady; [solve [eauto 4 with goes]|cbn beta; intros ? ?]|eapply goes_last; [solve [eauto 5 with goes]|intros ?]]
  end.
Ltac go := repeat (cbn beta iota zeta; cbn [negb andb orb]; try change (0 =? 0) with true; cbn beta iota; go_step).

Section calls.
Context {K : Type} `{!Kernel K, !KernelLaws K, !WordLaws K, D : !ProcDir}.
Implicit Types (w : world K) (p : Z) (h : shape).

(** ** System calls *)

Lemma steady_libc_syscall req : steady (libc_syscall (K := K) req) (fun n => -1 <= n).
Proof.
  apply steady_beside. intros w. destruct (libc_syscall_frame req w) as (r & e & k & -> & Hr). by eexists _, _.
Qed.
#[local] Hint Resolve steady_libc_syscall : goes.
Lemma steady_sc_call sc req : steady (sc_call (K := K) sc req) (fun _ => True).
Proof.
  unfold sc_call, cap_syscall. eapply steady_bind; [apply steady_gets|]. intros [| |fn] _; try (eapply steady_any, steady_libc_syscall).
  apply steady_beside. intros w. destruct (user_syscall _ _ _) as [[r e] k]. by eexists _, _.
Qed.
#[local] Hint Resolve steady_sc_call : goes.

Lemma steady_wprctl6 sc c a1 a2 a3 a4 a5 : steady (libcap_wprctl6 (K := K) sc c a1 a2 a3 a4 a5) (fun _ => True).
Proof. intros E h. unfold libcap_wprctl6, prctl, wprctl_result, overrode_syscalls. go; try done. Qed.
#[local] Hint Resolve steady_wprctl6 : goes.
Lemma steady_wprctl3 sc c a1 a2 : steady (libcap_wprctl3 (K := K) sc c a1 a2) (fun _ => True).
Proof. apply steady_wprctl6. Qed.
#[local] Hint Resolve steady_wprctl3 : goes.
Lemma steady_capset sc v pid d : steady (libcap_capset (K := K) sc v pid d) (fun _ => True).
Proof. intros E h. unfold libcap_capset, capset, overrode_syscalls. go; done. Qed.
Lemma steady_drop_bound sc c : steady (cap_drop_bound_sc (K := K) sc c) (fun _ => True).
Proof. apply steady_wprctl3. Qed.
Lemma steady_set_ambient sc c v : steady (cap_set_ambient_sc (K := K) sc c v) (fun _ => True).
Proof. intros E h. unfold cap_set_ambient_sc. go; done. Qed.
#[local] Hint Resolve steady_capset steady_drop_bound steady_set_ambient : goes.

(** Reading the bounding and the ambient set ends at the first capability the
    kernel does not have. *)
Lemma steady_get_bound c : 0 <= c < 256 -> steady (cap_get_bound (K := K) c) (fun n => last_cap < c -> n = -1).
Proof.
  intros Hc. apply steady_beside. intros w. destruct (bound_read_run c w Hc) as (e & -> & _). eexists _, _. split; [done|]. split; [|done].
  intros Hl. by destruct (Z.leb_spec c last_cap); [lia|].
Qed.
Lemma steady_get_ambient c : 0 <= c < 256 -> steady (cap_get_ambient (K := K) c) (fun n => last_cap < c -> n = -1).
Proof.
  intros Hc. apply steady_beside. intros w. destruct (amb_read_run c w Hc) as (e & -> & _). eexists _, _. split; [done|]. split; [|done].
  intros Hl. by destruct (Z.leb_spec c last_cap); [lia|].
Qed.
Lemma any_get_bound c : steady (cap_get_bound (K := K) c) (fun _ => True).
Proof. eapply steady_any, steady_libc_syscall. Qed.
Lemma any_get_ambient c : steady (cap_get_ambient (K := K) c) (fun _ => True).
Proof. intros E h. unfold cap_get_ambient, prctl. go; done. Qed.

(** [n] turns are enough from [c] on. *)
Definition enough (n : nat) c : Prop := 0 <= c <= last_cap + 1 /\ last_cap + 1 < c + Z.of_nat n.
Lemma enough_probe : enough probe_fuel 0.
Proof. unfold enough. change (Z.of_nat probe_fuel) with 128. pose proof last_cap_63. lia. Qed.
Lemma enough_0 c : ~ enough 0 c.
Proof. unfold enough. lia. Qed.
Lemma enough_byte n c : enough n c -> 0 <= c < 256.
Proof. unfold enough. pose proof last_cap_63. lia. Qed.
Lemma enough_next n c : enough (S n) c -> c <= last_cap -> enough n (c + 1).
Proof. unfold enough. lia. Qed.

(** A turn that goes on only after a read that succeeded. *)
Lemma probe_turn {A} E h n c (m : Z -> M K Z) (f : Z -> M K A) Q : enough (S n) c ->
  (forall c, 0 <= c < 256 -> steady (m c) (fun v => last_cap < c -> v = -1)) ->
  (forall v, (v <> -1 -> enough n (c + 1)) -> goes E h (f v) Q) -> goes E h (m c ≫= f) Q.
Proof.
  intros He Hm Hf. eapply goes_then; [by apply Hm, (enough_byte _ _ He)|]. intros v Hv. apply Hf. intros Hne.
  apply enough_next; [done|]. destruct (Z.le_gt_cases c last_cap); [done|]. by destruct Hne; apply Hv.
Qed.

Lemma steady_reset_ambient_loop n e c : enough n c -> steady (reset_ambient_loop (K := K) n e c) (fun _ => True).
Proof.
  revert c. induction n as [|n IH]; intros c He E h; [by destruct (enough_0 c)|]. cbn [reset_ambient_loop].
  apply (probe_turn _ _ n c cap_get_ambient); [done|exact steady_get_ambient|]. intros v Hv. destruct (Z.eqb_spec v (-1)).
  - go. done.
  - destruct (v =? 0); [apply IH; by apply Hv|]. by go.
Qed.
Lemma steady_reset_ambient sc : steady (cap_reset_ambient_sc (K := K) sc) (fun _ => True).
Proof.
  intros E h. unfold cap_reset_ambient_sc, get_errno. go. eapply goes_then; [apply steady_reset_ambient_loop, enough_probe|]. intros [v|] _; by go.
Qed.
Lemma steady_drop_bound_loop n sc c : enough n c -> steady (drop_bound_loop (K := K) n sc c) (fun _ => True).
Proof.
  revert c. induction n as [|n IH]; intros c He E h; [by destruct (enough_0 c)|]. cbn [drop_bound_loop].
  apply (probe_turn _ _ n c cap_get_bound); [done|exact steady_get_bound|]. intros v Hv. destruct (Z.leb_spec 0 v); [|by go].
  go. apply IH, Hv. lia.
Qed.
Lemma steady_get_mode_ambient n s e c : enough n c -> steady (get_mode_ambient_loop (K := K) n s e c) (fun _ => True).
Proof.
  revert c. induction n as [|n IH]; intros c He E h; [by destruct (enough_0 c)|]. cbn [get_mode_ambient_loop].
  apply (probe_turn _ _ n c cap_get_ambient); [done|exact steady_get_ambient|]. intros v Hv. destruct (Z.eqb_spec v (-1)); [by go|].
  destruct (negb _); [by go|]. apply IH. by apply Hv.
Qed.
Lemma steady_get_mode_bound n c : enough n c -> steady (get_mode_bound_loop (K := K) n c) (fun _ => True).
Proof.
  revert c. induction n as [|n IH]; intros c He E h; [by destruct (enough_0 c)|]. cbn [get_mode_bound_loop].
  apply (probe_turn _ _ n c cap_get_bound); [done|exact steady_get_bound|]. intros v Hv. destruct (Z.eqb_spec v (-1)); [by go|].
  destruct (negb _); [by go|]. apply IH. by apply Hv.
Qed.
#[local] Hint Resolve any_get_bound any_get_ambient steady_reset_ambient : goes.

(** ** Memory *)

Lemma goes_capget E h p b b' : h !! p = Some (KCap b) -> goes E h (capget (K := K) p b') (fun _ h' => h' = h).
Proof.
  intros Hp w Hw. destruct (fit_lookup _ _ _ _ Hw Hp) as (o & Ho & Hk & Hwf & _). destruct o as [c| | |]; try done. injection Hk as Hk.
  unfold capget. rewrite (bind_ok _ _ _ _ _ (load_cap_run _ _ _ Ho)), (bind_ok _ _ _ _ _ (gets_run _ _)), (bind_ok _ _ _ _ _ (store_run _ _ _ _ Ho)).
  set (o' := OCap _). assert (obj_wf o') as Hwf'.
  { destruct (law_capget_words (kst w) (c_version c) (c_pid c) b') as [Hl Hf].
    change (u_wf (if b' then write_blks (cg_data (sys_capget (kst w) (c_version c) (c_pid c) b')) (c_u c) else c_u c)).
    destruct b'; [by apply write_blks_wf|exact Hwf]. }
  pose proof (fit_insert _ _ _ _ _ Ho Hwf' Hw) as Hw'. change (kind_of o') with (KCap (c_mutex c)) in Hw'. rewrite Hk, insert_id in Hw' by done.
  by apply (goes_steady E h (libc_ret _) _ (fun _ h' => h' = h) (steady_libc_ret _) ltac:(done) _ Hw').
Qed.

(** What cap_free() needs: a set's lock, and the parts of a launcher in their place. *)
Definition part h (κ : kind -> Prop) q : Prop := q = 0 \/ exists κ', h !! q = Some κ' /\ κ κ'.
Definition is_iab (κ : kind) : Prop := exists b, κ = KIab b.
Definition parts h i r : Prop := part h is_iab i /\ part h (eq KStr) r.
Definition freeable h p : Prop := forall κ, h !! p = Some κ ->
  match κ with KCap b => b = false | KLaunch _ i r => parts h i r | _ => True end.
Definition freed h p : shape :=
  match h !! p with Some (KLaunch _ i r) => delete p (delete i (delete r h)) | _ => delete p h end.

Lemma goes_free E h p : freeable h p -> goes E h (cap_free (K := K) p) (fun _ h' => h' = freed h p).
Proof.
  intros Hp w Hw. pose proof Hw as (Hww & Hc & Hs). unfold freed. destruct (h !! p) as [κ|] eqn:Ep.
  - destruct (fit_lookup _ _ _ _ Hw Ep) as (o & Ho & Hk & _). specialize (Hp _ Ep). destruct (decide (plain_obj o = true)) as [Hpl|Hpl].
    + rewrite (cap_free_plain _ _ _ Hww Ho Hpl). eexists. split; [by apply (fit_delete h)|]. by destruct o; subst κ.
    + destruct o as [c| |l|]; try done; subst κ; cbn [kind_of] in Hp; [cbn in Hpl; rewrite Hp in Hpl; by destruct Hpl|].
      assert (launch_owns (heap w) l) as Hown.
      { destruct Hp as [Hi Hr]. split.
        - destruct Hi as [?|(κ & Hi & b & ->)]; [by left|right]. destruct (fit_lookup _ _ _ _ Hw Hi) as ([] & ? & ? & _); try done. by eexists.
        - destruct Hr as [?|(κ & Hr & <-)]; [by left|right]. destruct (fit_lookup _ _ _ _ Hw Hr) as ([] & ? & ? & _); try done. by eexists. }
      rewrite (cap_free_launch _ _ _ Hww Ho Hown). cbn [kind_of]. eexists. split; [|done].
      assert (heap w !! 0 = None) as H0 by (eapply fit_missing; [exact Hw|by eapply fit_0]).
      assert (foldr delete (heap w) (p :: owned_by l) = delete p (delete (l_iab l) (delete (l_chroot l) (heap w)))) as ->.
      { apply map_eq. intros q. rewrite delete_owned_lookup, !lookup_delete.
        destruct (decide (q = 0)) as [->|Hq]; [rewrite H0; by repeat case_decide|]. repeat case_decide; intuition congruence. }
      exact (fit_delete _ _ p (fit_delete _ _ (l_iab l) (fit_delete _ _ (l_chroot l) Hw))).
  - destruct (decide (p = 0)) as [->|Hne].
    + exists h. split; [done|]. by rewrite delete_id.
    + rewrite (cap_free_unknown _ _ Hne (fit_missing _ _ _ Hw Ep)). exists h. split; [by apply (fit_beside h w)|]. by rewrite delete_id.
Qed.

(** An object of one piece is released. *)
Definition plain_kind (κ : kind) : Prop := match κ with KCap b => b = false | KLaunch _ _ _ => False | _ => True end.
Lemma goes_drop {B} E h p κ (f : Z -> M K B) Q : h !! p = Some κ -> plain_kind κ ->
  (forall a, goes E (delete p h) (f a) Q) -> goes E h (cap_free p ≫= f) Q.
Proof.
  intros Hp Hκ Hf. eapply goes_bind; [apply goes_free|].
  - intros κ'. rewrite Hp. intros [= <-]. by destruct κ.
  - intros a h' ->. unfold freed. rewrite Hp. by destruct κ.
Qed.
Lemma goes_free_0 {B} E h (f : Z -> M K B) Q : (forall a, goes E h (f a) Q) -> goes E h (cap_free 0 ≫= f) Q.
Proof. intros Hf w Hw. apply (Hf 0 w Hw). Qed.

Ltac go_drop ::=
  first [apply goes_free_0; intros ?
        |eapply goes_drop; [solve [shape_lookup]|exact eq_refl || exact I|intros ?; rewrite ?delete_insert_id by assumption]].

Lemma goes_cap_init E h : goes E h (cap_init (K := K)) (made (KCap false) h).
Proof.
  unfold cap_init. eapply goes_make; [by apply (goes_alloc _ _ (OCap cap0) u_wf_blank)|cbn; go; apply made_0|].
  intros p Hne Hb Hn. rewrite Hb. eapply goes_assign_cap; [shape_lookup|by intros c|by intros []|].
  eapply goes_bind; [by eapply goes_capget; shape_lookup|]. intros _ h' ->. go; [by apply made_new|].
  go. apply made_0.
Qed.
(** The end of the functions that copy an object with its lock taken. *)
Lemma goes_copied E h h1 p q κ : q <> 0 -> h !! q = None -> h !! p = Some κ -> κ <> KStr -> kind_locked κ = false ->
  h1 !! p = Some (lock_kind true κ) -> <[p := κ]> h1 = <[q := κ]> h ->
  goes E (<[q := lock_kind true κ]> h1) (mu_unlock (K := K) p;; mu_unlock q;; mret q) (made κ h).
Proof.
  intros Hq Hn Hp Hs Hb Hl Eh. assert (q <> p) as Hne by congruence. assert (lock_kind false κ = κ) as Hκ by by destruct κ; cbn in *; subst.
  eapply goes_bind; [apply (goes_mu_unlock _ _ _ (lock_kind true κ)); [by rewrite lookup_insert_ne|by destruct κ]|]. intros [] h' ->.
  replace (lock_kind false (lock_kind true κ)) with κ by (by destruct κ; cbn in *; subst). rewrite insert_insert_ne, Eh, insert_insert_eq by done.
  eapply goes_bind; [apply (goes_mu_unlock _ _ _ (lock_kind true κ)); [by rewrite lookup_insert_eq|by destruct κ]|]. intros [] h' ->.
  replace (lock_kind false (lock_kind true κ)) with κ by (by destruct κ; cbn in *; subst). rewrite insert_insert_eq. apply goes_ret. by apply made_new.
Qed.
Lemma goes_cap_dup E h p : unlocked h p -> goes E h (cap_dup (K := K) p) (made (KCap false) h).
Proof.
  intros Hu. unfold cap_dup. go; [|apply made_0]. eapply goes_make; [apply goes_cap_init|go; apply made_0|]. intros q Hne Hb Hn. rewrite Hb. go.
  eapply (goes_modify_cap _ _ _ false true); [shape_lookup|by intros|]. by eapply (goes_copied _ _ _ _ _ (KCap false)).
Qed.
Lemma goes_iab_init E h : goes E h (cap_iab_init (K := K)) (made (KIab false) h).
Proof. apply (goes_alloc _ _ (OIab iab0)). split_and!; apply words_wf_0. Qed.
Lemma goes_iab_dup E h p : unlocked h p -> goes E h (cap_iab_dup (K := K) p) (made (KIab false) h).
Proof.
  intros Hu. unfold cap_iab_dup. go; [|apply made_0]. eapply goes_make; [apply goes_iab_init|go; apply made_0|]. intros q Hne Hb Hn. rewrite Hb. go.
  eapply (goes_modify_iab _ _ _ false true); [shape_lookup|by intros|]. by eapply (goes_copied _ _ _ _ _ (KIab false)).
Qed.
Lemma goes_strdup E h s : goes E h (libcap_strdup (K := K) s) (made KStr h).
Proof.
  unfold libcap_strdup. go; try apply made_0. eapply goes_make; [by apply (goes_alloc _ _ (OStr _))|go; apply made_0|].
  intros p Hne Hb Hn. rewrite Hb. go. by apply made_new.
Qed.
Lemma goes_new_launcher E h a b c : goes E h (cap_new_launcher (K := K) a b c) (made (KLaunch false 0 0) h).
Proof.
  unfold cap_new_launcher. eapply goes_make; [by apply (goes_alloc _ _ (OLaunch launch0))|go; apply made_0|]. intros p Hne Hb Hn. rewrite Hb.
  eapply (goes_modify_launch _ _ _ (KLaunch false 0 0)); [by rewrite lookup_insert_eq|by intros l|]. rewrite insert_insert_eq. go. by apply made_new.
Qed.
Lemma goes_func_launcher E h f : goes E h (cap_func_launcher (K := K) f) (made (KLaunch false 0 0) h).
Proof.
  unfold cap_func_launcher. eapply goes_make; [by apply (goes_alloc _ _ (OLaunch launch0))|go; apply made_0|]. intros p Hne Hb Hn. rewrite Hb.
  eapply (goes_modify_launch _ _ _ (KLaunch false 0 0)); [by rewrite lookup_insert_eq|by intros l|]. rewrite insert_insert_eq. go. by apply made_new.
Qed.

(** ** Flags *)

Lemma goes_get_flag E h p v s r : unlocked h p -> goes E h (cap_get_flag (K := K) p v s r) (fun _ h' => h' = h).
Proof.
  intros Hu. unfold cap_get_flag. go; [|done..]. apply in_words_valid; [by destruct H4|]. unfold valid_cap. lia.
Qed.
Lemma goes_set_flag_loop E h p b s r l i n : h !! p = Some (KCap b) -> (i + n <= List.length l)%nat ->
  goes E h (cap_set_flag_loop (K := K) p s r l i n) (fun _ h' => h' = h).
Proof.
  intros Hp. revert i. induction n as [|n IH]; intros i Hn; cbn [cap_set_flag_loop]; [by apply goes_ret|].
  destruct (l !! i) as [x|] eqn:Ex; [|apply lookup_ge_None in Ex; lia]. eapply goes_same; [|intros _; apply IH; lia].
  unfold cap_set_flag_one. go; try done.
  - apply in_words_valid; [by destruct H|]. unfold valid_cap. lia.
  - intros c' Hc. by apply u_wf_raise.
  - intros c' Hc. by apply u_wf_lower.
Qed.
Lemma goes_set_flag E h p s n l r : unlocked h p -> n <= Z.of_nat (List.length l) -> goes E h (cap_set_flag (K := K) p s n l r) (fun _ h' => h' = h).
Proof.
  intros Hu Hn. unfold cap_set_flag. go; try done. eapply goes_same; [eapply goes_set_flag_loop; [eassumption|lia]|intros _]. by go.
Qed.
Lemma goes_clear E h p : unlocked h p -> goes E h (cap_clear (K := K) p) (fun _ h' => h' = h).
Proof.
  intros Hu. unfold cap_clear. go; try done. intros c [Hl _]. split; [cbn; by rewrite length_replicate|].
  cbn. apply Forall_replicate. by split_and!.
Qed.
Lemma goes_clear_flag E h p f : unlocked h p -> goes E h (cap_clear_flag (K := K) p f) (fun _ h' => h' = h).
Proof. intros Hu. unfold cap_clear_flag. go; try done. intros c Hc. by apply u_wf_fill. Qed.
Lemma goes_compare E h a b : unlocked h a -> unlocked h b -> goes E h (cap_compare (K := K) a b) (fun _ h' => h' = h).
Proof.
  intros Ha Hb. unfold cap_compare. go; try done. eapply goes_make; [by apply goes_cap_dup|by go|]. intros q Hne Hq Hn. rewrite Hq. by go.
Qed.
Lemma goes_fill_flag E h p to ref from : unlocked h p -> unlocked h ref -> goes E h (cap_fill_flag (K := K) p to ref from) (fun _ h' => h' = h).
Proof.
  intros Hp Hr. unfold cap_fill_flag. go; try done. eapply goes_make; [by apply goes_cap_dup|by go|]. intros q Hne Hq Hn. rewrite Hq. go; [|done].
  intros c' Hc. apply u_wf_fill; [done|]. intros i. by apply blk_wf_flat, u_blk_wf.
Qed.
#[local] Hint Resolve goes_clear goes_clear_flag goes_compare goes_fill_flag : goes.

(** ** IAB tuples *)

Lemma in_words_bit (t : cap_iab_s) b : iab_wf t -> 0 <= b <= last_cap -> in_words (iab_i t) b = true.
Proof.
  intros ((Hl & _) & _) Hb. apply in_words_valid; [done|]. unfold valid_cap. pose proof last_cap_63. change CAP_MAXBITS with 64. lia.
Qed.
Lemma goes_iab_get_vector E h p v b : unlocked h p -> goes E h (cap_iab_get_vector (K := K) p v b) (fun _ h' => h' = h).
Proof. intros Hu. unfold cap_iab_get_vector. go; try done. apply in_words_bit; [done|lia]. Qed.
Lemma set_vector_mutex vec o x raised t t' : set_vector_words vec o x raised t = Some t' -> iab_mutex t' = iab_mutex t.
Proof. unfold set_vector_words. repeat case_match; by intros [= <-]. Qed.
Lemma goes_iab_set_vector E h p v b r : unlocked h p -> goes E h (cap_iab_set_vector (K := K) p v b r) (fun _ h' => h' = h).
Proof.
  intros Hu. unfold cap_iab_set_vector. go; try done.
  - apply in_words_bit; [done|lia].
  - eapply goes_assign_iab; [eassumption| |by go]. intros t' _ _. split; [by eapply set_vector_wf; [apply is_u32_bit32| |eassumption]|].
    by rewrite (set_vector_mutex _ _ _ _ _ _ Heqo).
Qed.
Lemma fill_vector_mutex vec f u l t t' ok : fill_vector_loop vec f u l t = (t', ok) -> iab_mutex t' = iab_mutex t.
Proof.
  revert t. induction l as [|i l IH]; intros t; [by intros [= <- <-]|]. cbn [fill_vector_loop].
  destruct (fill_vector_word vec i (flat (u_blk u i) f) t) as [t1|] eqn:E; [|by intros [= <- <-]]. intros H%IH. rewrite H. revert E.
  unfold fill_vector_word. repeat case_match; by intros [= <-].
Qed.
Lemma goes_iab_fill E h p v c f : unlocked h p -> unlocked h c -> goes E h (cap_iab_fill (K := K) p v c f) (fun _ h' => h' = h).
Proof.
  intros Hp Hc. unfold cap_iab_fill. go; try done. eapply goes_make; [by apply goes_cap_dup|by go|]. intros q Hne Hq Hn. rewrite Hq. go.
  eapply goes_assign_iab; [eassumption| |by go]. intros t' _ _. split; [by eapply fill_vector_wf; [| |eassumption]|].
  by rewrite (fill_vector_mutex _ _ _ _ _ _ _ Heqp0).
Qed.
Lemma goes_iab_compare E h a b : unlocked h a -> unlocked h b -> goes E h (cap_iab_compare (K := K) a b) (fun _ h' => h' = h).
Proof.
  intros Ha Hb. unfold cap_iab_compare. go; try done. eapply goes_make; [by apply goes_iab_dup|by go|]. intros q Hne Hq Hn. rewrite Hq. by go.
Qed.

(** ** Processes *)

Lemma goes_get_proc E h : goes E h (cap_get_proc (K := K)) (made (KCap false) h).
Proof.
  unfold cap_get_proc. eapply goes_make; [apply goes_cap_init|go; apply made_0|]. intros p Hne Hb Hn. rewrite Hb. cbn [negb].
  eapply goes_same; [by eapply goes_capget; shape_lookup|intros r]. go; [apply made_0|by apply made_new].
Qed.
Lemma goes_set_proc E h sc p : unlocked h p -> goes E h (cap_set_proc_sc (K := K) sc p) (fun _ h' => h' = h).
Proof. intros Hu. unfold cap_set_proc_sc. by go. Qed.
Lemma goes_capgetp E h pid p : unlocked h p -> goes E h (capgetp (K := K) pid p) (fun _ h' => h' = h).
Proof.
  intros Hu. unfold capgetp. go; try done. eapply goes_same; [by eapply goes_capget|intros e]. by go.
Qed.
Lemma goes_get_pid E h pid : goes E h (cap_get_pid (K := K) pid) (made (KCap false) h).
Proof.
  unfold cap_get_pid, get_errno. eapply goes_make; [apply goes_cap_init|go; apply made_0|]. intros p Hne Hb Hn. rewrite Hb. cbn [negb].
  eapply goes_same; [apply goes_capgetp; eauto with goes|intros r]. go; [apply made_0|by apply made_new].
Qed.
Lemma goes_capsetp E h pid p : unlocked h p -> goes E h (capsetp (K := K) pid p) (fun _ h' => h' = h).
Proof. intros Hu. unfold capsetp, capset. by go. Qed.
#[local] Hint Resolve goes_set_proc : goes.

Lemma steady_drop_bounds sc : steady (drop_bound_loop (K := K) probe_fuel sc 0) (fun _ => True).
Proof. apply steady_drop_bound_loop, enough_probe. Qed.
Lemma steady_mode_ambient s e : steady (get_mode_ambient_loop (K := K) probe_fuel s e 0) (fun _ => True).
Proof. apply steady_get_mode_ambient, enough_probe. Qed.
Lemma steady_mode_bound : steady (get_mode_bound_loop (K := K) probe_fuel 0) (fun _ => True).
Proof. apply steady_get_mode_bound, enough_probe. Qed.
Lemma steady_get_secbits : steady (cap_get_secbits (K := K)) (fun _ => True).
Proof. intros E h. unfold cap_get_secbits, prctl. by go. Qed.
#[local] Hint Resolve steady_drop_bounds steady_mode_ambient steady_mode_bound steady_get_secbits : goes.

Lemma goes_pure1e E h sc f p : unlocked h p -> goes E h (set_mode_pure1e (K := K) sc f p) (fun _ h' => h' = h).
Proof. intros Hu. unfold set_mode_pure1e, CAP_AMBIENT_SUPPORTED, cap_set_secbits_sc, cap_set_no_new_privs. by go. Qed.
#[local] Hint Resolve goes_pure1e : goes.
Lemma goes_mode_switch E h sc f p : unlocked h p -> goes E h (set_mode_switch (K := K) sc f p) (fun _ h' => h' = h).
Proof. intros Hu. unfold set_mode_switch, cap_set_secbits_sc. by go. Qed.
#[local] Hint Resolve goes_mode_switch : goes.
Lemma goes_raise E h p s x r : unlocked h p -> goes E h (cap_set_flag (K := K) p s 1 [x] r) (fun _ h' => h' = h).
Proof. intros Hu. by apply goes_set_flag. Qed.
#[local] Hint Resolve goes_raise : goes.
Lemma goes_set_mode E h sc f : goes E h (cap_set_mode_sc (K := K) sc f) (fun _ h' => h' = h).
Proof.
  unfold cap_set_mode_sc, raise_cap_setpcap. eapply goes_make; [apply goes_get_proc|by go|]. intros p Hne Hb Hn. rewrite Hb. by go.
Qed.
Lemma goes_get_mode E h : goes E h (cap_get_mode (K := K)) (fun _ h' => h' = h).
Proof.
  unfold cap_get_mode, get_errno. go; try done. eapply goes_make; [apply goes_get_proc| |].
  - eapply goes_make; [apply goes_cap_init|by go|]. intros p Hne Hb Hn. go; try done.
  - intros p Hne Hb Hn. eapply goes_make; [apply goes_cap_init| |].
    + rewrite Hb. by go.
    + intros q Hne' Hb' Hn'. rewrite Hb, Hb'. by go.
Qed.

Lemma goes_drop_working E h sc p : h !! p = Some (KCap false) -> goes E h (drop_working (K := K) sc p) (fun _ h' => h' = delete p h).
Proof. intros Hp. unfold drop_working. by go. Qed.
Lemma steady_fix_errno r : steady (fix_errno (K := K) r) (fun _ => True).
Proof. intros E h. unfold fix_errno. by go. Qed.
#[local] Hint Resolve steady_fix_errno : goes.
(** The functions that work with a copy of the process's set, which they release. *)
Lemma goes_working {B} E h sc p (f : unit -> M K B) Q : h !! p = None -> goes E h (f tt) Q ->
  goes E (<[p := KCap false]> h) (drop_working (K := K) sc p ≫= f) Q.
Proof.
  intros Hn Hf. eapply goes_bind; [apply goes_drop_working, lookup_insert_eq|]. intros [] h' ->. by rewrite delete_insert_id.
Qed.
Lemma goes_setuid E h sc uid : goes E h (cap_setuid_sc (K := K) sc uid) (fun _ h' => h' = h).
Proof.
  unfold cap_setuid_sc, overrode_syscalls, get_errno, raise_cap_setuid. eapply goes_make; [apply goes_get_proc|by go|].
  intros p Hne Hb Hn. rewrite Hb. go; (apply goes_working; [done|by go]).
Qed.
Lemma goes_setgroups E h sc gid n l : goes E h (cap_setgroups_sc (K := K) sc gid n l) (fun _ h' => h' = h).
Proof.
  unfold cap_setgroups_sc, overrode_syscalls, get_errno, raise_cap_setgid. eapply goes_make; [apply goes_get_proc|by go|].
  intros p Hne Hb Hn. rewrite Hb. go; (apply goes_working; [done|by go]).
Qed.

(** *** IAB tuples of processes *)

Lemma goes_iab_get_loop E h p l : h !! p = Some (KIab false) -> goes E h (iab_get_loop (K := K) p l) (fun _ h' => h' = h).
Proof.
  intros Hp. induction l as [|c l IH]; cbn [iab_get_loop]; [by apply goes_ret|].
  assert (forall b f, (forall t, iab_wf t -> iab_wf (f t)) -> (forall t, iab_mutex (f t) = iab_mutex t) ->
    goes E h (if b : bool then modify_iab (K := K) p f else mret tt) (fun _ h' => h' = h)) as Hif.
  { intros [] f Hf Hm; [|by apply goes_ret]. eapply goes_assign_iab_last; [exact Hp|]. intros t Ht <-. split; [by apply Hf|apply Hm]. }
  eapply goes_then; [apply any_get_bound|intros b _]. eapply goes_same; [apply Hif; [|by intros []]|intros _].
  { intros t (Hi & Ha & Hn). split_and!; cbn; try done. apply or_words_wf; [done|apply is_u32_bit32]. }
  eapply goes_then; [apply any_get_ambient|intros a _]. eapply goes_same; [apply Hif; [|by intros []]|intros _; exact IH].
  intros t (Hi & Ha & Hn). split_and!; cbn; try done. apply or_words_wf; [done|apply is_u32_bit32].
Qed.
Lemma goes_iab_get_proc E h : goes E h (cap_iab_get_proc (K := K)) (made (KIab false) h).
Proof.
  unfold cap_iab_get_proc. eapply goes_make; [apply goes_iab_init|go; apply made_0|]. intros p Hne Hb Hn. rewrite Hb.
  eapply goes_make; [apply goes_get_proc|go; apply made_0|]. intros q Hne' Hb' Hn'. rewrite Hb'.
  eapply goes_same; [apply goes_iab_fill; eauto with goes|intros _]. go.
  eapply goes_same; [eapply goes_iab_get_loop; shape_lookup|intros _]. go. by apply made_new.
Qed.

Lemma steady_check_bound t l : steady (check_bound_loop (K := K) t l) (fun _ => True).
Proof. induction l as [|c l IH]; intros E h; cbn [check_bound_loop]; by go. Qed.
Lemma steady_iab_set_loop sc t b l : steady (iab_set_loop (K := K) sc t b l) (fun _ => True).
Proof. induction l as [|c l IH]; intros E h; cbn [iab_set_loop]; by go. Qed.
#[local] Hint Resolve steady_check_bound steady_iab_set_loop : goes.
Lemma goes_iab_set_proc_sc E h sc p b : h !! p = Some (KIab b) -> goes E h (cap_iab_set_proc_sc (K := K) sc p) (fun _ h' => h' = h).
Proof.
  intros Hp. unfold cap_iab_set_proc_sc, cap_set_proc, raise_cap_setpcap. eapply goes_make; [apply goes_get_proc|by go|].
  intros q Hne Hb Hn. rewrite Hb. go.
  { intros c' Hc. apply u_wf_fill; [done|]. intros i. apply word_wf. by destruct H. }
  all: (eapply goes_make; [apply goes_cap_dup; eauto with goes|by go|]); intros r Hne' Hb' Hn'; rewrite Hb'; by go.
Qed.
Lemma goes_iab_set_proc E h p : unlocked h p -> goes E h (cap_iab_set_proc (K := K) p) (fun _ h' => h' = h).
Proof.
  intros Hu. unfold cap_iab_set_proc. go; try done. eapply goes_same; [by eapply goes_iab_set_proc_sc|intros r]. by go.
Qed.

(** ** External form *)

Lemma goes_size E h p : unlocked h p -> goes E h (cap_size (K := K) p) (fun _ h' => h' = h).
Proof. intros Hu. unfold cap_size. by go. Qed.
Lemma goes_copy_ext E h b p n : unlocked h p -> match b with Some buf => n <= Z.of_nat (List.length buf) | None => True end ->
  goes E h (cap_copy_ext (K := K) b p n) (fun _ h' => h' = h).
Proof.
  intros Hu Hn. unfold cap_copy_ext. destruct b as [buf|]; [|by go]. go; try done. exfalso.
  rewrite cap_size_locked_29 in *. assert (u_wf (c_u c)) as Hc by done.
  change (Z.quot (29 - (CAP_EXT_MAGIC_SIZE + 1)) NUMBER_OF_CAP_SETS) with 8 in *. rewrite fill_ext_run in Heqo by (done || lia). done.
Qed.
(** The buffer holds the magic's bytes, and what the header announces. *)
Definition readable (e : list Z) : Prop :=
  Forall is_byte e /\ (4 <= List.length e)%nat /\ (take 4 e = external_magic -> exists blen, e !! 4%nat = Some blen /\ ext_complete e blen).
Lemma goes_copy_int E h e : match e with Some e => readable e | None => True end -> goes E h (cap_copy_int (K := K) e) (made (KCap false) h).
Proof.
  intros He. unfold cap_copy_int. destruct e as [e|]; [|go; apply made_0]. destruct He as (Hb & Hl & He). go.
  { change CAP_EXT_MAGIC_SIZE with 4. lia. }
  { apply made_0. }
  eapply goes_make; [apply goes_cap_init|go; apply made_0|]. intros p Hne Hp Hn. rewrite Hp.
  apply negb_false_iff, bool_decide_eq_true in Heqb. destruct (He Heqb) as (blen & Hx & Hc). change (Z.to_nat CAP_EXT_MAGIC_SIZE) with 4%nat. rewrite Hx. go.
  - intros c' _. destruct (u_wf_inv _ H) as (b0 & b1 & Eu & _). rewrite Eu, import_u_run in Heqo by done. injection Heqo as <-. by apply imported_wf.
  - by apply made_new.
  - destruct (u_wf_inv _ H) as (b0 & b1 & Eu & _). by rewrite Eu, import_u_run in Heqo.
Qed.
Lemma goes_copy_int_check E h e n : match e with Some e => Forall is_byte e /\ n <= Z.of_nat (List.length e) | None => n < 5 end ->
  goes E h (cap_copy_int_check (K := K) e n) (made (KCap false) h).
Proof.
  intros He. unfold cap_copy_int_check. change CAP_EXT_MAGIC_SIZE with 4. change NUMBER_OF_CAP_SETS with 3. change (Z.to_nat 4) with 4%nat.
  destruct (Z.ltb_spec n (1 + 4)); [go; apply made_0|]. destruct e as [e|]; [|lia]. destruct He as [Hb Hn].
  destruct (e !! 4%nat) as [blen|] eqn:Ex; [|apply lookup_ge_None in Ex; lia].
  pose proof (Forall_lookup_1 _ _ _ _ Hb Ex) as Hbb. unfold is_byte in Hbb. destruct (Z.ltb_spec n (1 + 4 + blen * 3)); [go; apply made_0|].
  apply goes_copy_int. split; [done|]. split; [lia|]. intros _. exists blen. split; [done|]. split; [done|]. split; [lia|].
  intros i set Hi Hs. apply lookup_lt_is_Some_2. unfold ext_offset, valid_set, CAP_EXT_MAGIC_SIZE, NUMBER_OF_CAP_SETS in *. lia.
Qed.

(** ** Text *)

(** A new object whose words matter. *)
Lemma goes_new_iab {B} E h (f : Z -> M K B) Q : goes E h (f 0) Q ->
  (forall p w, (p =? 0) = false -> p <> 0 -> h !! p = None -> fit (<[p := KIab false]> h) w -> heap w !! p = Some (OIab iab0) -> runs E w (f p) Q) ->
  goes E h (cap_iab_init ≫= f) Q.
Proof.
  intros H0 Hp w Hw. pose proof Hw as (Hww & _ & Hs). unfold cap_iab_init, runs. destruct (hd true (mem w)) eqn:Em.
  - rewrite (bind_ok _ _ _ _ _ (alloc_run _ _ Em)). pose proof (wf_next_ne_0 _ Hww) as Hne. pose proof (goes_iab_init E h w Hw) as Hi.
    unfold runs, cap_iab_init in Hi. rewrite (alloc_run _ _ Em) in Hi. destruct Hi as (h' & Hf & [[? _]|(_ & Hn & ->)]); [done|].
    apply Hp; [by apply Z.eqb_neq|done|done|done|]. apply lookup_insert_eq.
  - rewrite (bind_ok _ _ _ _ _ (alloc_oom _ _ Em)). apply H0. by apply (fit_beside h w).
Qed.
Lemma goes_new_cap {B} E h (f : Z -> M K B) Q : goes E h (f 0) Q ->
  (forall p w, (p =? 0) = false -> p <> 0 -> h !! p = None -> fit (<[p := KCap false]> h) w -> heap w !! p = Some (OCap cap_blank) -> runs E w (f p) Q) ->
  goes E h (cap_init ≫= f) Q.
Proof.
  intros H0 Hp w Hw. pose proof Hw as (Hww & _ & Hs). unfold runs. pose proof (wf_next_ne_0 _ Hww) as Hne. destruct (hd true (mem w)) eqn:Em.
  - pose proof (cap_init_run w Hne Em (law_probe _)) as Hr. rewrite (bind_ok _ _ _ _ _ Hr).
    pose proof (goes_cap_init E h w Hw) as Hi. unfold runs in Hi. rewrite Hr in Hi. destruct Hi as (h' & Hf & [[? _]|(_ & Hn & ->)]); [done|].
    apply Hp; [by apply Z.eqb_neq|done|done|done|]. apply lookup_insert_eq.
  - rewrite (bind_ok _ _ _ _ _ (cap_init_oom _ Em)). apply H0. by apply (fit_beside h w).
Qed.

Section text.
Variable gperf : option (string -> option Z).
Hypothesis Hgperf : gperf_ok gperf.
Implicit Types (buf : string).

Lemma bits_range : 1 <= last_cap + 1 <= CAP_MAXBITS.
Proof. pose proof last_cap_63. change CAP_MAXBITS with 64. lia. Qed.
Lemma goes_from_text E h t : goes E h (cap_from_text (K := K) gperf t) (made (KCap false) h).
Proof.
  unfold cap_from_text. destruct t as [t|]; [|go; apply made_0]. apply goes_new_cap; [go; apply made_0|].
  intros p w Hb Hne Hn Hw Hp. rewrite Hb. unfold runs, cap_max_bits. rewrite (bind_ok _ _ _ _ _ (load_cap_run _ _ _ Hp)).
  change (version_blks (c_version cap_blank)) with (Some 2%nat). cbv iota. rewrite (bind_ok _ _ _ _ _ (gets_run _ _)).
  change (runs E w (match parse_text gperf (g_max_bits (glob w)) 2 t [blk0; blk0] with
    PSpin => spin | PGood u => modify_cap p (with_u (fun _ => u));; mret p | PBad => _ ← cap_free p; set_errno EINVAL;; mret 0 end) (made (KCap false) h)).
  assert (g_max_bits (glob w) = last_cap + 1) as Hc by (destruct Hw as (_ & [Hc _] & _); exact Hc).
  pose proof (parse_text_total gperf Hgperf (g_max_bits (glob w)) ltac:(rewrite Hc; apply bits_range) t [blk0; blk0] u_wf_blank) as H.
  destruct (parse_text _ _ _ _ _) as [u| |]; [| |done]; apply (runs_goes _ _ _ _ _ Hw); go; try apply made_0; by apply made_new.
Qed.
Lemma steady_from_name s b : steady (cap_from_name (K := K) gperf s b) (fun _ => True).
Proof. intros E h. unfold cap_from_name. by go. Qed.
Lemma goes_to_name E h c : goes E h (cap_to_name (K := K) c) (made KStr h).
Proof.
  unfold cap_to_name. go; [apply goes_strdup|eapply goes_weaken; [apply goes_strdup|done]|apply made_0].
Qed.
Lemma goes_iab_from_text E h t : goes E h (cap_iab_from_text (K := K) gperf t) (made (KIab false) h).
Proof.
  unfold cap_iab_from_text. apply goes_new_iab; [go; apply made_0|]. intros p w Hb Hne Hn Hw Hp. rewrite Hb.
  destruct t as [t|]; [|eexists; split; [exact Hw|by apply made_new]]. unfold runs, cap_max_bits.
  rewrite (bind_ok _ _ _ _ _ (gets_run _ _)), (bind_ok _ _ _ _ _ (load_iab_run _ _ _ Hp)).
  pose proof (iab_text_total gperf (S (String.length t)) (g_max_bits (glob w)) 0 t iab0 false Hgperf ltac:(lia) ltac:(done) (proj1 iab0_good)) as H.
  destruct (iab_text_loop _ _ _ _ _ _) as [t'| |]; [| |done]; apply (runs_goes _ _ _ _ _ Hw).
  - eapply goes_assign_iab; [apply lookup_insert_eq| |go; by apply made_new]. intros _ _ _. by destruct H as (? & _ & ?).
  - go. apply made_0.
Qed.
End text.

(** *** Printing: each part is written after a test that there is room for it *)

Lemma steady_put buf s : strlen buf + strlen s + 1 <= CAP_TEXT_SIZE + CAP_TEXT_BUFFER_ZONE -> steady (put (K := K) buf s) (fun r => r = buf ++ s)%string.
Proof. intros Hl E h. unfold put. go; [lia|]. by split. Qed.

Lemma goes_names_loop E h p b t l buf : h !! p = Some (KCap b) -> strlen buf <= CAP_TEXT_SIZE + 1 ->
  goes E h (names_loop (K := K) p t l buf) (fun r h' => h' = h /\ forall buf', r = Some buf' -> strlen buf' <= CAP_TEXT_SIZE + 1).
Proof.
  intros Hp. revert buf. induction l as [|n l IH]; intros buf Hb; cbn [names_loop].
  { apply goes_ret. split; [done|]. by intros ? [= <-]. }
  go; [|by apply IH]. eapply goes_make; [apply goes_to_name|by go|]. intros q Hne Hq Hn. rewrite Hq.
  eapply goes_bind; [apply goes_load_str, lookup_insert_eq|]. intros s h' ->. destruct (Z.ltb_spec CAP_TEXT_SIZE (strlen s + strlen buf)) as [Hl|Hl].
  { by go. }
  assert (strlen (s ++ ",") = strlen s + 1) as Hs by apply strlen_app.
  eapply goes_then; [apply steady_put; rewrite Hs; change CAP_TEXT_BUFFER_ZONE with 100; lia|]. intros buf' ->. go.
  apply IH. rewrite strlen_app, Hs. lia.
Qed.

Lemma strlen_drop_last s : strlen (drop_last s) <= strlen s.
Proof. unfold drop_last, strlen. rewrite substring_length. lia. Qed.
Lemma letters_len f : strlen (letters f) <= 3.
Proof. unfold letters. by destruct (has_flag f LIBCAP_EFF), (has_flag f LIBCAP_INH), (has_flag f LIBCAP_PER). Qed.
Lemma group_ops_len m t first : strlen (group_ops m t first).1 <= 8.
Proof.
  unfold group_ops. pose proof (letters_len (Z.ldiff t m)). pose proof (letters_len (Z.ldiff m t)).
  destruct (negb (Z.ldiff t m =? 0)), first, (negb (Z.ldiff m t =? 0)); cbn [fst]; rewrite ?strlen_app; unfold strlen in *; cbn [String.length] in *; lia.
Qed.
Lemma goes_groups_loop E h p b m cmb hs l buf base : h !! p = Some (KCap b) -> strlen buf <= CAP_TEXT_SIZE ->
  goes E h (groups_loop (K := K) p m cmb hs l buf base) (fun r h' => h' = h /\ forall buf' base', r = Some (buf', base') -> strlen buf' <= CAP_TEXT_SIZE).
Proof.
  intros Hp. revert buf base. induction l as [|t l IH]; intros buf base Hb; cbn [groups_loop].
  { apply goes_ret. split; [done|]. by intros ? ? [= <- <-]. }
  destruct ((t =? m) || _); [by apply IH|]. change CAP_TEXT_SIZE with 1472 in *.
  eapply goes_then; [apply steady_put; change (strlen " ") with 1; change CAP_TEXT_BUFFER_ZONE with 100; change CAP_TEXT_SIZE with 1472; lia|]. intros buf1 ->.
  eapply goes_bind; [eapply goes_names_loop; [exact Hp|]; rewrite strlen_app; change (strlen " ") with 1; change CAP_TEXT_SIZE with 1472; lia|].
  intros [buf2|] h' [-> H2]; [|by go]. specialize (H2 _ eq_refl). change CAP_TEXT_SIZE with 1472 in H2. pose proof (strlen_drop_last buf2).
  pose proof (group_ops_len m t (bare_default base (drop_last buf2))) as Ho. destruct (group_ops _ _ _) as [ops dropped]. cbn [fst] in Ho.
  eapply goes_then; [apply steady_put; change CAP_TEXT_BUFFER_ZONE with 100; change CAP_TEXT_SIZE with 1472; lia|]. intros buf3 ->.
  destruct (Z.ltb_spec 1472 (strlen (drop_last buf2 ++ ops)))%string; [by go|]. by apply IH.
Qed.
Lemma goes_unnamed_loop E h p b cmb hs l buf : h !! p = Some (KCap b) -> strlen buf <= CAP_TEXT_SIZE ->
  goes E h (unnamed_loop (K := K) p cmb hs l buf) (fun r h' => h' = h).
Proof.
  intros Hp. revert buf. induction l as [|t l IH]; intros buf Hb; cbn [unnamed_loop]; [by apply goes_ret|].
  destruct (histo hs t =? 0); [by apply IH|]. change CAP_TEXT_SIZE with 1472 in *.
  eapply goes_then; [apply steady_put; change (strlen " ") with 1; change CAP_TEXT_BUFFER_ZONE with 100; change CAP_TEXT_SIZE with 1472; lia|]. intros buf1 ->.
  eapply goes_bind; [eapply goes_names_loop; [exact Hp|]; rewrite strlen_app; change (strlen " ") with 1; change CAP_TEXT_SIZE with 1472; lia|].
  intros [buf2|] h' [-> H2]; [|by go]. specialize (H2 _ eq_refl). change CAP_TEXT_SIZE with 1472 in H2. pose proof (strlen_drop_last buf2).
  pose proof (letters_len t). assert (strlen ("+" ++ letters t) = 1 + strlen (letters t))%string as Hs by apply strlen_app.
  eapply goes_then; [apply steady_put; rewrite Hs; change CAP_TEXT_BUFFER_ZONE with 100; change CAP_TEXT_SIZE with 1472; lia|]. intros buf3 ->.
  destruct (Z.ltb_spec 1472 (strlen (drop_last buf2 ++ "+" ++ letters t)))%string; [by go|]. by apply IH.
Qed.
Lemma goes_to_text E h p want : unlocked h p -> goes E h (cap_to_text (K := K) p want) (fun r h' => made KStr h r.1 h').
Proof.
  intros Hu. unfold cap_to_text, no_text. go; [|apply made_0]. pose proof (letters_len (common_state (histogram (c_u c) (seqZ 0 a)))) as Hl.
  assert (forall f, strlen ("=" ++ letters f) = 1 + strlen (letters f))%string as Hs by (intros f; apply strlen_app).
  eapply goes_then; [apply steady_put; rewrite Hs; change (strlen "") with 0; change CAP_TEXT_BUFFER_ZONE with 100; change CAP_TEXT_SIZE with 1472; lia|]. intros buf ->.
  eapply goes_bind; [eapply goes_groups_loop; [eassumption|]; change (String.append "" ?x) with x; rewrite Hs; change CAP_TEXT_SIZE with 1472; lia|].
  intros [[buf1 base]|] h' [-> H1']; [|go; apply made_0]. eapply goes_same; [eapply goes_unnamed_loop; [eassumption|by eapply H1']|].
  intros [buf2|]; [|go; apply made_0]. eapply goes_bind; [apply goes_strdup|]. intros q h' Hq. by apply goes_ret.
Qed.
Lemma goes_iab_to_text E h p : unlocked h p -> goes E h (cap_iab_to_text (K := K) p) (made KStr h).
Proof.
  intros Hu. unfold cap_iab_to_text. go; [|eapply goes_weaken; [apply goes_strdup|done]].
  assert (steady (iab_to_text_loop (K := K) t (seqZ 0 a) true "") (fun _ => True)) as Hloop.
  { apply steady_beside. intros w. rewrite iab_to_text_loop_run; [by eexists _, _| |].
    - apply Forall_forall. intros x. rewrite elem_of_seqZ. unfold valid_cap. pose proof bits_range. lia.
    - pose proof bits_range. pose proof (pieces_fit a ltac:(lia)). change (strlen "") with 0. change CAP_TEXT_BUFFER_ZONE with 100. change CAP_TEXT_SIZE with 1472. lia. }
  eapply goes_then; [exact Hloop|]. intros buf _. go. eapply goes_weaken; [apply goes_strdup|done].
Qed.
End calls.

Ltac go_drop ::=
  first [apply goes_free_0; intros ?
        |eapply goes_drop; [solve [shape_lookup]|exact eq_refl || exact I|intros ?; rewrite ?delete_insert_id by assumption]].
#[export] Hint Resolve steady_libc_syscall steady_sc_call steady_wprctl6 steady_wprctl3 steady_capset steady_drop_bound steady_set_ambient
  any_get_bound any_get_ambient steady_reset_ambient steady_fix_errno goes_set_proc goes_raise goes_get_flag goes_set_flag goes_clear goes_clear_flag goes_compare goes_fill_flag : goes.
