(* ===== verification/ProgressApi.v ===== *)
(** Total correctness of the operations on files, on /proc and of the launchers: a
    lemma per operation in the judgement of Progress.v. A child of cap_launch() may
    end the program, which is its end and not that of the caller. *)

From Stdlib Require Import ZArith Lia String Ascii.
From stdpp Require Import gmap list sets.
From S2P Require Import Prelude Capability World Exec Syscall Alloc Flag FlagSpec IabSpec ExtInt File FileSpec Proc ProcSpec Text TextLex.
From S2P Require Import TextSpec TextParse TextPrint TextToText TextRound KernelLaws IabProcSpec IabText ModeSpec Launch LaunchSpec ApiSpec Progress.

Open Scope Z_scope.

(** Equal shapes, by looking at every address. *)
Ltac shapes :=
  lazymatch goal with
  | |- _ !! _ = _ => idtac
  | |- _ = _ => apply map_eq; intros ?
  end; rewrite ?lookup_insert, ?lookup_delete; repeat case_decide; subst; first [tauto|congruence|intuition congruence].

Section services.
Context {K : Type} `{!Kernel K, !FileSys K, !Process K, !ProcFs K, !KernelLaws K, !WordLaws K, !ByteLaws K, !ProcessLaws K, D : !ProcDir}.
Implicit Types (w : world K) (p : Z) (h : shape).

(** ** Files *)

Lemma steady_getxattr f raw : Forall is_byte raw -> steady (sys_getxattr (K := K) f raw) (fun r => Forall is_byte r.2).
Proof.
  intros Hraw. apply steady_beside. intros w. unfold sys_getxattr. pose proof (law_getxattr_bytes (kst w) f SIZEOF_RAWVFSCAP) as Hb.
  destruct (fs_getxattr (kst w) f SIZEOF_RAWVFSCAP) as [n v]. unfold libc_ret, mbind, M_bind. cbn [snd] in Hb.
  destruct (Z.ltb_spec n 0); (eexists _, _; split; [reflexivity|]); (split; [|done]).
  - done.
  - cbn. destruct (n <? 0); [done|]. apply Forall_app. split; [done|by apply Forall_drop].
Qed.
Lemma goes_fcaps_load E h p raw n : h !! p = None -> p <> 0 -> Forall is_byte raw ->
  goes E (<[p := KCap false]> h) (fcaps_load (K := K) raw p n) (made (KCap false) h).
Proof.
  intros Hn Hne Hraw. unfold fcaps_load. go; try apply made_0; try (by apply made_new); try (by intros c); intros c Hc; by apply load_u_wf.
Qed.
Lemma goes_get_ref E h stack f : Forall is_byte stack -> goes E h (cap_get_ref (K := K) stack f) (made (KCap false) h).
Proof.
  intros Hs. unfold cap_get_ref. eapply goes_make; [apply goes_cap_init|go; apply made_0|]. intros p Hne Hb Hn. rewrite Hb. cbn [negb].
  eapply goes_then; [by apply steady_getxattr|]. intros [n raw] Hraw. go; [apply made_0|]. by eapply goes_weaken; [apply goes_fcaps_load|].
Qed.
Lemma steady_open path o : steady (sys_open (K := K) path o) (fun _ => True).
Proof. apply steady_beside. intros w. unfold sys_open, libc_ret. destruct (fs_open _ _ _) as [r k]. destruct (r <? 0); by eexists _, _. Qed.
Lemma steady_close fd : steady (sys_close (K := K) fd) (fun _ => True).
Proof. apply steady_beside. intros w. by eexists _, _. Qed.
Lemma steady_fstat fd : steady (sys_fstat (K := K) fd) (fun _ => True).
Proof.
  apply steady_beside. intros w. unfold sys_fstat, libc_ret. destruct (fs_fstat _ _) as [r m]. unfold mbind, M_bind. destruct (r <? 0); by eexists _, _.
Qed.
Lemma steady_setxattr f v : steady (sys_setxattr (K := K) f v) (fun _ => True).
Proof. apply steady_beside. intros w. unfold sys_setxattr, libc_ret. destruct (fs_setxattr _ _ _) as [r k]. destruct (r <? 0); by eexists _, _. Qed.
Lemma steady_removexattr f : steady (sys_removexattr (K := K) f) (fun _ => True).
Proof. apply steady_beside. intros w. unfold sys_removexattr, libc_ret. destruct (fs_removexattr _ _) as [r k]. destruct (r <? 0); by eexists _, _. Qed.
#[local] Hint Resolve steady_open steady_close steady_fstat steady_setxattr steady_removexattr : goes.
Lemma goes_fcaps_save E h raw p : unlocked h p -> goes E h (fcaps_save (K := K) raw p) (fun _ h' => h' = h).
Proof. intros Hu. unfold fcaps_save. by go. Qed.
#[local] Hint Resolve goes_fcaps_save : goes.
Lemma goes_put_caps E h stack f p : unlocked h p -> goes E h (put_caps (K := K) stack f p) (fun _ h' => h' = h).
Proof. intros Hu. unfold put_caps. by go. Qed.
#[local] Hint Resolve goes_put_caps : goes.
Lemma goes_set_fd E h stack fd p : unlocked h p -> goes E h (cap_set_fd (K := K) stack fd p) (fun _ h' => h' = h).
Proof. intros Hu. unfold cap_set_fd. by go. Qed.
#[local] Hint Resolve goes_set_fd : goes.
Lemma goes_set_file E h stack path p : unlocked h p -> goes E h (cap_set_file (K := K) stack path p) (fun _ h' => h' = h).
Proof. intros Hu. unfold cap_set_file. by go. Qed.
Lemma goes_get_nsowner E h p : unlocked h p -> goes E h (cap_get_nsowner (K := K) p) (fun _ h' => h' = h).
Proof. intros Hu. unfold cap_get_nsowner. by go. Qed.
Lemma goes_set_nsowner E h p r : unlocked h p -> goes E h (cap_set_nsowner (K := K) p r) (fun _ h' => h' = h).
Proof. intros Hu. unfold cap_set_nsowner. go; done. Qed.

(** ** /proc and the syscallers *)

Lemma steady_proc_dir : steady (gets (K := K) (fun w => g_proc_dir (glob w))) (fun d => d = proc_dir).
Proof. intros E h w Hw. exists h. split; [done|]. split; [done|]. by destruct Hw as (_ & [_ Hd] & _). Qed.
Lemma goes_iab_get_pid E h pid : proc_dir = 0 \/ h !! proc_dir = Some KStr -> goes E h (cap_iab_get_pid (K := K) pid) (made (KIab false) h).
Proof.
  intros Hd. unfold cap_iab_get_pid, cap_max_bits. eapply goes_then; [apply steady_proc_dir|intros dir ->].
  eapply goes_same; [|intros root].
  { destruct (Z.eqb_spec proc_dir 0); [by apply goes_ret|]. destruct Hd; [done|]. by apply goes_load_str. }
  go; try apply made_0.
  eapply goes_make; [apply goes_iab_init|go; apply made_0|]. intros p Hne Hb Hn. rewrite Hb. go.
  assert (like_iab t (foldl (fun s line => status_line a1 line s) (t, 0) l).1) as Hl.
  { apply (foldl_keeps (fun s => like_iab t s.1)); [|by split]. intros s line. apply status_line_wf. }
  destruct (foldl _ _ _) as [t' ok]. destruct Hl as [Hwf Hm]. apply goes_bind_bind. eapply goes_assign_iab; [shape_lookup|intros t0 _ _; by rewrite <-H3|].
  go; [apply made_0|by apply made_new].
Qed.
Lemma steady_set_syscall f : steady (cap_set_syscall (K := K) f) (fun _ => True).
Proof. apply steady_beside. intros w. unfold cap_set_syscall. destruct f as [f|]; [by eexists _, _|]. unfold mbind, M_bind, gets. destruct (g_linked_psx (glob w)); by eexists _, _. Qed.

(** The directory is replaced by a new string - or by 0 -, and the old one is the caller's. *)
Lemma proc_root_run h root w : fit h w -> exists (d : Z) h' w',
  cap_proc_root (K := K) root w = (Ok proc_dir, w') /\ @fit K _ _ d h' w' /\ ((d = proc_dir /\ h' = h) \/ made KStr h d h').
Proof.
  intros Hw. pose proof Hw as (_ & [_ Hd] & _). unfold cap_proc_root. rewrite (bind_ok _ _ _ _ _ (gets_run _ _)), Hd.
  destruct root as [root|]; [|exists proc_dir, h, w; split; [done|]; split; [exact Hw|by left]].
  pose proof (goes_strdup (fun _ => False) h (Some root) w Hw) as Hs. destruct (libcap_strdup (Some root) w) as [[d|e| |] w1] eqn:E; try done.
  destruct Hs as (h' & (Hw1 & [Hc1 _] & Hs1) & Hm). exists d, h', (with_glob (set_proc_dir d (glob w1)) w1).
  split; [by rewrite (bind_ok _ _ _ _ _ E)|].
  split; [|by right]. split; [by destruct Hw1|]. by split.
Qed.

(** ** Launchers *)

Definition is_launch (κ : kind) : Prop := match κ with KLaunch _ _ _ => True | _ => False end.
Lemma goes_modify_launch_last E h p κ b i r g : h !! p = Some (KLaunch b i r) ->
  (forall l, kind_of (OLaunch l) = KLaunch b i r -> kind_of (OLaunch (g l)) = κ) ->
  goes E h (modify_launch (K := K) p g) (fun _ h' => h' = <[p := κ]> h).
Proof.
  intros Hp Hg. assert (goes E h (modify_launch p g ≫= mret) (fun _ h' => h' = <[p := κ]> h)) as H by (eapply goes_modify_launch; eauto; by apply goes_ret).
  intros w Hw. specialize (H w Hw). unfold mbind, M_bind in *. by destruct (modify_launch p g w) as [[]].
Qed.
Lemma goes_launcher_set E h p f : unlocked h p -> (forall l, kind_of (OLaunch (f l)) = kind_of (OLaunch l)) ->
  goes E h (launcher_set (K := K) p f) (fun _ h' => h' = h).
Proof.
  intros Hu Hf. unfold launcher_set. go; try done.
  eapply goes_modify_launch; [eassumption|intros l Hl; by rewrite Hf|]. rewrite insert_id by done. by go.
Qed.

(** The tuple of a launcher, changed: the new one is locked, the old one is not any more. *)
Definition with_tuple h p (old iab r : Z) : shape :=
  let h := <[p := KLaunch false iab r]> h in
  let h := if old =? 0 then h else <[old := KIab false]> h in
  if iab =? 0 then h else <[iab := KIab true]> h.
Lemma goes_set_iab E h p iab : unlocked h p ->
  (forall i r, h !! p = Some (KLaunch false i r) -> i = 0 \/ h !! i = Some (KIab true)) ->
  (iab = 0 \/ h !! iab = Some (KIab false)) ->
  goes E h (cap_launcher_set_iab (K := K) p iab) (fun _ h' => h' = h \/ exists i r, h !! p = Some (KLaunch false i r) /\ h' = with_tuple h p i iab r).
Proof.
  intros Hu Hi Hiab. unfold cap_launcher_set_iab. apply goes_good_launch; [done|intros i r Hp Hne|go; by left]. specialize (Hi _ _ Hp). cbn [negb].
  eapply goes_bind; [by eapply goes_mu_lock|]. intros [] h1 ->. cbn [lock_kind].
  eapply goes_load_launch; [apply lookup_insert_eq|]. intros l _ -> _. cbv zeta.
  eapply (goes_modify_launch _ _ _ (KLaunch true iab r)); [apply lookup_insert_eq|intros l' [= H1 H2 H3]; cbn; congruence|]. rewrite insert_insert_eq.
  apply (goes_bind _ _ _ _ (fun _ h' => h' = if i =? 0 then <[p := KLaunch true iab r]> h else <[i := KIab false]> (<[p := KLaunch true iab r]> h))).
  { destruct (Z.eqb_spec i 0); [by apply goes_ret|]. destruct Hi as [?|Hi]; [done|].
    eapply goes_weaken; [apply (goes_mu_unlock _ _ _ (KIab true)); [|done]|done]. rewrite lookup_insert_ne; [done|congruence]. }
  intros [] h1 ->.
  apply (goes_bind _ _ _ _ (fun _ h' => <[p := KLaunch false iab r]> h' = with_tuple h p i iab r /\ h' !! p = Some (KLaunch true iab r))).
  { assert (h !! i = Some (KIab true) -> i <> p) by congruence. assert (h !! iab = Some (KIab false) -> iab <> p) by congruence. unfold with_tuple.
    destruct (Z.eqb_spec iab 0) as [->|Hiab0]; cbn [negb].
    - apply goes_ret. destruct (Z.eqb_spec i 0) as [->|]; [split; shapes|]. destruct Hi as [?|Hi]; [done|]. split; shapes.
    - destruct Hiab as [?|Hiab]; [done|]. eapply goes_weaken; [apply (goes_mu_lock _ _ _ (KIab false)); [|done..]|].
      + destruct (Z.eqb_spec i 0) as [->|]; [shapes|]. destruct Hi as [?|Hi]; [done|]. shapes.
      + intros [] h2 ->. cbn [lock_kind]. destruct (Z.eqb_spec i 0) as [->|]; [split; shapes|]. destruct Hi as [?|Hi]; [done|]. split; shapes. }
  intros [] h2 [E2 H2]. eapply goes_bind; [by eapply goes_mu_unlock|]. intros [] h3 ->. cbn [lock_kind]. go. right. exists i, r. by rewrite E2.
Qed.
(** A launcher is given a root: a new string, the old one is forgotten. *)
Lemma goes_set_chroot E h p root : unlocked h p -> goes E h (cap_launcher_set_chroot (K := K) p root)
  (fun _ h' => h' = h \/ exists i r s h1, h !! p = Some (KLaunch false i r) /\ made KStr h s h1 /\ h' = <[p := KLaunch false i s]> h1).
Proof.
  intros Hu. unfold cap_launcher_set_chroot. apply goes_good_launch; [done|intros i r Hp Hne|go; by left]. cbn [negb].
  eapply goes_bind; [by eapply goes_mu_lock|]. intros [] h1 ->. cbn [lock_kind].
  eapply goes_bind; [apply goes_strdup|]. intros s h2 Hs.
  assert (exists h1, made KStr h s h1 /\ h2 = <[p := KLaunch true i r]> h1) as (h1 & Hs1 & ->).
  { destruct Hs as [[-> ->]|(Hs0 & Hn & ->)]; [exists h; split; [apply made_0|done]|].
    assert (s <> p) by (intros ->; by rewrite lookup_insert_eq in Hn). rewrite lookup_insert_ne in Hn by done.
    exists (<[s := KStr]> h). split; [by apply made_new|]. by apply insert_insert_ne. }
  eapply (goes_modify_launch _ _ _ (KLaunch true i s)); [apply lookup_insert_eq|intros l' [= H1 H2 H3]; cbn; congruence|]. rewrite insert_insert_eq.
  eapply goes_bind; [eapply goes_mu_unlock; [apply lookup_insert_eq|done]|]. intros [] h3 ->. cbn [lock_kind]. rewrite insert_insert_eq. go.
  right. by exists i, r, s, h1.
Qed.

(** *** The child, which may end the program: that is its end *)

Lemma steady_kst (g : K -> K) : steady (modify (K := K) (fun w => with_kst (g (kst w)) w)) (fun _ => True).
Proof. apply steady_beside. intros w. by eexists _, _. Qed.
Lemma steady_kst_ret (g : K -> Z * K) : steady (fun w : world K => let '(r, k) := g (kst w) in libc_ret r (with_kst k w)) (fun _ => True).
Proof. apply steady_beside. intros w. unfold libc_ret. destruct (g (kst w)) as [r k]. destruct (r <? 0); by eexists _, _. Qed.
Lemma steady_close_end fd : steady (close (K := K) fd) (fun _ => True).
Proof. apply (steady_kst (fun k => sys_close_fd k fd)). Qed.
Lemma steady_chdir path : steady (chdir (K := K) path) (fun _ => True).
Proof. apply (steady_kst_ret (fun k => sys_chdir k path)). Qed.
Lemma steady_setup fn detail : steady (call_setup (K := K) fn detail) (fun _ => True).
Proof. apply steady_beside. intros w. unfold call_setup. destruct (user_setup fn detail (kst w)) as [[r e] k]. by eexists _, _. Qed.
#[local] Hint Resolve steady_kst steady_close_end steady_chdir steady_setup : goes.

Lemma goes_chroot E h sc root : goes E h (cap_chroot_sc (K := K) sc root) (fun _ h' => h' = h).
Proof.
  unfold cap_chroot_sc, overrode_syscalls, get_errno, raise_cap_sys_chroot. eapply goes_make; [apply goes_get_proc|by go|].
  intros p Hne Hb Hn. rewrite Hb. go; (apply goes_working; [done|by go]).
Qed.
#[local] Hint Resolve goes_setuid goes_setgroups goes_set_mode goes_chroot : goes.
Lemma goes_launch_steps E h l : parts h (l_iab l) (l_chroot l) -> goes E h (launch_steps (K := K) l) (fun _ h' => h' = h).
Proof.
  intros [Hi Hr]. unfold launch_steps. cbv zeta.
  assert (forall (b : bool) (m : M K Z), (b = true -> goes E h m (fun _ h' => h' = h)) -> goes E h (if b then m else mret 0) (fun _ h' => h' = h)) as Hif
    by (intros [] m Hm; [by apply Hm|by apply goes_ret]).
  assert (forall m (rest : M K bool), goes E h m (fun _ h' => h' = h) -> goes E h rest (fun _ h' => h' = h) ->
    goes E h (r ← (m : M K Z); if negb (r =? 0) then mret true else rest) (fun _ h' => h' = h)) as Hstep.
  { intros m rest Hm Hrest. eapply goes_same; [exact Hm|intros r]. destruct (negb _); [by apply goes_ret|exact Hrest]. }
  do 3 (apply Hstep; [apply Hif; auto with goes|]). apply Hstep; [apply Hif; intros Hb|].
  - destruct Hi as [Hi|(κ & Hi & b & ->)]; [by rewrite Hi in Hb|]. by eapply goes_iab_set_proc_sc.
  - eapply goes_same; [apply Hif; intros Hb|intros r; by apply goes_ret]. destruct Hr as [Hr|(κ & Hr & <-)]; [by rewrite Hr in Hb|].
    eapply goes_same; [by apply goes_load_str|]. intros root. apply goes_chroot.
Qed.
(** The write to the pipe succeeds at once. *)
Lemma steady_write_errno fd e : steady (write_errno (K := K) retry_fuel fd e) (fun _ => True).
Proof.
  apply steady_beside. intros w. unfold retry_fuel. cbn [write_errno]. destruct (msg_write (kst w) fd e) as [Hr _].
  destruct (sys_write (kst w) fd e) as [r k] eqn:Ew. cbn in Hr. exists tt, (with_kst k w). split; [|by split].
  rewrite (bind_ok _ _ w r (with_kst k w)) by (rewrite Ew; apply libc_ret_ok; lia).
  unfold get_errno. rewrite (bind_ok _ _ _ _ _ (gets_run _ _)). by destruct (Z.ltb_spec r 0); [lia|].
Qed.
Lemma steady_read_result fd c e : steady (read_result (K := K) retry_fuel fd c e) (fun _ => True).
Proof.
  apply steady_beside. intros w. unfold retry_fuel. cbn [read_result]. pose proof (msg_read (kst w) fd) as Hm.
  destruct (sys_read (kst w) fd) as [[n v] k] eqn:Er. cbn in Hm. assert (0 <= n) as Hn by (destruct (msg (kst w)); lia).
  rewrite (bind_ok _ _ w (n, v) (with_kst k w)) by (rewrite Er, (bind_ok _ _ _ _ _ (libc_ret_ok n (with_kst k w) Hn)); done).
  unfold get_errno. rewrite (bind_ok _ _ _ _ _ (gets_run _ _)). destruct (n =? 0); [by eexists _, _|]. destruct (Z.ltb_spec n 0); [lia|].
  by eexists _, _.
Qed.
#[local] Hint Resolve steady_write_errno steady_read_result goes_launch_steps : goes.
(** Any end will do. *)
Definition any_end (e : ending) : Prop := True.
Lemma goes_defer {A} h fd Q : goes any_end h (launch_defer fd : M K A) Q.
Proof. unfold launch_defer, get_errno. go. by apply goes_exits. Qed.
Lemma goes_child {A} h fd p d b i r Q : h !! p = Some (KLaunch b i r) -> parts h i r -> goes any_end h (cap_launch_child fd p d : M K A) Q.
Proof.
  intros Hp Hparts. unfold cap_launch_child. eapply goes_load_launch; [exact Hp|]. intros l _ Hi Hr. subst i r.
  assert (forall m (rest : M K A), steady m (fun _ => True) -> goes any_end h rest Q -> goes any_end h (r ← (m : M K Z); if negb (r =? 0) then launch_defer fd else rest) Q) as Hstep.
  { intros m rest Hm Hrest. eapply goes_then; [exact Hm|intros r _]. destruct (negb _); [apply goes_defer|exact Hrest]. }
  apply Hstep; [destruct (negb _); [apply steady_setup|by apply steady_ret]|]. destruct (l_arg0 l) as [arg0|]; [|by apply goes_exits].
  eapply goes_same; [by apply goes_launch_steps|intros [|]; [apply goes_defer|]].
  eapply (goes_bind _ _ _ _ (fun _ h' => True)); [|intros [] h' _; apply goes_defer].
  intros w Hw. unfold execve. destruct (sys_execve _ _ _ _) as [x k]. destruct (x <? 0); [|done]. exists h. split; [by apply (fit_beside h w)|done].
Qed.
Lemma goes_fork E h child : goes any_end h child (fun _ _ => True) -> goes E h (fork (K := K) child) (fun _ h' => h' = h).
Proof.
  intros Hc w Hw. unfold fork. destruct (sys_fork (kst w)) as [[r kp] kc]. assert (forall k e, fit h (with_errno e (with_kst k w))) as He by (intros; by apply (fit_beside h w)).
  assert (forall k, fit h (with_kst k w)) as Hk by (intros; by apply (fit_beside h w)). destruct (r <? 0); [by eexists|].
  specialize (Hc _ (Hk kc)). destruct (child (with_kst kc w)) as [[[]|e| |] wc]; try done. by eexists.
Qed.
Lemma steady_pipe2 : steady (K := K) (fun w => let '(r, ps, k) := sys_pipe2 (kst w) in (r ← libc_ret r; mret (r, ps)) (with_kst k w)) (fun _ => True).
Proof.
  apply steady_beside. intros w. destruct (sys_pipe2 (kst w)) as [[r ps] k]. unfold libc_ret, mbind, M_bind. destruct (r <? 0); by eexists _, _.
Qed.
#[local] Hint Resolve steady_pipe2 : goes.
Lemma goes_launch E h p d : unlocked h p -> (forall i r, h !! p = Some (KLaunch false i r) -> parts h i r) ->
  goes E h (cap_launch (K := K) p d) (fun _ h' => h' = h).
Proof.
  intros Hu Hp. unfold cap_launch, get_errno. apply goes_good_launch; [done|intros i r Hk Hne|by go]. specialize (Hp _ _ Hk). cbn [negb].
  eapply goes_lock; [exact Hk|done|done|]. cbn [lock_kind]. intros h1 Hk1 Eh Hh.
  assert (parts h1 i r) as Hp1.
  { destruct Hp as [Hi Hr]. split.
    - destruct Hi as [?|(κ & Hi & b & ->)]; [by left|right]. exists (KIab b). rewrite Hh by congruence. by split; [|exists b].
    - destruct Hr as [?|(κ & Hr & <-)]; [by left|right]. exists KStr. by rewrite Hh by congruence. }
  eapply goes_load_launch; [exact Hk1|]. intros l _ _ _. 
  destruct ((l_custom_setup_fn l =? 0) && _); [by go|]. eapply goes_then; [apply steady_pipe2|]. intros [x [ps0 ps1]] _. destruct (negb _); [by go|].
  eapply goes_same; [apply goes_fork|].
  - eapply goes_then; [apply steady_close_end|intros _ _]. eapply goes_then; [apply (steady_kst (fun k => sys_set_name k _))|intros _ _]. by eapply goes_child.
  - intros [c e]. go; try done.
Qed.

End services.
