(* ===== verification/ApiTotal.v ===== *)
(** Programs that keep to the contract of libcap's manual pages: every call they
    make returns. What the contract asks of a call is in terms of the objects that
    there are - that what belongs to a launcher is left to it, and that buffers are
    as long as the call says -, and what the library keeps up is [sound]. *)

From Stdlib Require Import ZArith Lia String.
From stdpp Require Import gmap list sets.
From S2P Require Import Prelude Capability World Exec Syscall Alloc Flag ExtInt File Proc Text KernelLaws TextLex TextSpec IabProcSpec IabText Launch LaunchSpec ApiSpec Progress ProgressApi.

Open Scope Z_scope.

(** ** Sound memory *)

(** NULL is no object; no set and no launcher is locked; a launcher's tuple is there,
    locked, and its root is there; launchers share nothing; who locked a tuple is a
    launcher; and the string with the directory is there, and no launcher's. *)
Record sound `{D : !ProcDir} (h : shape) : Prop := {
  sound_0 : h !! 0 = None;
  sound_cap : forall p b, h !! p = Some (KCap b) -> b = false;
  sound_launch : forall p b i r, h !! p = Some (KLaunch b i r) ->
    b = false /\ (i = 0 \/ h !! i = Some (KIab true)) /\ (r = 0 \/ h !! r = Some KStr);
  sound_apart : forall p q b b' i i' r r', h !! p = Some (KLaunch b i r) -> h !! q = Some (KLaunch b' i' r') -> p <> q ->
    (i = i' -> i = 0) /\ (r = r' -> r = 0);
  sound_tuple : forall p, h !! p = Some (KIab true) -> exists q r, h !! q = Some (KLaunch false p r);
  sound_dir : proc_dir = 0 \/ (h !! proc_dir = Some KStr /\ forall q b i r, h !! q = Some (KLaunch b i r) -> r <> proc_dir)
}.

(** [p] is the tuple or the root of a launcher, or the directory. *)
Definition owned `{D : !ProcDir} (h : shape) p : Prop :=
  p <> 0 /\ (p = proc_dir \/ exists q b i r, h !! q = Some (KLaunch b i r) /\ (p = i \/ p = r)).

Lemma sound_empty : @sound 0 ∅.
Proof. split; intros *; rewrite ?lookup_empty; try done. by left. Qed.

Section sound.
Context {D : ProcDir}.
Implicit Types (h : shape) (p : Z).

Lemma sound_unlocked h p : sound h -> ~ owned h p -> unlocked h p.
Proof.
  intros Hs Ho κ Hp. destruct κ as [b|[]| |b i r]; try done; cbn.
  - by apply (sound_cap _ Hs p).
  - destruct (sound_tuple _ Hs _ Hp) as (q & r & Hq). destruct Ho. split; [intros ->; by rewrite (sound_0 _ Hs) in Hp|]. right. exists q, false, p, r. auto.
  - by destruct (sound_launch _ Hs _ _ _ _ Hp).
Qed.
Lemma sound_parts h p i r : sound h -> h !! p = Some (KLaunch false i r) -> parts h i r.
Proof.
  intros Hs Hp. destruct (sound_launch _ Hs _ _ _ _ Hp) as (_ & Hi & Hr). split.
  - destruct Hi as [?|Hi]; [by left|right]. exists (KIab true). by split; [|exists true].
  - destruct Hr as [?|Hr]; [by left|right]. by exists KStr.
Qed.
Lemma sound_freeable h p : sound h -> freeable h p.
Proof.
  intros Hs κ Hp. destruct κ as [b|b| |b i r]; try done; [by apply (sound_cap _ Hs p)|].
  destruct (sound_launch _ Hs _ _ _ _ Hp) as [-> _]. by eapply sound_parts.
Qed.

(** *** A new object *)
Definition fresh_kind (κ : kind) : Prop :=
  match κ with KCap b => b = false | KIab b => b = false | KStr => True | KLaunch b i r => b = false /\ i = 0 /\ r = 0 end.

Lemma sound_new h p κ : sound h -> p <> 0 -> h !! p = None -> fresh_kind κ -> sound (<[p := κ]> h).
Proof.
  intros [H0 H1 H2 H3 H4 H5] Hne0 Hn Hκ. assert (forall q κ', h !! q = Some κ' -> (<[p := κ]> h) !! q = Some κ') as Hold by (intros q κ' Hq; rewrite lookup_insert_ne; [done|congruence]).
  split.
  - by rewrite lookup_insert_ne.
  - intros q b [[<- ->]|[_ Hq]]%lookup_insert_Some; [exact Hκ|by eapply H1].
  - intros q b i r [[<- ->]|[_ Hq]]%lookup_insert_Some; [cbn in Hκ; tauto|]. destruct (H2 _ _ _ _ Hq) as (? & Hi & Hr). split; [done|].
    split; [destruct Hi; auto|destruct Hr; auto].
  - intros q q' b b' i i' r r' [[<- ->]|[_ Hq]]%lookup_insert_Some [[<- Hk]|[_ Hq']]%lookup_insert_Some Hne; [done|by destruct Hκ as (_ & -> & ->)| |by eapply H3].
    subst κ. destruct Hκ as (_ & -> & ->). done.
  - intros q [[<- ->]|[_ Hq]]%lookup_insert_Some; [done|]. destruct (H4 _ Hq) as (x & r & Hx). exists x, r. by apply Hold.
  - destruct H5 as [?|[Hd Hl]]; [by left|right]. split; [by apply Hold|].
    intros q b i r [[<- ->]|[_ Hq]]%lookup_insert_Some; [|by eapply Hl]. destruct Hκ as (_ & _ & ->). intros E. congruence.
Qed.
Lemma sound_made h p κ h' : sound h -> fresh_kind κ -> made κ h p h' -> sound h'.
Proof. intros Hs Hκ [[_ ->]|(Hne & Hn & ->)]; [done|by apply sound_new]. Qed.

(** *** A release *)

Lemma sound_less h h' (gone : list Z) : sound h -> (forall q, h' !! q = (if decide (q ∈ gone) then None else h !! q)) ->
  (forall q b i r, h !! q = Some (KLaunch b i r) -> if decide (q ∈ gone) then i = 0 \/ i ∈ gone else (i = 0 \/ i ∉ gone) /\ (r = 0 \/ r ∉ gone)) ->
  proc_dir = 0 \/ proc_dir ∉ gone -> sound h'.
Proof.
  intros [H0 H1 H2 H3 H4 H5] Hh HD Hdir. assert (forall q κ, h' !! q = Some κ <-> (q ∉ gone) /\ h !! q = Some κ) as Hh'.
  { intros q κ. rewrite Hh. case_decide; naive_solver. }
  split.
  - rewrite Hh, H0. by case_decide.
  - intros q b [_ Hq]%Hh'. by eapply H1.
  - intros q b i r [Hn Hq]%Hh'. specialize (HD _ _ _ _ Hq). rewrite decide_False in HD by done. rewrite !Hh'.
    destruct (H2 _ _ _ _ Hq) as (? & Hi & Hr). tauto.
  - intros q q' b b' i i' r r' [_ Hq]%Hh' [_ Hq']%Hh'. by eapply H3.
  - intros q [Hn Hq]%Hh'. destruct (H4 _ Hq) as (x & r & Hx). exists x, r. apply Hh'. split; [|done]. intros Hin. specialize (HD _ _ _ _ Hx).
    rewrite decide_True in HD by done. destruct HD as [->|]; [congruence|done].
  - destruct Hdir as [?|Hdir]; [by left|]. destruct H5 as [?|[Hd Hl]]; [by left|right]. split; [by apply Hh'|].
    intros q b i r [_ Hq]%Hh'. by eapply Hl.
Qed.
Lemma sound_freed h p : sound h -> ~ owned h p -> sound (freed h p).
Proof.
  intros Hs Ho. unfold freed. assert (forall q b i r, h !! q = Some (KLaunch b i r) -> q <> p -> (i = 0 \/ i <> p) /\ (r = 0 \/ r <> p)) as Hout.
  { intros q b i r Hq _. unfold owned in Ho. split; [destruct (decide (i = 0)); [by left|right]|destruct (decide (r = 0)); [by left|right]];
      intros ->; destruct Ho; (split; [done|]); right; eauto 8. }
  assert (proc_dir = 0 \/ proc_dir <> p) as Hdir.
  { destruct (decide (proc_dir = 0)); [by left|right]. intros E. apply Ho. unfold owned. rewrite <-E. by split; [|left]. }
  destruct (h !! p) as [[b|b| |b i r]|] eqn:Hp; [| | | |by rewrite delete_id].
  1-3: apply (sound_less h _ [p]); [done| | |destruct Hdir; [by left|right; set_solver]];
    [intros q; rewrite lookup_delete; repeat case_decide; set_solver|
     intros q b' i r Hq; rewrite decide_False by (rewrite list_elem_of_singleton; congruence); rewrite !list_elem_of_singleton; apply (Hout _ _ _ _ Hq); congruence].
  destruct (sound_launch _ Hs _ _ _ _ Hp) as (_ & Hi & Hr). apply (sound_less h _ [p; i; r]); [done| | |].
  - intros q. rewrite !lookup_delete. repeat case_decide; set_solver.
  - intros q b' i' r' Hq. case_decide as Hin.
    + assert (q = p) as ->; [|right; rewrite Hp in Hq; injection Hq as _ <- _; set_solver].
      apply elem_of_cons in Hin as [?|[->|[->|[]%not_elem_of_nil]%elem_of_cons]%elem_of_cons]; [done|..]; exfalso.
      * destruct Hi as [->|Hi]; [by rewrite (sound_0 _ Hs) in Hq|congruence].
      * destruct Hr as [->|Hr]; [by rewrite (sound_0 _ Hs) in Hq|congruence].
    + assert (q <> p) as Hne by set_solver. destruct (sound_apart _ Hs _ _ _ _ _ _ _ _ Hp Hq ltac:(done)) as [Hai Har].
      destruct (sound_launch _ Hs _ _ _ _ Hq) as (_ & Hi' & Hr'). pose proof (sound_0 _ Hs) as H0.
      rewrite !elem_of_cons, !elem_of_nil. split.
      * destruct Hi' as [?|Hi']; [by left|right]. intros [->|[<-|[->|[]]]]; [congruence| |].
        { rewrite (Hai eq_refl) in Hi'. congruence. }
        { destruct Hr as [->|Hr]; congruence. }
      * destruct Hr' as [?|Hr']; [by left|right]. intros [->|[->|[<-|[]]]]; [congruence| |].
        { destruct Hi as [->|Hi]; congruence. }
        { rewrite (Har eq_refl) in Hr'. congruence. }
  - destruct Hdir as [?|Hdir]; [by left|]. destruct (sound_dir _ Hs) as [?|[Hd Hl]]; [by left|right]. rewrite !elem_of_cons, !elem_of_nil.
    intros [?|[E|[E|[]]]]; [done| |by eapply Hl]. rewrite E in Hd. destruct Hi as [->|Hi]; [|congruence]. by rewrite (sound_0 _ Hs) in Hd.
Qed.

(** *** The launchers' parts *)

Lemma sound_with_tuple h p i iab r : sound h -> h !! p = Some (KLaunch false i r) -> iab = 0 \/ h !! iab = Some (KIab false) ->
  sound (with_tuple h p i iab r).
Proof.
  intros Hs Hp Hiab. destruct (sound_launch _ Hs _ _ _ _ Hp) as (_ & Hi & Hr). pose proof (sound_0 _ Hs) as H0.
  set (h' := with_tuple h p i iab r).
  assert (forall q, h' !! q = if decide (q = iab /\ iab <> 0) then Some (KIab true) else if decide (q = i /\ i <> 0) then Some (KIab false)
    else if decide (q = p) then Some (KLaunch false iab r) else h !! q) as Hh'.
  { intros q. unfold h', with_tuple. clear. destruct (Z.eqb_spec i 0) as [->|], (Z.eqb_spec iab 0) as [->|]; rewrite ?lookup_insert; repeat case_decide; naive_solver. }
  assert (forall q κ, h !! q = Some κ -> q <> p -> q <> i \/ i = 0 -> q <> iab \/ iab = 0 -> h' !! q = Some κ) as Hold
    by (intros q κ Hq ???; rewrite Hh'; rewrite !decide_False by tauto; exact Hq).
  assert (forall q b j s, h' !! q = Some (KLaunch b j s) -> (q = p /\ b = false /\ j = iab /\ s = r) \/ (q <> p /\ h !! q = Some (KLaunch b j s))) as Hlaunch.
  { intros q b j s. rewrite Hh'. intros H. repeat case_decide; simplify_eq; auto. }
  assert (forall q, h !! q = Some KStr -> h' !! q = Some KStr) as Hstr.
  { intros q Hq. apply Hold; [done|congruence| |]; [destruct Hi; [by right|left; congruence]|destruct Hiab; [by right|left; congruence]]. }
  assert (iab = 0 \/ h' !! iab = Some (KIab true)) as Hnew.
  { destruct (decide (iab = 0)); [by left|right]. by rewrite Hh', decide_True. }
  split.
  - rewrite Hh'. repeat case_decide; naive_solver.
  - intros q b. rewrite Hh'. intros Hq. repeat case_decide; simplify_eq; by eapply (sound_cap _ Hs).
  - intros q b j s [(-> & -> & -> & ->)|[Hne Hq]]%Hlaunch; [split; [done|]; split; [exact Hnew|destruct Hr; auto]|].
    destruct (sound_launch _ Hs _ _ _ _ Hq) as (? & Hj & Hs'). split; [done|]. split; [|destruct Hs'; auto].
    destruct Hj as [?|Hj]; [by left|right]. destruct (sound_apart _ Hs _ _ _ _ _ _ _ _ Hp Hq ltac:(done)) as [Ha _].
    apply Hold; [done|congruence| |].
    + destruct (decide (j = i)) as [->|]; [right; by apply Ha|by left].
    + destruct Hiab; [by right|left; congruence].
  - assert (forall q b j s, q <> p -> h !! q = Some (KLaunch b j s) -> (iab = j -> iab = 0) /\ (r = s -> r = 0)) as Hout.
    { intros q b j s Hne Hq. destruct (sound_apart _ Hs _ _ _ _ _ _ _ _ Hp Hq ltac:(done)) as [_ Hrs]. split; [|done]. intros <-.
      destruct Hiab as [?|Hiab]; [done|]. destruct (sound_launch _ Hs _ _ _ _ Hq) as (_ & [?|Hj] & _); [done|congruence]. }
    intros q q' b b' j j' s s' [(-> & -> & -> & ->)|[Hne Hq]]%Hlaunch [(-> & -> & -> & ->)|[Hne' Hq']]%Hlaunch Hqq; [done| | |].
    + by eapply Hout.
    + destruct (Hout _ _ _ _ Hne Hq) as [Ha Hb]. split; intros ->; auto.
    + by eapply (sound_apart _ Hs).
  - intros q Hq. rewrite Hh' in Hq. destruct (decide (q = iab /\ iab <> 0)) as [[-> Hne]|H1]; [exists p, r|].
    + assert (p <> iab /\ (p <> i \/ i = 0)) as [? ?].
      { split; [intros ->; destruct Hiab; congruence|]. destruct Hi; [by right|left; congruence]. }
      rewrite Hh', decide_False, decide_False by tauto. by rewrite decide_True.
    + destruct (decide (q = i /\ i <> 0)) as [|H2]; [done|]. destruct (decide (q = p)); [done|]. destruct (sound_tuple _ Hs _ Hq) as (x & s & Hx).
      assert (x <> p) as Hne by (intros ->; assert (q = i) as -> by congruence; destruct (decide (i = 0)) as [->|]; [congruence|tauto]).
      exists x, s. apply Hold; [done|done| |]; [destruct Hi; [by right|left; congruence]|destruct Hiab; [by right|left; congruence]].
  - destruct (sound_dir _ Hs) as [?|[Hd Hl]]; [by left|right]. split; [by apply Hstr|].
    intros q b j t [(-> & -> & -> & ->)|[Hne Hq]]%Hlaunch; by eapply Hl.
Qed.
Lemma sound_with_root h p i r s : sound h -> h !! p = Some (KLaunch false i r) ->
  s = 0 \/ (h !! s = Some KStr /\ s <> proc_dir /\ forall q b j, h !! q <> Some (KLaunch b j s)) -> sound (<[p := KLaunch false i s]> h).
Proof.
  intros Hs Hp Hnew. assert (forall q κ, h !! q = Some κ -> match κ with KLaunch _ _ _ => False | _ => True end -> (<[p := KLaunch false i s]> h) !! q = Some κ) as Hold
    by (intros q κ Hq Hκ; rewrite lookup_insert_ne; [done|]; intros ->; rewrite Hp in Hq; by injection Hq as <-).
  destruct (sound_launch _ Hs _ _ _ _ Hp) as (_ & Hi & _). split.
  - rewrite lookup_insert_ne; [apply Hs|]. intros ->. by rewrite (sound_0 _ Hs) in Hp.
  - intros q b [[_ ?]|[_ Hq]]%lookup_insert_Some; [done|]. by eapply (sound_cap _ Hs).
  - intros q b j t [[<- [= <- <- <-]]|[_ Hq]]%lookup_insert_Some.
    + split; [done|]. split; [destruct Hi; auto|destruct Hnew as [?|[? _]]; auto].
    + destruct (sound_launch _ Hs _ _ _ _ Hq) as (? & Hj & Ht). split; [done|]. split; [destruct Hj; auto|destruct Ht; auto].
  - assert (forall q b j t, q <> p -> h !! q = Some (KLaunch b j t) -> (i = j -> i = 0) /\ (s = t -> s = 0)) as Hout.
    { intros q b j t Hne Hq. destruct (sound_apart _ Hs _ _ _ _ _ _ _ _ Hp Hq ltac:(done)) as [Ha _]. split; [done|]. intros <-.
      destruct Hnew as [?|(_ & _ & Hnew)]; [done|]. by apply Hnew in Hq. }
    intros q q' b b' j j' t t' [[<- [= <- <- <-]]|[Hne Hq]]%lookup_insert_Some [[<- [= <- <- <-]]|[Hne' Hq']]%lookup_insert_Some Hqq; [done| | |].
    + by eapply Hout.
    + destruct (Hout _ _ _ _ (not_eq_sym Hne) Hq) as [Ha Hb]. split; intros ->; auto.
    + by eapply (sound_apart _ Hs).
  - intros q [[_ ?]|[_ Hq]]%lookup_insert_Some; [done|]. destruct (sound_tuple _ Hs _ Hq) as (x & t & Hx).
    destruct (decide (x = p)) as [->|]; [exists p, s; rewrite lookup_insert_eq; congruence|exists x, t; by rewrite lookup_insert_ne].
  - destruct (sound_dir _ Hs) as [?|[Hd Hl]]; [by left|]. destruct (decide (proc_dir = 0)); [by left|right]. split; [by apply Hold|].
    intros q b j t [[<- [= <- <- <-]]|[_ Hq]]%lookup_insert_Some; [|by eapply Hl]. destruct Hnew as [->|(_ & ? & _)]; congruence.
Qed.
Lemma sound_rooted h p i r s h1 : sound h -> h !! p = Some (KLaunch false i r) -> made KStr h s h1 -> sound (<[p := KLaunch false i s]> h1).
Proof.
  intros Hs Hp [[-> ->]|(Hne & Hn & ->)]; [apply (sound_with_root _ _ _ r); auto|].
  assert (s <> p) by congruence. apply (sound_with_root _ _ _ r); [by apply sound_new|by rewrite lookup_insert_ne|right].
  split; [by rewrite lookup_insert_eq|]. split; [destruct (sound_dir _ Hs) as [?|[Hd _]]; congruence|]. intros q b j [[_ ?]|[_ Hq]]%lookup_insert_Some; [done|].
  destruct (sound_launch _ Hs _ _ _ _ Hq) as (_ & _ & [?|?]); congruence.
Qed.

(** The directory is another string. *)
Lemma sound_moved_dir h d h' : sound h -> made KStr h d h' -> @sound d h'.
Proof.
  intros Hs Hm. destruct (sound_made h d KStr h' Hs I Hm) as [H0 H1 H2 H3 H4 _]. split; try done.
  destruct Hm as [[-> ->]|(Hne & Hn & ->)]; [by left|right]. split; [apply lookup_insert_eq|].
  intros q b i r [[_ ?]|[_ Hq]]%lookup_insert_Some; [done|]. destruct (sound_launch _ Hs _ _ _ _ Hq) as (_ & _ & Hr).
  change proc_dir with d. destruct Hr; congruence.
Qed.

End sound.

(** ** The contract *)

(** The objects a call is passed. *)
Definition passed (c : call) : list Z :=
  match c with
  | C_cap_dup p | C_cap_free p | C_cap_get_flag p _ _ _ | C_cap_set_flag p _ _ _ _ | C_cap_clear p | C_cap_clear_flag p _ | C_cap_fill p _ _
  | C_cap_iab_dup p | C_cap_iab_get_vector p _ _ | C_cap_iab_set_vector p _ _ _ | C_cap_size p | C_cap_copy_ext _ p _
  | C_cap_set_fd _ _ p | C_cap_set_file _ _ p | C_cap_get_nsowner p | C_cap_set_nsowner p _ | C_cap_set_proc p | C_capgetp _ p | C_capsetp _ p
  | C_cap_iab_set_proc p | C_cap_to_text p _ | C_cap_iab_to_text p
  | C_cap_launcher_callback p _ | C_cap_launcher_setuid p _ | C_cap_launcher_setgroups p _ _ _ | C_cap_launcher_set_mode p _
  | C_cap_launcher_set_chroot p _ | C_cap_launch p _ => [p]
  | C_cap_fill_flag p _ q _ | C_cap_compare p q | C_cap_iab_fill p _ q _ | C_cap_iab_compare p q | C_cap_launcher_set_iab p q => [p; q]
  | _ => []
  end.

(** The rest of what the manual pages ask for. *)
Definition arguments_ok (h : shape) (c : call) : Prop :=
  match c with
  | C_cap_set_flag _ _ n l _ => n <= Z.of_nat (List.length l)
  | C_cap_copy_ext (Some buf) _ n => n <= Z.of_nat (List.length buf)
  | C_cap_copy_int (Some e) => readable e
  | C_cap_copy_int_check (Some e) n => Forall is_byte e /\ n <= Z.of_nat (List.length e)
  | C_cap_copy_int_check None n => n < 5
  | C_cap_get_fd stack _ | C_cap_get_file stack _ => Forall is_byte stack
  | C_cap_launcher_set_iab _ iab => iab = 0 \/ exists b, h !! iab = Some (KIab b)
  | _ => True
  end.
Definition call_ok `{D : !ProcDir} (h : shape) (c : call) : Prop := Forall (fun p => ~ owned h p) (passed c) /\ arguments_ok h c.

Section total.
Context {K : Type} `{!Kernel K, !FileSys K, !Process K, !ProcFs K, !KernelLaws K, !WordLaws K, !ByteLaws K, !ProcessLaws K}.
Variable gperf : option (string -> option Z).
Hypothesis Hgperf : gperf_ok gperf.
Implicit Types (w : world K) (h : shape).

Lemma goes_perform {D : ProcDir} E h c : sound h -> call_ok h c -> (forall root, c <> C_cap_proc_root root) ->
  goes E h (perform (K := K) gperf c) (fun _ h' => sound h').
Proof.
  intros Hs [Hp Ha] Hroot.
  assert (forall A (m : M K A) P, goes E h m P -> (forall a h', P a h' -> sound h') -> goes E h (_ ← m; mret tt) (fun _ h' => sound h')) as Hthen.
  { intros A m P Hm HP. eapply goes_bind; [exact Hm|]. intros a h' Ha'. apply goes_ret. by eapply HP. }
  assert (forall A (m : M K A), goes E h m (fun _ h' => h' = h) -> goes E h (_ ← m; mret tt) (fun _ h' => sound h')) as Hsame
    by (intros A m Hm; eapply Hthen; [exact Hm|by intros _ ? ->]).
  assert (forall A (m : M K A) P, steady m P -> goes E h (_ ← m; mret tt) (fun _ h' => sound h')) as Hsteady
    by (intros A m P Hm; eapply Hthen; [apply Hm|by intros ? ? [-> _]]).
  assert (forall (m : M K Z) κ, fresh_kind κ -> goes E h m (made κ h) -> goes E h (_ ← m; mret tt) (fun _ h' => sound h')) as Hmade
    by (intros m κ Hκ Hm; eapply Hthen; [exact Hm|]; intros p h' Hh; by eapply sound_made).
  assert (Forall (unlocked h) (passed c)) as Hu by (eapply Forall_impl; [exact Hp|]; intros p; by apply sound_unlocked).
  destruct c; cbn [perform passed arguments_ok] in *; rewrite ?Forall_cons, ?Forall_nil in *; destruct_and?.
  - eapply Hmade; [|apply goes_cap_init]; done.
  - eapply Hmade; [|by apply goes_cap_dup]; done.
  - eapply Hthen; [by apply goes_free, sound_freeable|]. intros _ ? ->. by apply sound_freed.
  - by apply Hsame, goes_get_flag.
  - by apply Hsame, goes_set_flag.
  - by apply Hsame, goes_clear.
  - by apply Hsame, goes_clear_flag.
  - by apply Hsame, goes_fill_flag.
  - by apply Hsame, goes_fill_flag.
  - by apply Hsame, goes_compare.
  - eapply Hmade; [|apply goes_iab_init]; done.
  - eapply Hmade; [|by apply goes_iab_dup]; done.
  - by apply Hsame, goes_iab_get_vector.
  - by apply Hsame, goes_iab_set_vector.
  - by apply Hsame, goes_iab_fill.
  - by apply Hsame, goes_iab_compare.
  - by apply Hsame, goes_size.
  - apply Hsame, goes_copy_ext; [done|]. by destruct buf.
  - eapply Hmade; [|apply goes_copy_int]; [done|]. by destruct e.
  - eapply Hmade; [|apply goes_copy_int_check]; [done|]. by destruct e.
  - eapply Hmade; [|by apply goes_get_ref]; done.
  - eapply Hmade; [|by apply goes_get_ref]; done.
  - by apply Hsame, goes_set_fd.
  - by apply Hsame, goes_set_file.
  - by apply Hsame, goes_get_nsowner.
  - by apply Hsame, goes_set_nsowner.
  - eapply Hmade; [|apply goes_get_proc]; done.
  - by apply Hsame, goes_set_proc.
  - eapply Hmade; [|apply goes_get_pid]; done.
  - by apply Hsame, goes_capgetp.
  - by apply Hsame, goes_capsetp.
  - eapply Hsteady, any_get_bound.
  - eapply Hsteady, steady_drop_bound.
  - eapply Hsteady, any_get_ambient.
  - eapply Hsteady, steady_set_ambient.
  - eapply Hsteady, steady_reset_ambient.
  - eapply Hsteady, steady_get_secbits.
  - eapply Hsteady, steady_wprctl3.
  - eapply Hsteady, steady_libc_syscall.
  - eapply Hsteady, steady_wprctl6.
  - apply Hsame, goes_set_mode.
  - apply Hsame, goes_get_mode.
  - apply Hsame, goes_setuid.
  - apply Hsame, goes_setgroups.
  - eapply goes_weaken; [apply steady_set_syscall|]. by intros [] ? [-> _].
  - eapply Hmade; [|apply goes_iab_get_proc]; done.
  - eapply Hmade; [|apply goes_iab_get_pid]; [done|]. destruct (sound_dir _ Hs) as [?|[? _]]; auto.
  - by apply Hsame, goes_iab_set_proc.
  - eapply Hmade; [|by apply goes_from_text]; done.
  - eapply Hthen; [by apply goes_to_text|]. intros r h' Hh. by eapply sound_made; [| |exact Hh].
  - eapply Hsteady, steady_from_name.
  - eapply Hmade; [|apply goes_to_name]; done.
  - eapply Hmade; [|by apply goes_iab_to_text]; done.
  - eapply Hmade; [|by apply goes_iab_from_text]; done.
  - by destruct (Hroot root).
  - eapply Hmade; [|apply goes_new_launcher]; done.
  - eapply Hmade; [|apply goes_func_launcher]; done.
  - by apply Hsame, goes_launcher_set.
  - by apply Hsame, goes_launcher_set.
  - by apply Hsame, goes_launcher_set.
  - by apply Hsame, goes_launcher_set.
  - assert (iab = 0 \/ h !! iab = Some (KIab false)) as Hiab.
    { destruct Ha as [?|(b & Hb)]; [by left|right]. assert (unlocked h iab) as Hul by done. pose proof (Hul _ Hb) as E'. cbn in E'. by subst b. }
    eapply Hthen; [apply goes_set_iab; [done| |exact Hiab]|].
    + intros i r Hk. by destruct (sound_launch _ Hs _ _ _ _ Hk) as (_ & ? & _).
    + intros _ h' [->|(i & r & Hk & ->)]; [done|by apply sound_with_tuple].
  - eapply Hthen; [by apply goes_set_chroot|]. intros _ h' [->|(i & r & s & h1 & Hk & Hm & ->)]; [done|by eapply sound_rooted].
  - apply Hsame, goes_launch; [done|]. intros i r. by apply sound_parts.
Qed.

(** The memory and the globals between the calls, and what may be called then. *)
Definition sound_world w : Prop := world_wf w /\ counted w /\ @sound (g_proc_dir (glob w)) (shape_of w).
Definition allowed w (c : call) : Prop := @call_ok (g_proc_dir (glob w)) (shape_of w) c.

Lemma perform_sound w c : sound_world w -> allowed w c -> exists w1, perform gperf c w = (Ok tt, w1) /\ sound_world w1.
Proof.
  intros (Hw & Hc & Hs) Hok. set (D := g_proc_dir (glob w) : ProcDir). assert (fit (shape_of w) w) as Hfit by done.
  assert ((exists root, c = C_cap_proc_root root) \/ forall root, c <> C_cap_proc_root root) as [[root ->]|Hroot]
    by (destruct c; try (right; discriminate); left; by eexists).
  - destruct (proc_root_run _ root w Hfit) as (d & h' & w' & Hr & (Hw' & [Hc' Hd'] & <-) & Hm). exists w'.
    split; [cbn [perform]; by rewrite (bind_ok _ _ _ _ _ Hr)|]. split; [done|]. split; [done|]. rewrite Hd'.
    destruct Hm as [[-> Hsh]|Hm]; [by rewrite Hsh|by eapply sound_moved_dir].
  - pose proof (goes_perform (fun _ => False) _ c Hs Hok Hroot w Hfit) as H.
    destruct (perform gperf c w) as [[[]|e| |] w1]; try done. destruct H as (h' & (Hw1 & [Hc1 Hd1] & <-) & Hs1). exists w1.
    split; [done|]. split; [done|]. split; [done|]. rewrite Hd1. exact Hs1.
Qed.

(** What a program may have done: calls within the contract, between which anything
    but libcap's objects and globals may change. *)
Inductive careful : world K -> world K -> Prop :=
| careful_refl w : careful w w
| careful_call w c w1 k e m o w2 : allowed w c -> perform gperf c w = (Ok tt, w1) ->
    careful (mkWorld (heap w1) (next w1) m e (glob w1) k o) w2 -> careful w w2.

Lemma careful_sound w w1 : sound_world w -> careful w w1 -> sound_world w1.
Proof.
  intros Hw Hs. induction Hs as [|w c w1 k e m o w2 Hok Hp _ IH]; [done|]. apply IH.
  destruct (perform_sound w c Hw Hok) as (w1' & Hp' & Hw1). rewrite Hp in Hp'. injection Hp' as <-.
  destruct Hw1 as (Hw1 & Hc1 & Hs1). split_and!; [|exact Hc1|exact Hs1]. by destruct Hw1.
Qed.

(** C3 A program that keeps to the contract never hangs in libcap and never runs
    into undefined behaviour there: after whatever calls it has made - on objects
    that are there or not, of the right type or not, as long as it leaves a
    launcher's parts and the current /proc directory to the library and its buffers
    are as long as it says -, every next such call returns, whatever malloc()
    refuses and whatever the kernel answers within its documentation; and the
    memory is sound again. *)
Theorem calls_return w w1 c :
  sound_world w -> careful w w1 -> allowed w1 c ->
  exists w2, perform gperf c w1 = (Ok tt, w2) /\ sound_world w2.
Proof. intros Hw Hr Hok. apply perform_sound; [|done]. by apply (careful_sound w). Qed.
End total.
