(* ===== verification/CLib.v ===== *)
(** What the programs use of the C library on strings: strtok(3), the number
    readers strtoul(3), strtoull(3) and strtol(3) on a 64-bit machine (C11, where
    "0b" is not a prefix), strcasestr(3) and fgets(3); with the facts on them
    that the programs' theorems share. A C string is a string without NUL. *)

From stdpp Require Import gmap list.
From Stdlib Require Import ZArith Lia String Ascii.
From S2P Require Import Prelude Capability World Exec Syscall Alloc Flag Proc Text TextLex.

Open Scope string_scope.
Open Scope Z_scope.

(** ** Tokens *)

(** strspn(3) and strcspn(3), as the two parts they divide a string into. *)
Fixpoint span (f : ascii -> bool) (s : string) : string * string :=
  match s with
  | EmptyString => ("", "")
  | String c s' => if f c then let '(a, b) := span f s' in (String c a, b) else ("", s)
  end.

(** [strtok_r(s, delim, &next)] on a string: the token, and [next]. The token
    ends at the NUL that replaces the delimiter after it. *)
Definition strtok (delim : ascii -> bool) (s : string) : option (string * string) :=
  let '(_, s) := span delim s in
  if at_end s then None
  else let '(token, rest) := span (fun c => negb (delim c)) s in Some (token, tail rest).

(** ** Numbers *)

Definition ULONG_MAX : Z := 18446744073709551615.
Definition LONG_MAX : Z := 9223372036854775807.
Definition u64 (x : Z) : Z := x mod 18446744073709551616.

(** The digits of a number in base 8, 10 or 16 (0: as the prefix says), past
    white space and a sign: whether there was a minus, the magnitude, and what
    follows; [None] without digits. *)
Definition number (base : Z) (s : string) : option (bool * Z * string) :=
  let s := skip_spaces s in
  let neg := Ascii.eqb (head s) "-" in
  let s := if neg || Ascii.eqb (head s) "+" then tail s else s in
  let hex := Ascii.eqb (head s) "0" && (Ascii.eqb (head (tail s)) "x" || Ascii.eqb (head (tail s)) "X")
             && (digit_val (head (tail (tail s))) <? 16) && ((base =? 0) || (base =? 16)) in
  let base := if base =? 0 then (if Ascii.eqb (head s) "0" then if hex then 16 else 8 else 10) else base in
  let s := if hex then tail (tail s) else s in
  if digit_val (head s) <? base then
    let '(v, rest) := strtoul_digits base 0 s in Some (neg, v, rest)
  else None.

(** [strtoul(text, &remains, base)] and [strtoull]: the value, what remains, and
    whether errno is set to ERANGE. *)
Definition c_strtoul (base : Z) (text : string) : Z * string * bool :=
  match number base text with
  | None => (0, text, false)
  | Some (neg, v, rest) =>
      if ULONG_MAX <? v then (ULONG_MAX, rest, true)
      else (if neg then u64 (- v) else v, rest, false)
  end.

(** [strtol(text, &remains, base)] *)
Definition c_strtol (base : Z) (text : string) : Z * string * bool :=
  match number base text with
  | None => (0, text, false)
  | Some (neg, v, rest) =>
      if neg then (if LONG_MAX + 1 <? v then (- LONG_MAX - 1, rest, true) else (- v, rest, false))
      else (if LONG_MAX <? v then (LONG_MAX, rest, true) else (v, rest, false))
  end.

(** ** Searching *)

Fixpoint contains (needle s : string) : bool :=
  String.prefix needle s || match s with EmptyString => false | String _ s => contains needle s end.
(** [strcasestr(s, needle) != NULL] *)
Definition strcasestr (s needle : string) : bool := contains (str_lower needle) (str_lower s).

(** ** Lines *)

Definition LF : ascii := "010".

(** The next [n] characters, or those up to and including a newline. *)
Fixpoint read_line (n : nat) (s : string) : string * string :=
  match n, s with
  | S n, String c s' =>
      if Ascii.eqb c LF then (String c "", s') else let '(a, b) := read_line n s' in (String c a, b)
  | _, _ => ("", s)
  end.

(** The C string at the start of a buffer. *)
Fixpoint c_string (s : string) : string :=
  match s with
  | EmptyString => ""
  | String c s' => if is_nul c then "" else String c (c_string s')
  end.

(** [fgets(buffer, size, file)] when [s] is what is left of the file. *)
Definition fgets (size : nat) (s : string) : option (string * string) :=
  match s with
  | EmptyString => None
  | _ => let '(line, rest) := read_line (size - 1) s in Some (c_string line, rest)
  end.

(** ** Accounts *)

(** The user and group databases; [getgrouplist] gives its result and the groups
    it stored. *)
Record passwd := mkPasswd { pw_name : string; pw_uid : Z; pw_gid : Z; pw_dir : string; pw_shell : string }.
Class Accounts (K : Type) := {
  getpwnam : K -> string -> option passwd;
  getgrouplist : K -> string -> Z -> Z -> Z * list Z;
  getgrgid : K -> Z -> option string
}.

(** ** Children *)

(** <sys/wait.h> *)
Definition WTERMSIG (status : Z) : Z := Z.land status 0x7f.
Definition WIFEXITED (status : Z) : bool := WTERMSIG status =? 0.
Definition WEXITSTATUS (status : Z) : Z := Z.land (Z.shiftr status 8) 0xff.
Definition WIFSIGNALED (status : Z) : bool := negb (WTERMSIG status =? 0) && negb (WTERMSIG status =? 0x7f).

(** ** Memory of libc's own *)

Section libc.
Context {K : Type}.

(** [strdup(s)]: NULL when there is no memory. The programs treat the copy as a
    value; who releases it is not followed. *)
Definition strdup (s : string) : M K (option string) :=
  ok ← libc_alloc;
  if ok : bool then mret (Some s) else set_errno ENOMEM;; mret None.

(** printf(3), perror(3) and syslog(3): the text goes to [out]. *)
Definition print (s : string) : M K unit := modify (fun w => with_out (s :: out w) w).
Definition exit {A} (status : Z) : M K A := halt (Exited status).

End libc.

(** ** Words and lines

    The reference for the tokenising loops: the non-empty parts of a string
    between delimiters. *)

Fixpoint split (f : ascii -> bool) (s : string) : list string :=
  match s with
  | EmptyString => [""]
  | String c s =>
      if f c then "" :: split f s
      else match split f s with t :: r => String c t :: r | [] => [] end
  end.
Definition words (f : ascii -> bool) (s : string) : list string :=
  List.filter (fun t => negb (String.eqb t "")) (split f s).
Definition lines (s : string) : list string := split (fun c => Ascii.eqb c LF) s.

(** A C string. *)
Definition no_nul (s : string) : Prop := all_chars (fun c => negb (is_nul c)) s = true.

#[local] Arguments String.append !_ _ / : simpl nomatch.

Section words.
Implicit Types (f : ascii -> bool) (s t : string).

Lemma split_cons f s : exists t r, split f s = t :: r.
Proof.
  induction s as [|c s (t & r & E)]; cbn [split]; [eauto|]. destruct (f c); [eauto|]. rewrite E. eauto.
Qed.

Lemma split_app f t s : all_chars (fun c => negb (f c)) t = true ->
  split f (t ++ s) = match split f s with x :: r => (t ++ x) :: r | [] => [] end.
Proof.
  intros H. induction t as [|c t IH]; cbn in H |- *.
  - by destruct (split_cons f s) as (x & r & ->).
  - apply andb_true_iff in H as [Hc Ht]. destruct (f c); [done|]. rewrite (IH Ht).
    by destruct (split_cons f s) as (x & r & ->).
Qed.

(** A text is its last part, or a part, a delimiter and the others. *)
Lemma split_cases f s : (all_chars (fun c => negb (f c)) s = true /\ split f s = [s]) \/
  exists a c b, s = a ++ String c b /\ all_chars (fun c => negb (f c)) a = true /\ f c = true /\ split f s = a :: split f b.
Proof.
  induction s as [|d s IH]; [by left|]. cbn [split all_chars]. destruct (f d) eqn:Hd.
  - right. by exists "", d, s.
  - destruct IH as [(H & E)|(a & c & b & -> & H & Hc & E)]; rewrite E; [by left|].
    right. exists (String d a), c, b. cbn [all_chars]. by rewrite Hd, H.
Qed.

Lemma no_nul_cons c s : no_nul (String c s) <-> is_nul c = false /\ no_nul s.
Proof. unfold no_nul. cbn. rewrite andb_true_iff, negb_true_iff. done. Qed.

Lemma no_nul_app a b : no_nul (a ++ b) <-> no_nul a /\ no_nul b.
Proof. unfold no_nul. by rewrite all_chars_app, andb_true_iff. Qed.

Lemma c_string_id s : no_nul s -> c_string s = s.
Proof.
  induction s as [|c s IH]; [done|]. intros [Hc Hs]%no_nul_cons. cbn. by rewrite Hc, IH.
Qed.

Lemma span_spec f s a b : span f s = (a, b) ->
  s = a ++ b /\ all_chars f a = true /\ match b with EmptyString => True | String c _ => f c = false end.
Proof.
  revert a b. induction s as [|c s IH]; intros a b; cbn.
  - by intros [= <- <-].
  - destruct (f c) eqn:E.
    + destruct (span f s) as [a' b'] eqn:E'. intros [= <- <-]. destruct (IH _ _ eq_refl) as (-> & Ha & Hb).
      cbn. by rewrite E.
    + by intros [= <- <-].
Qed.

Lemma words_skip f s : words f s = words f (snd (span f s)).
Proof.
  induction s as [|c s IH]; [done|]. cbn [span]. destruct (f c) eqn:E; [|done].
  unfold words at 1. cbn. rewrite E. cbn. fold (words f s). rewrite IH. by destruct (span f s).
Qed.

(** The text up to a delimiter, and what follows it. *)
Lemma words_delim f t c s : all_chars (fun c => negb (f c)) t = true -> f c = true -> t <> "" ->
  words f (t ++ String c s) = t :: words f s.
Proof.
  intros Ht Hc Hne. unfold words. rewrite split_app by done. cbn [split]. rewrite Hc. cbn [List.filter].
  rewrite str_app_nil_r. by destruct (String.eqb_spec t "").
Qed.
Lemma words_last f t : all_chars (fun c => negb (f c)) t = true -> t <> "" -> words f t = [t].
Proof.
  intros Ht Hne. unfold words. rewrite <- (str_app_nil_r t), split_app by done. cbn. rewrite str_app_nil_r.
  by destruct (String.eqb_spec t "").
Qed.

(** A delimiter divides the words; one at the end adds none. *)
Lemma words_app f a c b : f c = true -> words f (a ++ String c b) = (words f a ++ words f b)%list.
Proof.
  intros Hc. assert (split f (a ++ String c b) = (split f a ++ split f b)%list) as E.
  { induction a as [|d a IH]; cbn [String.append split]; [by rewrite Hc|]. destruct (f d); [by rewrite IH|].
    rewrite IH. by destruct (split_cons f a) as (t & r & ->). }
  unfold words. by rewrite E, List.filter_app.
Qed.
Lemma words_snoc f a c : f c = true -> words f (a ++ String c "") = words f a.
Proof. intros Hc. rewrite words_app by done. cbn. by rewrite app_nil_r. Qed.

(** strtok(3) takes the words one by one. *)
Lemma strtok_words f s : no_nul s ->
  match strtok f s with
  | None => words f s = []
  | Some (t, rest) => words f s = t :: words f rest /\ no_nul rest /\ no_nul t /\ t <> "" /\
      (String.length rest < String.length s)%nat
  end.
Proof.
  intros Hn. unfold strtok. rewrite words_skip. destruct (span f s) as [a s1] eqn:E1.
  destruct (span_spec _ _ _ _ E1) as (-> & Ha & Hb). unfold no_nul in Hn. rewrite all_chars_app in Hn.
  apply andb_true_iff in Hn as [_ Hn]. fold (no_nul s1) in Hn. cbn [snd].
  destruct s1 as [|c s1]; [done|]. pose proof Hn as [Hc Hn1]%no_nul_cons. unfold at_end. cbn [head]. rewrite Hc.
  destruct (span (fun c => negb (f c)) (String c s1)) as [t rest] eqn:E2.
  destruct (span_spec _ _ _ _ E2) as (E & Ht & Hr). rewrite E in Hn |- *. unfold no_nul in Hn. rewrite all_chars_app in Hn.
  apply andb_true_iff in Hn as [Hnt Hnr].
  assert (t <> "") as Hne. { intros ->. cbn in E, E2. rewrite Hb in E2. cbn in E2. by destruct (span _ s1). }
  rewrite str_length_app. destruct rest as [|d rest].
  - rewrite str_app_nil_r, words_last by done. split_and!; try done. destruct t; [done|]. cbn. lia.
  - cbn [tail]. apply no_nul_cons in Hnr as [Hd Hnr]. apply negb_false_iff in Hr.
    rewrite words_delim by done. split_and!; try done. rewrite str_length_app. cbn. lia.
Qed.

(** *** Lines *)

Lemma read_line_lf n a b : all_chars (fun c => negb (Ascii.eqb c LF)) a = true -> (String.length a < n)%nat ->
  read_line n (a ++ String LF b) = (a ++ String LF "", b).
Proof.
  revert n. induction a as [|c a IH]; intros [|n] Ha Hn; cbn in Ha, Hn |- *; try lia.
  - done.
  - apply andb_true_iff in Ha as [Hc Ha]. apply negb_true_iff in Hc as ->. by rewrite IH by (done || lia).
Qed.
Lemma read_line_last n a : all_chars (fun c => negb (Ascii.eqb c LF)) a = true -> (String.length a <= n)%nat ->
  read_line n a = (a, "").
Proof.
  revert n. induction a as [|c a IH]; intros [|n] Ha Hn; cbn in Ha, Hn |- *; try (done || lia).
  apply andb_true_iff in Ha as [Hc Ha]. apply negb_true_iff in Hc as ->. by rewrite IH by (done || lia).
Qed.

(** A text is its last line, or a line, a newline and the others. *)
Lemma lines_cases s : (all_chars (fun c => negb (Ascii.eqb c LF)) s = true /\ lines s = [s]) \/
  exists a b, s = a ++ String LF b /\ all_chars (fun c => negb (Ascii.eqb c LF)) a = true /\ lines s = a :: lines b.
Proof.
  destruct (split_cases (fun c => Ascii.eqb c LF) s) as [?|(a & c & b & -> & Ha & ->%Ascii.eqb_eq & E)]; [by left|right; by exists a, b].
Qed.

End words.
