(* ===== verification/ProgSpec.v ===== *)
(** What the proofs about the programs share: worlds in which a program has left
    nothing behind but errno and what it made of the kernel, and the objects a
    program holds for a while and releases. *)

From Stdlib Require Import ZArith Lia String Ascii.
From stdpp Require Import gmap list sets.
From S2P Require Import Prelude Capability World Exec Syscall Alloc Flag FlagSpec IabSpec Proc ProcSpec Text TextLex.
From S2P Require Import TextSpec TextParse TextPrint TextToText TextRound KernelLaws ModeSpec IabProcSpec IabText CLib.

Open Scope Z_scope.

Section prog.
Context {K : Type} `{!Kernel K}.
Implicit Types (w : world K) (k : K) (o : obj) (c : cap_struct).

(** [w'] is [w] but for errno and the kernel [k]; objects were made and all of
    them released. *)
Definition moved k w w' : Prop :=
  world_wf w' /\ mem_plenty w' /\ next w <= next w' /\
  w' = mkWorld (heap w) (next w') [] (errno w') (glob w) k (out w).

Lemma moved_refl w : world_wf w -> mem_plenty w -> moved (kst w) w w.
Proof. intros Hw Hm. split; [done|]. split; [done|]. split; [lia|]. unfold mem_plenty in Hm. destruct w. cbn in *. by subst. Qed.

Lemma moved_trans k k' w w1 w2 : moved k w w1 -> moved k' w1 w2 -> moved k' w w2.
Proof.
  intros (_ & _ & Hn & E) (Hw & Hm & Hn' & E'). split; [done|]. split; [done|]. split; [lia|].
  rewrite E' at 1. by rewrite E.
Qed.

Lemma moved_heap k w w' : moved k w w' -> heap w' = heap w.
Proof. intros (_ & _ & _ & E). by rewrite E. Qed.
Lemma moved_kst k w w' : moved k w w' -> kst w' = k.
Proof. intros (_ & _ & _ & E). by rewrite E. Qed.
Lemma moved_glob k w w' : moved k w w' -> glob w' = glob w.
Proof. intros (_ & _ & _ & E). by rewrite E. Qed.
Lemma moved_out k w w' : moved k w w' -> out w' = out w.
Proof. intros (_ & _ & _ & E). by rewrite E. Qed.
Lemma moved_wf k w w' : moved k w w' -> world_wf w' /\ mem_plenty w'.
Proof. by intros (? & ? & _). Qed.

Lemma moved_errno e k w w' : moved k w w' -> moved k w (with_errno e w').
Proof. intros ([Hn Hh] & Hm & Hle & E). split; [by split|]. split; [done|]. split; [done|]. rewrite E at 1. done. Qed.
Lemma moved_kernel k' k w w' : moved k w w' -> moved k' w (with_kst k' w').
Proof. intros ([Hn Hh] & Hm & Hle & E). split; [by split|]. split; [done|]. split; [done|]. rewrite E at 1. done. Qed.
Lemma moved_both e k' k w w' : moved k w w' -> moved k' w (with_errno e (with_kst k' w')).
Proof. intros H. eapply moved_errno, moved_kernel, H. Qed.

Lemma moved_later w w' : later w w' -> moved (kst w) w w'.
Proof. intros (Hw & Hm & Hle & E). split; [done|]. split; [done|]. split; [done|]. rewrite E. done. Qed.

Lemma moved_lookup k w w' p o : moved k w w' -> heap w !! p = Some o -> heap w' !! p = Some o.
Proof. intros H. by rewrite (moved_heap _ _ _ H). Qed.

(** *** An object held for a while *)

Lemma wf_placed_plenty o w : world_wf w -> mem_plenty w -> obj_wf o -> world_wf (placed o w) /\ mem_plenty (placed o w).
Proof. intros Hw Hm Ho. split; [by apply world_wf_placed|]. unfold mem_plenty in *. cbn. by rewrite Hm. Qed.

Lemma moved_holding c e k w : world_wf w -> mem_plenty w -> cap_wf c -> moved k (placed (OCap c) w) (holding c e k w).
Proof.
  intros Hw Hm Hc. split; [by apply holding_wf|]. split; [|split; [done|]].
  - unfold mem_plenty in *. cbn. by rewrite Hm.
  - unfold holding, placed. cbn. by rewrite Hm.
Qed.

Lemma held_lookup o k w w1 : moved k (placed o w) w1 -> heap w1 !! next w = Some o.
Proof. intros H. rewrite (moved_heap _ _ _ H). apply lookup_insert_eq. Qed.

(** Its release. *)
Lemma moved_release o k w w1 :
  world_wf w -> plain_obj o = true -> moved k (placed o w) w1 ->
  exists w2, cap_free (next w) w1 = (Ok 0, w2) /\ moved k w w2.
Proof.
  intros Hw Ho Hmv. pose proof Hmv as (Hw1 & Hm1 & Hle & E).
  rewrite (cap_free_plain _ o _ Hw1 (held_lookup _ _ _ _ Hmv) Ho). eexists. split; [reflexivity|].
  split; [by apply world_wf_delete|]. split; [done|]. cbn in Hle. split; [cbn; lia|]. unfold with_heap.
  cbn [heap next errno]. rewrite (moved_heap _ _ _ Hmv), (moved_glob _ _ _ Hmv), (moved_kst _ _ _ Hmv), (moved_out _ _ _ Hmv), Hm1.
  cbn [heap placed glob out]. rewrite delete_insert_id; [done|]. by apply wf_fresh.
Qed.

Lemma moved_done_with e k w : world_wf w -> mem_plenty w -> moved k w (done_with e k w).
Proof.
  intros Hw Hm. pose proof (spent_later w Hw Hm) as Hl. eapply moved_both. apply (moved_later _ _ Hl).
Qed.

(** *** Objects that come and go in any order *)

(** [w'] is [w] with the heap [h], but for errno and the kernel [k]. *)
Definition heaped (h : gmap Z obj) k w w' : Prop := moved k (with_heap h w) w'.

Lemma heaped_moved k w w' : heaped (heap w) k w w' <-> moved k w w'.
Proof. unfold heaped. by rewrite with_heap_id. Qed.
Lemma heaped_from h k w w' : heap w = h -> moved k w w' -> heaped h k w w'.
Proof. intros <-. apply heaped_moved. Qed.

Lemma heaped_then h k k' w w1 w2 : heaped h k w w1 -> moved k' w1 w2 -> heaped h k' w w2.
Proof. apply moved_trans. Qed.
Lemma heaped_heap h k w w' : heaped h k w w' -> heap w' = h.
Proof. apply moved_heap. Qed.
Lemma heaped_lookup h k w w' p o : heaped h k w w' -> h !! p = Some o -> heap w' !! p = Some o.
Proof. intros H. by rewrite (heaped_heap _ _ _ _ H). Qed.
Lemma heaped_wf h k w w' : heaped h k w w' -> world_wf w' /\ mem_plenty w'.
Proof. apply moved_wf. Qed.
Lemma heaped_fresh h k w w' : heaped h k w w' -> h !! next w' = None /\ next w' <> 0.
Proof.
  intros H. destruct (heaped_wf _ _ _ _ H) as [Hw _]. split; [|by apply wf_next_ne_0].
  rewrite <-(heaped_heap _ _ _ _ H). by apply wf_fresh.
Qed.
Lemma heaped_ne_0 h k w w' p o : heaped h k w w' -> h !! p = Some o -> p <> 0.
Proof. intros H Hp. destruct (heaped_wf _ _ _ _ H) as [Hw _]. eapply wf_ne_0; [done|by eapply heaped_lookup]. Qed.

Lemma heaped_placed o h k w w1 : obj_wf o -> heaped h k w w1 -> heaped (<[next w1 := o]> h) k w (placed o w1).
Proof.
  intros Ho (Hw & Hm & Hn & E). split; [by apply world_wf_placed|]. split; [unfold mem_plenty in *; cbn; by rewrite Hm|].
  cbn in Hn |- *. split; [lia|]. rewrite E. done.
Qed.

Lemma heaped_update o o' p h k w w1 : obj_wf o' -> h !! p = Some o -> heaped h k w w1 ->
  heaped (<[p := o']> h) k w (with_heap (<[p := o']> (heap w1)) w1).
Proof.
  intros Ho Hp H. pose proof (heaped_lookup _ _ _ _ _ _ H Hp) as Hp1. pose proof (heaped_heap _ _ _ _ H) as Eh.
  destruct H as ([Hn0 Hh] & Hm & Hn & E). split; [|split; [done|]; split; [done|]].
  - split; [done|]. cbn [heap next with_heap]. intros q x. rewrite lookup_insert. case_decide as Hq; [|apply Hh].
    subst q. intros [= <-]. destruct (Hh _ _ Hp1) as (? & ? & _). done.
  - rewrite Eh. rewrite E at 1. done.
Qed.

Lemma heaped_free o p h k w w1 : h !! p = Some o -> plain_obj o = true -> heaped h k w w1 ->
  exists w2, cap_free p w1 = (Ok 0, w2) /\ heaped (delete p h) k w w2.
Proof.
  intros Hp Ho H. pose proof (heaped_lookup _ _ _ _ _ _ H Hp) as Hp1. pose proof (heaped_heap _ _ _ _ H) as Eh.
  destruct H as (Hw & Hm & Hn & E). rewrite (cap_free_plain p o w1 Hw Hp1 Ho). eexists. split; [done|].
  split; [by apply world_wf_delete|]. split; [done|]. split; [done|]. rewrite Eh. rewrite E at 1. done.
Qed.

Lemma heaped_glob h k w w' : heaped h k w w' -> glob w' = glob w.
Proof. intros H. by rewrite (moved_glob _ _ _ H). Qed.

(** A line of output. *)
Lemma heaped_print s h k w w1 : heaped h k w w1 -> heaped h k (with_out (s :: out w) w) (with_out (s :: out w1) w1).
Proof. intros ([Hn Hh] & Hm & Hle & E). split; [by split|]. split; [done|]. split; [done|]. rewrite E at 1. rewrite E. done. Qed.

(** *** Memory *)

Lemma popped_plenty w : mem_plenty w -> popped w = w.
Proof. unfold mem_plenty, popped. destruct w. cbn. by intros ->. Qed.
Lemma libc_alloc_plenty w : mem_plenty w -> libc_alloc w = (Ok true, w).
Proof. intros Hm. rewrite libc_alloc_run, popped_plenty by done. by rewrite Hm. Qed.
Lemma strdup_run s w : mem_plenty w -> strdup s w = (Ok (Some s), w).
Proof. intros Hm. unfold strdup. by rewrite (bind_ok _ _ _ _ _ (libc_alloc_plenty _ Hm)). Qed.
Lemma cap_free_0 w : cap_free 0 w = (Ok 0, w).
Proof. done. Qed.

End prog.

Section laws.
Context {K : Type} `{!Kernel K, !KernelLaws K}.
Implicit Types (w : world K) (k : K).

Lemma moved_done_twice e k w : world_wf w -> mem_plenty w -> moved k w (done_twice e k w).
Proof.
  intros Hw Hm. pose proof (spent_later w Hw Hm) as Hl. destruct (later_wf _ _ Hl) as [Hw1 Hm1].
  pose proof (spent_later _ Hw1 Hm1) as Hl2. pose proof (moved_later _ _ (later_trans _ _ _ Hl Hl2)) as (Hw2 & _ & Hle & E).
  pose proof (moved_both e k (kst w) w _ (moved_later _ _ (later_trans _ _ _ Hl Hl2))) as H.
  unfold done_twice. replace (next w + 32) with (next w + 16 + 16) by lia.
  unfold with_errno, with_kst, spent in H. cbn in H. unfold mem_plenty in Hm. by rewrite Hm in H.
Qed.

(** The process's own set, in hand. *)
Lemma cap_get_proc_held w : world_wf w -> mem_plenty w ->
  exists d, capget_self (kst w) d /\ (forall s, valid_set s -> caps_of d s = cr_set (creds_of (kst w)) s) /\ u_wf d /\
    cap_get_proc w = (Ok (next w), holding (proc_cap d) (errno w) (kst w) w) /\ next w <> 0.
Proof.
  intros Hw Hm. destruct (law_capget (kst w)) as (d & Hd & Hc). exists d. split; [done|]. split; [done|].
  split; [destruct Hd as (_ & ? & ?); by split|]. pose proof (wf_next_ne_0 _ Hw) as Hn. split; [|done].
  apply cap_get_proc_run; try done; [|apply law_probe]. unfold mem_ok. by rewrite Hm.
Qed.

(** What a started program needs of the world it runs in. *)
Definition prog_world w : Prop := world_wf w /\ mem_plenty w /\ counted w /\ direct multithread w.

Lemma prog_text_world w : prog_world w -> text_world w.
Proof.
  intros (Hw & Hm & Hc & _). split; [done|]. split; [done|]. split; [apply law_probe|]. rewrite Hc.
  destruct law_last as [Hl _]. change CAP_MAXBITS with 64 in *. lia.
Qed.
Lemma prog_world_moved k w w' : moved k w w' -> prog_world w -> prog_world w'.
Proof.
  intros Hmv (Hw & Hm & Hc & Hd). pose proof (moved_wf _ _ _ Hmv) as [Hw' Hm']. split; [done|]. split; [done|].
  unfold counted, direct. by rewrite (moved_glob _ _ _ Hmv).
Qed.
Lemma prog_world_heaped h k w w' : heaped h k w w' -> prog_world w -> prog_world w'.
Proof.
  intros Hh (Hw & Hm & Hc & Hd). pose proof (heaped_wf _ _ _ _ Hh) as [Hw' Hm']. split; [done|]. split; [done|].
  unfold counted, direct. by rewrite (heaped_glob _ _ _ _ Hh).
Qed.
Lemma prog_world_placed o w : obj_wf o -> prog_world w -> prog_world (placed o w).
Proof. intros Ho (Hw & Hm & Hc & Hd). destruct (wf_placed_plenty o w Hw Hm Ho). by split_and!. Qed.

(** *** The words of the process's sets *)

(** [d] are the words of the sets that [cr] has. *)
Definition words_of (d : list capblk) (cr : creds) : Prop :=
  u_wf d /\ forall s, valid_set s -> caps_of d s = cr_set cr s.

(** The credentials change in the bounding set only. *)
Lemma words_of_bound d cr X : words_of d cr -> words_of d (with_bound X cr).
Proof. done. Qed.

(** Going back to them is always allowed. *)
Lemma words_of_restore d cr cr' : words_of d cr -> cr_perm cr' = cr_perm cr -> cr_inh cr' = cr_inh cr -> cr_eff cr ⊆ cr_perm cr ->
  capset_allowed cr' d /\
  (cr_amb cr' ⊆ cr_perm cr ∩ cr_inh cr ->
   after_capset cr' d = mkCreds (cr_eff cr) (cr_perm cr) (cr_inh cr) (cr_bound cr') (cr_amb cr') (cr_secbits cr')).
Proof.
  intros [Hu Hd] EP EI HEP. pose proof (Hd CAP_EFFECTIVE ltac:(done)) as HE. pose proof (Hd CAP_PERMITTED ltac:(done)) as HP.
  pose proof (Hd CAP_INHERITABLE ltac:(done)) as HI. unfold cr_set in HE, HP, HI. cbn in HE, HP, HI.
  unfold capset_allowed, after_capset. rewrite HE, HP, HI, EP, EI. clear HE HP HI Hd. split.
  - split; [done|]. split; [done|]. split; [done|]. split; [right|]; apply gset_union_l.
  - intros HA. f_equal. set_solver.
Qed.

Lemma words_of_raise x d cr : words_of d cr -> x ∈ cr_perm cr -> valid_cap x -> cr_eff cr ⊆ cr_perm cr ->
  capset_allowed cr (raise_cap x CAP_EFFECTIVE d) /\
  (cr_amb cr ⊆ cr_perm cr ∩ cr_inh cr ->
   after_capset cr (raise_cap x CAP_EFFECTIVE d) =
     mkCreds (cr_eff cr ∪ {[x]}) (cr_perm cr) (cr_inh cr) (cr_bound cr) (cr_amb cr) (cr_secbits cr)).
Proof.
  intros [Hu Hd] Hx Hv HEP. pose proof (Hd CAP_EFFECTIVE ltac:(done)) as HE. pose proof (Hd CAP_PERMITTED ltac:(done)) as HP.
  pose proof (Hd CAP_INHERITABLE ltac:(done)) as HI. unfold cr_set in HE, HP, HI. cbn in HE, HP, HI.
  assert (u_wf (raise_cap x CAP_EFFECTIVE d)) as Hu' by auto with words.
  unfold capset_allowed, after_capset. rewrite !caps_of_raise by done.
  cbn [Z.eqb CAP_EFFECTIVE CAP_PERMITTED CAP_INHERITABLE]. rewrite HE, HP, HI. clear HE HP HI Hd.
  split; [split; [done|]; split; [done|]; split; [set_solver|]; split; [right|]; set_solver|].
  intros HA. f_equal. set_solver.
Qed.

Lemma words_of_raise_refused x d cr : words_of d cr -> x ∉ cr_perm cr -> valid_cap x ->
  ~ capset_allowed cr (raise_cap x CAP_EFFECTIVE d).
Proof.
  intros [Hu Hd] Hx Hv (_ & HP & HE & _). pose proof (Hd CAP_PERMITTED ltac:(done)) as HP0. unfold cr_set in HP0. cbn in HP0.
  rewrite !(caps_of_raise x) in HE by done. cbn [Z.eqb CAP_EFFECTIVE CAP_PERMITTED] in HE.
  rewrite HP0 in HE. clear HP HP0 Hd. set_solver.
Qed.

End laws.
