(* ===== verification/Pam.v ===== *)
(** pam_cap/pam_cap.c: the PAM module that gives a user the inheritable, ambient
    and bounding sets the configuration file names for them. *)

From stdpp Require Import gmap list.
From Stdlib Require Import ZArith Lia String Ascii.
From S2P Require Import Prelude Capability World Exec Syscall Alloc Flag Proc Text CLib.

Open Scope string_scope.
Open Scope Z_scope.

(** ** The module's surroundings *)

Definition USER_CAP_FILE : string := "/etc/security/capability.conf".
Definition CAP_FILE_BUFFER_SIZE : nat := 4096.
(** [CAP_FILE_DELIMITERS] *)
Definition cap_file_delimiter (c : ascii) : bool :=
  Ascii.eqb c " " || Ascii.eqb c "009" || Ascii.eqb c LF.

Definition NGROUPS_MAX : Z := 65536.
Definition S_IWOTH : Z := 2.

(** <security/_pam_types.h> *)
Definition PAM_SUCCESS : Z := 0.
Definition PAM_AUTH_ERR : Z := 7.
Definition PAM_IGNORE : Z := 25.
Definition PAM_CONV_AGAIN : Z := 30.
Definition PAM_INCOMPLETE : Z := 31.
Definition PAM_ESTABLISH_CRED : Z := 0x2.
Definition PAM_REINITIALIZE_CRED : Z := 0x8.
Definition PAM_DATA_REPLACE : Z := 0x20000000.
Definition PAM_DATA_SILENT : Z := 0x40000000.

(** An opened file: what fstat(2) says of its mode, and its bytes. *)
Record conf_file := mkConf { cf_mode : option Z; cf_text : string }.

(** libpam. [pam_set_data] of the module's tuple gives the tuple it had kept
    under the same name, whose cleanup function libpam then calls. *)
Class Pam (K : Type) := {
  open_conf : K -> string -> option conf_file;
  pam_get_user : K -> Z * option string * K;
  pam_get_item_user : K -> Z * option string;
  pam_set_data : K -> Z -> Z * option Z * K
}.

Record pam_cap_s := mkPamCap {
  debug : bool;
  keepcaps : bool;
  autoauth : bool;
  defer : bool;
  user : option string;
  conf_filename : option string;
  fallback : option string
}.

Section pam.
Context {K : Type} `{!Kernel K, !Accounts K, !Pam K}.
Variable gperf : option (string -> option Z).
Implicit Types (w : world K) (p : Z).

(** ** The configuration *)

(** The loop over the numbers of the groups. *)
Fixpoint group_names (grps : list Z) : M K (list (option string)) :=
  match grps with
  | [] => mret []
  | gid :: grps =>
      g ← gets (fun w => getgrgid (kst w) gid);
      match g with
      | None => group_names grps
      | Some gr_name =>
          name ← strdup gr_name;
          names ← group_names grps;
          mret (name :: names)
      end
  end.

(** [load_groups]: the names of the groups, or failure. *)
Definition load_groups (user : string) : M K (option (list (option string))) :=
  pwd ← gets (fun w => getpwnam (kst w) user);
  match pwd with
  | None => mret None
  | Some pwd =>
      '(n, grps) ← gets (fun w => getgrouplist (kst w) user (pw_gid pwd) NGROUPS_MAX);
      if n <? 1 then mret None
      else
        ok ← libc_alloc;
        if negb ok then set_errno ENOMEM;; mret None
        else
          names ← group_names grps;
          mret (Some names)
  end.

(** The tests one word of a line is put to. *)
Definition id_matches (user : string) (groups : list (option string)) (line : string) : bool :=
  if String.eqb "*" line then true
  else if String.eqb user line then true
  else if negb (Ascii.eqb (head line) "@") then false
  else existsb (fun g => match g with Some g => String.eqb g (tail line) | None => false end) groups.

(** The inner loop: whether one of the words left in the line matches. *)
Fixpoint find_id (fuel : nat) (user : string) (groups : list (option string)) (next : string) : bool :=
  match fuel with
  | O => false
  | S fuel =>
      match strtok cap_file_delimiter next with
      | None => false
      | Some (line, next) => if id_matches user groups line then true else find_id fuel user groups next
      end
  end.

(** One line: the capabilities it gives the user. *)
Definition conf_line (user : string) (groups : list (option string)) (line : string) : option string :=
  match strtok cap_file_delimiter line with
  | None => None
  | Some (cap_text, next) =>
      if Ascii.eqb (head cap_text) "#" then None
      else if find_id (S (String.length next)) user groups next then Some cap_text
      else None
  end.

(** The loop over the lines; every turn takes a character at least. *)
Fixpoint conf_loop (fuel : nat) (user : string) (groups : list (option string)) (s : string) : option string :=
  match fuel with
  | O => None
  | S fuel =>
      match fgets CAP_FILE_BUFFER_SIZE s with
      | None => None
      | Some (line, s) =>
          match conf_line user groups line with
          | Some cap_text => Some cap_text
          | None => conf_loop fuel user groups s
          end
      end
  end.

Definition readable_conf (source : string) (f : conf_file) : bool :=
  String.eqb source "/dev/null" ||
  match cf_mode f with None => false | Some st_mode => Z.land st_mode S_IWOTH =? 0 end.

Definition read_capabilities_for_user (user source : string) : M K (option string) :=
  groups ← load_groups user;
  match groups with
  | None => mret None
  | Some groups =>
      cap_file ← gets (fun w => open_conf (kst w) source);
      cap_string ←
        match cap_file with
        | None => mret None
        | Some f =>
            if negb (readable_conf source f) then mret None
            else
              match conf_loop (S (String.length (cf_text f))) user groups (cf_text f) with
              | None => mret None
              | Some cap_text => strdup cap_text
              end
        end;
      (* memset(g, 0, strlen(g)) for every group *)
      assert_ub (forallb (fun g => match g with Some _ => true | None => false end) groups);;
      mret cap_string
  end.

(** ** Applying it *)

(** [iab_apply], which libpam calls with the tuple it has kept. *)
Definition iab_apply (data error_status : Z) : M K unit :=
  let iab := data in
  let retval := Z.ldiff error_status (Z.lor PAM_DATA_REPLACE PAM_DATA_SILENT) in
  (if negb (Z.land error_status PAM_DATA_REPLACE =? 0) then mret tt
   else if negb (retval =? PAM_SUCCESS) || (Z.land error_status PAM_DATA_SILENT =? 0) then mret tt
   else _ ← cap_iab_set_proc iab; mret tt);;
  _ ← cap_free iab;
  mret tt.

(** [pam_set_data(cs->pamh, "pam_cap_iab", iab, iab_apply)] *)
Definition keep_iab (iab : Z) : M K Z :=
  '(ret, old) ← (fun w => let '(ret, old, k) := pam_set_data (kst w) iab in (Ok (ret, old), with_kst k w));
  match old with
  | Some data => iab_apply data (Z.lor PAM_DATA_REPLACE PAM_SUCCESS);; mret ret
  | None => mret ret
  end.

(** The part of set_capabilities() from the tuple on. *)
Definition set_conf_iab (cs : pam_cap_s) (conf_caps : string) : M K bool :=
  iab ← cap_iab_from_text gperf (Some conf_caps);
  if iab =? 0 then mret false
  else
    '(iab, ok) ←
      (if defer cs then
         ret ← keep_iab iab;
         (if negb (ret =? PAM_SUCCESS) then _ ← cap_free iab; mret tt else mret tt);;
         mret (0, false)
       else
         r ← cap_iab_set_proc iab;
         mret (iab, r =? 0));
    _ ← cap_free iab;
    (if keepcaps cs then _ ← cap_prctlw PR_SET_KEEPCAPS 1 0 0 0 0; mret tt else mret tt);;
    mret ok.

(** What is done for a text of the configuration. *)
Definition apply_conf (cs : pam_cap_s) (cap_s : Z) (conf_caps : string) : M K bool :=
  if String.eqb conf_caps "all" then mret true
  else if String.eqb conf_caps "none" then
    _ ← cap_clear_flag cap_s CAP_INHERITABLE;
    r ← cap_set_proc cap_s;
    mret (r =? 0)
  else set_conf_iab cs conf_caps.

Definition set_capabilities (cs : pam_cap_s) : M K bool :=
  cap_s ← cap_get_proc;
  if cap_s =? 0 then mret false
  else
    conf_caps ←
      match user cs with
      | None => fault
      | Some u => read_capabilities_for_user u (default USER_CAP_FILE (conf_filename cs))
      end;
    conf_caps ←
      match conf_caps with
      | Some c => mret (Some c)
      | None => match fallback cs with None => mret None | Some f => strdup f end
      end;
    ok ← match conf_caps with None => mret false | Some c => apply_conf cs cap_s c end;
    _ ← cap_free cap_s;
    mret ok.

(** ** The entry points *)

Definition no_args : pam_cap_s := mkPamCap false false false false None None None.

Definition set_debug (c : pam_cap_s) := mkPamCap true (keepcaps c) (autoauth c) (defer c) (user c) (conf_filename c) (fallback c).
Definition set_keepcaps (c : pam_cap_s) := mkPamCap (debug c) true (autoauth c) (defer c) (user c) (conf_filename c) (fallback c).
Definition set_autoauth (c : pam_cap_s) := mkPamCap (debug c) (keepcaps c) true (defer c) (user c) (conf_filename c) (fallback c).
Definition set_defer (c : pam_cap_s) := mkPamCap (debug c) (keepcaps c) (autoauth c) true (user c) (conf_filename c) (fallback c).
Definition set_user u (c : pam_cap_s) := mkPamCap (debug c) (keepcaps c) (autoauth c) (defer c) u (conf_filename c) (fallback c).
Definition set_conf_filename f (c : pam_cap_s) := mkPamCap (debug c) (keepcaps c) (autoauth c) (defer c) (user c) (Some f) (fallback c).
Definition set_fallback f (c : pam_cap_s) := mkPamCap (debug c) (keepcaps c) (autoauth c) (defer c) (user c) (conf_filename c) (Some f).

(** One argument: the new settings, or what is logged. *)
Definition parse_arg (arg : string) (pcs : pam_cap_s) : pam_cap_s + string :=
  if String.eqb arg "debug" then inl (set_debug pcs)
  else if String.prefix "config=" arg then inl (set_conf_filename (str_drop 7 arg) pcs)
  else if String.eqb arg "keepcaps" then inl (set_keepcaps pcs)
  else if String.eqb arg "autoauth" then inl (set_autoauth pcs)
  else if String.prefix "default=" arg then inl (set_fallback (str_drop 8 arg) pcs)
  else if String.eqb arg "defer" then inl (set_defer pcs)
  else inr ("unknown option; " ++ arg).

Fixpoint parse_args (argv : list string) (pcs : pam_cap_s) : M K pam_cap_s :=
  match argv with
  | [] => mret pcs
  | arg :: argv =>
      match parse_arg arg pcs with
      | inl pcs => parse_args argv pcs
      | inr msg => print msg;; parse_args argv pcs
      end
  end.

Definition pam_sm_authenticate (flags : Z) (argv : list string) : M K Z :=
  pcs ← parse_args argv no_args;
  '(retval, u) ← (fun w => let '(r, u, k) := pam_get_user (kst w) in (Ok (r, u), with_kst k w));
  if retval =? PAM_CONV_AGAIN then mret PAM_INCOMPLETE
  else if autoauth pcs then mret PAM_SUCCESS
  else if negb (retval =? PAM_SUCCESS) then mret PAM_AUTH_ERR
  else
    conf_caps ←
      match u : option string with
      | None => fault
      | Some u => read_capabilities_for_user u (default USER_CAP_FILE (conf_filename pcs))
      end;
    match conf_caps with
    | Some _ => mret PAM_SUCCESS
    | None => mret PAM_IGNORE
    end.

Definition pam_sm_setcred (flags : Z) (argv : list string) : M K Z :=
  if Z.land flags (Z.lor PAM_ESTABLISH_CRED PAM_REINITIALIZE_CRED) =? 0 then mret PAM_IGNORE
  else
    pcs ← parse_args argv no_args;
    '(retval, u) ← gets (fun w => pam_get_item_user (kst w));
    if negb (retval =? PAM_SUCCESS)
       || match u : option string with None => true | Some u => String.eqb u "" end
    then mret PAM_AUTH_ERR
    else
      retval ← set_capabilities (set_user u pcs);
      mret (if retval : bool then PAM_SUCCESS else PAM_IGNORE).

End pam.
