(* ===== verification/PamSpec.v ===== *)
(** What the PAM module guarantees: which line of the configuration applies to a
    user, that a file anyone can write to is not believed, and what each entry
    point answers, changes and releases. *)

From Stdlib Require Import ZArith Lia String Ascii.
From stdpp Require Import gmap list sets.
From S2P Require Import Prelude Capability World Exec Syscall Alloc Flag FlagSpec IabSpec Proc ProcSpec Text TextLex.
From S2P Require Import TextSpec TextParse TextPrint TextToText TextRound KernelLaws ModeSpec IabProcSpec IabText CLib ProgSpec Pam.

Open Scope string_scope.
Open Scope Z_scope.

#[local] Arguments String.append !_ _ / : simpl nomatch.

(** ** The configuration file, by its lines and words *)

(** A word of a line stands for the user: anybody, the user, or a group. *)
Definition id_for (user : string) (groups : list string) (id : string) : Prop :=
  id = "*" \/ id = user \/ exists g, g ∈ groups /\ id = String "@" g.
#[global] Instance id_for_dec user groups id : Decision (id_for user groups id).
Proof.
  refine (cast_if (decide (id = "*" \/ id = user \/ Exists (fun g => id = String "@" g) groups)));
    abstract (unfold id_for; by rewrite <- Exists_exists).
Defined.

(** What a line gives the user: its first word, unless that starts a comment. *)
Definition line_for (user : string) (groups : list string) (line : string) : option string :=
  match words cap_file_delimiter line with
  | caps :: ids =>
      if Ascii.eqb (head caps) "#" then None
      else if decide (Exists (id_for user groups) ids) then Some caps else None
  | [] => None
  end.

(** The first line that applies decides. *)
Definition conf_for (user : string) (groups : list string) (text : string) : option string :=
  List.hd_error (omap (line_for user groups) (lines text)).

(** A file that fits the buffer of the module line by line. *)
Definition proper_conf (text : string) : Prop :=
  no_nul text /\ Forall (fun l => (String.length l < CAP_FILE_BUFFER_SIZE - 1)%nat) (lines text).

Section conf.
Implicit Types (user text line : string) (groups : list string).

Lemma id_matches_spec user groups id :
  id_matches user (map Some groups) id = bool_decide (id_for user groups id).
Proof.
  unfold id_matches. symmetry. destruct (String.eqb_spec "*" id) as [<-|H1]; [by apply bool_decide_eq_true; left|].
  destruct (String.eqb_spec user id) as [<-|H2]; [by apply bool_decide_eq_true; right; left|].
  destruct id as [|c id].
  { apply bool_decide_eq_false. intros [|[|(g & _ & Hg)]]; congruence. }
  cbn [head tail]. destruct (Ascii.eqb_spec c "@") as [->|Hc]; cbn [negb].
  - apply eq_true_iff_eq. rewrite bool_decide_eq_true, existsb_exists. split.
    + intros [|[|(g & Hg & [= ->])]]; [congruence..|]. exists (Some g). split; [|apply String.eqb_refl].
      apply in_map_iff. exists g. split; [done|]. by apply list_elem_of_In.
    + intros (o & Ho & Hg). apply in_map_iff in Ho as (g & <- & Hin). apply String.eqb_eq in Hg as ->.
      right. right. exists id. split; [|done]. by apply list_elem_of_In.
  - apply bool_decide_eq_false. intros [|[|(g & _ & Hg)]]; congruence.
Qed.

Lemma find_id_spec user groups fuel next : no_nul next -> (String.length next < fuel)%nat ->
  find_id fuel user (map Some groups) next = bool_decide (Exists (id_for user groups) (words cap_file_delimiter next)).
Proof.
  revert next. induction fuel as [|fuel IH]; intros next Hn Hf; [lia|]. cbn [find_id].
  pose proof (strtok_words cap_file_delimiter next Hn) as H. destruct (strtok cap_file_delimiter next) as [[t rest]|].
  - destruct H as (-> & Hr & _ & _ & Hl). rewrite id_matches_spec, IH by (done || lia). symmetry.
    destruct (bool_decide (id_for user groups t)) eqn:E.
    + apply bool_decide_eq_true in E. apply bool_decide_eq_true. by left.
    + apply bool_decide_eq_false in E. apply bool_decide_ext. rewrite Exists_cons. tauto.
  - rewrite H. symmetry. apply bool_decide_eq_false. intros He. inversion He.
Qed.

Lemma conf_line_spec user groups line : no_nul line ->
  conf_line user (map Some groups) line = line_for user groups line.
Proof.
  intros Hn. unfold conf_line, line_for. pose proof (strtok_words cap_file_delimiter line Hn) as H.
  destruct (strtok cap_file_delimiter line) as [[t rest]|]; [|by rewrite H].
  destruct H as (-> & Hr & _). destruct (Ascii.eqb (head t) "#"); [done|]. rewrite find_id_spec by (done || lia).
  by case_decide; case_bool_decide.
Qed.

(** The newline that ends a line in the buffer is no part of a word. *)
Lemma line_for_lf user groups a : all_chars (fun c => negb (Ascii.eqb c LF)) a = true ->
  line_for user groups (a ++ String LF "") = line_for user groups a.
Proof.
  intros _. unfold line_for. by rewrite words_snoc.
Qed.

(** The next line of the file. *)
Lemma fgets_line a b : all_chars (fun c => negb (Ascii.eqb c LF)) a = true -> no_nul a ->
  (String.length a < CAP_FILE_BUFFER_SIZE - 1)%nat ->
  fgets CAP_FILE_BUFFER_SIZE (a ++ String LF b) = Some (a ++ String LF "", b).
Proof.
  intros Ha Hn Hl. unfold fgets. rewrite read_line_lf by done. rewrite c_string_id.
  - by destruct a.
  - by apply no_nul_app.
Qed.
Lemma fgets_last a : a <> "" -> all_chars (fun c => negb (Ascii.eqb c LF)) a = true -> no_nul a ->
  (String.length a < CAP_FILE_BUFFER_SIZE - 1)%nat -> fgets CAP_FILE_BUFFER_SIZE a = Some (a, "").
Proof.
  intros Hne Ha Hn Hl. unfold fgets. rewrite read_line_last by (done || lia). rewrite c_string_id by done. by destruct a.
Qed.

Lemma conf_loop_spec user groups fuel text : proper_conf text -> (String.length text < fuel)%nat ->
  conf_loop fuel user (map Some groups) text = conf_for user groups text.
Proof.
  revert text. induction fuel as [|fuel IH]; intros text [Hn Hl] Hf; [lia|]. cbn [conf_loop]. unfold conf_for.
  destruct (lines_cases text) as [(Ha & E)|(a & b & -> & Ha & E)]; rewrite E in Hl |- *; apply Forall_cons in Hl as [Hlen Hl].
  - destruct (decide (text = "")) as [->|Hne]; [done|]. rewrite fgets_last, conf_line_spec by done. cbn [omap list_omap].
    destruct (line_for user groups text); [done|]. by destruct fuel.
  - apply no_nul_app in Hn as [Hna [_ Hnb]%no_nul_cons]. rewrite fgets_line by done.
    rewrite conf_line_spec, line_for_lf by (done || by apply no_nul_app). cbn [omap list_omap].
    destruct (line_for user groups a); [done|]. apply IH; [by split|]. rewrite str_length_app in Hf. cbn in Hf. lia.
Qed.

(** The line that decides. *)
Lemma conf_for_inv user groups text caps : conf_for user groups text = Some caps ->
  exists before line ids after, lines text = (before ++ line :: after)%list /\
    words cap_file_delimiter line = caps :: ids /\ head caps <> "#"%char /\
    (exists id, id ∈ ids /\ id_for user groups id) /\ Forall (fun l => line_for user groups l = None) before.
Proof.
  unfold conf_for. generalize (lines text). intros ls. induction ls as [|l ls IH]; [done|]. cbn [omap list_omap].
  destruct (line_for user groups l) as [c|] eqn:E.
  - intros [= ->]. unfold line_for in E. destruct (words cap_file_delimiter l) as [|c ids] eqn:Ew; [done|].
    destruct (Ascii.eqb_spec (head c) "#"); [done|]. case_decide as He; [|done]. injection E as ->.
    exists [], l, ids, ls. split_and!; try done. by apply Exists_exists in He.
  - intros H. destruct (IH H) as (before & line & ids & after & -> & Hw & Hc & Hid & Hb).
    exists (l :: before), line, ids, after. split_and!; try done. by constructor.
Qed.

End conf.

(** ** Reading it *)

Section read.
Context {K : Type} `{!Kernel K, !Accounts K, !Pam K}.
Implicit Types (w : world K) (k : K) (user source : string).

(** The groups of a user that have a name. *)
Definition groups_of k (grps : list Z) : list string := omap (getgrgid k) grps.

(** What the system and the configuration file [source] give a user. *)
Definition granted k user source : option string :=
  match getpwnam k user, open_conf k source with
  | Some pwd, Some f =>
      let '(n, grps) := getgrouplist k user (pw_gid pwd) NGROUPS_MAX in
      if n <? 1 then None
      else if readable_conf source f then conf_for user (groups_of k grps) (cf_text f) else None
  | _, _ => None
  end.

Lemma group_names_run grps w : mem_plenty w -> group_names grps w = (Ok (map Some (groups_of (kst w) grps)), w).
Proof.
  intros Hm. induction grps as [|gid grps IH]; [done|]. cbn [group_names]. rewrite (bind_ok _ _ _ _ _ (gets_run _ _)).
  unfold groups_of in *. cbn [omap list_omap]. destruct (getgrgid (kst w) gid) as [g|]; [|done].
  rewrite (bind_ok _ _ _ _ _ (strdup_run _ _ Hm)), (bind_ok _ _ _ _ _ IH). done.
Qed.

Lemma all_named groups : forallb (fun g => match g with Some _ => true | None => false end) (map (@Some string) groups) = true.
Proof. by induction groups. Qed.

Lemma read_capabilities_run user source w :
  mem_plenty w -> (forall f, open_conf (kst w) source = Some f -> proper_conf (cf_text f)) ->
  read_capabilities_for_user user source w = (Ok (granted (kst w) user source), w).
Proof.
  intros Hm Hf. unfold read_capabilities_for_user, granted, load_groups. rewrite bind_bind, (bind_ok _ _ _ _ _ (gets_run _ _)).
  destruct (getpwnam (kst w) user) as [pwd|]; [|done]. rewrite bind_bind, (bind_ok _ _ _ _ _ (gets_run _ _)).
  destruct (getgrouplist (kst w) user (pw_gid pwd) NGROUPS_MAX) as [n grps]. destruct (n <? 1).
  { by destruct (open_conf (kst w) source). }
  rewrite bind_bind, (bind_ok _ _ _ _ _ (libc_alloc_plenty _ Hm)). cbn [negb].
  rewrite bind_bind, (bind_ok _ _ _ _ _ (group_names_run grps _ Hm)), (bind_ok _ _ _ _ _ (ret_run _ _)),
    (bind_ok _ _ _ _ _ (gets_run _ _)). specialize (Hf). destruct (open_conf (kst w) source) as [f|].
  2:{ rewrite (bind_ok _ _ _ _ _ (ret_run _ _)), all_named. done. }
  destruct (readable_conf source f); cbn [negb].
  2:{ rewrite (bind_ok _ _ _ _ _ (ret_run _ _)), all_named. done. }
  rewrite conf_loop_spec by (try lia; by apply Hf). destruct (conf_for user (groups_of (kst w) grps) (cf_text f)) as [t|].
  - rewrite (bind_ok _ _ _ _ _ (strdup_run _ _ Hm)), all_named. done.
  - rewrite (bind_ok _ _ _ _ _ (ret_run _ _)), all_named. done.
Qed.

(** C19 What pam_cap reads for a user whose account has at least one group: the
    first line of the configuration file, neither empty nor a comment, one of
    whose words after the first is "*", the user's name, or "@" and a name of one
    of the user's groups, decides; its first word is the result. There is none
    for unknown users, when the file cannot be opened, and - whatever is in it -
    when it is not /dev/null and everybody may write to it or its mode cannot be
    read. Nothing in the world changes. *)
Theorem read_capabilities_correct user source w :
  mem_plenty w -> (forall f, open_conf (kst w) source = Some f -> proper_conf (cf_text f)) ->
  read_capabilities_for_user user source w = (Ok (granted (kst w) user source), w) /\
  (forall f, open_conf (kst w) source = Some f -> readable_conf source f = false -> granted (kst w) user source = None) /\
  (forall caps, granted (kst w) user source = Some caps ->
     exists f grps before line ids after, open_conf (kst w) source = Some f /\ lines (cf_text f) = (before ++ line :: after)%list /\
       words cap_file_delimiter line = caps :: ids /\ head caps <> "#"%char /\
       (exists id, id ∈ ids /\ id_for user (groups_of (kst w) grps) id) /\
       Forall (fun l => line_for user (groups_of (kst w) grps) l = None) before).
Proof.
  intros Hm Hf. split; [by apply read_capabilities_run|]. unfold granted. split.
  - intros f -> Hr. destruct (getpwnam (kst w) user) as [pwd|]; [|done]. rewrite Hr.
    destruct (getgrouplist (kst w) user (pw_gid pwd) NGROUPS_MAX). by case_match.
  - intros caps H. destruct (getpwnam (kst w) user) as [pwd|]; [|done]. destruct (open_conf (kst w) source) as [f|]; [|done].
    destruct (getgrouplist (kst w) user (pw_gid pwd) NGROUPS_MAX) as [n grps]. destruct (n <? 1); [done|].
    destruct (readable_conf source f); [|done]. destruct (conf_for_inv _ _ _ _ H) as (before & line & ids & after & ?).
    by exists f, grps, before, line, ids, after.
Qed.

End read.

(** ** Applying it *)

Section apply.
Context {K : Type} `{!Kernel K, !Accounts K, !Pam K, !KernelLaws K}.
Variable gperf : option (string -> option Z).
Implicit Types (w : world K) (k : K) (user caps : string) (cs pcs : pam_cap_s) (t : cap_iab_s).

(** *** The arguments *)

Definition set_arg pcs (arg : string) : pam_cap_s := match parse_arg arg pcs with inl c => c | inr _ => pcs end.
(** The settings that the arguments ask for, and the log lines on the others. *)
Definition settings (argv : list string) : pam_cap_s := foldl set_arg no_args argv.
Definition unknown_args (argv : list string) : list string :=
  omap (fun arg => match parse_arg arg no_args with inl _ => None | inr msg => Some msg end) argv.
Definition logged (argv : list string) w : world K := with_out (reverse (unknown_args argv) ++ out w)%list w.

Lemma parse_arg_msg arg pcs pcs' msg : parse_arg arg pcs = inr msg -> parse_arg arg pcs' = inr msg.
Proof. unfold parse_arg. by repeat case_match. Qed.
Lemma parse_arg_set arg pcs pcs' c : parse_arg arg pcs = inl c -> exists c', parse_arg arg pcs' = inl c'.
Proof. unfold parse_arg. repeat case_match; try done; eauto. Qed.

Lemma parse_args_run argv pcs w : parse_args argv pcs w = (Ok (foldl set_arg pcs argv), logged argv w).
Proof.
  revert pcs w. induction argv as [|arg argv IH]; intros pcs w; [by destruct w|]. cbn [parse_args foldl]. unfold set_arg at 2.
  destruct (parse_arg arg pcs) as [c|msg] eqn:E.
  - rewrite IH. destruct (parse_arg_set _ _ no_args _ E) as [c' E']. unfold logged, unknown_args. cbn [omap list_omap]. by rewrite E'.
  - unfold print. rewrite (bind_ok _ _ _ _ _ (modify_run _ _)), IH. unfold logged, unknown_args. cbn [omap list_omap].
    rewrite (parse_arg_msg _ _ no_args _ E), reverse_cons, <-app_assoc. done.
Qed.

Lemma logged_prog argv w : prog_world w -> prog_world (logged argv w).
Proof. by intros ([] & ? & ? & ?). Qed.

(** *** One text *)

(** The tuple a text stands for. *)
Definition tuple_of w (caps : string) : option cap_iab_s :=
  match iab_text_loop gperf (S (String.length caps)) (g_max_bits (glob w)) 0 caps iab0 with PGood t => Some t | _ => None end.

Lemma cap_iab_from_text_tuple caps w : gperf_ok gperf -> text_world w ->
  cap_iab_from_text gperf (Some caps) w =
    match tuple_of w caps with Some t => (Ok (next w), placed (OIab t) w) | None => (Ok 0, with_errno EINVAL (spent w)) end /\
  (forall t, tuple_of w caps = Some t -> iab_wf t /\ iab_inv t /\ iab_mutex t = false).
Proof.
  intros Hg Hw. destruct iab0_good as [H0 _]. rewrite cap_iab_from_text_step by done. unfold tuple_of.
  pose proof (iab_text_total gperf (S (String.length caps)) (g_max_bits (glob w)) 0 caps iab0 false Hg ltac:(lia) ltac:(done) H0) as H.
  destruct (iab_text_loop _ _ _ _ _ _) as [t| |]; [|by split|done]. split; [done|]. by intros ? [= <-].
Qed.

(** keepcaps: one more request. *)
Definition kept cs k k' : Prop :=
  if keepcaps cs then request (SYS_prctl PR_SET_KEEPCAPS 1 0 0 0 0) k k' else k' = k.

Definition no_inh (c : creds) : creds := mkCreds (cr_eff c) (cr_perm c) ∅ (cr_bound c) ∅ (cr_secbits c).

(** What the text [caps] makes of the kernel [k], for a module that does not
    defer: whether it is applied, and the kernel. *)
Definition applied w cs (caps : option string) k (ok : bool) k' : Prop :=
  match caps with
  | None => ok = false /\ k' = k
  | Some caps =>
      if String.eqb caps "all" then ok = true /\ k' = k
      else if String.eqb caps "none" then ok = true /\ creds_of k' = no_inh (creds_of k)
      else match tuple_of w caps with
        | None => ok = false /\ k' = k
        | Some t => exists k1, kept cs k1 k' /\
            ((capset_grants (creds_of k) (view t) /\ ok = true /\ creds_of k1 = iab_creds (view t) (creds_of k)) \/
             (~ capset_grants (creds_of k) (view t) /\ ok = false /\ k1 = k))
        end
  end.

(** The text does not ask for ambient capabilities that the kernel refuses once
    it has granted the rest. *)
Definition ambient_fits w (caps : option string) k : Prop :=
  forall c t, caps = Some c -> tuple_of w c = Some t ->
    capset_grants (creds_of k) (view t) -> ambient_ok (creds_of k) (view t).

Lemma keep_run cs k w w1 : moved k w w1 ->
  exists w2 k', (if keepcaps cs then _ ← cap_prctlw PR_SET_KEEPCAPS 1 0 0 0 0; mret tt else mret tt) w1 = (Ok tt, w2) /\
    kept cs k k' /\ moved k' w w2.
Proof.
  intros Hmv. unfold kept. destruct (keepcaps cs); [|by exists w1, k].
  destruct (libcap_wprctl6_talks multithread PR_SET_KEEPCAPS 1 0 0 0 0 w1) as (r & e & k' & l & H & [-> _] & Hi).
  unfold cap_prctlw. rewrite (bind_ok _ _ _ _ _ H). eexists _, k'. split; [reflexivity|]. split.
  - rewrite <-(moved_kst _ _ _ Hmv). inversion Hi as [|? ? ? ? ? Hr Hn]. subst. by inversion Hn; subst.
  - by eapply moved_both.
Qed.

Lemma set_conf_iab_run cs caps w : gperf_ok gperf -> prog_world w -> defer cs = false -> ambient_fits w (Some caps) (kst w) ->
  String.eqb caps "all" = false -> String.eqb caps "none" = false ->
  exists ok w' k', set_conf_iab gperf cs caps w = (Ok ok, w') /\ applied w cs (Some caps) (kst w) ok k' /\ moved k' w w' .
Proof.
  intros Hg Hw Hd Hfit Ha Hn. pose proof Hw as (Hwf & Hm & Hc & Hdir). unfold set_conf_iab, applied. rewrite Ha, Hn.
  destruct (cap_iab_from_text_tuple caps w Hg (prog_text_world _ Hw)) as [Hrun Ht].
  destruct (tuple_of w caps) as [t|] eqn:Et; rewrite (bind_ok _ _ _ _ _ Hrun).
  2:{ cbn [Z.eqb]. eexists false, _, (kst w). split; [reflexivity|]. split; [done|].
      by apply moved_errno, moved_later, spent_later. }
  destruct (Ht t eq_refl) as (Htw & Hinv & Hmx). destruct (Z.eqb_spec (next w) 0) as [E|_]; [by apply wf_next_ne_0 in Hwf|].
  rewrite Hd. set (w1 := placed (OIab t) w). assert (prog_world w1) as Hw1 by by apply prog_world_placed.
  destruct Hw1 as (Hwf1 & Hm1 & Hc1 & Hdir1).
  assert (exists r e k1, cap_iab_set_proc (next w) w1 = (Ok r, done_twice e k1 w1) /\
    ((capset_grants (creds_of (kst w)) (view t) /\ (r =? 0) = true /\ creds_of k1 = iab_creds (view t) (creds_of (kst w))) \/
     (~ capset_grants (creds_of (kst w)) (view t) /\ (r =? 0) = false /\ k1 = kst w))) as (r & e & k1 & H1 & Hres).
  { destruct (cap_iab_set_proc_run (next w) t w1 Hwf1 Hm1 Hdir1 Hc1 (lookup_insert_eq _ _ _) Hmx Hinv) as [Hy Hno].
    destruct (decide (capset_grants (creds_of (kst w)) (view t))) as [Hgr|Hgr].
    - destruct (Hy Hgr (Hfit _ _ eq_refl Et Hgr)) as (e & k1 & H & Hk). exists 0, e, k1. split; [exact H|by left].
    - exists (-1), EPERM, (kst w). split; [exact (Hno Hgr)|by right]. }
  rewrite bind_bind, (bind_ok _ _ _ _ _ H1), (bind_ok _ _ _ _ _ (ret_run _ _)).
  destruct (moved_release (OIab t) k1 w (done_twice e k1 w1) Hwf) as (w2 & H2 & Hmv2);
    [done|by apply moved_done_twice|].
  rewrite (bind_ok _ _ _ _ _ H2). destruct (keep_run cs k1 w w2 Hmv2) as (w3 & k' & H3 & Hk & Hmv3).
  rewrite (bind_ok _ _ _ _ _ H3). exists (r =? 0), w3, k'. split; [done|]. split; [|done]. by exists k1.
Qed.

(** *** set_capabilities() *)

(** The inheritable set is emptied. *)
Lemma clear_inh_run w d : prog_world w -> capget_self (kst w) d ->
  (forall s, valid_set s -> caps_of d s = cr_set (creds_of (kst w)) s) -> u_wf d ->
  exists w2 k', (_ ← cap_clear_flag (next w) CAP_INHERITABLE; r ← cap_set_proc (next w); mret (r =? 0))
      (holding (proc_cap d) (errno w) (kst w) w) = (Ok true, w2) /\
    creds_of k' = no_inh (creds_of (kst w)) /\
    exists c, cap_wf c /\ c_mutex c = false /\ w2 = holding c (errno w) k' w.
Proof.
  intros (Hwf & Hm & Hc & Hd) Hself Hcaps Hu. pose proof (wf_next_ne_0 _ Hwf) as Hn.
  destruct (law_valid (kst w)) as (_ & _ & HEP & Hamb & _).
  rewrite (bind_ok _ _ _ _ _ (holding_clear_flag (proc_cap d) _ _ _ CAP_INHERITABLE Hn eq_refl ltac:(done))).
  set (c := with_u _ (proc_cap d)).
  assert (forall s, valid_set s -> s <> CAP_INHERITABLE -> caps_of (c_u c) s = cr_set (creds_of (kst w)) s) as Hc'.
  { intros s Hs Hne. cbn [c_u c with_u proc_cap]. rewrite caps_of_fill by done. by apply Hcaps. }
  assert (caps_of (c_u c) CAP_INHERITABLE = ∅) as HI by by apply caps_of_fill_0.
  assert (u_wf (c_u c)) as Hu' by (apply u_wf_fill; [done|intros; apply is_u32_0]).
  pose proof (Hc' CAP_EFFECTIVE ltac:(done) ltac:(done)) as HE. pose proof (Hc' CAP_PERMITTED ltac:(done) ltac:(done)) as HP.
  destruct (holding_set_proc_ok multithread c (errno w) (kst w) w Hn eq_refl eq_refl eq_refl Hd) as (k' & H & Hk).
  { unfold capset_allowed. rewrite HI, HE, HP. cbn. split; [done|]. split; [done|]. split; [done|]. split; [right|]; apply empty_subseteq. }
  unfold cap_set_proc. rewrite (bind_ok _ _ _ _ _ H). exists (holding c (errno w) k' w), k'. split; [done|]. split.
  - rewrite Hk. unfold after_capset, no_inh. rewrite HI, HE, HP. cbn. f_equal. set_solver.
  - by exists c.
Qed.

(** The text that counts. *)
Definition assigned cs user k : option string :=
  match granted k user (default USER_CAP_FILE (conf_filename cs)) with Some c => Some c | None => fallback cs end.

Definition conf_proper cs k : Prop :=
  forall f, open_conf k (default USER_CAP_FILE (conf_filename cs)) = Some f -> proper_conf (cf_text f).

Lemma set_capabilities_run cs u w : gperf_ok gperf -> prog_world w -> user cs = Some u -> conf_proper cs (kst w) ->
  defer cs = false -> ambient_fits w (assigned cs u (kst w)) (kst w) ->
  exists ok w' k', set_capabilities gperf cs w = (Ok ok, w') /\ applied w cs (assigned cs u (kst w)) (kst w) ok k' /\ moved k' w w'.
Proof.
  intros Hg Hw Hu Hconf Hd Hfit. pose proof Hw as (Hwf & Hm & Hcnt & Hdir). unfold set_capabilities.
  destruct (cap_get_proc_held w Hwf Hm) as (d & Hself & Hcaps & Hud & H1 & Hn). rewrite (bind_ok _ _ _ _ _ H1).
  destruct (Z.eqb_spec (next w) 0); [done|]. rewrite Hu. set (w1 := holding (proc_cap d) (errno w) (kst w) w).
  assert (moved (kst w) (placed (OCap (proc_cap d)) w) w1) as Hmv1 by by apply moved_holding.
  assert (prog_world w1) as Hw1 by (by eapply prog_world_moved, prog_world_placed).
  rewrite (bind_ok _ _ _ _ _ (read_capabilities_run u _ w1 (proj1 (proj2 Hw1)) Hconf)).
  assert (forall o, match o with Some c => mret (Some c) | None => match fallback cs with None => mret None | Some f => strdup f end end w1 =
    (Ok (match o with Some c => Some c | None => fallback cs end), w1)) as Hfb.
  { intros [c|]; [done|]. destruct (fallback cs); [|done]. apply strdup_run, Hw1. }
  rewrite (bind_ok _ _ _ _ _ (Hfb _)). change (kst w1) with (kst w). fold (assigned cs u (kst w)).
  assert (exists ok w2 k' c, match assigned cs u (kst w) with Some caps => apply_conf gperf cs (next w) caps | None => mret false end w1 = (Ok ok, w2) /\
    applied w cs (assigned cs u (kst w)) (kst w) ok k' /\ c_mutex c = false /\ moved k' (placed (OCap c) w) w2)
    as (ok & w2 & k' & c & H2 & Happ & Hmx & Hmv2).
  { destruct (assigned cs u (kst w)) as [caps|]; [|by exists false, w1, (kst w), (proc_cap d)]. unfold apply_conf.
    destruct (String.eqb caps "all") eqn:Ha; [|destruct (String.eqb caps "none") eqn:Hno].
    - exists true, w1, (kst w), (proc_cap d). split; [done|]. split; [|done]. cbn. by rewrite Ha.
    - destruct (clear_inh_run w d Hw Hself Hcaps Hud) as (w2 & k' & H & Hk & c & Hc & Hmx & ->).
      exists true, (holding c (errno w) k' w), k', c. split; [exact H|]. split; [cbn; by rewrite Ha, Hno|]. split; [done|].
      by apply moved_holding.
    - destruct (set_conf_iab_run cs caps w1 Hg Hw1 Hd Hfit Ha Hno) as (ok & w2 & k' & H & Happ & Hmv).
      exists ok, w2, k', (proc_cap d). split; [exact H|]. split; [exact Happ|]. split; [done|]. exact (moved_trans _ _ _ _ _ Hmv1 Hmv). }
  rewrite (bind_ok _ _ _ _ _ H2). destruct (moved_release (OCap c) k' w w2 Hwf) as (w3 & H3 & Hmv3); [cbn; by rewrite Hmx|done|].
  rewrite (bind_ok _ _ _ _ _ H3). by exists ok, w3, k'.
Qed.

(** ** The entry points *)


(** *** Deferred tuples *)

Lemma apply_status_spec status : 0 <= status ->
  Z.land status PAM_DATA_REPLACE = 0 -> Z.ldiff status (Z.lor PAM_DATA_REPLACE PAM_DATA_SILENT) = PAM_SUCCESS ->
  Z.land status PAM_DATA_SILENT <> 0 -> status = PAM_DATA_SILENT.
Proof.
  intros H0 Hr Hl Hs. assert (status = Z.land status PAM_DATA_SILENT) as E.
  { apply Z.bits_inj'. intros n Hn. assert (Z.testbit (Z.land status PAM_DATA_REPLACE) n = false) as H1 by (by rewrite Hr, Z.testbit_0_l).
    assert (Z.testbit (Z.ldiff status (Z.lor PAM_DATA_REPLACE PAM_DATA_SILENT)) n = false) as H2 by (rewrite Hl; apply Z.testbit_0_l).
    rewrite Z.land_spec in *. rewrite Z.ldiff_spec, Z.lor_spec in H2.
    destruct (Z.testbit status n), (Z.testbit PAM_DATA_REPLACE n), (Z.testbit PAM_DATA_SILENT n); done. }
  change PAM_DATA_SILENT with (2 ^ 30) in *. rewrite E. apply Z.bits_inj'. intros n Hn. rewrite Z.land_spec, !Z.pow2_bits_eqb by lia.
  destruct (Z.eqb_spec 30 n) as [<-|]; [|by rewrite andb_false_r]. rewrite andb_true_r.
  destruct (Z.testbit status 30) eqn:Hb; [done|]. exfalso. apply Hs. apply Z.bits_inj'. intros m Hm.
  rewrite Z.land_spec, Z.testbit_0_l, Z.pow2_bits_eqb by lia. destruct (Z.eqb_spec 30 m) as [<-|]; [by rewrite Hb|apply andb_false_r].
Qed.

Lemma release_tuple p t k w w1 : heap w !! p = Some (OIab t) -> moved k w w1 ->
  exists w2, cap_free p w1 = (Ok 0, w2) /\ moved k (with_heap (delete p (heap w)) w) w2.
Proof.
  intros Hp Hmv. pose proof Hmv as (Hw1 & Hm1 & Hle & E). pose proof (moved_lookup _ _ _ _ _ Hmv Hp) as Hp1.
  rewrite (cap_free_plain _ _ _ Hw1 Hp1 eq_refl). eexists. split; [reflexivity|].
  split; [by apply world_wf_delete|]. split; [done|]. split; [done|]. unfold with_heap. cbn [heap next errno glob out].
  by rewrite (moved_heap _ _ _ Hmv), (moved_glob _ _ _ Hmv), (moved_kst _ _ _ Hmv), (moved_out _ _ _ Hmv), Hm1.
Qed.

(** C20 iab_apply(), which libpam calls with the tuple that a deferred
    pam_sm_setcred() left with it: the tuple becomes the process's, if the kernel
    grants it, exactly when libpam reports PAM_SUCCESS and asks for silence -
    that is, in the process the session was opened for; when the tuple was
    replaced, on an error or without that request the credentials stay as they
    are. In every case the tuple is released, and nothing else. *)
Theorem iab_apply_correct p status t w :
  prog_world w -> heap w !! p = Some (OIab t) -> iab_mutex t = false -> iab_inv t -> 0 <= status ->
  (capset_grants (creds_of (kst w)) (view t) -> ambient_ok (creds_of (kst w)) (view t)) ->
  exists w' k', iab_apply p status w = (Ok tt, w') /\ moved k' (with_heap (delete p (heap w)) w) w' /\
    (status = Z.lor PAM_SUCCESS PAM_DATA_SILENT -> capset_grants (creds_of (kst w)) (view t) -> creds_of k' = iab_creds (view t) (creds_of (kst w))) /\
    (status <> Z.lor PAM_SUCCESS PAM_DATA_SILENT \/ ~ capset_grants (creds_of (kst w)) (view t) -> k' = kst w).
Proof.
  intros Hw Hp Hmx Hinv Hst Hfit. pose proof Hw as (Hwf & Hm & Hcnt & Hdir). unfold iab_apply.
  assert (forall w1, moved (kst w) w w1 -> (status <> PAM_DATA_SILENT \/ ~ capset_grants (creds_of (kst w)) (view t)) ->
    exists w' k', (_ ← cap_free p; mret tt) w1 = (Ok tt, w') /\ moved k' (with_heap (delete p (heap w)) w) w' /\
    (status = PAM_DATA_SILENT -> capset_grants (creds_of (kst w)) (view t) -> creds_of k' = iab_creds (view t) (creds_of (kst w))) /\
    (status <> PAM_DATA_SILENT \/ ~ capset_grants (creds_of (kst w)) (view t) -> k' = kst w)) as Hnot.
  { intros w1 Hmv Hno. destruct (release_tuple p t (kst w) w w1 Hp Hmv) as (w2 & H2 & Hmv2).
    rewrite (bind_ok _ _ _ _ _ H2). exists w2, (kst w). split; [done|]. split; [done|]. split; [|done]. intros E Hg. by destruct Hno. }
  change (Z.lor PAM_SUCCESS PAM_DATA_SILENT) with PAM_DATA_SILENT.
  destruct (Z.eqb_spec (Z.land status PAM_DATA_REPLACE) 0) as [Hr|Hr]; cbn [negb].
  2:{ rewrite (bind_ok _ _ _ _ _ (ret_run _ _)). apply Hnot; [by apply moved_refl|]. left. intros ->. by apply Hr. }
  destruct (Z.eqb_spec (Z.ldiff status (Z.lor PAM_DATA_REPLACE PAM_DATA_SILENT)) PAM_SUCCESS) as [Hl|Hl]; cbn [negb orb].
  2:{ rewrite (bind_ok _ _ _ _ _ (ret_run _ _)). apply Hnot; [by apply moved_refl|]. left. intros ->. by apply Hl. }
  destruct (Z.eqb_spec (Z.land status PAM_DATA_SILENT) 0) as [Hs|Hs].
  { rewrite (bind_ok _ _ _ _ _ (ret_run _ _)). apply Hnot; [by apply moved_refl|]. left. by intros ->. }
  pose proof (apply_status_spec status Hst Hr Hl Hs) as E.
  destruct (cap_iab_set_proc_run p t w Hwf Hm Hdir Hcnt Hp Hmx Hinv) as [Hy Hno].
  destruct (decide (capset_grants (creds_of (kst w)) (view t))) as [Hg|Hg].
  - destruct (Hy Hg (Hfit Hg)) as (e & k & H & Hk). rewrite bind_bind, (bind_ok _ _ _ _ _ H), (bind_ok _ _ _ _ _ (ret_run _ _)).
    destruct (release_tuple p t k w _ Hp (moved_done_twice e k w Hwf Hm)) as (w2 & H2 & Hmv2).
    rewrite (bind_ok _ _ _ _ _ H2). exists w2, k. split; [done|]. split; [done|]. split; [done|]. intros [?|?]; done.
  - rewrite bind_bind, (bind_ok _ _ _ _ _ (Hno Hg)), (bind_ok _ _ _ _ _ (ret_run _ _)). apply Hnot; [by apply moved_done_twice|by right].
Qed.

(** pam_sm_authenticate() answers PAM_INCOMPLETE while the name of the user is
    not known yet, PAM_SUCCESS without a further look when it was told to
    ("autoauth"), PAM_AUTH_ERR when there is no name, and otherwise PAM_SUCCESS
    for a user whom the configuration gives capabilities and PAM_IGNORE for all
    others. It changes no credentials, and allocates no object of libcap. *)
Theorem pam_sm_authenticate_correct flags argv u k w r :
  mem_plenty w -> pam_get_user (kst w) = (r, Some u, k) ->
  let cs := settings argv in
  conf_proper cs k ->
  pam_sm_authenticate flags argv w =
    (Ok (if r =? PAM_CONV_AGAIN then PAM_INCOMPLETE else if autoauth cs then PAM_SUCCESS
         else if negb (r =? PAM_SUCCESS) then PAM_AUTH_ERR
         else match granted k u (default USER_CAP_FILE (conf_filename cs)) with Some _ => PAM_SUCCESS | None => PAM_IGNORE end),
     with_kst k (logged argv w)).
Proof.
  intros Hm Hu cs Hconf. unfold pam_sm_authenticate. rewrite (bind_ok _ _ _ _ _ (parse_args_run _ _ _)).
  rewrite (bind_ok _ _ _ (r, Some u) (with_kst k (logged argv w))) by (cbn; by rewrite Hu). fold (settings argv). fold cs.
  destruct (r =? PAM_CONV_AGAIN); [done|]. destruct (autoauth cs); [done|]. destruct (r =? PAM_SUCCESS); [|done]. cbn [negb].
  rewrite (bind_ok _ _ _ _ _ (read_capabilities_run u _ (with_kst k (logged argv w)) Hm Hconf)). cbn [kst with_kst].
  by destruct (granted k u _).
Qed.

End apply.
