(* ===== verification/Tools.v ===== *)
(** The command line tools progs/setcap.c, progs/getcap.c and progs/getpcaps.c.
    A program is its main(), from the arguments after its name to the exit
    status; what it prints, on either stream, is added to [out] - the usage and
    license texts abbreviated. *)

From stdpp Require Import gmap list.
From Stdlib Require Import ZArith Lia String Ascii.
From S2P Require Import Prelude Capability World Syscall Alloc Flag File Proc Text CLib.

Open Scope string_scope.
Open Scope Z_scope.

Definition ENOTSUP : Z := 95.
Definition EOVERFLOW : Z := 75.

(** [%d] of an unsigned 32-bit value. *)
Definition s32 (x : Z) : Z := if x <? 2147483648 then x else x - 4294967296.
Definition nl : string := String LF "".

(** Standard input: read(2) of at most so many bytes. The tree below a
    directory as nftw(3) with FTW_PHYS visits it, each file with its type flag;
    the mode lstat(2) gives. *)
Class Streams (K : Type) := {
  read_stdin : K -> Z -> Z * string * K;
  sys_lstat : K -> string -> Z * Z;
  nftw_visits : K -> string -> list (string * Z)
}.
Definition FTW_F : Z := 0.
Definition FTW_NS : Z := 3.
Definition FTW_SL : Z := 4.

Section tools.
Context {K : Type} `{!Kernel K, !FileSys K, !Streams K}.
Variable gperf : option (string -> option Z).
(** The bytes of uninitialised automatic variables, strerror(3), and getopt(3):
    the option letters, and the operands. *)
Variable stack : list Z.
Variable strerror : Z -> string.
Variable getopt : list string -> string -> list ascii * list string.
Implicit Types (w : world K) (p : Z).

Definition perror (s : string) : M K unit := e ← get_errno; print (s ++ ": " ++ strerror e ++ nl).

(** ** setcap *)

Definition usage_text : string :=
  "usage: setcap [--license] [-f] [-h] [-n <rootid>] [-q] [-v] (-r|-|<caps>) <filename> [ ... (-r|-|<capsN>) <filenameN> ]".
Definition setcap_usage {A} (status : Z) : M K A := print usage_text;; exit status.

(** [pos_uint(text, prefix, NULL)]: the number, unless it is to be refused. *)
Definition pos_uint_val (text : string) : option Z :=
  if (strlen text =? 0) || Ascii.eqb (head text) "-" then None
  else
    let '(value, remains, _) := c_strtoul 0 text in
    if negb (at_end remains) || (value =? 0) || negb (value =? u32 value) then None else Some value.
Definition pos_uint (text prefix : string) : M K Z :=
  match pos_uint_val text with
  | Some value => mret value
  | None => print (prefix ++ ": want positive integer, got " ++ text);; exit 1
  end.

Definition MAXCAP : Z := 2048.

(** The loop of read_caps(): [i] bytes of the buffer are left, [text] was read. *)
Fixpoint read_caps_loop (fuel : nat) (i : Z) (text : string) : M K (Z * string) :=
  match fuel with
  | O => spin
  | S fuel =>
      if i <=? 0 then mret (i, text)
      else
        '(j, bytes) ← (fun w => let '(r, bytes, k) := read_stdin (kst w) i in
                         (r ← libc_ret r; mret (r, bytes)) (with_kst k w));
        if j <? 0 then print "[Error - aborting]";; exit 1
        else
          assert_ub ((j =? strlen bytes) && (j <=? i));;
          if (j =? 0) || Ascii.eqb (head bytes) LF then mret (i, text)
          else read_caps_loop fuel (i - j) (text ++ bytes)
  end.

(** [read_caps]: the C string left in the buffer, and whether it is one. Every
    turn reads a byte. *)
Definition read_caps (quiet : bool) : M K (bool * string) :=
  (if quiet then mret tt else print "Please enter caps for file [empty line to end]:");;
  '(i, text) ← read_caps_loop (S (Z.to_nat MAXCAP)) MAXCAP "";
  mret (i <? MAXCAP, c_string text).

(** [non_space] *)
Fixpoint has_non_space (text : string) : bool :=
  match text with
  | EmptyString => false
  | String c text => if isspace c then has_non_space text else true
  end.

(** The loop that compares the effective bits with the others, from capability
    [cap] on: [somebits] and [explained]. *)
Fixpoint explain_loop (fuel : nat) (cap_d cap : Z) (somebits : bool) : M K (bool * bool) :=
  match fuel with
  | O => spin
  | S fuel =>
      '(r, per_state) ← cap_get_flag cap_d cap CAP_PERMITTED true;
      if r =? -1 then mret (somebits, false)
      else
        '(_, inh_state) ← cap_get_flag cap_d cap CAP_INHERITABLE true;
        '(_, eff_state) ← cap_get_flag cap_d cap CAP_EFFECTIVE true;
        match (per_state : option Z), (inh_state : option Z), (eff_state : option Z) with
        | Some per_state, Some inh_state, Some eff_state =>
            let combined := Z.lor inh_state per_state in
            let somebits := somebits || negb (eff_state =? 0) in
            if negb (combined =? eff_state) then mret (somebits, true)
            else explain_loop fuel cap_d (cap + 1) somebits
        | _, _, _ => fault
        end
  end.

(** [mycaps], and what the options have set. *)
Record setcap_state := mkSetcap {
  sc_mycaps : Z;
  sc_tried : bool;
  sc_quiet : bool;
  sc_verify : bool;
  sc_forced : bool;
  sc_rootid : Z
}.
Definition sc_with_tried (s : setcap_state) := mkSetcap (sc_mycaps s) true (sc_quiet s) (sc_verify s) (sc_forced s) (sc_rootid s).
Definition sc_with_quiet (s : setcap_state) := mkSetcap (sc_mycaps s) (sc_tried s) true (sc_verify s) (sc_forced s) (sc_rootid s).
Definition sc_with_verify (s : setcap_state) := mkSetcap (sc_mycaps s) (sc_tried s) (sc_quiet s) true (sc_forced s) (sc_rootid s).
Definition sc_with_forced (s : setcap_state) := mkSetcap (sc_mycaps s) (sc_tried s) (sc_quiet s) (sc_verify s) true (sc_rootid s).
Definition sc_with_rootid r (s : setcap_state) := mkSetcap (sc_mycaps s) (sc_tried s) (sc_quiet s) (sc_verify s) (sc_forced s) r.

(** The set that an argument describes: NULL for -r. *)
Definition wanted_caps (s : setcap_state) (arg : string) : M K Z :=
  if String.eqb arg "-r" then mret 0
  else
    text ← (if String.eqb arg "-" then
              '(ok, buffer) ← read_caps (sc_quiet s);
              if ok : bool then mret buffer else setcap_usage 1
            else mret arg);
    if negb (has_non_space text) then print "empty space is an invalid capability, did you mean -r?";; exit 1
    else
      cap_d ← cap_from_text gperf (Some text);
      if cap_d =? 0 then print ("argument: " ++ text);; perror "fatal error";; setcap_usage 1
      else
        r ← cap_set_nsowner cap_d (sc_rootid s);
        if negb (r =? 0) then perror "unable to set nsowner";; exit 1
        else mret cap_d.

(** One letter of the report. *)
Definition differs (cmp flag : Z) (letter : string) : string :=
  if CAP_DIFFERS cmp flag then letter else "".

(** -v: compare the file with [cap_d]; the set in hand afterwards. *)
Definition verify_file (s : setcap_state) (cap_d : Z) (file : string) : M K Z :=
  cap_d ← (if cap_d =? 0 then
             c ← cap_init;
             if c =? 0 then perror "unable to obtain empty capability";; exit 1 else mret c
           else mret cap_d);
  cap_on_file ← cap_get_file stack file;
  cap_on_file ← (if cap_on_file =? 0 then
                   c ← cap_init;
                   if c =? 0 then perror "unable to use missing capability";; exit 1 else mret c
                 else mret cap_on_file);
  cmp ← cap_compare cap_on_file cap_d;
  f_rootid ← cap_get_nsowner cap_on_file;
  _ ← cap_free cap_on_file;
  if negb (cmp =? 0) || negb (sc_rootid s =? f_rootid) then
    (if sc_quiet s then mret tt
     else
       (if negb (sc_rootid s =? f_rootid)
        then print ("nsowner[got=" ++ fmt_d (s32 f_rootid) ++ ", want=" ++ fmt_d (s32 (sc_rootid s)) ++ "],") else mret tt);;
       print (file ++ " differs in [" ++ differs cmp CAP_PERMITTED "p" ++ differs cmp CAP_INHERITABLE "i"
              ++ differs cmp CAP_EFFECTIVE "e" ++ "]"));;
    exit 1
  else
    (if sc_quiet s then mret tt else print (file ++ ": OK"));;
    mret cap_d.

(** CAP_SETFCAP is made effective once. *)
Definition raise_setfcap (s : setcap_state) : M K unit :=
  if sc_tried s then mret tt
  else
    r ← cap_set_flag (sc_mycaps s) CAP_EFFECTIVE 1 [CAP_SETFCAP] CAP_SET;
    if negb (r =? 0) then perror "unable to manipulate CAP_SETFCAP - try a newer libcap?";; exit 1
    else
      r ← cap_set_proc (sc_mycaps s);
      if negb (r =? 0) then perror "unable to set CAP_SETFCAP effective capability";; exit 1
      else mret tt.

(** The [switch (errno)] after a refused cap_set_file(). *)
Definition set_file_failed (s : setcap_state) (cap_d : Z) (file : string) : M K unit :=
  e ← get_errno;
  if e =? EINVAL then print ("Invalid file '" ++ file ++ "' for capability operation");; exit 1
  else if (e =? ENODATA) && (cap_d =? 0) then
    print ("File '" ++ file ++ "' has no capability to remove");;
    if sc_forced s then mret tt else exit 1
  else print ("Failed to set capabilities on file '" ++ file ++ "': " ++ strerror e);; exit 1.

(** Without -v: set or remove the capabilities of the file. *)
Definition change_file (s : setcap_state) (cap_d : Z) (file : string) : M K setcap_state :=
  raise_setfcap s;;
  let s := sc_with_tried s in
  '(somebits, explained) ← explain_loop (S (Z.to_nat CAP_MAXBITS)) cap_d 0 false;
  (if (somebits : bool) && explained then
     print "Error: under Linux, effective file capabilities must either be empty, or exactly match the union of selected permitted and inheritable bits.";;
     if sc_forced s then mret tt else exit 1
   else mret tt);;
  set_errno 0;;
  retval ← cap_set_file stack file cap_d;
  (if negb (retval =? 0) then set_file_failed s cap_d file else mret tt);;
  mret s.

(** The loop over the arguments, and the end of main(). *)
Fixpoint setcap_loop (s : setcap_state) (cap_d : Z) (args : list string) : M K unit :=
  match args with
  | [] =>
      (if negb (cap_d =? 0) then _ ← cap_free cap_d; mret tt else mret tt);;
      exit 0
  | arg :: args =>
      _ ← cap_free cap_d;
      let cap_d := 0 in
      if String.eqb "--license" arg then print "see LICENSE file for details.";; exit 0
      else if String.eqb arg "-f" then setcap_loop (sc_with_forced s) cap_d args
      else if String.eqb arg "-h" then setcap_usage 0
      else if String.eqb arg "-n" then
        match args with
        | [] => print "usage: .. -n <rootid> .. - rootid!=0 file caps";; exit 1
        | n :: args =>
            rootid ← pos_uint n "bad ns rootid";
            setcap_loop (sc_with_rootid rootid s) cap_d args
        end
      else if String.eqb arg "-q" then setcap_loop (sc_with_quiet s) cap_d args
      else if String.eqb arg "-v" then setcap_loop (sc_with_verify s) cap_d args
      else
        cap_d ← wanted_caps s arg;
        match args with
        | [] => setcap_usage 1
        | file :: args =>
            if sc_verify s then
              cap_d ← verify_file s cap_d file;
              setcap_loop s cap_d args
            else
              s ← change_file s cap_d file;
              setcap_loop s cap_d args
        end
  end.

Definition setcap_main (args : list string) : M K unit :=
  match args with
  | [] => setcap_usage 1
  | _ =>
      mycaps ← cap_get_proc;
      (if mycaps =? 0 then print "warning - unable to get process capabilities (old libcap?)" else mret tt);;
      setcap_loop (mkSetcap mycaps false false false false 0) 0 args
  end.

(** ** getcap *)

(** The flags of the command line. *)
Record getcap_flags := mkGetcap { gc_verbose : bool; gc_recursive : bool; gc_namespace : bool }.

Definition getcap_usage {A} (code : Z) : M K A :=
  print "usage: getcap [-h] [-l] [-n] [-r] [-v] <filename> [<filename> ...]";; exit code.

Definition do_getcap (g : getcap_flags) (fname : string) (tflag : Z) : M K unit :=
  if negb (tflag =? FTW_F) then
    if gc_verbose g then print (fname ++ " (Not a regular file)") else mret tt
  else
    cap_d ← cap_get_file stack fname;
    if cap_d =? 0 then
      e ← get_errno;
      if negb (e =? ENODATA) && negb (e =? ENOTSUP)
      then print ("Failed to get capabilities of file '" ++ fname ++ "' (" ++ strerror e ++ ")")
      else if gc_verbose g then print fname else mret tt
    else
      '(result, _) ← cap_to_text cap_d false;
      if result =? 0 then
        e ← get_errno;
        print ("Failed to get capabilities of human readable format at '" ++ fname ++ "' (" ++ strerror e ++ ")");;
        _ ← cap_free cap_d;
        mret tt
      else
        rootid ← cap_get_nsowner cap_d;
        text ← load_str result;
        (if gc_namespace g && (1 <? u32 (rootid + 1))
         then print (fname ++ " " ++ text ++ " [rootid=" ++ fmt_d (s32 rootid) ++ "]")
         else print (fname ++ " " ++ text));;
        _ ← cap_free cap_d;
        _ ← cap_free result;
        mret tt.

(** The loop over the options; [inr] is an exit. *)
Fixpoint getcap_options (opts : list ascii) (g : getcap_flags) : M K getcap_flags :=
  match opts with
  | [] => mret g
  | c :: opts =>
      if Ascii.eqb c "r" then getcap_options opts (mkGetcap (gc_verbose g) true (gc_namespace g))
      else if Ascii.eqb c "v" then getcap_options opts (mkGetcap true (gc_recursive g) (gc_namespace g))
      else if Ascii.eqb c "n" then getcap_options opts (mkGetcap (gc_verbose g) (gc_recursive g) true)
      else if Ascii.eqb c "h" then getcap_usage 0
      else if Ascii.eqb c "l" then print "see LICENSE file for details.";; exit 0
      else getcap_usage 1
  end.

Fixpoint visit_all (g : getcap_flags) (l : list (string * Z)) : M K unit :=
  match l with
  | [] => mret tt
  | (fname, tflag) :: l => do_getcap g fname tflag;; visit_all g l
  end.

Fixpoint getcap_files (g : getcap_flags) (files : list string) : M K unit :=
  match files with
  | [] => mret tt
  | arg :: files =>
      '(r, st_mode) ← (fun w => let '(r, mode) := sys_lstat (kst w) arg in (r ← libc_ret r; mret (r, mode)) w);
      (if negb (r =? 0) then e ← get_errno; print (arg ++ " (" ++ strerror e ++ ")")
       else if gc_recursive g then l ← gets (fun w => nftw_visits (kst w) arg); visit_all g l
       else
         let tflag := if S_ISREG st_mode then FTW_F else if S_ISLNK st_mode then FTW_SL else FTW_NS in
         do_getcap g arg tflag);;
      getcap_files g files
  end.

Definition getcap_main (args : list string) : M K unit :=
  let '(opts, files) := getopt args "rvhnl" in
  g ← getcap_options opts (mkGetcap false false false);
  match files with
  | [] => getcap_usage 1
  | _ => getcap_files g files;; exit 0
  end.

(** ** getpcaps *)

Definition getpcaps_usage {A} (code : Z) : M K A :=
  print "usage: getpcaps [opts] <pid> [<pid> ...]";; exit code.

(** The number of a process: the pid, or the errno that tells why there is none. *)
Definition parse_pid (arg : string) : Z + Z :=
  let '(lpid, endarg, range) := c_strtol 10 arg in
  if range then inr ERANGE
  else if negb (at_end endarg) then inr EINVAL
  else if (lpid <? 0) || (2147483647 <? lpid) then inr EOVERFLOW
  else inl lpid.

(** [verbose] is 0, 1 or 2. *)
Record getpcaps_flags := mkGetpcaps { gp_verbose : Z; gp_iab : bool }.

Context `{!ProcFs K}.

(** The --iab form of one line. *)
Definition show_pid_iab (g : getpcaps_flags) (noiab pid : Z) (arg text : string) : M K unit :=
  print (arg ++ ":");;
  (if negb (gp_verbose g =? 0) || negb (String.eqb "=" text) then print (" '" ++ text ++ "'") else mret tt);;
  iab_val ← cap_iab_get_pid pid;
  if iab_val =? 0 then print (" no IAB value for " ++ fmt_d pid);; exit 1
  else
    cf ← cap_iab_compare noiab iab_val;
    (if negb (gp_verbose g =? 0) || CAP_IAB_DIFFERS cf CAP_IAB_AMB || CAP_IAB_DIFFERS cf CAP_IAB_BOUND then
       iab_text ← cap_iab_to_text iab_val;
       if iab_text =? 0 then perror " no text for IAB";; exit 1
       else
         t ← load_str iab_text;
         print (" [" ++ t ++ "]");;
         _ ← cap_free iab_text;
         mret tt
     else mret tt);;
    _ ← cap_free iab_val;
    print nl.

(** One process: the new exit status. *)
Definition show_pid (g : getpcaps_flags) (noiab retval : Z) (arg : string) : M K Z :=
  match parse_pid arg with
  | inr e => print ("Cannot parse pid " ++ arg ++ ": (" ++ strerror e ++ ")");; mret 1
  | inl pid =>
      cap_d ← cap_get_pid pid;
      if cap_d =? 0 then
        e ← get_errno;
        print ("Failed to get cap's for process " ++ fmt_d pid ++ ": (" ++ strerror e ++ ")");;
        mret 1
      else
        '(result, _) ← cap_to_text cap_d false;
        (* printing, and comparing, NULL is undefined *)
        text ← load_str result;
        (if gp_iab g then show_pid_iab g noiab pid arg text
         else if gp_verbose g =? 1 then print ("Capabilities for '" ++ arg ++ "': " ++ text)
         else if gp_verbose g =? 2 then print ("Capabilities for `" ++ arg ++ "': " ++ text)
         else print (arg ++ ": " ++ text));;
        _ ← cap_free result;
        _ ← cap_free cap_d;
        mret retval
  end.

Fixpoint getpcaps_loop (g : getpcaps_flags) (noiab retval : Z) (args : list string) : M K unit :=
  match args with
  | [] => exit retval
  | arg :: args =>
      if String.eqb arg "--help" || String.eqb arg "--usage" || String.eqb arg "-h" then getpcaps_usage 0
      else if String.eqb arg "--license" then print "see LICENSE file for details.";; exit 0
      else if String.eqb arg "--verbose" then getpcaps_loop (mkGetpcaps 1 (gp_iab g)) noiab retval args
      else if String.eqb arg "--ugly" || String.eqb arg "--legacy" then getpcaps_loop (mkGetpcaps 2 (gp_iab g)) noiab retval args
      else if String.eqb arg "--iab" then getpcaps_loop (mkGetpcaps (gp_verbose g) true) noiab retval args
      else
        retval ← show_pid g noiab retval arg;
        getpcaps_loop g noiab retval args
  end.

Definition getpcaps_main (args : list string) : M K unit :=
  noiab ← cap_iab_init;
  match args with
  | [] => getpcaps_usage 1
  | _ => getpcaps_loop (mkGetpcaps 0 false) noiab 0 args
  end.

End tools.
