(* ===== verification/ToolsSpec.v ===== *)
(** What setcap and getcap guarantee: setcap stores in the file exactly the set
    its argument describes or leaves the file alone, tells by its exit status
    which, and setcap -v and getcap agree with what it has stored. *)

From Stdlib Require Import ZArith Lia String Ascii.
From stdpp Require Import gmap list sets.
From S2P Require Import Prelude Capability World Exec Syscall Alloc Flag FlagSpec IabSpec ExtInt File FileSpec Proc ProcSpec Text TextLex.
From S2P Require Import TextSpec TextParse TextPrint TextToText TextRound KernelLaws ModeSpec IabProcSpec IabText CLib ProgSpec Tools.

Open Scope string_scope.
Open Scope Z_scope.

(** ** The documented behaviour of files

    open(2), fstat(2), getxattr(2), setxattr(2) and removexattr(2) on regular
    files that the process may read: [file_attr] is the attribute
    security.capability of the file that a path leads to. *)
Class FileLaws (K : Type) `{!Kernel K, !KernelLaws K, !FileSys K} := {
  file_attr : K -> string -> option (list Z);
  regular : K -> string -> Prop;
  opened : K -> Z -> string -> Prop;
  law_open_regular : forall k path, regular k path -> exists fd k', fs_open k path false = (fd, k') /\ 0 <= fd /\
    opened k' fd path /\ file_attr k' path = file_attr k path /\ creds_of k' = creds_of k;
  law_fstat_regular : forall k fd path, opened k fd path -> exists mode, fs_fstat k fd = (0, mode) /\ S_ISREG mode = true;
  law_setxattr : forall k fd path v, opened k fd path -> CAP_SETFCAP ∈ cr_eff (creds_of k) ->
    exists k', fs_setxattr k (ByFd fd) v = (0, k') /\ file_attr k' path = Some v;
  law_removexattr : forall k fd path, opened k fd path -> CAP_SETFCAP ∈ cr_eff (creds_of k) ->
    match file_attr k path with
    | Some _ => exists k', fs_removexattr k (ByFd fd) = (0, k') /\ file_attr k' path = None
    | None => fs_removexattr k (ByFd fd) = (- ENODATA, k)
    end;
  law_close_attr : forall k fd path, file_attr (fs_close k fd) path = file_attr k path;
  law_getxattr : forall k path n, regular k path -> fs_getxattr k (ByPath path) n =
    match file_attr k path with
    | None => (- ENODATA, [])
    | Some v => if Z.of_nat (List.length v) <=? n then (Z.of_nat (List.length v), v) else (- ERANGE, [])
    end;
  law_capset_files : forall k v pid d path, file_attr (sys_call k (SYS_capset v pid d)).2 path = file_attr k path /\
    (regular k path -> regular (sys_call k (SYS_capset v pid d)).2 path)
}.

(** The bytes [v] of an attribute are those of the set [c]. *)
Definition encodes (v : list Z) (c : cap_struct) : Prop :=
  exists b0 b1 raw, c_u c = [b0; b1] /\ blk_wf b0 /\ blk_wf b1 /\ is_u32 (c_rootid c) /\ List.length raw = 24%nat /\
    v = take (Z.to_nat (stored_size c)) (stored c b0 b1 raw).

(** The set a text means, for the user namespace of [rootid]. *)
Definition text_set (rootid : Z) (u : list capblk) : cap_struct := set_rootid rootid (set_of u).

Section setcap.
Context {K : Type} `{!Kernel K, !FileSys K, !Streams K, !KernelLaws K, !FileLaws K}.
Variable gperf : option (string -> option Z).
Variable stack : list Z.
Variable strerror : Z -> string.
Variable getopt : list string -> string -> list ascii * list string.
Implicit Types (w : world K) (k : K) (p : Z).

(** ** Steps *)

Lemma setcap_usage_run {A} st w : exists w', setcap_usage st w = (Halt (Exited st) : outcome A, w') /\ kst w' = kst w.
Proof. eexists. split; [reflexivity|]. done. Qed.

Lemma perror_exit {A} s st w : exists w', (perror strerror s;; exit st) w = (Halt (Exited st) : outcome A, w') /\ kst w' = kst w.
Proof. eexists. split; [reflexivity|]. done. Qed.

(** Texts that main() does not take for an option. *)
Definition option_word (s : string) : bool :=
  existsb (String.eqb s) ["--license"; "-f"; "-h"; "-n"; "-q"; "-v"; "-r"; "-"].

Lemma cap_set_nsowner_run p c r w : p <> 0 -> heap w !! p = Some (OCap c) -> c_mutex c = false ->
  cap_set_nsowner p r w = (Ok 0, with_heap (<[p := OCap (set_rootid r c)]> (heap w)) w).
Proof.
  intros H0 Hp Hc. unfold cap_set_nsowner. run. rewrite (magic_at_some _ _ _ H0 Hp).
  change (obj_magic (OCap c) =? CAP_T_MAGIC) with true. cbn [negb]. unfold mu_unlock_return. run. rewrite ret_run. f_equal.
  unfold with_heap. cbn [heap next mem errno glob kst out]. f_equal. cbn [obj_with_mutex].
  replace (cap_with_mutex false (set_rootid r (cap_with_mutex true c))) with (set_rootid r c) by (by destruct c; cbn in *; subst). heap_eq.
Qed.

Lemma cap_get_nsowner_run p c w : p <> 0 -> heap w !! p = Some (OCap c) -> c_mutex c = false ->
  cap_get_nsowner p w = (Ok (c_rootid c), w).
Proof.
  intros H0 Hp Hc. unfold cap_get_nsowner. run. rewrite (magic_at_some _ _ _ H0 Hp).
  change (obj_magic (OCap c) =? CAP_T_MAGIC) with true. cbn [negb]. run. world_same.
Qed.

(** The capabilities asked for. *)
Lemma wanted_caps_run s text w u : prog_world w -> option_word text = false -> has_non_space text = true ->
  parse_text gperf (g_max_bits (glob w)) 2 text [blk0; blk0] = PGood u ->
  wanted_caps gperf strerror s text w = (Ok (next w), placed (OCap (text_set (sc_rootid s) u)) w).
Proof.
  intros Hw Ho Hs Hu. unfold option_word in Ho. cbn [existsb] in Ho.
  repeat (apply orb_false_iff in Ho as [? Ho]). unfold wanted_caps.
  repeat match goal with H : String.eqb text _ = false |- _ => rewrite H; clear H end.
  rewrite (bind_ok _ _ _ _ _ (ret_run _ _)), Hs. cbn [negb].
  rewrite (bind_ok _ _ _ _ _ (cap_from_text_run gperf text w u (prog_text_world w Hw) Hu)).
  pose proof (wf_next_ne_0 _ (proj1 Hw)) as Hn. apply Z.eqb_neq in Hn as Hnb. rewrite Hnb.
  rewrite (bind_ok _ _ _ _ _ (cap_set_nsowner_run (next w) (set_of u) (sc_rootid s) _ Hn (lookup_insert_eq _ _ _) eq_refl)).
  cbn [Z.eqb negb]. rewrite ret_run. f_equal. unfold placed, with_heap. cbn. f_equal. by rewrite insert_insert_eq.
Qed.

(** The comparison of the effective bits ends, changes nothing but errno, and
    finds the first capability that is effective without being in one of the
    other sets, or the other way round. *)
Definition explained_as (E PI : gset Z) (r : bool * bool) : Prop :=
  if snd r : bool then if fst r : bool then E <> ∅ /\ E <> PI else ~ PI ⊆ E else E = PI.

Lemma lor_flags (P I : gset Z) x : Z.lor (if decide (x ∈ I) then CAP_SET else CAP_CLEAR) (if decide (x ∈ P) then CAP_SET else CAP_CLEAR) =
  (if decide (x ∈ P ∪ I) then CAP_SET else CAP_CLEAR).
Proof. destruct (decide (x ∈ I)), (decide (x ∈ P)), (decide (x ∈ P ∪ I)); try done; set_solver. Qed.

Lemma explain_loop_run p c w : world_wf w -> heap w !! p = Some (OCap c) -> c_mutex c = false ->
  forall fuel cap b, 0 <= cap <= CAP_MAXBITS -> CAP_MAXBITS - cap < Z.of_nat fuel ->
  (forall x, valid_cap x -> x < cap -> x ∈ caps_of (c_u c) CAP_EFFECTIVE <-> x ∈ caps_of (c_u c) CAP_PERMITTED ∪ caps_of (c_u c) CAP_INHERITABLE) ->
  (b = true <-> exists x, x < cap /\ x ∈ caps_of (c_u c) CAP_EFFECTIVE) ->
  exists r e, explain_loop fuel p cap b w = (Ok r, with_errno e w) /\
    explained_as (caps_of (c_u c) CAP_EFFECTIVE) (caps_of (c_u c) CAP_PERMITTED ∪ caps_of (c_u c) CAP_INHERITABLE) r.
Proof.
  intros Hw Hp Hm. induction fuel as [|fuel IH]; intros cap b Hc Hf Hsame Hb; [lia|]. cbn [explain_loop].
  pose proof (fun s => proj1 (cap_get_flag_correct p c cap s w Hw Hp Hm)) as Hget.
  set (E := caps_of (c_u c) CAP_EFFECTIVE) in *. set (P := caps_of (c_u c) CAP_PERMITTED) in *. set (I := caps_of (c_u c) CAP_INHERITABLE) in *.
  pose proof (Hget CAP_PERMITTED) as HP. destruct (decide (valid_cap cap)) as [Hv|Hv].
  2:{ rewrite decide_False in HP by tauto. rewrite (bind_ok _ _ _ _ _ HP). exists (b, false), EINVAL. split; [done|].
      cbn [explained_as snd]. apply set_eq. intros x. destruct (decide (valid_cap x)) as [Hx|Hx].
      - apply Hsame; [done|]. unfold valid_cap in *. lia.
      - unfold E, P, I. rewrite elem_of_union, !elem_of_caps_of. tauto. }
  pose proof (Hget CAP_INHERITABLE) as HI. pose proof (Hget CAP_EFFECTIVE) as HE.
  rewrite decide_True in HP by done. rewrite decide_True in HI by done. rewrite decide_True in HE by done. fold P in HP. fold I in HI. fold E in HE.
  rewrite (bind_ok _ _ _ _ _ HP). cbn [Z.eqb]. rewrite (bind_ok _ _ _ _ _ HI), (bind_ok _ _ _ _ _ HE). clear HP HI HE Hget.
  rewrite lor_flags. clearbody E P I.
  assert (negb ((if decide (cap ∈ E) then CAP_SET else CAP_CLEAR) =? 0) = bool_decide (cap ∈ E)) as ->
    by (case_decide; [by rewrite bool_decide_true by done|by rewrite bool_decide_false by done]).
  destruct (decide (cap ∈ P ∪ I)) as [Hin|Hin], (decide (cap ∈ E)) as [HinE|HinE]; cbn [Z.eqb negb CAP_SET CAP_CLEAR Pos.eqb].
  - rewrite bool_decide_true by done. apply IH; [unfold valid_cap in Hv; lia|lia| |].
    + intros x Hx Hlt. destruct (decide (x = cap)) as [->|]; [by split|]. apply Hsame; [done|lia].
    + rewrite orb_true_r. split; [|done]. intros _. exists cap. split; [lia|done].
  - rewrite bool_decide_false, orb_false_r by done. exists (b, true), (errno w). rewrite with_errno_id. split; [done|].
    cbn [explained_as fst snd]. destruct b; [|set_solver]. destruct Hb as [Hb _]. destruct (Hb eq_refl) as (x & _ & Hx).
    split; [set_solver|]. intros EE. rewrite EE in HinE. done.
  - rewrite bool_decide_true, orb_true_r by done. exists (true, true), (errno w). rewrite with_errno_id. split; [done|].
    cbn [explained_as fst snd]. split; [set_solver|]. intros EE. rewrite <-EE in Hin. done.
  - rewrite bool_decide_false, orb_false_r by done. apply IH; [unfold valid_cap in Hv; lia|lia| |].
    + intros x Hx Hlt. destruct (decide (x = cap)) as [->|]; [by split|]. apply Hsame; [done|lia].
    + rewrite Hb. split; intros (x & Hlt & Hx); exists x; (split; [|done]); [lia|].
      destruct (decide (x = cap)) as [->|]; [done|lia].
Qed.

(** CAP_SETFCAP is made effective, in the copy at [p] and in the process. *)
Lemma raise_setfcap_run s d h k w w1 path : sc_tried s = false -> prog_world w1 -> words_of d (creds_of k) ->
  h !! sc_mycaps s = Some (OCap (proc_cap d)) -> heaped h k w w1 -> regular k path ->
  (CAP_SETFCAP ∈ cr_perm (creds_of k) -> exists w2 k' c, raise_setfcap strerror s w1 = (Ok tt, w2) /\
     heaped (<[sc_mycaps s := OCap c]> h) k' w w2 /\ CAP_SETFCAP ∈ cr_eff (creds_of k') /\
     file_attr k' path = file_attr k path /\ regular k' path) /\
  (CAP_SETFCAP ∉ cr_perm (creds_of k) -> exists w2, raise_setfcap strerror s w1 = (Halt (Exited 1), w2) /\ kst w2 = k).
Proof.
  intros Ht (Hwf & Hm & _ & Hdir) Hwd Hp Hh Hreg. pose proof Hwd as [Hu _]. pose proof (heaped_lookup _ _ _ _ _ _ Hh Hp) as Hp1. set (p := sc_mycaps s) in *.
  pose proof (heaped_ne_0 _ _ _ _ _ _ Hh Hp) as H0. pose proof (moved_kst _ _ _ Hh) as Hk1.
  unfold raise_setfcap. rewrite Ht. fold p. assert (valid_cap CAP_SETFCAP) as Hv by done.
  set (c := with_u (fun _ => raise_cap CAP_SETFCAP CAP_EFFECTIVE d) (proc_cap d)).
  assert (u_wf (raise_cap CAP_SETFCAP CAP_EFFECTIVE d)) as Hur by by apply u_wf_raise.
  set (w2 := with_heap (<[p := OCap c]> (heap w1)) w1).
  assert (cap_set_flag p CAP_EFFECTIVE 1 [CAP_SETFCAP] CAP_SET w1 = (Ok 0, w2)) as H1.
  { rewrite (cap_set_flag_run p (proc_cap d)) by (try done; try (by left); change CAP_MAXBITS with 64; simpl; lia). done. }
  rewrite (bind_ok _ _ _ _ _ H1). cbn [Z.eqb negb].
  pose proof (heaped_update _ (OCap c) p h k w w1 Hur Hp Hh) as Hh2. fold w2 in Hh2.
  assert (heap w2 !! p = Some (OCap c)) as Hp2 by apply lookup_insert_eq. change (kst w1) with (kst w2) in Hk1.
  destruct (law_valid k) as (_ & _ & HEP & _). unfold cap_set_proc. split; intros HP.
  - destruct (words_of_raise CAP_SETFCAP d (creds_of k) Hwd HP Hv HEP) as [Hok _].
    destruct (law_capset k _ Hok) as (k' & Hk' & Hcr).
    rewrite (bind_ok _ _ _ _ _ (live_set_proc_req multithread p c w2 k' H0 Hp2 eq_refl eq_refl eq_refl Hdir ltac:(by rewrite Hk1))).
    cbn [Z.eqb negb]. exists (with_kst k' w2), k', c. split; [done|]. split; [by eapply moved_kernel|].
    destruct (law_capset_files k LINUX_CAPABILITY_VERSION_3 0 (raise_cap CAP_SETFCAP CAP_EFFECTIVE d) path) as [Ha Hr].
    unfold req_set in Hk'. rewrite Hk' in Ha, Hr. cbn [snd] in Ha, Hr. split; [|by auto].
    rewrite Hcr. cbn [cr_eff after_capset]. rewrite caps_of_raise, Z.eqb_refl by done. by apply elem_of_union_r, elem_of_singleton.
  - pose proof (live_set_proc_refused multithread p c w2 H0 Hp2 eq_refl eq_refl eq_refl Hdir Hur) as H2. rewrite Hk1 in H2.
    rewrite (bind_ok _ _ _ _ _ (H2 (words_of_raise_refused CAP_SETFCAP d (creds_of k) Hwd HP Hv))). cbn [Z.eqb negb].
    destruct (perror_exit (A := unit) "unable to set CAP_SETFCAP effective capability" 1 (with_errno EPERM w2)) as (w3 & -> & Hk3).
    exists w3. split; [done|]. by rewrite Hk3.
Qed.

(** What cap_set_file() makes of a regular file. *)
Definition file_result (a a' : option (list Z)) (p : Z) (c : option cap_struct) (r e : Z) : Prop :=
  match c with
  | Some c => if decide (file_ok (c_u c)) then r = 0 /\ exists v, a' = Some v /\ encodes v c else r = -1 /\ e = EINVAL /\ a' = a
  | None => match a with Some _ => r = 0 /\ a' = None | None => r = -1 /\ e = ENODATA /\ a' = None end
  end.

(** The set at [p], or none for NULL. *)
Definition set_at p (c : option cap_struct) w : Prop :=
  match c with
  | Some c => heap w !! p = Some (OCap c) /\ c_mutex c = false /\ c_version c = LINUX_CAPABILITY_VERSION_3 /\ is_u32 (c_rootid c)
  | None => p = 0
  end.

Lemma put_caps_result fd path p c w : world_wf w -> List.length stack = 24%nat -> set_at p c w ->
  opened (kst w) fd path -> CAP_SETFCAP ∈ cr_eff (creds_of (kst w)) ->
  exists r e k', put_caps stack (ByFd fd) p w = (Ok r, with_errno e (with_kst k' w)) /\
    file_result (file_attr (kst w) path) (file_attr k' path) p c r e.
Proof.
  intros Hw Hl Hset Ho Hcap. destruct c as [c|]; cbn [set_at file_result] in *.
  - destruct Hset as (Hp & Hm & Hv & Hro). destruct (live_cap _ _ _ Hw Hp) as [Hwf _].
    destruct (u_wf_inv _ Hwf) as (b0&b1&Hu&H0&H1).
    destruct (decide (file_ok (c_u c))) as [Hok|Hok].
    + set (v := take (Z.to_nat (stored_size c)) (stored c b0 b1 stack)).
      destruct (law_setxattr _ fd path v Ho Hcap) as (k' & Hset & Ha). exists 0, (errno w), k'.
      split; [exact (put_caps_run stack (ByFd fd) p c b0 b1 k' w Hw Hp Hm Hv Hu Hok Hset)|]. split; [done|]. exists v. split; [done|].
      by exists b0, b1, stack.
    + exists (-1), EINVAL, (kst w). unfold put_caps. pose proof (wf_ne_0 _ _ _ Hw Hp) as Hp0. apply Z.eqb_neq in Hp0 as ->.
      pose proof (fcaps_save_run stack p c b0 b1 w Hw Hp Hm (or_introl Hv) Hu) as Hs. rewrite decide_False in Hs by done.
      by rewrite (bind_ok _ _ _ _ _ Hs).
  - subst p. unfold put_caps. cbn [Z.eqb]. unfold sys_removexattr. pose proof (law_removexattr _ fd path Ho Hcap) as Hr.
    destruct (file_attr (kst w) path) as [v|] eqn:Ea.
    + destruct Hr as (k' & -> & Ha). by exists 0, (errno w), k'.
    + rewrite Hr. by exists (-1), ENODATA, (kst w).
Qed.

Lemma cap_set_file_run file p c w : world_wf w -> List.length stack = 24%nat -> set_at p c w ->
  regular (kst w) file -> CAP_SETFCAP ∈ cr_eff (creds_of (kst w)) ->
  exists r e k', cap_set_file stack file p w = (Ok r, with_errno e (with_kst k' w)) /\
    file_result (file_attr (kst w) file) (file_attr k' file) p c r e.
Proof.
  intros Hw Hl Hset Hreg Hcap. destruct (law_open_regular _ _ Hreg) as (fd & k1 & Hop & Hfd & Ho & Ha1 & Hc1).
  unfold cap_set_file, sys_open. erewrite bind_ok; [|rewrite Hop; apply libc_ret_ok; lia]. apply Z.leb_le in Hfd as ->.
  destruct (law_fstat_regular _ _ _ Ho) as (mode & Hst & Hregm).
  assert (S_ISLNK mode = false) as Hlnk.
  { unfold S_ISLNK, S_ISREG in *. apply Z.eqb_eq in Hregm. by rewrite Hregm. }
  set (w1 := with_kst k1 w). assert (world_wf w1) as Hw1 by (destruct Hw; by split).
  assert (CAP_SETFCAP ∈ cr_eff (creds_of (kst w1))) as Hcap1 by (cbn; by rewrite Hc1).
  destruct (put_caps_result fd file p c w1 Hw1 Hl ltac:(by destruct c) Ho Hcap1) as (r & e & k2 & H2 & Hr).
  assert (cap_set_fd stack fd p w1 = (Ok r, with_errno e (with_kst k2 w1))) as H3.
  { unfold cap_set_fd, sys_fstat. erewrite bind_ok; [|cbn beta; change (kst w1) with k1; rewrite Hst; reflexivity].
    cbn [Z.eqb negb]. rewrite Hlnk, Hregm. exact H2. }
  rewrite (bind_ok _ _ _ _ _ H3). unfold sys_close. erewrite bind_ok; [|reflexivity].
  exists r, e, (fs_close k2 fd). split; [done|]. change (kst w1) with k1 in Hr. by rewrite law_close_attr, <-Ha1.
Qed.

(** The sets that setcap accepts for a file - with -f, those that a file can
    carry - and the removals that succeed. *)
Definition storable (forced : bool) (u : list capblk) : Prop :=
  let E := caps_of u CAP_EFFECTIVE in
  let PI := caps_of u CAP_PERMITTED ∪ caps_of u CAP_INHERITABLE in
  E = ∅ \/ if forced then PI ⊆ E else E = PI.
Definition accepted (forced : bool) (c : option cap_struct) (a : option (list Z)) : Prop :=
  match c with Some c => storable forced (c_u c) | None => a <> None \/ forced = true end.
#[global] Instance accepted_dec forced c a : Decision (accepted forced c a).
Proof. unfold accepted, storable. destruct c, forced; apply _. Defined.
Definition stored_attr (c : option cap_struct) (a : option (list Z)) : Prop :=
  match c with Some c => exists v, a = Some v /\ encodes v c | None => a = None end.

(** The message about the effective bits, which ends setcap unless -f was given. *)
Definition mismatch (s : setcap_state) (r : bool * bool) : M K unit :=
  if r.1 && r.2 then
    print "Error: under Linux, effective file capabilities must either be empty, or exactly match the union of selected permitted and inheritable bits.";;
    if sc_forced s then mret tt else exit 1
  else mret tt.

Lemma mismatch_run s r w : (r.1 && r.2 = true /\ sc_forced s = false -> exists l, mismatch s r w = (Halt (Exited 1), with_out l w)) /\
  (r.1 && r.2 = false \/ sc_forced s = true -> exists l, mismatch s r w = (Ok tt, with_out l w)).
Proof.
  unfold mismatch. destruct (r.1 && r.2), (sc_forced s); split; intros H; try (by destruct H);
    first [eexists; reflexivity|exists (out w); by destruct w].
Qed.

(** cap_set_file(), and the [switch] after it. *)
Lemma set_file_run s w p c file : world_wf w -> List.length stack = 24%nat -> set_at p c w ->
  regular (kst w) file -> CAP_SETFCAP ∈ cr_eff (creds_of (kst w)) ->
  let ok := match c with Some c => file_ok (c_u c) | None => file_attr (kst w) file <> None \/ sc_forced s = true end in
  exists o w', (retval ← cap_set_file stack file p;
      (if negb (retval =? 0) then set_file_failed strerror s p file else mret tt);; mret s) w = (o, w') /\
    (ok -> o = Ok s /\ stored_attr c (file_attr (kst w') file) /\ exists e k l, w' = with_out l (with_errno e (with_kst k w))) /\
    (~ ok -> o = Halt (Exited 1) /\ file_attr (kst w') file = file_attr (kst w) file).
Proof.
  intros Hw Hl Hset Hreg Hcap ok. destruct (cap_set_file_run file p c w Hw Hl Hset Hreg Hcap) as (r & e & k & H & Hr).
  rewrite (bind_ok _ _ _ _ _ H). set (w1 := with_errno e (with_kst k w)).
  assert (r = 0 -> exists w', ((if negb (r =? 0) then set_file_failed strerror s p file else mret tt);; mret s) w1 = (Ok s, w') /\
    exists l, w' = with_out l w1) as H0.
  { intros ->. exists w1. split; [done|]. by exists (out w1). }
  destruct c as [c|]; cbn [file_result set_at stored_attr] in *; subst ok; cbn zeta beta iota.
  - destruct (decide (file_ok (c_u c))) as [Hok|Hok].
    + destruct Hr as [Hr0 Hv]. destruct (H0 Hr0) as (w' & H1 & l & ->). exists (Ok s), (with_out l w1). split; [done|]. split; [|done].
      intros _. split; [done|]. split; [done|]. by exists e, k, l.
    + destruct Hr as (-> & -> & Ha). eexists (Halt (Exited 1)), _. split; [reflexivity|]. split; [done|]. intros _. split; [done|]. exact Ha.
  - subst p. destruct (file_attr (kst w) file) as [v|] eqn:Ea.
    + destruct Hr as [Hr0 Hv]. destruct (H0 Hr0) as (w' & H1 & l & ->). exists (Ok s), (with_out l w1). split; [done|]. split.
      * intros _. split; [done|]. split; [done|]. by exists e, k, l.
      * intros Hno. exfalso. apply Hno. by left.
    + destruct Hr as (-> & -> & Ha). destruct (sc_forced s) eqn:Ef.
      * eexists (Ok s), _. split; [unfold set_file_failed; cbn [Z.eqb negb]; run; rewrite Ef; run; reflexivity|]. split.
        -- intros _. split; [done|]. split; [done|]. eexists _, _, _. unfold print. reflexivity.
        -- intros Hno. exfalso. apply Hno. by right.
      * eexists (Halt (Exited 1)), _. split; [unfold set_file_failed; cbn [Z.eqb negb]; run; rewrite Ef; reflexivity|]. split.
        -- intros [|]; done.
        -- intros _. split; [done|]. exact Ha.
Qed.

Lemma set_at_same p c w w' : heap w' = heap w -> set_at p c w -> set_at p c w'.
Proof. intros E. destruct c; cbn [set_at]; [by rewrite E|done]. Qed.

(** What a set must be for setcap to come as far as cap_set_file() and pass it. *)
Lemma explained_storable u r forced : explained_as (caps_of u CAP_EFFECTIVE) (caps_of u CAP_PERMITTED ∪ caps_of u CAP_INHERITABLE) r ->
  (r.1 && r.2 = true /\ forced = false -> ~ storable forced u) /\
  (r.1 && r.2 = false \/ forced = true -> storable forced u <-> file_ok u).
Proof.
  unfold explained_as, storable, file_ok. generalize (caps_of u CAP_EFFECTIVE), (caps_of u CAP_PERMITTED ∪ caps_of u CAP_INHERITABLE).
  intros E PI. destruct r as [[] []]; cbn [fst snd andb]; intros H; (split; [intros [? ->]; try done; tauto|]);
    (intros [?| ->]; [|tauto]); try done; destruct forced; try tauto;
    (split; intros [HE|HE]; [by left|right|by left|]); subst; try done; try (left; set_solver); try (right; set_solver); set_solver.
Qed.

Lemma store_file_run s w p c file : world_wf w -> List.length stack = 24%nat -> set_at p c w ->
  regular (kst w) file -> CAP_SETFCAP ∈ cr_eff (creds_of (kst w)) ->
  exists o w', ('(somebits, explained) ← explain_loop (S (Z.to_nat CAP_MAXBITS)) p 0 false;
      mismatch s (somebits, explained);;
      set_errno 0;;
      retval ← cap_set_file stack file p;
      (if negb (retval =? 0) then set_file_failed strerror s p file else mret tt);; mret s) w = (o, w') /\
    (accepted (sc_forced s) c (file_attr (kst w) file) -> o = Ok s /\ stored_attr c (file_attr (kst w') file) /\ heap w' = heap w /\ next w' = next w) /\
    (~ accepted (sc_forced s) c (file_attr (kst w) file) -> o = Halt (Exited 1) /\ file_attr (kst w') file = file_attr (kst w) file).
Proof.
  intros Hw Hl Hset Hreg Hcap.
  assert (exists r e, explain_loop (S (Z.to_nat CAP_MAXBITS)) p 0 false w = (Ok r, with_errno e w) /\
    (r.1 && r.2 = true /\ sc_forced s = false -> ~ accepted (sc_forced s) c (file_attr (kst w) file)) /\
    (r.1 && r.2 = false \/ sc_forced s = true -> accepted (sc_forced s) c (file_attr (kst w) file) <->
       match c with Some c => file_ok (c_u c) | None => file_attr (kst w) file <> None \/ sc_forced s = true end)) as (r & e & H1 & Hno & Hyes).
  { destruct c as [c|]; cbn [set_at accepted] in *.
    - destruct Hset as (Hp & Hm & _).
      destruct (explain_loop_run p c w Hw Hp Hm (S (Z.to_nat CAP_MAXBITS)) 0 false) as (r & e & H1 & Hx).
      + change CAP_MAXBITS with 64. lia.
      + change CAP_MAXBITS with 64. lia.
      + intros x [Hx _] Hlt. lia.
      + split; [done|]. intros (x & Hlt & [[Hx _] _]%elem_of_caps_of). lia.
      + exists r, e. split; [done|]. by apply explained_storable.
    - subst p. exists (false, false), EINVAL. split; [reflexivity|]. split; [by intros []|done]. }
  rewrite (bind_ok _ _ _ _ _ H1). destruct r as [somebits explained]. set (w1 := with_errno e w).
  destruct (mismatch_run s (somebits, explained) w1) as [Mno Myes].
  destruct (decide ((somebits && explained = true) /\ sc_forced s = false)) as [Hx|Hx].
  - destruct (Mno Hx) as [l H2]. rewrite (bind_halt _ _ _ _ _ H2). eexists _, _. split; [reflexivity|]. split; [|done].
    intros Hacc. by apply Hno in Hacc.
  - assert (somebits && explained = false \/ sc_forced s = true) as Hx' by (destruct (somebits && explained), (sc_forced s); tauto).
    destruct (Myes Hx') as [l H2]. rewrite (bind_ok _ _ _ _ _ H2), (bind_ok _ _ _ _ _ (set_errno_run _ _)).
    set (w2 := with_errno 0 (with_out l w1)). assert (world_wf w2) as Hw2 by (destruct Hw; by split).
    destruct (set_file_run s w2 p c file Hw2 Hl (set_at_same _ _ w w2 eq_refl Hset) Hreg Hcap) as (o & w3 & H3 & Hok & Hbad).
    exists o, w3. split; [exact H3|]. change (kst w2) with (kst w) in *. split; intros Hacc.
    + destruct (Hok (proj1 (Hyes Hx') Hacc)) as (-> & Ha & e' & k' & l' & ->). by split_and!.
    + apply Hbad. intros Ha. apply Hacc. by apply Hyes.
Qed.

(** All of change_file(). *)
Lemma change_file_run s d h k w w1 p c file : prog_world w1 -> words_of d (creds_of k) -> sc_tried s = false -> List.length stack = 24%nat ->
  h !! sc_mycaps s = Some (OCap (proc_cap d)) -> sc_mycaps s <> p -> heaped h k w w1 -> regular k file -> set_at p c w1 ->
  let ok := CAP_SETFCAP ∈ cr_perm (creds_of k) /\ accepted (sc_forced s) c (file_attr k file) in
  exists o w2, change_file stack strerror s p file w1 = (o, w2) /\
    (ok -> o = Ok (sc_with_tried s) /\ stored_attr c (file_attr (kst w2) file) /\ world_wf w2 /\ set_at p c w2) /\
    (~ ok -> o = Halt (Exited 1) /\ file_attr (kst w2) file = file_attr k file).
Proof.
  intros Hw1 Hd Ht Hl Hmy Hne Hh Hreg Hset ok.
  destruct (raise_setfcap_run s d h k w w1 file Ht Hw1 Hd Hmy Hh Hreg) as [Hyes Hno]. unfold change_file.
  destruct (decide (CAP_SETFCAP ∈ cr_perm (creds_of k))) as [HP|HP].
  - destruct (Hyes HP) as (w2 & k' & c' & H2 & Hh2 & HE & Ha & Hr2). rewrite (bind_ok _ _ _ _ _ H2).
    destruct (heaped_wf _ _ _ _ Hh2) as [Hwf2 _]. pose proof (moved_kst _ _ _ Hh2) as Hk2.
    assert (set_at p c w2) as Hset2.
    { destruct c as [c|]; [|done]. destruct Hset as (Hp & Hm & Hv). split; [|done]. rewrite (heaped_heap _ _ _ _ Hh2), lookup_insert_ne by done.
      by rewrite <-(heaped_heap _ _ _ _ Hh). }
    destruct (store_file_run (sc_with_tried s) w2 p c file Hwf2 Hl Hset2 ltac:(by rewrite Hk2) ltac:(by rewrite Hk2)) as (o & w3 & H3 & Hok & Hbad).
    rewrite Hk2, Ha in Hok, Hbad. exists o, w3. split; [exact H3|]. subst ok. split.
    + intros [_ Hacc]. destruct (Hok Hacc) as (-> & Hs & Hheap & Hnext). split; [done|]. split; [done|].
      split; [|by apply (set_at_same p c w2)]. destruct Hwf2. by split; rewrite ?Hheap, ?Hnext.
    + intros Hacc. apply Hbad. tauto.
  - destruct (Hno HP) as (w2 & H2 & Hk2). rewrite (bind_halt _ _ _ _ _ H2). eexists _, w2. split; [reflexivity|]. subst ok.
    split; [tauto|]. intros _. by rewrite Hk2.
Qed.

(** ** setcap, from its arguments to its end *)

(** What the options at the front of the arguments set. *)
Fixpoint read_options (s : setcap_state) (l : list string) : option setcap_state :=
  match l with
  | [] => Some s
  | a :: l =>
      if String.eqb a "-f" then read_options (sc_with_forced s) l
      else if String.eqb a "-q" then read_options (sc_with_quiet s) l
      else if String.eqb a "-v" then read_options (sc_with_verify s) l
      else if String.eqb a "-n" then
        match l with
        | n :: l => match pos_uint_val n with Some r => read_options (sc_with_rootid r s) l | None => None end
        | [] => None
        end
      else None
  end.
Definition setcap_start (mycaps : Z) : setcap_state := mkSetcap mycaps false false false false 0.

Lemma loop_options n : forall l s s' rest w, (List.length l <= n)%nat -> read_options s l = Some s' ->
  setcap_loop gperf stack strerror s 0 (l ++ rest) w = setcap_loop gperf stack strerror s' 0 rest w.
Proof.
  induction n as [|n IH]; intros l s s' rest w Hn; (destruct l as [|a l]; [by intros [= <-]|]); cbn in Hn; [lia|].
  cbn [read_options app setcap_loop]. rewrite (bind_ok _ _ _ _ _ (cap_free_0 _)).
  destruct (String.eqb_spec a "-f") as [->|]; [apply IH; lia|].
  destruct (String.eqb_spec a "-q") as [->|]; [apply IH; lia|].
  destruct (String.eqb_spec a "-v") as [->|]; [apply IH; lia|].
  destruct (String.eqb_spec a "-n") as [->|]; [|done]. destruct l as [|m l]; [done|]. cbn [app].
  destruct (pos_uint_val m) as [r|] eqn:E; [|done]. intros Hs. unfold pos_uint. rewrite E. cbn.
  change (setcap_loop gperf stack strerror (sc_with_rootid r s) 0 (l ++ rest) w = setcap_loop gperf stack strerror s' 0 rest w).
  apply IH; [cbn in Hn; lia|done].
Qed.

Lemma read_options_facts n : forall l s s', (List.length l <= n)%nat -> read_options s l = Some s' ->
  sc_mycaps s' = sc_mycaps s /\ sc_tried s' = sc_tried s /\ (is_u32 (sc_rootid s) -> is_u32 (sc_rootid s')).
Proof.
  induction n as [|n IH]; intros l s s' Hn; (destruct l as [|a l]; [by intros [= <-]|]); cbn in Hn; [lia|]. cbn [read_options].
  destruct (String.eqb a "-f"); [intros H; apply IH in H; [done|lia]|].
  destruct (String.eqb a "-q"); [intros H; apply IH in H; [done|lia]|].
  destruct (String.eqb a "-v"); [intros H; apply IH in H; [done|lia]|].
  destruct (String.eqb a "-n"); [|done]. destruct l as [|m l]; [done|]. destruct (pos_uint_val m) as [r|] eqn:E; [|done].
  intros H. apply IH in H; [|cbn in Hn; lia]. destruct H as (? & ? & Hr). split; [done|]. split; [done|]. intros _. apply Hr. cbn [sc_rootid sc_with_rootid].
  unfold pos_uint_val in E. destruct (_ || _); [done|]. destruct (c_strtoul 0 m) as [[v rem] rg].
  destruct (negb (at_end rem)), (v =? 0), (negb (v =? u32 v)) eqn:E3; try done. injection E as <-.
  apply negb_false_iff, Z.eqb_eq in E3. rewrite E3. unfold u32, is_u32. apply Z.mod_pos_bound. lia.
Qed.

(** What the second argument but one asks for: NULL for -r. *)
Inductive wants (cmb : Z) (s : setcap_state) : string -> option cap_struct -> Prop :=
| wants_removal : wants cmb s "-r" None
| wants_set text u : option_word text = false -> has_non_space text = true ->
    parse_text gperf cmb 2 text [blk0; blk0] = PGood u -> wants cmb s text (Some (text_set (sc_rootid s) u)).

Lemma wants_run s text c w w1 h k : gperf_ok gperf -> prog_world w1 -> heaped h k w w1 -> is_u32 (sc_rootid s) ->
  wants (g_max_bits (glob w1)) s text c ->
  exists p h' w2, wanted_caps gperf strerror s text w1 = (Ok p, w2) /\ heaped h' k w w2 /\ set_at p c w2 /\
    (forall q o, h !! q = Some o -> h' !! q = Some o /\ q <> p) /\ prog_world w2.
Proof.
  intros Hg Hw1 Hh Hr Hwants. destruct Hwants as [|text u Ho Hs Hu].
  - exists 0, h, w1. split; [done|]. split; [done|]. split; [done|]. split; [|done]. intros q o Hq. split; [done|].
    by eapply heaped_ne_0.
  - exists (next w1), (<[next w1 := OCap (text_set (sc_rootid s) u)]> h), (placed (OCap (text_set (sc_rootid s) u)) w1).
    destruct (prog_text_world w1 Hw1) as (_ & _ & _ & Hcmb).
    pose proof (parse_text_total gperf Hg _ Hcmb text [blk0; blk0] u_wf_blank) as Hwf. rewrite Hu in Hwf.
    assert (obj_wf (OCap (text_set (sc_rootid s) u))) as Hobj by exact Hwf.
    split; [by apply wanted_caps_run|]. split; [by apply heaped_placed|]. split.
    { split; [apply lookup_insert_eq|]. by split_and!. }
    split; [|by apply prog_world_placed]. intros q o Hq. destruct (heaped_fresh _ _ _ _ Hh) as [Hf _].
    assert (q <> next w1) by congruence. by rewrite lookup_insert_ne.
Qed.

(** What [loop] has before it: the process's own set. *)
Lemma setcap_main_run (opts rest : list string) s w : prog_world w -> (opts ++ rest)%list <> [] -> read_options (setcap_start (next w)) opts = Some s ->
  exists d w1, setcap_main gperf stack strerror (opts ++ rest)%list w = setcap_loop gperf stack strerror s 0 rest w1 /\
    prog_world w1 /\ words_of d (creds_of (kst w)) /\ sc_mycaps s = next w /\ sc_tried s = false /\ is_u32 (sc_rootid s) /\
    heaped (<[next w := OCap (proc_cap d)]> (heap w)) (kst w) w w1.
Proof.
  intros Hw Hne Hs. pose proof Hw as (Hwf & Hm & _).
  destruct (cap_get_proc_held w Hwf Hm) as (d & Hself & Hcaps & Hu & H1 & Hn). exists d, (placed (OCap (proc_cap d)) w).
  assert (is_u32 0) as H0 by apply is_u32_0.
  destruct (read_options_facts (List.length opts) opts _ s ltac:(lia) Hs) as (E1 & E2 & E3). split.
  - unfold setcap_main. destruct (opts ++ rest)%list eqn:E; [done|]. rewrite <-E. rewrite (bind_ok _ _ _ _ _ H1).
    apply Z.eqb_neq in Hn as ->. rewrite (bind_ok _ _ _ _ _ (ret_run _ _)), holding_placed. by eapply loop_options.
  - split; [by apply prog_world_placed|]. split; [by split|]. split; [done|]. split; [done|]. split; [by apply E3|].
    apply heaped_placed; [done|]. apply heaped_moved. by apply moved_refl.
Qed.

(** The turn of the loop for a set and a file. *)
Lemma setcap_loop_file cmb s text c file rest w : wants cmb s text c ->
  setcap_loop gperf stack strerror s 0 (text :: file :: rest) w =
    (cap_d ← wanted_caps gperf strerror s text;
     if sc_verify s then cap_d ← verify_file stack strerror s cap_d file; setcap_loop gperf stack strerror s cap_d rest
     else s ← change_file stack strerror s cap_d file; setcap_loop gperf stack strerror s cap_d rest) w.
Proof.
  intros Hwants. assert (option_word text = true -> text = "-r") as Ho by (destruct Hwants; congruence).
  unfold option_word in Ho. cbn [existsb] in Ho.
  assert (forall a, String.eqb text a = true -> option_word text = true -> a = "-r") as Hr.
  { intros a Ha Hx. apply String.eqb_eq in Ha as <-. by apply Ho. }
  cbn [setcap_loop]. rewrite (bind_ok _ _ _ _ _ (cap_free_0 _)), (String.eqb_sym "--license").
  unfold option_word in Hr. cbn [existsb] in Hr.
  destruct (String.eqb text "--license") eqn:E1; [by specialize (Hr _ E1 eq_refl)|].
  destruct (String.eqb text "-f") eqn:E2; [by specialize (Hr _ E2 eq_refl)|].
  destruct (String.eqb text "-h") eqn:E3; [by specialize (Hr _ E3 eq_refl)|].
  destruct (String.eqb text "-n") eqn:E4; [by specialize (Hr _ E4 eq_refl)|].
  destruct (String.eqb text "-q") eqn:E5; [by specialize (Hr _ E5 eq_refl)|].
  destruct (String.eqb text "-v") eqn:E6; [by specialize (Hr _ E6 eq_refl)|]. done.
Qed.

Lemma setcap_loop_end s p w : world_wf w -> (p = 0 \/ exists c, heap w !! p = Some (OCap c) /\ c_mutex c = false) ->
  exists w', setcap_loop gperf stack strerror s p [] w = (Halt (Exited 0), w') /\ kst w' = kst w.
Proof.
  intros Hw Hp. cbn [setcap_loop]. destruct Hp as [->|(c & Hp & Hm)]; [by eexists|].
  pose proof (wf_ne_0 _ _ _ Hw Hp) as H0. apply Z.eqb_neq in H0 as ->. cbn [negb].
  rewrite bind_bind, (bind_ok _ _ _ _ _ (cap_free_plain p (OCap c) w Hw Hp ltac:(cbn; by rewrite Hm))). by eexists.
Qed.


(** ** Reading back *)

(** What the attribute of a file holds, and what a reader sees of it. *)
Definition file_holds k (file : string) (fc : option cap_struct) : Prop :=
  match fc with None => file_attr k file = None | Some c => exists v, file_attr k file = Some v /\ encodes v c end.
Definition seen_caps (fc : option cap_struct) (s : Z) : gset Z := match fc with None => ∅ | Some c => file_caps (c_u c) s end.
Definition seen_owner (fc : option cap_struct) : Z := match fc with None => 0 | Some c => c_rootid c end.
Definition wanted_set (c : option cap_struct) (s : Z) : gset Z := match c with None => ∅ | Some c => caps_of (c_u c) s end.

(** A set in hand with what a reader sees. *)
Definition read_cap (fc : option cap_struct) (c : cap_struct) : Prop :=
  u_wf (c_u c) /\ c_mutex c = false /\ c_rootid c = seen_owner fc /\ forall s, valid_set s -> caps_of (c_u c) s = seen_caps fc s.

Lemma read_blank : read_cap None cap_blank.
Proof.
  split; [apply u_wf_blank|]. split; [done|]. split; [done|]. intros s Hs. apply (caps_of_blank 2).
Qed.

Lemma caps_ext u u' : u_wf u -> u_wf u' -> (forall s, valid_set s -> caps_of u s = caps_of u' s) <-> u = u'.
Proof.
  intros Hu Hu'. split; [|by intros ->]. intros H. apply u_ext; [done..|]. intros x s Hx Hs. specialize (H s Hs).
  apply eq_true_iff_eq. assert (x ∈ caps_of u s <-> x ∈ caps_of u' s) as Hin by by rewrite H. rewrite !elem_of_caps_of in Hin. tauto.
Qed.

Lemma cap_get_file_run file fc w : prog_world w -> regular (kst w) file -> List.length stack = 24%nat -> file_holds (kst w) file fc ->
  match fc with
  | None => cap_get_file stack file w = (Ok 0, with_errno ENODATA (spent w))
  | Some _ => exists c, cap_get_file stack file w = (Ok (next w), placed (OCap c) w) /\ read_cap fc c
  end.
Proof.
  intros Hw Hreg Hl Hf. pose proof Hw as (Hwf & Hm & _). pose proof (wf_next_ne_0 _ Hwf) as Hn. pose proof (law_getxattr (kst w) file SIZEOF_RAWVFSCAP Hreg) as Hx.
  assert (mem_ok w) as Hok by (unfold mem_ok; by rewrite Hm). unfold cap_get_file, cap_get_ref.
  rewrite (bind_ok _ _ _ _ _ (cap_init_run w Hn Hok (law_probe _))). apply Z.eqb_neq in Hn as Hnb. rewrite Hnb. cbn [negb].
  set (w1 := placed (OCap cap_blank) w). destruct fc as [c|]; cbn [file_holds] in Hf.
  - destruct Hf as (v & Ha & b0 & b1 & raw & Hu & H0 & H1 & Hr & Hlr & ->). rewrite Ha in Hx.
    assert (stored_size c = 20 \/ stored_size c = 24) as Hsz by (unfold stored_size; destruct (c_rootid c =? 0); [left|right]; reflexivity).
    set (v := take (Z.to_nat (stored_size c)) (stored c b0 b1 raw)) in *.
    assert (Z.of_nat (List.length v) = stored_size c) as Hlen.
    { unfold v. rewrite length_take, length_stored, Hlr. lia. }
    rewrite Hlen in Hx. destruct (Z.leb_spec (stored_size c) SIZEOF_RAWVFSCAP) as [_|Hbad]; [|change SIZEOF_RAWVFSCAP with 24 in Hbad; lia].
    assert (sys_getxattr (ByPath file) stack w1 = (Ok (stored_size c, v ++ drop (List.length v) stack)%list, w1)) as Hgx.
    { unfold sys_getxattr. change (kst w1) with (kst w). rewrite Hx. erewrite bind_ok; [|apply libc_ret_ok; lia].
      by destruct (Z.ltb_spec (stored_size c) 0); [lia|]. }
    rewrite (bind_ok _ _ _ _ _ Hgx). destruct (Z.ltb_spec (stored_size c) 4); [lia|].
    destruct (fcaps_load_stored c b0 b1 raw (drop (List.length v) stack) (next w) LINUX_CAPABILITY_VERSION_3 0 w1)
      as (u & Hload & Huwf & Hcaps); [done..|apply lookup_insert_eq|].
    exists (mkCap false LINUX_CAPABILITY_VERSION_3 0 u (c_rootid c)). split; [|by split_and!].
    fold v in Hload. rewrite Hload. f_equal. unfold w1, placed, with_heap. cbn. f_equal. by rewrite insert_insert_eq.
  - rewrite Hf in Hx. unfold sys_getxattr. erewrite bind_ok; [|change (kst w1) with (kst w); rewrite Hx; reflexivity]. cbn [Z.ltb Z.compare].
    rewrite (bind_ok _ _ _ _ _ (cap_free_copy (next w) (OCap cap_blank) (with_errno ENODATA w1) Hn (proj2 (wf_next _ Hwf)) (lookup_insert_eq _ _ _) eq_refl)).
    rewrite ret_run. f_equal. unfold w1. pose proof (wf_fresh _ Hwf). world_eq.
Qed.

(** The file agrees with what setcap -v was given. *)
Definition agrees (rootid : Z) (c fc : option cap_struct) : Prop :=
  (forall s, valid_set s -> seen_caps fc s = wanted_set c s) /\ rootid = seen_owner fc.

#[global] Instance agrees_dec rootid c fc : Decision (agrees rootid c fc).
Proof.
  clear strerror. destruct (decide (Forall (fun s => seen_caps fc s = wanted_set c s) [CAP_EFFECTIVE; CAP_PERMITTED; CAP_INHERITABLE] /\ rootid = seen_owner fc))
    as [[H Ho]|H]; [left|right; intros [Hs Ho]; apply H].
  - split; [|done]. rewrite Forall_forall in H. intros s Hs. apply H. rewrite !elem_of_cons. pose proof (valid_set_cases s Hs). tauto.
  - split; [|done]. repeat constructor; by apply Hs.
Defined.

(** A set in hand: the one that was there, or a new empty one. *)
Lemma or_blank_run (R : cap_struct -> Prop) p h k w w1 (msg : string) : heaped h k w w1 ->
  (p = 0 /\ R cap_blank \/ exists c, h !! p = Some (OCap c) /\ R c) ->
  exists q h' w2 c, (if p =? 0 then c ← cap_init; if c =? 0 then perror strerror msg;; exit 1 else mret c else mret p) w1 = (Ok q, w2) /\
    heaped h' k w w2 /\ h' !! q = Some (OCap c) /\ R c /\ forall r o, h !! r = Some o -> h' !! r = Some o /\ (p = 0 \/ r <> p -> r <> q).
Proof.
  intros Hh [[-> HR]|(c & Hp & Hc)].
  - destruct (heaped_wf _ _ _ _ Hh) as [Hw Hm]. pose proof (wf_next_ne_0 _ Hw) as Hn.
    assert (mem_ok w1) as Hok by (unfold mem_ok; by rewrite Hm). cbn [Z.eqb].
    rewrite (bind_ok _ _ _ _ _ (cap_init_run w1 Hn Hok (law_probe _))). apply Z.eqb_neq in Hn as ->.
    destruct (heaped_fresh _ _ _ _ Hh) as [Hf _].
    exists (next w1), (<[next w1 := OCap cap_blank]> h), (placed (OCap cap_blank) w1), cap_blank. split; [done|].
    split; [apply heaped_placed; [exact u_wf_blank|done]|]. split; [apply lookup_insert_eq|]. split; [done|].
    intros r o Hr. assert (r <> next w1) by congruence. by rewrite lookup_insert_ne.
  - pose proof (heaped_ne_0 _ _ _ _ _ _ Hh Hp) as H0. apply Z.eqb_neq in H0 as H0b. rewrite H0b.
    exists p, h, w1, c. split_and!; try done. intros r o Hr. split; [done|]. by intros [|].
Qed.

(** The comparison, in the order of verify_file(). *)
Lemma verify_compare_run a b ca cb h k w w1 : heaped h k w w1 -> h !! a = Some (OCap ca) -> c_mutex ca = false ->
  h !! b = Some (OCap cb) -> c_mutex cb = false ->
  exists w2 w3, cap_compare a b w1 = (Ok (compare_u (c_u ca) (c_u cb)), w2) /\ cap_get_nsowner a w2 = (Ok (c_rootid ca), w2) /\
    cap_free a w2 = (Ok 0, w3) /\ heaped (delete a h) k w w3.
Proof.
  intros Hh Ha Hma Hb Hmb. destruct (heaped_wf _ _ _ _ Hh) as [Hw Hm].
  pose proof (heaped_lookup _ _ _ _ _ _ Hh Ha) as Ha1. pose proof (heaped_lookup _ _ _ _ _ _ Hh Hb) as Hb1.
  assert (heaped h k w (spent w1)) as Hh2.
  { pose proof (moved_later _ _ (spent_later w1 Hw Hm)) as Hmv. rewrite (moved_kst _ _ _ Hh) in Hmv. by eapply heaped_then. }
  destruct (heaped_free (OCap ca) a h k w _ Ha ltac:(cbn; by rewrite Hma) Hh2) as (w3 & H3 & Hh3).
  exists (spent w1), w3. split; [apply (cap_compare_run a b ca cb w1 Hw Ha1 Hma Hb1 Hmb (law_probe _)); unfold mem_ok; by rewrite Hm|].
  split; [|done]. exact (cap_get_nsowner_run a ca (spent w1) (heaped_ne_0 _ _ _ _ _ _ Hh Ha) Ha1 Hma).
Qed.

(** The set that -v compares with. *)
Definition asked (c : option cap_struct) (x : cap_struct) : Prop :=
  u_wf (c_u x) /\ c_mutex x = false /\ forall s, valid_set s -> caps_of (c_u x) s = wanted_set c s.

Lemma asked_at p c h k w w1 : heaped h k w w1 -> set_at p c w1 ->
  p = 0 /\ asked c cap_blank \/ exists x, h !! p = Some (OCap x) /\ asked c x.
Proof.
  intros Hh Hset. destruct c as [c|]; cbn [set_at] in Hset.
  - right. destruct Hset as (Hp & Hm & _). destruct (heaped_wf _ _ _ _ Hh) as [Hw _]. destruct (live_cap _ _ _ Hw Hp) as [Hu _].
    rewrite (heaped_heap _ _ _ _ Hh) in Hp. exists c. by split_and!.
  - left. split; [done|]. destruct read_blank as (? & ? & _ & ?). by split_and!.
Qed.

(** The file's own set, or an empty one when it has none. *)
Lemma file_set_run file fc h k w w1 : prog_world w1 -> heaped h k w w1 -> List.length stack = 24%nat -> regular k file -> file_holds k file fc ->
  exists q h' w2, cap_get_file stack file w1 = (Ok q, w2) /\ heaped h' k w w2 /\
    (q = 0 /\ read_cap fc cap_blank \/ exists c, h' !! q = Some (OCap c) /\ read_cap fc c) /\
    (forall r o, h !! r = Some o -> h' !! r = Some o /\ r <> q).
Proof.
  intros Hw1 Hh Hl Hreg Hf. pose proof (moved_kst _ _ _ Hh) as Hk. pose proof (cap_get_file_run file fc w1 Hw1) as H. rewrite Hk in H.
  specialize (H Hreg Hl Hf). destruct fc as [c|].
  - destruct H as (c' & H & Hc). exists (next w1), (<[next w1 := OCap c']> h), (placed (OCap c') w1). split; [done|].
    split; [apply heaped_placed; [apply Hc|done]|]. split; [right; exists c'; split; [apply lookup_insert_eq|done]|].
    destruct (heaped_fresh _ _ _ _ Hh) as [Hfr _]. intros r o Hr. assert (r <> next w1) by congruence. by rewrite lookup_insert_ne.
  - exists 0, h, (with_errno ENODATA (spent w1)). split; [done|]. split.
    { destruct (heaped_wf _ _ _ _ Hh) as [Hw Hm]. pose proof (moved_later _ _ (spent_later w1 Hw Hm)) as Hmv. rewrite Hk in Hmv.
      apply moved_errno. by eapply heaped_then. }
    split; [left; split; [done|apply read_blank]|]. intros r o Hr. split; [done|]. by eapply heaped_ne_0.
Qed.

Lemma verify_file_run s p c fc file h k w w1 : prog_world w -> heaped h k w w1 -> set_at p c w1 -> List.length stack = 24%nat ->
  regular k file -> file_holds k file fc ->
  (agrees (sc_rootid s) c fc -> exists q w2 cq, verify_file stack strerror s p file w1 = (Ok q, w2) /\ world_wf w2 /\
     heap w2 !! q = Some (OCap cq) /\ c_mutex cq = false /\ kst w2 = k) /\
  (~ agrees (sc_rootid s) c fc -> exists w2, verify_file stack strerror s p file w1 = (Halt (Exited 1), w2) /\ kst w2 = k).
Proof.
  intros Hw Hh Hset Hl Hreg Hf. unfold verify_file.
  destruct (or_blank_run (asked c) p h k w w1 "unable to obtain empty capability" Hh (asked_at _ _ _ _ _ _ Hh Hset))
    as (b & h2 & w2 & cb & H2 & Hh2 & Hb & (Hub & Hmb & Hcb) & _).
  destruct (file_set_run file fc h2 k w w2 (prog_world_heaped _ _ _ _ Hh2 Hw) Hh2 Hl Hreg Hf) as (a0 & h3 & w3 & H3 & Hh3 & Ha0 & Hkeep3).
  destruct (Hkeep3 _ _ Hb) as [Hb3 Hne3].
  destruct (or_blank_run (read_cap fc) a0 h3 k w w3 "unable to use missing capability" Hh3 Ha0)
    as (a & h4 & w4 & ca & H4 & Hh4 & Ha & (Hua & Hma & Hra & Hca) & Hkeep4).
  destruct (Hkeep4 _ _ Hb3) as [Hb4 Hne4].
  destruct (verify_compare_run a b ca cb h4 k w w4 Hh4 Ha Hma Hb4 Hmb) as (w5 & w6 & H5 & H6 & H7 & Hh6).
  rewrite (bind_ok _ _ _ _ _ H2), (bind_ok _ _ _ _ _ H3), (bind_ok _ _ _ _ _ H4), (bind_ok _ _ _ _ _ H5), (bind_ok _ _ _ _ _ H6), (bind_ok _ _ _ _ _ H7).
  assert (negb (compare_u (c_u ca) (c_u cb) =? 0) || negb (sc_rootid s =? c_rootid ca) = false <-> agrees (sc_rootid s) c fc) as Hiff.
  { rewrite orb_false_iff, !negb_false_iff, !Z.eqb_eq. unfold agrees. rewrite Hra.
    destruct (compare_u_spec (c_u ca) (c_u cb) 0 Hua Hub) as [-> _]. rewrite <-caps_ext by done.
    split; intros [H ?]; (split; [|done]); intros x Hx; specialize (H x Hx); [by rewrite <-Hca, <-Hcb|by rewrite Hca, Hcb]. }
  pose proof (moved_kst _ _ _ Hh6) as Hk6. destruct (negb _ || negb _) eqn:E.
  - split; [intros Hag; by apply Hiff in Hag|]. intros _. destruct (sc_quiet s), (negb (sc_rootid s =? c_rootid ca)); (eexists; split; [reflexivity|exact Hk6]).
  - split; [|intros Hno; exfalso; by apply Hno, Hiff]. intros _.
    assert (world_wf w6) as Hw6 by apply (heaped_wf _ _ _ _ Hh6).
    assert (heap w6 !! b = Some (OCap cb)) as Hb6.
    { eapply heaped_lookup; [done|]. rewrite lookup_delete_ne; [done|]. apply not_eq_sym, Hne4. by right. }
    destruct (sc_quiet s); eexists b, _, cb; (split; [reflexivity|]); (split; [|by split]); [done|by destruct Hw6; split].
Qed.

(** C24 setcap -v compares without changing anything: on a regular file whose
    attribute, if it has one, was stored by libcap, the exit status is 0 exactly
    when the permitted and the inheritable set of the file are those of the
    argument, when the effective set of the argument is what the file's single
    effective bit makes of them, and the owner of the file's user namespace is the
    one given with -n, or 0; otherwise it is 1. *)
Theorem setcap_verify_correct opts s text c fc file w :
  gperf_ok gperf -> prog_world w -> List.length stack = 24%nat -> regular (kst w) file -> file_holds (kst w) file fc ->
  read_options (setcap_start (next w)) opts = Some s -> sc_verify s = true -> wants (g_max_bits (glob w)) s text c ->
  exists status w', setcap_main gperf stack strerror (opts ++ [text; file])%list w = (Halt (Exited status), w') /\ kst w' = kst w /\
    (agrees (sc_rootid s) c fc -> status = 0) /\ (~ agrees (sc_rootid s) c fc -> status = 1).
Proof.
  intros Hg Hw Hl Hreg Hf Hs Hv Hwants.
  destruct (setcap_main_run opts [text; file] s w Hw ltac:(by destruct opts) Hs) as (d & w1 & -> & Hw1 & Hd & Emy & Et & Hr & Hh1).
  rewrite (setcap_loop_file _ _ _ _ _ _ _ Hwants). rewrite <-(heaped_glob _ _ _ _ Hh1) in Hwants.
  destruct (wants_run s text c w w1 _ _ Hg Hw1 Hh1 Hr Hwants) as (p & h' & w2 & H2 & Hh2 & Hset & Hkeep & Hw2).
  rewrite (bind_ok _ _ _ _ _ H2), Hv.
  destruct (verify_file_run s p c fc file h' (kst w) w w2 Hw Hh2 Hset Hl Hreg Hf) as [Hyes Hno].
  destruct (decide (agrees (sc_rootid s) c fc)) as [Hy|Hn].
  - destruct (Hyes Hy) as (q & w3 & cq & H3 & Hwf3 & Hq & Hm & Hk). rewrite (bind_ok _ _ _ _ _ H3).
    destruct (setcap_loop_end s q w3) as (w4 & -> & Hk4); [done|right; by exists cq|]. exists 0, w4. rewrite Hk4. by split_and!.
  - destruct (Hno Hn) as (w3 & H3 & Hk). rewrite (bind_halt _ _ _ _ _ H3). by exists 1, w3.
Qed.

(** ** getcap *)

(** The text of the set that a reader sees is a text of that set. *)
Lemma seen_text_parse fc c cmb : gperf_ok gperf -> 1 <= cmb <= CAP_MAXBITS -> read_cap fc c ->
  (gperf = None -> forall s x, valid_set s -> x ∈ seen_caps fc s -> x < cmb \/ CAP_BITS <= x) ->
  exists u, parse_text gperf cmb 2 (text_of (c_u c) cmb) [blk0; blk0] = PGood u /\ forall s, valid_set s -> caps_of u s = seen_caps fc s.
Proof.
  intros Hg Hcmb (Hu & _ & _ & Hc) Hn. assert (nameable gperf (c_u c) cmb) as Hnam.
  { intros Hno n Hrange. change CAP_BITS with 41 in Hrange. assert (valid_cap n) as Hv by (unfold valid_cap; change CAP_MAXBITS with 64; lia).
    apply state_ext; [apply getstateflags_range|done|]. intros s Hs. rewrite getstateflags_testbit, Z.testbit_0_l by done.
    apply not_true_iff_false. intros Hhas. assert (n ∈ caps_of (c_u c) s) as Hin by by apply elem_of_caps_of.
    rewrite Hc in Hin by done. specialize (Hn Hno s n Hs Hin). change CAP_BITS with 41 in Hn. lia. }
  pose proof (text_of_ok gperf (c_u c) cmb Hg Hcmb Hnam) as Hok. pose proof Hok as (_ & _ & Hcg).
  exists (clauses_u cmb (with_gaps (text_clauses (c_u c) cmb)) [blk0; blk0]).
  split; [exact (parse_text_run gperf cmb Hcmb "" _ _ Hok u_wf_blank)|].
  assert (clauses_u cmb (with_gaps (text_clauses (c_u c) cmb)) [blk0; blk0] = c_u c) as ->; [|done].
  apply states_inj; [|done|].
  - by apply (clauses_u_spec gperf cmb Hcmb _ [blk0; blk0] 0 Hcg u_wf_blank).
  - intros x Hx. destruct (clauses_u_spec gperf cmb Hcmb _ [blk0; blk0] x Hcg u_wf_blank Hx) as [_ Hs].
    etrans; [exact Hs|]. rewrite blank_state by done. by rewrite clauses_state_fst, with_gaps_fst, text_clauses_state.
Qed.

(** One regular file, without options. *)
Lemma do_getcap_run file fc w : prog_world w -> regular (kst w) file -> List.length stack = 24%nat -> file_holds (kst w) file fc ->
  exists w', do_getcap stack strerror (mkGetcap false false false) file FTW_F w = (Ok tt, w') /\
    match fc with
    | None => moved (kst w) w w'
    | Some _ => exists c, read_cap fc c /\ moved (kst w) (with_out ((file ++ " " ++ text_of (c_u c) (g_max_bits (glob w))) :: out w) w) w'
    end.
Proof.
  intros Hw Hreg Hl Hf. pose proof Hw as (Hwf & Hm & _). pose proof (cap_get_file_run file fc w Hw Hreg Hl Hf) as H.
  unfold do_getcap. cbn [Z.eqb negb FTW_F]. destruct fc as [c0|].
  2:{ rewrite (bind_ok _ _ _ _ _ H). cbn [Z.eqb]. run. cbn. eexists. split; [reflexivity|]. by apply moved_errno, moved_later, spent_later. }
  destruct H as (c & H & Hc). pose proof Hc as (Hu & Hmx & _). rewrite (bind_ok _ _ _ _ _ H). set (p := next w) in *.
  assert (heaped (<[p := OCap c]> (heap w)) (kst w) w (placed (OCap c) w)) as Hh.
  { apply heaped_placed; [exact Hu|]. apply heaped_moved. by apply moved_refl. }
  set (w1 := placed (OCap c) w) in *. assert (prog_world w1) as Hw1 by by apply prog_world_placed.
  assert ((p =? 0) = false) as -> by (apply Z.eqb_neq; by apply wf_next_ne_0).
  assert (heap w1 !! p = Some (OCap c)) as Hp by apply lookup_insert_eq. destruct (heaped_wf _ _ _ _ Hh) as [Hwf1 Hm1].
  destruct (prog_text_world w1 Hw1) as (_ & _ & _ & Hcmb).
  destruct (cap_to_text_run p c false w1 Hwf1 Hm1 Hp Hcmb) as (w2 & Hlat & H2). change (glob w1) with (glob w) in H2.
  set (t := text_of (c_u c) (g_max_bits (glob w))) in *. rewrite (bind_ok _ _ _ _ _ H2).
  assert (heaped (<[p := OCap c]> (heap w)) (kst w) w w2) as Hh2 by (eapply heaped_then; [exact Hh|exact (moved_later _ _ Hlat)]).
  destruct (heaped_fresh _ _ _ _ Hh2) as [Hfr Hn2]. apply lookup_insert_None in Hfr as [Hfr Hne].
  apply Z.eqb_neq in Hn2 as ->. pose proof (heaped_placed (OStr t) _ _ _ _ I Hh2) as Hh3. set (w3 := placed (OStr t) w2) in *.
  set (h3 := <[next w2 := OStr t]> (<[p := OCap c]> (heap w))) in *.
  assert (h3 !! p = Some (OCap c)) as Hp3 by (unfold h3; rewrite lookup_insert_ne by done; apply lookup_insert_eq).
  pose proof (heaped_lookup _ _ _ _ _ _ Hh3 Hp3) as Hp3'. pose proof (wf_next_ne_0 _ Hwf) as Hp0.
  rewrite (bind_ok _ _ _ _ _ (cap_get_nsowner_run p c w3 Hp0 Hp3' Hmx)).
  rewrite (bind_ok _ _ _ _ _ (load_str_run (next w2) t w3 (lookup_insert_eq _ _ _))). cbn [gc_namespace andb].
  unfold print. rewrite (bind_ok _ _ _ _ _ (modify_run _ _)). pose proof (heaped_print (file ++ " " ++ t) _ _ _ _ Hh3) as Hh4.
  destruct (heaped_free (OCap c) p h3 _ _ _ Hp3 ltac:(cbn; by rewrite Hmx) Hh4) as (w5 & H5 & Hh5). rewrite (bind_ok _ _ _ _ _ H5).
  assert (delete p h3 !! next w2 = Some (OStr t)) as Ht by (rewrite lookup_delete_ne by done; apply lookup_insert_eq).
  destruct (heaped_free (OStr t) (next w2) (delete p h3) _ _ w5 Ht eq_refl Hh5) as (w6 & H6 & Hh6).
  rewrite (bind_ok _ _ _ _ _ H6). exists w6. split; [done|]. exists c. split; [done|].
  replace (delete (next w2) (delete p h3)) with (heap w) in Hh6.
  - unfold heaped in Hh6. by destruct w.
  - pose proof (wf_fresh _ Hwf) as Hfp. fold p in Hfp. clear -Hfp Hfr Hne. unfold h3. heap_eq.
Qed.

(** The lines that tell what the files hold: one for each file that has the
    attribute, its name and a text of the set. *)
Inductive reports (cmb : Z) : list (string * option cap_struct) -> list string -> Prop :=
  | reports_nil : reports cmb [] []
  | reports_none file l lines : reports cmb l lines -> reports cmb ((file, None) :: l) lines
  | reports_some file c t u l lines :
      parse_text gperf cmb 2 t [blk0; blk0] = PGood u -> (forall s, valid_set s -> caps_of u s = file_caps (c_u c) s) ->
      reports cmb l lines -> reports cmb ((file, Some c) :: l) ((file ++ " " ++ t) :: lines).

(** A regular file that can be read; without the lookup table of the build, each
    capability of it has a name or none at all. *)
Definition plain_file k cmb (x : string * option cap_struct) : Prop :=
  regular k (fst x) /\ file_holds k (fst x) (snd x) /\ (exists mode, sys_lstat k (fst x) = (0, mode) /\ S_ISREG mode = true) /\
  (gperf = None -> forall s n, valid_set s -> n ∈ seen_caps (snd x) s -> n < cmb \/ CAP_BITS <= n).

Lemma getcap_files_run l w : gperf_ok gperf -> prog_world w -> List.length stack = 24%nat ->
  Forall (plain_file (kst w) (g_max_bits (glob w))) l ->
  exists w' lines, getcap_files stack strerror (mkGetcap false false false) (map fst l) w = (Ok tt, w') /\
    reports (g_max_bits (glob w)) l lines /\ moved (kst w) (with_out (List.app (rev lines) (out w)) w) w'.
Proof.
  intros Hg Hw Hl. revert w Hw. induction l as [|[file fc] l IH]; intros w Hw Hall.
  { exists w, []. split; [done|]. split; [constructor|]. pose proof Hw as (Hwf & Hm & _). pose proof (moved_refl w Hwf Hm) as H. by destruct w. }
  apply Forall_cons in Hall as [(Hreg & Hf & (mode & Hst & Hmode) & Hnam) Hall]. cbn [fst snd] in *.
  destruct (do_getcap_run file fc w Hw Hreg Hl Hf) as (w1 & H1 & Hmv1).
  assert (getcap_files stack strerror (mkGetcap false false false) (map fst ((file, fc) :: l)) w
          = getcap_files stack strerror (mkGetcap false false false) (map fst l) w1) as ->.
  { cbn [map fst getcap_files].
    assert ((fun w0 => let '(r, mode) := sys_lstat (kst w0) file in (r ← libc_ret r; mret (r, mode)) w0) w = (Ok (0, mode), w)) as H0 by by rewrite Hst.
    rewrite (bind_ok _ _ _ _ _ H0). cbn [Z.eqb negb gc_recursive]. rewrite Hmode. by rewrite (bind_ok _ _ _ _ _ H1). }
  assert (exists ls, moved (kst w) (with_out (List.app ls (out w)) w) w1 /\
    forall lines, reports (g_max_bits (glob w)) l lines -> reports (g_max_bits (glob w)) ((file, fc) :: l) (List.app (rev ls) lines)) as (ls & Hmv & Hrep).
  { destruct fc as [c0|].
    - destruct Hmv1 as (c & Hc & Hmv). exists [file ++ " " ++ text_of (c_u c) (g_max_bits (glob w))]. split; [done|]. intros lines Hls.
      destruct (prog_text_world w Hw) as (_ & _ & _ & Hcmb). destruct (seen_text_parse _ _ _ Hg Hcmb Hc Hnam) as (u & Hu & Hu').
      by econstructor.
    - exists []. split; [by destruct w|]. intros lines Hls. by constructor. }
  clear Hmv1. assert (prog_world w1) as Hw1.
  { eapply prog_world_moved; [exact Hmv|]. destruct Hw as ([Hn Hh] & Hm & Hc & Hd). split; [by split|]. split; [done|]. by split. }
  assert (glob w1 = glob w) as Eg by by rewrite (moved_glob _ _ _ Hmv).
  destruct (IH w1 Hw1) as (w' & lines & H' & Hls & Hmv').
  { by rewrite (moved_kst _ _ _ Hmv), Eg. }
  rewrite Eg in Hls. exists w', (List.app (rev ls) lines). split; [done|]. split; [by apply Hrep|].
  rewrite (moved_kst _ _ _ Hmv), (moved_out _ _ _ Hmv) in Hmv'. cbn [out with_out] in Hmv'.
  rewrite rev_app_distr, rev_involutive, <-app_assoc.
  assert (moved (kst w) (with_out (List.app (rev lines) (List.app ls (out w))) w) (with_out (List.app (rev lines) (List.app ls (out w))) w1)) as Hmv2.
  { destruct Hmv as ([Hn Hh] & Hm & Hle & E). split; [by split|]. split; [done|]. split; [done|]. rewrite E at 1. done. }
  exact (moved_trans _ _ _ _ _ Hmv2 Hmv').
Qed.

(** C25 getcap without options reports on each of the files named, in order: a
    regular file without the attribute gives no line, one whose attribute was
    stored by libcap a line with its name and a text that parses, in a program of
    the same build, to the very set that the attribute describes, the effective
    capabilities being all or none of the others. The exit status is 0 and the heap
    and the kernel are left as they were. *)
Theorem getcap_correct args l w :
  gperf_ok gperf -> prog_world w -> List.length stack = 24%nat -> getopt args "rvhnl" = ([], map fst l) -> l <> [] ->
  Forall (plain_file (kst w) (g_max_bits (glob w))) l ->
  exists w' lines, getcap_main stack strerror getopt args w = (Halt (Exited 0), w') /\ reports (g_max_bits (glob w)) l lines /\
    out w' = List.app (rev lines) (out w) /\ heap w' = heap w /\ kst w' = kst w.
Proof.
  intros Hg Hw Hl Ho Hne Hall. destruct (getcap_files_run l w Hg Hw Hl Hall) as (w' & lines & H & Hls & Hmv).
  unfold getcap_main. rewrite Ho. exists w', lines.
  split; [|by rewrite (moved_out _ _ _ Hmv), (moved_heap _ _ _ Hmv), (moved_kst _ _ _ Hmv)].
  cbn [getcap_options]. rewrite (bind_ok _ _ _ _ _ (ret_run _ _)). destruct l as [|x l]; [done|]. cbn [map] in *.
  by rewrite (bind_ok _ _ _ _ _ H).
Qed.

End setcap.
