(* ===== verification/Capsh.v ===== *)
(** progs/capsh.c: the shell wrapper that changes its own capabilities as its
    arguments say, one after the other, and then runs a shell. One definition per
    option, and main() as the loop over the arguments. Texts of messages are
    abbreviated, what is shown of the process's state is not. *)

From stdpp Require Import gmap list.
From Stdlib Require Import ZArith Lia String Ascii.
From S2P Require Import Prelude Capability World Syscall Alloc Flag Proc Text Launch CLib Capshdoc.

Open Scope string_scope.
Open Scope Z_scope.

Definition SHELL : string := "/bin/bash".
Definition MAX_GROUPS : Z := 100.
Definition PR_GET_NO_NEW_PRIVS : Z := 39.
Definition PR_GET_KEEPCAPS : Z := 7.

(** What else capsh asks of the system; a group's number by name, the identity
    of the process, the environment, files it may execute, sysconf(3), kill(2)
    and the status waitpid(2) reports. *)
Class Session (K : Type) := {
  getgrnam : K -> string -> option Z;
  user_name : K -> Z -> option string;
  sys_getuid : K -> Z;
  sys_geteuid : K -> Z;
  sys_getgid : K -> Z;
  sys_getgroups : K -> list Z;
  getenv_path : K -> option string;
  sys_setenv : K -> string -> string -> Z * K;
  sys_access : K -> string -> bool;
  sc_getgr_size : Z;
  sc_ngroups_max : Z;
  sys_kill : K -> Z -> Z -> Z * K;
  sys_wait : K -> Z -> Z * Z * K
}.

Section capsh.
Context {K : Type} `{!Kernel K, !Process K, !Accounts K, !Session K}.
Variable gperf : option (string -> option Z).
Variable strerror : Z -> string.
(** The environment given to main(). *)
Variable envp : list string.
Implicit Types (w : world K) (p : Z).

Definition perror (s : string) : M K unit := e ← get_errno; print (s ++ ": " ++ strerror e).
(** A message, and exit(1). *)
Definition die {A} (s : string) : M K A := print s;; exit 1.
Definition pdie {A} (s : string) : M K A := perror s;; exit 1.

(** ** Numbers *)

Definition nonneg_uint_val (text : string) : option Z :=
  if (strlen text =? 0) || Ascii.eqb (head text) "-" then None
  else
    let '(value, remains, _) := c_strtoul 0 text in
    if negb (at_end remains) || negb (value =? u32 value) then None else Some value.
Definition nonneg_uint (text prefix : string) : M K Z :=
  match nonneg_uint_val text with
  | Some value => mret value
  | None => die (prefix ++ ": want non-negative integer, got " ++ text)
  end.

Definition hex_ull_val (text : string) : option Z :=
  if at_end text || Ascii.eqb (head text) "-" then None
  else
    let '(value, remains, range) := c_strtoul 16 text in
    if negb (at_end remains) || range then None else Some value.
Definition hex_ull (text prefix : string) : M K Z :=
  match hex_ull_val text with
  | Some value => mret value
  | None => die (prefix ++ ": want hex value, got " ++ text)
  end.

(** The buffer of binary(): 8*sizeof(unsigned long) digits and a NUL. *)
Definition BINARY_SIZE : nat := 65.
(** The [do ... while]: [i] characters of the buffer are free, [digits] is what
    has been written behind them. *)
Fixpoint binary_loop (i : nat) (value : Z) (digits : string) : string :=
  match i with
  | O => digits
  | S i =>
      let digits := String (if Z.land value 1 =? 0 then "0" else "1") digits in
      let value := Z.shiftr value 1 in
      if negb (value =? 0) then binary_loop i value digits else digits
  end.
Definition binary (value : Z) : string := binary_loop (BINARY_SIZE - 1) value "".

(** ** Showing *)

(** The loop of display_prctl_set(): the text so far, and the last [cap]. *)
Fixpoint prctl_set_loop (fuel : nat) (fn : Z -> M K Z) (cap : Z) (sep text : string) : M K (Z * string) :=
  match fuel with
  | O => spin
  | S fuel =>
      set ← fn cap;
      if set <? 0 then mret (cap, text)
      else if set =? 0 then prctl_set_loop fuel fn (cap + 1) sep text
      else
        ptr ← cap_to_name cap;
        name ← (if ptr =? 0 then mret (fmt_uint 10 cap)
                else s ← load_str ptr; _ ← cap_free ptr; mret s);
        prctl_set_loop fuel fn (cap + 1) "," (text ++ sep ++ name)
  end.
Definition display_prctl_set (name : string) (fn : Z -> M K Z) : M K unit :=
  '(cap, text) ← prctl_set_loop probe_fuel fn 0 "" (name ++ " set =");
  print (if cap =? 0 then text ++ " <unsupported>" else text).

Definition display_current : M K unit :=
  all ← cap_get_proc;
  if all =? 0 then pdie "failed to get process capabilities"
  else
    '(text, _) ← cap_to_text all false;
    t ← load_str text;
    print ("Current: " ++ t);;
    _ ← cap_free text;
    _ ← cap_free all;
    mret tt.

Definition display_current_iab : M K unit :=
  iab ← cap_iab_get_proc;
  if iab =? 0 then pdie "failed to get IAB for process"
  else
    text ← cap_iab_to_text iab;
    if text =? 0 then perror "failed to obtain text for IAB";; _ ← cap_free iab; exit 1
    else
      t ← load_str text;
      print ("Current IAB: " ++ t);;
      _ ← cap_free text;
      _ ← cap_free iab;
      mret tt.

Definition lock_line (name : string) (set bit lock : Z) : string :=
  " " ++ name ++ ": " ++ (if negb (Z.land set bit =? 0) then "yes" else "no") ++ " ("
  ++ (if negb (Z.land set lock =? 0) then "locked" else "unlocked") ++ ")".

(** The part of arg_print() on the securebits. *)
Definition print_secbits : M K unit :=
  set ← cap_get_secbits;
  if 0 <=? set then
    let b := binary set in
    nnp ← prctl PR_GET_NO_NEW_PRIVS 0 0 0 0 0;
    print ("Securebits: 0" ++ fmt_uint 8 set ++ "/0x" ++ fmt_uint 16 set ++ "/" ++ fmt_uint 10 (strlen b) ++ "'b" ++ b
           ++ " (no-new-privs=" ++ fmt_d nnp ++ ")");;
    print (lock_line "secure-noroot" set SECBIT_NOROOT SECBIT_NOROOT_LOCKED);;
    print (lock_line "secure-no-suid-fixup" set SECBIT_NO_SETUID_FIXUP SECBIT_NO_SETUID_FIXUP_LOCKED);;
    print (lock_line "secure-keep-caps" set SECBIT_KEEP_CAPS SECBIT_KEEP_CAPS_LOCKED);;
    supported ← CAP_AMBIENT_SUPPORTED;
    if supported : bool
    then print (lock_line "secure-no-ambient-raise" set SECBIT_NO_CAP_AMBIENT_RAISE SECBIT_NO_CAP_AMBIENT_RAISE_LOCKED)
    else mret tt
  else
    print "[Securebits ABI not supported]";;
    set ← prctl PR_GET_KEEPCAPS 0 0 0 0 0;
    if 0 <=? set then print (" prctl-keep-caps: " ++ (if negb (set =? 0) then "yes" else "no") ++ " (locking not supported)")
    else print "[Keepcaps ABI not supported]".

Definition named (n : Z) (name : option string) : string := fmt_uint 10 n ++ "(" ++ default "???" name ++ ")".

Definition arg_print : M K unit :=
  display_current;;
  display_prctl_set "Bounding" cap_get_bound;;
  display_prctl_set "Ambient" cap_get_ambient;;
  display_current_iab;;
  print_secbits;;
  k ← gets kst;
  let uid := sys_getuid k in
  let euid := sys_geteuid k in
  print ("uid=" ++ named uid (user_name k uid) ++ " euid=" ++ named euid (user_name k euid));;
  print ("gid=" ++ named (sys_getgid k) (getgrgid k (sys_getgid k)));;
  let groups := sys_getgroups k in
  let groups := if MAX_GROUPS <? Z.of_nat (List.length groups) then [] else groups in
  print ("groups=" ++ String.concat "," (map (fun g => named g (getgrgid k g)) groups));;
  mode ← cap_get_mode;
  print ("Guessed mode: " ++ cap_mode_name mode ++ " (" ++ fmt_d mode ++ ")").

(** ** Raising CAP_SETPCAP for a while *)

Definition will_need_setpcap (strict : bool) : M K Z :=
  if strict then mret 0
  else
    raised ← cap_get_proc;
    if raised =? 0 then pdie "Capabilities not available"
    else
      '(r, enabled) ← cap_get_flag raised CAP_SETPCAP CAP_EFFECTIVE true;
      if negb (r =? 0) then pdie "Unable to check CAP_EFFECTIVE CAP_SETPCAP value"
      else if negb (bool_decide (enabled = Some CAP_SET)) then
        _ ← cap_set_flag raised CAP_EFFECTIVE 1 [CAP_SETPCAP] CAP_SET;
        mret raised
      else
        _ ← cap_free raised;
        mret 0.

Definition push_pcap (strict : bool) : M K (Z * Z) :=
  orig ← cap_get_proc;
  if orig =? 0 then pdie "Capabilities not available"
  else
    raised_for_setpcap ← will_need_setpcap strict;
    mret (orig, raised_for_setpcap).

Definition pop_pcap (orig raised_for_setpcap : Z) : M K unit :=
  _ ← cap_free raised_for_setpcap;
  _ ← cap_free orig;
  mret tt.

(** ** The sets *)

(** One cap_drop_bound(), with CAP_SETPCAP raised around it when needed. *)
Definition drop_one (orig raised_for_setpcap cap : Z) : M K Z :=
  (if negb (raised_for_setpcap =? 0) then
     r ← cap_set_proc raised_for_setpcap;
     if negb (r =? 0) then pdie "unable to raise CAP_SETPCAP for BSET changes" else mret tt
   else mret tt);;
  status ← cap_drop_bound cap;
  (if negb (raised_for_setpcap =? 0) then
     r ← cap_set_proc orig;
     if negb (r =? 0) then pdie "unable to lower CAP_SETPCAP post BSET change" else mret tt
   else mret tt);;
  mret status.

(** [printf("...[%s]", cap_to_name(j))] on a failure. *)
Definition die_named {A} (s : string) (j : Z) : M K A :=
  name_ptr ← cap_to_name j;
  name ← load_str name_ptr;
  print (s ++ " [" ++ name ++ "]");;
  _ ← cap_free name_ptr;
  exit 1.

(** [while (CAP_IS_SUPPORTED(j)) { ... j++; }] *)
Fixpoint for_supported (fuel : nat) (j : Z) (body : Z -> M K unit) : M K unit :=
  match fuel with
  | O => spin
  | S fuel =>
      r ← cap_get_bound j;
      if 0 <=? r then body j;; for_supported fuel (j + 1) body else mret tt
  end.

(** The loop over the names between the commas. *)
Fixpoint for_names (fuel : nat) (ptr : string) (body : string -> Z -> M K unit) : M K unit :=
  match fuel with
  | O => spin
  | S fuel =>
      match strtok (fun c => Ascii.eqb c ",") ptr with
      | None => mret tt
      | Some (ptr, rest) =>
          '(r, cap) ← cap_from_name gperf ptr true;
          match cap : option Z with
          | Some cap => body ptr cap;; for_names fuel rest body
          | None => die ("capability [" ++ ptr ++ "] is unknown to libcap")
          end
      end
  end.

Definition arg_drop (strict : bool) (arg_names : string) : M K unit :=
  '(orig, raised_for_setpcap) ← push_pcap strict;
  if String.eqb "all" arg_names then
    for_supported probe_fuel 0 (fun j =>
      status ← drop_one orig raised_for_setpcap j;
      if negb (status =? 0) then die_named "Unable to drop bounding capability" j else mret tt);;
    pop_pcap orig raised_for_setpcap
  else
    names ← strdup arg_names;
    match names with
    | None => die "failed to allocate names"
    | Some names =>
        for_names (S (String.length names)) names (fun ptr cap =>
          status ← drop_one orig raised_for_setpcap cap;
          if negb (status =? 0) then die ("failed to drop [" ++ ptr ++ "=" ++ fmt_uint 10 cap ++ "]") else mret tt);;
        pop_pcap orig raised_for_setpcap
    end.

Definition arg_change_amb (arg_names : string) (set : Z) : M K unit :=
  orig ← cap_get_proc;
  (if String.eqb "all" arg_names then
     for_supported probe_fuel 0 (fun j =>
       status ← cap_set_ambient j set;
       if negb (status =? 0) then die_named "Unable to change ambient capability" j else mret tt)
   else
     names ← strdup arg_names;
     match names with
     | None => die "failed to allocate names"
     | Some names =>
         for_names (S (String.length names)) names (fun ptr cap =>
           status ← cap_set_ambient cap set;
           if negb (status =? 0) then die ("failed to change ambient [" ++ ptr ++ "=" ++ fmt_uint 10 cap ++ "]") else mret tt)
     end);;
  _ ← cap_free orig;
  mret tt.

(** The text cap_from_text() gets for --inh; [size] bytes were allocated. *)
Definition inh_text (text arg : string) : string :=
  if negb (at_end arg) && negb (String.eqb "none" arg) then text ++ " " ++ arg ++ "+i" else text.

(** The set [all] becomes the process's, after a try to raise CAP_SETPCAP. *)
Definition install (all raised_for_setpcap : Z) (complaint : M K unit) : M K unit :=
  (if negb (raised_for_setpcap =? 0) then
     _ ← cap_set_proc raised_for_setpcap;
     _ ← cap_free raised_for_setpcap;
     mret tt
   else mret tt);;
  r ← cap_set_proc all;
  if negb (r =? 0) then complaint;; exit 1
  else
    _ ← cap_free all;
    mret tt.

Definition arg_inh (strict : bool) (arg : string) : M K unit :=
  '(all, raised_for_setpcap) ← push_pcap strict;
  r ← cap_clear_flag all CAP_INHERITABLE;
  if negb (r =? 0) then pdie "libcap:cap_clear_flag() internal error"
  else
    '(text, _) ← cap_to_text all false;
    _ ← cap_free all;
    if text =? 0 then pdie "Fatal error concerning process capabilities"
    else
      t ← load_str text;
      ok ← libc_alloc;
      if negb ok then set_errno ENOMEM;; pdie "Out of memory for inh set"
      else
        let ptr := inh_text t arg in
        assert_ub (strlen ptr + 1 <=? 10 + strlen arg + strlen t);;
        _ ← cap_free text;
        all ← cap_from_text gperf (Some ptr);
        if all =? 0 then pdie "Fatal error internalizing capabilities"
        else install all raised_for_setpcap (perror "Unable to set inheritable capabilities").

Definition arg_caps (strict : bool) (arg : string) : M K unit :=
  raised_for_setpcap ← will_need_setpcap strict;
  all ← cap_from_text gperf (Some arg);
  if all =? 0 then die ("unable to interpret [" ++ arg ++ "]")
  else install all raised_for_setpcap (print ("Unable to set capabilities [" ++ arg ++ "]")).

Definition arg_iab (arg : string) : M K unit :=
  iab ← cap_iab_from_text gperf (Some arg);
  if iab =? 0 then die ("iab: '" ++ arg ++ "' malformed")
  else
    r ← cap_iab_set_proc iab;
    if negb (r =? 0) then pdie "unable to set IAB tuple"
    else _ ← cap_free iab; mret tt.

(** ** Modes *)

(** [for (c = 1; ; c++)] over the names of the modes, up to the unknown one. *)
Fixpoint mode_names (fuel : nat) (c : Z) : list string :=
  match fuel with
  | O => []
  | S fuel => let m := cap_mode_name c in if String.eqb "UNKNOWN" m then [] else m :: mode_names fuel (c + 1)
  end.
Fixpoint find_mode (fuel : nat) (c : Z) (target : string) : option Z :=
  match fuel with
  | O => None
  | S fuel =>
      let m := cap_mode_name c in
      if String.eqb "UNKNOWN" m then None
      else if String.eqb m target then Some c else find_mode fuel (c + 1) target
  end.
(** More turns than there are modes. *)
Definition mode_fuel : nat := 8.

Definition arg_modes : M K unit :=
  print ("Supported modes:" ++ String.concat "" (map (fun m => " " ++ m) (mode_names mode_fuel 1))).

Definition arg_mode_set (target : string) : M K unit :=
  match find_mode mode_fuel 1 target with
  | None => die ("unsupported mode: " ++ target)
  | Some c =>
      ret ← cap_set_mode c;
      if negb (ret =? 0) then e ← get_errno; die ("failed to set mode [" ++ target ++ "]: " ++ strerror e) else mret tt
  end.

Definition arg_mode_show : M K unit := m ← cap_get_mode; print ("Mode: " ++ cap_mode_name m).

Definition arg_inmode (target : string) : M K unit :=
  c ← cap_get_mode;
  let m := cap_mode_name c in
  if negb (String.eqb m target) then die ("mismatched mode got=" ++ m ++ " want=" ++ target) else mret tt.

(** ** Identity and confinement *)

Definition arg_keep (arg : string) : M K unit :=
  value ← nonneg_uint arg "invalid --keep value";
  set ← prctl PR_SET_KEEPCAPS value 0 0 0 0;
  if set <? 0 then e ← get_errno; die ("prctl(PR_SET_KEEPCAPS, " ++ fmt_uint 10 value ++ ") failed: " ++ strerror e) else mret tt.

Definition arg_chroot (arg : string) : M K unit :=
  orig ← cap_get_proc;
  if orig =? 0 then pdie "Capabilities not available"
  else
    raised_for_chroot ← cap_dup orig;
    if raised_for_chroot =? 0 then pdie "Unable to duplicate capabilities"
    else
      r ← cap_set_flag raised_for_chroot CAP_EFFECTIVE 1 [CAP_SYS_CHROOT] CAP_SET;
      if negb (r =? 0) then pdie "unable to select CAP_SET_SYS_CHROOT"
      else
        r ← cap_set_proc raised_for_chroot;
        if negb (r =? 0) then pdie "unable to raise CAP_SYS_CHROOT"
        else
          _ ← cap_free raised_for_chroot;
          status ← libc_syscall (SYS_chroot arg);
          r ← cap_set_proc orig;
          if negb (r =? 0) then pdie "unable to lower CAP_SYS_CHROOT"
          else
            status ← (if status =? 0 then chdir "/" else mret status);
            _ ← cap_free orig;
            if negb (status =? 0) then die ("Unable to chroot/chdir to [" ++ arg ++ "]") else mret tt.

Definition arg_secbits (arg : string) : M K unit :=
  value ← nonneg_uint arg "invalid --secbits value";
  status ← cap_set_secbits value;
  if status <? 0 then die ("failed to set securebits to 0" ++ fmt_uint 8 value ++ "/0x" ++ fmt_uint 16 value) else mret tt.

(** --uid, --cap-uid and --gid *)
Definition arg_uid (arg : string) : M K unit :=
  value ← nonneg_uint arg "invalid --uid value";
  status ← libc_syscall (SYS_setuid value);
  if status <? 0 then e ← get_errno; die ("Failed to set uid=" ++ fmt_uint 10 value ++ ": " ++ strerror e) else mret tt.
Definition arg_cap_uid (arg : string) : M K unit :=
  value ← nonneg_uint arg "invalid --cap-uid value";
  status ← cap_setuid value;
  if status <? 0 then e ← get_errno; die ("Failed to cap_setuid(" ++ fmt_uint 10 value ++ "): " ++ strerror e) else mret tt.
Definition arg_gid (arg : string) : M K unit :=
  value ← nonneg_uint arg "invalid --gid value";
  status ← libc_syscall (SYS_setgid value);
  if status <? 0 then e ← get_errno; die ("Failed to set gid=" ++ fmt_uint 10 value ++ ": " ++ strerror e) else mret tt.

(** The loop of --groups: the numbers so far. *)
Fixpoint groups_arg_loop (fuel : nat) (max_groups : Z) (ptr : string) (group_list : list Z) : M K (list Z) :=
  match fuel with
  | O => spin
  | S fuel =>
      match strtok (fun c => Ascii.eqb c ",") ptr with
      | None => mret group_list
      | Some (ptr, rest) =>
          if max_groups <=? Z.of_nat (List.length group_list) then die "Too many groups specified"
          else
            gid ← (if negb (isdigit (head ptr)) then
                     g ← gets (fun w => getgrnam (kst w) ptr);
                     match g with
                     | None => die ("Failed to identify gid for group [" ++ ptr ++ "]")
                     | Some gid => mret gid
                     end
                   else nonneg_uint ptr "invalid --groups value");
            groups_arg_loop fuel max_groups rest (group_list ++ [gid])%list
      end
  end.

(** [safe_sysconf] *)
Definition safe_sysconf (ans : Z) : M K Z := if ans <=? 0 then die "sysconf returned a non-positive number" else mret ans.

Definition arg_groups (arg : string) : M K unit :=
  length ← safe_sysconf sc_getgr_size;
  ok ← libc_alloc;
  if negb ok then die "No memory for operation"
  else
    max_groups ← safe_sysconf sc_ngroups_max;
    ok ← libc_alloc;
    if negb ok then die "No memory for gid list"
    else
      group_list ← groups_arg_loop (S (String.length arg)) max_groups arg [];
      r ← libc_syscall (SYS_setgroups (Z.of_nat (List.length group_list)) group_list);
      if negb (r =? 0) then die "Failed to setgroups." else mret tt.

Definition setenv (name value : string) : M K Z := fun w =>
  let '(r, k) := sys_setenv (kst w) name value in libc_ret r (with_kst k w).

Definition arg_user (dont_set_env : bool) (user : string) : M K unit :=
  pwd ← gets (fun w => getpwnam (kst w) user);
  match pwd with
  | None => die ("User [" ++ user ++ "] not known")
  | Some pwd =>
      '(status, groups) ← gets (fun w => getgrouplist (kst w) user (pw_gid pwd) MAX_GROUPS);
      if status <? 1 then pdie "Unable to get group list for user"
      else
        status ← cap_setgroups (pw_gid pwd) (Z.of_nat (List.length groups)) groups;
        if negb (status =? 0) then pdie "Unable to set group list for user"
        else
          status ← cap_setuid (pw_uid pwd);
          if status <? 0 then e ← get_errno; die ("Failed to set uid=" ++ fmt_uint 10 (pw_uid pwd) ++ "(user=" ++ user ++ "): " ++ strerror e)
          else if dont_set_env then mret tt
          else
            r ← setenv "HOME" (pw_dir pwd);
            if negb (r =? 0) then pdie "unable to set HOME"
            else
              r ← setenv "USER" user;
              if negb (r =? 0) then pdie "unable to set USER" else mret tt
  end.

Definition arg_no_new_privs : M K unit :=
  r ← prctl PR_SET_NO_NEW_PRIVS 1 0 0 0 0;
  if negb (r =? 0) then pdie "unable to set no-new-privs" else mret tt.

(** ** Tests *)

Definition cap_named (name : string) (k : Z -> M K unit) : M K unit :=
  '(r, cap) ← cap_from_name gperf name true;
  match cap : option Z with
  | Some cap => k cap
  | None => die ("cap[" ++ name ++ "] not recognized by library")
  end.

Definition arg_dropped (name : string) : M K unit := cap_named name (fun cap =>
  r ← cap_get_bound cap;
  if 0 <? r then die ("cap[" ++ name ++ "] raised in bounding vector") else mret tt).
Definition arg_supports (name : string) : M K unit := cap_named name (fun cap =>
  r ← cap_get_bound cap;
  if negb (0 <=? r) then die ("cap[" ++ name ++ "] not supported by kernel") else mret tt).

(** --has-p and --has-i *)
Definition arg_has_flag (flag : Z) (name : string) : M K unit := cap_named name (fun cap =>
  orig ← cap_get_proc;
  if orig =? 0 then pdie "failed to get process capabilities"
  else
    '(r, enabled) ← cap_get_flag orig cap flag true;
    if negb (r =? 0) || bool_decide (enabled = Some 0) then die ("cap[" ++ name ++ "] not raised")
    else _ ← cap_free orig; mret tt).

Definition arg_has_a (name : string) : M K unit := cap_named name (fun cap =>
  r ← cap_get_ambient cap;
  if r =? 0 then die ("cap[" ++ name ++ "] not in ambient vector") else mret tt).
Definition arg_has_b (name : string) : M K unit := cap_named name (fun cap =>
  r ← cap_get_bound cap;
  if r =? 0 then die ("cap[" ++ name ++ "] not in bounding vector") else mret tt).

Definition arg_has_ambient : M K unit :=
  supported ← CAP_AMBIENT_SUPPORTED;
  if negb supported then pdie "ambient set not supported" else mret tt.
Definition arg_has_no_new_privs : M K unit :=
  r ← prctl PR_GET_NO_NEW_PRIVS 0 0 0 0 0;
  if negb (r =? 1) then die "no-new-privs not set" else mret tt.

(** --is-uid and --is-gid *)
Definition arg_is_uid (arg : string) : M K unit :=
  value ← nonneg_uint arg "invalid --is-uid value";
  uid ← gets (fun w => sys_getuid (kst w));
  if negb (uid =? value) then die ("uid: got=" ++ fmt_d uid ++ ", want=" ++ fmt_d value) else mret tt.
Definition arg_is_gid (arg : string) : M K unit :=
  value ← nonneg_uint arg "invalid --is-gid value";
  gid ← gets (fun w => sys_getgid (kst w));
  if negb (gid =? value) then die ("gid: got=" ++ fmt_d gid ++ ", want=" ++ fmt_d value) else mret tt.

(** ** Explanations *)

(** [printf("%s", ptr)] of a capability's name, or of its number without one. *)
Definition name_or_number (cap : Z) : M K string :=
  ptr ← cap_to_name cap;
  if ptr =? 0 then mret (fmt_uint 10 cap)
  else s ← load_str ptr; _ ← cap_free ptr; mret s.

(** The loop of --decode. *)
Fixpoint decode_loop (fuel : nat) (value cap : Z) (sep text : string) : M K string :=
  match fuel with
  | O => mret text
  | S fuel =>
      if negb ((cap <? 64) && negb (Z.shiftr value cap =? 0)) then mret text
      else if Z.testbit value cap then
        name ← name_or_number cap;
        decode_loop fuel value (cap + 1) "," (text ++ sep ++ name)
      else decode_loop fuel value (cap + 1) sep text
  end.
Definition arg_decode (arg : string) : M K unit :=
  value ← hex_ull arg "invalid --decode value";
  text ← decode_loop 65 value 0 "" ("0x" ++ fmt_0x 16 value ++ "=");
  print text.

Definition mask_text (cap : Z) : string := " [/proc/self/status:CapXXX: 0x" ++ fmt_0x 16 (u64 (Z.shiftl 1 cap)) ++ "]".

Definition describe (cap : Z) : M K unit :=
  match explanations !! Z.to_nat cap with
  | None => fault
  | Some lines =>
      name ← cap_to_name cap;
      s ← load_str name;
      cmb ← cap_max_bits;
      _ ← cap_free name;
      print ((if cap <? cmb then "" else "<reserved for> ") ++ s ++ " (" ++ fmt_d cap ++ ")" ++ mask_text cap);;
      print (String.concat (String LF "") lines)
  end.

Definition arg_explain (name : string) : M K unit :=
  '(r, cap) ← cap_from_name gperf name true;
  match cap : option Z with
  | None => die ("unrecognised value '" ++ name ++ "'")
  | Some cap =>
      if cap <? 0 then die ("negative capability (" ++ fmt_d cap ++ ") invalid")
      else if cap <? Z.of_nat capsh_doc_limit then describe cap
      else
        cmb ← cap_max_bits;
        print ((if cap <? cmb then "<unnamed in libcap>" else "<unsupported>") ++ " (" ++ fmt_d cap ++ ")" ++ mask_text cap)
  end.

(** The loop of --suggest. *)
Fixpoint suggest_loop (arg : string) (caps : list Z) (hits : Z) : M K unit :=
  match caps with
  | [] => mret tt
  | cap :: caps =>
      name ← cap_to_name cap;
      if name =? 0 then pdie "invalid named cap"
      else
        s ← load_str name;
        _ ← cap_free name;
        if strcasestr s arg || existsb (fun line => strcasestr line arg) (default [] (explanations !! Z.to_nat cap)) then
          (if negb (hits =? 0) then print (String LF "") else mret tt);;
          describe cap;;
          suggest_loop arg caps (hits + 1)
        else suggest_loop arg caps hits
  end.
Definition arg_suggest (arg : string) : M K unit := suggest_loop arg (seqZ 0 (Z.of_nat capsh_doc_limit)) 0.

(** ** Children *)

Definition arg_forkfor (child : Z) (arg : string) (usage : M K Z) : M K Z :=
  if negb (child =? 0) then die "already forked"
  else
    value ← nonneg_uint arg "invalid --forkfor value";
    if value =? 0 then print "require non-zero --forkfor value";; usage
    else
      (* the child sleeps, and exits: a process of its own *)
      r ← (fun w => let '(r, k, _) := sys_fork (kst w) in libc_ret r (with_kst k w));
      (if r <? 0 then perror "unable to fork()" else mret tt);;
      mret r.

Definition arg_killit (child : Z) (arg : string) : M K unit :=
  value ← nonneg_uint arg "invalid --killit signo value";
  if child =? 0 then die "no forked process to kill"
  else
    retval ← (fun w => let '(r, k) := sys_kill (kst w) child value in libc_ret r (with_kst k w));
    if negb (retval =? 0) then pdie "Unable to kill child process"
    else
      '(result, status) ← (fun w => let '(r, s, k) := sys_wait (kst w) child in (r ← libc_ret r; mret (r, s)) (with_kst k w));
      if negb (result =? child) then die "waitpid didn't match child"
      else if negb (WTERMSIG status =? value) then die "child terminated with odd signal"
      else mret tt.

(** [for (i = strlen(arg0)-1; i >= 0 && arg0[i] != '/'; i--);] finds a slash. *)
Fixpoint has_slash (s : string) : bool :=
  match s with EmptyString => false | String c s => Ascii.eqb c "/" || has_slash s end.

(** The search along the parts of PATH. *)
Fixpoint find_loop (fuel : nat) (k : K) (p arg0 : string) : option string :=
  match fuel with
  | O => None
  | S fuel =>
      match strtok (fun c => Ascii.eqb c ":") p with
      | None => None
      | Some (dir, p) =>
          let scratch := dir ++ "/" ++ arg0 in
          if sys_access k scratch then Some scratch else find_loop fuel k p arg0
      end
  end.

Definition find_self (arg0 : string) : M K (option string) :=
  if has_slash arg0 then strdup arg0
  else
    path ← gets (fun w => getenv_path (kst w));
    match path with
    | None => die "no PATH environment variable found for re-execing"
    | Some path =>
        parts ← strdup path;
        match parts with
        | None => die "insufficient memory for parts of path"
        | Some parts =>
            ok ← libc_alloc;
            if negb ok then die "insufficient memory for path building"
            else
              found ← gets (fun w => find_loop (S (String.length parts)) (kst w) parts arg0);
              match found with
              | None => die ("unable to find executable '" ++ arg0 ++ "' in PATH")
              | Some scratch => mret (Some scratch)
              end
        end
    end.

(** An argument vector ends at its first NULL. *)
Fixpoint until_null (argv : list (option string)) : list string :=
  match argv with Some a :: argv => a :: until_null argv | _ => [] end.

Definition do_launch (args : list (option string)) : M K unit :=
  lau ← cap_new_launcher (default None (args !! 0%nat)) (Some (until_null args)) (Some envp);
  if lau =? 0 then pdie "failed to create launcher"
  else
    '(child, _) ← cap_launch lau 0;
    if child <=? 0 then pdie "child failed to start"
    else
      _ ← cap_free lau;
      '(ret, result) ← (fun w => let '(r, s, k) := sys_wait (kst w) child in (r ← libc_ret r; mret (r, s)) (with_kst k w));
      if negb (ret =? child) then die "failed to wait for PID"
      else if WIFEXITED result then exit (WEXITSTATUS result)
      else if WIFSIGNALED result then die "child terminated by signo"
      else die "child generated result".

(** ** main() *)

Record capsh_state := mkCapsh {
  strict : bool;
  quiet_start : bool;
  dont_set_env : bool;
  shell : string;
  child : Z
}.

(** The label usage. [argv1] is the first argument. *)
Definition capsh_usage {A} (argv1 : string) : M K A :=
  print "usage: capsh [args ...]";;
  exit (if negb (String.eqb "--help" argv1) && negb (String.eqb "-h" argv1) then 1 else 0).

(** "--", "-+", "==" and "=+": the remaining arguments are another program's. *)
Definition chain_load (s : capsh_state) (argv0 arg : string) (rest : list string) : M K unit :=
  let launch := String.prefix "+" (tail arg) in
  argv ← (if String.prefix "=" arg then
            quiet ← (if quiet_start s then q ← strdup "--quiet"; mret [q] else mret []);
            self ← find_self argv0;
            mret (self :: quiet ++ map Some rest)%list
          else
            sh ← strdup (shell s);
            mret (sh :: map Some rest));
  (if launch then do_launch argv else mret tt);;
  match argv with
  | Some path :: _ =>
      execve path (Some (until_null argv)) (Some envp);;
      die ("execve '" ++ path ++ "' failed!")
  | _ => fault (* execve(NULL) fails, and printing NULL is undefined *)
  end.

Definition check_last_name : M K unit :=
  cmb ← cap_max_bits;
  temp_name ← cap_to_name (cmb - 1);
  if temp_name =? 0 then pdie "obtaining highest capability name"
  else
    s ← load_str temp_name;
    (if negb (Ascii.eqb (Text.head s) "c") then print "WARNING: libcap needs an update" else mret tt);;
    _ ← cap_free temp_name;
    mret tt.

Definition with_strict b (s : capsh_state) := mkCapsh b (quiet_start s) (dont_set_env s) (shell s) (child s).
Definition with_quiet (s : capsh_state) := mkCapsh (strict s) true (dont_set_env s) (shell s) (child s).
Definition with_noenv (s : capsh_state) := mkCapsh (strict s) (quiet_start s) true (shell s) (child s).
Definition with_shell sh (s : capsh_state) := mkCapsh (strict s) (quiet_start s) (dont_set_env s) sh (child s).
Definition with_child c (s : capsh_state) := mkCapsh (strict s) (quiet_start s) (dont_set_env s) (shell s) c.

(** [argv[i] + strlen(opt)] when the argument starts with [opt]. *)
Definition value_of (opt arg : string) : option string :=
  if String.prefix opt arg then Some (str_drop (String.length opt) arg) else None.

(** The options with a value, in the order of main(). *)
Definition value_options (s : capsh_state) : list (string * (string -> M K unit)) :=
  [("--drop=", arg_drop (strict s)); ("--dropped=", arg_dropped);
   ("--addamb=", fun v => arg_change_amb v CAP_SET); ("--delamb=", fun v => arg_change_amb v CAP_CLEAR);
   ("--inh=", arg_inh (strict s)); ("--caps=", arg_caps (strict s));
   ("--mode=", arg_mode_set); ("--inmode=", arg_inmode); ("--keep=", arg_keep); ("--chroot=", arg_chroot);
   ("--secbits=", arg_secbits); ("--uid=", arg_uid); ("--cap-uid=", arg_cap_uid); ("--gid=", arg_gid);
   ("--groups=", arg_groups); ("--user=", arg_user (dont_set_env s)); ("--decode=", arg_decode);
   ("--supports=", arg_supports); ("--has-p=", arg_has_flag CAP_PERMITTED); ("--has-i=", arg_has_flag CAP_INHERITABLE);
   ("--has-a=", arg_has_a); ("--has-b=", arg_has_b); ("--is-uid=", arg_is_uid); ("--is-gid=", arg_is_gid);
   ("--iab=", arg_iab); ("--explain=", arg_explain); ("--suggest=", arg_suggest)].

(** The options without one. *)
Definition plain_options : list (string * M K unit) :=
  [("--has-ambient", arg_has_ambient); ("--modes", arg_modes); ("--mode", arg_mode_show); ("--print", arg_print);
   ("--no-new-privs", arg_no_new_privs); ("--has-no-new-privs", arg_has_no_new_privs);
   ("--license", print "see License file for details.";; exit 0);
   ("--current", display_current;; display_current_iab)].

Fixpoint find_value (l : list (string * (string -> M K unit))) (arg : string) : option (M K unit) :=
  match l with
  | [] => None
  | (opt, f) :: l => match value_of opt arg with Some v => Some (f v) | None => find_value l arg end
  end.
Fixpoint find_plain (l : list (string * M K unit)) (arg : string) : option (M K unit) :=
  match l with
  | [] => None
  | (opt, f) :: l => if String.eqb opt arg then Some f else find_plain l arg
  end.

(** One argument; no two of the options begin alike, so that the order of the
    tests is of no account. *)
Definition capsh_arg (argv0 argv1 : string) (s : capsh_state) (arg : string) (rest : list string) : M K capsh_state :=
  if String.eqb "--noenv" arg then mret (with_noenv s)
  else if String.eqb "--strict" arg then mret (with_strict (negb (strict s)) s)
  else if String.prefix "--noamb" arg then
    r ← cap_reset_ambient;
    if negb (r =? 0) then pdie "failed to reset ambient set" else mret s
  else if String.eqb "--" arg || String.eqb "==" arg || String.eqb "-+" arg || String.eqb "=+" arg then
    chain_load s argv0 arg rest;; mret s
  else
    match value_of "--forkfor=" arg, value_of "--killit=" arg, value_of "--shell=" arg with
    | Some v, _, _ => c ← arg_forkfor (child s) v (capsh_usage argv1); mret (with_child c s)
    | _, Some v, _ => arg_killit (child s) v;; mret (with_child 0 s)
    | _, _, Some v => mret (with_shell v s)
    | _, _, _ =>
        match find_plain plain_options arg, find_value (value_options s) arg with
        | Some m, _ => m;; mret s
        | None, Some m => m;; mret s
        | None, None =>
            (if String.prefix "--mode" arg then print ("unrecognized command [" ++ arg ++ "]") else mret tt);;
            capsh_usage argv1
        end
    end.

(** The loop, from the argument with number [i] on, and the end of main(). *)
Fixpoint capsh_loop (argv0 argv1 : string) (i : nat) (s : capsh_state) (args : list string) : M K unit :=
  match args with
  | [] => exit 0
  | arg :: args =>
      if String.eqb "--quiet" arg then capsh_loop argv0 argv1 (S i) (with_quiet s) args
      else
        (if (i =? 1)%nat then check_last_name else mret tt);;
        s ← capsh_arg argv0 argv1 s arg args;
        capsh_loop argv0 argv1 (S i) s args
  end.

Definition capsh_main (argv0 : string) (args : list string) : M K unit :=
  capsh_loop argv0 (default "" (args !! 0%nat)) 1 (mkCapsh false false false SHELL 0) args.

End capsh.
