(* ===== verification/CapshSpec.v ===== *)
(** What capsh guarantees: the digits it shows are the number's, --drop= removes
    from the bounding set what it names and nothing else, and --inh= makes the
    inheritable set what it names. *)

From Stdlib Require Import ZArith Lia String Ascii.
From stdpp Require Import gmap list sets.
From S2P Require Import Prelude Capability World Exec Syscall Alloc Flag FlagSpec IabSpec Proc ProcSpec Text TextLex.
From S2P Require Import TextSpec TextParse TextPrint TextToText TextRound KernelLaws ModeSpec IabProcSpec IabText Launch CLib ProgSpec Capshdoc Capsh.

Open Scope string_scope.
Open Scope Z_scope.

#[local] Arguments String.append !_ _ / : simpl nomatch.

(** ** Numbers *)

Lemma strtoul_digits_snoc base s : forall acc n c, strtoul_digits base acc s = (n, "") -> digit_val c < base ->
  strtoul_digits base acc (s ++ String c "") = (n * base + digit_val c, "").
Proof.
  induction s as [|d s IH]; intros acc n c; cbn [strtoul_digits String.append].
  - intros [= <-] Hc. by apply Z.ltb_lt in Hc as ->.
  - destruct (digit_val d <? base); [|done]. apply IH.
Qed.

Lemma binary_loop_spec n v d : (n <> 0)%nat -> 0 <= v < 2 ^ Z.of_nat n ->
  exists s, binary_loop n v d = s ++ d /\ (1 <= String.length s <= n)%nat /\
    strtoul_digits 2 0 s = (v, "") /\ head s = (if v =? 0 then "0"%char else "1"%char).
Proof.
  revert v d. induction n as [|n IH]; intros v d Hn Hv; [done|]. cbn [binary_loop].
  set (c := if Z.land v 1 =? 0 then _ else _).
  assert (digit_val c = v mod 2 /\ (c = "0" \/ c = "1")%char) as [Hc Hcc].
  { subst c. assert (Z.land v 1 = v mod 2) as -> by by apply (Z.land_ones v 1).
    pose proof (Z.mod_pos_bound v 2 ltac:(lia)). destruct (Z.eqb_spec (v mod 2) 0).
    - split; [|by left]. change (digit_val "0") with 0. lia.
    - split; [|by right]. change (digit_val "1") with 1. lia. }
  rewrite Z.shiftr_div_pow2 by done. change (2 ^ 1) with 2. pose proof (Z.div_mod v 2 ltac:(lia)) as Hdm.
  pose proof (Z.mod_pos_bound v 2 ltac:(lia)) as Hmod.
  rewrite Nat2Z.inj_succ, Z.pow_succ_r in Hv by lia.
  destruct (Z.eqb_spec (v / 2) 0) as [H0|H0]; cbn [negb].
  - exists (String c ""). split; [done|]. split; [cbn; lia|]. cbn [strtoul_digits head].
    assert (v = v mod 2) as Hv2 by lia. rewrite <-Hv2 in Hc. split.
    + assert ((digit_val c <? 2) = true) as -> by (apply Z.ltb_lt; lia). f_equal. lia.
    + destruct Hcc as [->| ->]; cbn in Hc; by rewrite <-Hc.
  - destruct n as [|n]. { exfalso. cbn in Hv. apply H0. apply Z.div_small. lia. }
    destruct (IH (v / 2) (String c d) ltac:(lia)) as (s & E & Hl & Hs & Hh).
    { split; [apply Z.div_pos; lia|apply Z.div_lt_upper_bound; lia]. }
    exists (s ++ String c ""). split; [by rewrite E, str_app_assoc|]. rewrite str_length_app. cbn [String.length].
    split; [lia|]. split.
    + rewrite (strtoul_digits_snoc 2 s 0 (v / 2)) by (done || lia). f_equal. lia.
    + destruct s as [|c' s]; [cbn in Hl; lia|]. cbn [head String.append] in *. rewrite Hh.
      destruct (Z.eqb_spec v 0) as [->|]; [by exfalso; apply H0|]. by apply Z.eqb_neq in H0 as ->.
Qed.

(** C31 binary() writes any unsigned long into its buffer of 64 digits and a NUL
    without leaving it: at least one digit, no leading zero unless the value is
    0, and strtoul() in base 2 reads the value back. *)
Theorem binary_correct v :
  0 <= v <= ULONG_MAX ->
  (1 <= String.length (binary v) < BINARY_SIZE)%nat /\ c_strtoul 2 (binary v) = (v, "", false) /\
  (if v =? 0 then binary v = "0" else head (binary v) = "1"%char).
Proof.
  intros Hv. unfold ULONG_MAX in Hv.
  assert (if v =? 0 then binary v = "0" else True) as H0 by by destruct (Z.eqb_spec v 0) as [->|].
  revert H0. unfold binary, BINARY_SIZE.
  destruct (binary_loop_spec (65 - 1) v "" ltac:(done)) as (s & -> & Hl & Hs & Hh).
  { change (2 ^ Z.of_nat (65 - 1)) with 18446744073709551616. lia. }
  rewrite str_app_nil_r. intros H0. cbn in Hl. split; [lia|].
  destruct s as [|c s]; [cbn in Hl; lia|]. cbn [head] in Hh. split; [|by destruct (v =? 0)].
  assert (c = "0" \/ c = "1")%char as Hc by (destruct (v =? 0); auto).
  unfold c_strtoul, number.
  assert (skip_spaces (String c s) = String c s) as -> by by destruct Hc as [-> | ->].
  cbn [head]. assert (Ascii.eqb c "-" = false) as -> by by destruct Hc as [-> | ->].
  assert (Ascii.eqb c "+" = false) as -> by by destruct Hc as [-> | ->]. cbn [orb].
  change (2 =? 0) with false. change (2 =? 16) with false. cbn [orb head]. rewrite andb_false_r. cbn [head].
  assert ((digit_val c <? 2) = true) as -> by by destruct Hc as [-> | ->].
  rewrite Hs. unfold ULONG_MAX. by destruct (Z.ltb_spec 18446744073709551615 v); [lia|].
Qed.

(** ** Lists of names *)

(** prctl(2) refuses to drop from the bounding set without CAP_SETPCAP, and for a
    capability that does not exist. *)
Class BoundLaws (K : Type) `{!Kernel K, !KernelLaws K} := {
  law_bound_drop_refused : forall k c, 0 <= c < 256 -> (CAP_SETPCAP ∉ cr_eff (creds_of k) \/ last_cap < c) ->
    exists e k', sys_call k (SYS_prctl PR_CAPBSET_DROP c 0 0 0 0) = (- e, k') /\ 0 < e /\ creds_of k' = creds_of k
}.

(** The numbers up to the first that is missing or not [good], and whether there
    is none such. *)
Fixpoint plan (good : Z -> bool) (l : list (option Z)) : list Z * bool :=
  match l with
  | [] => ([], true)
  | Some c :: l => if good c then let '(done, ok) := plan good l in (c :: done, ok) else ([], false)
  | None :: _ => ([], false)
  end.

Definition comma (c : ascii) : bool := Ascii.eqb c ",".

Section names.
Variable gperf : option (string -> option Z).

(** What a name stands for. *)
Definition cap_of (cmb : Z) (s : string) : option Z := fst <$> lookupname gperf cmb s.

Lemma cap_of_valid cmb s c : gperf_ok gperf -> cap_of cmb s = Some c -> valid_cap c.
Proof.
  intros Hg. unfold cap_of. destruct (lookupname gperf cmb s) as [[n r]|] eqn:E; [|done]. intros [= <-].
  destruct (wordc (head s)) eqn:Hw; [by eapply lookupname_progress|]. revert E. unfold lookupname.
  assert (isdigit (head s) = false) as ->.
  { unfold wordc, isalnum in Hw. destruct (isdigit (head s)); [|done]. by rewrite orb_true_r in Hw. }
  unfold valid_cap. change CAP_MAXBITS with 64. destruct gperf as [f|].
  - destruct (span_name s) as [a r']. destruct (f a) as [n'|] eqn:E; [|done]. intros [= <- <-].
    apply Hg in E as [E _]. change CAP_BITS with 41 in E. lia.
  - enough (forall k, (k <= 41)%nat -> name_loop k s = Some (n, r) -> 0 <= n < 64) as H.
    { apply H. change CAP_BITS with 41. destruct (Z.ltb_spec 41 cmb); lia. }
    induction k as [|k IH]; [done|]. intros Hk. cbn [name_loop]. repeat case_match; try (apply IH; lia); intros [= <- _]; lia.
Qed.

End names.

Section capsh.
Context {K : Type} `{!Kernel K, !KernelLaws K, !BoundLaws K}.
Variable gperf : option (string -> option Z).
Variable strerror : Z -> string.
Implicit Types (w : world K) (k : K) (p : Z).

Lemma die_run {A} s w : die s w = (Halt (Exited 1) : outcome A, with_out (s :: out w) w).
Proof. done. Qed.

Lemma pdie_run {A} s w : exists o, pdie strerror s w = (Halt (Exited 1) : outcome A, with_out o w).
Proof. eexists. reflexivity. Qed.

(** A loop over names whose body handles one capability: [P l w] after those in
    [l], [Q l w] when the program has ended then. *)
Lemma for_names_run (body : string -> Z -> M K unit) good (P Q : list Z -> world K -> Prop) cmb :
  gperf_ok gperf ->
  (forall l w, P l w -> g_max_bits (glob w) = cmb /\ forall o, Q l (with_out o w)) ->
  (forall ptr c l w, valid_cap c -> P l w -> exists o w', body ptr c w = (o, w') /\
     match o with Ok _ => good c = true /\ P (l ++ [c])%list w' | Halt e => good c = false /\ e = Exited 1 /\ Q l w' | _ => False end) ->
  forall fuel s l w, no_nul s -> (String.length s < fuel)%nat -> P l w ->
  exists o w', for_names gperf fuel s body w = (o, w') /\
    let '(did, ok) := plan good (map (cap_of gperf cmb) (words comma s)) in
    match o with Ok _ => ok = true /\ P (l ++ did)%list w' | Halt e => ok = false /\ e = Exited 1 /\ Q (l ++ did)%list w' | _ => False end.
Proof.
  intros Hg HPQ Hbody. induction fuel as [|fuel IH]; intros s l w Hs Hf HP; [lia|]. cbn [for_names]. fold comma.
  pose proof (strtok_words comma s Hs) as Ht. destruct (strtok comma s) as [[t rest]|].
  2:{ rewrite Ht. cbn [map plan]. eexists (Ok tt), w. split; [done|]. by rewrite app_nil_r. }
  destruct Ht as (-> & Hr & _ & _ & Hl). cbn [map plan]. destruct (HPQ _ _ HP) as [Hcmb HQ].
  assert (exists r, cap_from_name gperf t true w = (Ok (r, cap_of gperf cmb t), w)) as [r E].
  { unfold cap_from_name, cap_of, cap_max_bits. run. rewrite Hcmb. destruct (lookupname gperf cmb t) as [[n x]|]; eexists; reflexivity. }
  rewrite (bind_ok _ _ _ _ _ E). destruct (cap_of gperf cmb t) as [c|] eqn:Ec.
  2:{ rewrite die_run. eexists _, _. split; [reflexivity|]. rewrite app_nil_r. split_and!; try done. }
  destruct (Hbody t c l w (cap_of_valid _ _ _ _ Hg Ec) HP) as (o & w1 & H1 & Ho).
  destruct o as [[]|e| |]; try done.
  - destruct Ho as [-> HP1]. rewrite (bind_ok _ _ _ _ _ H1).
    destruct (IH rest _ w1 Hr ltac:(lia) HP1) as (o & w2 & H2 & Ho2). eexists o, w2. split; [done|].
    destruct (plan _ _) as [did ok]. by rewrite <-app_assoc in Ho2.
  - destruct Ho as (-> & -> & HQ1). rewrite (bind_halt _ _ _ _ _ H1). eexists _, _. split; [reflexivity|].
    by rewrite app_nil_r.
Qed.

(** The same for all the capabilities of the kernel. *)
Lemma for_supported_run (body : Z -> M K unit) good (P Q : list Z -> world K -> Prop) :
  (forall l e w, P l w -> P l (with_errno e w)) ->
  (forall c l w, 0 <= c <= last_cap -> P l w -> exists o w', body c w = (o, w') /\
     match o with Ok _ => good c = true /\ P (l ++ [c])%list w' | Halt e => good c = false /\ e = Exited 1 /\ Q l w' | _ => False end) ->
  forall fuel j l w, 0 <= j <= last_cap + 1 -> last_cap + 1 - j < Z.of_nat fuel -> P l w ->
  exists o w', for_supported fuel j body w = (o, w') /\
    let '(did, ok) := plan good (map Some (seqZ j (last_cap + 1 - j))) in
    match o with Ok _ => ok = true /\ P (l ++ did)%list w' | Halt e => ok = false /\ e = Exited 1 /\ Q (l ++ did)%list w' | _ => False end.
Proof.
  intros HPe Hbody. induction fuel as [|fuel IH]; intros j l w Hj Hf HP; [lia|]. cbn [for_supported]. pose proof last_cap_63.
  destruct (bound_read_run j w ltac:(lia)) as (e & H1 & _). rewrite (bind_ok _ _ _ _ _ H1). apply (HPe _ e) in HP.
  destruct (Z.leb_spec j last_cap) as [Hle|Hgt].
  2:{ cbn [Z.leb Z.compare]. replace (last_cap + 1 - j) with 0 by lia. cbn [seqZ map plan]. change (seqZ j 0) with (@nil Z). cbn [map plan].
      eexists (Ok tt), _. split; [done|]. by rewrite app_nil_r. }
  assert ((0 <=? (if decide (j ∈ cr_bound (creds_of (kst w))) then 1 else 0)) = true) as -> by by case_decide.
  rewrite (seqZ_cons j) by lia. cbn [map plan].
  destruct (Hbody j l _ ltac:(lia) HP) as (o & w1 & H2 & Ho). destruct o as [[]|e'| |]; try done.
  - destruct Ho as [-> HP1]. rewrite (bind_ok _ _ _ _ _ H2).
    destruct (IH (j + 1) _ w1 ltac:(lia) ltac:(lia) HP1) as (o & w2 & H3 & Ho2). eexists o, w2. split; [done|].
    change (Z.succ j) with (j + 1). replace (Z.pred (last_cap + 1 - j)) with (last_cap + 1 - (j + 1)) by lia.
    destruct (plan _ _) as [did ok]. by rewrite <-app_assoc in Ho2.
  - destruct Ho as (-> & -> & HQ1). rewrite (bind_halt _ _ _ _ _ H2). eexists _, _. split; [reflexivity|].
    by rewrite app_nil_r.
Qed.

(** ** The bounding set *)

(** The set of a process with CAP_SETPCAP made effective. *)
Definition raised_cap (d : list capblk) : cap_struct := with_u (fun _ => raise_cap CAP_SETPCAP CAP_EFFECTIVE d) (proc_cap d).

(** [B]: the world in which push_pcap() has returned [p] and [q], the
    credentials being [cr0]. *)
Definition pushed d cr0 p q (B : world K) : Prop :=
  direct multithread B /\ words_of d cr0 /\ cr_eff cr0 ⊆ cr_perm cr0 /\ cr_amb cr0 ⊆ cr_perm cr0 ∩ cr_inh cr0 /\
  p <> 0 /\ heap B !! p = Some (OCap (proc_cap d)) /\ (q = 0 \/ heap B !! q = Some (OCap (raised_cap d))).

(** Dropping is allowed. *)
Definition can_drop q cr0 : bool :=
  if q =? 0 then bool_decide (CAP_SETPCAP ∈ cr_eff cr0) else bool_decide (CAP_SETPCAP ∈ cr_perm cr0).

Definition bounded cr0 X (B w : world K) : Prop := exists k, moved k B w /\ creds_of k = with_bound X cr0.

Lemma refused_drop_run c w : direct multithread w -> 0 <= c < 256 -> (CAP_SETPCAP ∉ cr_eff (creds_of (kst w)) \/ last_cap < c) ->
  exists e k', cap_drop_bound c w = (Ok (-1), with_errno e (with_kst k' w)) /\ creds_of k' = creds_of (kst w).
Proof.
  intros Hd Hc Hno. destruct (law_bound_drop_refused (kst w) c Hc Hno) as (e & k' & Hk & He & Hcr).
  unfold cap_drop_bound, cap_drop_bound_sc. rewrite libcap_wprctl3_6, pr_arg_id by done. change (pr_arg 0) with 0.
  rewrite (libcap_wprctl6_run _ _ _ _ _ _ _ _ (- e) k' (Hd) Hk). destruct (Z.ltb_spec (- e) 0); [|lia]. by eexists _, k'.
Qed.

Lemma drop_one_run d cr0 p q B X c w : pushed d cr0 p q B -> bounded cr0 X B w -> valid_cap c ->
  let good := can_drop q cr0 && (c <=? last_cap) in
  exists o w', drop_one strerror p q c w = (o, w') /\
    match o with
    | Ok r => (r =? 0) = good /\ bounded cr0 (if good then X ∖ {[c]} else X) B w'
    | Halt e => good = false /\ e = Exited 1 /\ creds_of (kst w') = with_bound X cr0
    | _ => False
    end.
Proof.
  intros (HdB & Hd & HEP & HA & Hp & Hpo & Hq) (k & Hmv & Hk) Hc. cbn zeta. unfold can_drop, drop_one, valid_cap in *. change CAP_MAXBITS with 64 in Hc.
  assert (direct multithread w) as Hdir by (unfold direct; by rewrite (moved_glob _ _ _ Hmv)). pose proof (moved_kst _ _ _ Hmv) as Hkw.
  destruct (Z.eqb_spec q 0) as [Hq0|Hq0]; cbn [negb].
  - rewrite (bind_ok _ _ _ _ _ (ret_run _ _)).
    case_bool_decide as HP; cbn [andb]; [destruct (Z.leb_spec c last_cap) as [Hle|Hgt]|].
    + assert (0 <= c <= last_cap) as Hcl by lia.
      destruct (drop_bound_run multithread c w Hdir Hcl) as (k' & H1 & Hk'); [by rewrite Hkw, Hk|].
      unfold cap_drop_bound. rewrite (bind_ok _ _ _ _ _ H1), (bind_ok _ _ _ _ _ (ret_run _ _)). eexists (Ok 0), _.
      split; [done|]. split; [done|]. exists k'. split; [by eapply moved_kernel|]. by rewrite Hk', Hkw, Hk.
    + destruct (refused_drop_run c w Hdir ltac:(lia) (or_intror Hgt)) as (e & k' & H1 & Hk').
      rewrite (bind_ok _ _ _ _ _ H1), (bind_ok _ _ _ _ _ (ret_run _ _)). eexists (Ok (-1)), _.
      split; [done|]. split; [done|]. exists k'. split; [by eapply moved_both|]. by rewrite Hk', Hkw, Hk.
    + destruct (refused_drop_run c w Hdir ltac:(lia)) as (e & k' & H1 & Hk'); [left; by rewrite Hkw, Hk|].
      rewrite (bind_ok _ _ _ _ _ H1), (bind_ok _ _ _ _ _ (ret_run _ _)). eexists (Ok (-1)), _.
      split; [done|]. split; [done|]. exists k'. split; [by eapply moved_both|]. by rewrite Hk', Hkw, Hk.
  - destruct Hq as [|Hqo]; [done|]. pose proof (moved_lookup _ _ _ _ _ Hmv Hqo) as Hqw. pose proof (moved_lookup _ _ _ _ _ Hmv Hpo) as Hpw.
    assert (words_of d (creds_of (kst w))) as Hdw by by rewrite Hkw, Hk.
    assert (u_wf d) as Hu by apply Hd.
    assert (valid_cap CAP_SETPCAP) as Hv by done. assert (u_wf (raise_cap CAP_SETPCAP CAP_EFFECTIVE d)) as Hur by auto with words.
    unfold cap_set_proc. case_bool_decide as HP; cbn [andb].
    2:{ pose proof (live_set_proc_refused multithread q _ w Hq0 Hqw eq_refl eq_refl eq_refl Hdir Hur) as H1.
        rewrite bind_bind, (bind_ok _ _ _ _ _ (H1 (words_of_raise_refused _ _ _ Hdw ltac:(by rewrite Hkw, Hk) Hv))).
        cbn [Z.eqb negb]. eexists (Halt (Exited 1)), _. split; [reflexivity|]. split; [done|]. split; [done|]. cbn. by rewrite Hkw. }
    destruct (words_of_raise CAP_SETPCAP d _ Hdw) as [Hok Haf]; [by rewrite Hkw, Hk|done|by rewrite Hkw, Hk|].
    destruct (live_set_proc_ok multithread q _ w Hq0 Hqw eq_refl eq_refl eq_refl Hdir Hok) as (k1 & H1 & Hk1).
    rewrite bind_bind, (bind_ok _ _ _ _ _ H1). cbn [Z.eqb negb]. rewrite (bind_ok _ _ _ _ _ (ret_run _ _)).
    cbn [c_u with_u raised_cap] in Hk1. rewrite Haf in Hk1 by by rewrite Hkw, Hk. rewrite Hkw, Hk in Hk1. cbn in Hk1.
    set (w1 := with_kst k1 w). assert (moved k1 B w1) as Hmv1 by by eapply moved_kernel.
    assert (exists r e k2, cap_drop_bound c w1 = (Ok r, with_errno e (with_kst k2 w1)) /\ (r =? 0) = (c <=? last_cap) /\
      creds_of k2 = with_bound (if c <=? last_cap then X ∖ {[c]} else X) (creds_of k1)) as (r & e & k2 & H2 & Hr & Hk2).
    { destruct (Z.leb_spec c last_cap) as [Hle|Hgt].
      - assert (0 <= c <= last_cap) as Hcl by lia.
        destruct (drop_bound_run multithread c w1 Hdir Hcl) as (k2 & H2 & Hk2); [cbn; rewrite Hk1; cbn; set_solver|].
        eexists 0, (errno w1), k2. split; [exact H2|]. split; [done|]. rewrite Hk2. subst w1. cbn. by rewrite Hk1.
      - destruct (refused_drop_run c w1 Hdir ltac:(lia) (or_intror Hgt)) as (e & k2 & H2 & Hk2). eexists _, e, k2.
        split; [exact H2|]. split; [done|]. cbn in Hk2. rewrite Hk2, Hk1. done. }
    rewrite (bind_ok _ _ _ _ _ H2). set (w2 := with_errno e (with_kst k2 w1)).
    assert (moved k2 B w2) as Hmv2 by by eapply moved_both.
    rewrite Hk1 in Hk2. cbn in Hk2. set (X' := if c <=? last_cap then X ∖ {[c]} else X) in *.
    destruct (words_of_restore d cr0 (creds_of (kst w2)) Hd) as [Hok2 Haf2]; [cbn; by rewrite Hk2..|done|].
    destruct (live_set_proc_ok multithread p _ w2 Hp (moved_lookup _ _ _ _ _ Hmv2 Hpo) eq_refl eq_refl eq_refl) as (k3 & H3 & Hk3);
      [exact Hdir|exact Hok2|].
    rewrite bind_bind, (bind_ok _ _ _ _ _ H3). cbn [Z.eqb negb]. rewrite (bind_ok _ _ _ _ _ (ret_run _ _)).
    eexists (Ok r), _. split; [reflexivity|]. split; [done|]. exists k3. split; [by eapply moved_kernel|].
    cbn [c_u proc_cap] in Hk3. rewrite Haf2 in Hk3 by (cbn; by rewrite Hk2). cbn in Hk3. by rewrite Hk3, Hk2.
Qed.

(** push_pcap() and pop_pcap(). *)
Definition may_drop (strict : bool) cr0 : bool := bool_decide (CAP_SETPCAP ∈ if strict then cr_eff cr0 else cr_perm cr0).

(** The heap that push_pcap() leaves: the process's set at [p], and at [q], unless
    that is NULL, the same with CAP_SETPCAP raised. *)
Definition pushed_heap d p q (h : gmap Z obj) : gmap Z obj :=
  if q =? 0 then <[p := OCap (proc_cap d)]> h else <[q := OCap (raised_cap d)]> (<[p := OCap (proc_cap d)]> h).

Lemma will_need_setpcap_run strict d w h w1 : world_wf w -> prog_world w1 -> capget_self (kst w) d -> words_of d (creds_of (kst w)) ->
  heaped h (kst w) w w1 ->
  exists q w2, will_need_setpcap strerror strict w1 = (Ok q, w2) /\
    heaped (if q =? 0 then h else <[q := OCap (raised_cap d)]> h) (kst w) w w2 /\ (q = 0 \/ h !! q = None) /\
    can_drop q (creds_of (kst w)) = may_drop strict (creds_of (kst w)).
Proof.
  intros Hwf Hw1 Hself [Hu Hcaps] Hh. unfold will_need_setpcap. destruct strict.
  { exists 0, w1. split; [done|]. split; [done|]. split; [by left|done]. }
  pose proof Hw1 as (Hwf1 & Hm1 & _). destruct (law_valid (kst w)) as (_ & _ & HEP & _).
  pose proof (moved_kst _ _ _ Hh) as Hk1. rewrite <-Hk1 in Hself.
  pose proof (wf_next_ne_0 _ Hwf1) as Hn1. apply Z.eqb_neq in Hn1 as Hn1b. destruct (heaped_fresh _ _ _ _ Hh) as [Hfr _].
  rewrite (bind_ok _ _ _ _ _ (cap_get_proc_run d w1 Hn1 ltac:(unfold mem_ok; by rewrite Hm1) (law_probe _) Hself)).
  rewrite Hn1b, holding_placed. set (w2 := placed (OCap (proc_cap d)) w1).
  assert (world_wf w2) as Hwf2 by by apply world_wf_placed.
  assert (heaped (<[next w1 := OCap (proc_cap d)]> h) (kst w) w w2) as Hh2 by by apply heaped_placed.
  destruct (cap_get_flag_correct (next w1) (proc_cap d) CAP_SETPCAP CAP_EFFECTIVE w2 Hwf2 (lookup_insert_eq _ _ _) eq_refl) as [H2 _].
  rewrite decide_True in H2 by done. rewrite (bind_ok _ _ _ _ _ H2). cbn [Z.eqb negb c_u proc_cap].
  pose proof (Hcaps CAP_EFFECTIVE ltac:(done)) as HE. unfold cr_set in HE. cbn in HE. rewrite HE.
  destruct (decide (CAP_SETPCAP ∈ cr_eff (creds_of (kst w)))) as [Hin|Hin].
  - rewrite bool_decide_true by done. cbn [negb].
    destruct (heaped_free (OCap (proc_cap d)) (next w1) _ _ w w2 (lookup_insert_eq _ _ _) eq_refl Hh2) as (w3 & H3 & Hh3).
    rewrite (bind_ok _ _ _ _ _ H3). exists 0, w3. split; [done|]. split; [by rewrite delete_insert_id in Hh3|]. split; [by left|].
    unfold can_drop, may_drop. cbn. rewrite !bool_decide_true; [done| |done]. by apply HEP.
  - rewrite bool_decide_false by done. cbn [negb].
    pose proof (holding_set_flag (proc_cap d) (errno w1) (kst w1) w1 CAP_EFFECTIVE CAP_SETPCAP Hn1 eq_refl Hu ltac:(done) ltac:(done)) as H3.
    rewrite holding_placed in H3. rewrite (bind_ok _ _ _ _ _ H3). exists (next w1), (holding (raised_cap d) (errno w1) (kst w1) w1).
    split; [done|]. rewrite Hn1b, holding_placed. split; [|split; [by right|unfold can_drop; by rewrite Hn1b]].
    apply heaped_placed; [exact (u_wf_raise CAP_SETPCAP CAP_EFFECTIVE d Hu)|done].
Qed.

Lemma push_pcap_run strict w : prog_world w ->
  exists d q w1, push_pcap strerror strict w = (Ok (next w, q), w1) /\ heaped (pushed_heap d (next w) q (heap w)) (kst w) w w1 /\
    words_of d (creds_of (kst w)) /\ q <> next w /\ (q = 0 \/ heap w !! q = None) /\
    can_drop q (creds_of (kst w)) = may_drop strict (creds_of (kst w)).
Proof.
  intros Hw. pose proof Hw as (Hwf & Hm & _).
  destruct (cap_get_proc_held w Hwf Hm) as (d & Hself & Hcaps & Hu & H1 & Hn). unfold push_pcap.
  rewrite (bind_ok _ _ _ _ _ H1). apply Z.eqb_neq in Hn as Hnb. rewrite Hnb. rewrite holding_placed.
  assert (heaped (<[next w := OCap (proc_cap d)]> (heap w)) (kst w) w (placed (OCap (proc_cap d)) w)) as Hh.
  { apply heaped_placed; [exact Hu|]. apply heaped_moved. by apply moved_refl. }
  destruct (will_need_setpcap_run strict d w _ _ Hwf (prog_world_placed (OCap (proc_cap d)) w Hu Hw) Hself ltac:(by split) Hh)
    as (q & w2 & H2 & Hh2 & Hq & Hcan).
  rewrite (bind_ok _ _ _ _ _ H2). exists d, q, w2. split; [done|]. unfold pushed_heap.
  assert (q <> next w /\ (q = 0 \/ heap w !! q = None)) as [Hqn Hq'].
  { destruct Hq as [->|Hq]; [by split; [|left]|]. apply lookup_insert_None in Hq as [Hq Hne]. split; [done|by right]. }
  split; [by destruct (q =? 0)|]. split; [done|]. split; [done|]. by split.
Qed.

Lemma pop_pcap_run d q k w w2 : world_wf w -> q <> next w -> (q = 0 \/ heap w !! q = None) ->
  heaped (pushed_heap d (next w) q (heap w)) k w w2 -> exists w3, pop_pcap (next w) q w2 = (Ok tt, w3) /\ moved k w w3.
Proof.
  intros Hwf Hne Hq Hh. unfold pop_pcap, pushed_heap in *. pose proof (wf_fresh _ Hwf) as Hfr.
  assert (exists w3, cap_free q w2 = (Ok 0, w3) /\ heaped (<[next w := OCap (proc_cap d)]> (heap w)) k w w3) as (w3 & H3 & Hh3).
  { destruct (Z.eqb_spec q 0) as [->|Hq0]; [by exists w2|]. destruct Hq as [|Hq]; [done|].
    destruct (heaped_free (OCap (raised_cap d)) q _ _ w w2 (lookup_insert_eq _ _ _) eq_refl Hh) as (w3 & H3 & Hh3).
    exists w3. split; [done|]. rewrite delete_insert_id in Hh3; [done|]. by rewrite lookup_insert_ne. }
  rewrite (bind_ok _ _ _ _ _ H3).
  destruct (heaped_free (OCap (proc_cap d)) (next w) _ _ w w3 (lookup_insert_eq _ _ _) eq_refl Hh3) as (w4 & H4 & Hh4).
  rewrite (bind_ok _ _ _ _ _ H4). exists w4. split; [done|]. rewrite delete_insert_id in Hh4 by done. by apply heaped_moved.
Qed.

Lemma pushed_heap_pushed d q w : prog_world w -> words_of d (creds_of (kst w)) -> q <> next w ->
  pushed d (creds_of (kst w)) (next w) q (with_heap (pushed_heap d (next w) q (heap w)) w).
Proof.
  intros (Hwf & _ & _ & Hdir) Hd Hqn. destruct (law_valid (kst w)) as (_ & _ & HEP & HA & _). unfold pushed_heap.
  split; [exact Hdir|]. split; [done|]. split; [done|]. split; [done|]. split; [by apply wf_next_ne_0|]. cbn [heap with_heap].
  destruct (Z.eqb_spec q 0) as [->|Hq0]; [split; [apply lookup_insert_eq|by left]|].
  rewrite lookup_insert_ne by done. split; [apply lookup_insert_eq|]. right. apply lookup_insert_eq.
Qed.

(** What an argument of --drop= asks for. *)
Definition asked_caps (cmb : Z) (arg : string) : list (option Z) :=
  if String.eqb "all" arg then map Some (seqZ 0 (last_cap + 1)) else map (cap_of gperf cmb) (words comma arg).

Lemma bounded_moved cr0 X B w w' : bounded cr0 X B w -> moved (kst w) w w' -> bounded cr0 X B w'.
Proof.
  intros (k & Hmv & Hk) Hmv'. exists k. split; [|done]. rewrite (moved_kst _ _ _ Hmv) in Hmv'. by eapply moved_trans.
Qed.

(** The message for a capability that could not be dropped. *)
Lemma die_named_run {A} s c w : world_wf w -> mem_plenty w -> valid_cap c ->
  exists w', die_named s c w = (Halt (Exited 1) : outcome A, w') /\ kst w' = kst w.
Proof.
  intros Hw Hm Hc. unfold die_named. rewrite (bind_ok _ _ _ _ _ (cap_to_name_run c w Hc Hw Hm)).
  rewrite (bind_ok _ _ _ _ _ (load_str_run (next w) (cap_token c) (placed (OStr (cap_token c)) w) (lookup_insert_eq _ _ _))).
  unfold print. rewrite (bind_ok _ _ _ _ _ (modify_run _ _)).
  rewrite (bind_ok _ _ _ _ _ (cap_free_copy (next w) (OStr (cap_token c)) (with_out _ (placed (OStr (cap_token c)) w))
    (wf_next_ne_0 _ Hw) (proj2 (wf_next _ Hw)) (lookup_insert_eq _ _ _) eq_refl)).
  eexists. split; [reflexivity|]. done.
Qed.

(** After the capabilities [l]: in hand, and at an exit. *)
Definition after_drops cr B (l : list Z) w : Prop := bounded cr (cr_bound cr ∖ list_to_set l) B w.
Definition left_after cr (l : list Z) (w : world K) : Prop := creds_of (kst w) = with_bound (cr_bound cr ∖ list_to_set l) cr.

Lemma after_drops_facts cr B l w : after_drops cr B l w -> left_after cr l w /\ world_wf w /\ mem_plenty w /\ glob w = glob B.
Proof.
  intros (k & Hmv & Hk). split; [unfold left_after; by rewrite (moved_kst _ _ _ Hmv)|]. rewrite (moved_glob _ _ _ Hmv).
  by destruct (moved_wf _ _ _ Hmv).
Qed.

(** The body of both loops. *)
Lemma drop_body_run d cr p q B (complain : M K unit) c l w : pushed d cr p q B -> valid_cap c -> after_drops cr B l w ->
  (forall w, world_wf w -> mem_plenty w -> exists w', complain w = (Halt (Exited 1), w') /\ kst w' = kst w) ->
  let good := can_drop q cr && (c <=? last_cap) in
  exists o w', (status ← drop_one strerror p q c; if negb (status =? 0) then complain else mret tt) w = (o, w') /\
    match o with Ok _ => good = true /\ after_drops cr B (l ++ [c])%list w'
    | Halt e => good = false /\ e = Exited 1 /\ left_after cr l w' | _ => False end.
Proof.
  intros Hpush Hc HP Hdie good. destruct (drop_one_run d cr p q B _ c w Hpush HP Hc) as (o & w1 & H1 & Ho). fold good in Ho.
  destruct o as [r|e| |]; try done.
  - destruct Ho as [Hr Hb]. rewrite (bind_ok _ _ _ _ _ H1), Hr. destruct good; cbn [negb].
    + exists (Ok tt), w1. split; [done|]. split; [done|]. unfold after_drops.
      replace (cr_bound cr ∖ list_to_set (l ++ [c])) with (cr_bound cr ∖ list_to_set l ∖ {[c]} : gset Z); [done|].
      rewrite list_to_set_app_L. cbn. set_solver.
    + destruct (after_drops_facts _ _ _ _ Hb) as (HQ & Hw1 & Hm1 & _). destruct (Hdie w1 Hw1 Hm1) as (w2 & -> & Hk).
      exists (Halt (Exited 1)), w2. split; [done|]. split; [done|]. split; [done|]. unfold left_after. by rewrite Hk.
  - rewrite (bind_halt _ _ _ _ _ H1). by exists (Halt e), w1.
Qed.

(** The two loops. *)
Lemma drop_all_run d cr p q B w : pushed d cr p q B -> after_drops cr B [] w ->
  exists o w', for_supported probe_fuel 0 (fun j => status ← drop_one strerror p q j;
      if negb (status =? 0) then die_named "Unable to drop bounding capability" j else mret tt) w = (o, w') /\
    let '(dropped, ok) := plan (fun c => can_drop q cr && (c <=? last_cap)) (map Some (seqZ 0 (last_cap + 1))) in
    match o with Ok _ => ok = true /\ after_drops cr B dropped w'
    | Halt e => ok = false /\ e = Exited 1 /\ left_after cr dropped w' | _ => False end.
Proof.
  intros Hpush HP. pose proof last_cap_63. replace (last_cap + 1) with (last_cap + 1 - 0) by lia.
  apply (for_supported_run _ _ (after_drops cr B) (left_after cr)) with (l := []); [| |lia|unfold probe_fuel; lia|done].
  - intros l e w1 (k & Hmv & Hk). exists k. split; [by apply moved_errno|done].
  - intros c l w1 Hc HP1. assert (valid_cap c) as Hv by (unfold valid_cap; change CAP_MAXBITS with 64; lia).
    apply drop_body_run with (1 := Hpush); [done..|]. intros w2 Hw2 Hm2. by apply die_named_run.
Qed.

Lemma drop_names_run d cr p q B arg w : gperf_ok gperf -> no_nul arg -> pushed d cr p q B -> after_drops cr B [] w ->
  exists o w', for_names gperf (S (String.length arg)) arg (fun ptr cap => status ← drop_one strerror p q cap;
      if negb (status =? 0) then die ("failed to drop [" ++ ptr ++ "=" ++ fmt_uint 10 cap ++ "]") else mret tt) w = (o, w') /\
    let '(dropped, ok) := plan (fun c => can_drop q cr && (c <=? last_cap)) (map (cap_of gperf (g_max_bits (glob B))) (words comma arg)) in
    match o with Ok _ => ok = true /\ after_drops cr B dropped w'
    | Halt e => ok = false /\ e = Exited 1 /\ left_after cr dropped w' | _ => False end.
Proof.
  intros Hg Harg Hpush HP.
  apply (for_names_run _ _ (after_drops cr B) (left_after cr)) with (l := []); [done| | |done|lia|done].
  - intros l w1 HP1. by destruct (after_drops_facts _ _ _ _ HP1) as (HQ & _ & _ & ->).
  - intros ptr c l w1 Hc HP1. apply drop_body_run with (1 := Hpush); [done..|]. intros w2 Hw2 Hm2. rewrite die_run. by eexists.
Qed.

(** C26 --drop= works through the capabilities its argument names - all of the
    kernel's for "all" - as long as they are known to libcap and to the kernel
    and the process has CAP_SETPCAP, effective with --strict and permitted
    otherwise. It removes exactly these from the bounding set; the permitted, the
    effective, the inheritable and the ambient set are afterwards as they were,
    and all that was allocated is released. If any of them could not be dropped,
    capsh exits with status 1. *)
Theorem arg_drop_correct strict arg w :
  gperf_ok gperf -> prog_world w -> no_nul arg ->
  let cr := creds_of (kst w) in
  let '(dropped, ok) := plan (fun c => may_drop strict cr && (c <=? last_cap)) (asked_caps (g_max_bits (glob w)) arg) in
  exists o w', arg_drop gperf strerror strict arg w = (o, w') /\
    creds_of (kst w') = with_bound (cr_bound cr ∖ list_to_set dropped) cr /\
    if ok then o = Ok tt /\ moved (kst w') w w' else o = Halt (Exited 1).
Proof.
  intros Hg Hw Harg. cbn zeta. set (cr := creds_of (kst w)).
  destruct (push_pcap_run strict w Hw) as (d & q & w1 & H1 & Hh1 & Hd & Hqn & Hq & Hcan). fold cr in Hd, Hcan.
  set (B := with_heap (pushed_heap d (next w) q (heap w)) w). change (moved (kst w) B w1) in Hh1.
  assert (pushed d cr (next w) q B) as Hpush by by apply pushed_heap_pushed.
  unfold arg_drop. rewrite (bind_ok _ _ _ _ _ H1). rewrite <-Hcan. change (g_max_bits (glob w)) with (g_max_bits (glob B)). unfold asked_caps.
  assert (after_drops cr B [] w1) as HP1.
  { exists (kst w). split; [done|]. fold cr. symmetry. apply with_bound_id. set_solver. }
  assert (forall (m : M K unit) did ok o w2, m w1 = (o, w2) -> match o with Ok _ => ok = true /\ after_drops cr B did w2
      | Halt e => ok = false /\ e = Exited 1 /\ left_after cr did w2 | _ => False end ->
    exists o w', (m;; pop_pcap (next w) q) w1 = (o, w') /\ creds_of (kst w') = with_bound (cr_bound cr ∖ list_to_set did) cr /\
      if ok : bool then o = Ok tt /\ moved (kst w') w w' else o = Halt (Exited 1)) as Hend.
  { intros m did ok o w2 H2 Ho. destruct o as [[]|e| |]; try done.
    - destruct Ho as (-> & k & Hmv & Hk). destruct (pop_pcap_run d q k w w2 (proj1 Hw) Hqn Hq Hmv) as (w3 & H3 & Hmv3). exists (Ok tt), w3.
      pose proof (moved_kst _ _ _ Hmv3) as ->. by rewrite (bind_ok _ _ _ _ _ H2).
    - destruct Ho as (-> & -> & HQ). exists (Halt (Exited 1)), w2. by rewrite (bind_halt _ _ _ _ _ H2). }
  destruct (String.eqb "all" arg) eqn:Eall.
  - destruct (drop_all_run d cr (next w) q B w1 Hpush HP1) as (o & w2 & H2 & Ho). destruct (plan _ _) as [did ok]. by eapply Hend.
  - assert (mem_plenty w1) as Hm1 by by destruct (moved_wf _ _ _ Hh1). rewrite (bind_ok _ _ _ _ _ (strdup_run arg w1 Hm1)).
    destruct (drop_names_run d cr (next w) q B arg w1 Hg Harg Hpush HP1) as (o & w2 & H2 & Ho). destruct (plan _ _) as [did ok]. by eapply Hend.
Qed.

(** ** The inheritable set *)

(** An argument of --inh= and the capabilities it names. *)
Inductive inh_arg (cmb : Z) : string -> gset Z -> Prop :=
| inh_empty : inh_arg cmb "" ∅
| inh_none : inh_arg cmb "none" ∅
| inh_list rs : rs <> [] -> Forall (ref_ok gperf cmb) rs -> show_refs rs <> "none" ->
    inh_arg cmb (show_refs rs) (foldl (ref_set cmb) ∅ rs).

Lemma show_refs_nonempty cmb rs : rs <> [] -> Forall (ref_ok gperf cmb) rs -> at_end (show_refs rs) = false.
Proof.
  intros Hne Hrs. destruct rs as [|r rs]; [done|]. apply Forall_cons in Hrs as [Hr _].
  assert (at_end (show_ref r) = false) as H1.
  { destruct r as [|s n]; [done|]. destruct Hr as (_ & Hw & _). cbn [show_ref]. destruct s as [|c s]; [done|].
    unfold at_end. cbn [head] in *. destruct (is_nul c) eqn:E; [|done]. unfold is_nul in E. apply Ascii.eqb_eq in E as ->. done. }
  destruct rs as [|r' rs]; [done|]. cbn [show_refs]. destruct (show_ref r) as [|c s]; [done|]. done.
Qed.

(** The clause that --inh= adds. *)
Definition inh_clauses (rs : list capref) : list clause_t := match rs with [] => [] | _ => [Clause rs OpAdd [Li] []] end.

Lemma inh_arg_text cmb u arg S : inh_arg cmb arg S -> exists rs,
  inh_text (text_of u cmb) arg = show_clauses (with_gaps (text_clauses u cmb ++ inh_clauses rs)) /\
  Forall (ref_ok gperf cmb) rs /\ S = foldl (ref_set cmb) ∅ rs.
Proof.
  unfold text_of. intros [| |rs Hne Hrs Hnone].
  - exists []. by rewrite app_nil_r.
  - exists []. by rewrite app_nil_r.
  - exists rs. split; [|done]. unfold inh_text. rewrite (show_refs_nonempty cmb) by done.
    destruct (String.eqb_spec "none" (show_refs rs)) as [E|_]; [by rewrite <-E in Hnone|]. cbn [negb andb].
    destruct (text_clauses u cmb) as [|c cs] eqn:Ec.
    { pose proof (text_of_pos u cmb) as Hp. unfold text_of in Hp. rewrite Ec in Hp. done. }
    cbn [app]. rewrite !show_with_gaps, spaced_app. destruct rs as [|r rs]; [done|].
    unfold inh_clauses, spaced at 3. cbn [foldr]. unfold show_clause at 3. cbn [cl_refs cl_op cl_letters cl_more show_mores foldr show_op show_letters letter_char].
    rewrite !str_app_assoc. done.
Qed.

Lemma inh_clauses_ok cmb rs : Forall (ref_ok gperf cmb) rs -> Forall (clause_ok gperf cmb) (inh_clauses rs).
Proof. intros Hrs. destruct rs as [|r rs]; [constructor|]. apply Forall_singleton. split; [done|]. intros [|]; done. Qed.

Lemma inh_clauses_state cmb rs x g s : valid_set s ->
  Z.testbit (foldl (fun g c => clause_state cmb c x g) g (inh_clauses rs)) s =
    Z.testbit g s || ((s =? CAP_INHERITABLE) && bool_decide (x ∈ foldl (ref_set cmb) ∅ rs)).
Proof.
  intros Hs. destruct rs as [|r rs]; cbn [inh_clauses foldl].
  - rewrite bool_decide_false by set_solver. by rewrite andb_false_r, orb_false_r.
  - unfold clause_state, clause_set. cbn [cl_refs cl_op cl_letters cl_more foldl]. case_decide as Hx.
    + rewrite bool_decide_true by done. rewrite andb_true_r. cbn [op_state]. rewrite Z.lor_spec. f_equal.
      by destruct (valid_set_cases s Hs) as [->|[->| ->]].
    + rewrite bool_decide_false by done. by rewrite andb_false_r, orb_false_r.
Qed.

(** What the text means: the list, in place of the inheritable set. *)
Lemma inh_text_parse cmb d arg S : gperf_ok gperf -> 1 <= cmb <= CAP_MAXBITS -> u_wf d ->
  (forall x s, valid_set s -> x ∈ caps_of d s -> x < cmb) -> inh_arg cmb arg S ->
  exists u', parse_text gperf cmb 2 (inh_text (text_of (fill_words CAP_INHERITABLE (fun _ => 0) d) cmb) arg) [blk0; blk0] = PGood u' /\ u_wf u' /\
    forall s, valid_set s -> caps_of u' s = if s =? CAP_INHERITABLE then S else caps_of d s.
Proof.
  intros Hg Hcmb Hu Hb Harg. set (u := fill_words CAP_INHERITABLE (fun _ => 0) d).
  destruct (inh_arg_text cmb u arg S Harg) as (rs & -> & Hrs & HS).
  assert (u_wf u) as Hwu by by apply u_wf_clear.
  assert (forall s, valid_set s -> caps_of u s = if s =? CAP_INHERITABLE then ∅ else caps_of d s) as Hcu.
  { intros s Hs. unfold u. rewrite caps_of_fill_empty by done. by rewrite Z.eqb_sym. }
  assert (nameable gperf u cmb) as Hnam.
  { intros _ n Hn. change CAP_BITS with 41 in Hn. assert (valid_cap n) as Hv by (unfold valid_cap; change CAP_MAXBITS with 64; lia).
    apply state_ext; [apply getstateflags_range|done|]. intros s Hs. rewrite getstateflags_testbit, Z.testbit_0_l by done.
    apply not_true_iff_false. intros Hc. assert (n ∈ caps_of u s) as Hin by by apply elem_of_caps_of.
    rewrite Hcu in Hin by done. destruct (s =? _); [set_solver|]. specialize (Hb n s Hs Hin). lia. }
  set (cs := (text_clauses u cmb ++ inh_clauses rs)%list).
  assert (Forall (clause_ok gperf cmb) cs) as Hcs by (apply Forall_app; split; [by apply text_clauses_ok|by apply inh_clauses_ok]).
  assert (Forall (fun cg => clause_ok gperf cmb cg.1) (with_gaps cs)) as Hcg.
  { rewrite <-(with_gaps_fst cs) in Hcs. by rewrite Forall_fmap in Hcs. }
  exists (clauses_u cmb (with_gaps cs) [blk0; blk0]).
  split; [apply (parse_text_run gperf cmb Hcmb ""); [split; [done|]; split; [apply gaps_ok_with_gaps|done]|apply u_wf_blank]|].
  split; [by apply (clauses_u_spec gperf cmb Hcmb _ [blk0; blk0] 0 Hcg u_wf_blank)|].
  intros s Hs. apply set_eq. intros x. destruct (decide (valid_cap x)) as [Hx|Hx].
  - rewrite elem_of_caps_of, <-getstateflags_testbit by done.
    destruct (clauses_u_spec gperf cmb Hcmb _ [blk0; blk0] x Hcg u_wf_blank Hx) as [_ ->].
    rewrite blank_state, clauses_state_fst, with_gaps_fst by done. unfold cs. rewrite foldl_app, inh_clauses_state by done.
    rewrite text_clauses_state, getstateflags_testbit by done. rewrite <-HS.
    assert (has_cap u x s = bool_decide (x ∈ caps_of u s)) as ->.
    { apply eq_true_iff_eq. rewrite bool_decide_eq_true, elem_of_caps_of. tauto. }
    rewrite Hcu by done. destruct (s =? CAP_INHERITABLE); cbn [andb]; rewrite orb_true_iff, !bool_decide_eq_true; set_solver.
  - split; [by intros [? _]%elem_of_caps_of|]. destruct (s =? CAP_INHERITABLE); [|by intros [? _]%elem_of_caps_of].
    intros Hin. exfalso. apply Hx. rewrite HS in Hin. destruct (ref_words_spec gperf cmb Hcmb rs [0; 0] Hrs words_wf_0) as [_ E].
    rewrite vec_caps_zero in E. rewrite <-E in Hin. by apply elem_of_vec_caps in Hin as [? _].
Qed.

(** What a process that has CAP_SETPCAP, or can have it, may make its set. *)
Definition inh_allowed (can : bool) cr (S : gset Z) : Prop :=
  S ⊆ cr_inh cr ∪ cr_bound cr /\ (can = true \/ S ⊆ cr_inh cr ∪ cr_perm cr).
Definition inh_creds cr (S : gset Z) : creds :=
  mkCreds (cr_eff cr) (cr_perm cr) S (cr_bound cr) (cr_amb cr ∩ S) (cr_secbits cr).

(** The credentials after the try to raise CAP_SETPCAP. *)
Definition raised_creds q cr : creds :=
  if negb (q =? 0) && bool_decide (CAP_SETPCAP ∈ cr_perm cr)
  then mkCreds (cr_eff cr ∪ {[CAP_SETPCAP]}) (cr_perm cr) (cr_inh cr) (cr_bound cr) (cr_amb cr) (cr_secbits cr) else cr.

Lemma inh_allowed_spec q cr d u S : words_of d cr -> cr_eff cr ⊆ cr_perm cr -> cr_amb cr ⊆ cr_perm cr ∩ cr_inh cr -> u_wf u ->
  (forall s, valid_set s -> caps_of u s = if s =? CAP_INHERITABLE then S else caps_of d s) ->
  (inh_allowed (can_drop q cr) cr S <-> capset_allowed (raised_creds q cr) u) /\
  after_capset (raised_creds q cr) u = inh_creds cr S.
Proof.
  intros [Hu Hd] HEP HA Huw Hc. pose proof (Hc CAP_EFFECTIVE ltac:(done)) as HE. pose proof (Hc CAP_PERMITTED ltac:(done)) as HP.
  pose proof (Hc CAP_INHERITABLE ltac:(done)) as HI. cbn in HE, HP, HI. rewrite Hd in HE, HP by done. unfold cr_set in HE, HP. cbn in HE, HP.
  unfold inh_allowed, capset_allowed, after_capset, inh_creds. rewrite HE, HP, HI. clear HE HP HI Hc Hd.
  assert (cr_perm (raised_creds q cr) = cr_perm cr /\ cr_inh (raised_creds q cr) = cr_inh cr /\ cr_bound (raised_creds q cr) = cr_bound cr /\
    cr_amb (raised_creds q cr) = cr_amb cr /\ cr_secbits (raised_creds q cr) = cr_secbits cr) as (-> & -> & -> & -> & ->)
    by (unfold raised_creds; by destruct (_ && _)).
  assert (CAP_SETPCAP ∈ cr_eff (raised_creds q cr) <-> can_drop q cr = true) as ->.
  { unfold raised_creds, can_drop. destruct (q =? 0); cbn [negb andb]; [by rewrite bool_decide_eq_true|].
    case_bool_decide as Hp; cbn [cr_eff]; [set_solver|]. split; [|done]. intros H. exfalso. by apply Hp, HEP. }
  split; [|f_equal; set_solver]. split; [intros [? ?]; by split_and!|by intros (_ & _ & _ & ? & ?)].
Qed.

(** install(): the set at [p] becomes the process's. *)
Lemma install_run d u p q h k w w1 complaint : heaped h k w w1 -> direct multithread w -> words_of d (creds_of k) -> u_wf u ->
  h !! p = Some (OCap (set_of u)) -> (q = 0 \/ q <> p /\ h !! q = Some (OCap (raised_cap d))) -> (forall w, exists w', complaint w = (Ok tt, w')) ->
  (capset_allowed (raised_creds q (creds_of k)) u -> exists w2 k', install p q complaint w1 = (Ok tt, w2) /\
     heaped (delete p (if q =? 0 then h else delete q h)) k' w w2 /\ creds_of k' = after_capset (raised_creds q (creds_of k)) u) /\
  (~ capset_allowed (raised_creds q (creds_of k)) u -> exists w2, install p q complaint w1 = (Halt (Exited 1), w2)).
Proof.
  intros Hh Hdir Hd Hu Hp Hq Hcomp. destruct (law_valid k) as (_ & _ & HEP & HA & _).
  assert (exists w2 k2, (if negb (q =? 0) then _ ← cap_set_proc q; _ ← cap_free q; mret tt else mret tt) w1 = (Ok tt, w2) /\
    heaped (if q =? 0 then h else delete q h) k2 w w2 /\ creds_of k2 = raised_creds q (creds_of k)) as (w2 & k2 & H2 & Hh2 & Hk2).
  { destruct (Z.eqb_spec q 0) as [->|Hq0]; cbn [negb]; [by exists w1, k|]. destruct Hq as [|[Hne Hq]]; [done|].
    assert (direct multithread w1) as Hdir1 by (unfold direct; by rewrite (heaped_glob _ _ _ _ Hh)).
    pose proof (moved_kst _ _ _ Hh) as Hk1. pose proof (heaped_lookup _ _ _ _ _ _ Hh Hq) as Hq1.
    assert (valid_cap CAP_SETPCAP) as Hv by done. assert (u_wf (raise_cap CAP_SETPCAP CAP_EFFECTIVE d)) as Hur by apply u_wf_raise, Hd.
    assert (exists r e k1, cap_set_proc q w1 = (Ok r, with_errno e (with_kst k1 w1)) /\ creds_of k1 = raised_creds q (creds_of k)) as (r & e & k1 & H1 & Hk).
    { apply Z.eqb_neq in Hq0 as Hqb. unfold raised_creds. rewrite Hqb. cbn [negb andb]. case_bool_decide as HP.
      - destruct (words_of_raise CAP_SETPCAP d _ Hd HP Hv HEP) as [Hok Haf].
        destruct (live_set_proc_ok multithread q _ w1 Hq0 Hq1 eq_refl eq_refl eq_refl Hdir1) as (k1 & H1 & Hk); [by rewrite Hk1|].
        exists 0, (errno w1), k1. split; [exact H1|]. rewrite Hk, Hk1. by apply Haf.
      - exists (-1), EPERM, (kst w1). split; [|by rewrite Hk1].
        apply (live_set_proc_refused multithread q _ w1 Hq0 Hq1 eq_refl eq_refl eq_refl Hdir1 Hur). rewrite Hk1. by apply words_of_raise_refused. }
    rewrite (bind_ok _ _ _ _ _ H1).
    destruct (heaped_free (OCap (raised_cap d)) q h k1 w (with_errno e (with_kst k1 w1)) Hq eq_refl) as (w2 & H2 & Hh2); [by eapply moved_both|].
    rewrite (bind_ok _ _ _ _ _ H2). by exists w2, k1. }
  unfold install. rewrite (bind_ok _ _ _ _ _ H2). set (h2 := if q =? 0 then h else delete q h) in *.
  assert (h2 !! p = Some (OCap (set_of u))) as Hp2.
  { unfold h2. destruct (Z.eqb_spec q 0); [done|]. destruct Hq as [|[Hne _]]; [done|]. by rewrite lookup_delete_ne. }
  assert (direct multithread w2) as Hdir2 by (unfold direct; by rewrite (heaped_glob _ _ _ _ Hh2)).
  pose proof (moved_kst _ _ _ Hh2) as Hkw. pose proof (heaped_ne_0 _ _ _ _ _ _ Hh2 Hp2) as Hp0. pose proof (heaped_lookup _ _ _ _ _ _ Hh2 Hp2) as Hpw.
  rewrite <-Hk2. split; intros Hok.
  - destruct (live_set_proc_ok multithread p _ w2 Hp0 Hpw eq_refl eq_refl eq_refl Hdir2) as (k3 & H3 & Hk3); [by rewrite Hkw|].
    rewrite (bind_ok _ _ _ _ _ H3). cbn [Z.eqb negb].
    destruct (heaped_free (OCap (set_of u)) p h2 k3 w (with_kst k3 w2) Hp2 eq_refl) as (w4 & H4 & Hh4); [by eapply moved_kernel|].
    rewrite (bind_ok _ _ _ _ _ H4). exists w4, k3. split; [done|]. split; [done|]. by rewrite Hk3, Hkw.
  - pose proof (live_set_proc_refused multithread p _ w2 Hp0 Hpw eq_refl eq_refl eq_refl Hdir2 Hu) as H3. rewrite Hkw in H3.
    rewrite (bind_ok _ _ _ _ _ (H3 Hok)). cbn [Z.eqb negb]. destruct (Hcomp (with_errno EPERM w2)) as (w4 & H4).
    rewrite (bind_ok _ _ _ _ _ H4). by eexists.
Qed.

(** Sets of the process hold capabilities of the kernel. *)
Lemma words_of_bounded d k w x s : words_of d (creds_of k) -> counted w -> valid_set s -> x ∈ caps_of d s -> x < g_max_bits (glob w).
Proof.
  intros [_ Hd] Hc Hs Hx. rewrite Hd in Hx by done. destruct (law_valid k) as (Hv & _). apply (Hv s) in Hx.
  rewrite elem_of_list_to_set, elem_of_seqZ in Hx. rewrite Hc. lia.
Qed.

Lemma inh_text_fits t arg : (strlen (inh_text t arg) + 1 <=? 10 + strlen arg + strlen t) = true.
Proof.
  unfold inh_text. pose proof (strlen_pos arg). destruct (_ && _).
  - rewrite !strlen_app. change (strlen " ") with 1. change (strlen "+i") with 2. lia.
  - lia.
Qed.

(** From the process's set at [p] to the new one, at [p']. *)
Lemma inh_set_run d q arg S w w1 : gperf_ok gperf -> prog_world w -> words_of d (creds_of (kst w)) -> q <> next w ->
  (q = 0 \/ heap w !! q = None) -> heaped (pushed_heap d (next w) q (heap w)) (kst w) w w1 -> inh_arg (g_max_bits (glob w)) arg S ->
  let h := if q =? 0 then heap w else <[q := OCap (raised_cap d)]> (heap w) in
  exists u' p' w2, u_wf u' /\ (forall s, valid_set s -> caps_of u' s = if s =? CAP_INHERITABLE then S else caps_of d s) /\
    h !! p' = None /\ p' <> 0 /\ heaped (<[p' := OCap (set_of u')]> h) (kst w) w w2 /\
    forall f : Z -> M K unit, (r ← cap_clear_flag (next w) CAP_INHERITABLE;
      if negb (r =? 0) then pdie strerror "libcap:cap_clear_flag() internal error"
      else
        '(text, _) ← cap_to_text (next w) false;
        _ ← cap_free (next w);
        if text =? 0 then pdie strerror "Fatal error concerning process capabilities"
        else
          t ← load_str text;
          ok ← libc_alloc;
          if negb ok then set_errno ENOMEM;; pdie strerror "Out of memory for inh set"
          else
            assert_ub (strlen (inh_text t arg) + 1 <=? 10 + strlen arg + strlen t);;
            _ ← cap_free text;
            all ← cap_from_text gperf (Some (inh_text t arg));
            f all) w1 = f p' w2.
Proof.
  intros Hg Hw Hd Hqn Hq Hh Harg h. pose proof Hw as (Hwf & _ & Hcnt & _). pose proof Hd as [Hu _].
  assert (1 <= g_max_bits (glob w) <= CAP_MAXBITS) as Hcmb.
  { rewrite Hcnt. pose proof last_cap_63. change CAP_MAXBITS with 64. lia. }
  destruct (pushed_heap_pushed d q w Hw Hd Hqn) as (_ & _ & _ & _ & Hp0 & Hp & _). cbn [heap with_heap] in Hp.
  set (p := next w) in *. set (h1 := pushed_heap d p q (heap w)) in *.
  set (u := fill_words CAP_INHERITABLE (fun _ => 0) d).
  assert (u_wf u) as Hwu by by apply u_wf_clear. set (c1 := with_u (fun _ => u) (proc_cap d)).
  set (w2 := with_heap (<[p := OCap c1]> (heap w1)) w1).
  assert (cap_clear_flag p CAP_INHERITABLE w1 = (Ok 0, w2)) as H1.
  { apply (cap_clear_flag_run p (proc_cap d)); [done|by eapply heaped_lookup|done|done]. }
  pose proof (heaped_update _ (OCap c1) p h1 _ w w1 Hwu Hp Hh) as Hh2. fold w2 in Hh2. destruct (heaped_wf _ _ _ _ Hh2) as [Hwf2 Hm2].
  destruct (cap_to_text_run p c1 false w2 Hwf2 Hm2) as (w3 & Hlat & H3); [by eapply heaped_lookup, lookup_insert_eq|by rewrite (heaped_glob _ _ _ _ Hh2)|].
  rewrite (heaped_glob _ _ _ _ Hh2) in H3. change (c_u c1) with u in H3. set (t := text_of u (g_max_bits (glob w))) in *.
  assert (heaped (<[p := OCap c1]> h1) (kst w) w w3) as Hh3.
  { pose proof (moved_later _ _ Hlat) as Hmv. rewrite (moved_kst _ _ _ Hh2) in Hmv. by eapply heaped_then. }
  destruct (heaped_fresh _ _ _ _ Hh3) as [Hfr Hn3]. apply lookup_insert_None in Hfr as [Hfr Hne3].
  assert (heap w !! next w3 = None /\ next w3 <> q) as [Hfrw Hq3].
  { clear -Hfr Hq Hn3. unfold h1, pushed_heap in Hfr. destruct (Z.eqb_spec q 0) as [->|].
    - by apply lookup_insert_None in Hfr as [? ?].
    - apply lookup_insert_None in Hfr as [Hfr ?]. by apply lookup_insert_None in Hfr as [? ?]. }
  pose proof (heaped_placed (OStr t) _ _ _ _ I Hh3) as Hh4.
  set (h4 := <[next w3 := OStr t]> (<[p := OCap c1]> h1)) in *.
  assert (h4 !! p = Some (OCap c1)) as Hp4 by (unfold h4; rewrite lookup_insert_ne by done; apply lookup_insert_eq).
  destruct (heaped_free (OCap c1) p h4 _ _ _ Hp4 eq_refl Hh4) as (w5 & H5 & Hh5).
  destruct (heaped_wf _ _ _ _ Hh5) as [Hwf5 Hm5].
  assert (delete p h4 !! next w3 = Some (OStr t)) as Ht by (rewrite lookup_delete_ne by done; apply lookup_insert_eq).
  destruct (heaped_free (OStr t) (next w3) _ _ _ w5 Ht eq_refl Hh5) as (w6 & H6 & Hh6). apply (heaped_lookup _ _ _ _ _ _ Hh5) in Ht.
  assert (delete (next w3) (delete p h4) = h) as Eh.
  { pose proof (wf_fresh _ Hwf) as Hfp. fold p in Hfp. clear -Hfp Hfrw Hq3 Hqn Hne3. unfold h4, h1, h, pushed_heap. destruct (q =? 0); heap_eq. }
  rewrite Eh in Hh6.
  destruct (inh_text_parse (g_max_bits (glob w)) d arg S Hg Hcmb Hu
    (fun x s Hs Hx => words_of_bounded d (kst w) w x s Hd Hcnt Hs Hx) Harg) as (u' & Hpt & Hu' & Hc).
  fold u in Hpt. fold t in Hpt. rewrite <-(heaped_glob _ _ _ _ Hh6) in Hpt.
  pose proof (prog_world_heaped _ _ _ _ Hh6 Hw) as Hw6.
  pose proof (cap_from_text_run gperf _ w6 u' (prog_text_world w6 Hw6) Hpt) as H7.
  destruct (heaped_fresh _ _ _ _ Hh6) as [Hfr6 Hn6].
  exists u', (next w6), (placed (OCap (set_of u')) w6). split; [done|]. split; [done|]. split; [done|]. split; [done|].
  split; [by apply heaped_placed|]. intros f.
  rewrite (bind_ok _ _ _ _ _ H1). cbn [Z.eqb negb]. rewrite (bind_ok _ _ _ _ _ H3), (bind_ok _ _ _ _ _ H5).
  apply Z.eqb_neq in Hn3 as ->. rewrite (bind_ok _ _ _ _ _ (load_str_run _ _ _ Ht)), (bind_ok _ _ _ _ _ (libc_alloc_plenty _ Hm5)). cbn [negb].
  rewrite (bind_ok _ _ _ _ _ (assert_ub_run _ w5 (inh_text_fits t arg))), (bind_ok _ _ _ _ _ H6), (bind_ok _ _ _ _ _ H7). done.
Qed.


End capsh.
