(* ===== verification/Su.v ===== *)
(** contrib/sucap/su.c: a su(1) without set-user-ID root, which works from the
    capabilities of its file, asks libpam at every step and starts the shell of
    another user through a launcher. One definition per function, the labels that
    end main() as definitions of their own. Texts of messages are abbreviated. *)

From stdpp Require Import gmap list.
From Stdlib Require Import ZArith Lia String Ascii.
From S2P Require Import Prelude Capability World Syscall Alloc Flag Proc Text Launch CLib.

Open Scope string_scope.
Open Scope Z_scope.

(** ** The program's surroundings *)

Definition TEMP_UID : Z := 1.
Definition PAM_APP_NAME : string := "su".
Definition DEFAULT_HOME : string := "/".
Definition DEFAULT_SHELL : string := "/bin/bash".
Definition SLEEP_TO_KILL_CHILDREN : Z := 3.
Definition SU_FAIL_DELAY : Z := 2000000.
Definition RHOST_UNKNOWN_NAME : string := "".
Definition DEVICE_FILE_PREFIX : string := "/dev/".
Definition WTMP_LOCK_TIMEOUT : Z := 3.
Definition posix_env : list string := ["LANG"; "LC_COLLATE"; "LC_CTYPE"; "LC_MONETARY"; "LC_NUMERIC"; "TZ"].

(** <security/_pam_types.h>; libpam answers every request with such a number. *)
Definition PAM_SUCCESS : Z := 0.
Definition PAM_SYSTEM_ERR : Z := 4.
Definition PAM_PERM_DENIED : Z := 6.
Definition PAM_USER_UNKNOWN : Z := 10.
Definition PAM_CRED_ERR : Z := 17.
Definition PAM_ABORT : Z := 26.
Definition PAM_ESTABLISH_CRED : Z := 0x2.
Definition PAM_DELETE_CRED : Z := 0x4.
Definition PAM_DATA_SILENT : Z := 0x40000000.

Inductive pam_item := PAM_USER | PAM_TTY | PAM_RUSER | PAM_RHOST.

Inductive pam_req :=
| Pam_start (user : string)
| Pam_paste_env (environ : list string)
| Pam_setenv (name value : string)
| Pam_set_item (item : pam_item) (value : string)
| Pam_fail_delay (usec : Z)
| Pam_authenticate
| Pam_acct_mgmt
| Pam_setcred (flags : Z)
| Pam_open_session
| Pam_close_session
| Pam_end (status : Z).

(** <signal.h>, <errno.h>, <fcntl.h> *)
Definition SIGHUP : Z := 1.
Definition SIGINT : Z := 2.
Definition SIGQUIT : Z := 3.
Definition SIGKILL : Z := 9.
Definition SIGPIPE : Z := 13.
Definition SIGALRM : Z := 14.
Definition SIGTERM : Z := 15.
Definition SIGCONT : Z := 18.
Definition SIGTSTP : Z := 20.
Definition SIGTTIN : Z := 21.
Definition SIGTTOU : Z := 22.
Definition EINTR : Z := 4.
Definition F_WRLCK : Z := 1.
Definition F_UNLCK : Z := 2.

(** What a signal does; [Saved] is what it did when su started. *)
Inductive disposition := SIG_DFL | SIG_IGN | Catch_sig | Saved.

(** <utmp.h>; a character array is the string in it. *)
Definition UT_LINESIZE : nat := 32.
Definition UT_IDSIZE : nat := 4.
Definition UT_NAMESIZE : nat := 32.
Definition UT_HOSTSIZE : nat := 256.
Definition INIT_PROCESS : Z := 5.
Definition LOGIN_PROCESS : Z := 6.
Definition USER_PROCESS : Z := 7.
Definition DEAD_PROCESS : Z := 8.
Record utmp := mkUtmp {
  ut_type : Z; ut_pid : Z; ut_line : string; ut_id : string; ut_user : string; ut_host : string; ut_addr : Z; ut_time : Z
}.
Definition utmp0 : utmp := mkUtmp 0 0 "" "" "" "" 0 0.

(** What su asks of the system beside libpam and libcap: a negative errno, or the
    result. *)
Inductive su_req :=
| Open_null
| Dup2 (fd newfd : Z)
| Close (fd : Z)
| Tcgetattr
| Tcsetattr
| Fchown (uid : Z)
| Sigaction (signo : Z) (act : disposition)
| Block_all
| Unblock (signos : list Z)
| Initgroups (user : string) (gid : Z)
| Setgid (gid : Z)
| Kill (pid signo : Z)
| Sleep (seconds : Z)
| Pututline (u : utmp)
| Open_wtmp
| Alarm (seconds : Z)
| Setlk (fd l_type : Z)
| Write_wtmp (fd : Z) (u : utmp).

(** The rest of what it looks at. [utmp_entries] are those getutent() gives from the
    start of the file on, [su_fstat] gives the result and the owner, and
    [su_waitpid] the result, what it leaves in the status, and whether a SIGTERM or
    SIGHUP came and was caught before it returned. *)
Class SuSystem (K : Type) := {
  pam_call : K -> pam_req -> Z * K;
  pam_get_item : K -> pam_item -> Z * option string;
  pam_getenv : K -> string -> option string;
  pam_getenvlist : K -> option (list string);
  su_request : K -> su_req -> Z * K;
  getenv : K -> string -> option string;
  stdin_isatty : K -> bool;
  stdin_ttyname : K -> option string;
  getlogin : K -> option string;
  su_fstat : K -> Z -> Z * Z;
  su_getuid : K -> Z;
  su_getpid : K -> Z;
  su_waitpid : K -> Z -> Z * Z * bool * K;
  utmp_entries : K -> list utmp;
  gethostbyname : K -> string -> option Z;
  time_now : K -> Z
}.

(** ** The program's variables

    Those of the file, and of main() those its functions assign; [log] is a history
    variable: the requests to libpam and their answers, the identity that was
    assumed and the launch, the first one first. *)

Inductive su_event :=
| Asked (r : pam_req) (ret : Z)
| Became (uid : Z)
| Launched (path : string) (argv : list string) (child : Z).

Record su_vars := mkVars {
  pamh : bool;                        (* whether it is not NULL *)
  is_terminal : bool;
  terminal_uid : Z;
  invoked_uid : Z;
  wait_for_child_caught : bool;
  need_job_control : bool;
  login_stored_utmp : option utmp;
  retval : option Z;                  (* of main(); none before it is assigned *)
  place_of : option string;           (* place *)
  err_descr : option string;
  log : list su_event
}.
Definition UID_NONE : Z := 4294967295.
Definition vars0 : su_vars := mkVars false false UID_NONE UID_NONE false false None None None None [].

Definition with_pamh x v := mkVars x (is_terminal v) (terminal_uid v) (invoked_uid v) (wait_for_child_caught v) (need_job_control v) (login_stored_utmp v) (retval v) (place_of v) (err_descr v) (log v).
Definition with_is_terminal x v := mkVars (pamh v) x (terminal_uid v) (invoked_uid v) (wait_for_child_caught v) (need_job_control v) (login_stored_utmp v) (retval v) (place_of v) (err_descr v) (log v).
Definition with_terminal_uid x v := mkVars (pamh v) (is_terminal v) x (invoked_uid v) (wait_for_child_caught v) (need_job_control v) (login_stored_utmp v) (retval v) (place_of v) (err_descr v) (log v).
Definition with_invoked_uid x v := mkVars (pamh v) (is_terminal v) (terminal_uid v) x (wait_for_child_caught v) (need_job_control v) (login_stored_utmp v) (retval v) (place_of v) (err_descr v) (log v).
Definition with_caught x v := mkVars (pamh v) (is_terminal v) (terminal_uid v) (invoked_uid v) x (need_job_control v) (login_stored_utmp v) (retval v) (place_of v) (err_descr v) (log v).
Definition with_job_control x v := mkVars (pamh v) (is_terminal v) (terminal_uid v) (invoked_uid v) (wait_for_child_caught v) x (login_stored_utmp v) (retval v) (place_of v) (err_descr v) (log v).
Definition with_stored x v := mkVars (pamh v) (is_terminal v) (terminal_uid v) (invoked_uid v) (wait_for_child_caught v) (need_job_control v) x (retval v) (place_of v) (err_descr v) (log v).
Definition with_retval x v := mkVars (pamh v) (is_terminal v) (terminal_uid v) (invoked_uid v) (wait_for_child_caught v) (need_job_control v) (login_stored_utmp v) (Some x) (place_of v) (err_descr v) (log v).
Definition with_place x v := mkVars (pamh v) (is_terminal v) (terminal_uid v) (invoked_uid v) (wait_for_child_caught v) (need_job_control v) (login_stored_utmp v) (retval v) (Some x) (err_descr v) (log v).
Definition with_descr x v := mkVars (pamh v) (is_terminal v) (terminal_uid v) (invoked_uid v) (wait_for_child_caught v) (need_job_control v) (login_stored_utmp v) (retval v) (place_of v) x (log v).
Definition with_event e v := mkVars (pamh v) (is_terminal v) (terminal_uid v) (invoked_uid v) (wait_for_child_caught v) (need_job_control v) (login_stored_utmp v) (retval v) (place_of v) (err_descr v) (log v ++ [e])%list.

(** *** Strings *)

(** [strncpy] to an array of [n] characters. *)
Definition strncpy (n : nat) (s : string) : string := String.substring 0 n s.
(** [strrchr(s, c)], and [strchr(s, c) != NULL]. *)
Fixpoint strrchr (c : ascii) (s : string) : option string :=
  match s with
  | EmptyString => None
  | String d s' =>
      match strrchr c s' with
      | Some r => Some r
      | None => if Ascii.eqb c d then Some s else None
      end
  end.
Definition blank (c : ascii) : bool := Ascii.eqb c " " || Ascii.eqb c "009".

(** [set_terminal_name]: the line and the id. *)
Definition set_terminal_name (terminal : string) : string * string :=
  if Ascii.eqb (head terminal) "/" then
    let o1 := if String.prefix DEVICE_FILE_PREFIX terminal then 5%nat else 0%nat in
    let o2 := if String.prefix "/dev/tty" terminal then 8%nat else (String.length terminal - 4)%nat in
    (strncpy UT_LINESIZE (str_drop o1 terminal), strncpy UT_IDSIZE (str_drop o2 terminal))
  else
    match strrchr ":" terminal with
    | Some suffix => (strncpy UT_LINESIZE terminal, strncpy UT_IDSIZE suffix)
    | None => (strncpy UT_LINESIZE terminal, String "?" (strncpy (UT_IDSIZE - 1) terminal))
    end.

(** *** The command line *)

Inductive parsed_line :=
| Parsed (is_login : bool) (user command : option string)
| Usage (exit_val : Z).

(** The loop of parse_command_line(). *)
Fixpoint parse_loop (argv : list string) (is_login : bool) (user command : option string) : parsed_line :=
  match argv with
  | [] => Parsed is_login user command
  | token :: argv =>
      if Ascii.eqb (head token) "-" then
        let token := tail token in
        if at_end token then if is_login then Usage 1 else parse_loop argv true user command
        else if Ascii.eqb (head token) "c" then
          match command with
          | Some _ => Usage 1
          | None =>
              if negb (at_end (tail token)) then parse_loop argv is_login user (Some (tail token))
              else
                match argv with
                | arg :: argv => parse_loop argv is_login user (Some arg)
                | [] => Usage 1
                end
          end
        else if Ascii.eqb (head token) "h" then Usage 0
        else Usage 1
      else
        match user with
        | Some _ => Usage 1
        | None => parse_loop argv is_login (Some token) command
        end
  end.

(** *** The shell's arguments *)

(** The counting loop of build_shell_args(): [tmpb] and [arg_no]. *)
Fixpoint count_args (fuel : nat) (tmp : string) (tmpb : option string) (arg_no : nat) : option string * nat :=
  match fuel with
  | O => (tmpb, arg_no)
  | S fuel =>
      if at_end tmp then (tmpb, arg_no)
      else
        let tmp := skip_spaces tmp in
        let tmpb := match tmpb with None => Some tmp | Some b => Some b end in
        if at_end tmp then (tmpb, arg_no)
        else count_args fuel (snd (span (fun c => negb (isspace c)) tmp)) tmpb (S arg_no)
  end.

(** A NULL-terminated array: its strings, if there is the NULL. *)
Fixpoint c_array (args : list (option string)) : option (list string) :=
  match args with
  | [] => None
  | None :: _ => Some []
  | Some s :: args => match c_array args with Some l => Some (s :: l) | None => None end
  end.

(** ** The program *)

Section su.
Context {K : Type} `{!Kernel K, !Process K, !Accounts K, !SuSystem K}.
Variable strerror : Z -> string.
Variable environ : list string.
(** The address of launch_callback_fn(), that of main()'s [retval], and the handle
    pam_start() gives. *)
Variable launch_callback retval_p handle : Z.
(** Turns of the loops around waitpid(2). *)
Variable turns : nat.
Implicit Types (v : su_vars) (all : Z).

Definition perror (s : string) : M K unit := e ← get_errno; print (s ++ ": " ++ strerror e).
(** The two messages of an error in the variables. *)
Definition report v : M K unit := print (PAM_APP_NAME ++ ": " ++ default "(null)" (place_of v) ++ ": " ++ default "(null)" (err_descr v)).

Definition ask (r : su_req) : M K Z := fun w =>
  let '(n, k) := su_request (kst w) r in libc_ret n (with_kst k w).
Definition fstat (fd : Z) : M K (Z * Z) := fun w =>
  let '(n, uid) := su_fstat (kst w) fd in (n ← libc_ret n; mret (n, uid)) w.
(** A request to libpam. *)
Definition pam (r : pam_req) v : M K (Z * su_vars) := fun w =>
  let '(ret, k) := pam_call (kst w) r in (Ok (ret, with_event (Asked r ret) v), with_kst k w).
Definition get_item (item : pam_item) : M K (Z * option string) := gets (fun w => pam_get_item (kst w) item).

(** [*place = place; *err_descr = strerror(errno)] *)
Definition failed_at (place : string) v : M K su_vars :=
  e ← get_errno; mret (with_descr (Some (strerror e)) (with_place place v)).

(** *** The environment *)

Fixpoint transcribe (names : list string) v : M K (Z * su_vars) :=
  match names with
  | [] => mret (PAM_SUCCESS, v)
  | name :: names =>
      tmpe ← gets (fun w => getenv (kst w) name);
      match tmpe with
      | None => transcribe names v
      | Some tmpe =>
          '(ret, v) ← pam (Pam_setenv name tmpe) v;
          if ret =? PAM_SUCCESS then transcribe names v else mret (ret, v)
      end
  end.

Definition make_environment (keep_env : bool) v : M K (Z * su_vars) :=
  if keep_env then pam (Pam_paste_env environ) v
  else
    tmpe ← gets (fun w => getenv (kst w) "TERM");
    '(ret, v) ← pam (Pam_setenv "TERM" (default "dumb" tmpe)) v;
    '(ret, v) ← (if ret =? PAM_SUCCESS then pam (Pam_setenv "PATH" "/bin:/usr/bin") v else mret (ret, v));
    if negb (ret =? PAM_SUCCESS) then mret (ret, v) else transcribe posix_env v.

(** *** Descriptors and the terminal *)

(** One descriptor of checkfds(); false for badfds. *)
Definition check_fd (n : Z) : M K bool :=
  '(r, _) ← fstat n;
  if r =? -1 then
    fd ← ask Open_null;
    if fd =? -1 then mret false
    else if fd =? n then mret true
    else
      r ← ask (Dup2 fd n);
      if r =? -1 then mret false
      else
        r ← ask (Close fd);
        mret (negb (r =? -1))
  else mret true.

Definition checkfds : M K unit :=
  ok ← check_fd 1;
  ok ← (if ok : bool then check_fd 2 else mret false);
  if ok : bool then mret tt else perror "bad filedes";; exit 1.

Definition store_terminal_modes v : M K su_vars :=
  tty ← gets (fun w => stdin_isatty (kst w));
  if tty : bool then
    r ← ask Tcgetattr;
    if negb (r =? 0) then print "su: couldn't copy terminal mode";; exit 1
    else mret (with_is_terminal true v)
  else print "su: must be run from a terminal";; exit 1.

Definition restore_terminal_modes v : M K Z :=
  r ← (if is_terminal v then ask Tcsetattr else mret 0);
  if negb (r =? 0) then perror "su: cannot restore terminal mode";; mret 1 else mret 0.

(** The results of these are not looked at. *)
Fixpoint sigactions (signos : list Z) (act : disposition) : M K unit :=
  match signos with
  | [] => mret tt
  | signo :: signos => _ ← ask (Sigaction signo act); sigactions signos act
  end.
Definition disable_terminal_signals : M K unit := sigactions [SIGINT; SIGQUIT; SIGTSTP; SIGPIPE] SIG_IGN.
Definition enable_terminal_signals : M K unit := sigactions [SIGINT; SIGQUIT; SIGTSTP; SIGPIPE] Saved.

Definition change_terminal_owner (uid : Z) (is_login : bool) v : M K (Z * su_vars) :=
  if is_terminal v && is_login then
    '(r, st_uid) ← fstat 0;
    if negb (r =? 0) then v ← failed_at "fstat to STDIN" v; mret (-1, v)
    else
      current ← cap_get_proc;
      working ← cap_dup current;
      _ ← cap_set_flag working CAP_EFFECTIVE 1 [CAP_CHOWN] CAP_SET;
      status ← cap_set_proc working;
      _ ← cap_free working;
      '(status, v) ←
        (if negb (status =? 0) then mret (status, with_place "capset CHOWN" v)
         else
           status ← ask (Fchown uid);
           if negb (status =? 0) then mret (status, with_place "fchown of STDIN" v)
           else _ ← cap_set_proc current; mret (status, v));
      _ ← cap_free current;
      if negb (status =? 0) then e ← get_errno; mret (1, with_descr (Some (strerror e)) v)
      else mret (0, with_terminal_uid st_uid v)
  else mret (0, v).

Definition restore_terminal_owner v : M K su_vars :=
  if negb (terminal_uid v =? UID_NONE) then
    current ← cap_get_proc;
    working ← cap_dup current;
    _ ← cap_set_flag working CAP_EFFECTIVE 1 [CAP_CHOWN] CAP_SET;
    status ← cap_set_proc working;
    _ ← cap_free working;
    status ← (if status =? 0 then
                status ← ask (Fchown (terminal_uid v));
                _ ← cap_set_proc current;
                mret status
              else mret status);
    _ ← cap_free current;
    (if negb (status =? 0) then perror "Terminal owner hasn't been restored" else mret tt);;
    mret (with_terminal_uid UID_NONE v)
  else mret v.

(** *** The process's user *)

Definition make_process_unkillable v : M K (Z * su_vars) :=
  uid ← gets (fun w => su_getuid (kst w));
  let v := with_invoked_uid uid v in
  if uid =? TEMP_UID then mret (0, v)
  else
    r ← cap_setuid TEMP_UID;
    if negb (r =? 0) then v ← failed_at "setuid" v; mret (-1, v) else mret (0, v).

Definition make_process_killable v : M K unit := _ ← cap_setuid (invoked_uid v); mret tt.

(** *** The command line *)

Definition usage {A} (exit_val : Z) : M K A :=
  print "usage: su [-] [-h] [-c command] [username]";; exit exit_val.

(** Whether it is a login, the user, and the command. *)
Definition parse_command_line (argv : list string) : M K (bool * string * option string) :=
  match parse_loop argv false None None with
  | Usage exit_val => usage exit_val
  | Parsed is_login (Some user) command => mret (is_login, user, command)
  | Parsed _ None _ => print "su: requires a username";; usage 1
  end.

(** *** Waiting *)

Definition prepare_for_job_control (need_it : bool) v : M K su_vars :=
  r ← ask Block_all;
  if negb (r =? 0) then print "[trouble blocking signals]";; mret (with_caught true v)
  else mret (with_job_control need_it v).

(** The alternatives of one condition, up to the first that is not 0. *)
Fixpoint any_fails (reqs : list su_req) : M K bool :=
  match reqs with
  | [] => mret false
  | r :: reqs => n ← ask r; if negb (n =? 0) then mret true else any_fails reqs
  end.
Definition intercept_signals v : M K su_vars :=
  let jobs := if need_job_control v then [SIGTSTP; SIGTTIN; SIGTTOU; SIGCONT] else [] in
  failed ← any_fails ([Sigaction SIGTERM Catch_sig; Sigaction SIGHUP Catch_sig]
                      ++ map (fun s => Sigaction s SIG_DFL) jobs
                      ++ [Unblock ([SIGTERM; SIGHUP; SIGALRM] ++ jobs)])%list;
  if failed : bool then print "[trouble setting signal intercept]";; mret (with_caught true v) else mret v.

(** waitpid(2), during which a signal may set wait_for_child_caught. *)
Definition waitpid (child : Z) v : M K (Z * Z * su_vars) := fun w =>
  let '(n, status, caught, k) := su_waitpid (kst w) child in
  (n ← libc_ret n; mret (n, status, if caught : bool then with_caught true v else v)) (with_kst k w).

Definition exit_code_of (status : Z) : Z := if WIFEXITED status then WEXITSTATUS status else 1.

(** The loop of wait_for_child(): exit_code. *)
Fixpoint wait_loop (fuel : nat) (child : Z) v : M K (Z * su_vars) :=
  if wait_for_child_caught v then mret (-1, v)
  else
    match fuel with
    | O => spin
    | S fuel =>
        '(n, status, v) ← waitpid child v;
        if n <=? 0 then
          e ← get_errno;
          if e =? EINTR then wait_loop fuel child v
          else print "[error waiting child]";; mret (-1, with_caught true v)
        else mret (exit_code_of status, v)
    end.

(** The loop that collects the child that was killed: the result and the status. *)
Fixpoint collect_loop (fuel : nat) (child : Z) v : M K (Z * Z * su_vars) :=
  match fuel with
  | O => spin
  | S fuel =>
      '(n, status, v) ← waitpid child v;
      e ← get_errno;
      if (n =? -1) && (e =? EINTR) then collect_loop fuel child v else mret (n, status, v)
  end.

Definition wait_for_child (child : Z) v : M K (Z * su_vars) :=
  if child =? -1 then mret (-1, v)
  else
    v ← (if wait_for_child_caught v then mret v else intercept_signals v);
    '(exit_code, v) ← wait_loop turns child v;
    (if wait_for_child_caught v then
       print "Killing shell...";;
       _ ← ask (Kill child SIGTERM);
       _ ← ask (Sleep SLEEP_TO_KILL_CHILDREN);
       _ ← ask (Kill child SIGKILL);
       print "killed"
     else mret tt);;
    if exit_code =? -1 then
      '(n, status, v) ← collect_loop turns child v;
      (if n =? -1 then perror "su: the final wait failed" else mret tt);;
      mret (exit_code_of status, v)
    else mret (exit_code, v).

(** *** The shell *)

(** [args[i] = x] *)
Definition put_arg (i : nat) (x : option string) (args : list (option string)) : M K (list (option string)) :=
  if (i <? List.length args)%nat then mret (<[i := x]> args) else fault.

(** The loop over the words after the first: the last index, and the array. *)
Fixpoint add_args (fuel : nat) (rest : string) (i : nat) (args : list (option string)) : M K (nat * list (option string)) :=
  match fuel with
  | O => spin
  | S fuel =>
      match strtok blank rest with
      | None => mret (i, args)
      | Some (tmp, rest) =>
          args ← put_arg (S i) (Some tmp) args;
          add_args fuel rest (S i) args
      end
  end.

(** The branch for the user's shell, with the memory for the [arg_no] arguments and
    for the line: the line is taken apart into the array. *)
Definition fill_shell_args (tmpb : string) (arg_no : nat) (login : bool) (command : option string) : M K (option (list (option string))) :=
  let args := replicate (2 + arg_no) None in
  let size := 2 + strlen tmpb + match command with Some _ => 4 | None => 0 end in
  let line := String "-" tmpb ++ match command with Some _ => " -c" | None => "" end in
  assert_ub (strlen line + 1 <=? size);;
  let '(token, rest) := default (line, "") (strtok blank line) in
  args ← put_arg 0 (Some (tail token)) args;
  args ← put_arg 1 (Some (if login then token else tail token)) args;
  '(i, args) ← add_args (S (String.length rest)) rest 1 args;
  '(i, args) ← match command with
               | Some _ => args ← put_arg (S i) command args; mret (S i, args)
               | None => mret (i, args)
               end;
  args ← put_arg (S i) None args;
  mret (Some args).
Definition user_shell_args (tmpb : string) (arg_no : nat) (login : bool) (command : option string) : M K (option (list (option string))) :=
  let arg_no := match command with Some _ => (arg_no + 2)%nat | None => arg_no end in
  ok ← libc_alloc;
  if negb ok then set_errno ENOMEM;; mret None
  else
    ok ← libc_alloc;
    if negb ok then set_errno ENOMEM;; mret None
    else fill_shell_args tmpb arg_no login command.

Definition default_shell_args (command : option string) : M K (option (list (option string))) :=
  ok ← libc_alloc;
  if negb ok then set_errno ENOMEM;; mret None
  else
    let shell := Some DEFAULT_SHELL in
    mret (Some match command with
               | Some _ => [shell; shell; Some "-c"; command; None]
               | None => [shell; shell; None]
               end).

(** The array, NULL without one; its first string is the path. *)
Definition build_shell_args (pw_shell : option string) (login : bool) (command : option string) : M K (option (list (option string))) :=
  let command := if login then None else command in
  let use_default := if login then mret None else default_shell_args command in
  match pw_shell with
  | None => use_default
  | Some pw_shell =>
      if at_end pw_shell then use_default
      else
        let '(tmpb, arg_no) := count_args (S (String.length pw_shell)) pw_shell None 0 in
        match tmpb with
        | None => use_default
        | Some tmpb =>
            if Ascii.eqb (head tmpb) "/" && (login || (arg_no =? 1)%nat)
            then user_shell_args tmpb arg_no login command
            else use_default
        end
  end.

(** *** Ending early *)

Definition exit_now {A} (exit_code : Z) (message : string) v : M K A :=
  print message;;
  '(_, v) ← (if pamh v then pam (Pam_end (if negb (exit_code =? 0) then PAM_ABORT else PAM_SUCCESS)) v else mret (0, v));
  _ ← restore_terminal_modes v;
  exit exit_code.

(** *** libpam *)

(** What PAM_TTY, PAM_RUSER get: something that must be known. *)
Definition set_known (item : pam_item) (value : K -> option string) v : M K (Z * su_vars) :=
  x ← gets (fun w => value (kst w));
  match x with
  | Some x => pam (Pam_set_item item x) v
  | None => mret (PAM_PERM_DENIED, v)
  end.

Definition do_pam_init (user : string) (is_login : bool) v : M K su_vars :=
  '(ret, v) ← pam (Pam_start user) v;
  if negb (ret =? PAM_SUCCESS) then print "su: pam_start failed";; exit 1
  else
    let v := with_pamh true v in
    '(ret, v) ← make_environment (negb is_login) v;
    '(ret, v) ← (if (ret =? PAM_SUCCESS) && is_terminal v then set_known PAM_TTY stdin_ttyname v else mret (ret, v));
    '(ret, v) ← (if (ret =? PAM_SUCCESS) && is_terminal v then set_known PAM_RUSER getlogin v else mret (ret, v));
    '(ret, v) ← (if ret =? PAM_SUCCESS then pam (Pam_set_item PAM_RHOST "localhost") v else mret (ret, v));
    if negb (ret =? PAM_SUCCESS) then exit_now 1 "su: problem establishing environment" v
    else
      '(ret, v) ← pam (Pam_fail_delay SU_FAIL_DELAY) v;
      if negb (ret =? PAM_SUCCESS) then exit_now 1 "su: problem initializing failure delay" v
      else mret v.

Definition authenticate_user all v : M K (Z * su_vars) :=
  let v := with_place "pre-auth cap_set_proc" v in
  r ← cap_set_proc all;
  if negb (r =? 0) then mret (1, with_retval PAM_SUCCESS (with_descr (Some "cap_set_proc() failed") v))
  else
    '(ret, v) ← pam Pam_authenticate (with_place "pam_authenticate" v);
    mret (if negb (ret =? PAM_SUCCESS) then 1 else 0, with_retval ret v).

Definition user_accounting all v : M K (Z * su_vars) :=
  let v := with_place "user_accounting" v in
  r ← cap_set_proc all;
  if negb (r =? 0) then mret (1, with_descr (Some "cap_set_proc() failed") v)
  else
    '(ret, v) ← pam Pam_acct_mgmt (with_place "pam_acct_mgmt" v);
    mret (if negb (ret =? PAM_SUCCESS) then 1 else 0, with_retval ret v).

(** *** Records of the session *)

(** The entry find_utmp_entry() stops at. *)
Definition is_entry (line id : string) (u : utmp) : bool :=
  ((ut_type u =? INIT_PROCESS) || (ut_type u =? LOGIN_PROCESS) || (ut_type u =? USER_PROCESS) || (ut_type u =? DEAD_PROCESS))
  && String.eqb (ut_id u) id && String.eqb (ut_line u) line.
Definition find_utmp_entry (line id : string) : M K (option utmp) :=
  gets (fun w => List.find (is_entry line id) (utmp_entries (kst w))).

Definition write_wtmp (u : utmp) v : M K (Z * su_vars) :=
  fd ← ask Open_wtmp;
  if fd =? -1 then v ← failed_at "wtmp open" v; mret (1, v)
  else
    r ← ask (Sigaction SIGALRM SIG_DFL);
    if r =? -1 then v ← failed_at "sigaction" v; _ ← ask (Close fd); mret (1, v)
    else
      _ ← ask (Alarm WTMP_LOCK_TIMEOUT);
      r ← ask (Setlk fd F_WRLCK);
      if r <? 0 then
        v ← failed_at "fcntl(F_SETLK)" v;
        _ ← ask (Alarm 0);
        _ ← ask (Sigaction SIGALRM Saved);
        _ ← ask (Close fd);
        mret (1, v)
      else
        _ ← ask (Alarm 0);
        _ ← ask (Sigaction SIGALRM Saved);
        n ← ask (Write_wtmp fd u);
        _ ← ask (Setlk fd F_UNLCK);
        _ ← ask (Close fd);
        mret (if negb (n =? -1) then 0 else 1, v).

(** ut_time is an int32_t. *)
Definition wrap32 (t : Z) : Z := (t + 2147483648) mod 4294967296 - 2147483648.
Definition now : M K Z := gets (fun w => wrap32 (time_now (kst w))).

(** The entry of the new session. *)
Definition session_entry (user line id : string) (rhost : option string) (pid : Z) : M K utmp :=
  addr ← gets (fun w => rhost ≫= gethostbyname (kst w));
  t ← now;
  mret (mkUtmp USER_PROCESS pid line id (strncpy UT_NAMESIZE user)
          (strncpy UT_HOSTSIZE (default RHOST_UNKNOWN_NAME rhost)) (default 0 addr) t).

Definition utmp_do_open_session (user terminal : string) (rhost : option string) (pid : Z) v : M K (Z * su_vars) :=
  let '(line, id) := set_terminal_name terminal in
  found ← find_utmp_entry line id;
  '(ok, v) ←
    match found with
    | None => mret (true, v)
    | Some u =>
        ok ← match login_stored_utmp v with Some _ => mret true | None => libc_alloc end;
        mret (if ok : bool then (true, with_stored (Some u) v) else (false, v))
    end;
  if negb ok then mret (-1, with_descr (Some "fail") (with_place "malloc" v))
  else
    u_tmp ← session_entry user line id rhost pid;
    _ ← ask (Pututline u_tmp);
    write_wtmp u_tmp v.

(** The entry that replaces one nobody stored. *)
Definition dead_entry (line id : string) : M K utmp := t ← now; mret (mkUtmp DEAD_PROCESS 0 line id "" "" 0 t).
Definition with_time (t : Z) (u : utmp) : utmp :=
  mkUtmp (ut_type u) (ut_pid u) (ut_line u) (ut_id u) (ut_user u) (ut_host u) (ut_addr u) t.

(** What is stored is cleared and released; it is not used again. *)
Definition utmp_do_close_session (terminal : string) v : M K (Z * su_vars) :=
  let '(line, id) := set_terminal_name terminal in
  match login_stored_utmp v with
  | Some stored =>
      _ ← ask (Pututline stored);
      t ← now;
      '(_, v) ← write_wtmp (with_time t stored) v;
      mret (0, with_stored (Some utmp0) v)
  | None =>
      found ← find_utmp_entry line id;
      match found with
      | None => mret (0, v)
      | Some _ =>
          u_tmp ← dead_entry line id;
          _ ← ask (Pututline u_tmp);
          '(_, v) ← write_wtmp u_tmp v;
          mret (0, v)
      end
  end.

(** The tests after the second and the third request are of [retval], which is the
    pointer, and not of what it points to. *)
Definition utmp_open_session (pid : Z) v : M K (Z * su_vars) :=
  '(ret, user) ← get_item PAM_USER;
  let v := with_retval ret v in
  if negb (ret =? PAM_SUCCESS) then mret (-1, v)
  else
    '(ret, terminal) ← get_item PAM_TTY;
    let v := with_retval ret v in
    if negb (retval_p =? PAM_SUCCESS) then mret (-1, v)
    else
      '(ret, rhost) ← get_item PAM_RHOST;
      let v := with_retval ret v in
      let rhost := if negb (retval_p =? PAM_SUCCESS) then None else rhost in
      match user, terminal with
      | Some user, Some terminal => utmp_do_open_session user terminal rhost pid v
      | _, _ => fault
      end.

Definition utmp_close_session v : M K (Z * su_vars) :=
  '(ret, terminal) ← get_item PAM_TTY;
  if negb (ret =? PAM_SUCCESS) then mret (-1, with_descr (Some "pam_strerror") (with_place "pam_get_item(PAM_TTY)" v))
  else match terminal with None => fault | Some terminal => utmp_do_close_session terminal v end.

(** *** The user's credentials *)

(** The variables of the user's shell: false when libpam refuses one. *)
Definition set_user_env (login : bool) (user dir : string) v : M K (bool * su_vars) :=
  '(ret, v) ← (if login then pam (Pam_setenv "LOGNAME" user) v else mret (PAM_SUCCESS, v));
  if negb (ret =? PAM_SUCCESS) then mret (false, v)
  else
    '(ret, v) ← pam (Pam_setenv "HOME" dir) v;
    if negb (ret =? PAM_SUCCESS) then mret (false, v)
    else
      '(ret, v) ← pam (Pam_setenv "USER" user) v;
      mret (ret =? PAM_SUCCESS, v).

Definition raise_setgid : M K Z :=
  current ← cap_get_proc;
  _ ← cap_set_flag current CAP_EFFECTIVE 1 [CAP_SETGID] CAP_SET;
  status ← cap_set_proc current;
  _ ← cap_free current;
  mret status.

(** From the groups of the account on: the result. *)
Definition become all (pw : passwd) v : M K (Z * su_vars) :=
  r ← ask (Initgroups (pw_name pw) (pw_gid pw));
  r ← (if r =? 0 then ask (Setgid (pw_gid pw)) else mret r);
  if negb (r =? 0) then mret (1, with_retval PAM_PERM_DENIED v)
  else
    r ← cap_setuid (pw_uid pw);
    if negb (r =? 0) then mret (1, with_retval PAM_PERM_DENIED v)
    else
      let v := with_event (Became (pw_uid pw)) v in
      r ← cap_set_proc all;
      if negb (r =? 0) then mret (1, with_retval PAM_PERM_DENIED v)
      else
        '(ret, v) ← pam (Pam_setcred PAM_ESTABLISH_CRED) v;
        mret (if negb (ret =? PAM_SUCCESS) then 1 else 0, with_retval ret v).

(** The result, and when it is 0 the user, the uid and the shell. *)
Definition set_credentials all (login : bool) v : M K (Z * (string * Z * string) * su_vars) :=
  let none := ("", 0, "") in
  let v := with_place "set_credentials" v in
  '(ret, user) ← get_item PAM_USER;
  match (if ret =? PAM_SUCCESS then user else None) with
  | None => mret (1, none, with_retval PAM_USER_UNKNOWN v)
  | Some user =>
      let v := with_retval ret v in
      if at_end user then mret (1, none, with_retval PAM_USER_UNKNOWN v)
      else
        pw ← gets (fun w => getpwnam (kst w) user);
        match pw with
        | None => mret (1, none, with_retval PAM_USER_UNKNOWN v)
        | Some pw =>
            copy ← strdup (pw_name pw);
            match copy with
            | None => mret (1, none, with_retval PAM_USER_UNKNOWN v)
            | Some name =>
                if pw_uid pw =? 0 then mret (1, none, with_retval PAM_CRED_ERR v)
                else
                  shell ← strdup (pw_shell pw);
                  match shell with
                  | None => mret (1, none, with_retval PAM_CRED_ERR v)
                  | Some shell =>
                      '(ok, v) ← set_user_env login name (pw_dir pw) v;
                      if negb ok then mret (1, none, with_retval PAM_CRED_ERR v)
                      else
                        status ← raise_setgid;
                        if negb (status =? 0) then mret (1, none, with_descr (Some "unable to raise CAP_SETGID") v)
                        else
                          '(r, v) ← become all pw v;
                          mret (r, (user, pw_uid pw, shell), v)
                  end
            end
        end
  end.

Definition open_session all v : M K (Z * su_vars) :=
  let v := with_place "pam_open_session" v in
  r ← cap_set_proc all;
  if negb (r =? 0) then mret (1, with_descr (Some "capability setting failed") v)
  else
    '(ret, v) ← pam Pam_open_session v;
    mret (if negb (ret =? PAM_SUCCESS) then 1 else 0, with_retval ret v).

Definition close_session all v : M K su_vars :=
  r ← cap_set_proc all;
  (if negb (r =? 0) then print "WARNING: could not raise all caps" else mret tt);;
  '(ret, v) ← pam Pam_close_session v;
  (if negb (ret =? PAM_SUCCESS) then print "WARNING: could not close session" else mret tt);;
  mret v.

(** *** The launch *)

(** What the child runs before the shell; its [pamh] is its own. *)
Definition launch_callback_fn : M K Z :=
  '(ret, _) ← pam (Pam_end (Z.lor PAM_SUCCESS PAM_DATA_SILENT)) vars0;
  if negb (ret =? PAM_SUCCESS) then mret (-1)
  else enable_terminal_signals;; mret 0.

(** HOME, which is set when it has not been. *)
Definition find_home (user : string) v : M K (string * su_vars) :=
  home ← gets (fun w => pam_getenv (kst w) "HOME");
  match home with
  | Some (String c home) => mret (String c home, v)
  | _ =>
      print ("setting home directory for " ++ user ++ " to " ++ DEFAULT_HOME);;
      '(ret, v) ← pam (Pam_setenv "HOME" DEFAULT_HOME) v;
      (if negb (ret =? PAM_SUCCESS) then print "Warning: unable to set HOME environment variable" else mret tt);;
      mret (DEFAULT_HOME, v)
  end.

(** [chdir(home) && chdir(DEFAULT_HOME)] failed. *)
Definition no_home_dir (home : string) : M K bool :=
  r ← chdir home;
  if r =? 0 then mret false else r ← chdir DEFAULT_HOME; mret (negb (r =? 0)).

(** The launch and the wait for its end. *)
Definition launch_and_wait all (is_login : bool) (command : option string) (path : string) (argv env : list string) v : M K (Z * su_vars) :=
  launcher ← cap_new_launcher (Some path) (Some argv) (Some env);
  if launcher =? 0 then mret (PAM_SYSTEM_ERR, v)
  else
    _ ← cap_launcher_callback launcher launch_callback;
    '(child, _) ← cap_launch launcher handle;
    let v := with_event (Launched path argv child) v in
    _ ← cap_free launcher;
    r ← cap_set_proc all;
    if negb (r =? 0) then mret (PAM_SYSTEM_ERR, v)
    else
      v ← prepare_for_job_control (negb is_login && bool_decide (command <> None)) v;
      r ← cap_setuid TEMP_UID;
      (if negb (r =? 0) then print "[failed to change monitor UID=1]" else mret tt);;
      wait_for_child child v.

Definition perform_launch_and_cleanup all (is_login : bool) (user shell : string) (command : option string) v : M K (Z * su_vars) :=
  shell_args ← build_shell_args (Some shell) is_login command;
  match shell_args with
  | None => mret (PAM_SYSTEM_ERR, v)
  | Some args =>
      '(home, v) ← find_home user v;
      failed ← (if is_login then no_home_dir home else mret false);
      if failed : bool then mret (PAM_SYSTEM_ERR, v)
      else
        shell_env ← gets (fun w => pam_getenvlist (kst w));
        match shell_env with
        | None => mret (PAM_SYSTEM_ERR, v)
        | Some env =>
            iab ← cap_iab_get_proc;
            if iab =? 0 then mret (PAM_SYSTEM_ERR, v)
            else
              match c_array args with
              | Some (path :: argv) => launch_and_wait all is_login command path argv env v
              | _ => fault
              end
        end
  end.

(** ** main() *)

(** The labels at its end, each going on with the next: what is done from
    auth_exit, from delete_cred and from utmp_closer on. The result is the exit
    status, and the variables. *)
Definition auth_exit (status : Z) v : M K (Z * su_vars) :=
  make_process_killable v;;
  final_retval ←
    match retval v with
    | None => fault
    | Some ret =>
        if negb (ret =? PAM_SUCCESS) then print "su: pam_strerror";; mret PAM_ABORT
        else match err_descr v with
             | Some _ => report v;; mret PAM_ABORT
             | None => mret PAM_SUCCESS
             end
    end;
  '(_, v) ← pam (Pam_end final_retval) v;
  let v := with_pamh false v in
  r ← restore_terminal_modes v;
  mret (if negb (r =? 0) && (status =? 0) then 1 else status, v).

Definition delete_cred all (status : Z) v : M K (Z * su_vars) :=
  _ ← cap_set_proc all;
  '(ret, v) ← pam (Pam_setcred PAM_DELETE_CRED) v;
  (if negb (ret =? PAM_SUCCESS) then print "WARNING: could not delete credentials" else mret tt);;
  v ← restore_terminal_owner v;
  auth_exit status v.

Definition utmp_closer all (is_login : bool) (status : Z) v : M K (Z * su_vars) :=
  if is_login then
    '(retcode, v) ← utmp_close_session v;
    (if negb (retcode =? 0) then report v else mret tt);;
    delete_cred all status v
  else delete_cred all status v.

(** The session: from the entries of utmp on. *)
Definition su_session all t_caps (is_login : bool) (user shell : string) (command : option string) v : M K (Z * su_vars) :=
  pid ← gets (fun w => su_getpid (kst w));
  '(retcode, v) ← (if is_login then utmp_open_session pid v else mret (0, v));
  if retcode <? 0 then delete_cred all 1 v
  else
    v ← (if 0 <? retcode then report v;; mret (with_descr None v) else mret v);
    '(r, v) ← open_session t_caps v;
    if negb (r =? 0) then utmp_closer all is_login 1 v
    else
      '(status, v) ← perform_launch_and_cleanup all is_login user shell command v;
      v ← close_session all v;
      utmp_closer all is_login status v.

(** With the user's credentials. *)
Definition su_as_user all (is_login : bool) (user shell : string) (uid : Z) (command : option string) v : M K (Z * su_vars) :=
  '(retcode, v) ← change_terminal_owner uid is_login v;
  if retcode <? 0 then auth_exit 1 v
  else
    v ← (if 0 <? retcode then report v;; mret (with_descr None v) else mret v);
    let v := with_place "preserving inheritable parts" v in
    t_caps ← cap_get_proc;
    if t_caps =? 0 then delete_cred all 1 (with_descr (Some "capability read failed") v)
    else
      r ← cap_fill t_caps CAP_EFFECTIVE CAP_PERMITTED;
      if negb (r =? 0) then delete_cred all 1 (with_descr (Some "capability fill failed") v)
      else su_session all t_caps is_login user shell command v.

(** From authentication on. *)
Definition su_authenticated all (is_login : bool) (command : option string) v : M K (Z * su_vars) :=
  '(r, v) ← authenticate_user all v;
  if negb (r =? 0) then auth_exit 1 v
  else
    '(r, v) ← user_accounting all v;
    if negb (r =? 0) then auth_exit 1 v
    else
      '(r, (user, uid, shell), v) ← set_credentials all is_login v;
      if negb (r =? 0) then auth_exit 1 v
      else su_as_user all is_login user shell uid command v.

(** What main() does before its last exit(): the status, and the variables. *)
Definition su_run (argv : list string) : M K (Z * su_vars) :=
  all ← cap_get_proc;
  _ ← cap_fill all CAP_EFFECTIVE CAP_PERMITTED;
  _ ← cap_clear_flag all CAP_INHERITABLE;
  checkfds;;
  v ← store_terminal_modes vars0;
  '(is_login, user, command) ← parse_command_line argv;
  v ← do_pam_init user is_login (with_place "do_pam_init" v);
  disable_terminal_signals;;
  '(r, v) ← make_process_unkillable (with_descr None v);
  if negb (r =? 0) then mret (1, v) else su_authenticated all is_login command v.

(** [argv] without the name of the program. *)
Definition su_main (argv : list string) : M K Empty_set :=
  '(status, _) ← su_run argv;
  (if negb (status =? 0) then perror "su failed" else mret tt);;
  exit status.

End su.
