(* ===== verification/SuSpec.v ===== *)
(** What su guarantees: the order in which it asks libpam, assumes the user and
    starts the shell, the shell's arguments, and what becomes of a login. *)

From Stdlib Require Import ZArith Lia String Ascii.
From stdpp Require Import gmap list.
From S2P Require Import Prelude Capability World Exec Syscall Alloc Flag Proc Text TextLex TextSpec Launch CLib ProgSpec Su.

Open Scope string_scope.
Open Scope Z_scope.

#[local] Arguments String.append !_ _ / : simpl nomatch.

(** ** The protocol

    The order of events an application of libpam has to keep, as an automaton. The
    flag of the last phases says whether a program was launched. *)

Inductive phase :=
| Idle | Started | Authenticated | Permitted | Identified | Credentialed | Opened | Running
| Refused | Closed (ran : bool) | Deleted (ran : bool) | Ended (ran : bool).

Definition answered (ret : Z) (yes no : phase) : option phase := Some (if ret =? PAM_SUCCESS then yes else no).

Definition next_phase (p : phase) (e : su_event) : option phase :=
  match p, e with
  | Idle, Asked (Pam_start _) ret => if ret =? PAM_SUCCESS then Some Started else None
  | Started, Asked (Pam_paste_env _ | Pam_setenv _ _ | Pam_set_item _ _ | Pam_fail_delay _) _ => Some Started
  | Started, Asked Pam_authenticate ret => answered ret Authenticated Refused
  | Authenticated, Asked Pam_acct_mgmt ret => answered ret Permitted Refused
  | Permitted, Asked (Pam_setenv _ _) _ => Some Permitted
  | Permitted, Became uid => if uid =? 0 then None else Some Identified
  | Identified, Asked (Pam_setcred flags) ret =>
      if flags =? PAM_ESTABLISH_CRED then answered ret Credentialed Refused else None
  | Credentialed, Asked Pam_open_session ret => answered ret Opened (Closed false)
  | Opened, Asked (Pam_setenv _ _) _ => Some Opened
  | Opened, Launched _ _ _ => Some Running
  | Opened, Asked Pam_close_session _ => Some (Closed false)
  | Running, Asked Pam_close_session _ => Some (Closed true)
  | Credentialed, Asked (Pam_setcred flags) _ => if flags =? PAM_DELETE_CRED then Some (Deleted false) else None
  | Closed ran, Asked (Pam_setcred flags) _ => if flags =? PAM_DELETE_CRED then Some (Deleted ran) else None
  | (Started | Authenticated | Permitted | Identified | Credentialed | Refused), Asked (Pam_end _) _ => Some (Ended false)
  | Deleted ran, Asked (Pam_end _) _ => Some (Ended ran)
  | _, _ => None
  end.

Definition phase_of (l : list su_event) : option phase := foldl (fun p e => p ≫= fun p => next_phase p e) (Some Idle) l.
Definition at_phase (p : phase) (v : su_vars) : Prop := phase_of (log v) = Some p.

Lemma phase_of_snoc l e : phase_of (l ++ [e])%list = phase_of l ≫= fun p => next_phase p e.
Proof. unfold phase_of. by rewrite foldl_app. Qed.
Lemma at_phase_next p q e v : at_phase p v -> next_phase p e = Some q -> at_phase q (with_event e v).
Proof. unfold at_phase. cbn [log with_event]. intros H E. by rewrite phase_of_snoc, H. Qed.

(** ** What a run yields, if it returns *)

Definition yields {K A} (m : M K A) (P : A -> Prop) : Prop := forall w a w', m w = (Ok a, w') -> P a.

Section yields.
Context {K : Type}.

Lemma yields_ret {A} (a : A) (P : A -> Prop) : P a -> yields (mret a : M K A) P.
Proof. by intros HP w b w' [= <- <-]. Qed.
Lemma yields_bind {A B} (m : M K A) (f : A -> M K B) P Q : yields m P -> (forall a, P a -> yields (f a) Q) -> yields (m ≫= f) Q.
Proof. intros Hm Hf w b w' H. apply bind_inv in H as (a & w1 & H1 & H2). by eapply Hf; [eapply Hm|]. Qed.
Lemma yields_skip {A B} (m : M K A) (f : A -> M K B) Q : (forall a, yields (f a) Q) -> yields (m ≫= f) Q.
Proof. intros Hf. apply (yields_bind _ _ (fun _ => True)); [done|]. auto. Qed.
Lemma yields_weaken {A} (m : M K A) (P Q : A -> Prop) : yields m P -> (forall a, P a -> Q a) -> yields m Q.
Proof. intros Hm HQ w a w' H. by eapply HQ, Hm. Qed.
Lemma yields_stop {A} (m : M K A) Q : (forall w a w', m w <> (Ok a, w')) -> yields m Q.
Proof. intros H w a w' E. by apply H in E. Qed.
Lemma yields_fault {A} Q : yields (fault : M K A) Q.
Proof. by apply yields_stop. Qed.
Lemma yields_spin {A} Q : yields (spin : M K A) Q.
Proof. by apply yields_stop. Qed.
Lemma yields_exit {A} status Q : yields (exit status : M K A) Q.
Proof. by apply yields_stop. Qed.

End yields.

Create HintDb yields.
#[export] Hint Resolve yields_fault yields_spin yields_exit : yields.

(** One rule; a call that has a lemma is used by it, one that has none is stepped over. *)
Ltac yields_step :=
  lazymatch goal with
  | |- yields (mret _) _ => apply yields_ret
  | |- yields fault _ => apply yields_fault
  | |- yields (exit _) _ => apply yields_exit
  | |- yields (match ?x with _ => _ end) _ => destruct x eqn:?
  | |- yields (_ ≫= _) _ =>
      first [eapply yields_bind; [solve [eauto 3 with yields nocore]|intros ? ?]
            |apply yields_skip; intros ?]
  | |- yields _ _ => solve [eauto 3 with yields nocore]
  end.
Ltac yields_steps := repeat (cbn beta iota zeta in *; yields_step).
(** The next phase after one event. *)
Ltac phase :=
  lazymatch goal with
  | |- at_phase _ (with_event _ _) =>
      eapply at_phase_next; [solve [eauto 2]|cbn [next_phase]; unfold answered;
        repeat match goal with H : (_ =? _) = _ |- _ => rewrite H end; reflexivity]
  | |- at_phase _ _ => solve [eauto 2]
  end.

Section steps.
Context {K : Type} `{!Kernel K, !Process K, !Accounts K, !SuSystem K}.
Variable strerror : Z -> string.
Variable environ : list string.
Variable launch_callback retval_p handle : Z.
Variable turns : nat.
Implicit Types (v : su_vars) (all : Z).

Lemma pam_yields r v Q : (forall ret, Q (ret, with_event (Asked r ret) v)) -> yields (pam r v : M K _) Q.
Proof. intros HQ w x w' H. unfold pam in H. destruct (pam_call (kst w) r). by injection H as <- _. Qed.
Lemma pam_then {A} r v (f : Z * su_vars -> M K A) Q :
  (forall ret, yields (f (ret, with_event (Asked r ret) v)) Q) -> yields (pam r v ≫= f) Q.
Proof. intros Hf. apply (yields_bind _ _ (fun x => exists ret, x = (ret, with_event (Asked r ret) v))); [apply pam_yields; eauto|]. by intros _ [ret ->]. Qed.

(** *** Setting up *)

(** A request that leaves the phase as it is. *)
Lemma pam_same p r v : (forall ret, next_phase p (Asked r ret) = Some p) -> at_phase p v ->
  yields (pam r v : M K _) (fun x => at_phase p x.2).
Proof. intros Hn Hv. apply pam_yields. intros ret. by eapply at_phase_next. Qed.

Lemma transcribe_yields names v : at_phase Started v -> yields (transcribe names v : M K _) (fun x => at_phase Started x.2).
Proof.
  revert v. induction names as [|n names IH]; intros v Hv; cbn [transcribe]; [by apply yields_ret|].
  apply yields_skip. intros [e|]; [|by apply IH]. eapply yields_bind; [by apply (pam_same Started)|]. intros [ret v'] Hv'.
  destruct (ret =? PAM_SUCCESS); [by apply IH|by apply yields_ret].
Qed.

Lemma make_environment_yields keep v : at_phase Started v -> yields (make_environment environ keep v : M K _) (fun x => at_phase Started x.2).
Proof.
  intros Hv. unfold make_environment. destruct keep; [by apply (pam_same Started)|]. apply yields_skip. intros e.
  eapply yields_bind; [by apply (pam_same Started)|]. intros [ret v1] H1.
  apply (yields_bind _ _ (fun x => at_phase Started x.2)).
  { destruct (ret =? PAM_SUCCESS); [by apply (pam_same Started)|by apply yields_ret]. }
  intros [ret2 v2] H2. destruct (negb _); [by apply yields_ret|by apply transcribe_yields].
Qed.

Lemma set_known_yields item value v : at_phase Started v -> yields (set_known item value v : M K _) (fun x => at_phase Started x.2).
Proof. intros Hv. unfold set_known. apply yields_skip. intros [x|]; [by apply (pam_same Started)|by apply yields_ret]. Qed.

Lemma exit_now_yields {A} code message v Q : yields (exit_now strerror code message v : M K A) Q.
Proof. unfold exit_now. do 2 (apply yields_skip; intros ?). destruct a0. do 1 (apply yields_skip; intros ?). apply yields_exit. Qed.

Lemma do_pam_init_yields user is_login v : at_phase Idle v -> yields (do_pam_init strerror environ user is_login v : M K _) (at_phase Started).
Proof.
  intros Hv. unfold do_pam_init. apply pam_then. intros ret.
  destruct (ret =? PAM_SUCCESS) eqn:E; cbn [negb]; [|apply yields_skip; intros _; apply yields_exit].
  assert (at_phase Started (with_pamh true (with_event (Asked (Pam_start user) ret) v))) as H1.
  { eapply (at_phase_next Idle); [exact Hv|]. cbn. by rewrite E. }
  eapply yields_bind; [by apply make_environment_yields|]. intros [r2 v2] H2.
  apply (yields_bind _ _ (fun x => at_phase Started x.2)).
  { destruct (_ && _); [by apply set_known_yields|by apply yields_ret]. }
  intros [r3 v3] H3. apply (yields_bind _ _ (fun x => at_phase Started x.2)).
  { destruct (_ && _); [by apply set_known_yields|by apply yields_ret]. }
  intros [r4 v4] H4. apply (yields_bind _ _ (fun x => at_phase Started x.2)).
  { destruct (r4 =? _); [by apply (pam_same Started)|by apply yields_ret]. }
  intros [r5 v5] H5. destruct (negb _); [apply exit_now_yields|].
  eapply yields_bind; [by apply (pam_same Started)|]. intros [r6 v6] H6.
  destruct (negb _); [apply exit_now_yields|by apply yields_ret].
Qed.

(** *** Gates: a step that on its result 0 has reached a phase, and otherwise one
    from which libpam may be released *)

Definition endable (p : phase) : bool :=
  match p with
  | Started | Authenticated | Permitted | Identified | Credentialed | Refused => true
  | _ => false
  end.
Definition gate (p : phase) (x : Z * su_vars) : Prop :=
  if x.1 =? 0 then at_phase p x.2 else exists q, endable q = true /\ at_phase q x.2.

Lemma gate_pam p q r no v : at_phase q v -> endable no = true ->
  (forall ret, next_phase q (Asked r ret) = answered ret p no) ->
  yields ('(ret, v) ← pam r v; mret (if negb (ret =? PAM_SUCCESS) then 1 else 0, with_retval ret v) : M K _) (gate p).
Proof.
  intros Hv Hno Hn. apply pam_then. intros ret. apply yields_ret. unfold gate. cbn [fst snd].
  pose proof (at_phase_next _ _ _ _ Hv (Hn ret)) as H. destruct (ret =? PAM_SUCCESS); [exact H|]. by exists no.
Qed.
Lemma gate_fails p q n v : endable q = true -> at_phase q v -> n <> 0 -> yields (mret (n, v) : M K _) (gate p).
Proof. intros Hq Hv Hn. apply yields_ret. unfold gate. cbn [fst snd]. apply Z.eqb_neq in Hn as ->. by exists q. Qed.

Lemma authenticate_user_yields all v : at_phase Started v -> yields (authenticate_user all v : M K _) (gate Authenticated).
Proof.
  intros Hv. unfold authenticate_user. apply yields_skip. intros r. destruct (negb (r =? 0)).
  - by apply (gate_fails _ Started).
  - by eapply (gate_pam _ Started _ Refused).
Qed.
Lemma user_accounting_yields all v : at_phase Authenticated v -> yields (user_accounting all v : M K _) (gate Permitted).
Proof.
  intros Hv. unfold user_accounting. apply yields_skip. intros r. destruct (negb (r =? 0)).
  - by apply (gate_fails _ Authenticated).
  - by eapply (gate_pam _ Authenticated _ Refused).
Qed.

Lemma set_user_env_yields login user dir v : at_phase Permitted v ->
  yields (set_user_env login user dir v : M K _) (fun x => at_phase Permitted x.2).
Proof.
  intros Hv. unfold set_user_env. apply (yields_bind _ _ (fun x => at_phase Permitted x.2)).
  { destruct login; [by apply (pam_same Permitted)|by apply yields_ret]. }
  intros [r1 v1] H1. destruct (negb _); [by apply yields_ret|].
  eapply yields_bind; [by apply (pam_same Permitted)|]. intros [r2 v2] H2. destruct (negb _); [by apply yields_ret|].
  eapply yields_bind; [by apply (pam_same Permitted)|]. intros [r3 v3] H3. by apply yields_ret.
Qed.

Lemma become_yields all pw v : pw_uid pw <> 0 -> at_phase Permitted v -> yields (become all pw v : M K _) (gate Credentialed).
Proof.
  intros Hu Hv. unfold become. apply yields_skip. intros r. apply yields_skip. intros r2.
  destruct (negb (r2 =? 0)); [by apply (gate_fails _ Permitted)|]. apply yields_skip. intros r3.
  destruct (negb (r3 =? 0)); [by apply (gate_fails _ Permitted)|].
  assert (at_phase Identified (with_event (Became (pw_uid pw)) v)) as H.
  { eapply at_phase_next; [exact Hv|]. cbn. by apply Z.eqb_neq in Hu as ->. }
  apply yields_skip. intros r4. destruct (negb (r4 =? 0)); [by apply (gate_fails _ Identified)|].
  by eapply (gate_pam _ Identified _ Refused).
Qed.

Lemma set_credentials_yields all login v : at_phase Permitted v ->
  yields (set_credentials all login v : M K _) (fun x => gate Credentialed (x.1.1, x.2)).
Proof.
  intros Hv. unfold set_credentials.
  assert (forall n y v', at_phase Permitted v' -> n <> 0 ->
    yields (mret (n, y, v') : M K (Z * (string * Z * string) * su_vars)) (fun x => gate Credentialed (x.1.1, x.2))) as Hfail.
  { intros n y v' H Hn. apply yields_ret. unfold gate. cbn [fst snd]. apply Z.eqb_neq in Hn as ->. by exists Permitted. }
  apply yields_skip. intros [ret u]. destruct (if ret =? PAM_SUCCESS then u else None) as [user|]; [|by apply Hfail].
  destruct (at_end user); [by apply Hfail|]. apply yields_skip. intros [pw|]; [|by apply Hfail].
  apply yields_skip. intros [name|]; [|by apply Hfail]. destruct (Z.eqb_spec (pw_uid pw) 0) as [|Hu]; [by apply Hfail|].
  apply yields_skip. intros [shell|]; [|by apply Hfail].
  eapply yields_bind; [by apply set_user_env_yields|]. intros [ok v1] H1. destruct (negb ok); [by apply Hfail|].
  apply yields_skip. intros status. destruct (negb (status =? 0)); [by apply Hfail|].
  eapply yields_bind; [by apply become_yields|]. intros [r v2] H2. by apply yields_ret.
Qed.

Lemma open_session_yields all v : at_phase Credentialed v ->
  yields (open_session all v : M K _) (fun x => at_phase (if x.1 =? 0 then Opened else Credentialed) x.2 \/ (x.1 <> 0 /\ at_phase (Closed false) x.2)).
Proof.
  intros Hv. unfold open_session. apply yields_skip. intros r. destruct (negb (r =? 0)); [by apply yields_ret; left|].
  apply pam_then. intros ret. apply yields_ret. cbn [fst snd].
  destruct (ret =? PAM_SUCCESS) eqn:E; [left|right; split; [done|]]; (eapply at_phase_next; [exact Hv|]);
    unfold next_phase, answered; by rewrite E.
Qed.

Lemma close_session_yields all (ran : bool) v : at_phase (if ran then Running else Opened) v ->
  yields (close_session all v : M K _) (at_phase (Closed ran)).
Proof.
  intros Hv. unfold close_session. apply yields_skip. intros r. apply yields_skip. intros _. apply pam_then. intros ret.
  apply yields_skip. intros _. apply yields_ret. eapply at_phase_next; [exact Hv|]. by destruct ran.
Qed.

(** *** The shell *)

(** What does not ask libpam leaves the log. *)
Definition keeps_log {A} (f : A -> su_vars) v (m : M K A) : Prop := yields m (fun x => log (f x) = log v).

Lemma waitpid_log child v : keeps_log snd v (waitpid child v : M K _).
Proof.
  intros w x w' H. unfold waitpid in H. destruct (su_waitpid (kst w) child) as [[[n status] caught] k].
  apply bind_inv in H as (n' & w1 & _ & [= <- _]). by destruct caught.
Qed.
Lemma wait_loop_log fuel child v : keeps_log snd v (wait_loop fuel child v : M K _).
Proof.
  revert v. induction fuel as [|fuel IH]; intros v; cbn [wait_loop]; destruct (wait_for_child_caught v); try by apply yields_ret.
  - apply yields_spin.
  - eapply yields_bind; [apply waitpid_log|]. intros [[n status] v1] H1. cbn [snd] in H1. destruct (n <=? 0); [|by apply yields_ret].
    apply yields_skip. intros e. destruct (e =? EINTR).
    + eapply yields_weaken; [apply IH|]. cbn. intros x. congruence.
    + apply yields_skip. intros _. by apply yields_ret.
Qed.
Lemma collect_loop_log fuel child v : keeps_log snd v (collect_loop fuel child v : M K _).
Proof.
  revert v. induction fuel as [|fuel IH]; intros v; cbn [collect_loop]; [apply yields_spin|].
  eapply yields_bind; [apply waitpid_log|]. intros [[n status] v1] H1. cbn [snd] in H1. apply yields_skip. intros e.
  destruct (_ && _); [|by apply yields_ret]. eapply yields_weaken; [apply IH|]. cbn. intros x. congruence.
Qed.
Lemma wait_for_child_log child v : keeps_log snd v (wait_for_child strerror turns child v : M K _).
Proof.
  unfold wait_for_child. destruct (child =? -1); [by apply yields_ret|].
  apply (yields_bind _ _ (fun v' => log v' = log v)).
  { destruct (wait_for_child_caught v); [by apply yields_ret|]. unfold intercept_signals. apply yields_skip.
    intros []; [apply yields_skip; intros _|]; by apply yields_ret. }
  intros v1 H1. eapply yields_bind; [apply wait_loop_log|]. intros [code v2] H2. cbn [snd] in H2.
  apply yields_skip. intros _. destruct (code =? -1); [|apply yields_ret; cbn; congruence].
  eapply yields_bind; [apply collect_loop_log|]. intros [[n status] v3] H3. cbn [snd] in H3. apply yields_skip. intros _.
  apply yields_ret. cbn. congruence.
Qed.

Lemma at_phase_log p v v' : log v' = log v -> at_phase p v -> at_phase p v'.
Proof. unfold at_phase. by intros ->. Qed.

(** A program ran if the result is 0. *)
Definition ran_phase (x : Z * su_vars) : Prop := at_phase Running x.2 \/ (x.1 <> 0 /\ at_phase Opened x.2).

Lemma find_home_yields user v : at_phase Opened v -> yields (find_home user v : M K _) (fun x => at_phase Opened x.2).
Proof.
  intros Hv. unfold find_home. apply yields_skip. intros home.
  assert (yields (print ("setting home directory for " ++ user ++ " to " ++ DEFAULT_HOME);;
      '(ret, v) ← pam (Pam_setenv "HOME" DEFAULT_HOME) v;
      (if negb (ret =? PAM_SUCCESS) then print "Warning: unable to set HOME environment variable" else mret tt);;
      mret (DEFAULT_HOME, v) : M K _) (fun x => at_phase Opened x.2)) as Hset.
  { apply yields_skip. intros _. apply pam_then. intros ret. apply yields_skip. intros _. apply yields_ret. by eapply at_phase_next. }
  destruct home as [[|c s]|]; [exact Hset|by apply yields_ret|exact Hset].
Qed.

Lemma launch_and_wait_yields all is_login command path argv env v : at_phase Opened v ->
  yields (launch_and_wait strerror launch_callback handle turns all is_login command path argv env v : M K _) ran_phase.
Proof.
  intros Hv. unfold launch_and_wait. apply yields_skip. intros launcher.
  destruct (launcher =? 0); [apply yields_ret; right; by split|]. apply yields_skip. intros _. apply yields_skip. intros [child ended].
  assert (at_phase Running (with_event (Launched path argv child) v)) as H by by eapply at_phase_next.
  apply yields_skip. intros _. apply yields_skip. intros r. destruct (negb (r =? 0)); [apply yields_ret; by left|].
  apply (yields_bind _ _ (at_phase Running)).
  { unfold prepare_for_job_control. apply yields_skip. intros r2. destruct (negb _); [apply yields_skip; intros _|]; by apply yields_ret. }
  intros v2 H2. apply yields_skip. intros r3. apply yields_skip. intros _.
  eapply yields_weaken; [apply wait_for_child_log|]. intros x Hx. left. exact (at_phase_log _ _ _ Hx H2).
Qed.

Lemma perform_launch_yields all is_login user shell command v : at_phase Opened v ->
  yields (perform_launch_and_cleanup strerror launch_callback handle turns all is_login user shell command v : M K _) ran_phase.
Proof.
  intros Hv. unfold perform_launch_and_cleanup. apply yields_skip. intros [args|]; [|apply yields_ret; right; by split].
  eapply yields_bind; [by apply find_home_yields|]. intros [home v1] H1. apply yields_skip. intros [].
  { apply yields_ret. right. by split. }
  apply yields_skip. intros [env|]; [|apply yields_ret; right; by split]. apply yields_skip. intros iab.
  destruct (iab =? 0); [apply yields_ret; right; by split|]. destruct (c_array args) as [[|path argv]|]; try apply yields_fault.
  by apply launch_and_wait_yields.
Qed.

(** *** Ending *)

(** The end of a run that has launched a program, or not, with [status] so far. *)
Definition ended (ran : bool) (status : Z) (x : Z * su_vars) : Prop :=
  at_phase (Ended ran) x.2 /\ (x.1 = status \/ (status = 0 /\ x.1 = 1)).

Lemma auth_exit_yields p ran status v : (forall f ret, next_phase p (Asked (Pam_end f) ret) = Some (Ended ran)) ->
  at_phase p v -> yields (auth_exit strerror status v : M K _) (ended ran status).
Proof.
  intros Hp Hv. unfold auth_exit. apply yields_skip. intros _. apply yields_skip. intros final. apply pam_then. intros ret.
  apply yields_skip. intros r. apply yields_ret. split; [by eapply at_phase_next|]. cbn [fst].
  destruct (negb (r =? 0)), (Z.eqb_spec status 0); cbn [andb]; by auto.
Qed.
Lemma auth_exit_early p status v : endable p = true -> at_phase p v -> yields (auth_exit strerror status v : M K _) (ended false status).
Proof. intros Hp. apply auth_exit_yields. by destruct p. Qed.

Lemma restore_terminal_owner_log v : keeps_log id v (restore_terminal_owner strerror v : M K _).
Proof.
  unfold restore_terminal_owner. destruct (negb _); [|by apply yields_ret]. do 8 (apply yields_skip; intros ?). by apply yields_ret.
Qed.

Lemma delete_cred_yields p ran all status v :
  (forall ret, next_phase p (Asked (Pam_setcred PAM_DELETE_CRED) ret) = Some (Deleted ran)) ->
  at_phase p v -> yields (delete_cred strerror all status v : M K _) (ended ran status).
Proof.
  intros Hp Hv. unfold delete_cred. apply yields_skip. intros _. apply pam_then. intros ret. apply yields_skip. intros _.
  eapply yields_bind; [apply restore_terminal_owner_log|]. intros v2 H2. eapply auth_exit_yields; [|eapply at_phase_log; [exact H2|by eapply at_phase_next]].
  done.
Qed.

Lemma failed_then {A} place v (f : su_vars -> M K A) Q :
  (forall e, yields (f (with_descr (Some (strerror e)) (with_place place v))) Q) -> yields (failed_at strerror place v ≫= f) Q.
Proof.
  intros Hf. apply (yields_bind _ _ (fun v' => exists e, v' = with_descr (Some (strerror e)) (with_place place v))).
  - apply yields_skip. intros e. apply yields_ret. by exists e.
  - by intros _ [e ->].
Qed.
Ltac skips := repeat (apply yields_skip; intros ?).

Lemma write_wtmp_log u v : keeps_log snd v (write_wtmp strerror u v : M K _).
Proof.
  unfold write_wtmp, keeps_log. apply yields_skip. intros fd. destruct (fd =? -1).
  { apply failed_then. intros e. by apply yields_ret. }
  apply yields_skip. intros r. destruct (r =? -1); [apply failed_then; intros e; skips; by apply yields_ret|].
  apply yields_skip. intros _. apply yields_skip. intros r2.
  destruct (r2 <? 0); [apply failed_then; intros e|]; skips; by apply yields_ret.
Qed.

Lemma utmp_do_close_session_log terminal v : keeps_log snd v (utmp_do_close_session strerror terminal v : M K _).
Proof.
  unfold utmp_do_close_session, keeps_log. destruct (set_terminal_name terminal) as [line id]. destruct (login_stored_utmp v) as [u|].
  - apply yields_skip. intros _. apply yields_skip. intros t. eapply yields_bind; [apply write_wtmp_log|]. intros [r v1] H1. by apply yields_ret.
  - apply yields_skip. intros [u|]; [|by apply yields_ret]. apply yields_skip. intros d. apply yields_skip. intros _.
    eapply yields_bind; [apply write_wtmp_log|]. intros [r v1] H1. by apply yields_ret.
Qed.

Lemma utmp_close_session_log v : keeps_log snd v (utmp_close_session strerror v : M K _).
Proof.
  unfold utmp_close_session, keeps_log. apply yields_skip. intros [ret terminal]. destruct (negb _); [by apply yields_ret|].
  destruct terminal as [t|]; [apply utmp_do_close_session_log|apply yields_fault].
Qed.

Lemma utmp_do_open_session_log user terminal rhost pid v : keeps_log snd v (utmp_do_open_session strerror user terminal rhost pid v : M K _).
Proof.
  unfold utmp_do_open_session, keeps_log. destruct (set_terminal_name terminal) as [line id]. apply yields_skip. intros found.
  apply (yields_bind _ _ (fun x => log x.2 = log v)).
  { destruct found as [u|]; [|by apply yields_ret]. apply yields_skip. intros []; by apply yields_ret. }
  intros [ok v1] H1. destruct (negb ok); [by apply yields_ret|]. apply yields_skip. intros u. apply yields_skip. intros _.
  eapply yields_weaken; [apply write_wtmp_log|]. cbn in H1 |- *. intros x. congruence.
Qed.

Lemma utmp_open_session_log pid v : keeps_log snd v (utmp_open_session strerror retval_p pid v : M K _).
Proof.
  unfold utmp_open_session, keeps_log. apply yields_skip. intros [ret user]. destruct (negb _); [by apply yields_ret|].
  apply yields_skip. intros [ret2 terminal]. destruct (negb _); [by apply yields_ret|]. apply yields_skip. intros [ret3 rhost].
  destruct user as [user|], terminal as [terminal|]; try apply yields_fault.
  eapply yields_weaken; [apply utmp_do_open_session_log|done].
Qed.

(** The pointer is not NULL, and taken for a failure. *)
Lemma utmp_open_session_fails pid v : retval_p <> 0 -> yields (utmp_open_session strerror retval_p pid v : M K _) (fun x => x.1 = -1).
Proof.
  intros Hp. unfold utmp_open_session. apply yields_skip. intros [ret user]. destruct (negb _); [by apply yields_ret|].
  apply yields_skip. intros [ret2 terminal]. apply Z.eqb_neq in Hp. unfold PAM_SUCCESS. rewrite Hp. by apply yields_ret.
Qed.

(** A run from the session on ends in the last phase, and with 0 only after a launch. *)
Definition ends (x : Z * su_vars) : Prop := exists ran, at_phase (Ended ran) x.2 /\ (x.1 = 0 -> ran = true).
Lemma ended_ends ran status x : (status = 0 -> ran = true) -> ended ran status x -> ends x.
Proof. intros Hr (H1 & H2). exists ran. split; [done|]. intros H0. apply Hr. destruct H2 as [|[]]; congruence. Qed.

Lemma utmp_closer_yields p all is_login (ran : bool) status v :
  (forall ret, next_phase p (Asked (Pam_setcred PAM_DELETE_CRED) ret) = Some (Deleted ran)) -> (status = 0 -> ran = true) -> at_phase p v ->
  yields (utmp_closer strerror all is_login status v : M K _) ends.
Proof.
  intros Hp Hr Hv. assert (forall v', log v' = log v -> yields (delete_cred strerror all status v' : M K _) ends) as Hd.
  { intros v' Hl. eapply yields_weaken; [apply (delete_cred_yields p ran); [done|by eapply at_phase_log]|].
    intros x. by apply ended_ends. }
  unfold utmp_closer. destruct is_login; [|by apply Hd].
  eapply yields_bind; [apply utmp_close_session_log|]. intros [r v1] H1. apply yields_skip. intros _. by apply Hd.
Qed.

Lemma su_session_yields all t_caps is_login user shell command v : at_phase Credentialed v ->
  yields (su_session strerror launch_callback retval_p handle turns all t_caps is_login user shell command v : M K _) ends.
Proof.
  intros Hv. unfold su_session. apply yields_skip. intros pid. apply (yields_bind _ _ (fun x => log x.2 = log v)).
  { destruct is_login; [apply utmp_open_session_log|by apply yields_ret]. }
  intros [retcode v1] H1. destruct (retcode <? 0).
  { eapply yields_weaken; [apply (delete_cred_yields Credentialed false); [done|by eapply at_phase_log]|].
    intros x. by apply ended_ends. }
  apply (yields_bind _ _ (fun v2 => log v2 = log v)).
  { destruct (0 <? retcode); [apply yields_skip; intros _|]; by apply yields_ret. }
  intros v2 H2. eapply yields_bind; [eapply open_session_yields, at_phase_log; [exact H2|exact Hv]|]. intros [r v3] H3.
  cbn [fst snd] in H3. destruct (Z.eqb_spec r 0) as [->|Hr]; cbn [negb].
  - destruct H3 as [H3|[]]; [|done]. eapply yields_bind; [by apply perform_launch_yields|]. intros [status v4] H4.
    destruct H4 as [H4|[Hs H4]].
    + eapply yields_bind; [by apply (close_session_yields all true)|]. intros v5 H5. by apply (utmp_closer_yields (Closed true) _ _ true).
    + eapply yields_bind; [by apply (close_session_yields all false)|]. intros v5 H5. by apply (utmp_closer_yields (Closed false) _ _ false).
  - destruct H3 as [H3|[_ H3]]; [by apply (utmp_closer_yields Credentialed _ _ false)|by apply (utmp_closer_yields (Closed false) _ _ false)].
Qed.

(** A login fails before its session is opened. *)
Lemma su_session_login all t_caps user shell command v : retval_p <> 0 -> at_phase Credentialed v ->
  yields (su_session strerror launch_callback retval_p handle turns all t_caps true user shell command v : M K _) (ended false 1).
Proof.
  intros Hp Hv. unfold su_session. apply yields_skip. intros pid.
  apply (yields_bind _ _ (fun x => x.1 = -1 /\ log x.2 = log v)).
  { intros w x w' H. split; [by eapply utmp_open_session_fails|by eapply utmp_open_session_log]. }
  intros [r v1] [Hr H1]. cbn [fst snd] in Hr, H1. subst r. change (-1 <? 0) with true. cbn iota.
  apply (delete_cred_yields Credentialed false); [done|by eapply at_phase_log].
Qed.

Lemma change_terminal_owner_log uid is_login v : keeps_log snd v (change_terminal_owner strerror uid is_login v : M K _).
Proof.
  unfold change_terminal_owner, keeps_log. destruct (_ && _); [|by apply yields_ret]. apply yields_skip. intros [r st_uid].
  destruct (negb (r =? 0)); [apply failed_then; intros e; by apply yields_ret|]. do 5 (apply yields_skip; intros ?).
  apply (yields_bind _ _ (fun x => log x.2 = log v)).
  { destruct (negb _); [by apply yields_ret|]. apply yields_skip. intros n. destruct (negb _); [|apply yields_skip; intros _]; by apply yields_ret. }
  intros [n v1] H1. apply yields_skip. intros _. destruct (negb _); [apply yields_skip; intros e|]; by apply yields_ret.
Qed.

(** The two readings of what follows the credentials, by what the session yields. *)
Lemma su_as_user_yields (P : Z * su_vars -> Prop) all is_login user shell uid command v :
  (forall x, ended false 1 x -> P x) ->
  (forall t_caps v', at_phase Credentialed v' ->
     yields (su_session strerror launch_callback retval_p handle turns all t_caps is_login user shell command v' : M K _) P) ->
  at_phase Credentialed v ->
  yields (su_as_user strerror launch_callback retval_p handle turns all is_login user shell uid command v : M K _) P.
Proof.
  intros HP Hs Hv. unfold su_as_user. eapply yields_bind; [apply change_terminal_owner_log|]. intros [retcode v1] H1. cbn [snd] in H1.
  pose proof (at_phase_log _ _ _ H1 Hv) as Hv1. destruct (retcode <? 0).
  { eapply yields_weaken; [by apply (auth_exit_early Credentialed)|done]. }
  apply (yields_bind _ _ (at_phase Credentialed)).
  { destruct (0 <? retcode); [apply yields_skip; intros _|]; by apply yields_ret. }
  intros v2 H2. apply yields_skip. intros t_caps. destruct (t_caps =? 0).
  { eapply yields_weaken; [by apply (delete_cred_yields Credentialed false)|done]. }
  apply yields_skip. intros r. destruct (negb _); [|by apply Hs].
  eapply yields_weaken; [by apply (delete_cred_yields Credentialed false)|done].
Qed.

Lemma su_authenticated_yields (P : Z * su_vars -> Prop) all is_login command v :
  (forall x, ended false 1 x -> P x) ->
  (forall t_caps user shell v', at_phase Credentialed v' ->
     yields (su_session strerror launch_callback retval_p handle turns all t_caps is_login user shell command v' : M K _) P) ->
  at_phase Started v ->
  yields (su_authenticated strerror launch_callback retval_p handle turns all is_login command v : M K _) P.
Proof.
  intros HP Hs Hv. assert (forall q v', endable q = true -> at_phase q v' -> yields (auth_exit strerror 1 v' : M K _) P) as He.
  { intros q v' Hq H. eapply yields_weaken; [by apply (auth_exit_early q)|done]. }
  unfold su_authenticated. eapply yields_bind; [by apply authenticate_user_yields|]. intros [r1 v1] H1. unfold gate in H1. cbn [fst snd] in H1.
  destruct (r1 =? 0); cbn [negb]; [|destruct H1 as (q & Hq & H1); by apply (He q)].
  eapply yields_bind; [by apply user_accounting_yields|]. intros [r2 v2] H2. unfold gate in H2. cbn [fst snd] in H2.
  destruct (r2 =? 0); cbn [negb]; [|destruct H2 as (q & Hq & H2); by apply (He q)].
  eapply yields_bind; [by apply set_credentials_yields|]. intros [[r3 [[user uid] shell]] v3] H3. unfold gate in H3. cbn [fst snd] in H3.
  destruct (r3 =? 0); cbn [negb]; [|destruct H3 as (q & Hq & H3); by apply (He q)].
  apply su_as_user_yields; [done| |done]. intros t_caps v' Hv'. by apply Hs.
Qed.

(** What the command line says is what main() goes on with. *)
Lemma parse_command_line_yields argv : yields (parse_command_line argv : M K _)
  (fun x => parse_loop argv false None None = Parsed x.1.1 (Some x.1.2) x.2).
Proof.
  unfold parse_command_line, usage. destruct (parse_loop argv false None None) as [is_login [user|] command|n].
  - by apply yields_ret.
  - skips. apply yields_exit.
  - skips. apply yields_exit.
Qed.

Lemma su_run_yields (P : Z * su_vars -> Prop) argv :
  (forall v, at_phase Started v -> P (1, v)) -> (forall x, ended false 1 x -> P x) ->
  (forall is_login user command all t_caps name shell v, parse_loop argv false None None = Parsed is_login (Some user) command ->
     at_phase Credentialed v ->
     yields (su_session strerror launch_callback retval_p handle turns all t_caps is_login name shell command v : M K _) P) ->
  yields (su_run strerror environ launch_callback retval_p handle turns argv : M K _) P.
Proof.
  intros HS HP Hs. unfold su_run. do 4 (apply yields_skip; intros ?). apply (yields_bind _ _ (at_phase Idle)).
  { unfold store_terminal_modes. apply yields_skip. intros []; [|apply yields_skip; intros _; apply yields_exit].
    apply yields_skip. intros r. destruct (negb _); [apply yields_skip; intros _; apply yields_exit|by apply yields_ret]. }
  intros v0 H0. eapply yields_bind; [apply parse_command_line_yields|]. intros [[is_login user] command] Hpl. cbn [fst snd] in Hpl.
  eapply yields_bind; [by apply do_pam_init_yields|]. intros v1 H1. apply yields_skip. intros _.
  apply (yields_bind _ _ (fun x => at_phase Started x.2)).
  { unfold make_process_unkillable. apply yields_skip. intros uid. destruct (uid =? TEMP_UID); [by apply yields_ret|].
    apply yields_skip. intros r. destruct (negb _); [apply failed_then; intros e|]; by apply yields_ret. }
  intros [r v2] H2. destruct (negb (r =? 0)); [by apply yields_ret, HS|].
  apply su_authenticated_yields; [done| |done]. intros t_caps name shell v' Hv'. by eapply Hs.
Qed.

End steps.

(** *** What the automaton ensures *)

(** How many of the conditions of a launch have been met in a phase. *)
Definition level (p : phase) : nat :=
  match p with
  | Authenticated => 1 | Permitted => 2 | Identified => 3 | Credentialed | Closed false | Deleted false => 4
  | Opened => 5 | Running | Closed true | Deleted true | Ended true => 6
  | Idle | Started | Refused | Ended false => 0
  end%nat.

(** The [n]th condition, in a log. *)
Definition met (n : nat) (l : list su_event) : Prop :=
  match n with
  | 1%nat => Asked Pam_authenticate PAM_SUCCESS ∈ l
  | 2%nat => Asked Pam_acct_mgmt PAM_SUCCESS ∈ l
  | 3%nat => exists uid, uid <> 0 /\ Became uid ∈ l
  | 4%nat => Asked (Pam_setcred PAM_ESTABLISH_CRED) PAM_SUCCESS ∈ l
  | 5%nat => Asked Pam_open_session PAM_SUCCESS ∈ l
  | 6%nat => exists path argv child, Launched path argv child ∈ l
  | _ => True
  end.

Lemma met_app n l l' : met n l -> met n (l ++ l')%list.
Proof.
  assert (forall e : su_event, e ∈ l -> e ∈ (l ++ l')%list) as H by (intros e He; apply elem_of_app; by left).
  destruct n as [|[|[|[|[|[|[|n]]]]]]]; cbn; auto.
  - intros (uid & ? & ?). eauto.
  - intros (path & argv & child & ?). eauto.
Qed.

(** One event raises the level by one at most, and then is what was missing. *)
Lemma next_phase_level p e q : next_phase p e = Some q ->
  (level q <= level p)%nat \/ (level q = S (level p) /\ met (level q) [e]).
Proof.
  assert (forall ret yes no, answered ret yes no = Some q -> (q = yes /\ ret = PAM_SUCCESS) \/ q = no) as Ha.
  { intros ret yes no [= <-]. destruct (Z.eqb_spec ret PAM_SUCCESS); auto. }
  destruct p as [| | | | | | | | |ran|ran|ran], e as [[]|uid|]; cbn [next_phase]; try done; intros H; repeat case_match; try done;
    try (apply Ha in H as [[-> ->]| ->]); try (injection H as <-); try (left; cbn; lia); try (left; destruct ran; cbn; lia).
  all: right; split; [reflexivity|]; cbn [level met]; try apply list_elem_of_singleton; try done.
  - exists uid. split; [by apply Z.eqb_neq|by apply list_elem_of_singleton].
  - match goal with H : (flags =? _) = true |- _ => by apply Z.eqb_eq in H as -> end.
  - do 3 eexists. by apply list_elem_of_singleton.
Qed.

Lemma phase_met l p n : phase_of l = Some p -> (n <= level p)%nat -> met n l.
Proof.
  revert p n. induction l as [|e l IH] using rev_ind; intros p n.
  - intros [= <-] Hn. assert (n = 0)%nat as -> by (cbn in Hn; lia). done.
  - rewrite phase_of_snoc. destruct (phase_of l) as [q|] eqn:E; [|done]. cbn. intros H Hn.
    destruct (next_phase_level _ _ _ H) as [Hl|[Hl Hm]]; [apply met_app, (IH q); [done|lia]|].
    destruct (decide (n = level p)) as [->|Hne]; [|apply met_app, (IH q); [done|lia]].
    clear -Hm. revert Hm. generalize (level p). intros m. destruct m as [|[|[|[|[|[|[|m]]]]]]]; cbn; try done; intros Hm.
    all: try (apply elem_of_app; by right).
    + destruct Hm as (uid & ? & ?). exists uid. split; [done|]. apply elem_of_app. by right.
    + destruct Hm as (path & argv & child & ?). exists path, argv, child. apply elem_of_app. by right.
Qed.

Lemma phase_from l p : foldl (fun p e => p ≫= fun p => next_phase p e) None l = Some p -> False.
Proof. by induction l. Qed.

(** A launch is not forgotten. *)
Lemma next_phase_ran p e q : next_phase p e = Some q -> level p = 6%nat -> level q = 6%nat.
Proof.
  destruct p as [| | | | | | | | |[]|[]|[]], e as [[]|uid|]; cbn [next_phase level]; try done; intros H _; repeat case_match; try done; by injection H as <-.
Qed.

(** Nothing but the end of the session follows it. *)
Lemma phase_launch l1 path argv child l2 p : phase_of (l1 ++ Launched path argv child :: l2)%list = Some p ->
  phase_of l1 = Some Opened /\ (p = Running \/ exists ret, Asked Pam_close_session ret ∈ l2) /\ level p = 6%nat.
Proof.
  unfold phase_of. rewrite foldl_app. cbn [foldl].
  destruct (foldl _ (Some Idle) l1) as [q|]; [|intros []%phase_from]. cbn [mbind option_bind].
  destruct (next_phase q _) as [q'|] eqn:E; [|intros []%phase_from].
  assert (q = Opened /\ q' = Running) as [-> ->] by (destruct q; cbn in E; try done; by injection E as <-). intros H. split; [done|]. split.
  - destruct l2 as [|e l2]; [left; by injection H|right]. cbn [foldl mbind option_bind] in H.
    destruct e as [[]|uid|]; cbn [next_phase] in H; try by apply phase_from in H. eexists. by left.
  - assert (level Running = 6%nat) as Hl by done. revert Hl H. generalize Running. clear.
    induction l2 as [|e l2 IH]; intros q Hq; cbn [foldl]; [by intros [= <-]|]. cbn [mbind option_bind].
    destruct (next_phase q e) as [q'|] eqn:E; [|intros []%phase_from]. apply IH. by eapply next_phase_ran.
Qed.

(** ** The theorems on runs *)

Section runs.
Context {K : Type} `{!Kernel K, !Process K, !Accounts K, !SuSystem K}.
Variable strerror : Z -> string.
Variable environ : list string.
Variable launch_callback retval_p handle : Z.
Variable turns : nat.
Implicit Types (w : world K) (v : su_vars).

(** C21 Whatever libpam, the kernel, libcap's memory and the user do, su keeps the
    order of requests libpam expects, from pam_start() to pam_end() (unless it could
    not even leave the user's reach: then it fails with 1 and no more is asked). It
    exits with 0 only after it launched a shell. And before a shell is launched
    libpam has accepted the user (pam_authenticate), their access (pam_acct_mgmt),
    their credentials and the session, and the process has become a user other than
    root; every session in which a shell ran is closed. *)
Theorem su_protocol argv w status v w' :
  su_run strerror environ launch_callback retval_p handle turns argv w = (Ok (status, v), w') ->
  ((phase_of (log v) = Some Started /\ status = 1) \/
   exists ran, phase_of (log v) = Some (Ended ran) /\ (status = 0 -> exists path args child, Launched path args child ∈ log v)) /\
  (forall l1 path args child l2, log v = (l1 ++ Launched path args child :: l2)%list ->
     Asked Pam_authenticate PAM_SUCCESS ∈ l1 /\ Asked Pam_acct_mgmt PAM_SUCCESS ∈ l1 /\
     (exists uid, uid <> 0 /\ Became uid ∈ l1) /\
     Asked (Pam_setcred PAM_ESTABLISH_CRED) PAM_SUCCESS ∈ l1 /\ Asked Pam_open_session PAM_SUCCESS ∈ l1 /\
     exists ret, Asked Pam_close_session ret ∈ l2).
Proof.
  intros H. assert ((phase_of (log v) = Some Started /\ status = 1) \/ ends (status, v)) as Hend.
  { refine (su_run_yields strerror environ launch_callback retval_p handle turns
      (fun x => (phase_of (log x.2) = Some Started /\ x.1 = 1) \/ ends x) argv _ _ _ _ _ _ H).
    - intros v' Hv. by left.
    - intros x Hx. right. by apply (ended_ends false 1).
    - intros is_login user command all t_caps name shell v' _ Hv. eapply yields_weaken; [by apply su_session_yields|]. by right. }
  split.
  - destruct Hend as [?|(ran & Hp & Hr)]; [by left|right]. exists ran. split; [done|]. intros H0.
    cbn [fst snd] in Hr, Hp. rewrite (Hr H0) in Hp. by apply (phase_met _ _ 6 Hp).
  - intros l1 path args child l2 E. assert (exists p, phase_of (log v) = Some p /\ p <> Running) as (p & Hp & Hne).
    { destruct Hend as [[Hp _]|(ran & Hp & _)]; eexists; (split; [exact Hp|done]). }
    rewrite E in Hp. destruct (phase_launch _ _ _ _ _ _ Hp) as (H1 & [?|H2] & _); [done|].
    pose proof (fun n => phase_met l1 Opened n H1) as Hm. cbn [level] in Hm.
    split_and!; [apply (Hm 1%nat)|apply (Hm 2%nat)|apply (Hm 3%nat)|apply (Hm 4%nat)|apply (Hm 5%nat)|done]; lia.
Qed.

(** C29 No login (`su -`) ever succeeds: the function that records it takes the
    address of its result for the result, so su gives up after libpam has granted
    everything, with 1 as its exit status, no shell and no session. *)
Theorem su_login_fails argv user command w status v w' :
  retval_p <> 0 -> parse_loop argv false None None = Parsed true (Some user) command ->
  su_run strerror environ launch_callback retval_p handle turns argv w = (Ok (status, v), w') ->
  status = 1 /\ forall path args child, Launched path args child ∉ log v.
Proof.
  intros Hp Hpl H. assert (status = 1 /\ exists p, phase_of (log v) = Some p /\ (p = Started \/ p = Ended false)) as (Hs & p & Hph & Hcase).
  { refine (su_run_yields strerror environ launch_callback retval_p handle turns
      (fun x => x.1 = 1 /\ exists p, phase_of (log x.2) = Some p /\ (p = Started \/ p = Ended false)) argv _ _ _ _ _ _ H).
    - intros v' Hv. split; [done|]. exists Started. split; [exact Hv|by left].
    - intros x [Hx Hst]. split; [cbn in Hst; destruct Hst as [|[]]; congruence|]. exists (Ended false). split; [exact Hx|by right].
    - intros is_login u c all t_caps name shell v' E Hv. rewrite Hpl in E. injection E as <- _ _.
      eapply yields_weaken; [by apply su_session_login|]. intros x [Hx Hst]. split; [destruct Hst as [|[]]; congruence|].
      exists (Ended false). split; [exact Hx|by right]. }
  split; [done|]. intros path args child (l1 & l2 & E)%list_elem_of_split. rewrite E in Hph.
  destruct (phase_launch _ _ _ _ _ _ Hph) as (_ & _ & Hl).
  by destruct Hcase as [->| ->].
Qed.

End runs.

(** ** The shell's arguments *)

(** A shell in the account database whose only white space are blanks and tabs. *)
Definition plain_shell (s : string) : Prop := no_nul s /\ all_chars (fun c => Bool.eqb (isspace c) (blank c)) s = true.

(** The path and the arguments for the words of the shell. *)
Definition shell_argv (login : bool) (command : option string) (ws : list string) : option (list string) :=
  let run := match command with Some c => if login then [] else ["-c"; c] | None => [] end in
  let default := if login then None else Some (DEFAULT_SHELL :: DEFAULT_SHELL :: run) in
  match ws with
  | [] => default
  | path :: args =>
      if Ascii.eqb (head path) "/" && (login || bool_decide (args = []))
      then Some (path :: (if login then String "-" path else path) :: args ++ run)%list
      else default
  end.

Section args.
Implicit Types (s t r : string).

Lemma plain_cons c s : plain_shell (String c s) <-> (is_nul c = false /\ isspace c = blank c) /\ plain_shell s.
Proof.
  unfold plain_shell. cbn [all_chars]. rewrite no_nul_cons, andb_true_iff, Bool.eqb_true_iff. tauto.
Qed.
Lemma plain_app s t : plain_shell (s ++ t) <-> plain_shell s /\ plain_shell t.
Proof. unfold plain_shell, no_nul. rewrite !all_chars_app, !andb_true_iff. tauto. Qed.

Lemma words_cons_delim f c s : f c = true -> words f (String c s) = words f s.
Proof. intros Hc. unfold words. cbn [split]. by rewrite Hc. Qed.

Lemma skip_spaces_span s : plain_shell s -> skip_spaces s = snd (span blank s).
Proof.
  induction s as [|c s IH]; [done|]. intros [[_ Hc] Hs]%plain_cons. cbn [skip_spaces span]. rewrite Hc.
  destruct (blank c); [|done]. rewrite IH by done. by destruct (span blank s).
Qed.
Lemma skip_spaces_plain s : plain_shell s -> plain_shell (skip_spaces s).
Proof.
  intros Hp. rewrite skip_spaces_span by done. destruct (span blank s) as [a b] eqn:E. destruct (span_spec _ _ _ _ E) as (-> & _).
  by apply plain_app in Hp as [_ ?].
Qed.
Lemma span_word s : plain_shell s -> span (fun c => negb (isspace c)) s = span (fun c => negb (blank c)) s.
Proof.
  induction s as [|c s IH]; [done|]. intros [[_ Hc] Hs]%plain_cons. cbn [span]. by rewrite Hc, IH.
Qed.

(** The words, one by one. *)
Lemma span_words s t r : plain_shell s -> at_end (skip_spaces s) = false -> span (fun c => negb (blank c)) (skip_spaces s) = (t, r) ->
  skip_spaces s = t ++ r /\ t <> "" /\ words blank s = t :: words blank r /\ plain_shell r /\ (String.length r < String.length s)%nat /\
  all_chars (fun c => negb (blank c)) t = true /\ match r with EmptyString => True | String c _ => blank c = true end.
Proof.
  intros Hp He Hs. rewrite skip_spaces_span in He, Hs |- * by done. rewrite words_skip.
  destruct (span blank s) as [a s1] eqn:E1. cbn [snd] in *. destruct (span_spec _ _ _ _ E1) as (-> & _ & Hb).
  apply plain_app in Hp as [_ Hp]. destruct (span_spec _ _ _ _ Hs) as (-> & Ht & Hr). apply plain_app in Hp as [Hpt Hpr].
  assert (t <> "") as Hne.
  { intros ->. destruct r as [|c r]; [done|]. cbn in Hb, Hr, He. by rewrite Hb in Hr. }
  assert (0 < String.length t)%nat as Hl by (destruct t; [done|cbn; lia]).
  rewrite !str_length_app. split_and!; try done; [|lia|].
  - destruct r as [|c r]; [by rewrite str_app_nil_r, words_last|]. apply negb_false_iff in Hr.
    by rewrite words_delim, words_cons_delim.
  - destruct r as [|c r]; [done|]. by apply negb_false_iff.
Qed.

Lemma words_blank s : plain_shell s -> at_end (skip_spaces s) = true -> words blank s = [].
Proof.
  intros Hp He. rewrite words_skip, <-skip_spaces_span by done. destruct (skip_spaces s) as [|c s'] eqn:E; [done|].
  pose proof (skip_spaces_plain _ Hp) as Hs. rewrite E in Hs. apply plain_cons in Hs as [[Hc _] _].
  unfold at_end in He. cbn in He. by rewrite Hc in He.
Qed.

Lemma first_word_head s t l : plain_shell s -> words blank s = t :: l -> head (skip_spaces s) = head t.
Proof.
  intros Hp Hw. destruct (at_end (skip_spaces s)) eqn:Ea; [by rewrite words_blank in Hw|].
  destruct (span (fun c => negb (blank c)) (skip_spaces s)) as [t' r] eqn:Et.
  destruct (span_words _ _ _ Hp Ea Et) as (-> & Hne & E & _). rewrite E in Hw. injection Hw as <- _. by destruct t'.
Qed.

Lemma count_args_run fuel s tmpb n : plain_shell s -> (String.length s < fuel)%nat ->
  count_args fuel s tmpb n =
    (match tmpb with Some b => Some b | None => if at_end s then None else Some (skip_spaces s) end, (n + List.length (words blank s))%nat).
Proof.
  revert s tmpb n. induction fuel as [|fuel IH]; intros s tmpb n Hp Hf; [lia|]. cbn [count_args].
  destruct (at_end s) eqn:Es.
  { destruct s as [|c s]; [cbn; by rewrite Nat.add_0_r; destruct tmpb|]. apply plain_cons in Hp as [[Hc _] _].
    unfold at_end in Es. cbn in Es. by rewrite Hc in Es. }
  destruct (at_end (skip_spaces s)) eqn:Ea.
  { rewrite words_blank by done. cbn [List.length]. rewrite Nat.add_0_r. by destruct tmpb. }
  rewrite span_word by by apply skip_spaces_plain.
  destruct (span _ (skip_spaces s)) as [t r] eqn:Et. destruct (span_words _ _ _ Hp Ea Et) as (_ & _ & -> & Hr & Hl & _).
  cbn [snd List.length]. rewrite IH by (done || lia). destruct tmpb; (f_equal; lia).
Qed.

Context {K : Type}.
Implicit Types (w : world K) (args : list (option string)) (command : option string).

(** The array is filled from its start on. *)
Lemma put_arg_next i args m x w : i = List.length args -> put_arg (K := K) i x (args ++ replicate (S m) None)%list w = (Ok ((args ++ [x]) ++ replicate m None)%list, w).
Proof.
  intros ->. unfold put_arg. rewrite length_app, length_replicate. destruct (Nat.ltb_spec (List.length args) (List.length args + S m)); [|lia].
  rewrite insert_app_r_alt, Nat.sub_diag by lia. cbn [replicate]. by rewrite <-app_assoc.
Qed.

Lemma add_args_run fuel rest i args m w :
  no_nul rest -> (String.length rest < fuel)%nat -> S i = List.length args ->
  let ws := words blank rest in
  add_args (K := K) fuel rest i (args ++ replicate (List.length ws + m) None)%list w =
    (Ok ((i + List.length ws)%nat, (args ++ map Some ws) ++ replicate m None)%list, w).
Proof.
  revert rest i args. induction fuel as [|fuel IH]; intros rest i args Hn Hf Hi; [lia|]. cbn [add_args].
  pose proof (strtok_words blank rest Hn) as H. destruct (strtok blank rest) as [[t r]|].
  - destruct H as (-> & Hr & _ & _ & Hl). cbn [List.length Nat.add map].
    rewrite (bind_ok _ _ _ _ _ (put_arg_next _ _ _ _ _ Hi)), IH by (rewrite ?length_app; cbn; (done || lia)).
    cbn zeta. rewrite <-!app_assoc. cbn [app]. do 3 f_equal. lia.
  - rewrite H. cbn. by rewrite app_nil_r, Nat.add_0_r.
Qed.

Lemma c_array_list l args : c_array (map Some l ++ None :: args)%list = Some l.
Proof. induction l as [|s l IH]; [done|]. cbn. by rewrite IH. Qed.

(** The words of the line that is taken apart. *)
Lemma line_words tmpb path ws command : head tmpb = "/"%char -> words blank tmpb = path :: ws ->
  words blank (String "-" tmpb ++ match command with Some _ => " -c" | None => "" end) =
    (String "-" path :: ws ++ match command with Some _ => ["-c"] | None => [] end)%list.
Proof.
  intros Hh Hw. assert (words blank (String "-" tmpb) = String "-" path :: ws) as E.
  { unfold words in Hw |- *. cbn [split]. change (blank "-") with false. cbn iota. destruct (split_cons blank tmpb) as (t & r & Es).
    rewrite Es in Hw |- *. destruct tmpb as [|c tmpb]; [done|]. cbn in Hh. subst c. cbn [split] in Es. change (blank "/") with false in Es.
    cbn iota in Es. destruct (split blank tmpb) as [|t' r']; [done|]. injection Es as <- <-. cbn in Hw |- *. by injection Hw as <- <-. }
  destruct command as [c|]; [|by rewrite str_app_nil_r, app_nil_r].
  rewrite (words_app blank (String "-" tmpb) " " "-c") by done. by rewrite E.
Qed.

Lemma fill_shell_args_run tmpb path ws login command w :
  no_nul tmpb -> head tmpb = "/"%char -> words blank tmpb = path :: ws ->
  let n := match command with Some _ => (S (List.length ws) + 2)%nat | None => S (List.length ws) end in
  exists args, fill_shell_args (K := K) tmpb n login command w = (Ok (Some args), w) /\
    c_array args = Some (path :: (if login then String "-" path else path) :: ws ++ match command with Some c => ["-c"; c] | None => [] end)%list.
Proof.
  intros Hn Hh Hw n. unfold fill_shell_args. set (line := String "-" tmpb ++ match command with Some _ => " -c" | None => "" end).
  erewrite (bind_ok (assert_ub _)); [|apply assert_ub_run].
  2:{ apply Z.leb_le. unfold line, strlen. rewrite str_length_app. cbn [String.length]. destruct command; cbn; lia. }
  assert (no_nul line) as Hnl by (apply no_nul_app; split; [apply no_nul_cons; by split|by destruct command]).
  pose proof (strtok_words blank line Hnl) as H. rewrite (line_words _ _ _ command Hh Hw : words blank line = _) in H.
  destruct (strtok blank line) as [[t r]|]; [|done]. cbn [default]. destruct H as ([= <- Hr] & Hnr & _).
  set (cmd := match command with Some _ => 1%nat | None => 0%nat end).
  assert (replicate (2 + n) None = [] ++ replicate (S (S (List.length (words blank r) + S cmd))) None :> list (option string))%list as ->.
  { cbn [app]. f_equal. rewrite <-Hr. unfold n, cmd. rewrite length_app. by destruct command; cbn; lia. }
  cbn beta iota zeta delta [id].
  rewrite (bind_ok _ _ _ _ _ (put_arg_next 0 [] _ _ _ eq_refl)), (app_nil_l [_]).
  rewrite (bind_ok _ _ _ _ _ (put_arg_next 1 [_] _ _ _ eq_refl)). cbn [tail].
  rewrite (bind_ok _ _ _ _ _ (add_args_run _ _ 1 ([_] ++ [_]) (S cmd) _ Hnr (Nat.lt_succ_diag_r _) eq_refl)). rewrite <-Hr.
  set (full := (_ ++ map Some _)%list). assert (S (1 + List.length (ws ++ match command with Some _ => ["-c"] | None => [] end)) = List.length full)%nat as Hi.
  { unfold full. by rewrite (length_app ([_] ++ [_])), length_map. }
  destruct command as [c|]; cbn [app] in cmd.
  - rewrite bind_bind, (bind_ok _ _ _ _ _ (put_arg_next _ _ 1 _ _ Hi)), (bind_ok _ _ _ _ _ (ret_run _ _)).
    assert (S (S (1 + List.length (ws ++ ["-c"]))) = List.length (full ++ [Some c]))%nat as Hi2 by (rewrite (length_app full), <-Hi; cbn; lia).
    rewrite (bind_ok _ _ _ _ _ (put_arg_next _ _ 0 _ _ Hi2)). eexists. split; [done|].
    rewrite <-(c_array_list _ []). f_equal. unfold full. cbn. by rewrite !map_app, <-!app_assoc.
  - rewrite (bind_ok _ _ _ _ _ (ret_run _ _)), (bind_ok _ _ _ _ _ (put_arg_next _ _ 0 _ _ Hi)). eexists. split; [done|].
    rewrite <-(c_array_list _ []). f_equal. unfold full. by rewrite !app_nil_r.
Qed.
Lemma user_shell_args_run tmpb path ws login command w :
  mem_plenty w -> no_nul tmpb -> head tmpb = "/"%char -> words blank tmpb = path :: ws ->
  exists args, user_shell_args (K := K) tmpb (S (List.length ws)) login command w = (Ok (Some args), w) /\
    c_array args = Some (path :: (if login then String "-" path else path) :: ws ++ match command with Some c => ["-c"; c] | None => [] end)%list.
Proof.
  intros Hm Hn Hh Hw. unfold user_shell_args. rewrite (bind_ok _ _ _ _ _ (libc_alloc_plenty _ Hm)). cbn [negb].
  rewrite (bind_ok _ _ _ _ _ (libc_alloc_plenty _ Hm)). by apply fill_shell_args_run.
Qed.
Lemma default_shell_args_run command w : mem_plenty w ->
  exists args, default_shell_args (K := K) command w = (Ok (Some args), w) /\
    c_array args = Some (DEFAULT_SHELL :: DEFAULT_SHELL :: match command with Some c => ["-c"; c] | None => [] end).
Proof.
  intros Hm. unfold default_shell_args. rewrite (bind_ok _ _ _ _ _ (libc_alloc_plenty _ Hm)). cbn [negb].
  eexists. split; [done|]. by destruct command.
Qed.

(** What the counting loop leads to. *)
Lemma build_shell_args_step shell login command w : plain_shell shell ->
  build_shell_args (K := K) (Some shell) login command w =
    (let command := if login then None else command in
     match words blank shell with
     | path :: ws =>
         if Ascii.eqb (head path) "/" && (login || bool_decide (ws = []))
         then user_shell_args (skip_spaces shell) (S (List.length ws)) login command
         else if login then mret None else default_shell_args command
     | [] => if login then mret None else default_shell_args command
     end) w.
Proof.
  intros Hp. unfold build_shell_args. destruct (at_end shell) eqn:Es.
  { destruct shell as [|c s]; [done|]. apply plain_cons in Hp as [[Hc _] _]. unfold at_end in Es. cbn in Es. by rewrite Hc in Es. }
  rewrite count_args_run by (done || lia). rewrite Es. cbn [Nat.add]. destruct (at_end (skip_spaces shell)) eqn:Ea.
  - rewrite (words_blank _ Hp Ea). destruct (skip_spaces shell) as [|c s] eqn:E; [done|].
    pose proof (skip_spaces_plain _ Hp) as Hs. rewrite E in Hs. apply plain_cons in Hs as [[Hc _] _]. unfold at_end in Ea. cbn in Ea. by rewrite Hc in Ea.
  - destruct (span (fun c => negb (blank c)) (skip_spaces shell)) as [t r] eqn:Et.
    destruct (span_words _ _ _ Hp Ea Et) as (E & Hne & -> & _). rewrite E. destruct t as [|c t]; [done|]. cbn [head String.append].
    by destruct (words blank r).
Qed.


End args.
