(* ===== verification/SuTotal.v ===== *)
(** su ends: whatever libpam, libcap's memory and the system answer, main() runs to
    its end or to an early exit, and never uses a variable before it is assigned,
    a NULL pointer or an array outside its bounds. *)

From Stdlib Require Import ZArith Lia String Ascii.
From stdpp Require Import gmap list.
From S2P Require Import Prelude Capability World Exec Syscall Alloc Flag Proc Text TextLex TextSpec KernelLaws IabProcSpec Launch LaunchSpec CLib ProgSpec ApiSpec Progress ProgressApi Su SuSpec.

Open Scope string_scope.
Open Scope Z_scope.

Section total.
Context {K : Type} `{!Kernel K, !Process K, !Accounts K, !SuSystem K, !KernelLaws K, !WordLaws K, !ProcessLaws K, D : !ProcDir}.
Variable strerror : Z -> string.
Variable environ : list string.
Variable launch_callback retval_p handle : Z.
Variable turns : nat.
Implicit Types (v : su_vars) (all p : Z) (h : shape) (w : world K).

(** main()'s [retval] has been assigned. *)
Definition assigned v : Prop := retval v <> None.
(** A function returns variables with [retval] assigned if it was. *)
Definition passes {A} v (f : A -> su_vars) (x : A) : Prop := assigned v -> assigned (f x).

(** What is left of a function once [go] has run: the variables. *)
Ltac vars := unfold passes, assigned in *; cbn in *; try naive_solver.

(** *** Requests *)

Lemma steady_print s : steady (print (K := K) s) (fun _ => True).
Proof. apply steady_beside. intros w. by eexists _, _. Qed.
Lemma steady_ask r : steady (ask (K := K) r) (fun _ => True).
Proof. apply (steady_kst_ret (fun k => su_request k r)). Qed.
Lemma steady_su_fstat fd : steady (fstat (K := K) fd) (fun _ => True).
Proof.
  apply steady_beside. intros w. unfold fstat. destruct (su_fstat (kst w) fd) as [n uid]. unfold libc_ret, mbind, M_bind. destruct (n <? 0); by eexists _, _.
Qed.
Lemma steady_pam r v : steady (pam (K := K) r v) (passes v snd).
Proof. apply steady_beside. intros w. unfold pam. destruct (pam_call (kst w) r) as [ret k]. eexists _, _. split; [done|]. split; [intros H; exact H|done]. Qed.
#[local] Hint Resolve steady_print steady_ask steady_su_fstat steady_pam : goes.
Lemma steady_get_item item : steady (get_item (K := K) item) (fun _ => True).
Proof. apply steady_gets. Qed.
Lemma steady_perror s : steady (perror (K := K) strerror s) (fun _ => True).
Proof. intros E h. unfold perror, get_errno. by go. Qed.
Lemma steady_report v : steady (report (K := K) v) (fun _ => True).
Proof. intros E h. unfold report. by go. Qed.
Lemma steady_failed place v : steady (failed_at (K := K) strerror place v) (passes v id).
Proof. intros E h. unfold failed_at, get_errno. go. vars. Qed.
Lemma steady_strdup s : steady (strdup (K := K) s) (fun _ => True).
Proof. intros E h. unfold strdup. by go. Qed.
#[local] Hint Resolve steady_get_item steady_perror steady_report steady_failed steady_strdup : goes.

Lemma steady_transcribe names v : steady (transcribe (K := K) names v) (passes v snd).
Proof. revert v. induction names as [|n names IH]; intros v E h; cbn [transcribe]; go; vars. Qed.
#[local] Hint Resolve steady_transcribe : goes.
Lemma steady_make_environment keep v : steady (make_environment (K := K) environ keep v) (passes v snd).
Proof. intros E h. unfold make_environment. go; vars. Qed.
Lemma steady_set_known item value v : steady (set_known (K := K) item value v) (passes v snd).
Proof. intros E h. unfold set_known. go; vars. Qed.
Lemma steady_sigactions signos act : steady (sigactions (K := K) signos act) (fun _ => True).
Proof. induction signos as [|s signos IH]; intros E h; cbn [sigactions]; go; vars. Qed.
Lemma steady_any_fails reqs : steady (any_fails (K := K) reqs) (fun _ => True).
Proof. induction reqs as [|r reqs IH]; intros E h; cbn [any_fails]; go; vars. Qed.
#[local] Hint Resolve steady_make_environment steady_set_known steady_sigactions steady_any_fails : goes.
Lemma steady_check_fd n : steady (check_fd (K := K) n) (fun _ => True).
Proof. intros E h. unfold check_fd. go; vars. Qed.
Lemma steady_restore_modes v : steady (restore_terminal_modes (K := K) strerror v) (fun _ => True).
Proof. intros E h. unfold restore_terminal_modes. go; vars. Qed.
Lemma steady_prepare need v : steady (prepare_for_job_control (K := K) need v) (passes v id).
Proof. intros E h. unfold prepare_for_job_control. go; vars. Qed.
Lemma steady_intercept v : steady (intercept_signals (K := K) v) (passes v id).
Proof. intros E h. unfold intercept_signals. cbv zeta. go; vars. Qed.
Lemma steady_write_wtmp u v : steady (write_wtmp (K := K) strerror u v) (passes v snd).
Proof. intros E h. unfold write_wtmp. go; vars. Qed.
#[local] Hint Resolve steady_check_fd steady_restore_modes steady_prepare steady_intercept steady_write_wtmp : goes.
Lemma steady_set_user_env login user dir v : steady (set_user_env (K := K) login user dir v) (passes v snd).
Proof. intros E h. unfold set_user_env. go; vars. Qed.
Lemma steady_find_home user v : steady (find_home (K := K) user v) (passes v snd).
Proof. intros E h. unfold find_home. go; vars. Qed.
Lemma steady_no_home_dir home : steady (no_home_dir (K := K) home) (fun _ => True).
Proof. intros E h. unfold no_home_dir. pose proof steady_chdir as H. go; vars. Qed.
#[local] Hint Resolve steady_set_user_env steady_find_home steady_no_home_dir : goes.
(** A login stops before its records are looked for. *)
Lemma steady_utmp_open pid v : retval_p <> 0 -> steady (utmp_open_session (K := K) strerror retval_p pid v) (fun x => x.1 = -1 /\ assigned x.2).
Proof.
  intros Hp E h. unfold utmp_open_session. apply Z.eqb_neq in Hp. change PAM_SUCCESS with 0. rewrite Hp. go; vars.
Qed.

(** *** Calls of libcap: the sets of capabilities that are made are released, but for
    those main() keeps *)

Lemma goes_null {A} E h (m : M K A) Q : (h !! 0 = None -> goes E h m Q) -> goes E h m Q.
Proof. intros H w Hw. apply H; [by eapply fit_0|done]. Qed.
Lemma goes_set_caps E h p : unlocked h p -> goes E h (cap_set_proc (K := K) p) (fun _ h' => h' = h).
Proof. apply goes_set_proc. Qed.
Lemma goes_change_user E h uid : goes E h (cap_setuid (K := K) uid) (fun _ h' => h' = h).
Proof. apply goes_setuid. Qed.
#[local] Hint Resolve goes_set_caps goes_change_user : goes.
(** A copy of the process's set, and a copy of that. *)
Ltac borrow :=
  (eapply goes_make; [apply goes_get_proc| |intros ? ? ? ?]);
  (eapply goes_make; [apply goes_cap_dup; eauto with goes| |intros ? ? ? ?]); go; vars.

Lemma goes_change_owner E h uid is_login v : goes E h (change_terminal_owner (K := K) strerror uid is_login v) (fun x h' => h' = h /\ passes v snd x).
Proof.
  apply goes_null. intros H0. unfold change_terminal_owner, get_errno. destruct (_ && _); [|go; vars].
  eapply goes_then; [apply steady_su_fstat|intros [r u] _]. destruct (negb (r =? 0)); [go; vars|]. borrow.
Qed.
Lemma goes_restore_owner E h v : goes E h (restore_terminal_owner (K := K) strerror v) (fun x h' => h' = h /\ passes v id x).
Proof. apply goes_null. intros H0. unfold restore_terminal_owner. destruct (negb _); [borrow|go; vars]. Qed.
Lemma goes_raise_setgid E h : goes E h (raise_setgid (K := K)) (fun _ h' => h' = h).
Proof.
  apply goes_null. intros H0. unfold raise_setgid. eapply goes_make; [apply goes_get_proc| |intros p Hp Hb Hn]; by go.
Qed.
Lemma goes_unkillable E h v : goes E h (make_process_unkillable (K := K) strerror v) (fun x h' => h' = h).
Proof. unfold make_process_unkillable. cbv zeta. by go. Qed.
Lemma goes_killable E h v : goes E h (make_process_killable (K := K) v) (fun x h' => h' = h).
Proof. unfold make_process_killable. by go. Qed.
#[local] Hint Resolve goes_raise_setgid goes_unkillable goes_killable : goes.

(** *** libpam, with all capabilities [all] *)

Lemma goes_authenticate E h all v : unlocked h all -> goes E h (authenticate_user (K := K) all v) (fun x h' => h' = h /\ assigned x.2).
Proof. intros Hu. unfold authenticate_user. cbv zeta. go; vars. Qed.
Lemma goes_accounting E h all v : unlocked h all -> assigned v -> goes E h (user_accounting (K := K) all v) (fun x h' => h' = h /\ assigned x.2).
Proof. intros Hu Hv. unfold user_accounting. cbv zeta. go; vars. Qed.
Lemma goes_become E h all pw v : unlocked h all -> goes E h (become (K := K) all pw v) (fun x h' => h' = h /\ assigned x.2).
Proof. intros Hu. unfold become. cbv zeta. go; vars. Qed.
(** Every account has a shell of that kind. *)
Definition shells_plain : Prop := forall (k : K) user pw, getpwnam k user = Some pw -> plain_shell (pw_shell pw).
Lemma goes_set_credentials E h all login v : unlocked h all -> assigned v ->
  goes E h (set_credentials (K := K) all login v)
    (fun x h' => h' = h /\ assigned x.2 /\ (shells_plain -> x.1.1 = 0 -> plain_shell x.1.2.2)).
Proof.
  intros Hu Hv. unfold set_credentials. cbv zeta. eapply goes_then; [apply steady_get_item|intros [ret user] _].
  destruct (if ret =? PAM_SUCCESS then user else None) as [user'|]; [|go; vars]. destruct (at_end user'); [go; vars|].
  apply (goes_bind _ _ _ _ (fun x h' => h' = h /\ forall pw, x = Some pw -> shells_plain -> plain_shell (pw_shell pw))).
  { intros w Hw. exists h. split; [done|]. split; [done|]. intros pw Hpw Hs. by eapply Hs. }
  intros [pw|] h' [-> Hpw]; [|go; vars]. specialize (Hpw _ eq_refl). eapply goes_then; [apply steady_strdup|intros [name|] _]; [|go; vars].
  destruct (pw_uid pw =? 0); [go; vars|].
  apply (goes_bind _ _ _ _ (fun x h' => h' = h /\ forall s, x = Some s -> s = pw_shell pw)).
  { unfold strdup. go; vars. }
  intros [shell|] h' [-> Hshell]; [|go; vars]. rewrite (Hshell _ eq_refl). go; vars.
  eapply goes_bind; [by apply goes_become|]. intros [r v'] h' [-> Hv']. go; vars.
Qed.
Lemma goes_open_session E h all v : unlocked h all -> assigned v -> goes E h (open_session (K := K) all v) (fun x h' => h' = h /\ assigned x.2).
Proof. intros Hu Hv. unfold open_session. cbv zeta. go; vars. Qed.
Lemma goes_close_session E h all v : unlocked h all -> assigned v -> goes E h (close_session (K := K) all v) (fun x h' => h' = h /\ assigned x).
Proof. intros Hu Hv. unfold close_session. go; vars. Qed.
Lemma goes_auth_exit E h status v : assigned v -> goes E h (auth_exit (K := K) strerror status v) (fun _ h' => h' = h).
Proof. intros Hv. unfold auth_exit. cbv zeta. unfold assigned in Hv. destruct (retval v) as [ret|]; [go; vars|done]. Qed.
#[local] Hint Resolve goes_auth_exit : goes.
Lemma goes_delete_cred E h all status v : unlocked h all -> assigned v -> goes E h (delete_cred (K := K) strerror all status v) (fun _ h' => h' = h).
Proof.
  intros Hu Hv. unfold delete_cred. go; vars.
  all: eapply goes_bind; [apply goes_restore_owner|]; intros v' h' [-> Hv']; apply goes_auth_exit; vars.
Qed.

(** *** Waiting *)

(** [n] waits in a row are broken off by a signal - or return 0, which waitpid(2)
    without WNOHANG does not. *)
Fixpoint interrupted (n : nat) (child : Z) (k : K) : bool :=
  match n with
  | O => true
  | S n => let '(r, _, _, k') := su_waitpid k child in if (r =? 0) || (r =? - EINTR) then interrupted n child k' else false
  end.

(** A wait: the result, the variables, and what it leaves in errno. *)
Lemma waitpid_run child v w : let '(r, status, caught, k') := su_waitpid (kst w) child in
  exists v' e, waitpid child v w = (Ok (if r <? 0 then -1 else r, status, v'), with_errno e (with_kst k' w)) /\
    retval v' = retval v /\ (r < 0 -> e = - r).
Proof.
  unfold waitpid. destruct (su_waitpid (kst w) child) as [[[r status] caught] k']. unfold libc_ret. destruct (Z.ltb_spec r 0).
  - exists (if caught then with_caught true v else v), (- r). split; [done|]. by destruct caught.
  - exists (if caught then with_caught true v else v), (errno w). split; [by destruct w|]. split; [by destruct caught|lia].
Qed.

Definition waited {A} (f : A -> su_vars) v (m : M K A) w : Prop := exists a w', m w = (Ok a, w') /\ retval (f a) = retval v /\
  heap w' = heap w /\ next w' = next w /\ same_start (glob w) (glob w').
Lemma wait_loop_ends n child v w : interrupted n child (kst w) = false -> waited snd v (wait_loop (K := K) n child v) w.
Proof.
  revert v w. induction n as [|n IH]; intros v w Hi; [done|]. cbn [wait_loop interrupted] in *.
  destruct (wait_for_child_caught v); [by eexists _, _|].
  pose proof (waitpid_run child v w) as Hr. destruct (su_waitpid (kst w) child) as [[[r status] caught] k'].
  destruct Hr as (v' & e & Hr & Hv & He). unfold waited. rewrite (bind_ok _ _ _ _ _ Hr). cbv beta iota. unfold get_errno. destruct (Z.leb_spec (if r <? 0 then -1 else r) 0) as [Hn|Hn].
  - rewrite (bind_ok _ _ _ _ _ (gets_run _ _)). cbn [errno with_errno]. destruct (Z.eqb_spec e EINTR) as [Hint|Hint].
    + destruct ((r =? 0) || (r =? - EINTR)) eqn:Eb.
      * destruct (IH v' (with_errno e (with_kst k' w)) Hi) as (a & w' & -> & Ha & ? & ? & ?). eexists _, _. split; [done|]. split; [congruence|]. done.
      * exfalso. apply orb_false_iff in Eb as [E1 E2]. apply Z.eqb_neq in E1, E2. destruct (Z.ltb_spec r 0); [|lia]. specialize (He ltac:(done)). subst e. lia.
    + eexists _, _. split; [done|]. split; [exact Hv|done].
  - eexists _, _. split; [done|]. split; [exact Hv|done].
Qed.
Lemma collect_loop_ends n child v w : interrupted n child (kst w) = false -> waited snd v (collect_loop (K := K) n child v) w.
Proof.
  revert v w. induction n as [|n IH]; intros v w Hi; [done|]. cbn [collect_loop interrupted] in *.
  pose proof (waitpid_run child v w) as Hr. destruct (su_waitpid (kst w) child) as [[[r status] caught] k'].
  destruct Hr as (v' & e & Hr & Hv & He). unfold waited, get_errno. rewrite (bind_ok _ _ _ _ _ Hr). cbv beta iota. rewrite (bind_ok _ _ _ _ _ (gets_run _ _)). cbn [errno with_errno].
  destruct (Z.eqb_spec (if r <? 0 then -1 else r) (-1)) as [Hn|Hn], (Z.eqb_spec e EINTR) as [Hint|Hint]; cbn [andb];
    try (eexists _, _; split; [done|]; split; [exact Hv|done]).
  destruct (Z.ltb_spec r 0); [|lia]. specialize (He ltac:(done)). destruct (Z.eqb_spec r (- EINTR)); [|lia]. rewrite orb_true_r in Hi.
  destruct (IH v' (with_errno e (with_kst k' w)) Hi) as (a & w' & -> & Ha & ? & ? & ?). eexists _, _. split; [done|]. split; [congruence|]. done.
Qed.

(** No wait is broken off [turns] times in a row. *)
Definition waits_end : Prop := forall child k, interrupted turns child k = false.
Lemma steady_waits {A} (f : A -> su_vars) v (m : M K A) : (forall w, waited f v m w) -> steady m (passes v f).
Proof.
  intros Hm. apply steady_beside. intros w. destruct (Hm w) as (a & w' & -> & Ha & ? & ? & ?). exists a, w'. split; [done|]. split; [|done].
  unfold passes, assigned. by rewrite Ha.
Qed.
Lemma steady_wait_for_child child v : waits_end -> steady (wait_for_child (K := K) strerror turns child v) (passes v snd).
Proof.
  intros Hw. assert (forall v, steady (wait_loop (K := K) turns child v) (passes v snd)) as H1 by (intros v1; apply steady_waits; intros w; apply wait_loop_ends, Hw).
  assert (forall v, steady (collect_loop (K := K) turns child v) (passes v snd)) as H2 by (intros v1; apply steady_waits; intros w; apply collect_loop_ends, Hw).
  intros E h. unfold wait_for_child. go; vars.
Qed.

(** *** The shell *)

(** The vector is there, or there is no memory for it, or no shell for a login. *)
Definition shell_vector (o : option (list (option string))) : Prop :=
  forall args, o = Some args -> exists path argv, c_array args = Some (path :: argv).

Lemma steady_two_allocs {A} (m : M K (option A)) P : P None -> steady m P -> 
  steady (ok ← libc_alloc; if negb ok then set_errno ENOMEM;; mret None else ok ← libc_alloc; if negb ok then set_errno ENOMEM;; mret None else m) P.
Proof. intros HN Hm E h. go; vars. Qed.
Lemma steady_default_args command : steady (default_shell_args (K := K) command) shell_vector.
Proof. intros E h. unfold default_shell_args. go; unfold shell_vector; vars; split; try done; intros args [= <-]; destruct command; cbn; eauto. Qed.
Lemma steady_user_args tmpb path ws login command : no_nul tmpb -> head tmpb = "/"%char -> words blank tmpb = path :: ws ->
  steady (user_shell_args (K := K) tmpb (S (List.length ws)) login command) shell_vector.
Proof.
  intros Hn Hh Hw. unfold user_shell_args. apply steady_two_allocs; [by intros args|]. apply steady_beside. intros w.
  destruct (fill_shell_args_run tmpb path ws login command w Hn Hh Hw) as (args & Hr & Hc). eexists _, _. split; [exact Hr|]. split; [|done].
  intros args' [= <-]. eauto.
Qed.
Lemma steady_build_args shell login command : plain_shell shell -> steady (build_shell_args (K := K) (Some shell) login command) shell_vector.
Proof.
  intros Hp E h w Hw. rewrite (build_shell_args_step _ _ _ _ Hp). cbv zeta.
  assert (forall o : option string, steady (if login then mret None else default_shell_args (K := K) o) shell_vector) as Hd.
  { intros o. destruct login; [by apply steady_ret|apply steady_default_args]. }
  destruct (words blank shell) as [|path ws] eqn:Ew; [by apply Hd|]. destruct (_ && _) eqn:Eb; [|by apply Hd].
  apply andb_true_iff in Eb as [Hh _]. apply (steady_user_args _ path); [by apply skip_spaces_plain| | |done].
  - rewrite (first_word_head _ _ _ Hp Ew). by apply Ascii.eqb_eq.
  - by rewrite skip_spaces_span, <-words_skip.
Qed.

(** *** The launch *)

Lemma freed_launcher h p : h !! 0 = None -> p <> 0 -> h !! p = None -> freed (<[p := KLaunch false 0 0]> h) p = h.
Proof.
  intros H0 Hp Hn. unfold freed. rewrite lookup_insert_eq, !(delete_id _ 0); [by rewrite delete_insert_id|..]; by rewrite ?lookup_delete_eq, ?lookup_insert_ne.
Qed.
Lemma goes_launch_and_wait E h all is_login command path argv env v : waits_end -> unlocked h all -> assigned v ->
  goes E h (launch_and_wait (K := K) strerror launch_callback handle turns all is_login command path argv env v) (fun x h' => h' = h /\ assigned x.2).
Proof.
  intros Hw Hu Hv. pose proof (fun child v => steady_wait_for_child child v Hw) as Hwait. apply goes_null. intros H0. unfold launch_and_wait.
  eapply goes_make; [apply goes_new_launcher|go; vars|]. intros p Hp Hb Hn. rewrite Hb.
  eapply goes_same; [apply goes_launcher_set; [|done]; eauto with goes|intros _].
  eapply goes_same; [apply goes_launch; [eauto with goes|]|intros [child ended]].
  { intros i r. rewrite lookup_insert_eq. intros [= <- <-]. split; by left. }
  cbv zeta. eapply goes_bind; [apply goes_free|intros _ h' ->].
  { intros κ. rewrite lookup_insert_eq. intros [= <-]. split; by left. }
  rewrite freed_launcher by done. go; vars.
Qed.
Lemma goes_perform_launch E h all is_login user shell command v : waits_end -> plain_shell shell -> unlocked h all -> assigned v ->
  goes E h (perform_launch_and_cleanup (K := K) strerror launch_callback handle turns all is_login user shell command v)
    (fun x h' => unlocked h' all /\ assigned x.2).
Proof.
  intros Hw Hs Hu Hv. unfold perform_launch_and_cleanup.
  assert (forall args env v', shell_vector (Some args) -> assigned v' -> goes E h (iab ← cap_iab_get_proc;
    if iab =? 0 then mret (PAM_SYSTEM_ERR, v')
    else match c_array args with
         | Some (path :: argv) => launch_and_wait strerror launch_callback handle turns all is_login command path argv env v'
         | _ => fault
         end) (fun x h' => unlocked h' all /\ assigned x.2)) as Hlaunch.
  { intros args env v' Hv1 Hv'. destruct (Hv1 _ eq_refl) as (path & argv & E1). rewrite E1. eapply goes_make; [apply goes_iab_get_proc|by go|]. intros p Hp Hb Hn. rewrite Hb.
    eapply goes_weaken; [apply goes_launch_and_wait; eauto with goes|]. intros x h' [-> Hx]. split; [eauto with goes|done]. }
  eapply goes_then; [by apply steady_build_args|]. intros o Ho. go; vars; try by split.
  all: apply Hlaunch; vars.
Qed.

(** *** The rest of main() *)

Lemma goes_utmp_closer E h all status v : unlocked h all -> assigned v -> goes E h (utmp_closer (K := K) strerror all false status v) (fun _ h' => True).
Proof. intros Hu Hv. unfold utmp_closer. eapply goes_weaken; [by apply goes_delete_cred|done]. Qed.
Lemma goes_session E h all t_caps (is_login : bool) user shell command v :
  retval_p <> 0 -> (is_login = false -> plain_shell shell /\ waits_end) -> unlocked h all -> unlocked h t_caps -> assigned v ->
  goes E h (su_session (K := K) strerror launch_callback retval_p handle turns all t_caps is_login user shell command v) (fun _ _ => True).
Proof.
  intros Hp Hs Hu Ht Hv. unfold su_session. eapply goes_then; [apply steady_gets|intros pid _]. destruct is_login.
  - eapply goes_then; [by apply steady_utmp_open|]. intros [n v1] [E1 Hv1]. cbn in E1, Hv1. subst n. change (-1 <? 0) with true. cbv iota.
    eapply goes_weaken; [by apply goes_delete_cred|done].
  - destruct Hs as [Hs Hw]; [done|]. apply goes_ret_bind. change (0 <? 0) with false. cbv beta iota. apply goes_ret_bind.
    eapply goes_bind; [by apply goes_open_session|]. intros [r v1] h1 [-> Hv1]. destruct (negb (r =? 0)); [by apply goes_utmp_closer|].
    eapply goes_bind; [by apply goes_perform_launch|]. intros [status v2] h2 [Hu2 Hv2].
    eapply goes_bind; [by apply goes_close_session|]. intros v3 h3 [-> Hv3]. by apply goes_utmp_closer.
Qed.
Lemma goes_as_user E h all (is_login : bool) user shell uid command v :
  retval_p <> 0 -> (is_login = false -> plain_shell shell /\ waits_end) -> unlocked h all -> assigned v ->
  goes E h (su_as_user (K := K) strerror launch_callback retval_p handle turns all is_login user shell uid command v) (fun _ _ => True).
Proof.
  intros Hp Hs Hu Hv. unfold su_as_user. eapply goes_bind; [apply goes_change_owner|]. intros [retcode v1] h1 [-> Hv1]. 
  specialize (Hv1 Hv). cbn in Hv1. destruct (retcode <? 0); [eapply goes_weaken; [by apply goes_auth_exit|done]|].
  apply (goes_bind _ _ _ _ (fun x h' => h' = h /\ assigned x)); [destruct (0 <? retcode); go; vars|]. intros v2 h2 [-> Hv2]. cbv zeta.
  eapply goes_make; [apply goes_get_proc|eapply goes_weaken; [by apply goes_delete_cred|done]|]. intros p Hne Hb Hn. rewrite Hb.
  assert (unlocked (<[p := KCap false]> h) all) as Hall by by apply unlocked_insert.
  assert (unlocked (<[p := KCap false]> h) p) as Hcaps by (eapply unlocked_at; [apply lookup_insert_eq|done]).
  eapply goes_same; [by apply goes_fill_flag|]. intros r. destruct (negb (r =? 0)); [|by apply goes_session].
  eapply goes_weaken; [by apply goes_delete_cred|done].
Qed.
Lemma goes_authenticated E h all (is_login : bool) command v :
  retval_p <> 0 -> (is_login = false -> shells_plain /\ waits_end) -> unlocked h all ->
  goes E h (su_authenticated (K := K) strerror launch_callback retval_p handle turns all is_login command v) (fun _ _ => True).
Proof.
  intros Hp Hs Hu. unfold su_authenticated. eapply goes_bind; [by apply goes_authenticate|]. intros [r v1] h1 [-> Hv1].
  destruct (negb (r =? 0)); [eapply goes_weaken; [by apply goes_auth_exit|done]|].
  eapply goes_bind; [by apply goes_accounting|]. intros [r2 v2] h2 [-> Hv2].
  destruct (negb (r2 =? 0)); [eapply goes_weaken; [by apply goes_auth_exit|done]|].
  eapply goes_bind; [by apply goes_set_credentials|]. intros [[r3 [[user uid] shell]] v3] h3 (-> & Hv3 & Hshell). cbn in Hv3, Hshell.
  destruct (Z.eqb_spec r3 0) as [->|]; cbn [negb]; [|eapply goes_weaken; [by apply goes_auth_exit|done]].
  apply goes_as_user; [done| |done..]. intros Hl. destruct (Hs Hl) as [Hpl Hw]. split; [|done]. by apply Hshell.
Qed.

(** *** The start, which may end early *)

Lemma goes_checkfds (E : ending -> Prop) h : E (Exited 1) -> goes E h (checkfds (K := K) strerror) (fun _ h' => h' = h).
Proof. intros HE. unfold checkfds. go; try done; by apply goes_exits. Qed.
Lemma goes_terminal_modes (E : ending -> Prop) h v : E (Exited 1) -> goes E h (store_terminal_modes (K := K) v) (fun _ h' => h' = h).
Proof. intros HE. unfold store_terminal_modes. go; try done; by apply goes_exits. Qed.
Lemma goes_exit_now {A} (E : ending -> Prop) h message v Q : E (Exited 1) -> goes E h (exit_now strerror 1 message v : M K A) Q.
Proof. intros HE. unfold exit_now. go; by apply goes_exits. Qed.
Lemma goes_pam_init (E : ending -> Prop) h user is_login v : E (Exited 1) -> goes E h (do_pam_init (K := K) strerror environ user is_login v) (fun _ h' => h' = h).
Proof.
  intros HE. unfold do_pam_init. cbv zeta. go; try done; by (apply goes_exits || apply goes_exit_now).
Qed.
Lemma goes_command_line (E : ending -> Prop) h argv : (forall n, n = 1 \/ parse_loop argv false None None = Usage n -> E (Exited n)) ->
  goes E h (parse_command_line (K := K) argv) (fun x h' => h' = h /\ parse_loop argv false None None = Parsed x.1.1 (Some x.1.2) x.2).
Proof.
  intros HE. unfold parse_command_line, usage. destruct (parse_loop argv false None None) as [is_login [user|] command|n]; [by apply goes_ret| |];
    go; apply goes_exits; auto.
Qed.
Lemma goes_su_run E h argv : retval_p <> 0 ->
  (forall n, n = 1 \/ parse_loop argv false None None = Usage n -> E (Exited n)) ->
  (forall user command, parse_loop argv false None None = Parsed false (Some user) command -> shells_plain /\ waits_end) ->
  goes E h (su_run (K := K) strerror environ launch_callback retval_p handle turns argv) (fun _ _ => True).
Proof.
  intros Hp HE Hs. pose proof (HE 1 (or_introl eq_refl)) as HE1. unfold su_run. 
  apply (goes_bind _ _ _ _ (fun all h' => unlocked h' all)).
  { apply goes_null. intros H0. eapply goes_weaken; [apply goes_get_proc|]. intros p h' [[-> ->]|(Hne & Hn & ->)]; eauto with goes. }
  clear h. intros all h Hu. eapply goes_same; [by apply goes_fill_flag|intros _]. eapply goes_same; [by apply goes_clear_flag|intros _].
  eapply goes_same; [by apply goes_checkfds|intros _]. eapply goes_same; [by apply goes_terminal_modes|intros v].
  eapply goes_bind; [by apply goes_command_line|]. intros [[is_login user] command] h' [-> Hpl]. cbn [fst snd] in Hpl.
  eapply goes_same; [by apply goes_pam_init|intros v1]. eapply goes_then; [apply steady_sigactions|intros _ _].
  eapply goes_same; [apply goes_unkillable|intros [r v2]]. destruct (negb (r =? 0)); [by apply goes_ret|].
  apply goes_authenticated; [done| |done]. intros ->. by eapply Hs.
Qed.

End total.

Section ends.
Context {K : Type} `{!Kernel K, !Process K, !Accounts K, !SuSystem K, !KernelLaws K, !WordLaws K, !ProcessLaws K}.
Variable strerror : Z -> string.
Variable environ : list string.
Variable launch_callback retval_p handle : Z.
Variable turns : nat.
Implicit Types (w : world K).

End ends.
