(* ===== verification/Execable.v ===== *)
(** Shared objects that can be started as programs: libcap/execable.h, whose start
    code rebuilds the arguments from /proc/self/cmdline, and what libcap.so,
    libpsx.so and pam_cap.so do when they are (libcap/execable.c,
    libcap/psx_exec.c, pam_cap/execable.c). A string here may hold NULs: it is the
    bytes of a file or of a buffer. Texts of messages are abbreviated. *)

From stdpp Require Import gmap list.
From Stdlib Require Import ZArith Lia String Ascii.
From S2P Require Import Prelude Capability World Exec Syscall Alloc Proc Text TextLex CLib ProgSpec.

Open Scope string_scope.
Open Scope Z_scope.

(** /proc/self/cmdline, if it can be opened. *)
Class SelfProc (K : Type) := { self_cmdline : K -> option string }.

Fixpoint count_nul (s : string) : nat :=
  match s with EmptyString => 0 | String c s => (if is_nul c then 1 else 0) + count_nul s end%nat.

Section execable.
Context {K : Type} `{!Kernel K, !SelfProc K}.
Implicit Types (w : world K) (mem rest : string).

(** ** The arguments *)

(** The loop that reads the file into a buffer of [size] bytes (and one), doubled as
    long as it is full: [mem] is what it holds, [rest] what is left of the file. *)
Fixpoint read_cmdline (fuel : nat) (size : nat) mem rest : M K string :=
  match fuel with
  | O => spin
  | S fuel =>
      ok ← libc_alloc;
      if negb ok then set_errno ENOMEM;; print "unable to parse arguments";; exit 1
      else
        let n := (size - String.length mem)%nat in
        let mem := mem ++ String.substring 0 n rest in
        let rest := str_drop n rest in
        if (String.length mem <? size)%nat then mret mem
        else read_cmdline fuel (2 * size) mem rest
  end.
Definition CMDLINE_SIZE : nat := 32.

(** [argv[argc] = mem+offset] and what follows, for the offsets before the end:
    argc, and the array. [mem] is what is left; a NUL stands behind it. *)
Fixpoint set_args (fuel : nat) mem (argc : nat) (argv : list (option string)) : M K (nat * list (option string)) :=
  match fuel with
  | O => spin
  | S fuel =>
      match mem with
      | EmptyString => mret (argc, argv)
      | _ =>
          assert_ub (argc <? List.length argv)%nat;;
          let arg := c_string mem in
          set_args fuel (str_drop (String.length arg + 1) mem) (S argc) (<[argc := Some arg]> argv)
      end
  end.

(** [__execable_parse_args]; argv is NULL without the file. *)
Definition parse_args : M K (nat * option (list (option string))) :=
  f ← gets (fun w => self_cmdline (kst w));
  match f with
  | None => mret (0%nat, None)
  | Some f =>
      mem ← read_cmdline (S (String.length f)) CMDLINE_SIZE "" f;
      let argc := S (count_nul (String.substring 0 (String.length mem - 1) mem)) in
      ok ← libc_alloc;
      if negb ok then set_errno ENOMEM;; print "failed to allocate memory for argv";; exit 1
      else
        '(argc, argv) ← set_args (S (String.length mem)) mem 0 (replicate (argc + 1) None);
        mret (argc, Some argv)
  end.

(** [argv[i]] *)
Definition arg_at (argv : option (list (option string))) (i : nat) : M K (option string) :=
  match argv ≫= lookup i with
  | Some x => mret x
  | None => fault
  end.

(** [__so_start], around the object's main. *)
Definition so_start (initialize : M K unit) (so_main : nat -> option (list (option string)) -> M K unit) : M K Empty_set :=
  '(argc, argv) ← parse_args;
  initialize;;
  so_main argc argv;;
  (if (argc =? 0)%nat then mret tt else _ ← arg_at argv 0; mret tt);;
  exit 0.

(** ** libcap.so *)

(** The name by which an object calls itself. *)
Definition self_name (other : string) (argv : option (list (option string))) : M K string :=
  match argv with
  | None => mret other
  | Some _ => x ← arg_at argv 0; mret (default other x)
  end.

Fixpoint new_numbers (n : nat) (c bits : Z) : M K unit :=
  match n with
  | O => mret tt
  | S n => if c <? bits then print (" " ++ fmt_d c);; new_numbers n (c + 1) bits else mret tt
  end.
Fixpoint new_names (n : nat) (c : Z) : M K unit :=
  match n with
  | O => mret tt
  | S n =>
      if c <=? CAP_LAST_CAP then
        name ← cap_to_name c;
        s ← (if name =? 0 then mret "(null)" else load_str name);
        print (" " ++ s);;
        _ ← cap_free name;
        new_names n (c + 1)
      else mret tt
  end.

Definition summary : M K unit :=
  bits ← cap_max_bits;
  mode ← cap_get_mode;
  print ("Current mode: " ++ cap_mode_name mode);;
  print ("Number of cap values known to: this libcap=" ++ fmt_d (CAP_LAST_CAP + 1) ++ ", running kernel=" ++ fmt_d bits);;
  if CAP_LAST_CAP + 1 <? bits then
    print "=> Consider upgrading libcap to name:";;
    new_numbers (Z.to_nat (bits - (CAP_LAST_CAP + 1))) (CAP_LAST_CAP + 1) bits;;
    print ""
  else if bits <? CAP_LAST_CAP + 1 then
    print "=> Newer kernels also provide support for:";;
    new_names (Z.to_nat (CAP_LAST_CAP + 1 - bits)) bits;;
    print ""
  else mret tt.

Definition libcap_usage {A} (status : Z) : M K A := print "usage: libcap.so [--help|--usage|--summary]";; exit status.

(** The loop over the arguments: [n] are left, from [i] on. *)
Fixpoint libcap_args (n : nat) (i : nat) (argv : option (list (option string))) : M K unit :=
  match n with
  | O => mret tt
  | S n =>
      arg ← arg_at argv i;
      match arg with
      | None => fault
      | Some arg =>
          if String.eqb arg "--usage" || String.eqb arg "--help" then libcap_usage 0
          else if String.eqb arg "--summary" then summary;; libcap_args n (S i) argv
          else libcap_usage 1
      end
  end.

Definition libcap_so_main (argc : nat) (argv : option (list (option string))) : M K unit :=
  cmd ← self_name "This library" argv;
  print (cmd ++ " is the shared library");;
  libcap_args (argc - 1) 1 argv.
Definition libcap_so : M K Empty_set := so_start libcap_initialize libcap_so_main.

(** ** libpsx.so and pam_cap.so *)

Definition psx_so_main (argc : nat) (argv : option (list (option string))) : M K unit :=
  cmd ← self_name "This library" argv;
  print (cmd ++ " is the shared library").
Definition psx_so : M K Empty_set := so_start (mret tt) psx_so_main.

Definition pam_so_main (argc : nat) (argv : option (list (option string))) : M K unit :=
  cmd ← match argv with None => mret "<pam_cap.so>" | Some _ => x ← arg_at argv 0; mret (default "(null)" x) end;
  print (cmd ++ " is a PAM module");;
  if (argc <=? 1)%nat then mret tt
  else
    arg ← (if (2 <? argc)%nat then mret None else arg_at argv 1);
    match arg with
    | Some arg =>
        if String.eqb arg "--help" then print (cmd ++ " supports the following module arguments")
        else print (cmd ++ " only supports the optional argument --help");; exit 1
    | None => print (cmd ++ " only supports the optional argument --help");; exit 1
    end.
Definition pam_so : M K Empty_set := so_start (mret tt) pam_so_main.

End execable.

(** ** The strings of a buffer *)

(** The strings that NULs end, and the rest behind the last of them. *)
Definition cmdline_args (s : string) : list string :=
  let parts := split is_nul s in
  if String.eqb (List.last parts "") "" then List.removelast parts else parts.
(** What the kernel gives for an argument vector. *)
Definition cmdline_of (l : list string) : string := String.concat "" (map (fun a => a ++ String NUL "") l).

#[local] Arguments String.append !_ _ / : simpl nomatch.

Section strings.
Implicit Types (s t a b : string).

Lemma count_nul_app a b : count_nul (a ++ b) = (count_nul a + count_nul b)%nat.
Proof. induction a as [|c a IH]; [done|]. cbn. lia. Qed.
Lemma count_nul_none a : no_nul a -> count_nul a = 0%nat.
Proof. induction a as [|c a IH]; [done|]. intros [Hc Ha]%no_nul_cons. cbn. by rewrite Hc, IH. Qed.

Lemma substring_take n s : (String.length s <= n)%nat -> String.substring 0 n s = s.
Proof. revert n. induction s as [|c s IH]; intros [|n] Hn; cbn in *; try done; [lia|]. by rewrite IH by lia. Qed.
Lemma substring_past n a b : String.substring 0 (String.length a + n) (a ++ b) = a ++ String.substring 0 n b.
Proof. induction a as [|c a IH]; [done|]. cbn. by rewrite IH. Qed.
Lemma substring_drop n s : String.substring 0 n s ++ str_drop n s = s.
Proof.
  revert n. induction s as [|c s IH]; intros [|n]; cbn; try done.
  - clear. by induction n.
  - by rewrite IH.
Qed.
Lemma drop_app n a b : str_drop (String.length a + n) (a ++ b) = str_drop n b.
Proof. induction a as [|c a IH]; [done|]. cbn. done. Qed.
Lemma drop_length n s : (String.length (str_drop n s) = String.length s - n)%nat.
Proof.
  revert s. induction n as [|n IH]; intros s; cbn; [lia|]. rewrite IH. destruct s; cbn; lia.
Qed.
Lemma c_string_app a b : no_nul a -> c_string (a ++ String NUL b) = a.
Proof. induction a as [|c a IH]; [done|]. intros [Hc Ha]%no_nul_cons. cbn. by rewrite Hc, IH. Qed.

(** The first string, and the others. *)
Lemma cmdline_args_last s : no_nul s -> s <> "" -> cmdline_args s = [s].
Proof.
  intros Hn Hne. unfold cmdline_args. destruct (split_cases is_nul s) as [(_ & ->)|(a & c & b & -> & _ & Hc & _)].
  - cbn. by destruct (String.eqb_spec s "").
  - apply no_nul_app in Hn as [_ [Hc' _]%no_nul_cons]. congruence.
Qed.
Lemma cmdline_args_cons a b : no_nul a -> cmdline_args (a ++ String NUL b) = a :: cmdline_args b.
Proof.
  intros Ha. unfold cmdline_args. assert (split is_nul (a ++ String NUL b) = a :: split is_nul b) as ->.
  { rewrite split_app by exact Ha. change (split is_nul (String NUL b)) with ("" :: split is_nul b). cbn beta iota. by rewrite str_app_nil_r. }
  destruct (split_cons is_nul b) as (t & r & ->). cbn [List.last List.removelast]. by destruct (String.eqb _ "").
Qed.
Lemma cmdline_args_cases s : s = "" \/ (s <> "" /\ no_nul s) \/ exists a b, s = a ++ String NUL b /\ no_nul a.
Proof.
  destruct (decide (s = "")) as [|Hne]; [by left|right].
  destruct (split_cases is_nul s) as [(H & _)|(a & c & b & -> & Ha & ->%Ascii.eqb_eq & _)]; [by left|right]. by exists a, b.
Qed.

Lemma cmdline_args_of l : Forall no_nul l -> cmdline_args (cmdline_of l) = l.
Proof.
  induction l as [|a l IH]; [done|]. intros [Ha Hl]%Forall_cons.
  assert (cmdline_of (a :: l) = a ++ String NUL (cmdline_of l)) as ->.
  { unfold cmdline_of. cbn [map]. destruct (map _ l) as [|x r]; cbn [String.concat].
    - done.
    - by rewrite str_app_assoc. }
  by rewrite cmdline_args_cons, IH.
Qed.

(** The number of arguments that start code counts. *)
Lemma count_args s : s <> "" -> S (count_nul (String.substring 0 (String.length s - 1) s)) = List.length (cmdline_args s).
Proof.
  remember (String.length s) as n eqn:Hn. revert s Hn. induction n as [n IH] using lt_wf_ind. intros s -> Hne.
  destruct (cmdline_args_cases s) as [->|[[_ H]|(a & b & -> & Ha)]]; [done| |].
  - rewrite cmdline_args_last by done. rewrite count_nul_none; [done|].
    rewrite <-(substring_drop (String.length s - 1) s) in H. by apply no_nul_app in H as [? _].
  - rewrite cmdline_args_cons by done. cbn [List.length]. f_equal. rewrite str_length_app. cbn [String.length].
    destruct (decide (b = "")) as [->|Hb].
    + cbn [String.length]. replace (String.length a + 1 - 1)%nat with (String.length a + 0)%nat by lia.
      rewrite substring_past, count_nul_app, (count_nul_none a) by done. done.
    + assert (0 < String.length b)%nat as Hl by (destruct b; [done|cbn; lia]).
      replace (String.length a + S (String.length b) - 1)%nat with (String.length a + S (String.length b - 1))%nat by lia.
      rewrite substring_past, count_nul_app, (count_nul_none a) by done. cbn [String.substring count_nul Nat.add].
      change (is_nul NUL) with true. cbn [Nat.add]. apply (IH (String.length b)); [|done|done]. rewrite str_length_app. cbn. lia.
Qed.

End strings.

(** ** The start code *)

Section start.
Context {K : Type} `{!Kernel K, !SelfProc K}.
Implicit Types (w : world K) (mem rest : string).

Lemma read_cmdline_run fuel size mem rest w :
  mem_plenty w -> (String.length mem < size)%nat -> (String.length rest < fuel)%nat ->
  read_cmdline fuel size mem rest w = (Ok (mem ++ rest), w).
Proof.
  revert size mem rest. induction fuel as [|fuel IH]; intros size mem rest Hm Hs Hf; [lia|]. cbn [read_cmdline].
  rewrite (bind_ok _ _ _ _ _ (libc_alloc_plenty _ Hm)). cbn [negb]. set (n := (size - String.length mem)%nat).
  rewrite str_length_app, substring_length. destruct (Nat.ltb_spec (String.length mem + Nat.min n (String.length rest)) size) as [Hl|Hl].
  - rewrite substring_take by lia. done.
  - rewrite IH; [|done|..].
    + by rewrite str_app_assoc, substring_drop.
    + rewrite str_length_app, substring_length. lia.
    + rewrite drop_length. lia.
Qed.

Lemma set_args_run fuel mem pre m w :
  (String.length mem < fuel)%nat ->
  let args := cmdline_args mem in
  set_args (K := K) fuel mem (List.length pre) (pre ++ replicate (List.length args + m) None)%list w =
    (Ok ((List.length pre + List.length args)%nat, (pre ++ map Some args) ++ replicate m None)%list, w).
Proof.
  revert mem pre. induction fuel as [|fuel IH]; intros mem pre Hf; [lia|].
  assert (forall a rest, no_nul a -> cmdline_args mem = a :: cmdline_args rest -> c_string mem = a -> mem <> "" ->
    str_drop (String.length a + 1) mem = rest ->
    set_args (K := K) (S fuel) mem (List.length pre) (pre ++ replicate (List.length (cmdline_args mem) + m) None)%list w =
      (Ok ((List.length pre + List.length (cmdline_args mem))%nat, (pre ++ map Some (cmdline_args mem)) ++ replicate m None)%list, w)) as Hstep.
  { intros a rest Ha Hc Hcs Hne Hd. rewrite Hc. destruct mem as [|c mem]; [done|]. cbn [set_args List.length Nat.add].
    erewrite (bind_ok (assert_ub _)); [|apply assert_ub_run; apply Nat.ltb_lt; rewrite length_app; cbn; lia].
    rewrite Hcs, Hd, insert_app_r_alt, Nat.sub_diag by lia. cbn [replicate]. change (<[0%nat:=Some a]> (None :: ?l)) with (Some a :: l).
    pose proof (IH rest (pre ++ [Some a])%list) as H. cbn zeta in H. rewrite length_app, <-app_assoc in H. cbn [List.length app] in H.
    rewrite Nat.add_1_r in H. cbn [list_insert insert] in *. rewrite H.
    - cbn [map]. rewrite <-!app_assoc. cbn [app]. do 3 f_equal. lia.
    - rewrite <-Hd, drop_length. cbn in Hf |- *. lia. }
  destruct (cmdline_args_cases mem) as [->|[[Hne H]|(a & b & -> & Ha)]].
  - cbn. by rewrite app_nil_r, Nat.add_0_r.
  - apply (Hstep mem ""); try done; [by rewrite cmdline_args_last|by apply c_string_id|].
    rewrite <-(str_app_nil_r mem) at 2. by rewrite drop_app.
  - apply (Hstep a b); try done; [by rewrite cmdline_args_cons|by apply c_string_app|by destruct a|by rewrite drop_app].
Qed.

Lemma read_args_run f w :
  mem_plenty w -> self_cmdline (kst w) = Some f ->
  exists n, parse_args w = (Ok (List.length (cmdline_args f), Some (map Some (cmdline_args f) ++ replicate (S n) None)%list), w).
Proof.
  intros Hm Hf. unfold parse_args. rewrite (bind_ok _ _ _ _ _ (gets_run _ _)), Hf.
  rewrite (bind_ok _ _ _ _ _ (read_cmdline_run (S (String.length f)) CMDLINE_SIZE "" f w Hm ltac:(unfold CMDLINE_SIZE; cbn; lia) ltac:(lia))). cbn [String.append].
  rewrite (bind_ok _ _ _ _ _ (libc_alloc_plenty _ Hm)). cbn [negb].
  assert (exists n, S (count_nul (String.substring 0 (String.length f - 1) f)) + 1 = List.length (cmdline_args f) + S n)%nat as [n ->].
  { destruct (decide (f = "")) as [->|Hne]; [by exists 1%nat|]. exists 0%nat. by rewrite count_args. }
  exists n. pose proof (set_args_run (S (String.length f)) f [] (S n) w (Nat.lt_succ_diag_r _)) as H.
  by rewrite (bind_ok _ _ _ _ _ H).
Qed.

(** C30 The start code of a runnable shared object gives its main the arguments the
    program was started with: whatever /proc/self/cmdline holds, it is read to its
    end and divided at the NULs, argv is never written outside its array and has a
    NULL after the last argument; and for what the kernel writes there for an
    argument vector, that vector comes back. *)
Theorem parse_args_roundtrip f w :
  mem_plenty w -> self_cmdline (kst w) = Some f ->
  exists n, parse_args w = (Ok (List.length (cmdline_args f), Some (map Some (cmdline_args f) ++ replicate (S n) None)%list), w) /\
    forall l, Forall no_nul l -> f = cmdline_of l -> cmdline_args f = l.
Proof.
  intros Hm Hf. destruct (read_args_run f w Hm Hf) as [n H]. exists n. split; [done|]. intros l Hl ->. by apply cmdline_args_of.
Qed.

(** What the PAM module does when it is started: it tells its version, and for the
    one argument --help its own arguments; anything else fails. *)
Theorem pam_so_exits l w :
  mem_plenty w -> Forall no_nul l -> l <> [] -> self_cmdline (kst w) = Some (cmdline_of l) ->
  exists w', pam_so w = (Halt (Exited (if (List.length l <=? 1)%nat || bool_decide (List.tl l = ["--help"]) then 0 else 1)), w').
Proof.
  intros Hm Hl Hne Hf. destruct (read_args_run _ w Hm Hf) as (n & H). rewrite (cmdline_args_of l Hl) in H.
  unfold pam_so, so_start. rewrite (bind_ok _ _ _ _ _ H), (bind_ok _ _ _ _ _ (ret_run _ _)).
  destruct l as [|cmd [|arg [|x l]]]; [done|..]; unfold pam_so_main.
  - eexists. reflexivity.
  - cbn -[String.eqb bool_decide]. destruct (String.eqb_spec arg "--help") as [->|Hn].
    + rewrite bool_decide_true by done. eexists. reflexivity.
    + rewrite bool_decide_false by congruence. apply String.eqb_neq in Hn. eexists.
      unfold mbind, M_bind, mret, M_ret. cbn -[String.eqb]. rewrite Hn. reflexivity.
  - rewrite bool_decide_false by done. eexists. reflexivity.
Qed.

End start.
