(* ===== verification/Capso.v ===== *)
(** contrib/capso/capso.c: a shared object with a file capability. bind80() binds
    port 80 itself when it may; otherwise it launches the object's own file as a
    program, which has the capability, binds, and passes the socket back through a
    socket pair. contrib/capso/bind.c is a program that uses it. *)

From stdpp Require Import gmap list.
From Stdlib Require Import ZArith Lia String Ascii.
From S2P Require Import Prelude Capability World Syscall Alloc Flag Proc Text Launch CLib Execable.

Open Scope string_scope.
Open Scope Z_scope.

(** ** The system: sockets, and the object's own file name *)

Inductive sock_req :=
| Sock_socket (addr : Z)
| Sock_reuse (fd : Z)          (* setsockopt(fd, SOL_SOCKET, SO_REUSEADDR, 1) *)
| Sock_bind (fd addr : Z)
| Sock_close (fd : Z)
| Sock_dup2 (fd newfd : Z)
| Sock_sendmsg (fd passed : Z)
| Sock_listen (fd backlog : Z).

(** [getaddrinfo] gives its result and the first address, [recvmsg] its result and
    the descriptor in the first control message. *)
Class Sockets (K : Type) := {
  sock_request : K -> sock_req -> Z * K;
  getaddrinfo : K -> string -> Z * option Z;
  socketpair : K -> Z * (Z * Z) * K;
  recvmsg : K -> Z -> Z * option Z * K;
  own_file : K -> option string
}.

Section capso.
Context {K : Type} `{!Kernel K, !Process K, !SelfProc K, !Sockets K}.
Variable strerror : Z -> string.
Variable environ : list string.
(** The addresses of set_fd3() and of the pair of sockets. *)
Variable set_fd3_fn sp_p : Z.
Implicit Types (w : world K) (hostname : string).

Definition sock (r : sock_req) : M K Z := fun w =>
  let '(n, k) := sock_request (kst w) r in libc_ret n (with_kst k w).
Definition perror (s : string) : M K unit := e ← get_errno; print (s ++ ": " ++ strerror e).

(** [where_am_i] *)
Definition where_am_i : M K (option string) :=
  info ← gets (fun w => own_file (kst w));
  match info with
  | None => mret None
  | Some fname => strdup fname
  end.

(** [close(ret); ret = -1] *)
Definition fail_with (ret : Z) : M K Z := _ ← sock (Sock_close ret); mret (-1).

Definition try_bind80 hostname : M K Z :=
  ok ← libc_alloc;
  if negb ok then set_errno ENOMEM;; mret (-1)
  else
    '(err, detail) ← gets (fun w => getaddrinfo (kst w) hostname);
    if negb (err =? 0) then mret (-1)
    else
      match detail with
      | None => fault
      | Some addr =>
          ret ← sock (Sock_socket addr);
          if ret =? -1 then mret (-1)
          else
            r ← sock (Sock_reuse ret);
            if negb (r =? 0) then fail_with ret
            else
              r ← sock (Sock_bind ret addr);
              if negb (r =? 0) then fail_with ret else mret ret
      end.

(** What the child does with the pair, before it becomes the program. *)
Definition set_fd3 (sp : Z * Z) : M K Z :=
  _ ← sock (Sock_close sp.1);
  r ← sock (Sock_dup2 sp.2 3);
  if negb (r =? 3) then mret (-1)
  else
    _ ← sock (Sock_close sp.2);
    mret 0.

(** From the launch to the label drop_sp: the descriptor. *)
Definition ask_helper (helper fd : Z) (sp : Z * Z) : M K Z :=
  _ ← cap_launcher_callback helper set_fd3_fn;
  '(child, _) ← cap_launch helper sp_p;
  _ ← sock (Sock_close sp.2);
  if child <=? 0 then mret fd
  else
    '(n, passed) ← (fun w => let '(n, passed, k) := recvmsg (kst w) sp.1 in
                      (n ← libc_ret n; mret (n, passed)) (with_kst k w));
    fd ← (if negb (n =? -1) then match passed with Some fd => mret fd | None => fault end else mret fd);
    modify (fun w => with_kst (sys_waitpid (kst w) child) w);;
    mret fd.

(** The labels release what was taken, in the order of their names. *)
Definition bind80 hostname : M K Z :=
  fd ← try_bind80 hostname;
  if 0 <=? fd then mret fd
  else
    ok ← libc_alloc;
    if negb ok then set_errno ENOMEM;; mret (-1)
    else
      ok ← libc_alloc;
      if negb ok then set_errno ENOMEM;; mret (-1)
      else
        path ← where_am_i;
        match path with
        | None => perror "Unable to find self";; mret fd
        | Some path =>
            helper ← cap_new_launcher (Some path) (Some ["bind80-helper"; hostname]) (Some environ);
            if helper =? 0 then mret fd
            else
              '(r, sp) ← (fun w => let '(r, sp, k) := socketpair (kst w) in
                            (r ← libc_ret r; mret (r, sp)) (with_kst k w));
              fd ← (if negb (r =? 0) then mret fd
                    else
                      fd ← ask_helper helper fd sp;
                      _ ← sock (Sock_close sp.1);
                      mret fd);
              _ ← cap_free helper;
              mret fd
        end.

(** ** The object as a program *)

Definition raise_net_bind : M K unit :=
  working ← cap_get_proc;
  if working =? 0 then perror "Unable to read capabilities";; exit 1
  else
    r ← cap_set_flag working CAP_EFFECTIVE 1 [CAP_NET_BIND_SERVICE] CAP_SET;
    if negb (r =? 0) then perror "Unable to raise CAP_NET_BIND_SERVICE";; exit 1
    else
      r ← cap_set_proc working;
      if negb (r =? 0) then perror "Problem with cap_set_proc";; exit 1 else mret tt.

(** fake_exploit() is empty unless ALLOW_EXPLOIT is defined, which no build does. *)
Definition help_bind hostname : M K unit :=
  raise_net_bind;;
  fd ← try_bind80 hostname;
  n ← sock (Sock_sendmsg 3 fd);
  (if n <? 0 then perror "Failed to write fd" else mret tt);;
  exit 0.

(** The host, unless the arguments are wrong. *)
Definition helper_host (argc : nat) (argv : option (list (option string))) : M K (option string) :=
  if negb (argc =? 2)%nat then mret None
  else
    host ← arg_at argv 1;
    mret (match host with Some h => if String.eqb h "--help" then None else Some h | None => None end).

Definition capso_main (argc : nat) (argv : option (list (option string))) : M K unit :=
  cmd ← match argv with None => mret "<capso.so>" | Some _ => x ← arg_at argv 0; mret (default "(null)" x) end;
  host ← helper_host argc argv;
  match host with
  | None => print ("usage: " ++ cmd ++ " <hostname>");; exit 1
  | Some hostname => help_bind hostname
  end.
Definition capso_so : M K Empty_set := so_start (mret tt) capso_main.

(** main() of bind.c. *)
Definition bind_main : M K unit :=
  f ← bind80 "127.0.0.1";
  if f <? 0 then perror "unable to bind to port 80";; exit 1
  else
    r ← sock (Sock_listen f 10);
    if r =? -1 then perror "unable to listen to port 80";; exit 1
    else
      print "Webserver code goes here.";;
      _ ← sock (Sock_close f);
      print "Done.".

End capso.
