(* ===== verification/CapsoSpec.v ===== *)
(** What capso.c guarantees: no socket is lost on any path, what the launched child
    makes of its descriptors, and when the helper may bind. *)

From Stdlib Require Import ZArith Lia String Ascii.
From stdpp Require Import gmap list sets.
From S2P Require Import Prelude Capability World Exec Syscall Alloc Flag FlagSpec IabSpec Proc ProcSpec Text TextLex.
From S2P Require Import TextSpec TextParse TextPrint TextToText TextRound KernelLaws ModeSpec IabProcSpec IabText Launch CLib ProgSpec.
From S2P Require Import Execable Capso.

Open Scope string_scope.
Open Scope Z_scope.

(** Descriptors, as POSIX describes them: a new one was not in use, close(2) ends
    one, dup2(2) gives the one that is asked for. *)
Class SocketLaws (K : Type) `{!Sockets K} := {
  open_fds : K -> gset Z;
  law_getaddrinfo : forall k host, getaddrinfo k host <> (0, None);
  law_socket : forall k addr r k', sock_request k (Sock_socket addr) = (r, k') ->
    (r < 0 /\ open_fds k' = open_fds k) \/ (0 <= r /\ (r ∉ open_fds k) /\ open_fds k' = {[r]} ∪ open_fds k);
  law_reuse : forall k fd r k', sock_request k (Sock_reuse fd) = (r, k') -> open_fds k' = open_fds k;
  law_bind : forall k fd addr r k', sock_request k (Sock_bind fd addr) = (r, k') -> open_fds k' = open_fds k;
  law_close : forall k fd r k', sock_request k (Sock_close fd) = (r, k') -> open_fds k' = open_fds k ∖ {[fd]};
  law_dup2 : forall k fd newfd, fd ∈ open_fds k -> 0 <= newfd ->
    exists k', sock_request k (Sock_dup2 fd newfd) = (newfd, k') /\ open_fds k' = {[newfd]} ∪ open_fds k
}.

Section sockets.
Context {K : Type} `{!Kernel K, !Process K, !SelfProc K, !Sockets K, !SocketLaws K}.
Implicit Types (w : world K) (hostname : string).

(** [w'] is [w] but for errno and the kernel. *)
Definition beside w w' : Prop := exists e k, w' = with_errno e (with_kst k w).
Lemma beside_trans w w1 w2 : beside w w1 -> beside w1 w2 -> beside w w2.
Proof. intros (e & k & ->) (e' & k' & ->). by exists e', k'. Qed.

(** A request: its answer is the kernel's, or -1. *)
Lemma sock_run r w : exists n w', sock_request (kst w) r = (n, kst w') /\ sock r w = (Ok (if n <? 0 then -1 else n), w') /\ beside w w'.
Proof.
  unfold sock. destruct (sock_request (kst w) r) as [n k]. exists n. unfold libc_ret. destruct (n <? 0).
  - exists (with_errno (- n) (with_kst k w)). split; [done|]. split; [done|]. by exists (- n), k.
  - exists (with_kst k w). split; [done|]. split; [done|]. exists (errno w), k. by destruct w.
Qed.

Lemma fail_with_run fd w : exists w', fail_with fd w = (Ok (-1), w') /\ open_fds (kst w') = open_fds (kst w) ∖ {[fd]} /\ beside w w'.
Proof.
  destruct (sock_run (Sock_close fd) w) as (n & w' & Hq & H & Hb). exists w'. unfold fail_with.
  rewrite (bind_ok _ _ _ _ _ H). split; [done|]. split; [|done]. by eapply law_close.
Qed.

Lemma try_bind80_run hostname w :
  mem_plenty w ->
  exists r w', try_bind80 hostname w = (Ok r, w') /\ beside w w' /\
    ((r = -1 /\ open_fds (kst w') = open_fds (kst w)) \/
     (0 <= r /\ (r ∉ open_fds (kst w)) /\ open_fds (kst w') = {[r]} ∪ open_fds (kst w))).
Proof.
  intros Hm. unfold try_bind80. rewrite (bind_ok _ _ _ _ _ (libc_alloc_plenty _ Hm)). cbn [negb].
  rewrite (bind_ok _ _ _ _ _ (gets_run _ _)). assert (beside w w) as Hrefl by (exists (errno w), (kst w); by destruct w).
  pose proof (law_getaddrinfo (kst w) hostname) as Hg. destruct (getaddrinfo (kst w) hostname) as [err detail].
  destruct (Z.eqb_spec err 0) as [->|]; cbn [negb]; [|exists (-1), w; split_and!; [done|done|by left]].
  destruct detail as [addr|]; [|done].
  destruct (sock_run (Sock_socket addr) w) as (fd & w1 & Hq & H1 & Hb1). rewrite (bind_ok _ _ _ _ _ H1).
  destruct (law_socket _ _ _ _ Hq) as [[Hneg Ho]|(Hpos & Hfresh & Ho)].
  { destruct (Z.ltb_spec fd 0); [|lia]. exists (-1), w1. split_and!; [done|done|by left]. }
  destruct (Z.ltb_spec fd 0); [lia|]. destruct (Z.eqb_spec fd (-1)); [lia|].
  assert (forall w2, beside w w2 -> open_fds (kst w2) = {[fd]} ∪ open_fds (kst w) ->
    exists r w', fail_with fd w2 = (Ok r, w') /\ beside w w' /\
    ((r = -1 /\ open_fds (kst w') = open_fds (kst w)) \/
     (0 <= r /\ (r ∉ open_fds (kst w)) /\ open_fds (kst w') = {[r]} ∪ open_fds (kst w)))) as Hgive.
  { intros w2 Hb2 Ho2. destruct (fail_with_run fd w2) as (w3 & H3 & Ho3 & Hb3). exists (-1), w3. split; [done|].
    split; [by eapply beside_trans|]. left. split; [done|]. rewrite Ho3, Ho2. set_solver. }
  destruct (sock_run (Sock_reuse fd) w1) as (n2 & w2 & Hq2 & H2 & Hb2). rewrite (bind_ok _ _ _ _ _ H2).
  apply law_reuse in Hq2. assert (beside w w2) as Hb12 by by eapply beside_trans.
  destruct (negb _); [apply Hgive; [done|by rewrite Hq2]|].
  destruct (sock_run (Sock_bind fd addr) w2) as (n3 & w3 & Hq3 & H3 & Hb3). rewrite (bind_ok _ _ _ _ _ H3).
  apply law_bind in Hq3. assert (beside w w3) as Hb13 by by eapply beside_trans.
  destruct (negb _); [apply Hgive; [done|by rewrite Hq3, Hq2]|].
  exists fd, w3. split_and!; [done|done|right]. split; [done|]. split; [done|]. by rewrite Hq3, Hq2.
Qed.

(** try_bind80() gives a new socket that is left open, or -1 with exactly the
    descriptors open that were open before, on every path; nothing else changes. *)
Theorem try_bind80_keeps_fds hostname w :
  mem_plenty w ->
  exists r w', try_bind80 hostname w = (Ok r, w') /\ beside w w' /\
    ((r = -1 /\ open_fds (kst w') = open_fds (kst w)) \/
     (0 <= r /\ (r ∉ open_fds (kst w)) /\ open_fds (kst w') = {[r]} ∪ open_fds (kst w))).
Proof. apply try_bind80_run. Qed.

(** In the child the second socket of the pair becomes descriptor 3 and the pair is
    closed - unless it already was descriptor 3, which set_fd3() then closes while
    it reports success. *)
Theorem set_fd3_correct sp0 sp1 w :
  sp0 <> sp1 -> sp1 ∈ open_fds (kst w) ->
  exists w', set_fd3 (sp0, sp1) w = (Ok 0, w') /\
    open_fds (kst w') = (if decide (sp1 = 3) then open_fds (kst w) ∖ {[sp0; 3]} else {[3]} ∪ (open_fds (kst w) ∖ {[sp0; sp1]})).
Proof.
  intros Hne Hin. unfold set_fd3. cbn [fst snd].
  destruct (sock_run (Sock_close sp0) w) as (n1 & w1 & Hq1 & H1 & _). rewrite (bind_ok _ _ _ _ _ H1). apply law_close in Hq1.
  destruct (law_dup2 (kst w1) sp1 3) as (k2 & Hq2 & Ho2); [rewrite Hq1; set_solver|lia|].
  destruct (sock_run (Sock_dup2 sp1 3) w1) as (n2 & w2 & Hq2' & H2 & _). rewrite Hq2 in Hq2'. injection Hq2' as <- Hk2.
  rewrite (bind_ok _ _ _ _ _ H2). cbn [Z.ltb Z.compare Z.eqb negb Pos.eqb].
  destruct (sock_run (Sock_close sp1) w2) as (n4 & w4 & Hq4 & H4 & _). rewrite (bind_ok _ _ _ _ _ H4). apply law_close in Hq4.
  exists w4. split; [done|]. rewrite Hq4, <-Hk2, Ho2, Hq1. case_decide; [subst; set_solver|].
  apply set_eq. intros x. rewrite !elem_of_difference, !elem_of_union, !elem_of_difference, !elem_of_union, !elem_of_singleton.
  destruct (decide (x = 3)); [|tauto]. split; [by left|]. intros _. split; [by left|]. congruence.
Qed.

End sockets.

(** ** The helper *)

Section helper.
Context {K : Type} `{!Kernel K, !Process K, !SelfProc K, !Sockets K, !SocketLaws K, !KernelLaws K}.
Variable strerror : Z -> string.
Implicit Types (w : world K).

Lemma raise_net_bind_run w :
  prog_world w ->
  let cr := creds_of (kst w) in
  exists o w', raise_net_bind strerror w = (o, w') /\ mem_plenty w' /\
    if decide (CAP_NET_BIND_SERVICE ∈ cr_perm cr)
    then o = Ok tt /\ creds_of (kst w') = mkCreds (cr_eff cr ∪ {[CAP_NET_BIND_SERVICE]}) (cr_perm cr) (cr_inh cr) (cr_bound cr) (cr_amb cr) (cr_secbits cr)
    else o = Halt (Exited 1) /\ creds_of (kst w') = cr.
Proof.
  intros (Hw & Hm & Hc & Hd). cbn zeta. unfold raise_net_bind.
  destruct (cap_get_proc_held w Hw Hm) as (d & _ & Hcaps & Hu & H1 & Hn). rewrite (bind_ok _ _ _ _ _ H1).
  apply Z.eqb_neq in Hn as Hnb. rewrite Hnb.
  assert (words_of d (creds_of (kst w))) as Hwd by by split. assert (valid_cap CAP_NET_BIND_SERVICE) as Hv by done.
  rewrite (bind_ok _ _ _ _ _ (holding_set_flag (proc_cap d) _ _ _ CAP_EFFECTIVE CAP_NET_BIND_SERVICE Hn eq_refl Hu ltac:(done) Hv)). cbn [Z.eqb negb].
  set (c := with_u _ _). assert (direct multithread (holding c (errno w) (kst w) w)) as Hdh by done.
  destruct (law_valid (kst w)) as (_ & _ & HEP & Hamb & _). case_decide as Hin.
  - destruct (words_of_raise CAP_NET_BIND_SERVICE d _ Hwd Hin Hv HEP) as [Hok Haf].
    destruct (holding_set_proc_ok multithread c (errno w) (kst w) w Hn eq_refl eq_refl eq_refl Hd Hok) as (k' & H2 & Hk').
    unfold cap_set_proc. rewrite (bind_ok _ _ _ _ _ H2). cbn [Z.eqb negb]. eexists _, _. split; [reflexivity|].
    split; [unfold mem_plenty in *; cbn; by rewrite Hm|]. split; [done|]. rewrite <-Haf by done. exact Hk'.
  - assert (u_wf (c_u c)) as Huc by by apply u_wf_raise.
    pose proof (live_set_proc_refused multithread (next w) c (holding c (errno w) (kst w) w) Hn (holding_lookup _ _ _ _)
      eq_refl eq_refl eq_refl Hdh Huc (words_of_raise_refused _ _ _ Hwd Hin Hv)) as H2.
    unfold cap_set_proc. rewrite (bind_ok _ _ _ _ _ H2). cbn [Z.eqb negb]. eexists _, _. split; [reflexivity|].
    split; [unfold mem_plenty in *; cbn; by rewrite Hm|]. by split.
Qed.

Lemma help_bind_run host w : prog_world w ->
  exists w', help_bind strerror host w = (Halt (Exited (if decide (CAP_NET_BIND_SERVICE ∈ cr_perm (creds_of (kst w))) then 0 else 1)), w').
Proof.
  intros Hw. unfold help_bind. destruct (raise_net_bind_run w Hw) as (o & w1 & H1 & Hm1 & Hcase). case_decide.
  - destruct Hcase as [-> _]. rewrite (bind_ok _ _ _ _ _ H1).
    destruct (try_bind80_run host w1 Hm1) as (fd & w2 & H2 & _). rewrite (bind_ok _ _ _ _ _ H2).
    destruct (sock_run (Sock_sendmsg 3 fd) w2) as (n & w3 & _ & H3 & _). rewrite (bind_ok _ _ _ _ _ H3).
    generalize (if n <? 0 then -1 else n). intros m. destruct (m <? 0); eexists; reflexivity.
  - destruct Hcase as [-> _]. rewrite (bind_halt _ _ _ _ _ H1). by eexists.
Qed.

(** The object run as a program with a host's name exits with 0 exactly when it
    may have CAP_NET_BIND_SERVICE, the only capability it raises, whether or not it
    could bind; without it, and for any other arguments, it exits with 1, and in
    the second case has asked the kernel for nothing. *)
Theorem capso_so_exits cmd l w :
  prog_world w -> Forall no_nul (cmd :: l) -> self_cmdline (kst w) = Some (cmdline_of (cmd :: l)) ->
  exists w', match l with
    | [host] =>
        if String.eqb host "--help" then capso_so strerror w = (Halt (Exited 1), w') /\ kst w' = kst w
        else capso_so strerror w = (Halt (Exited (if decide (CAP_NET_BIND_SERVICE ∈ cr_perm (creds_of (kst w))) then 0 else 1)), w')
    | _ => capso_so strerror w = (Halt (Exited 1), w') /\ kst w' = kst w
    end.
Proof.
  intros Hw Hl Hf. pose proof Hw as (_ & Hm & _). destruct (read_args_run _ w Hm Hf) as (n & H). rewrite (cmdline_args_of _ Hl) in H.
  unfold capso_so, so_start. rewrite (bind_ok _ _ _ _ _ H), (bind_ok _ _ _ _ _ (ret_run _ _)).
  destruct l as [|host [|x l]]; [eexists; split; reflexivity| |eexists; split; reflexivity].
  unfold capso_main, helper_host. cbn [List.length Nat.eqb negb map app]. destruct (String.eqb host "--help") eqn:E.
  - eexists. unfold mbind, M_bind, mret, M_ret. cbn -[String.eqb]. rewrite E. split; reflexivity.
  - destruct (help_bind_run host w Hw) as [w' Hh]. exists w'.
    unfold mbind, M_bind, mret, M_ret. cbn -[String.eqb help_bind]. by rewrite E, Hh.
Qed.

End helper.
