(* ===== verification/RefKernel.v ===== *)
(** A small executable kernel that satisfies every law the development assumes
    of the real one: credentials, one file with an extended attribute, and one
    child process with a pipe. It shows that the laws can hold together, and the
    concrete inputs of Witness.v run on it. *)

From S2P Require Import Prelude Capability World Exec Syscall Alloc Flag FlagSpec IabSpec ExtInt.
From S2P Require Import File FileSpec Proc ProcSpec KernelLaws Launch LaunchSpec.
From stdpp Require Import gmap strings list sets.
From Stdlib Require Import ZArith Lia.

Open Scope Z_scope.

Record rkernel := mkRKernel {
  rk_creds : creds;
  rk_uid : Z;
  rk_gid : Z;
  rk_groups : list Z;
  rk_root : string;
  rk_attr : option (list Z);
  rk_fds : gset Z;
  rk_pipe : option Z
}.

Definition rk_last : Z := 40.
Definition rk_all : gset Z := list_to_set (seqZ 0 (rk_last + 1)).

(** The credentials, whatever was stored, within the rules of capabilities(7). *)
Definition sane (c : creds) : creds :=
  let p := cr_perm c ∩ rk_all in
  let i := cr_inh c ∩ rk_all in
  mkCreds (cr_eff c ∩ p) p i (cr_bound c ∩ rk_all) (cr_amb c ∩ (p ∩ i)) (cr_secbits c mod 256).

Definition rk_with_creds (k : rkernel) (c : creds) : rkernel :=
  mkRKernel c (rk_uid k) (rk_gid k) (rk_groups k) (rk_root k) (rk_attr k) (rk_fds k) (rk_pipe k).
Definition rk_with_ids (k : rkernel) (uid gid : Z) (groups : list Z) (root : string) : rkernel :=
  mkRKernel (rk_creds k) uid gid groups root (rk_attr k) (rk_fds k) (rk_pipe k).
Definition rk_with_file (k : rkernel) (attr : option (list Z)) (fds : gset Z) : rkernel :=
  mkRKernel (rk_creds k) (rk_uid k) (rk_gid k) (rk_groups k) (rk_root k) attr fds (rk_pipe k).
Definition rk_with_pipe (k : rkernel) (p : option Z) : rkernel :=
  mkRKernel (rk_creds k) (rk_uid k) (rk_gid k) (rk_groups k) (rk_root k) (rk_attr k) (rk_fds k) p.

(** Word [i] of a set of capabilities. *)
Definition word_of (X : gset Z) (i : Z) : Z :=
  foldr (fun b acc => if decide (32 * i + b ∈ X) then Z.lor (bit32 b) acc else acc) 0 (seqZ 0 32).
Definition blocks_of (c : creds) : list capblk :=
  map (fun i => mkBlk (word_of (cr_eff c) i) (word_of (cr_perm c) i) (word_of (cr_inh c) i)) [0; 1].

#[global] Instance capset_allowed_dec c d : Decision (capset_allowed c d).
Proof. unfold capset_allowed, u_wf, blk_wf. apply _. Defined.

Definition rk_prctl (k : rkernel) (cmd a1 a2 : Z) : Z * rkernel :=
  let c := sane (rk_creds k) in
  let priv := bool_decide (CAP_SETPCAP ∈ cr_eff c) in
  if cmd =? PR_CAPBSET_READ then
    (if a1 <=? rk_last then (if decide (a1 ∈ cr_bound c) then 1 else 0) else - EINVAL, k)
  else if cmd =? PR_GET_SECUREBITS then (cr_secbits c, k)
  else if cmd =? PR_SET_SECUREBITS then
    if priv && (0 <=? a1) && (a1 <? 256)
       && (Z.land (secbits_locked (cr_secbits c)) (Z.lxor a1 (cr_secbits c)) =? 0)
    then (0, rk_with_creds k (with_secbits a1 c)) else (- EPERM, k)
  else if cmd =? PR_CAPBSET_DROP then
    if negb ((0 <=? a1) && (a1 <=? rk_last)) then (- EINVAL, k)
    else if priv then (0, rk_with_creds k (with_bound (cr_bound c ∖ {[a1]}) c)) else (- EPERM, k)
  else if cmd =? PR_CAP_AMBIENT then
    if a1 =? PR_CAP_AMBIENT_IS_SET then
      (if a2 <=? rk_last then (if decide (a2 ∈ cr_amb c) then 1 else 0) else - EINVAL, k)
    else if a1 =? PR_CAP_AMBIENT_CLEAR_ALL then (0, rk_with_creds k (with_amb ∅ c))
    else if a1 =? PR_CAP_AMBIENT_RAISE then
      if bool_decide (a2 ∈ cr_perm c) && bool_decide (a2 ∈ cr_inh c)
         && (Z.land (cr_secbits c) SECBIT_NO_CAP_AMBIENT_RAISE =? 0)
      then (0, rk_with_creds k (with_amb ({[a2]} ∪ cr_amb c) c)) else (- EPERM, k)
    else if a1 =? PR_CAP_AMBIENT_LOWER then (0, rk_with_creds k (with_amb (cr_amb c ∖ {[a2]}) c))
    else (- EINVAL, k)
  else if (cmd =? PR_SET_NO_NEW_PRIVS) || (cmd =? PR_SET_KEEPCAPS) then (0, k)
  else (- EINVAL, k).

Definition rk_priv (k : rkernel) (cap : Z) : bool := bool_decide (cap ∈ cr_eff (sane (rk_creds k))).

Definition rk_call (k : rkernel) (req : sysreq) : Z * rkernel :=
  match req with
  | SYS_capset version pid data =>
      if decide (version = LINUX_CAPABILITY_VERSION_3 /\ pid = 0 /\
                 capset_allowed (sane (rk_creds k)) data)
      then (0, rk_with_creds k (after_capset (sane (rk_creds k)) data)) else (- EPERM, k)
  | SYS_prctl cmd a1 a2 _ _ _ => rk_prctl k cmd a1 a2
  | SYS_setuid uid =>
      if rk_priv k CAP_SETUID then (0, rk_with_ids k uid (rk_gid k) (rk_groups k) (rk_root k)) else (- EPERM, k)
  | SYS_setgid gid =>
      if rk_priv k CAP_SETGID then (0, rk_with_ids k (rk_uid k) gid (rk_groups k) (rk_root k)) else (- EPERM, k)
  | SYS_setgroups _ groups =>
      if rk_priv k CAP_SETGID then (0, rk_with_ids k (rk_uid k) (rk_gid k) groups (rk_root k)) else (- EPERM, k)
  | SYS_chroot path =>
      if rk_priv k CAP_SYS_CHROOT then (0, rk_with_ids k (rk_uid k) (rk_gid k) (rk_groups k) path) else (- EPERM, k)
  end.

#[global] Instance rk_kernel : Kernel rkernel := {
  sys_call := rk_call;
  sys_capget k version pid with_data :=
    if version =? LINUX_CAPABILITY_VERSION_3
    then mkCapget 0 version (if with_data then blocks_of (sane (rk_creds k)) else [])
    else mkCapget (- EINVAL) LINUX_CAPABILITY_VERSION_3 [];
  sys_chdir k path := (0, k);
  user_syscall fn k req := let '(r, k') := rk_call k req in (r, 0, k')
}.

(** One regular file, reached by any path and any open descriptor. *)
Definition rk_new_fd (fds : gset Z) : Z := foldr Z.max 2 (elements fds) + 1.

#[global] Instance rk_filesys : FileSys rkernel := {
  fs_open k path o_path :=
    (rk_new_fd (rk_fds k), rk_with_file k (rk_attr k) ({[rk_new_fd (rk_fds k)]} ∪ rk_fds k));
  fs_close k fd := rk_with_file k (rk_attr k) (rk_fds k ∖ {[fd]});
  fs_fstat k fd := (0, 0x8000);
  fs_getxattr k f size :=
    match rk_attr k with
    | None => (- ENODATA, [])
    | Some v => if Z.of_nat (length v) <=? size then (Z.of_nat (length v), v) else (- ERANGE, [])
    end;
  fs_setxattr k f v := (0, rk_with_file k (Some v) (rk_fds k));
  fs_removexattr k f := match rk_attr k with Some _ => (0, rk_with_file k None (rk_fds k)) | None => (- ENODATA, k) end
}.

(** One child, whose errno goes through the pipe. *)
#[global] Instance rk_process : Process rkernel := {
  user_setup fn detail k := (0, 0, k);
  sys_pipe2 k := (0, (3, 4), rk_with_pipe k None);
  sys_fork k := (100, k, k);
  child_gone kp kc := rk_with_pipe kp (rk_pipe kc);
  sys_set_name k name := k;
  sys_execve k path argv envp := if String.eqb path "/bin/true" then (0, k) else (- ENOENT, k);
  sys_write k fd e := (4, rk_with_pipe k (Some e));
  sys_read k fd := match rk_pipe k with Some e => (4, e, k) | None => (0, 0, k) end;
  sys_close_fd k fd := k;
  sys_waitpid k pid := k
}.

(** ** The laws hold *)

Lemma rk_open_fresh (X : gset Z) : rk_new_fd X ∉ X.
Proof.
  unfold rk_new_fd. intros H. apply elem_of_elements in H.
  assert (forall l x, x ∈ l -> x <= foldr Z.max 2 l) as Hmax.
  { induction l as [|y l IH]; intros x Hx; [by apply elem_of_nil in Hx|]. simpl.
    apply elem_of_cons in Hx as [->|Hx]; [lia|]. specialize (IH _ Hx). lia. }
  apply Hmax in H. lia.
Qed.

#[global] Instance rk_filesys_laws : FileSysLaws rkernel.
Proof.
  refine {| open_fds := rk_fds |}.
  - intros k k' fd v n [= <-] Hn. cbn. by destruct (Z.leb_spec (Z.of_nat (length v)) n); [|lia].
  - intros k path o r k' [= <- <-]. split.
    + intros H. exfalso. unfold rk_new_fd in H.
      assert (forall l, 2 <= foldr Z.max 2 l) as Hl by (induction l; simpl; lia).
      pose proof (Hl (elements (rk_fds k))). lia.
    + intros _. split; [apply rk_open_fresh|done].
  - done.
  - done.
  - intros k f. cbn. by destruct (rk_attr k).
Defined.

Lemma sane_valid c :
  (forall s, cr_set (sane c) s ⊆ rk_all) /\ cr_bound (sane c) ⊆ rk_all /\
  cr_eff (sane c) ⊆ cr_perm (sane c) /\ cr_amb (sane c) ⊆ cr_perm (sane c) ∩ cr_inh (sane c) /\
  0 <= cr_secbits (sane c) < 256.
Proof.
  unfold sane. generalize rk_all; intros R. cbn. split_and!; try set_solver.
  - intros s. unfold cr_set. cbn. repeat case_match; set_solver.
  - apply Z.mod_pos_bound. lia.
  - apply Z.mod_pos_bound. lia.
Qed.

(** Credentials within the rules are what they are. *)
Definition is_sane (c : creds) : Prop :=
  cr_eff c ⊆ cr_perm c /\ cr_perm c ⊆ rk_all /\ cr_inh c ⊆ rk_all /\ cr_bound c ⊆ rk_all /\
  cr_amb c ⊆ cr_perm c ∩ cr_inh c /\ 0 <= cr_secbits c < 256.

Lemma sane_id c : is_sane c -> sane c = c.
Proof.
  unfold is_sane, sane. generalize rk_all; intros R (H1&H2&H3&H4&H5&H6).
  destruct c as [e p i b a s]. cbn in *. rewrite (Z.mod_small s) by lia.
  assert (p ∩ R = p) as -> by set_solver. assert (i ∩ R = i) as -> by set_solver.
  f_equal; set_solver.
Qed.

Lemma sane_is_sane c : is_sane (sane c).
Proof.
  destruct (sane_valid c) as (Hs & Hb & He & Ha & Hsec). split_and!; try done; try lia.
  - apply (Hs CAP_PERMITTED).
  - apply (Hs CAP_INHERITABLE).
Qed.

Lemma word_of_testbit X i b :
  0 <= b < 32 -> Z.testbit (word_of X i) b = bool_decide (32 * i + b ∈ X).
Proof.
  intros Hb. unfold word_of.
  assert (forall l, (forall x, x ∈ l -> 0 <= x < 32) ->
    Z.testbit (foldr (fun b acc => if decide (32 * i + b ∈ X) then Z.lor (bit32 b) acc else acc) 0 l) b =
    bool_decide (32 * i + b ∈ X) && bool_decide (b ∈ l)) as Hl.
  { induction l as [|x l IH]; intros Hx.
    - rewrite Z.testbit_0_l. by rewrite (bool_decide_false (b ∈ [])), andb_false_r by apply not_elem_of_nil.
    - assert (0 <= x < 32) as Hx0 by (apply Hx; left). cbn [foldr].
      assert (Z.testbit (bit32 x) b = bool_decide (b = x)) as Hbit.
      { rewrite bit32_spec by lia. rewrite land31, Z.mod_small by lia.
        destruct (Z.eqb_spec b x); [by rewrite bool_decide_true|by rewrite bool_decide_false]. }
      assert (bool_decide (b ∈ x :: l) = bool_decide (b = x) || bool_decide (b ∈ l)) as ->.
      { apply eq_true_iff_eq. rewrite orb_true_iff, !bool_decide_eq_true. apply elem_of_cons. }
      specialize (IH (fun y Hy => Hx y (list_elem_of_further _ _ _ Hy))).
      destruct (decide (32 * i + x ∈ X)) as [Hd|Hd].
      + rewrite Z.lor_spec, IH, Hbit. destruct (decide (b = x)) as [->|Hne].
        * by rewrite !bool_decide_true by done.
        * by rewrite (bool_decide_false (b = x)) by done.
      + rewrite IH. destruct (decide (b = x)) as [->|Hne].
        * by rewrite (bool_decide_false (_ ∈ X)) by done.
        * by rewrite (bool_decide_false (b = x)) by done. }
  rewrite Hl by (intros x Hx; apply elem_of_seqZ in Hx; lia).
  rewrite (bool_decide_true (b ∈ _)) by (apply elem_of_seqZ; lia). apply andb_true_r.
Qed.

Lemma is_u32_word_of X i : is_u32 (word_of X i).
Proof.
  unfold word_of. induction (seqZ 0 32) as [|b l IH]; cbn [foldr]; [apply is_u32_0|].
  case_decide; [|done]. apply is_u32_lor; [apply is_u32_bit32|done].
Qed.

Lemma caps_of_blocks c s :
  is_sane c -> valid_set s -> caps_of (blocks_of c) s = cr_set c s.
Proof.
  intros (HEP & HP & HI & _) Hs.
  assert (cr_set c s ⊆ rk_all) as Hsub by (unfold cr_set; repeat case_match; [by etrans|done|done]).
  apply set_eq. intros x. rewrite elem_of_caps_of. unfold has_cap.
  destruct (decide (valid_cap x)) as [Hx|Hx].
  - pose proof (land31_bound x) as Hl.
    assert (flat (u_blk (blocks_of c) (CAP_TO_INDEX x)) s = word_of (cr_set c s) (CAP_TO_INDEX x)) as ->.
    { unfold valid_set, NUMBER_OF_CAP_SETS in Hs. assert (s = 0 \/ s = 1 \/ s = 2) as [->|[->| ->]] by lia;
      by destruct (index_bound x Hx) as [-> | ->]. }
    rewrite word_of_testbit, bool_decide_eq_true, <-cap_split by done. tauto.
  - split; [tauto|]. intros Hin. exfalso. apply Hx. apply Hsub in Hin. unfold rk_all in Hin.
    rewrite elem_of_list_to_set, elem_of_seqZ in Hin. unfold rk_last in Hin.
    unfold valid_cap. change CAP_MAXBITS with 64. lia.
Qed.

Lemma blocks_u_wf c : u_wf (blocks_of c).
Proof.
  apply (u_wf_pair (mkBlk _ _ _) (mkBlk _ _ _)); (split; [|split]); apply is_u32_word_of.
Qed.

Lemma sane_fixed c : sane (sane c) = sane c.
Proof. apply sane_id, sane_is_sane. Qed.

Lemma is_sane_bound b c : is_sane c -> b ⊆ cr_bound c -> is_sane (with_bound b c).
Proof. intros (?&?&?&?&?&?&?) ?. split_and!; try done. by etrans. Qed.
Lemma is_sane_amb a c : is_sane c -> a ⊆ cr_perm c ∩ cr_inh c -> is_sane (with_amb a c).
Proof. intros (?&?&?&?&?&?&?) ?. by split_and!. Qed.

#[global] Instance rk_laws : KernelLaws rkernel.
Proof.
  refine {| creds_of := fun k => sane (rk_creds k); last_cap := rk_last |}.
  - done.
  - intros k. apply sane_valid.
  - by intros k.
  - intros k. exists (blocks_of (sane (rk_creds k))). split.
    + split; [done|]. split; [done|]. apply blocks_u_wf.
    + intros s Hs. apply caps_of_blocks; [apply sane_is_sane|done].
  - intros k c Hc. cbn [sys_call rk_kernel rk_call]. unfold rk_prctl. rewrite Z.eqb_refl. done.
  - done.
  - done.
  - intros k d Hok. exists (rk_with_creds k (after_capset (sane (rk_creds k)) d)). split.
    + cbn [sys_call rk_kernel rk_call req_set]. unfold req_set. by rewrite decide_True.
    + cbn [rk_creds rk_with_creds]. apply sane_id. destruct Hok as (Hu & HP & HE & _ & HI).
      destruct (sane_is_sane (rk_creds k)) as (H1&H2&H3&H4&H5&H6).
      revert HP HE HI H1 H2 H3 H4 H5 H6. generalize (sane (rk_creds k)). unfold is_sane, after_capset. cbn.
      generalize rk_all. generalize (caps_of d CAP_EFFECTIVE), (caps_of d CAP_PERMITTED), (caps_of d CAP_INHERITABLE).
      intros E P I R c. intros. split_and!; try set_solver; lia.
  - intros k d Hu Hno. cbn [sys_call rk_kernel rk_call req_set]. unfold req_set.
    by rewrite decide_False by (intros (_ & _ & H); by apply Hno).
  - intros k s Hp Hs Hf. exists (rk_with_creds k (with_secbits s (sane (rk_creds k)))). split.
    + cbn [sys_call rk_kernel rk_call]. unfold rk_prctl.
      change (PR_SET_SECUREBITS =? PR_CAPBSET_READ) with false. change (PR_SET_SECUREBITS =? PR_GET_SECUREBITS) with false.
      rewrite Z.eqb_refl, bool_decide_true, Hf by done. cbn [andb].
      destruct (Z.leb_spec 0 s); [|lia]. by destruct (Z.ltb_spec s 256); [|lia].
    + cbn [rk_creds rk_with_creds]. apply sane_id. destruct (sane_is_sane (rk_creds k)) as (?&?&?&?&?&?).
      destruct Hs. by split_and!.
  - intros k c Hp Hc. exists (rk_with_creds k (with_bound (cr_bound (sane (rk_creds k)) ∖ {[c]}) (sane (rk_creds k)))).
    split.
    + cbn [sys_call rk_kernel rk_call]. unfold rk_prctl.
      change (PR_CAPBSET_DROP =? PR_CAPBSET_READ) with false. change (PR_CAPBSET_DROP =? PR_GET_SECUREBITS) with false.
      change (PR_CAPBSET_DROP =? PR_SET_SECUREBITS) with false.
      rewrite Z.eqb_refl, bool_decide_true by done.
      destruct (Z.leb_spec 0 c); [|lia]. by destruct (Z.leb_spec c rk_last); [|lia].
    + cbn [rk_creds rk_with_creds]. apply sane_id.
      apply is_sane_bound; [apply sane_is_sane|]. set_solver.
  - intros k. exists (rk_with_creds k (with_amb ∅ (sane (rk_creds k)))). split; [done|].
    cbn [rk_creds rk_with_creds]. apply sane_id.
    apply is_sane_amb; [apply sane_is_sane|]. set_solver.
  - intros k c Hp Hi Hs. exists (rk_with_creds k (with_amb ({[c]} ∪ cr_amb (sane (rk_creds k))) (sane (rk_creds k)))).
    split.
    + cbn [sys_call rk_kernel rk_call]. unfold rk_prctl.
      change (PR_CAP_AMBIENT =? PR_CAPBSET_READ) with false. change (PR_CAP_AMBIENT =? PR_GET_SECUREBITS) with false.
      change (PR_CAP_AMBIENT =? PR_SET_SECUREBITS) with false. change (PR_CAP_AMBIENT =? PR_CAPBSET_DROP) with false.
      rewrite Z.eqb_refl. change (PR_CAP_AMBIENT_RAISE =? PR_CAP_AMBIENT_IS_SET) with false.
      change (PR_CAP_AMBIENT_RAISE =? PR_CAP_AMBIENT_CLEAR_ALL) with false.
      by rewrite Z.eqb_refl, !bool_decide_true, Hs by done.
    + cbn [rk_creds rk_with_creds]. apply sane_id.
      apply is_sane_amb; [apply sane_is_sane|]. destruct (sane_is_sane (rk_creds k)) as (_&_&_&_&H5&_).
      revert Hp Hi H5. generalize (sane (rk_creds k)). intros cr. set_solver.
  - intros k. by exists k.
Defined.

(** ** Processes *)

Lemma rk_call_pipe k r : rk_pipe (rk_call k r).2 = rk_pipe k.
Proof.
  unfold rk_call, rk_prctl. by destruct r; cbn zeta beta iota; repeat case_match.
Qed.

#[global] Instance rk_process_laws : ProcessLaws rkernel.
Proof.
  refine {| msg := rk_pipe |}; try done.
  - apply rk_call_pipe.
  - intros fn k r. cbn [user_syscall rk_kernel]. rewrite <- (rk_call_pipe k r). by destruct (rk_call k r).
  - intros k path argv envp. cbn. by destruct (String.eqb path "/bin/true").
  - intros k r ps k' [= <- _ <-] _. done.
  - by intros k r kp kc [= <- <- <-].
  - intros k fd. cbn. by destruct (rk_pipe k).
Defined.
