(* ===== verification/Witness.v ===== *)
(** Concrete inputs at which the hypotheses of the theorems hold: a world with
    a capability set, an IAB tuple, a string and a launcher, on the executable
    kernel of RefKernel.v. *)

From S2P Require Import Prelude Capability World Exec Syscall Alloc Flag FlagSpec IabSpec ExtInt.
From S2P Require Import File FileSpec Proc ProcSpec KernelLaws ModeSpec Launch RefKernel.
From S2P Require Import IabProcSpec LaunchSpec.
From stdpp Require Import gmap strings list sets.
From Stdlib Require Import ZArith Lia.

Open Scope Z_scope.

(** ** The world *)

Definition g_demo : globals := mkGlobals 41 false false false SC_libc SC_libc 0.
Definition creds_demo : creds :=
  mkCreds ∅ {[CAP_CHOWN; CAP_SETUID; CAP_SETPCAP]} {[CAP_CHOWN]} rk_all ∅ 0.
Definition k_demo : rkernel := mkRKernel creds_demo 1000 1000 [] "/" None ∅ None.

Definition c_demo : cap_struct :=
  mkCap false LINUX_CAPABILITY_VERSION_3 0 [mkBlk 1 3 1; mkBlk 0 0 0] 0.
Definition c_other : cap_struct :=
  mkCap false LINUX_CAPABILITY_VERSION_3 0 [mkBlk 3 3 0; mkBlk 256 256 0] 1000.
Definition t_demo : cap_iab_s := mkIab false [3; 0] [1; 0] [4; 0].
Definition t_owned : cap_iab_s := mkIab true [0; 0] [0; 0] [0; 0].
Definition l_demo : cap_launch_s :=
  mkLaunch false 0 true 1000 false 0 0 [] false 0 56 72 (Some "/bin/true") (Some ["true"]) None.

Definition w_empty : world rkernel := mkWorld ∅ 8 [] 0 g_demo k_demo [].
(** Addresses 8, 24, 40, 56, 72 and 88 in turn. *)
Definition demo_objects : list obj :=
  [OCap c_demo; OCap c_other; OIab t_demo; OIab t_owned; OStr "/jail"; OLaunch l_demo].
Definition w_demo : world rkernel := foldl (fun w o => placed o w) w_empty demo_objects.
(** The same without memory left. *)
Definition w_poor : world rkernel :=
  mkWorld (heap w_demo) (next w_demo) [false] 0 g_demo k_demo [].
(** The same before the start-up probe. *)
Definition w_raw : world rkernel :=
  mkWorld (heap w_demo) (next w_demo) [] 0 (set_max_bits 0 g_demo) k_demo [].

Lemma is_u32_small x : (0 <=? x) && (x <? 4294967296) = true -> is_u32 x.
Proof. rewrite andb_true_iff, Z.leb_le, Z.ltb_lt. done. Qed.

Ltac wf_words := repeat first [apply Forall_nil_2 | apply Forall_cons_2 | apply conj | reflexivity
  | apply is_u32_small; reflexivity].

Lemma w_demo_wf : world_wf w_demo.
Proof.
  unfold w_demo, demo_objects. cbn [foldl].
  assert (world_wf w_empty) as H0 by (split; [done|]; intros p o Hp; by rewrite (lookup_empty (M := gmap Z) p : heap w_empty !! p = None) in Hp).
  repeat (apply world_wf_placed; [|first [exact I | wf_words]]). exact H0.
Qed.

Lemma w_poor_wf : world_wf w_poor.
Proof. destruct w_demo_wf. by split. Qed.

Lemma w_demo_ok : mem_ok w_demo.
Proof. done. Qed.

Lemma demo_probe : capget_probe_ok k_demo.
Proof. apply law_probe. Qed.

Lemma c_demo_wf : u_wf (c_u c_demo).
Proof. wf_words. Qed.

(** Membership in the sets of a concrete object. *)
Ltac in_caps := apply elem_of_caps_of; split; [done|reflexivity].

(** ** cap_alloc.c *)

Lemma libcap_initialize_bounds_witness :
  exists w', libcap_initialize w_raw = (Ok tt, w') /\ 1 <= g_max_bits (glob w') <= CAP_MAXBITS.
Proof.
  destruct (libcap_initialize_bounds w_raw eq_refl eq_refl) as (w' & H & Hb & _).
  exists w'. split; [exact H|exact Hb].
Defined.

Lemma demo_bound_top : bound_top 40 k_demo.
Proof.
  intros x Hx. eexists. split; [reflexivity|]. unfold rk_last. cbn.
  destruct (Z.leb_spec x 40); [case_decide|]; unfold EINVAL; lia.
Qed.

Lemma libcap_initialize_correct_witness :
  libcap_initialize w_raw = (Ok tt, with_glob (set_max_bits 41 (loaded_syscalls (glob w_raw))) w_raw).
Proof.
  apply (libcap_initialize_correct w_raw 40 eq_refl eq_refl demo_bound_top). split; reflexivity || discriminate.
Defined.

Lemma libcap_initialize_once_witness : libcap_initialize w_demo = (Ok tt, w_demo).
Proof. apply (libcap_initialize_once w_demo); [reflexivity|discriminate]. Defined.

Lemma cap_free_correct_witness :
  cap_free 8 w_demo = (Ok 0, with_heap (delete 8 (heap w_demo)) w_demo) /\
  cap_free 4 w_demo = (Ok (-1), with_errno EINVAL w_demo) /\
  cap_free 88 w_demo = (Ok 0, with_heap (delete 88 (delete 56 (delete 72 (heap w_demo)))) w_demo).
Proof.
  split; [|split].
  - apply (proj1 (proj2 (proj2 (cap_free_correct 8 w_demo w_demo_wf))) (OCap c_demo)); reflexivity.
  - apply (proj1 (proj2 (cap_free_correct 4 w_demo w_demo_wf))); [discriminate|reflexivity].
  - apply (proj1 (proj2 (proj2 (proj2 (cap_free_correct 88 w_demo w_demo_wf)))) l_demo); [reflexivity|].
    split; right; [exists t_owned|exists "/jail"]; reflexivity.
Defined.

Lemma cap_free_twice_witness :
  let w' := with_heap (delete 8 (heap w_demo)) w_demo in
  cap_free 8 w_demo = (Ok 0, w') /\ cap_free 8 w' = (Ok (-1), with_errno EINVAL w').
Proof.
  split; [vm_compute; reflexivity|].
  apply (cap_free_twice 8 (OCap c_demo) w_demo); [apply w_demo_wf|reflexivity|discriminate|].
  vm_compute; reflexivity.
Defined.

Lemma cap_dup_correct_witness :
  (exists q w', cap_dup 8 w_demo = (Ok q, w') /\ heap w' = <[q := OCap c_demo]> (heap w_demo)) /\
  cap_dup 8 w_poor = (Ok 0, with_errno ENOMEM (popped w_poor)) /\
  cap_dup 40 w_demo = (Ok 0, with_errno EINVAL w_demo).
Proof.
  split; [|split].
  - destruct (proj1 (cap_dup_correct 8 w_demo w_demo_wf demo_probe) c_demo) as (q & w' & H & _ & _ & _ & Hh & _);
      [reflexivity..|]. exists q, w'. split; [exact H|exact Hh].
  - apply (proj1 (proj2 (cap_dup_correct 8 w_poor w_poor_wf demo_probe)) c_demo); reflexivity.
  - apply (proj2 (proj2 (cap_dup_correct 40 w_demo w_demo_wf demo_probe))). discriminate.
Defined.

(** ** cap_flag.c *)

Lemma cap_set_flag_correct_witness :
  exists u', cap_set_flag 8 CAP_EFFECTIVE 2 [1; 77] CAP_SET w_demo =
      (Ok 0, with_heap (<[8 := OCap (with_u (fun _ => u') c_demo)]> (heap w_demo)) w_demo) /\
    caps_of u' CAP_EFFECTIVE = caps_of (c_u c_demo) CAP_EFFECTIVE ∪ named_caps [1; 77].
Proof.
  destruct (cap_set_flag_correct 8 c_demo CAP_EFFECTIVE 2 [1; 77] CAP_SET w_demo)
    as (u' & _ & H & Hc & _); [apply w_demo_wf|reflexivity|reflexivity|split; reflexivity|discriminate
    |split; discriminate || reflexivity|left; reflexivity|]. exists u'. split; [exact H|exact Hc].
Defined.

Lemma cap_set_flag_rejects_witness :
  cap_set_flag 8 3 1 [1] CAP_SET w_demo = (Ok (-1), with_errno EINVAL w_demo).
Proof. apply (cap_set_flag_rejects 8 3 1 [1] CAP_SET w_demo). right; right; left. unfold valid_set, NUMBER_OF_CAP_SETS. lia. Defined.

Lemma cap_get_flag_correct_witness :
  cap_get_flag 8 1 CAP_PERMITTED true w_demo = (Ok (0, Some CAP_SET), w_demo) /\
  cap_get_flag 8 64 CAP_PERMITTED true w_demo = (Ok (-1, None), with_errno EINVAL w_demo).
Proof.
  split.
  - rewrite (proj1 (cap_get_flag_correct 8 c_demo 1 CAP_PERMITTED w_demo w_demo_wf eq_refl eq_refl)).
    rewrite decide_True by done. rewrite decide_True by in_caps. reflexivity.
  - rewrite (proj1 (cap_get_flag_correct 8 c_demo 64 CAP_PERMITTED w_demo w_demo_wf eq_refl eq_refl)).
    rewrite decide_False; [reflexivity|]. unfold valid_cap. change CAP_MAXBITS with 64. lia.
Defined.

Lemma cap_clear_correct_witness :
  exists u', cap_clear_flag 8 CAP_PERMITTED w_demo =
      (Ok 0, with_heap (<[8 := OCap (with_u (fun _ => u') c_demo)]> (heap w_demo)) w_demo) /\
    caps_of u' CAP_PERMITTED = ∅.
Proof.
  destruct (proj1 (proj2 (cap_clear_correct 8 c_demo w_demo w_demo_wf eq_refl eq_refl)) CAP_PERMITTED)
    as (u' & H & _ & Hc); [split; discriminate || reflexivity|]. exists u'. split; [exact H|].
  specialize (Hc CAP_PERMITTED). rewrite decide_True in Hc by reflexivity.
  apply Hc. split; discriminate || reflexivity.
Defined.

Lemma cap_fill_flag_correct_witness :
  exists u', cap_fill_flag 8 CAP_EFFECTIVE 8 CAP_PERMITTED w_demo =
      (Ok 0, with_heap (<[8 := OCap (with_u (fun _ => u') c_demo)]> (heap w_demo)) (spent w_demo)) /\
    caps_of u' CAP_EFFECTIVE = caps_of (c_u c_demo) CAP_PERMITTED.
Proof.
  destruct (proj1 (cap_fill_flag_correct 8 c_demo CAP_EFFECTIVE 8 c_demo CAP_PERMITTED w_demo
    w_demo_wf eq_refl eq_refl eq_refl eq_refl demo_probe)) as (u' & _ & H & Hc);
    [split; discriminate || reflexivity..|reflexivity|]. exists u'. split; [exact H|].
  specialize (Hc CAP_EFFECTIVE). rewrite decide_True in Hc by reflexivity.
  apply Hc. split; discriminate || reflexivity.
Defined.

Lemma cap_compare_correct_witness :
  exists r, cap_compare 8 24 w_demo = (Ok r, spent w_demo) /\ (r = 0 <-> c_u c_demo = c_u c_other).
Proof.
  destruct (cap_compare_correct 8 24 c_demo c_other w_demo w_demo_wf eq_refl eq_refl eq_refl eq_refl
    demo_probe w_demo_ok) as (r & H & Hr & _). exists r. split; [exact H|exact Hr].
Defined.

Lemma t_demo_inv : iab_inv t_demo.
Proof.
  intros x. rewrite !elem_of_vec_caps. intros [Hx Hb]. split; [done|]. revert Hb.
  unfold vec_bit, word. pose proof (land31_bound x). destruct (index_bound x Hx) as [-> | ->]; cbn.
  - change (Z.testbit (Z.land 3 1) (Z.land x 31) = true -> Z.testbit 3 (Z.land x 31) = true).
    rewrite Z.land_spec. by intros [? _]%andb_true_iff.
  - done.
Qed.

Lemma w_demo_bits : max_bits_ok w_demo.
Proof. split; discriminate. Qed.

Lemma cap_iab_set_vector_correct_witness :
  exists t', cap_iab_set_vector 40 CAP_IAB_AMB 5 1 w_demo =
      (Ok 0, with_heap (<[40 := OIab t']> (heap w_demo)) w_demo) /\ iab_inv t' /\
    v_a (view t') = v_a (view t_demo) ∪ {[5]}.
Proof.
  pose proof (cap_iab_set_vector_correct 40 t_demo CAP_IAB_AMB 5 1 w_demo w_demo_wf eq_refl eq_refl
    t_demo_inv w_demo_bits) as H.
  rewrite decide_True in H by (split; [right; left; reflexivity|split; [done|split; done]]).
  destruct H as (t' & H & _ & _ & Hi & Hv); [discriminate|]. exists t'. split; [exact H|split; [exact Hi|]].
  rewrite Hv. reflexivity.
Defined.

Lemma cap_iab_fill_correct_witness :
  exists t', cap_iab_fill 40 CAP_IAB_BOUND 24 CAP_PERMITTED w_demo =
      (Ok 0, with_heap (<[40 := OIab t']> (heap w_demo)) (spent w_demo)) /\
    v_nb (view t') = all_caps ∖ caps_of (c_u c_other) CAP_PERMITTED.
Proof.
  destruct (proj1 (cap_iab_fill_correct 40 t_demo CAP_IAB_BOUND 24 c_other CAP_PERMITTED w_demo
    w_demo_wf eq_refl eq_refl t_demo_inv eq_refl eq_refl demo_probe w_demo_ok)) as (t' & H & _ & _ & _ & Hv);
    [split; discriminate || reflexivity|right; right; reflexivity|].
  exists t'. split; [exact H|]. rewrite Hv. reflexivity.
Defined.

Lemma cap_iab_compare_correct_witness :
  (exists r, cap_iab_compare 40 40 w_demo = (Ok r, spent w_demo) /\ (r = 0 <-> view t_demo = view t_demo)) /\
  exists r, cap_iab_get_vector 40 CAP_IAB_INH 1 w_demo = (Ok r, w_demo).
Proof.
  destruct (cap_iab_compare_correct 40 t_demo 40 t_demo w_demo w_demo_wf eq_refl eq_refl eq_refl eq_refl
    w_demo_ok w_demo_bits) as [(r & H & Hr & _) Hg]. split; [exists r; split; [exact H|exact Hr]|].
  destruct (Hg CAP_IAB_INH 1) as (b & Hb & _); [left; reflexivity|]. exists b. exact Hb.
Defined.

(** ** cap_extint.c *)

Definition buf_demo : list Z := replicate 40 0.

Lemma buf_demo_bytes : Forall is_byte buf_demo.
Proof. apply Forall_replicate. unfold is_byte. lia. Qed.

Lemma ext_roundtrip_witness :
  exists buf', cap_copy_ext (Some buf_demo) 8 40 w_demo = (Ok (29, Some buf'), w_demo) /\
    exists q w', cap_copy_int (Some buf') w_demo = (Ok q, w') /\
      heap w' = <[q := OCap (with_u (fun _ => c_u c_demo) cap_blank)]> (heap w_demo).
Proof.
  destruct (ext_roundtrip 8 c_demo buf_demo 40 w_demo w_demo_wf eq_refl eq_refl ltac:(discriminate)
    ltac:(discriminate) buf_demo_bytes w_demo_ok demo_probe) as (buf' & H & _ & _ & Hq).
  exists buf'. split; [exact H|]. destruct (Hq 29 ltac:(discriminate)) as (q & w' & Hi & _ & _ & Hh).
  exists q, w'. split; [exact Hi|exact Hh].
Defined.

Lemma cap_size_and_errors_witness :
  cap_size 8 w_demo = (Ok 29, w_demo) /\
  cap_copy_ext (Some buf_demo) 8 28 w_demo = (Ok (-1, Some buf_demo), with_errno EINVAL w_demo).
Proof.
  destruct (cap_size_and_errors 8 w_demo w_demo_wf) as (H1 & _ & H3 & _). split.
  - apply (H1 c_demo); reflexivity.
  - apply (H3 c_demo buf_demo 28); reflexivity.
Defined.

(** A short form of older times: three bytes per flag, capability 23 permitted. *)
Definition ext_short : list Z :=
  external_magic ++ [3] ++ [0; 0; 0; 0; 0; 0; 0; 128; 0].

Lemma ext_short_valid : ext_valid ext_short 3.
Proof.
  split; [reflexivity|]. split; [reflexivity|]. split.
  - repeat apply Forall_cons_2; try apply Forall_nil_2; unfold is_byte; lia.
  - split; [lia|]. intros n s Hn Hs. change (Z.min 3 CAP_SET_SIZE) with 3 in Hn.
    apply lookup_lt_is_Some_2. change (length ext_short) with 14%nat.
    unfold ext_offset, valid_set, CAP_EXT_MAGIC_SIZE, NUMBER_OF_CAP_SETS in *. lia.
Qed.

Lemma cap_copy_int_correct_witness :
  exists c w', cap_copy_int (Some ext_short) w_demo = (Ok (next w_demo), w') /\
    23 ∈ caps_of (c_u c) CAP_PERMITTED.
Proof.
  destruct (proj1 (cap_copy_int_correct ext_short 3 w_demo w_demo_wf w_demo_ok demo_probe) ext_short_valid)
    as (c & w' & H & _ & _ & _ & Hc). exists c, w'. split; [exact H|].
  apply (Hc 23 CAP_PERMITTED); [split; discriminate || reflexivity..|]. split; [reflexivity|].
  exists 128. split; reflexivity.
Defined.

Lemma cap_copy_int_check_safe_witness :
  (exists q w', cap_copy_int_check (Some ext_short) 14 w_demo = (Ok q, w')) /\
  cap_copy_int_check None 29 w_demo = (Fault, w_demo).
Proof.
  destruct (cap_copy_int_check_safe 14 w_demo w_demo_wf w_demo_ok demo_probe) as [H _].
  destruct (cap_copy_int_check_safe 29 w_demo w_demo_wf w_demo_ok demo_probe) as [_ H'].
  split; [|apply H'; discriminate].
  destruct (H ext_short) as (q & w' & Hq & _); [apply ext_short_valid|discriminate|]. exists q, w'. exact Hq.
Defined.

(** ** cap_file.c *)

Definition stack_demo : list Z := replicate 24 7.

Lemma c_other_file_ok : file_ok (c_u c_other).
Proof. right. apply cover_words; [wf_words..|]. split; reflexivity. Qed.

Lemma c_demo_not_file_ok : ~ file_ok (c_u c_demo).
Proof.
  intros [H|H].
  - assert (0 ∈ caps_of (c_u c_demo) CAP_EFFECTIVE) as H0 by in_caps. rewrite H in H0.
    by apply not_elem_of_empty in H0.
  - assert (1 ∈ caps_of (c_u c_demo) CAP_PERMITTED) as H1 by in_caps.
    apply (elem_of_union_l (A := Z)) with (Y := caps_of (c_u c_demo) CAP_INHERITABLE), H in H1.
    apply elem_of_caps_of in H1 as [_ H1]. discriminate.
Qed.

Lemma file_roundtrip_witness :
  exists w1, cap_set_fd stack_demo 9 24 w_demo = (Ok 0, w1) /\
  exists q w2 c', cap_get_fd stack_demo 9 w1 = (Ok q, w2) /\ heap w2 = <[q := OCap c']> (heap w_demo) /\
    c_rootid c' = 1000 /\ caps_of (c_u c') CAP_PERMITTED = caps_of (c_u c_other) CAP_PERMITTED.
Proof.
  destruct (file_roundtrip stack_demo stack_demo 9 24 c_other
    (fun v => rk_with_file k_demo (Some v) ∅) w_demo 0x8000 w_demo_wf eq_refl eq_refl eq_refl)
    as (w1 & H1 & _ & q & w2 & c' & H2 & _ & Hh & _ & Hr & Hc);
    [split; reflexivity || discriminate|exact c_other_file_ok|reflexivity..| |reflexivity|].
  { intros v. split; [reflexivity|apply law_probe]. }
  exists w1. split; [exact H1|]. exists q, w2, c'. split; [exact H2|]. split; [exact Hh|]. split; [exact Hr|].
  rewrite Hc by (split; discriminate || reflexivity). reflexivity.
Defined.

Lemma fcaps_save_correct_witness :
  (exists raw, fcaps_save stack_demo 24 w_demo = (Ok (Some (raw, 24)), w_demo)) /\
  fcaps_save stack_demo 8 w_demo = (Ok None, with_errno EINVAL w_demo).
Proof.
  split.
  - destruct (proj1 (proj1 (fcaps_save_correct stack_demo 24 c_other w_demo w_demo_wf eq_refl eq_refl) eq_refl)
      c_other_file_ok) as (raw & n & H & Hn & _). change (n = 24) in Hn. subst n. exists raw. exact H.
  - apply (proj2 (proj1 (fcaps_save_correct stack_demo 8 c_demo w_demo w_demo_wf eq_refl eq_refl) eq_refl)
      c_demo_not_file_ok).
Defined.

Lemma cap_get_file_errors_witness :
  cap_get_ref stack_demo (ByPath "/bin/ping") w_demo = (Ok 0, with_errno ENODATA (spent w_demo)).
Proof.
  apply (proj1 (cap_get_file_errors (FileSys0 := rk_filesys) stack_demo (ByPath "/bin/ping") w_demo
    (- ENODATA) [] w_demo_wf w_demo_ok demo_probe eq_refl)). reflexivity.
Defined.

Lemma cap_set_file_closes_witness :
  exists r w', cap_set_file stack_demo "/bin/ping" 24 w_demo = (Ok r, w') /\
    open_fds (kst w') = open_fds (kst w_demo).
Proof.
  destruct (cap_set_file_closes stack_demo "/bin/ping" 24 w_demo w_demo_wf) as (r & w' & H & _ & Hf & _).
  - intros c [= <-]. reflexivity.
  - exists r, w'. split; [exact H|exact Hf].
Defined.

(** ** cap_proc.c *)

Lemma demo_self : capget_self k_demo (blocks_of (sane creds_demo)).
Proof. split; [reflexivity|]. apply blocks_u_wf. Qed.


Lemma cap_setgroups_requests_witness :
  exists r e k, cap_setgroups_sc singlethread 500 1 [501] w_demo = (Ok r, done_with e k w_demo).
Proof.
  destruct (cap_setgroups_requests singlethread 500 1 [501] _ w_demo w_demo_wf w_demo_ok demo_probe demo_self)
    as (r & e & k & g1 & g2 & H & _). exists r, e, k. exact H.
Defined.

Lemma demo_direct sc : direct sc w_demo.
Proof. discriminate. Qed.

Lemma demo_setpcap : CAP_SETPCAP ∈ cr_perm (creds_of (kst w_demo)).
Proof.
  change (creds_of (kst w_demo)) with (sane creds_demo). unfold sane, rk_all. cbn -[seqZ].
  apply elem_of_intersection. split.
  - apply elem_of_union_r, elem_of_singleton_2. reflexivity.
  - apply elem_of_list_to_set, elem_of_seqZ. unfold CAP_SETPCAP, rk_last. lia.
Qed.

Lemma cap_set_mode_correct_witness :
  exists w', cap_set_mode CAP_MODE_NOPRIV w_demo = (Ok 0, w') /\ cr_perm (creds_of (kst w')) = ∅.
Proof.
  destruct (cap_set_mode_correct CAP_MODE_NOPRIV w_demo w_demo_wf eq_refl (demo_direct _)
    (or_introl eq_refl) demo_setpcap eq_refl) as (w' & H & _ & _ & Hc).
  exists w'. split; [exact H|]. rewrite Hc. reflexivity.
Defined.

Lemma cap_mode_roundtrip_witness :
  exists w1 w2, cap_set_mode CAP_MODE_PURE1E_INIT w_demo = (Ok 0, w1) /\
    cap_get_mode w1 = (Ok CAP_MODE_PURE1E_INIT, w2).
Proof.
  destruct (cap_mode_roundtrip CAP_MODE_PURE1E_INIT w_demo w_demo_wf eq_refl (demo_direct _)
    (or_intror (or_introl eq_refl)) demo_setpcap eq_refl) as (w1 & w2 & H1 & H2 & _).
  exists w1, w2. split; [exact H1|exact H2].
Defined.
(** A process whose CAP_SETPCAP is effective. *)
Definition k_priv : rkernel :=
  mkRKernel (mkCreds {[CAP_SETPCAP]} {[CAP_CHOWN; CAP_SETUID; CAP_SETPCAP]} {[CAP_CHOWN]} rk_all ∅ 0)
    1000 1000 [] "/" None ∅ None.
Definition w_priv : world rkernel := with_kst k_priv w_demo.

Lemma w_priv_wf : world_wf w_priv.
Proof. destruct w_demo_wf. by split. Qed.

Lemma vec_caps_run v : vec_caps v = vec_caps_def v.
Proof. unfold vec_caps. by rewrite (seal_eq vec_caps_aux). Qed.

(** Facts about concrete finite sets, by computation. *)
Ltac decide_sets := rewrite ?vec_caps_run;
  lazymatch goal with |- ?P => apply (proj1 (bool_decide_eq_true P)) end; vm_compute; reflexivity.

Lemma demo_counted : counted w_demo /\ counted w_priv.
Proof. split; reflexivity. Qed.

Lemma cap_iab_get_proc_correct_witness :
  exists t w', cap_iab_get_proc w_demo = (Ok 104, w') /\ heap w' !! 104 = Some (OIab t) /\
    v_i (view t) = {[CAP_CHOWN]}.
Proof.
  destruct (cap_iab_get_proc_correct w_demo w_demo_wf eq_refl (proj1 demo_counted)) as (t & H & _ & _ & _ & Hv).
  eexists t, _. split; [exact H|]. split; [apply lookup_insert_eq|]. rewrite Hv.
  cbn [creds_view v_i]. decide_sets.
Defined.


(** A launcher that lowers the user number and runs a program, on a process that
    may do so and on one that may not. *)
Definition l_run : cap_launch_s :=
  mkLaunch false 0 true 1000 false 0 0 [] false 0 0 0 (Some "/bin/true") (Some ["true"]) None.

Definition w_bare : world rkernel :=
  with_kst (mkRKernel (mkCreds ∅ ∅ ∅ rk_all ∅ 0) 1000 1000 [] "/" None ∅ None) w_demo.

Lemma launch_runs : exists w', cap_launch 104 0 (placed (OLaunch l_run) w_priv) =
  (Ok (100, Some (Execed "/bin/true" (Some ["true"]) None)), w').
Proof. eexists. vm_compute. reflexivity. Qed.
Lemma launch_refused : exists w', cap_launch 104 0 (placed (OLaunch l_run) w_bare) = (Ok (-1, Some (Exited 1)), w').
Proof. eexists. vm_compute. reflexivity. Qed.

Lemma cap_launch_correct_witness :
  (exists w1 w2 : world rkernel, privileged (launch_with_mutex true l_run) w1 w2) /\
  (exists w', cap_launch 104 0 (placed (OLaunch l_run) w_bare) = (Ok (-1, Some (Exited 1)), w') /\ errno w' = ECHILD).
Proof.
  split.
  - pose proof (cap_launch_correct 104 0 l_run (placed (OLaunch l_run) w_priv) ltac:(discriminate) (lookup_insert_eq _ _ _) eq_refl) as H.
    destruct launch_runs as (w' & E). rewrite E in H. destruct H as (_ & _ & k & wc' & (_ & _ & _ & _ & w1 & w2 & _ & Hp & _) & _).
    exists w1, w2. exact Hp.
  - pose proof (cap_launch_correct 104 0 l_run (placed (OLaunch l_run) w_bare) ltac:(discriminate) (lookup_insert_eq _ _ _) eq_refl) as H.
    destruct launch_refused as (w' & E). rewrite E in H. destruct H as (_ & _ & k & wc' & _ & _ & He).
    exists w'. split; [exact E|exact He].
Defined.
