(* ===== verification/WitnessText.v ===== *)
(** Concrete inputs for the theorems on the text forms, in a build with gperf
    and in one without. *)

From Stdlib Require Import ZArith Lia String Ascii.
From stdpp Require Import gmap strings list sets.
From S2P Require Import Prelude Capability World Exec Syscall Alloc Flag FlagSpec IabSpec Proc RefKernel Text TextLex.
From S2P Require Import TextSpec TextParse TextPrint TextToText TextRound IabText Witness.

Open Scope string_scope.
Open Scope Z_scope.

(** A lookup by search that does what gperf's table does. *)
Definition gperf_search (s : string) : option Z :=
  snd <$> list_find (fun n => str_lower s = cap_name n) (seqZ 0 CAP_BITS).

Lemma gperf_search_ok : gperf_ok (Some gperf_search).
Proof.
  intros s n. unfold gperf_search. rewrite fmap_Some. split.
  - intros ([i m] & H & ->). apply list_find_Some in H as (Hi & Hs & _). apply lookup_seqZ in Hi as [-> Hi]. cbn.
    split; [lia|done].
  - intros [Hn Hs]. destruct (list_find (fun n => str_lower s = cap_name n) (seqZ 0 CAP_BITS)) as [[i m]|] eqn:E.
    + apply list_find_Some in E as (Hi & Hm & _). apply lookup_seqZ in Hi as [-> Hi]. eexists. split; [done|]. cbn.
      apply cap_names_distinct; [done|lia|congruence].
    + apply list_find_None in E. rewrite Forall_forall in E. exfalso. apply (E n); [|done].
      apply elem_of_seqZ. lia.
Qed.

Lemma w_demo_text : text_world w_demo.
Proof. split; [apply w_demo_wf|]. split; [done|]. split; [apply demo_probe|]. by split. Qed.

(** " cap_chown,0x1=ep-p CAP_KILL+i" *)
Definition demo_clauses : list (clause_t * string) :=
  [(Clause [OneCap "cap_chown" 0; OneCap "0x1" 1] OpSet [Le; Lp] [(false, Lp, [])], " ");
   (Clause [OneCap "CAP_KILL" 5] OpAdd [Li] [], "")].

Lemma demo_clauses_ok gperf : gperf_ok gperf -> text_ok gperf 41 " " demo_clauses.
Proof.
  intros Hg. split; [done|]. split; [by split_and!|].
  repeat (apply Forall_cons_2 || apply Forall_nil_2); (split; [|by intros [?|?]]); cbn [fst cl_refs];
    repeat (apply Forall_cons_2 || apply Forall_nil_2); cbn [ref_ok].
  - by apply token_name.
  - by apply token_number.
  - by apply token_name.
Qed.


Lemma cap_from_text_total_witness :
  (exists c, cap_from_text (Some gperf_search) (Some "all=e") w_demo = (Ok 104, placed (OCap c) w_demo) /\ cap_wf c) /\
  (exists w', cap_from_text (Some gperf_search) (Some "nosuch=e") w_demo = (Ok 0, with_errno EINVAL w') /\ later w_demo w').
Proof.
  split.
  - destruct (cap_from_text_total (Some gperf_search) (Some "all=e") w_demo w_demo_text gperf_search_ok)
      as [(c & H & Hw & _)|(w' & H & _)]; [by exists c|vm_compute in H; discriminate].
  - destruct (cap_from_text_total (Some gperf_search) (Some "nosuch=e") w_demo w_demo_text gperf_search_ok)
      as [(c & H & _)|(w' & H & Hl)]; [vm_compute in H; discriminate|by exists w'].
Defined.

Lemma cap_to_text_correct_witness :
  (exists q s w', cap_to_text 8 true w_demo = (Ok (q, Some (strlen s)), w') /\ 0 < strlen s <= CAP_TEXT_SIZE) /\
  cap_to_text 40 true w_demo = (Ok (0, None), with_errno EINVAL w_demo).
Proof.
  split.
  - destruct (proj1 (cap_to_text_correct 8 true w_demo w_demo_text) c_demo eq_refl) as (q & s & w' & H & _ & _ & _ & _ & Hl).
    exists q, s, w'. split; [exact H|exact Hl].
  - apply (proj2 (cap_to_text_correct 40 true w_demo w_demo_text)). discriminate.
Defined.

Lemma cap_text_roundtrip_witness :
  exists q s w1 r c' w2, cap_to_text 8 false w_demo = (Ok (q, None), w1) /\ heap w1 !! q = Some (OStr s) /\
    cap_from_text None (Some s) w1 = (Ok r, w2) /\ heap w2 !! r = Some (OCap c') /\ c_u c' = c_u c_demo.
Proof.
  destruct (cap_text_roundtrip None 8 c_demo w_demo w_demo_text I eq_refl) as (q & s & w1 & r & c' & w2 & H1 & E1 & H2 & E2 & _ & Hu).
  { intros _ n [H H']. change (g_max_bits (glob w_demo)) with 41 in H. change CAP_BITS with 41 in H'. lia. }
  exists q, s, w1, r, c', w2. split; [exact H1|]. split; [rewrite E1; apply lookup_insert_eq|].
  split; [exact H2|]. split; [rewrite E2; apply lookup_insert_eq|exact Hu].
Defined.

Lemma cap_name_roundtrip_witness :
  cap_to_name 5 w_demo = (Ok 104, placed (OStr "cap_kill") w_demo) /\
  cap_from_name (Some gperf_search) "Cap_Kill" true w_demo = (Ok (0, Some 5), w_demo) /\
  cap_from_name (Some gperf_search) "64" true w_demo = (Ok (-1, None), w_demo).
Proof.
  destruct (cap_name_roundtrip (Some gperf_search) 5 true w_demo w_demo_text gperf_search_ok ltac:(done) ltac:(done))
    as (H1 & H2 & H3).
  split; [exact H1|]. split; [apply H2; right; split; [done|vm_compute; reflexivity]|].
  apply (H3 "64" 64); [vm_compute; reflexivity..|discriminate].
Defined.

(** "!^cap_chown,0x1,%5" *)
Definition demo_items : list iab_item :=
  [Item [PBlocked; PAmbient] "cap_chown" 0; Item [] "0x1" 1; Item [PInherit] "5" 5].

Lemma cap_iab_from_text_correct_witness :
  (exists t, cap_iab_from_text None (Some "!^cap_chown,0x1,%5") w_demo = (Ok 104, placed (OIab t) w_demo) /\
     v_a (view t) = {[0]}) /\
  (exists w', cap_iab_from_text None (Some "!,") w_demo = (Ok 0, with_errno EINVAL w') /\ later w_demo w').
Proof.
  split.
  - destruct (proj2 (cap_iab_from_text_correct None (Some "!^cap_chown,0x1,%5") w_demo w_demo_text I) demo_items eq_refl)
      as (t & H & Hv).
    { repeat (apply Forall_cons_2 || apply Forall_nil_2); [by apply token_name|by apply token_number..]. }
    exists t. split; [exact H|]. rewrite Hv. decide_sets.
  - destruct (proj1 (cap_iab_from_text_correct None (Some "!,") w_demo w_demo_text I)) as [(t & H & _)|(w' & H & Hl)];
      [vm_compute in H; discriminate|by exists w'].
Defined.

Lemma cap_iab_text_roundtrip_witness :
  exists s w1, cap_iab_to_text 40 w_demo = (Ok 104, w1) /\ w1 = placed (OStr s) w_demo /\
    cap_iab_from_text (Some gperf_search) (Some s) w1 = (Ok (next w1), placed (OIab t_demo) w1).
Proof.
  apply (proj1 (cap_iab_text_roundtrip (Some gperf_search) 40 w_demo w_demo_text gperf_search_ok) t_demo eq_refl eq_refl).
  - unfold iab_inv. decide_sets.
  - change (g_max_bits (glob w_demo)) with 41. decide_sets.
Defined.
