(* ===== verification/WitnessPam.v ===== *)
(** The PAM module on concrete accounts and configuration files, and two inputs
    on which it does not do what its configuration means. *)

From Stdlib Require Import ZArith Lia String Ascii.
From stdpp Require Import gmap list sets.
From S2P Require Import Prelude Capability World Exec Syscall Alloc Flag FlagSpec IabSpec Proc ProcSpec Text TextLex.
From S2P Require Import TextSpec TextParse TextPrint TextToText TextRound KernelLaws ModeSpec IabProcSpec IabText CLib ProgSpec Pam PamSpec.
From S2P Require Import RefKernel Witness WitnessText.

Open Scope string_scope.
Open Scope Z_scope.

(** ** Accounts and files *)

#[global] Instance demo_accounts : Accounts rkernel := {
  getpwnam k user := if String.eqb user "alice" then Some (mkPasswd "alice" 1000 1000 "/home/alice" "/bin/true")
    else if String.eqb user "bob" then Some (mkPasswd "bob" 1001 1001 "/home/bob" "/bin/sh") else None;
  getgrouplist k user gid max := if String.eqb user "alice" then (2, [gid; 100]) else (1, [gid]);
  getgrgid k gid := if gid =? 100 then Some "staff" else if gid =? 1000 then Some "alice" else None
}.

Definition nl : string := String LF "".
Definition demo_conf : string :=
  "# who may do what" ++ nl ++ nl ++ "cap_setuid root carol" ++ nl ++ "^cap_chown @staff dave" ++ nl ++ "none *" ++ nl.
(** A comment that fills the buffer, and goes on. *)
Definition long_conf : string :=
  "#" ++ String.concat "" (repeat "x" 4094) ++ "all mallory" ++ nl.

#[global] Instance demo_pam : Pam rkernel := {
  open_conf k path := if String.eqb path USER_CAP_FILE then Some (mkConf (Some 0x1a4) demo_conf)
    else if String.eqb path "/tmp/open" then Some (mkConf (Some 0x1b6) demo_conf) else None;
  pam_get_user k := (PAM_SUCCESS, Some "alice", k);
  pam_get_item_user k := (PAM_SUCCESS, Some "alice");
  pam_set_data k iab := (PAM_SUCCESS, None, k)
}.

Lemma demo_proper : proper_conf demo_conf.
Proof. split; [reflexivity|]. apply (bool_decide_unpack _). vm_compute. exact I. Qed.

Lemma demo_opened k source f : open_conf k source = Some f -> proper_conf (cf_text f).
Proof.
  cbn. destruct (String.eqb source USER_CAP_FILE); [intros [= <-]; exact demo_proper|].
  destruct (String.eqb source "/tmp/open"); [intros [= <-]; exact demo_proper|done].
Qed.

Lemma read_capabilities_correct_witness :
  granted k_priv "alice" USER_CAP_FILE = Some "^cap_chown" /\
  read_capabilities_for_user "alice" USER_CAP_FILE w_priv = (Ok (Some "^cap_chown"), w_priv) /\
  read_capabilities_for_user "alice" "/tmp/open" w_priv = (Ok None, w_priv).
Proof.
  assert (granted k_priv "alice" USER_CAP_FILE = Some "^cap_chown") as E by (vm_compute; reflexivity).
  split; [exact E|]. split.
  - destruct (read_capabilities_correct "alice" USER_CAP_FILE w_priv eq_refl (demo_opened _ _)) as (H & _).
    rewrite H. change (kst w_priv) with k_priv. rewrite E. reflexivity.
  - destruct (read_capabilities_correct "alice" "/tmp/open" w_priv eq_refl (demo_opened _ _)) as (H & Hno & _).
    rewrite H, (Hno _ eq_refl eq_refl). reflexivity.
Defined.

Lemma priv_world : prog_world w_priv.
Proof. split; [exact w_priv_wf|]. split; [reflexivity|]. split; [reflexivity|]. intros ? ?. discriminate. Qed.

Definition t_chown : cap_iab_s := mkIab false [1; 0] [1; 0] [0; 0].
Lemma chown_tuple : tuple_of None w_priv "^cap_chown" = Some t_chown.
Proof. vm_compute. reflexivity. Qed.
Lemma chown_fits : ambient_ok (creds_of k_priv) (view t_chown).
Proof. split; [unfold view; cbn [v_a]; decide_sets|right; reflexivity]. Qed.
Lemma chown_grants : capset_grants (creds_of k_priv) (view t_chown).
Proof. split; [unfold view; cbn [v_i]; decide_sets|]. split; [left; decide_sets|]. intros _. decide_sets. Qed.


Lemma iab_apply_correct_witness :
  exists w', iab_apply 40 PAM_DATA_SILENT w_priv = (Ok tt, w') /\ creds_of (kst w') = iab_creds (view t_demo) (creds_of k_priv).
Proof.
  destruct (iab_apply_correct 40 PAM_DATA_SILENT t_demo w_priv priv_world eq_refl eq_refl ltac:(unfold iab_inv; decide_sets) ltac:(discriminate)) as (w' & k' & H & Hmv & Hy & _).
  { intros _. split; [unfold view; cbn [v_a]; decide_sets|right; reflexivity]. }
  exists w'. split; [exact H|]. rewrite (moved_kst _ _ _ Hmv). apply Hy; [reflexivity|].
  split; [unfold view; cbn [v_i]; decide_sets|]. split; [left; decide_sets|]. intros _. decide_sets.
Defined.

Lemma pam_sm_authenticate_correct_witness :
  pam_sm_authenticate 0 ["config=/tmp/open"] w_priv = (Ok PAM_IGNORE, w_priv).
Proof.
  assert (pam_get_user (kst w_priv) = (PAM_SUCCESS, Some "alice", k_priv)) as Hu by reflexivity.
  pose proof (pam_sm_authenticate_correct 0 ["config=/tmp/open"] "alice" k_priv w_priv PAM_SUCCESS eq_refl Hu (demo_opened _ _)) as H.
  rewrite H. vm_compute. reflexivity.
Defined.

(** ** What goes wrong *)

(** The end of a comment longer than the buffer is read as a line of its own. *)
Theorem conf_long_comment : conf_loop (S (String.length long_conf)) "mallory" [] long_conf = Some "all" /\
  conf_for "mallory" [] long_conf = None.
Proof. split; vm_compute; reflexivity. Qed.

(** A group's name that could not be copied is wiped all the same. *)
Theorem conf_group_oom : fst (read_capabilities_for_user "alice" USER_CAP_FILE
  (mkWorld (heap w_priv) (next w_priv) [true; true; false] 0 g_demo k_priv [])) = Fault.
Proof. vm_compute. reflexivity. Qed.
