(* ===== verification/WitnessTools.v ===== *)
(** The command line tools on the executable kernel: the laws their theorems
    assume hold there, and each tool is run on concrete arguments. *)

From Stdlib Require Import ZArith Lia String Ascii.
From stdpp Require Import gmap list sets.
From S2P Require Import Prelude Capability World Exec Syscall Alloc Flag FlagSpec IabSpec ExtInt File FileSpec Proc ProcSpec Text TextLex.
From S2P Require Import TextSpec TextParse TextPrint TextToText TextRound KernelLaws ModeSpec IabProcSpec IabText CLib ProgSpec Tools ToolsSpec.
From S2P Require Import Capshdoc Capsh CapshSpec RefKernel Witness WitnessText WitnessPam.

Open Scope string_scope.
Open Scope Z_scope.

(** ** The laws *)

#[global] Instance rk_bound_laws : BoundLaws rkernel.
Proof.
  constructor. intros k c Hc Hno. change (sys_call k (SYS_prctl PR_CAPBSET_DROP c 0 0 0 0)) with (rk_prctl k PR_CAPBSET_DROP c 0).
  change (creds_of k) with (sane (rk_creds k)) in Hno. unfold rk_prctl. cbn [Z.eqb PR_CAPBSET_DROP PR_CAPBSET_READ PR_GET_SECUREBITS PR_SET_SECUREBITS Pos.eqb].
  destruct (Z.leb_spec 0 c) as [_|]; [|lia]. destruct (Z.leb_spec c rk_last) as [Hl|Hl]; cbn [andb negb].
  - destruct Hno as [Hno|Hno]; [|change last_cap with rk_last in Hno; lia]. rewrite bool_decide_eq_false_2 by done. by exists EPERM, k.
  - by exists EINVAL, k.
Qed.

#[global] Instance rk_streams : Streams rkernel := {
  read_stdin k n := (0, "", k);
  sys_lstat k path := (0, 0x81a4);
  nftw_visits k path := []
}.

#[global] Instance rk_file_laws : FileLaws rkernel.
Proof.
  refine {| file_attr k _ := rk_attr k; regular _ _ := True; opened _ _ _ := True |}.
  - intros k path _. eexists _, _. split; [reflexivity|]. split; [|by split].
    assert (forall l, 2 <= foldr Z.max 2 l) as Hl by (induction l; simpl; lia). unfold rk_new_fd. specialize (Hl (elements (rk_fds k))). lia.
  - intros k fd path _. by exists 0x8000.
  - intros k fd path v _ _. by eexists.
  - intros k fd path _ _. cbn. destruct (rk_attr k); [by eexists|done].
  - done.
  - done.
  - intros k v pid d path. cbn. by destruct (decide _).
Defined.

Lemma rk_regular (k : rkernel) path : regular k path.
Proof. exact I. Qed.

(** ** capsh *)

Lemma binary_correct_witness :
  (1 <= String.length (binary ULONG_MAX) < BINARY_SIZE)%nat /\ c_strtoul 2 (binary ULONG_MAX) = (ULONG_MAX, "", false).
Proof. destruct (binary_correct ULONG_MAX ltac:(unfold ULONG_MAX; lia)) as (H1 & H2 & _). split; [exact H1|exact H2]. Defined.

Definition demo_strerror (e : Z) : string := "error".

Lemma arg_drop_correct_witness :
  (exists w', arg_drop None demo_strerror true "0,cap_setuid" w_priv = (Ok tt, w') /\
     creds_of (kst w') = with_bound (cr_bound (creds_of k_priv) ∖ {[CAP_CHOWN; CAP_SETUID]}) (creds_of k_priv)) /\
  (exists w', arg_drop None demo_strerror true "0,nonsense,2" w_priv = (Halt (Exited 1), w') /\
     creds_of (kst w') = with_bound (cr_bound (creds_of k_priv) ∖ {[CAP_CHOWN]}) (creds_of k_priv)).
Proof.
  split.
  - pose proof (arg_drop_correct None demo_strerror true "0,cap_setuid" w_priv I priv_world ltac:(by vm_compute)) as H.
    cbv zeta in H. change (kst w_priv) with k_priv in H.
    assert (plan (fun c => may_drop true (creds_of k_priv) && (c <=? last_cap)) (asked_caps None (g_max_bits (glob w_priv)) "0,cap_setuid")
      = ([CAP_CHOWN; CAP_SETUID], true)) as E by (vm_compute; reflexivity).
    rewrite E in H. destruct H as (o & w' & H & Hc & -> & _). exists w'. split; [exact H|]. rewrite Hc.
    assert (list_to_set [CAP_CHOWN; CAP_SETUID] = ({[CAP_CHOWN; CAP_SETUID]} : gset Z)) as -> by decide_sets. reflexivity.
  - pose proof (arg_drop_correct None demo_strerror true "0,nonsense,2" w_priv I priv_world ltac:(by vm_compute)) as H.
    cbv zeta in H. change (kst w_priv) with k_priv in H.
    assert (plan (fun c => may_drop true (creds_of k_priv) && (c <=? last_cap)) (asked_caps None (g_max_bits (glob w_priv)) "0,nonsense,2")
      = ([CAP_CHOWN], false)) as E by (vm_compute; reflexivity).
    rewrite E in H. destruct H as (o & w' & H & Hc & ->). exists w'. split; [exact H|]. rewrite Hc.
    assert (list_to_set [CAP_CHOWN] = ({[CAP_CHOWN]} : gset Z)) as -> by decide_sets. reflexivity.
Defined.


(** ** setcap and getcap *)

(** A process that is permitted CAP_SETFCAP, and a file that has or has not the
    attribute for cap_chown=ep. *)
Definition c_file : cap_struct := text_set 0 [mkBlk 1 1 0; blk0].
Definition file_bytes : list Z := take (Z.to_nat (stored_size c_file)) (stored c_file (mkBlk 1 1 0) blk0 (repeat 0 24)).
Definition k_fcap (attr : option (list Z)) : rkernel :=
  mkRKernel (mkCreds ∅ {[CAP_CHOWN; CAP_SETFCAP]} ∅ rk_all ∅ 0) 1000 1000 [] "/" attr ∅ None.
Definition w_fcap (attr : option (list Z)) : world rkernel := with_kst (k_fcap attr) w_demo.

Lemma fcap_world attr : prog_world (w_fcap attr).
Proof. split; [destruct w_demo_wf; by split|]. split; [reflexivity|]. split; [reflexivity|]. intros ? ?. discriminate. Qed.

Lemma file_bytes_encode : encodes file_bytes c_file.
Proof. exists (mkBlk 1 1 0), blk0, (repeat 0 24). split; [reflexivity|]. split; [by vm_compute|]. split; [by vm_compute|]. split; [by vm_compute|]. by split. Qed.

Lemma holds_demo : file_holds (k_fcap (Some file_bytes)) "/bin/ping" (Some c_file).
Proof. exists file_bytes. split; [reflexivity|exact file_bytes_encode]. Qed.

Lemma wants_demo s : sc_rootid s = 0 -> wants None 41 s "cap_chown=ep" (Some c_file).
Proof. intros E. unfold c_file. pose proof (wants_set None 41 s "cap_chown=ep" [mkBlk 1 1 0; blk0]) as H. rewrite E in H. apply H; vm_compute; reflexivity. Qed.


Lemma setcap_verify_correct_witness :
  (exists w', setcap_main None (repeat 0 24) demo_strerror ["-v"; "cap_chown=ep"; "/bin/ping"] (w_fcap (Some file_bytes)) = (Halt (Exited 0), w')) /\
  (exists w', setcap_main None (repeat 0 24) demo_strerror ["-v"; "cap_chown=ep"; "/bin/ping"] (w_fcap None) = (Halt (Exited 1), w')).
Proof.
  split.
  - destruct (setcap_verify_correct None (repeat 0 24) demo_strerror ["-v"] (sc_with_verify (setcap_start 104)) "cap_chown=ep" (Some c_file) (Some c_file) "/bin/ping" (w_fcap (Some file_bytes)) I (fcap_world _) eq_refl (rk_regular _ _)
      holds_demo eq_refl eq_refl (wants_demo (sc_with_verify (setcap_start 104)) eq_refl)) as (st & w' & H & _ & Hy & _).
    rewrite Hy in H; [exists w'; exact H|]. decide_sets.
  - destruct (setcap_verify_correct None (repeat 0 24) demo_strerror ["-v"] (sc_with_verify (setcap_start 104)) "cap_chown=ep" (Some c_file) None "/bin/ping" (w_fcap None) I (fcap_world _) eq_refl (rk_regular _ _)
      eq_refl eq_refl eq_refl (wants_demo (sc_with_verify (setcap_start 104)) eq_refl)) as (st & w' & H & _ & _ & Hn).
    rewrite Hn in H; [exists w'; exact H|]. decide_sets.
Defined.

Lemma plain_demo file : plain_file None (k_fcap (Some file_bytes)) 41 (file, Some c_file).
Proof.
  split; [apply rk_regular|]. split; [exact holds_demo|]. split; [by exists 0x81a4|].
  intros _ s n _ _. change CAP_BITS with 41. lia.
Qed.

Lemma getcap_correct_witness :
  exists w' lines, getcap_main (repeat 0 24) demo_strerror (fun args _ => ([], args)) ["/bin/ping"; "/bin/su"] (w_fcap (Some file_bytes)) = (Halt (Exited 0), w') /\
    reports None 41 [("/bin/ping", Some c_file); ("/bin/su", Some c_file)] lines /\ out w' = List.app (rev lines) (out (w_fcap (Some file_bytes))).
Proof.
  destruct (getcap_correct None (repeat 0 24) demo_strerror (fun args _ => ([], args)) ["/bin/ping"; "/bin/su"]
    [("/bin/ping", Some c_file); ("/bin/su", Some c_file)] (w_fcap (Some file_bytes)) I (fcap_world _) eq_refl eq_refl ltac:(discriminate)) as (w' & lines & H & Hr & Ho & _).
  { apply Forall_cons. split; [apply plain_demo|]. apply Forall_cons. split; [apply plain_demo|constructor]. }
  exists w', lines. split; [exact H|]. split; [exact Hr|exact Ho].
Defined.

(** ** What goes wrong *)

(** The loop that looks for effective bits that cannot be stored ends at the first
    capability that does not fit, before it has seen the effective bits of the
    others: the same kind of set is explained or not, depending on the order. *)
Theorem setcap_explains_by_order :
  (exists w', setcap_main None (repeat 0 24) demo_strerror ["cap_chown=ep cap_kill=p"; "/f"] (w_fcap None) = (Halt (Exited 1), w') /\
     out w' = ["Error: under Linux, effective file capabilities must either be empty, or exactly match the union of selected permitted and inheritable bits."]) /\
  (exists w', setcap_main None (repeat 0 24) demo_strerror ["cap_chown=p cap_kill=ep"; "/f"] (w_fcap None) = (Halt (Exited 1), w') /\
     out w' = ["Invalid file '/f' for capability operation"]).
Proof. split; eexists; (split; [vm_compute; reflexivity|reflexivity]). Qed.
