(* ===== verification/WitnessSu.v ===== *)
(** su on concrete surroundings: a run that starts a shell, and a login. *)

From Stdlib Require Import ZArith Lia String Ascii.
From stdpp Require Import gmap list sets.
From S2P Require Import Prelude Capability World Exec Syscall Alloc Flag Proc Text Launch CLib ProgSpec Su SuSpec.
From S2P Require Import KernelLaws RefKernel Witness WitnessPam.

Open Scope string_scope.
Open Scope Z_scope.

(** libpam agrees to everything for alice, on a terminal of the user 1001, and the
    child exits with [code]. *)
Definition demo_code : Z := 0.
#[global] Instance demo_su : SuSystem rkernel := {
  pam_call k r := (PAM_SUCCESS, k);
  pam_get_item k item := (PAM_SUCCESS, match item with
    | PAM_USER => Some "alice" | PAM_TTY => Some "/dev/pts/3" | PAM_RUSER => Some "bob" | PAM_RHOST => Some "localhost" end);
  pam_getenv k name := if String.eqb name "HOME" then Some "/home/alice" else None;
  pam_getenvlist k := Some ["HOME=/home/alice"; "USER=alice"];
  su_request k r := (0, k);
  getenv k name := if String.eqb name "TERM" then Some "xterm" else if String.eqb name "LANG" then Some "C" else None;
  stdin_isatty k := true;
  stdin_ttyname k := Some "/dev/pts/3";
  getlogin k := Some "bob";
  su_fstat k fd := (0, 1001);
  su_getuid k := 1001;
  su_getpid k := 4711;
  su_waitpid k pid := (if 0 <? pid then pid else - ECHILD, 256 * demo_code, false, k);
  utmp_entries k := [];
  gethostbyname k host := None;
  time_now k := 1700000000
}.

(** The program's file gives it every capability. *)
Definition k_su : rkernel := rk_with_creds k_priv (mkCreds ∅ rk_all ∅ rk_all ∅ 0).
Definition w_su : world rkernel := with_kst k_su w_priv.
Definition demo_run (argv : list string) : outcome (Z * su_vars) * world rkernel :=
  su_run (fun _ => "error") ["PATH=/bin"] 0x1000 0x7ffc0 0x2000 4 argv w_su.
Definition result_of (r : outcome (Z * su_vars) * world rkernel) : option (Z * list su_event) :=
  match r with (Ok (status, v), _) => Some (status, log v) | _ => None end.

Lemma result_inv argv status l : result_of (demo_run argv) = Some (status, l) ->
  exists v w', demo_run argv = (Ok (status, v), w') /\ log v = l.
Proof. destruct (demo_run argv) as [[[s v]| | |] w']; try done. intros [= -> <-]. eauto. Qed.

Lemma shell_log : result_of (demo_run ["-c"; "id"; "alice"]) =
  Some (0, [Asked (Pam_start "alice") 0; Asked (Pam_paste_env ["PATH=/bin"]) 0; Asked (Pam_set_item PAM_TTY "/dev/pts/3") 0;
            Asked (Pam_set_item PAM_RUSER "bob") 0; Asked (Pam_set_item PAM_RHOST "localhost") 0; Asked (Pam_fail_delay 2000000) 0;
            Asked Pam_authenticate 0; Asked Pam_acct_mgmt 0; Asked (Pam_setenv "HOME" "/home/alice") 0; Asked (Pam_setenv "USER" "alice") 0;
            Became 1000; Asked (Pam_setcred PAM_ESTABLISH_CRED) 0; Asked Pam_open_session 0;
            Launched "/bin/true" ["/bin/true"; "-c"; "id"] 100;
            Asked Pam_close_session 0; Asked (Pam_setcred PAM_DELETE_CRED) 0; Asked (Pam_end 0) 0]).
Proof. vm_compute. reflexivity. Qed.

Lemma su_protocol_witness : exists v w', demo_run ["-c"; "id"; "alice"] = (Ok (0, v), w') /\
  (exists path args child, Launched path args child ∈ log v) /\ phase_of (log v) = Some (Ended true).
Proof.
  destruct (result_inv _ _ _ shell_log) as (v & w' & H & Hl). exists v, w'. split; [exact H|].
  destruct (su_protocol _ _ _ _ _ _ _ _ _ _ _ H) as [[[_ E]|(ran & Hp & Hr)] _]; [discriminate|].
  split; [exact (Hr eq_refl)|]. rewrite Hl. reflexivity.
Defined.

Lemma login_log : result_of (demo_run ["-"; "alice"]) = Some (1,
  [Asked (Pam_start "alice") 0; Asked (Pam_setenv "TERM" "xterm") 0; Asked (Pam_setenv "PATH" "/bin:/usr/bin") 0; Asked (Pam_setenv "LANG" "C") 0;
   Asked (Pam_set_item PAM_TTY "/dev/pts/3") 0; Asked (Pam_set_item PAM_RUSER "bob") 0; Asked (Pam_set_item PAM_RHOST "localhost") 0;
   Asked (Pam_fail_delay 2000000) 0; Asked Pam_authenticate 0; Asked Pam_acct_mgmt 0; Asked (Pam_setenv "LOGNAME" "alice") 0;
   Asked (Pam_setenv "HOME" "/home/alice") 0; Asked (Pam_setenv "USER" "alice") 0; Became 1000; Asked (Pam_setcred PAM_ESTABLISH_CRED) 0;
   Asked (Pam_setcred PAM_DELETE_CRED) 0; Asked (Pam_end 0) 0]).
Proof. vm_compute. reflexivity. Qed.

Lemma su_login_fails_witness : exists v w', demo_run ["-"; "alice"] = (Ok (1, v), w') /\
  forall path args child, Launched path args child ∉ log v.
Proof.
  destruct (result_inv _ _ _ login_log) as (v & w' & H & _). exists v, w'. split; [exact H|].
  apply (su_login_fails (fun _ => "error") ["PATH=/bin"] 0x1000 0x7ffc0 0x2000 4 ["-"; "alice"] "alice" None w_su 1 v w'
    ltac:(discriminate) eq_refl H).
Defined.

