(* ===== verification/WitnessExec.v ===== *)
(** The runnable shared objects on concrete surroundings: their arguments, and the
    helper that binds port 80. *)

From Stdlib Require Import ZArith Lia String Ascii.
From stdpp Require Import gmap list sets.
From S2P Require Import Prelude Capability World Exec Syscall Alloc Proc Text TextLex Launch CLib ProgSpec Execable Capso CapsoSpec.
From S2P Require Import KernelLaws RefKernel Witness WitnessPam.

Open Scope string_scope.
Open Scope Z_scope.

#[global] Instance demo_self : SelfProc rkernel := {
  self_cmdline k := Some (cmdline_of ["/lib/capso.so"; "localhost"])
}.

Lemma parse_args_roundtrip_witness :
  exists n, parse_args w_priv = (Ok (2%nat, Some (map Some ["/lib/capso.so"; "localhost"] ++ replicate (S n) None)%list), w_priv).
Proof.
  assert (self_cmdline (kst w_priv) = Some (cmdline_of ["/lib/capso.so"; "localhost"])) as Hf by reflexivity.
  destruct (parse_args_roundtrip _ w_priv eq_refl Hf) as (n & H & Hr).
  rewrite (Hr ["/lib/capso.so"; "localhost"] ltac:(repeat constructor) eq_refl) in H. exists n. exact H.
Defined.

Definition rk_sock (k : rkernel) (r : sock_req) : Z * rkernel :=
  match r with
  | Sock_socket _ => (rk_new_fd (rk_fds k), rk_with_file k (rk_attr k) ({[rk_new_fd (rk_fds k)]} ∪ rk_fds k))
  | Sock_bind _ _ => if rk_priv k CAP_NET_BIND_SERVICE then (0, k) else (-13, k)
  | Sock_close fd => (0, rk_with_file k (rk_attr k) (rk_fds k ∖ {[fd]}))
  | Sock_dup2 fd newfd => (newfd, rk_with_file k (rk_attr k) ({[newfd]} ∪ rk_fds k))
  | _ => (0, k)
  end.
#[global] Instance demo_sockets : Sockets rkernel := {
  sock_request := rk_sock;
  getaddrinfo k host := (0, Some 80);
  socketpair k := (0, (3, 4), k);
  recvmsg k fd := (1, Some 5, k);
  own_file k := Some "/lib/capso.so"
}.

Lemma rk_new_fd_pos X : 0 <= rk_new_fd X.
Proof. unfold rk_new_fd. assert (forall l, 2 <= foldr Z.max 2 l) as H by (induction l; simpl; lia). specialize (H (elements X)). lia. Qed.

#[global] Instance demo_socket_laws : SocketLaws rkernel.
Proof.
  refine {| open_fds := rk_fds |}.
  - done.
  - intros k addr r k' [= <- <-]. right. split; [apply rk_new_fd_pos|]. split; [apply rk_open_fresh|done].
  - by intros k fd r k' [= <- <-].
  - intros k fd addr r k'. cbn. destruct (rk_priv k _); by intros [= <- <-].
  - by intros k fd r k' [= <- <-].
  - intros k fd newfd _ _. eexists. by split.
Defined.

(** Without the capability the socket is closed again. *)
Lemma try_bind80_keeps_fds_witness : exists w', try_bind80 "localhost" w_priv = (Ok (-1), w') /\ rk_fds (kst w') = rk_fds k_priv.
Proof.
  destruct (try_bind80_keeps_fds "localhost" w_priv eq_refl) as (r & w' & H & _ & [[-> Ho]|(Hr & _)]); [by exists w'|].
  exfalso. assert (fst (try_bind80 "localhost" w_priv) = Ok (-1)) as E by (vm_compute; reflexivity). rewrite H in E. injection E as ->. lia.
Defined.

Lemma set_fd3_correct_witness :
  exists w', set_fd3 (1, 3) (with_kst (rk_with_file k_priv None {[1; 3]}) w_priv) = (Ok 0, w') /\ 3 ∉ rk_fds (kst w').
Proof.
  destruct (set_fd3_correct 1 3 (with_kst (rk_with_file k_priv None {[1; 3]}) w_priv) ltac:(lia) ltac:(cbn; set_solver)) as (w' & H & Ho).
  exists w'. split; [exact H|]. change (open_fds (kst w')) with (rk_fds (kst w')) in Ho. rewrite Ho. rewrite decide_True by done. set_solver.
Defined.

Lemma capso_so_exits_witness : exists w', capso_so (fun _ => "error") w_priv = (Halt (Exited 1), w').
Proof.
  destruct (capso_so_exits (fun _ => "error") "/lib/capso.so" ["localhost"] w_priv priv_world ltac:(repeat constructor) eq_refl) as (w' & H).
  exists w'. cbn [String.eqb Ascii.eqb Bool.eqb] in H. rewrite decide_False in H; [exact H|].
  apply (bool_decide_unpack _). vm_compute. exact I.
Defined.
