(* ===== verification/WitnessApi.v ===== *)
(** A program that uses the library, on a kernel that grants nothing. *)

From Stdlib Require Import ZArith Lia String Ascii.
From stdpp Require Import gmap list sets.
From S2P Require Import Prelude Capability World Exec Syscall Alloc Flag FlagSpec IabSpec ExtInt File FileSpec Proc ProcSpec Text TextRound.
From S2P Require Import Launch ApiSpec.

Open Scope Z_scope.

(** capget(2) shows no capability, everything else is refused. *)
#[global] Instance null_kernel : Kernel unit := {
  sys_call k req := (- EPERM, k);
  sys_capget k version pid with_data :=
    mkCapget 0 LINUX_CAPABILITY_VERSION_3 (if with_data then [blk0; blk0] else []);
  sys_chdir k path := (- EPERM, k);
  user_syscall fn k req := (- EPERM, EPERM, k)
}.
#[global] Instance null_filesys : FileSys unit := {
  fs_open k path o_path := (- EPERM, k);
  fs_close k fd := k;
  fs_fstat k fd := (- EPERM, 0);
  fs_getxattr k f size := (- ENODATA, []);
  fs_setxattr k f v := (- EPERM, k);
  fs_removexattr k f := (- EPERM, k)
}.
#[global] Instance null_process : Process unit := {
  user_setup fn detail k := (0, 0, k);
  sys_pipe2 k := (- EPERM, (0, 0), k);
  sys_fork k := (- EPERM, k, k);
  child_gone kp kc := kp;
  sys_set_name k name := k;
  sys_execve k path argv envp := (- ENOENT, k);
  sys_write k fd e := (- EPERM, k);
  sys_read k fd := (0, 0, k);
  sys_close_fd k fd := k;
  sys_waitpid k pid := k
}.
#[global] Instance null_procfs : ProcFs unit := { sys_lines k path size := None }.

#[global] Instance null_words : WordLaws unit.
Proof. constructor. intros [] v pid []; cbn; (split; [lia|]); repeat constructor; done. Qed.
#[global] Instance null_bytes : ByteLaws unit.
Proof. constructor. intros [] f n. constructor. Qed.

Definition null_globals : globals := mkGlobals 41 false false false SC_libc SC_libc 0.
Definition null_world : world unit := mkWorld ∅ 8 [] 0 null_globals tt [].
Lemma null_world_wf : world_wf null_world.
Proof. split; [done|]. intros p o Hp. discriminate. Qed.

(** Two sets, a tuple, and a launcher that is given the tuple. The copies that
    cap_fill() and cap_iab_fill() make take addresses 40 and 72. *)
Definition demo_calls : list call :=
  [C_cap_init; C_cap_set_flag 8 CAP_PERMITTED 2 [0; 5] CAP_SET; C_cap_from_text (Some "cap_kill=i"%string); C_cap_fill 24 CAP_PERMITTED CAP_INHERITABLE;
   C_cap_iab_init; C_cap_iab_fill 56 CAP_IAB_INH 24 CAP_PERMITTED; C_cap_func_launcher 77; C_cap_launcher_set_iab 88 56; C_cap_free 8].

Fixpoint run_calls (l : list call) (w : world unit) : world unit :=
  match l with [] => w | c :: l => run_calls l (perform None c w).2 end.
Fixpoint all_ok (l : list call) (w : world unit) : bool :=
  match l with [] => true | c :: l => match perform None c w with (Ok _, w') => all_ok l w' | _ => false end end.

Lemma calls_session l w : Forall typed_call l -> all_ok l w = true -> session None w (l ≫= handed) (run_calls l w).
Proof.
  revert w. induction l as [|c l IH]; intros w Hl Hok; [apply session_end|]. apply Forall_cons in Hl as [Hc Hl]. cbn [all_ok run_calls] in *.
  destruct (perform None c w) as [[[]| | |] w1] eqn:E; try done. cbn [snd].
  apply (session_call None w c w1 (kst w1) (errno w1) (mem w1) (out w1)); [done|done|]. destruct w1. by apply IH.
Qed.

