(* ===== verification/WitnessTotal.v ===== *)
(** A program that makes a tuple, hands it to a launcher and starts a child, and a
    run of su, on the kernel of RefKernel.v. *)

From Stdlib Require Import ZArith Lia String.
From stdpp Require Import gmap list sets.
From S2P Require Import Prelude Capability World Exec Syscall Alloc Flag ExtInt File Proc Text KernelLaws TextLex TextSpec IabText Launch LaunchSpec RefKernel Witness ApiSpec Progress ProgressApi ApiTotal.
From S2P Require Import CLib Su SuSpec SuTotal WitnessPam WitnessSu.

Open Scope string_scope.
Open Scope Z_scope.

(** Files without attributes, and no /proc. *)
Definition bare_files : FileSys rkernel := {|
  fs_open k path o_path := (- EPERM, k);
  fs_close k fd := k;
  fs_fstat k fd := (- EPERM, 0);
  fs_getxattr k f size := (- ENODATA, []);
  fs_setxattr k f v := (- EPERM, k);
  fs_removexattr k f := (- EPERM, k)
|}.
#[local] Existing Instance bare_files.
Definition bare_proc : ProcFs rkernel := {| sys_lines k path size := None |}.
#[local] Existing Instance bare_proc.

Lemma rk_words : WordLaws rkernel.
Proof.
  constructor. intros k v pid b. cbn. destruct (v =? _); [|cbn; split; [lia|done]]. destruct b; [|cbn; split; [lia|done]].
  cbn. split; [lia|]. repeat constructor; apply is_u32_word_of.
Qed.
#[local] Existing Instance rk_words.
Lemma bare_bytes : ByteLaws rkernel.
Proof. constructor. intros k f n. constructor. Qed.
#[local] Existing Instance bare_bytes.

(** *** Deciding the contract, for the calls of the example *)

Definition part_of (p : Z) (κ : kind) : bool := match κ with KLaunch _ i r => (p =? i) || (p =? r) | _ => false end.
Definition ownedb (d : Z) (h : shape) (p : Z) : bool := (p =? d) || existsb (fun x => part_of p x.2) (map_to_list h).
Lemma ownedb_false d h p : ownedb d h p = false -> ~ @owned d h p.
Proof.
  unfold ownedb. intros [Hd Hb]%orb_false_iff (_ & [->|(q & b & i & r & Hq & Hp)]); [by rewrite Z.eqb_refl in Hd|].
  apply not_true_iff_false in Hb. apply Hb, existsb_exists. exists (q, KLaunch b i r).
  split; [by apply list_elem_of_In, elem_of_map_to_list|]. cbn. destruct Hp as [->| ->]; by rewrite Z.eqb_refl, ?orb_true_r.
Qed.
Definition argumentsb (h : shape) (c : call) : bool :=
  match c with
  | C_cap_set_flag _ _ n l _ => n <=? Z.of_nat (List.length l)
  | C_cap_launcher_set_iab _ iab => match h !! iab with Some (KIab _) => true | _ => false end
  | C_cap_copy_ext (Some _) _ _ | C_cap_copy_int (Some _) | C_cap_copy_int_check _ _
  | C_cap_get_fd _ _ | C_cap_get_file _ _ => false
  | _ => true
  end.
Definition allowedb (w : world rkernel) (c : call) : bool :=
  forallb (fun p => negb (ownedb (g_proc_dir (glob w)) (shape_of w) p)) (passed c) && argumentsb (shape_of w) c.
Lemma allowedb_ok w c : allowedb w c = true -> allowed w c.
Proof.
  intros [Hp Ha]%andb_true_iff. split.
  - apply Forall_forall. intros p Hin. rewrite forallb_forall in Hp. apply ownedb_false, negb_true_iff, Hp. by apply list_elem_of_In.
  - destruct c; cbn in *; try done; try (by destruct buf); try (by destruct e); [lia|].
    right. destruct (shape_of w !! iab) as [[]|]; try done. eauto.
Qed.

Fixpoint does_calls (l : list call) (w : world rkernel) : option (world rkernel) :=
  match l with
  | [] => Some w
  | c :: l =>
      if allowedb w c then
        match perform None c w with (Ok _, w1) => does_calls l w1 | _ => None end
      else None
  end.
Lemma does_calls_careful l w w1 : does_calls l w = Some w1 -> careful None w w1.
Proof.
  revert w. induction l as [|c l IH]; intros w; cbn [does_calls]; [intros [= <-]; apply careful_refl|].
  destruct (allowedb w c) eqn:Hok; [|done]. destruct (perform None c w) as [[[]|e| |] w2] eqn:Hp; try done. intros Hl.
  apply (careful_call None w c w2 (kst w2) (errno w2) (mem w2) (out w2)); [by apply allowedb_ok|exact Hp|]. destruct w2. by apply IH.
Qed.

(** *** The program *)

Definition fresh_world : world rkernel := mkWorld ∅ 8 [] 0 (mkGlobals 41 false false false SC_libc SC_libc 0) k_priv [].
Lemma fresh_world_sound : sound_world fresh_world.
Proof.
  split; [split; [done|]|split; [done|]].
  - intros p o Hp. discriminate.
  - apply (eq_ind_r (@sound 0) sound_empty). apply fmap_empty.
Qed.

(** The tuple at 8, the launcher at 24, its root at 40, the directory at 56; 7 is no
    object, and 24 is no set. *)
Definition before_launch : list call :=
  [C_cap_iab_init; C_cap_iab_set_vector 8 CAP_IAB_INH CAP_CHOWN CAP_SET; C_cap_new_launcher (Some "/bin/true") (Some ["true"]) None;
   C_cap_launcher_set_iab 24 8; C_cap_launcher_set_chroot 24 (Some "/"); C_cap_free 7; C_cap_dup 24; C_cap_proc_root (Some "/mnt/proc");
   C_cap_iab_get_pid 1].
Definition then_ok (c : call) : bool :=
  match does_calls before_launch fresh_world with Some w1 => allowedb w1 c | None => false end.

(** The child is started, and the launcher is released with its parts. *)
Lemma calls_return_witness : exists w1, does_calls before_launch fresh_world = Some w1 /\
  (exists w2, perform None (C_cap_launch 24 0) w1 = (Ok tt, w2) /\ sound_world w2) /\
  (exists w2, perform None (C_cap_free 24) w1 = (Ok tt, w2) /\ sound_world w2).
Proof.
  assert (then_ok (C_cap_launch 24 0) && then_ok (C_cap_free 24) = true) as [H1 H2]%andb_true_iff by (vm_compute; reflexivity).
  unfold then_ok in H1, H2. destruct (does_calls before_launch fresh_world) as [w1|] eqn:E; [|discriminate]. exists w1. split; [reflexivity|].
  pose proof (does_calls_careful _ _ _ E) as Hcareful.
  split; [apply (calls_return None I fresh_world w1 _ fresh_world_sound Hcareful (allowedb_ok _ _ H1))
         |apply (calls_return None I fresh_world w1 _ fresh_world_sound Hcareful (allowedb_ok _ _ H2))].
Defined.

(** *** su, as in WitnessSu.v *)

Lemma demo_shells : shells_plain (K := rkernel).
Proof.
  intros k user pw. cbn. destruct (String.eqb user "alice"); [intros [= <-]; by split|]. destruct (String.eqb user "bob"); [intros [= <-]; by split|done].
Qed.
Lemma demo_waits : waits_end (K := rkernel) 4.
Proof.
  intros child k. cbn. destruct (Z.ltb_spec 0 child) as [Hc|Hc]; [|done].
  destruct (Z.eqb_spec child 0); [lia|]. by destruct (Z.eqb_spec child (- EINTR)); [unfold EINTR in *; lia|].
Qed.
Lemma w_su_wf : world_wf w_su.
Proof. destruct w_priv_wf. by split. Qed.
