(* ===== verification/WitnessPsx.v ===== *)
(** libpsx in concrete processes: the theorems of PsxSpec.v and PsxSolo.v applied
    to them, and two executions that do not end as the callers expect. *)

From stdpp Require Import gmap list sets fin_sets.
From Stdlib Require Import ZArith Lia.
From S2P Require Import Prelude Psx PsxMap PsxInv PsxUniform PsxCall PsxMaster PsxSolo PsxSpec.

Open Scope Z_scope.

(** Credentials are a user; every system call sets it. *)
Definition setid (nr : Z) (args : list Z) (c : Z) : Z * Z := (0, default 0 (args !! 0%nat)).
Definition idle_thread : @thread Z := mkThread Idle None [] 0.
Definition process (l : list Z) : @system Z :=
  mkSystem 100 tracker0 sigact0 (list_to_map ((fun t => (t, idle_thread)) <$> l)) ∅ ∅ false false false.

Lemma process_uniform l : Forall (fun t => 0 < t) l -> uniform (process l).
Proof.
  intros Hl. assert (forall t th, s_threads (process l) !! t = Some th -> t ∈ l /\ th = idle_thread) as H.
  { intros t th H. apply elem_of_list_to_map_2, list_elem_of_fmap in H as (x & [= -> ->] & Hx). done. }
  split; [|split; [done|]].
  - split; [done|]. split; [done|]. split; [done|]. split; [done|]. intros t th [Ht ->]%H.
    rewrite Forall_forall in Hl. split; [by apply Hl|]. split; [done|]. split; [done|]. cbn. set_solver.
  - exists 0. by intros t th [_ ->]%H.
Qed.

(** setid() by thread 100 while 101 exists: up to the first sweep; the sweep that
    signals 101; the handler of 101 up to its wait; a sweep that finds it there;
    the end. *)
Definition entered : list event := Enter 100 105 [7] :: replicate 7 (own 100).
Definition signalled : list event :=
  [own 100; Step 100 (Entry 100); Step 100 (Entry 101); own 100; own 100; own 100; own 100; own 100; own 100; own 100; own 100].
Definition handled : list event := Deliver 101 :: replicate 5 (HandStep 101).
Definition found : list event :=
  [own 100; Step 100 (Entry 100); Step 100 (Entry 101); own 100; own 100; own 100; own 100; own 100].
Definition released : list event := [own 100; own 100; HandStep 101; HandStep 101; own 100; own 100; own 100].
Definition called_all : list event := entered ++ signalled ++ handled ++ found ++ found ++ released.
Definition run_from (es : list event) (l : list Z) : @system Z := default (process l) (run_events setid es (process l)).

Lemma run_from_reach es l : run_events setid es (process l) <> None -> reach setid (process l) (run_from es l).
Proof.
  intros H. unfold run_from. destruct (run_events setid es (process l)) as [s|] eqn:E; [|done].
  by eapply run_events_reach.
Qed.

Lemma psx_exclusive_witness :
  let s := run_from (entered ++ signalled) [100; 101] in
  (t_mu (s_trk s) = s_pid s <-> exists t th, s_threads s !! t = Some th /\ holds th = true) /\ t_mu (s_trk s) = 0.
Proof.
  split; [|vm_compute; reflexivity].
  apply (psx_exclusive setid (process [100; 101])); [apply process_uniform; repeat constructor; lia|].
  apply run_from_reach. vm_compute. discriminate.
Defined.

Lemma psx_uniform_witness :
  let s := run_from called_all [100; 101] in
  exists c, th_creds <$> s_threads s !! 100 = Some c /\ th_creds <$> s_threads s !! 101 = Some c /\ c = 7.
Proof.
  intros s.
  destruct (s_threads s !! 100) as [th0|] eqn:H0; [|vm_compute in H0; discriminate].
  destruct (s_threads s !! 101) as [th1|] eqn:H1; [|vm_compute in H1; discriminate].
  assert (exists lo, th_point th0 = NewState PSX_SYSCALL PSX_IDLE lo) as [lo Hp]
    by (vm_compute in H0; injection H0 as <-; eexists; reflexivity).
  exists (th_creds th0). split; [reflexivity|]. split; [|vm_compute in H0; injection H0 as <-; reflexivity].
  apply (f_equal Some).
  refine (proj1 (proj2 (psx_uniform setid (process [100; 101]) s _ _ _ _) 100 th0 lo H0 Hp 101 th1 H1)).
  - intros nr args c H. discriminate.
  - apply process_uniform. repeat constructor; lia.
  - apply run_from_reach. vm_compute. discriminate.
  - vm_compute. reflexivity.
Defined.


(** A map of 256 references with thread 1 in it, and thread 259. *)
Definition crowded : list thread_ref := upd_ref (fun x => mkRef 2 1 1 0) 1 (replicate 256 ref0).

Lemma crowded_ok : map_ok crowded.
Proof.
  apply (map_ok_upd _ 1); [by apply (map_ok_replicate 8)|]. intros x _. cbn [x_tid]. done.
Qed.


(** A process whose threads are created, and exit, faster than the directory is
    read: before each of the two last sweeps has come to its entry, the only
    other thread creates one and exits. The call returns, and a thread lives that
    has not made it. *)
Definition churn : list event :=
  entered ++ [own 100; Step 100 (Entry 100); Clone 101 102; Exit 101; own 100; own 100;
              own 100; Step 100 (Entry 100); Clone 102 103; Exit 102; own 100; own 100] ++ replicate 5 (own 100).

(** psx_syscall() can return to its caller and leave a thread out: in a reachable
    state with the tracker idle again, thread 100 has returned from the call and
    has the new credentials, and thread 103 has the old ones. *)
Theorem psx_churn_escapes :
  let s := run_from churn [100; 101] in
  reach setid (process [100; 101]) s /\ t_state (s_trk s) = PSX_IDLE /\
  s_threads s !! 100 = Some (mkThread (Returned 0) None [] 7) /\
  s_threads s !! 103 = Some (mkThread Idle None [] 0) /\ s_late s = true.
Proof.
  split; [apply run_from_reach; vm_compute; discriminate|].
  vm_compute. repeat split.
Qed.

(** 101 calls psx_syscall() as well, and is interrupted by the signal for 100's
    call between psx_lock() and psx_unlock(). *)
Definition stuck : list event :=
  entered ++ [own 100; Step 100 (Entry 101); own 100; own 100; own 100; own 100;
              Enter 101 105 [8]; own 101; Deliver 101].

(** The handler tries for the lock; 100 wants it as well. *)
Definition later : list event := [HandStep 101; own 100; HandStep 101].

Lemma psx_handler_deadlock_witness :
  let s' := default (process []) (run_events setid later (run_from stuck [100; 101])) in
  psx_lock (s_pid s') (s_trk s') = None.
Proof.
  intros s'.
  refine (proj2 (psx_handler_deadlock setid (process [100; 101]) (run_from stuck [100; 101]) s' 101
    (NewStateLocked PSX_IDLE PSX_SETUP (enter_locals 105 [8])) _ _ _ _ _)).
  - apply process_uniform. repeat constructor; lia.
  - apply run_from_reach. vm_compute. discriminate.
  - reflexivity.
  - split; [vm_compute; reflexivity|]. eexists _, true. split; [vm_compute; reflexivity|]. split; reflexivity.
  - apply (run_events_reach setid later). unfold s'.
    destruct (run_events setid later (run_from stuck [100; 101])) eqn:E; [reflexivity|]. vm_compute in E. discriminate.
Defined.

(** After a first call, a lone thread calls setid(5). *)
Lemma psx_solo_call_witness :
  let s := run_from (solo_call 100 105 [7] false ++ [own 100]) [100] in
  exists s', run_events setid (solo_call 100 105 [5] false) s = Some s' /\
    s_threads s' = {[100 := mkThread (Returned 0) None [] 5]}.
Proof.
  intros s. destruct (psx_solo_call setid s 100 105 [5] 7 0 5) as (s' & H1 & _ & H2).
  - vm_compute. repeat split.
  - vm_compute. discriminate.
  - lia.
  - vm_compute. reflexivity.
  - cbn. lia.
  - reflexivity.
  - exists s'. split; [exact H1|exact H2].
Defined.
